(* ===== verification/_CoqProject ===== *)
-Q . S2P
Prelude.v
GoBase.v
GoStrings.v
Event.v
Projection.v
GoFloat.v
GoTime.v
Codec.v
JsonScan.v
JsonGrammar.v
Json.v
JsonDecode.v
GoFormat.v
JsonRound.v
JsonTime.v
FloatFormat.v
Template.v
Msgpack.v
MsgpackRound.v
CodecRuns.v
Reference.v
GapSet.v
SeqTrack.v
Ring.v
Shard.v
PathMatch.v
Oracle.v
Target.v
Explain.v
GoText.v
ExplainRules.v
ExplainFacts.v
Differ.v
Sweeper.v
SweepSafety.v
SweepFence.v
SweepClaims.v
SweepRuns.v
Reorder.v
Lag.v
LagSteps.v
LagRuns.v
Spec.v
Ingest.v
IngestFold.v
IngestSafety.v
IngestRuns.v
JsonPipeline.v
Metrics.v
CheckStatus.v
Gauges.v
ExplainSafety.v
ExplainRuns.v
MemoryTarget.v
Redis.v
RedisFacts.v
RedisScan.v
RedisRuns.v
Clock.v
Config.v
ConfigFacts.v
ConfigRuns.v
Source.v
SourceMemory.v
SourceZMQ.v
SourceNATS.v
SourceFile.v
Sources.v
SourceRuns.v
Runners.v
RunnersRuns.v
Api.v
Conversion.v
Sha256.v
ApiStatus.v
Transitions.v
Reconcile.v
OperatorRuns.v
Lifecycle.v
