(* ===== verification/Prelude.v ===== *)
(** * Driftwatch: a verification of the drift detector

    Driftwatch watches the event stream that a materializer turns into the keys of
    a store, folds the same events into its own expectation of every key, and
    compares the two without ever writing to the store. This library models the
    program's logic in src/pkg, and that of its operator in src/internal/controller and
    src/api, and proves what makes its findings trustworthy. This
    file is the root: the prelude every other file requires, with the automation and
    the generic lemmas, and this overview.

    ** How the program is put together

    A message goes from a source to a codec (pkg/codec), which makes it an event
    (pkg/event); the reorder buffer of the check (pkg/check/reorder.go) puts the
    events of a publisher back in sequence; the sequence tracker (pkg/seqtrack)
    classifies each and records the gaps; the projection (pkg/projection) folds it
    into the value its key should have; the oracle (pkg/oracle) keeps that value with
    a version, a trust state and a history, within a budget of keys. Beside this path
    the sweeper (pkg/sweeper) reads the store (pkg/target) for the keys that have
    settled, compares (pkg/differ), and confirms what disagrees by a second read a
    window later; the estimator (pkg/lag) measures how fast the store converges and
    moves that window. The check (pkg/check/check.go) assembles the parts, reacts to
    loss, snapshots, pauses and start-up modes, and reports a phase, a status, metrics
    (pkg/metrics) and explanations of single keys (pkg/explain). In a cluster the
    operator (internal/controller) runs one check for each DriftCheck object
    (api/v1alpha1): admission fills in and validates the object, a reconcile converts it
    to the specification of a check, has the registry of runners start, keep or replace
    the check, and writes what the check reports onto the object, with its events.

    ** Which file models what

    Go itself: GoBase (machine integers, times and durations, binary search, the
    unspecified order of maps as the class [MapOrder]), GoStrings (UTF-8, trimming,
    splitting, integers), Sha256 (crypto/sha256), GoFloat (float64 as SpecFloat), GoTime (the calendar and
    time.Parse), GoFormat and FloatFormat (strconv), GoText (parsing
    floats, quoting, durations as text), PathMatch (path.Match).

    Sources: Source (what they share: configuration, counters, the bounded channel),
    SourceMemory, SourceZMQ, SourceNATS, SourceFile (a file of pkg/source each, its loop
    as steps, with its theorems), Sources (the registry) and SourceRuns.

    Data and folding: Event (pkg/event), Projection and Reference (pkg/projection,
    the interface as the record [projection]).

    Codecs: Codec (the registry and what codecs share), JsonScan, Json (json.go),
    Template (template.go), Msgpack (msgpack.go); JsonGrammar, JsonDecode, JsonRound,
    JsonTime, MsgpackRound prove them against a grammar, an encoder, the standard
    library's time.Parse and each other; CodecRuns has concrete payloads.

    Sequences and state: GapSet and SeqTrack (pkg/seqtrack), Ring, Shard, Oracle
    (pkg/oracle), Reorder (reorder.go).

    Sweeping: Target (the vocabulary of reads and the command allowlist), Differ
    (pkg/differ: Compare and the report), Sweeper (pkg/sweeper)
    with SweepSafety, SweepFence, SweepClaims and SweepRuns; Lag (pkg/lag) with
    LagSteps and LagRuns.

    The check: Spec and Config (pkg/check/config.go) with ConfigFacts and ConfigRuns, Ingest (the pipeline and the
    life cycle) with IngestFold, IngestSafety, IngestRuns and JsonPipeline;
    CheckStatus (Status, Summary, Explain), Gauges (what it measures of itself) and
    Lifecycle (New, Run and Close).

    Reporting: Explain and ExplainRules (pkg/explain) with ExplainFacts, ExplainSafety
    and ExplainRuns; Metrics (pkg/metrics), with the bound on its series.

    Stores and time: MemoryTarget (memory.go, recording.go); Redis
    (redis.go) with RedisFacts, RedisScan and RedisRuns; Clock (pkg/clock).

    The operator: Api (the object, driftcheck_types.go), Conversion (conversion.go,
    driftcheck_defaults.go, driftcheck_webhook.go), Runners (the registry of runner.go as
    interleaved threads), ApiStatus (status.go), Transitions (events.go), Reconcile
    (driftcheck_controller.go and SpecHash), RunnersRuns and OperatorRuns.

    A definition has the name of the Go function or method it translates, qualified by
    its file where two share one; a name with an underscore in front of a method
    ([Redis_Get], [Timer_Reset]) is that method of that type; a lower-case name that the
    source has not is a part of a longer function (a loop body, a branch).

    ** How the code is modelled

    Integers are [Z] with the wrap-around of their width written out ([u64], [i64]);
    strings are Go's byte strings; a map is a [gmap] and every range over one goes
    through [MapOrder], so theorems hold for every order. Errors are the left of a sum;
    a panic, an end of the goroutine and a body that would not return are values too
    ([None], or a constructor of their own), so that a theorem about results says when
    there is one. State is passed explicitly. What runs under one mutex is one
    function; what interleaves is a step relation (IngestSafety, LagSteps, Clock, the sources, Runners)
    or, for the sweeper, a world that says what each read sees at each tick, and for a
    reconcile a world that says what the API server and the registry answer.

    Third-party code is a parameter with documented behaviour as a named hypothesis:
    the hash of keys ([XXHash]), text/template ([TemplateEngine]), regexp
    ([RegexpEngine]), the msgpack decoder ([MsgpackDecoder]), random samples ([Rand]),
    Unicode's case tables ([UnicodeTables]), the conversion of a float that does not fit
    ([FloatOverflow]), go-redis ([RedisClient]), the list of conditions, the finalizers, the
    field paths and json.Marshal with the duration type of the Kubernetes libraries
    ([ConditionStore], [FinalizerOps], [FieldPath], [SpecEncoder]), errgroup ([ErrGroup]). Each has an instance in a Runs file,
    where every theorem with hypotheses is applied to a concrete run.

    ** What is proved

    - The belief is right: over streams that lose nothing the oracle holds, key by key
      and with complete trust, what the reference fold says (IngestFold), from the
      bytes on (JsonPipeline), whatever order events arrive in within the reorder
      window (Reorder); the three projections agree with the naive fold (Reference).
    - The doubt is right: trust is complete only where no sequence number is missing
      (SeqTrack, GapSet), and in every state a check reaches a key whose publisher has
      a known gap is under suspicion (IngestSafety); Strict start-up trusts nothing
      before a snapshot; a check that says Watching knows of nothing wrong.
    - The findings are right: versions fence a comparison against concurrent changes
      (Oracle, SweepFence), confirmation takes a second read a window later
      (SweepClaims), an unreachable store asserts nothing, Compare is silent exactly
      where the values agree or the difference is excused (Differ).
    - Explanations are right: DIVERGED exactly when earned, and blaming the store only
      over a complete sequence (ExplainFacts, ExplainSafety).
    - A check cleans up: one that cannot be built closes what it opened, a panic of a
      guarded goroutine fails the check by its name (Lifecycle).
    - Messages are accounted for: what a source takes is delivered, in its queue, or
      counted as lost and signalled (SourceMemory, SourceZMQ, SourceNATS), and a replay
      reads every line or fails (SourceFile).
    - One check runs for one object: however reconciles, stops and a shutdown
      interleave, at most one runner of a key was not told to stop, a shutdown leaves
      none, nothing deadlocks (Runners); the finalizer outlives the runner, every
      reconcile comes back, a pause or the order of a map replaces no runner
      (Reconcile).
    - The object tells the check: admission refuses what the command line refuses and
      names the field, defaulting changes no check (Conversion), every condition answers
      as the check does and moves when its answer does (ApiStatus), the events are a
      history (Transitions).
    - The store is never written: the hook, the recorder and the allowlist (Target,
      RedisFacts, MemoryTarget); a batch reads what single reads do, the store of the
      tests reads as Redis does, and scans end and are complete (RedisFacts, RedisScan).
    - Bytes are read right: the scanner accepts exactly its grammar, decoding undoes
      encoding, timestamps are time.Parse's, the codecs agree (JsonDecode, JsonRound,
      JsonTime, MsgpackRound).
    - The configuration is safe: what validates is usable, and what it says of the
      store and the codec is what their constructors read back (ConfigFacts).
    - Everything is bounded and ends: the oracle, the confirm queue, the series of the
      metrics (Metrics), the settlement window and the measurements in flight
      (LagSteps), decoding, scanning and explaining; one advance of the fake clock is
      any split of it (Clock).

    ** Fuel

    A recursion that is not structural takes a [nat], and a theorem says how much is
    enough: the length of the input for the JSON scanner ([scanValue_total]), the
    number of keys for ReadMany, a million calls for a scan ([enough]), the number of
    ticks due for an advance ([advance_loop_ends]). The definitions that call such a
    loop pass that amount where it is cheap to compute and take it as an argument
    where it is not (the scan and the clock). The attempts at a status are as many as the
    library's retry makes, an argument; the digest has a block for every byte and one.

    ** What is not modelled

    Input and output: the sockets, connections and files behind the sources and the
    resolution of host names, logging, the HTTP endpoints, the command line
    (internal/cli), the manager (cmd/driftwatch-manager), the wait of the stopper for the
    lease, and generated deep copies, which wire the parts above to libraries. Of
    check.go, the loops that only wait for channels and tickers; of pkg/explain and pkg/differ, the rendering as text and JSON; of pkg/metrics, the
    registration and the generated documentation. Goroutines and channels as such:
    their interleavings are modelled where the parts share state, not their scheduling.
    Memory: slices shared between an event and a buffer are values. The scratch buffers
    of the json codec, the text of most log and error messages, and YAML reading are
    left out. Test harnesses, generators and repository tools are not the program. *)
From Stdlib Require Export ZArith Lia.
From stdpp Require Export base list sorting gmap strings fin_maps option relations.

#[export] Set Warnings "-clear-no-such-hyp".
#[global] Open Scope Z_scope.

(** ** Automation *)

(** The lemmas of the development that automate the common cases. *)
Create HintDb drift.
Create Rewrite HintDb drift.
#[export] Hint Unfold not : drift.

(** Boolean integer tests of the translated code, turned into propositions. *)
Ltac zbool :=
  repeat match goal with
  | H : (_ && _)%bool = true |- _ => apply andb_true_iff in H as [? ?]
  | H : (_ || _)%bool = false |- _ => apply orb_false_iff in H as [? ?]
  | H : negb _ = true |- _ => apply negb_true_iff in H
  | H : negb _ = false |- _ => apply negb_false_iff in H
  | H : (_ <? _) = true |- _ => apply Z.ltb_lt in H
  | H : (_ <? _) = false |- _ => apply Z.ltb_ge in H
  | H : (_ <=? _) = true |- _ => apply Z.leb_le in H
  | H : (_ <=? _) = false |- _ => apply Z.leb_gt in H
  | H : (_ =? _) = true |- _ => apply Z.eqb_eq in H
  | H : (_ =? _) = false |- _ => apply Z.eqb_neq in H
  | H : (_ >? _) = true |- _ => rewrite Z.gtb_ltb in H
  | H : (_ >? _) = false |- _ => rewrite Z.gtb_ltb in H
  | H : (_ >=? _) = true |- _ => rewrite Z.geb_leb in H
  | H : (_ >=? _) = false |- _ => rewrite Z.geb_leb in H
  end.

(** Split on the first boolean test of the goal and record what it says. *)
Ltac case_bool :=
  match goal with
  | |- context [if ?b then _ else _] =>
      lazymatch type of b with bool => destruct b eqn:? end
  end; zbool; try lia.

(** ** Errors as values *)

(** [inl] is a returned error; what follows it is not run. *)
#[export] Instance sum_ret {E} : MRet (sum E) := λ _ a, inr a.
#[export] Instance sum_bind {E} : MBind (sum E) :=
  λ _ _ f m, match m with inl err => inl err | inr a => f a end.

(** ** Generic list lemmas *)

Section lists.
Context {A : Type}.
Implicit Types (l : list A) (R : A → A → Prop).

Lemma StronglySorted_middle R l1 x l2 :
  StronglySorted R (l1 ++ x :: l2) ↔
    StronglySorted R l1 ∧ StronglySorted R l2
    ∧ (∀ a, a ∈ l1 → R a x) ∧ (∀ b, b ∈ l2 → R x b)
    ∧ (∀ a b, a ∈ l1 → b ∈ l2 → R a b).
Proof.
  rewrite StronglySorted_app. split.
  - intros (H & H1 & H2). inversion H2 as [|? ? H3 H4]; subst.
    rewrite Forall_forall in H4.
    split_and!; auto; intros; apply H; set_solver.
  - intros (H1 & H2 & H3 & H4 & H5). split_and!; auto.
    + intros a b Ha Hb. apply elem_of_cons in Hb as [->|Hb]; auto.
    + constructor; auto. by apply Forall_forall.
Qed.

Lemma take_In l n x : x ∈ take n l → x ∈ l.
Proof. intros (i & ? & _)%elem_of_take. apply list_elem_of_lookup. eauto. Qed.

Lemma drop_In l n x : x ∈ drop n l → x ∈ l.
Proof.
  intros (i & Hi)%list_elem_of_lookup. rewrite lookup_drop in Hi.
  apply list_elem_of_lookup. eauto.
Qed.

Lemma take_drop_split l (i j : nat) :
  (i ≤ j)%nat → l = take i l ++ take (j - i) (drop i l) ++ drop j l.
Proof.
  intros Hij. rewrite <- (take_drop i l) at 1. f_equal.
  rewrite <- (take_drop (j - i) (drop i l)) at 1. f_equal.
  rewrite drop_drop. f_equal. lia.
Qed.

(** Two steps that each keep a multiset keep it together. *)
Lemma perm_chain (o os h h1 h2 f1 f2 i1 i2 : list A) :
  o ++ h1 ++ f1 ≡ₚ h ++ i1 → os ++ h2 ++ f2 ≡ₚ h1 ++ i2 →
  (o ++ os) ++ h2 ++ f1 ++ f2 ≡ₚ h ++ i1 ++ i2.
Proof.
  intros H1 H2. rewrite (app_assoc h), <- H1, <- !app_assoc. f_equiv.
  rewrite (Permutation_app_swap_app h1), <- H2, (Permutation_app_swap_app h2).
  by rewrite (Permutation_app_swap_app os).
Qed.

(** The last [n] elements. *)
Definition last_n (n : nat) l : list A := drop (length l - n) l.

Lemma last_n_snoc n l x :
  (0 < n)%nat → last_n n (l ++ [x]) = drop (length (last_n n l) + 1 - n) (last_n n l) ++ [x].
Proof.
  intros Hn. unfold last_n. rewrite length_app, length_drop, drop_drop. cbn.
  rewrite drop_app_le by lia. f_equal. f_equal. lia.
Qed.

Lemma length_last_n n l : length (last_n n l) = Nat.min n (length l).
Proof. unfold last_n. rewrite length_drop. lia. Qed.

(** Overwriting the oldest element of a circular buffer and moving on drops it and adds the new one
    at the end of the rotation. *)
Lemma rotate_insert l (n : nat) x :
  (n < length l)%nat →
  let n' := ((n + 1) mod length l)%nat in
  drop n' (<[n := x]> l) ++ take n' (<[n := x]> l) = drop 1 (drop n l ++ take n l) ++ [x].
Proof.
  intros Hn n'. rewrite insert_take_drop by done.
  destruct (drop n l) as [|y rest] eqn:Hd.
  { apply (f_equal length) in Hd. rewrite length_drop in Hd. cbn in Hd. lia. }
  assert (drop (S n) l = rest) as Hd'.
  { replace (S n) with (n + 1)%nat by lia. rewrite <- drop_drop, Hd. done. }
  rewrite Hd'. cbn [drop app]. rewrite drop_0.
  assert (length (take n l) = n) as Htk by (rewrite length_take; lia).
  unfold n'. destruct (decide (n + 1 = length l)%nat) as [Hw|Hw].
  - rewrite Hw, Nat.Div0.mod_same, drop_0, take_0, app_nil_r.
    assert (rest = []) as ->; [|done]. rewrite <- Hd'. apply drop_ge. lia.
  - rewrite Nat.mod_small by lia. rewrite drop_app_ge by lia. rewrite take_app_ge by lia. rewrite Htk.
    replace (n + 1 - n)%nat with 1%nat by lia. cbn. rewrite drop_0, take_0. by rewrite <- app_assoc.
Qed.
End lists.
