(* ===== verification/GoBase.v ===== *)
(** * GoBase: the parts of the Go language and standard library the program uses

    Machine integers, [time.Time] and [time.Duration], [sort.Search], and the
    unspecified iteration order of Go maps. *)
From S2P Require Import Prelude.

(** ** uint64 and int64 *)

Definition max_u64 : Z := 2 ^ 64 - 1.
Definition u64 (z : Z) : Z := z mod 2 ^ 64.
Definition is_u64 (z : Z) : Prop := 0 ≤ z ≤ max_u64.

Definition min_i64 : Z := - 2 ^ 63.
Definition max_i64 : Z := 2 ^ 63 - 1.
Definition i64 (z : Z) : Z := (z + 2 ^ 63) mod 2 ^ 64 - 2 ^ 63.
Definition is_i64 (z : Z) : Prop := min_i64 ≤ z ≤ max_i64.

Lemma max_u64_val : max_u64 = 18446744073709551615.
Proof. reflexivity. Qed.

Lemma u64_small z : is_u64 z → u64 z = z.
Proof. unfold is_u64, u64, max_u64. intros. apply Z.mod_small. lia. Qed.

Lemma u64_range z : is_u64 (u64 z).
Proof.
  unfold is_u64, u64, max_u64. pose proof (Z.mod_pos_bound z (2 ^ 64)). lia.
Qed.

Lemma u64_succ_max : u64 (max_u64 + 1) = 0.
Proof. reflexivity. Qed.

Lemma i64_small z : is_i64 z → i64 z = z.
Proof.
  unfold is_i64, i64, min_i64, max_i64. intros. rewrite Z.mod_small; lia.
Qed.

Lemma i64_range z : is_i64 (i64 z).
Proof.
  unfold is_i64, i64, min_i64, max_i64.
  pose proof (Z.mod_pos_bound (z + 2 ^ 63) (2 ^ 64)). lia.
Qed.

#[export] Hint Resolve u64_range i64_range : drift.
#[export] Hint Rewrite u64_small i64_small using (unfold is_u64, is_i64, max_u64, min_i64, max_i64 in *; lia) : drift.

(** ** time.Time and time.Duration

    An instant is the number of nanoseconds since the Unix epoch on one time
    line; the zero [Time] of Go is 1 January of year 1. *)

Abbreviation Time := Z (only parsing).
Abbreviation Duration := Z (only parsing).

Definition zero_time : Time := - 62135596800 * 10 ^ 9.
Definition IsZero (t : Time) : bool := t =? zero_time.
Definition Before (t u : Time) : bool := t <? u.
Definition After (t u : Time) : bool := u <? t.
Definition time_Add (t : Time) (d : Duration) : Time := t + d.
(** [Time.Sub] saturates at the limits of [Duration]. *)
Definition time_Sub (t u : Time) : Duration := Z.max min_i64 (Z.min max_i64 (t - u)).
(** [Time.UnixNano]: an int64, so instants far from 1970 wrap. *)
Definition UnixNano (t : Time) : Z := i64 t.

Definition time_Second : Duration := 10 ^ 9.
Definition time_Millisecond : Duration := 10 ^ 6.
Definition time_Minute : Duration := 60 * time_Second.

(** ** sort.Search

    Binary search for the least index in [0, n) at which [f] holds. The fuel
    bounds the number of halvings; [n] of them is more than enough because the
    interval shrinks at every step ([search_loop_spec]). *)

Fixpoint search_loop (fuel i j : nat) (f : nat → bool) : nat :=
  match fuel with
  | O => i
  | S fuel' =>
      if (i <? j)%nat then
        let h := ((i + j) / 2)%nat in
        if negb (f h) then search_loop fuel' (S h) j f
        else search_loop fuel' i h f
      else i
  end.

Definition sort_Search (n : nat) (f : nat → bool) : nat := search_loop n 0 n f.

Definition upto_mono (n : nat) (f : nat → bool) : Prop :=
  ∀ a b, (a ≤ b < n)%nat → f a = true → f b = true.

Lemma search_loop_spec n f fuel : ∀ i j,
  upto_mono n f → (j - i ≤ fuel)%nat → (i ≤ j ≤ n)%nat →
  (∀ k, (k < i)%nat → f k = false) → (∀ k, (j ≤ k < n)%nat → f k = true) →
  let r := search_loop fuel i j f in
  (r ≤ n)%nat ∧ (∀ k, (k < r)%nat → f k = false) ∧ (∀ k, (r ≤ k < n)%nat → f k = true).
Proof.
  induction fuel as [|fuel IH]; intros i j Hm Hf Hij Hlo Hhi; cbn [search_loop]; cbv zeta.
  - split_and!; [lia|done|]. intros k Hk. apply Hhi. lia.
  - destruct (Nat.ltb_spec i j) as [Hlt|Hge].
    2: { split_and!; [lia|done|]. intros k Hk. apply Hhi. lia. }
    assert (i ≤ (i + j) / 2 < j)%nat as Hh.
    { split; [apply Nat.div_le_lower_bound|apply Nat.Div0.div_lt_upper_bound]; lia. }
    destruct (f ((i + j) / 2)%nat) eqn:Hfh; cbn [negb]; apply IH; auto; try lia.
    + intros k Hk. apply (Hm ((i + j) / 2)%nat); [lia|done].
    + intros k Hk. destruct (f k) eqn:Hfk; [|done].
      rewrite (Hm k ((i + j) / 2)%nat) in Hfh; [done|lia|done].
Qed.

Lemma sort_Search_spec n f :
  upto_mono n f →
  (sort_Search n f ≤ n)%nat
  ∧ (∀ k, (k < sort_Search n f)%nat → f k = false)
  ∧ (∀ k, (sort_Search n f ≤ k < n)%nat → f k = true).
Proof. intros Hm. apply search_loop_spec; auto; intros; lia. Qed.

(** The test [p(l[i])] of an index below the length, as [sort.Search] closures use it. *)
Definition at_index {A} (l : list A) (p : A → bool) (i : nat) : bool :=
  match l !! i with Some x => p x | None => false end.

(** A binary search splits the list where the test starts to hold. *)
Lemma sort_Search_split {A} (l : list A) (p : A → bool) :
  upto_mono (length l) (at_index l p) →
  let lo := sort_Search (length l) (at_index l p) in
  (lo ≤ length l)%nat
  ∧ (∀ x, x ∈ take lo l → p x = false) ∧ (∀ x, x ∈ drop lo l → p x = true).
Proof.
  intros Hm lo. destruct (sort_Search_spec _ _ Hm) as (H1 & H2 & H3). fold lo in H1, H2, H3.
  split_and!; [done| |].
  - intros x (k & Hk)%list_elem_of_lookup.
    assert (k < lo)%nat as Hlt.
    { apply lookup_lt_Some in Hk. rewrite length_take in Hk. lia. }
    rewrite lookup_take_lt in Hk by done. specialize (H2 k Hlt).
    unfold at_index in H2. by rewrite Hk in H2.
  - intros x (k & Hk)%list_elem_of_lookup. rewrite lookup_drop in Hk.
    pose proof (lookup_lt_Some _ _ _ Hk). specialize (H3 (lo + k)%nat ltac:(lia)).
    unfold at_index in H3. by rewrite Hk in H3.
Qed.

(** ** Map iteration order

    Go leaves the order in which [range] visits a map unspecified. [MapOrder] is
    any such choice: theorems hold for every instance, and two instances witness
    where the program's result depends on it. *)

Class MapOrder := {
  range_order : ∀ {A : Type}, list A → list A;
  range_order_perm : ∀ {A : Type} (l : list A), range_order l ≡ₚ l
}.

Definition ascending_order : MapOrder :=
  {| range_order := λ _ l, l; range_order_perm := λ _ l, Permutation_refl l |}.
Definition descending_order : MapOrder :=
  {| range_order := λ _ l, reverse l; range_order_perm := λ _ l, reverse_Permutation l |}.

Section ranges.
Context `{MapOrder} `{Countable K} {A : Type}.

(** [for k, v := range m]. *)
Definition range_map (m : gmap K A) : list (K * A) := range_order (map_to_list m).
(** [for k := range s]. *)
Definition range_set (s : gset K) : list K := range_order (elements s).

Lemma elem_of_range_map (m : gmap K A) k v : (k, v) ∈ range_map m ↔ m !! k = Some v.
Proof. unfold range_map. rewrite range_order_perm. apply elem_of_map_to_list. Qed.
Lemma elem_of_range_set (s : gset K) k : k ∈ range_set s ↔ k ∈ s.
Proof. unfold range_set. rewrite range_order_perm. apply elem_of_elements. Qed.
Lemma NoDup_range_set (s : gset K) : NoDup (range_set s).
Proof. unfold range_set. rewrite range_order_perm. apply NoDup_elements. Qed.
Lemma NoDup_fst_range_map (m : gmap K A) : NoDup (range_map m).*1.
Proof. unfold range_map. rewrite range_order_perm. apply NoDup_fst_map_to_list. Qed.
Lemma length_range_set (s : gset K) : length (range_set s) = size s.
Proof. unfold range_set. by rewrite range_order_perm. Qed.
Lemma length_range_map (m : gmap K A) : length (range_map m) = size m.
Proof. unfold range_map. rewrite range_order_perm. apply length_map_to_list. Qed.
End ranges.
#[export] Hint Rewrite @elem_of_range_map @elem_of_range_set : drift.

(** ** Sums over maps *)

Section msum.
Context `{Countable K} {A : Type}.
Implicit Types (f g : A → Z) (m : gmap K A) (k : K) (e : A).

Definition msum (f : A → Z) (m : gmap K A) : Z := map_fold (λ _ e acc, f e + acc) 0 m.

Lemma msum_insert_new f m k e : m !! k = None → msum f (<[k := e]> m) = f e + msum f m.
Proof. intros Hk. apply (map_fold_insert_L (λ _ e acc, f e + acc) 0 k e m); [intros; lia|done]. Qed.

Lemma msum_delete f m k e : m !! k = Some e → msum f m = f e + msum f (delete k m).
Proof. intros Hk. apply (map_fold_delete_L (λ _ e acc, f e + acc) 0 k e m); [intros; lia|done]. Qed.

Lemma msum_overwrite f m k e0 e :
  m !! k = Some e0 → msum f (<[k := e]> m) = msum f m - f e0 + f e.
Proof.
  intros Hk. rewrite (msum_delete f m k e0), <- insert_delete_eq by done.
  rewrite msum_insert_new by apply lookup_delete_eq. lia.
Qed.

Lemma msum_ext f g m : (∀ k e, m !! k = Some e → f e = g e) → msum f m = msum g m.
Proof.
  induction m as [|k e m Hk IH] using map_ind; intros Hfg; [done|].
  rewrite !msum_insert_new by done. rewrite (Hfg k) by apply lookup_insert_eq.
  rewrite IH; [done|]. intros j e' Hj. apply (Hfg j). rewrite lookup_insert_ne; [done|].
  intros ->. congruence.
Qed.

Lemma msum_zero m : msum (λ _, 0) m = 0.
Proof.
  induction m as [|k e m Hk IH] using map_ind; [done|]. by rewrite msum_insert_new, IH by done.
Qed.

Lemma msum_plus f g m : msum (λ e, f e + g e) m = msum f m + msum g m.
Proof.
  induction m as [|k e m Hk IH] using map_ind; [done|].
  rewrite !msum_insert_new, IH by done. lia.
Qed.
End msum.
