(* ===== verification/GoStrings.v ===== *)
(** * GoStrings: the string functions of Go's standard library the program uses

    A Go string is a sequence of bytes, here a [string] of [ascii]. UTF-8
    decoding and encoding, [strings.TrimSpace], [strings.Split],
    [strings.ReplaceAll], [hex.EncodeToString] and [strconv.ParseInt]. *)
From Stdlib Require Import Ascii String.
From stdpp Require Import pretty strings.
From S2P Require Import Prelude GoBase.

Definition byte_of (c : ascii) : Z := Z.of_N (N_of_ascii c).
Definition ascii_of (b : Z) : ascii := ascii_of_N (Z.to_N b).

Definition string_of_list (l : list ascii) : string := string_of_list_ascii l.
Definition list_of_string (s : string) : list ascii := list_ascii_of_string s.

Fixpoint concat_strings (l : list string) : string :=
  match l with [] => "" | s :: l => s +:+ concat_strings l end.

(** s[n:] *)
Fixpoint string_drop (n : nat) (s : string) : string :=
  match n, s with
  | S n, String _ s => string_drop n s
  | _, _ => s
  end.

(** s[:n] *)
Fixpoint string_take (n : nat) (s : string) : string :=
  match n, s with
  | S n, String c s => String c (string_take n s)
  | _, _ => ""
  end.

(** strings.HasPrefix(s, prefix) *)
Fixpoint HasPrefix (prefix s : string) : bool :=
  match prefix, s with
  | "", _ => true
  | String a p, String b s => Ascii.eqb a b && HasPrefix p s
  | _, "" => false
  end.

(** ** UTF-8 *)

Definition RuneError : Z := 65533.

Definition in_range (lo hi b : Z) : bool := (lo <=? b) && (b <=? hi).
Definition is_cont (b : Z) : bool := in_range 128 191 b.
Definition cont_bits (b : Z) : Z := Z.land b 63.

(** utf8.DecodeRuneInString: the rune and its width; an invalid byte is
    [RuneError] of width 1, the empty string [RuneError] of width 0. *)
Definition DecodeRune (s : string) : Z * nat :=
  match s with
  | "" => (RuneError, 0%nat)
  | String c0 s1 =>
      let b0 := byte_of c0 in
      if b0 <? 128 then (b0, 1%nat)
      else
        match s1 with
        | "" => (RuneError, 1%nat)
        | String c1 s2 =>
            let b1 := byte_of c1 in
            if in_range 194 223 b0 then
              if is_cont b1 then (Z.lor (Z.shiftl (Z.land b0 31) 6) (cont_bits b1), 2%nat)
              else (RuneError, 1%nat)
            else
              match s2 with
              | "" => (RuneError, 1%nat)
              | String c2 s3 =>
                  let b2 := byte_of c2 in
                  if in_range 224 239 b0 then
                    let lo := if b0 =? 224 then 160 else 128 in
                    let hi := if b0 =? 237 then 159 else 191 in
                    if in_range lo hi b1 && is_cont b2 then
                      (Z.lor (Z.shiftl (Z.land b0 15) 12)
                             (Z.lor (Z.shiftl (cont_bits b1) 6) (cont_bits b2)), 3%nat)
                    else (RuneError, 1%nat)
                  else
                    match s3 with
                    | "" => (RuneError, 1%nat)
                    | String c3 _ =>
                        let b3 := byte_of c3 in
                        let lo := if b0 =? 240 then 144 else 128 in
                        let hi := if b0 =? 244 then 143 else 191 in
                        if in_range 240 244 b0 && in_range lo hi b1 && is_cont b2 && is_cont b3 then
                          (Z.lor (Z.shiftl (Z.land b0 7) 18)
                             (Z.lor (Z.shiftl (cont_bits b1) 12)
                                (Z.lor (Z.shiftl (cont_bits b2) 6) (cont_bits b3))), 4%nat)
                        else (RuneError, 1%nat)
                    end
              end
        end
  end.

(** utf8.EncodeRune *)
Definition EncodeRune (r : Z) : string :=
  let r := if (r <? 0) || (r >? 1114111) || in_range 55296 57343 r then RuneError else r in
  let cont n := ascii_of (128 + Z.land (Z.shiftr r n) 63) in
  if r <? 128 then String (ascii_of r) ""
  else if r <? 2048 then String (ascii_of (192 + Z.shiftr r 6)) (String (cont 0) "")
  else if r <? 65536 then
    String (ascii_of (224 + Z.shiftr r 12)) (String (cont 6) (String (cont 0) ""))
  else String (ascii_of (240 + Z.shiftr r 18))
         (String (cont 12) (String (cont 6) (String (cont 0) ""))).

(** [for _, r := range s]: the runes with the bytes each one took. [skip] counts
    the bytes of the rune just read that are still to be passed. *)
Fixpoint rune_chunks_from (s : string) (skip : nat) : list (Z * string) :=
  match s with
  | "" => []
  | String _ s' =>
      match skip with
      | S k => rune_chunks_from s' k
      | O => let '(r, w) := DecodeRune s in (r, string_take w s) :: rune_chunks_from s' (w - 1)
      end
  end.

Definition rune_chunks (s : string) : list (Z * string) := rune_chunks_from s 0.

(** utf8.ValidString: no chunk is an invalid byte. *)
Definition ValidString (s : string) : bool :=
  forallb (λ rc, negb ((rc.1 =? RuneError) && (String.length rc.2 =? 1)%nat)) (rune_chunks s).

(** unicode.IsSpace *)
Definition IsSpace (r : Z) : bool :=
  in_range 9 13 r || (r =? 32) || (r =? 133) || (r =? 160) || (r =? 5760)
  || in_range 8192 8202 r || (r =? 8232) || (r =? 8233) || (r =? 8239) || (r =? 8287)
  || (r =? 12288).

Fixpoint drop_while {A} (p : A → bool) (l : list A) : list A :=
  match l with x :: l' => if p x then drop_while p l' else l | [] => [] end.

(** strings.TrimSpace *)
Definition TrimSpace (s : string) : string :=
  let space rc := IsSpace (fst rc) in
  concat_strings (snd <$> reverse (drop_while space (reverse (drop_while space (rune_chunks s))))).

(** unicode.ToLower and strings.ToUpper change ASCII letters as below; above ASCII
    they follow the Unicode tables, which are a parameter here. *)
Class UnicodeTables := {
  ToLower_wide : Z → Z;
  ToUpper_wide : Z → Z
}.

Definition unicode_ToLower `{UnicodeTables} (r : Z) : Z :=
  if r <? 128 then (if in_range 65 90 r then r + 32 else r) else ToLower_wide r.

(** strings.ToUpper: rune by rune, an invalid byte becoming U+FFFD. *)
Definition strings_ToUpper `{UnicodeTables} (s : string) : string :=
  concat_strings ((λ rc, EncodeRune (if fst rc <? 128 then
      (if in_range 97 122 (fst rc) then fst rc - 32 else fst rc) else ToUpper_wide (fst rc)))
    <$> rune_chunks s).

(** The tables of a program that only sees ASCII letters with case. *)
Definition caseless : UnicodeTables := {| ToLower_wide := λ r, r; ToUpper_wide := λ r, r |}.

(** ** strings.Split and strings.ReplaceAll *)

(** The pieces between the occurrences of [sep], scanning left to right. *)
Fixpoint split_from (sep s : string) (skip : nat) (acc : list ascii) : list string :=
  match s with
  | "" => [string_of_list (reverse acc)]
  | String c s' =>
      match skip with
      | S k => split_from sep s' k acc
      | O =>
          if HasPrefix sep s
          then string_of_list (reverse acc) :: split_from sep s' (String.length sep - 1) []
          else split_from sep s' 0 (c :: acc)
      end
  end.

(** strings.Split: an empty separator splits into UTF-8 sequences. *)
Definition strings_Split (s sep : string) : list string :=
  if bool_decide (sep = "") then snd <$> rune_chunks s else split_from sep s 0 [].

Fixpoint strings_Join (l : list string) (sep : string) : string :=
  match l with
  | [] => ""
  | [s] => s
  | s :: l => s +:+ sep +:+ strings_Join l sep
  end.

(** strings.ReplaceAll(s, old, new) for a non-empty [old]. *)
Definition strings_ReplaceAll (s old new : string) : string :=
  strings_Join (strings_Split s old) new.

(** ** hex.EncodeToString *)

Definition hex_digit (n : Z) : ascii := ascii_of (if n <? 10 then 48 + n else 87 + n).

Fixpoint hex_EncodeToString (s : string) : string :=
  match s with
  | "" => ""
  | String c s =>
      String (hex_digit (Z.shiftr (byte_of c) 4))
        (String (hex_digit (Z.land (byte_of c) 15)) (hex_EncodeToString s))
  end.

(** ** strconv.ParseInt(s, 10, 64) *)

Fixpoint digits_value (s : string) (acc : Z) : option Z :=
  match s with
  | "" => Some acc
  | String c s =>
      let d := byte_of c - 48 in
      if in_range 0 9 d then digits_value s (10 * acc + d) else None
  end.

(** [None] is the error: no digits, a stray character, or out of range. *)
Definition ParseInt (s : string) : option Z :=
  let '(neg, ds) := match s with
                    | String "-" s' => (true, s')
                    | String "+" s' => (false, s')
                    | _ => (false, s) end in
  match ds with
  | "" => None
  | _ =>
      match digits_value ds 0 with
      | None => None
      | Some n =>
          let n := if (neg : bool) then - n else n in
          if (min_i64 <=? n) && (n <=? max_i64) then Some n else None
      end
  end.

(** strconv.ParseUint(s, 10, 64) *)
Definition ParseUint (s : string) : option Z :=
  match s with
  | "" => None
  | _ => n ← digits_value s 0; if n <=? max_u64 then Some n else None
  end.

(** strings.Cut(s, sep) for a one-byte separator: before, after, found. *)
Fixpoint strings_Cut (s : string) (sep : ascii) : string * string * bool :=
  match s with
  | "" => ("", "", false)
  | String c s =>
      if Ascii.eqb c sep then ("", s, true)
      else let '(before, after, found) := strings_Cut s sep in (String c before, after, found)
  end.

(** ** Lemmas *)

Lemma string_app_cons c a b : String c a +:+ b = String c (a +:+ b).
Proof. done. Qed.

Lemma string_app_nil_l s : "" +:+ s = s.
Proof. done. Qed.

Lemma string_app_nil_r s : s +:+ "" = s.
Proof. induction s as [|c s IH]; [done|]. by rewrite string_app_cons, IH. Qed.

Lemma string_app_assoc a b c : (a +:+ b) +:+ c = a +:+ b +:+ c.
Proof. induction a as [|x a IH]; [done|]. by rewrite !string_app_cons, IH. Qed.

(** Concatenations nested to the right. *)
Ltac str_norm := repeat first [rewrite string_app_assoc | rewrite string_app_cons | rewrite string_app_nil_l].
Tactic Notation "str_norm" "in" hyp(H) :=
  repeat first [rewrite string_app_assoc in H | rewrite string_app_cons in H | rewrite string_app_nil_l in H].

Lemma string_length_app a b : String.length (a +:+ b) = (String.length a + String.length b)%nat.
Proof. induction a as [|x a IH]; [done|]. rewrite string_app_cons. cbn. by rewrite IH. Qed.

Lemma string_take_app a b : string_take (String.length a) (a +:+ b) = a.
Proof. induction a as [|x a IH]; [by destruct b|]. rewrite string_app_cons. cbn. by rewrite IH. Qed.

Lemma string_drop_app a b : string_drop (String.length a) (a +:+ b) = b.
Proof. induction a as [|x a IH]; [by destruct b|done]. Qed.

Lemma string_length_drop n s : (String.length (string_drop n s) ≤ String.length s)%nat.
Proof. revert n. induction s as [|c s IH]; intros [|n]; cbn; [lia..|]. specialize (IH n). lia. Qed.

(** What was taken off the front, given what is left. *)
Lemma string_take_front a b :
  string_take (String.length (a +:+ b) - String.length b) (a +:+ b) = a.
Proof. rewrite string_length_app, Nat.add_sub. apply string_take_app. Qed.

Lemma HasPrefix_app p s : HasPrefix p s = true ↔ ∃ rest, s = p +:+ rest.
Proof.
  revert s. induction p as [|c p IH]; intros s; cbn; [split; [intros _; by exists s|done]|].
  destruct s as [|d s]; [split; [done|intros [rest Hr]; discriminate Hr]|].
  rewrite andb_true_iff, IH, Ascii.eqb_eq. split; [intros [-> [rest ->]]; by exists rest|].
  intros [rest Hr]. rewrite string_app_cons in Hr. injection Hr as -> ->. eauto.
Qed.

Lemma DecodeRune_width c s : (1 ≤ (DecodeRune (String c s)).2)%nat.
Proof. unfold DecodeRune. repeat (case_match; simpl; try lia). Qed.

Lemma ParseUint_range s n : ParseUint s = Some n → is_u64 n.
Proof.
  unfold ParseUint. destruct s as [|ch s]; [done|]. destruct (digits_value (String ch s) 0) as [m|] eqn:Hm; [|done].
  cbn [mbind option_bind]. destruct (Z.leb_spec m max_u64); [|done]. intros [= <-]. split; [|done].
  assert (∀ s acc m, 0 ≤ acc → digits_value s acc = Some m → 0 ≤ m) as Hpos.
  { clear. induction s as [|c s IH]; intros acc m Ha; cbn [digits_value]; [by intros [= <-]|].
    unfold in_range. destruct (_ && _) eqn:Hd; [|done]. zbool. intros Hm. eapply IH; [|exact Hm]. lia. }
  eapply Hpos; [|exact Hm]. lia.
Qed.

Lemma ParseInt_range s n : ParseInt s = Some n → is_i64 n.
Proof.
  unfold ParseInt. intros H. repeat case_match; simplify_eq; zbool; by split.
Qed.

Example split_ex : strings_Split "a,b,,c" "," = ["a"; "b"; ""; "c"].
Proof. reflexivity. Qed.
Example replace_ex : strings_ReplaceAll "r:{{.P}}:*" "{{.P}}" "x" = "r:x:*".
Proof. reflexivity. Qed.
Example parse_ex : (ParseInt "-042", ParseInt "9223372036854775808", ParseInt "+")
  = (Some (-42), None, None).
Proof. reflexivity. Qed.
Example trim_ex : TrimSpace "  a b
" = "a b".
Proof. reflexivity. Qed.
Example parse_uint_ex : (ParseUint "18446744073709551615", ParseUint "18446744073709551616", ParseUint "+1")
  = (Some max_u64, None, None).
Proof. reflexivity. Qed.
Example cut_ex : strings_Cut "a=b=c" "=" = ("a", "b=c", true).
Proof. reflexivity. Qed.
