(* ===== verification/Event.v ===== *)
(** * Event: the observed event and the value of a key (pkg/event/event.go)

    [Op], [t] (the Go struct [Event]), [Value] and [TrustState], with validation
    and the comparison every finding of the tool rests on. A nil slice is [None]
    where the code tells it from an empty one. *)
From stdpp Require Import pretty.
From S2P Require Import Prelude GoBase GoStrings.

(** ** Operations *)

Inductive Op :=
| OpUnknown | OpSet | OpDelete | OpAdd | OpRemove | OpIncr
| OpSnapshotBegin | OpSnapshotEnd | OpHeartbeat
| OpOther (n : Z).   (** a uint8 above the named constants *)

#[export] Instance Op_eq_dec : EqDecision Op.
Proof. solve_decision. Defined.

Definition Op_String (o : Op) : string :=
  match o with
  | OpUnknown => "unknown"
  | OpSet => "set"
  | OpDelete => "delete"
  | OpAdd => "add"
  | OpRemove => "remove"
  | OpIncr => "incr"
  | OpSnapshotBegin => "snapshot_begin"
  | OpSnapshotEnd => "snapshot_end"
  | OpHeartbeat => "heartbeat"
  | OpOther n => "Op(" +:+ pretty n +:+ ")"
  end.

Definition TouchesKey (o : Op) : bool :=
  match o with
  | OpSet | OpDelete | OpAdd | OpRemove | OpIncr => true
  | OpUnknown | OpSnapshotBegin | OpSnapshotEnd | OpHeartbeat => false
  | OpOther _ => false
  end.

Section parse.
Context `{UnicodeTables}.

Definition normalizeOpName (s : string) : string :=
  concat_strings
    (omap (λ rc, let r := rc.1 in
                 if (r =? 95) || (r =? 45) then None
                 else Some (EncodeRune (unicode_ToLower r)))
          (rune_chunks (TrimSpace s))).

(** The table [opNames] from index 1 on: the literal "unknown" resolves to nothing. *)
Definition named_ops : list Op :=
  [OpSet; OpDelete; OpAdd; OpRemove; OpIncr; OpSnapshotBegin; OpSnapshotEnd; OpHeartbeat].

(** [None] is [ErrUnknownOp]. *)
Definition ParseOp (s : string) : option Op :=
  let normalized := normalizeOpName s in
  List.find (λ op, bool_decide (normalizeOpName (Op_String op) = normalized)) named_ops.
End parse.

(** ** Events *)

Record t := mk {
  Publisher : string;
  Epoch : Z;
  Seq : Z;
  PublishedAt : Time;
  ObservedAt : Time;
  Topic : string;
  EOp : Op;
  Key : string;
  Member : string;
  EValue : option string;
  Delta : Z;
  TTL : option Duration;
  Raw : option string
}.

Inductive Error := ErrUnknownOp | ErrMissingField | ErrUnexpectedField | ErrInvalidField.

(** [None] is the nil error. *)
Definition Validate (e : t) : option Error :=
  if decide (Publisher e = "") then Some ErrMissingField
  else if match TTL e with Some d => d <? 0 | None => false end then Some ErrInvalidField
  else
    match EOp e with
    | OpSet => match EValue e with None => Some ErrMissingField | Some _ => None end
    | OpAdd | OpRemove => if decide (Member e = "") then Some ErrMissingField else None
    | OpIncr => if Delta e =? 0 then Some ErrMissingField else None
    | OpDelete => None
    | OpSnapshotBegin | OpSnapshotEnd | OpHeartbeat =>
        if negb (bool_decide (Key e = "")) then Some ErrUnexpectedField
        else if negb (bool_decide (Member e = "")) then Some ErrUnexpectedField
        else None
    | OpUnknown => Some ErrUnknownOp
    | OpOther _ => Some ErrUnknownOp
    end.

Record Fingerprint := mkFingerprint { FPublisher : string; FEpoch : Z; FSeq : Z }.

#[export] Instance Fingerprint_eq_dec : EqDecision Fingerprint.
Proof. solve_decision. Defined.

Definition fingerprint (e : t) : Fingerprint :=
  mkFingerprint (Publisher e) (Epoch e) (Seq e).

Definition Fingerprint_String (f : Fingerprint) : string :=
  FPublisher f +:+ "/" +:+ pretty (FEpoch f) +:+ "/" +:+ pretty (FSeq f).

(** ** Values *)

Inductive ValueKind := ValueAbsent | ValueScalar | ValueSet | ValueCounter | ValueKindOther (n : Z).

#[export] Instance ValueKind_eq_dec : EqDecision ValueKind.
Proof. solve_decision. Defined.

Definition ValueKind_String (k : ValueKind) : string :=
  match k with
  | ValueAbsent => "absent"
  | ValueScalar => "scalar"
  | ValueSet => "set"
  | ValueCounter => "counter"
  | ValueKindOther n => "ValueKind(" +:+ pretty n +:+ ")"
  end.

(** [Scalar] and [Members] are optional: [None] is the nil slice and the nil map. *)
Record Value := mkValue {
  Kind : ValueKind;
  Scalar : option string;
  Members : option (gset string);
  Counter : Z
}.

#[export] Instance Value_eq_dec : EqDecision Value.
Proof. solve_decision. Defined.

(** The zero Value. *)
Definition absent : Value := mkValue ValueAbsent None None 0.
Definition scalar_value (b : string) : Value := mkValue ValueScalar (Some b) None 0.
Definition set_value (m : gset string) : Value := mkValue ValueSet None (Some m) 0.
Definition counter_value (n : Z) : Value := mkValue ValueCounter None None n.

(** What reading a nil slice or ranging over a nil map sees. *)
Definition bytes_of (b : option string) : string := default "" b.
Definition members_of (v : Value) : gset string := default ∅ (Members v).

Definition Value_IsAbsent (v : Value) : bool :=
  match Kind v with
  | ValueAbsent => true
  | ValueSet => (size (members_of v) =? 0)%nat
  | ValueScalar | ValueCounter => false
  | ValueKindOther _ => false
  end.

Definition Value_Equal (v other : Value) : bool :=
  if Value_IsAbsent v || Value_IsAbsent other then
    Value_IsAbsent v && Value_IsAbsent other
  else if negb (bool_decide (Kind v = Kind other)) then false
  else
    match Kind v with
    | ValueScalar => bool_decide (bytes_of (Scalar v) = bytes_of (Scalar other))
    | ValueSet => bool_decide (members_of v = members_of other)
    | ValueCounter => Counter v =? Counter other
    | _ => false
    end.

(** The deep copy: every field is copied, nil stays nil. *)
Definition Clone (v : Value) : Value :=
  let out := mkValue (Kind v) None None (Counter v) in
  let out := match Scalar v with
             | Some b => mkValue (Kind out) (Some b) (Members out) (Counter out)
             | None => out end in
  match Members v with
  | Some m => mkValue (Kind out) (Scalar out) (Some m) (Counter out)
  | None => out
  end.

(** ** Log rendering *)

Definition maxValueStringBytes : nat := 64.
Definition maxValueStringMembers : nat := 8.

Definition double_quote : string := String (ascii_of 34) "".

Definition quoteBytes (b : string) : string :=
  let n := String.length b in
  if negb (ValidString b) then
    if (maxValueStringBytes <? n)%nat then
      "hex:" +:+ hex_EncodeToString (string_take maxValueStringBytes b) +:+ "..."
        +:+ pretty (Z.of_nat n) +:+ "B"
    else "hex:" +:+ hex_EncodeToString b
  else if (maxValueStringBytes <? n)%nat then
    double_quote +:+ string_take maxValueStringBytes b +:+ double_quote +:+ "..."
      +:+ pretty (Z.of_nat n) +:+ "B"
  else double_quote +:+ b +:+ double_quote.

Definition safeString (s : string) : string :=
  if negb (ValidString s) then "hex:" +:+ hex_EncodeToString s
  else if (maxValueStringBytes <? String.length s)%nat then
    string_take maxValueStringBytes s +:+ "..."
  else s.

(** sort.Strings: the one sorted permutation in byte order. *)
Definition sort_Strings (l : list string) : list string := merge_sort String.le l.

Fixpoint render_members (i : nat) (members : list string) : string :=
  match members with
  | [] => ""
  | m :: rest =>
      if (i =? maxValueStringMembers)%nat then " ..."
      else (if (0 <? i)%nat then " " else "") +:+ safeString m +:+ render_members (S i) rest
  end.

Definition Value_String (v : Value) : string :=
  match Kind v with
  | ValueAbsent => "absent"
  | ValueScalar => "scalar(" +:+ quoteBytes (bytes_of (Scalar v)) +:+ ")"
  | ValueSet =>
      let members := sort_Strings (elements (members_of v)) in
      "set(" +:+ pretty (Z.of_nat (length members)) +:+ ")["
        +:+ render_members 0 members +:+ "]"
  | ValueCounter => "counter(" +:+ pretty (Counter v) +:+ ")"
  | ValueKindOther n => "ValueKind(" +:+ pretty n +:+ ")"
  end.

(** ** Trust *)

Inductive TrustState := TrustComplete | TrustSuspect | TrustAdopted.

#[export] Instance TrustState_eq_dec : EqDecision TrustState.
Proof. solve_decision. Defined.

Definition TrustState_String (s : TrustState) : string :=
  match s with TrustComplete => "complete" | TrustSuspect => "suspect" | TrustAdopted => "adopted" end.

(** ** Lemmas *)

Definition known_kind (v : Value) : Prop := ∀ n, Kind v ≠ ValueKindOther n.

Lemma Clone_id v : Clone v = v.
Proof. destruct v as [k [s|] [m|] c]; reflexivity. Qed.

Lemma Value_IsAbsent_set v :
  Kind v = ValueSet → Value_IsAbsent v = true ↔ members_of v = ∅.
Proof.
  intros Hk. unfold Value_IsAbsent. rewrite Hk, Nat.eqb_eq, size_empty_iff. by rewrite leibniz_equiv_iff.
Qed.

(** The observable content of a value: what [Value_Equal] compares. *)
Inductive Content :=
| CAbsent
| CScalar (b : string)
| CSet (m : gset string)
| CCounter (n : Z)
| COther (n : Z).

Definition content (v : Value) : Content :=
  if Value_IsAbsent v then CAbsent
  else match Kind v with
       | ValueAbsent => CAbsent
       | ValueScalar => CScalar (bytes_of (Scalar v))
       | ValueSet => CSet (members_of v)
       | ValueCounter => CCounter (Counter v)
       | ValueKindOther n => COther n
       end.

Lemma Value_Equal_content v w :
  known_kind v → Value_Equal v w = true ↔ content v = content w.
Proof.
  intros Hv. unfold Value_Equal, content.
  destruct (Value_IsAbsent v) eqn:Ha, (Value_IsAbsent w) eqn:Hb; cbn [orb andb].
  1: done.
  1,2: unfold Value_IsAbsent in *; repeat case_match; naive_solver.
  destruct (bool_decide (Kind v = Kind w)) eqn:Hk; cbn [negb].
  - apply bool_decide_eq_true in Hk. rewrite <- Hk. unfold Value_IsAbsent in *.
    destruct (Kind v) eqn:E; rewrite ?bool_decide_eq_true, ?Z.eqb_eq; try done.
    1,2,3: split; [by intros ->|by intros [=]].
    by destruct (Hv n).
  - apply bool_decide_eq_false in Hk. split; [done|].
    destruct (Kind v), (Kind w); naive_solver.
Qed.

Lemma Validate_publisher e : Validate e = None → Publisher e ≠ "".
Proof. unfold Validate. by case_decide. Qed.

(** ** Properties *)

(** [Value.Equal] compares exactly the observable content of two values: it
    is an equivalence on the kinds the code defines, an empty member set equals a
    missing key, and nothing else is confused. *)
Theorem equal_is_content_equality v w :
  known_kind v → Value_Equal v w = true ↔ content v = content w.
Proof. apply Value_Equal_content. Qed.

Lemma equal_is_content_equality_witness :
  Value_Equal (set_value ∅) absent = true ∧ Value_Equal (scalar_value "") absent = false.
Proof.
  split; [apply (equal_is_content_equality (set_value ∅) absent); [intros n|]; done|].
  apply not_true_is_false. intros H.
  apply (equal_is_content_equality (scalar_value "") absent) in H; [done|intros n; done].
Defined.

(** the wire name of every operation parses back to it, in each of the
    spellings with underscores, with hyphens, run together, in capitals and with
    surrounding blanks; the name of the zero operation parses to nothing. *)
Theorem op_names_round_trip `{UnicodeTables} :
  (∀ op, op ∈ named_ops → ParseOp (Op_String op) = Some op)
  ∧ ParseOp " Snapshot-Begin " = Some OpSnapshotBegin
  ∧ ParseOp "SNAPSHOTEND" = Some OpSnapshotEnd
  ∧ ParseOp "unknown" = None.
Proof.
  split; [|by split_and!; vm_compute].
  intros op Hop. unfold named_ops in Hop.
  repeat (apply elem_of_cons in Hop as [->|Hop]; [by vm_compute|]). by apply elem_of_nil in Hop.
Qed.

(** a validated event has everything the projections rely on: a publisher, a
    known operation, no negative lifetime, a value for a set, a member for an add
    or a remove, a non-zero delta for an increment, and no key on an operation
    that touches none. *)
Theorem validate_complete e :
  Validate e = None ↔
    Publisher e ≠ "" ∧ (∀ d, TTL e = Some d → 0 ≤ d)
    ∧ EOp e ∈ named_ops
    ∧ (EOp e = OpSet → EValue e ≠ None)
    ∧ (EOp e = OpAdd ∨ EOp e = OpRemove → Member e ≠ "")
    ∧ (EOp e = OpIncr → Delta e ≠ 0)
    ∧ (TouchesKey (EOp e) = false → Key e = "" ∧ Member e = "").
Proof.
  unfold Validate, named_ops. rewrite !elem_of_cons, elem_of_nil.
  case_decide as Hp; [naive_solver|].
  destruct (TTL e) as [d|]; [destruct (Z.ltb_spec d 0)|].
  1: { split; [done|]. intros (_ & Hd & _). specialize (Hd d eq_refl). lia. }
  all: destruct (EOp e); cbn; repeat case_decide; repeat case_bool_decide; cbn;
    try destruct (EValue e); try destruct (Z.eqb_spec (Delta e) 0).
  all: split; [intros ?; try done; split_and!; try done; naive_solver lia|naive_solver].
Qed.
