(* ===== verification/Projection.v ===== *)
(** * Projection: folding events into expected state (pkg/projection)

    The three projections ([keysetOwnership], [counter], [scalar]) with the key
    and member templates they share. [projection] is the Go interface: its
    operations as a record, built by the constructors the registry knows. *)
From S2P Require Import Prelude GoBase GoStrings Event.

(** ** Data *)

Inductive Error :=
| ErrUnsupportedOp | ErrShapeMismatch | ErrBadValue | ErrBadConfig | ErrUnknownProjection.

#[export] Instance Error_eq_dec : EqDecision Error.
Proof. solve_decision. Defined.

Inductive Action := ActionNone | ActionUpsert | ActionDelete.

#[export] Instance Action_eq_dec : EqDecision Action.
Proof. solve_decision. Defined.

Definition Action_String (a : Action) : string :=
  match a with ActionNone => "none" | ActionUpsert => "upsert" | ActionDelete => "delete" end.

Inductive Shape := ShapeScalar | ShapeSet | ShapeCounter.

#[export] Instance Shape_eq_dec : EqDecision Shape.
Proof. solve_decision. Defined.

Definition Shape_String (s : Shape) : string :=
  match s with ShapeScalar => "scalar" | ShapeSet => "set" | ShapeCounter => "counter" end.

Record Mutation := mkMutation {
  MKey : string;
  MAction : Action;
  MValue : Value;
  MTTL : option Duration;
  MTruncated : bool;
  MSaturated : bool
}.

(** [Mutation{Key: key, Action: a}] *)
Definition bare_mutation (key : string) (a : Action) : Mutation :=
  mkMutation key a absent None false false.

Record OwnershipModel := mkOwnership { Partitioned : bool; KeyPattern : string }.

(** The method set of the Go interface [Projection]; [Apply] is pure. *)
Record projection := mkProjection {
  Name : string;
  TargetKey : Event.t → Error + string;
  Apply : Value → Event.t → Error + Mutation;
  Commutative : bool;
  KeyOwnership : OwnershipModel;
  TargetShape : Shape
}.

(** ** Templates *)

Record templateData := mkData {
  TKey : string; TMember : string; TPublisher : string; TTopic : string; TEpoch : Z; TSeq : Z
}.

Definition dataFor (e : Event.t) : templateData :=
  mkData (Event.Key e) (Event.Member e) (Event.Publisher e) (Event.Topic e)
         (Event.Epoch e) (Event.Seq e).

(** The text/template engine: parsing and executing a template that is not one of
    the identity templates. [None] is a parse or execution error. *)
Class TemplateEngine := {
  template_Execute : string → templateData → option string
}.

Inductive fieldRef := fieldRefTemplate | fieldRefKey | fieldRefMember | fieldRefPublisher | fieldRefTopic.

Record expander := mkExpander { tmpl : string; ref : fieldRef }.

Definition identityFields (spec : string) : option fieldRef :=
  if decide (spec = "{{.Key}}") then Some fieldRefKey
  else if decide (spec = "{{.Member}}") then Some fieldRefMember
  else if decide (spec = "{{.Publisher}}") then Some fieldRefPublisher
  else if decide (spec = "{{.Topic}}") then Some fieldRefTopic
  else None.

Section projections.
Context `{TemplateEngine}.

Definition expand (ex : expander) (d : templateData) : Error + string :=
  match ref ex with
  | fieldRefKey => inr (TKey d)
  | fieldRefMember => inr (TMember d)
  | fieldRefPublisher => inr (TPublisher d)
  | fieldRefTopic => inr (TTopic d)
  | fieldRefTemplate =>
      match template_Execute (tmpl ex) d with
      | Some s => inr s
      | None => inl ErrBadConfig
      end
  end.

Definition newExpander (spec : string) : Error + expander :=
  match identityFields spec with
  | Some r => inr (mkExpander "" r)
  | None =>
      let ex := mkExpander spec fieldRefTemplate in
      match expand ex (mkData "" "" "" "" 0 0) with
      | inl _ => inl ErrBadConfig
      | inr _ => inr ex
      end
  end.

(** ** Configuration *)

Definition intConfig (cfg : gmap string string) (key : string) (def : Z) : Error + Z :=
  match cfg !! key with
  | None => inr def
  | Some raw =>
      match ParseInt (TrimSpace raw) with
      | None => inl ErrBadConfig
      | Some n => if n <=? 0 then inl ErrBadConfig else inr n
      end
  end.

(** strconv.ParseBool *)
Definition ParseBool (s : string) : option bool :=
  if decide (s ∈ ["1"; "t"; "T"; "true"; "TRUE"; "True"]) then Some true
  else if decide (s ∈ ["0"; "f"; "F"; "false"; "FALSE"; "False"]) then Some false
  else None.

Definition boolConfig (cfg : gmap string string) (key : string) : Error + bool :=
  match cfg !! key with
  | None => inr false
  | Some raw =>
      match ParseBool (TrimSpace raw) with None => inl ErrBadConfig | Some v => inr v end
  end.

Definition stringConfig (cfg : gmap string string) (key def : string) : string :=
  match cfg !! key with Some raw => raw | None => def end.

Definition ownershipFrom (cfg : gmap string string) : OwnershipModel :=
  let pattern := stringConfig cfg "keyPattern" "" in
  mkOwnership (negb (bool_decide (pattern = ""))) pattern.

(** [None] is the nil error. *)
Definition checkShape (prev : Value) (want : ValueKind) : option Error :=
  if bool_decide (Kind prev = ValueAbsent) || bool_decide (Kind prev = want) then None
  else Some ErrShapeMismatch.

(** ** keysetOwnership *)

Definition defaultMaxMembersPerKey : Z := 100000.

Record keysetOwnership := mkKeyset {
  ks_keyTmpl : expander;
  ks_memberTmpl : expander;
  ks_delimiter : string;
  ks_maxMembers : Z;
  ks_ownership : OwnershipModel
}.

Definition cloneMembers (src : gset string) : gset string := src.

Definition keyset_add (k : keysetOwnership) (key member : string) (prev : Value) : Mutation :=
  let already := bool_decide (member ∈ members_of prev) in
  if negb already && (Z.of_nat (size (members_of prev)) >=? ks_maxMembers k) then
    mkMutation key ActionUpsert (Clone prev) None true false
  else
    let next := {[member]} ∪ cloneMembers (members_of prev) in
    mkMutation key ActionUpsert (set_value next) None false false.

Definition keyset_remove (k : keysetOwnership) (key member : string) (prev : Value) : Mutation :=
  if negb (bool_decide (member ∈ members_of prev)) then bare_mutation key ActionNone
  else
    let next := cloneMembers (members_of prev) ∖ {[member]} in
    if (size next =? 0)%nat then bare_mutation key ActionDelete
    else mkMutation key ActionUpsert (set_value next) None false false.

(** The loop over the fields: the members collected and whether the cap broke it. *)
Fixpoint replace_loop (maxMembers : Z) (fields : list string) (members : gset string)
    : gset string * bool :=
  match fields with
  | [] => (members, false)
  | field :: rest =>
      if decide (field = "") then replace_loop maxMembers rest members
      else if Z.of_nat (size members) >=? maxMembers then (members, true)
      else replace_loop maxMembers rest ({[field]} ∪ members)
  end.

Definition keyset_replace (k : keysetOwnership) (key : string) (e : Event.t) : Mutation :=
  let '(members, truncated) :=
    replace_loop (ks_maxMembers k) (strings_Split (bytes_of (EValue e)) (ks_delimiter k)) ∅ in
  if (size members =? 0)%nat then bare_mutation key ActionDelete
  else mkMutation key ActionUpsert (set_value members) (TTL e) truncated false.

Definition keyset_Apply (k : keysetOwnership) (prev : Value) (e : Event.t) : Error + Mutation :=
  if negb (TouchesKey (EOp e)) then inr (bare_mutation "" ActionNone)
  else
    match checkShape prev ValueSet with
    | Some err => inl err
    | None =>
        let data := dataFor e in
        match expand (ks_keyTmpl k) data with
        | inl err => inl err
        | inr key =>
            match EOp e with
            | OpAdd =>
                match expand (ks_memberTmpl k) data with
                | inl err => inl err
                | inr member => inr (keyset_add k key member prev)
                end
            | OpRemove =>
                match expand (ks_memberTmpl k) data with
                | inl err => inl err
                | inr member => inr (keyset_remove k key member prev)
                end
            | OpDelete =>
                if Value_IsAbsent prev then inr (bare_mutation key ActionNone)
                else inr (mkMutation key ActionDelete absent (TTL e) false false)
            | OpSet => inr (keyset_replace k key e)
            | _ => inl ErrUnsupportedOp
            end
        end
    end.

Definition newKeysetOwnership (cfg : gmap string string) : Error + keysetOwnership :=
  let delimiter := stringConfig cfg "setDelimiter" "," in
  if decide (delimiter = "") then inl ErrBadConfig
  else
    match intConfig cfg "maxMembersPerKey" defaultMaxMembersPerKey with
    | inl err => inl err
    | inr maxMembers =>
        match newExpander (stringConfig cfg "keyTemplate" "{{.Key}}") with
        | inl err => inl err
        | inr keyTmpl =>
            match newExpander (stringConfig cfg "memberTemplate" "{{.Member}}") with
            | inl err => inl err
            | inr memberTmpl =>
                inr (mkKeyset keyTmpl memberTmpl delimiter maxMembers (ownershipFrom cfg))
            end
        end
    end.

Definition keyset_projection (k : keysetOwnership) : projection := {|
  Name := "keysetOwnership";
  TargetKey := λ e, expand (ks_keyTmpl k) (dataFor e);
  Apply := keyset_Apply k;
  Commutative := false;
  KeyOwnership := ks_ownership k;
  TargetShape := ShapeSet
|}.

(** ** counter *)

Record counter := mkCounter {
  ct_keyTmpl : expander;
  ct_incrOnly : bool;
  ct_ownership : OwnershipModel
}.

(** int64 addition wraps; the two tests find out whether it did. *)
Definition addSaturating (n delta : Z) : Z * bool :=
  let sum := i64 (n + delta) in
  if (delta >? 0) && (sum <? n) then (max_i64, true)
  else if (delta <? 0) && (sum >? n) then (min_i64, true)
  else (sum, false).

Definition counter_Apply (c : counter) (prev : Value) (e : Event.t) : Error + Mutation :=
  if negb (TouchesKey (EOp e)) then inr (bare_mutation "" ActionNone)
  else
    match checkShape prev ValueCounter with
    | Some err => inl err
    | None =>
        match expand (ct_keyTmpl c) (dataFor e) with
        | inl err => inl err
        | inr key =>
            match EOp e with
            | OpIncr =>
                let '(sum, saturated) := addSaturating (Counter prev) (Delta e) in
                inr (mkMutation key ActionUpsert (counter_value sum) (TTL e) false saturated)
            | OpSet =>
                if ct_incrOnly c then inl ErrUnsupportedOp
                else
                  match ParseInt (bytes_of (EValue e)) with
                  | None => inl ErrBadValue
                  | Some n =>
                      inr (mkMutation key ActionUpsert (counter_value n) (TTL e) false false)
                  end
            | OpDelete =>
                if Value_IsAbsent prev then inr (bare_mutation key ActionNone)
                else inr (mkMutation key ActionDelete absent (TTL e) false false)
            | _ => inl ErrUnsupportedOp
            end
        end
    end.

Definition newCounter (cfg : gmap string string) : Error + counter :=
  match newExpander (stringConfig cfg "keyTemplate" "{{.Key}}") with
  | inl err => inl err
  | inr keyTmpl =>
      match boolConfig cfg "incrOnly" with
      | inl err => inl err
      | inr incrOnly => inr (mkCounter keyTmpl incrOnly (ownershipFrom cfg))
      end
  end.

Definition counter_projection (c : counter) : projection := {|
  Name := "counter";
  TargetKey := λ e, expand (ct_keyTmpl c) (dataFor e);
  Apply := counter_Apply c;
  Commutative := ct_incrOnly c;
  KeyOwnership := ct_ownership c;
  TargetShape := ShapeCounter
|}.

(** ** scalar *)

Record scalar := mkScalar { sc_keyTmpl : expander; sc_ownership : OwnershipModel }.

Definition scalar_Apply (s : scalar) (prev : Value) (e : Event.t) : Error + Mutation :=
  if negb (TouchesKey (EOp e)) then inr (bare_mutation "" ActionNone)
  else
    match checkShape prev ValueScalar with
    | Some err => inl err
    | None =>
        match expand (sc_keyTmpl s) (dataFor e) with
        | inl err => inl err
        | inr key =>
            match EOp e with
            | OpSet =>
                inr (mkMutation key ActionUpsert (scalar_value (bytes_of (EValue e))) (TTL e)
                                false false)
            | OpDelete =>
                if Value_IsAbsent prev then inr (bare_mutation key ActionNone)
                else inr (mkMutation key ActionDelete absent (TTL e) false false)
            | _ => inl ErrUnsupportedOp
            end
        end
    end.

Definition newScalar (cfg : gmap string string) : Error + scalar :=
  match newExpander (stringConfig cfg "keyTemplate" "{{.Key}}") with
  | inl err => inl err
  | inr keyTmpl => inr (mkScalar keyTmpl (ownershipFrom cfg))
  end.

Definition scalar_projection (s : scalar) : projection := {|
  Name := "scalar";
  TargetKey := λ e, expand (sc_keyTmpl s) (dataFor e);
  Apply := scalar_Apply s;
  Commutative := false;
  KeyOwnership := sc_ownership s;
  TargetShape := ShapeScalar
|}.

(** ** The registry: the constructors the package's init functions register *)

Definition Constructor : Type := gmap string string → Error + projection.

Definition sum_map {E A B} (f : A → B) (x : E + A) : E + B :=
  match x with inl e => inl e | inr a => inr (f a) end.

(** [None] is the panic on an empty name or a duplicate. *)
Definition Register (name : string) (ctor : Constructor) (registry : gmap string Constructor)
    : option (gmap string Constructor) :=
  if decide (name = "") then None
  else match registry !! name with
       | Some _ => None
       | None => Some (<[name := ctor]> registry)
       end.

Definition registry : option (gmap string Constructor) :=
  r ← Register "counter" (λ cfg, sum_map counter_projection (newCounter cfg)) ∅;
  r ← Register "keysetOwnership" (λ cfg, sum_map keyset_projection (newKeysetOwnership cfg)) r;
  Register "scalar" (λ cfg, sum_map scalar_projection (newScalar cfg)) r.

Definition New (registry : gmap string Constructor) (name : string) (cfg : gmap string string)
    : Error + projection :=
  match registry !! name with
  | None => inl ErrUnknownProjection
  | Some ctor => ctor cfg
  end.

Definition Names (registry : gmap string Constructor) : list string :=
  sort_Strings (map_to_list registry).*1.
End projections.

(** ** Properties *)

(** Saturating addition is addition clamped to int64. *)
Definition clamp_i64 (z : Z) : Z := Z.max min_i64 (Z.min max_i64 z).

Lemma i64_wraps z :
  2 * min_i64 ≤ z ≤ 2 * max_i64 →
  i64 z = if z <? min_i64 then z + 2 ^ 64 else if max_i64 <? z then z - 2 ^ 64 else z.
Proof.
  unfold i64, min_i64, max_i64. intros Hz. destruct (Z.ltb_spec z (- 2 ^ 63)).
  - rewrite <- (Z.mod_add _ 1) by lia. rewrite Z.mod_small; lia.
  - destruct (Z.ltb_spec (2 ^ 63 - 1) z).
    + rewrite <- (Z.mod_add _ (-1)) by lia. rewrite Z.mod_small; lia.
    + rewrite Z.mod_small; lia.
Qed.

Lemma addSaturating_spec n d :
  is_i64 n → is_i64 d →
  addSaturating n d = (clamp_i64 (n + d), negb (bool_decide (is_i64 (n + d)))).
Proof.
  intros Hn Hd. unfold addSaturating, is_i64 in *. cbv zeta.
  rewrite i64_wraps by lia. unfold clamp_i64, min_i64, max_i64 in *.
  rewrite !Z.gtb_ltb.
  destruct (Z.ltb_spec (n + d) (- 2 ^ 63)); [|destruct (Z.ltb_spec (2 ^ 63 - 1) (n + d))];
    destruct (Z.ltb_spec 0 d); cbn [andb];
    repeat match goal with
    | |- context [Z.ltb ?a ?b] => destruct (Z.ltb_spec a b); cbn [andb]
    end; try lia; f_equal; try lia; try (by rewrite bool_decide_false by lia);
    by rewrite bool_decide_true by lia.
Qed.

Section properties.
Context `{TemplateEngine}.

(** the overflow test the counter performs on the wrapped sum is exact: the result is the true
    sum clamped to int64, and the saturation flag is set exactly when the true sum is not an
    int64. *)
Theorem counter_saturates_exactly c prev e m :
  is_i64 (Counter prev) → is_i64 (Delta e) → EOp e = OpIncr →
  counter_Apply c prev e = inr m →
  MAction m = ActionUpsert
  ∧ MValue m = counter_value (clamp_i64 (Counter prev + Delta e))
  ∧ (MSaturated m = true ↔ ¬ is_i64 (Counter prev + Delta e)).
Proof.
  intros Hp Hd Ho. unfold counter_Apply. rewrite Ho. cbn [TouchesKey negb].
  destruct (checkShape _ _); [done|]. destruct (expand _ _); [done|].
  rewrite addSaturating_spec by done. intros [= <-]. cbn. split_and!; [done..|].
  by rewrite negb_true_iff, bool_decide_eq_false.
Qed.

Lemma replace_loop_size n fields : ∀ acc,
  Z.of_nat (size acc) ≤ n → Z.of_nat (size (replace_loop n fields acc).1) ≤ n.
Proof.
  induction fields as [|f fields IH]; intros acc Ha; cbn [replace_loop]; [done|].
  destruct (decide _); [by apply IH|]. destruct (_ >=? _) eqn:E; [done|]. zbool. apply IH.
  assert (size ({[f]} ∪ acc) ≤ S (size acc))%nat; [|lia].
  rewrite size_union_alt, size_singleton.
  assert (size (acc ∖ {[f]}) ≤ size acc)%nat by (apply subseteq_size; set_solver). lia.
Qed.

(** A set a key may hold: present, not empty, within the cap. *)
Definition bounded_set (k : keysetOwnership) (v : Value) : Prop :=
  Kind v = ValueSet ∧ members_of v ≠ ∅ ∧ Z.of_nat (size (members_of v)) ≤ ks_maxMembers k.

(** whatever arrives, a keyset mutation that upserts leaves a non-empty set of at most
    [maxMembersPerKey] members, and one that refused an add for that cap says so and leaves the
    previous set. *)
Theorem keyset_upsert_bounded k prev e m :
  0 < ks_maxMembers k → prev = absent ∨ bounded_set k prev →
  keyset_Apply k prev e = inr m → MAction m = ActionUpsert →
  bounded_set k (MValue m)
  ∧ (EOp e = OpAdd → MTruncated m = true →
     MValue m = prev ∧ Z.of_nat (size (members_of prev)) = ks_maxMembers k).
Proof.
  intros Hmax Hprev. unfold keyset_Apply, bounded_set in *.
  destruct (TouchesKey _); cbn [negb]; [|by intros [= <-]].
  destruct (checkShape _ _); [done|]. destruct (expand _ _) as [|key]; [done|].
  assert (Z.of_nat (size (members_of prev)) ≤ ks_maxMembers k) as Hb.
  { destruct Hprev as [->|(_ & _ & Hb)]; [change (members_of absent) with (∅ : gset string); rewrite size_empty; lia|done]. }
  destruct (EOp e) eqn:Ho; try done.
  - intros [= <-]. unfold keyset_replace.
    pose proof (replace_loop_size (ks_maxMembers k)
      (strings_Split (bytes_of (EValue e)) (ks_delimiter k)) ∅) as Hs.
    destruct (replace_loop _ _ _) as [ms tr]. cbn in Hs. rewrite size_empty in Hs.
    destruct (size ms =? 0)%nat eqn:E; [done|]. apply Nat.eqb_neq in E. intros _.
    split; [|done]. split_and!; [done| |cbn; lia].
    cbn. intros ->. by rewrite size_empty in E.
  - destruct (Value_IsAbsent prev); intros [= <-]; done.
  - destruct (expand _ _) as [|x]; [done|]. intros [= <-]. unfold keyset_add. cbv zeta.
    destruct (negb _ && _) eqn:E; cbn; intros _.
    + zbool. rewrite !Clone_id.
      destruct Hprev as [->|Hprev]; [change (members_of absent) with (∅ : gset string) in *; rewrite size_empty in *; lia|]. split; [exact Hprev|]. intros _ _.
      split; [done|lia].
    + split; [|done]. split_and!; [done|set_solver|].
      rewrite andb_false_iff, negb_false_iff, bool_decide_eq_true, Z.geb_leb, Z.leb_gt in E.
      destruct E as [E|E].
      * by rewrite subseteq_union_1_L by set_solver.
      * rewrite size_union_alt, size_singleton.
        assert (size (cloneMembers (members_of prev) ∖ {[x]}) ≤ size (members_of prev))%nat
          by (apply subseteq_size; set_solver). lia.
  - destruct (expand _ _) as [|x]; [done|]. intros [= <-]. unfold keyset_remove. cbv zeta.
    destruct (negb _); [done|]. destruct (size _ =? 0)%nat eqn:E; [done|].
    apply Nat.eqb_neq in E. cbn. intros _. split; [|done]. split_and!; [done| |].
    + intros Hm. unfold cloneMembers in *. rewrite Hm, size_empty in E. done.
    + assert (size (cloneMembers (members_of prev) ∖ {[x]}) ≤ size (members_of prev))%nat
        by (apply subseteq_size; set_solver). lia.
Qed.
End properties.

(** An engine that knows only the identity templates, for closed examples. *)
Definition identity_engine : TemplateEngine := {| template_Execute := λ _ _, None |}.

Definition sample_counter : counter :=
  mkCounter (mkExpander "" fieldRefKey) true (mkOwnership false "").
Definition sample_keyset (n : Z) : keysetOwnership :=
  mkKeyset (mkExpander "" fieldRefKey) (mkExpander "" fieldRefMember) "," n (mkOwnership false "").
Definition sample_event (op : Op) (key member : string) (value : option string) (delta : Z) : Event.t :=
  Event.mk "pub" 1 1 0 0 "topic" op key member value delta None None.

Lemma counter_saturates_exactly_witness :
  ∃ m, @counter_Apply identity_engine sample_counter (counter_value (max_i64 - 1))
         (sample_event OpIncr "k" "" None 5) = inr m
  ∧ MValue m = counter_value max_i64 ∧ (MSaturated m = true ↔ ¬ is_i64 (max_i64 - 1 + 5)).
Proof.
  eexists. split; [reflexivity|].
  destruct (@counter_saturates_exactly identity_engine sample_counter
    (counter_value (max_i64 - 1)) (sample_event OpIncr "k" "" None 5)
    (mkMutation "k" ActionUpsert (counter_value max_i64) None false true)) as (_ & H1 & H2);
    [by vm_compute|by vm_compute|reflexivity|reflexivity|].
  split; [exact H1|exact H2].
Defined.

Lemma keyset_upsert_bounded_witness :
  ∃ m, @keyset_Apply identity_engine (sample_keyset 1) (set_value {["a"]})
         (sample_event OpAdd "k" "b" None 0) = inr m
  ∧ MValue m = set_value {["a"]}.
Proof.
  eexists. split; [reflexivity|].
  apply (@keyset_upsert_bounded identity_engine (sample_keyset 1) (set_value {["a"]})
    (sample_event OpAdd "k" "b" None 0)
    (mkMutation "k" ActionUpsert (set_value {["a"]}) None true false)).
  - reflexivity.
  - right. split_and!; [reflexivity|discriminate|by vm_compute].
  - reflexivity.
  - reflexivity.
  - reflexivity.
  - reflexivity.
Defined.
