(* ===== verification/GoFloat.v ===== *)
(** * GoFloat: float64

    The operations on float64 the source uses, as the IEEE 754 binary64
    operations of the Standard Library's executable specification. Go leaves the
    conversion of a value that does not fit to the compiler, so it is a parameter.
    The values the source converts are products of a 60s delay and a small
    factor. *)
From S2P Require Import Prelude GoBase.
From Stdlib Require Export SpecFloat.

Definition float64 : Type := spec_float.

Definition float_of_Z (z : Z) : float64 := binary_normalize 53 1024 z 0 false.
Definition float_mul : float64 → float64 → float64 := SFmul 53 1024.
Definition float_add : float64 → float64 → float64 := SFadd 53 1024.
Definition float_div : float64 → float64 → float64 := SFdiv 53 1024.

(** The constant [n / d] for integers that are exact in float64: one correct rounding. *)
Definition float_lit (n d : Z) : float64 := float_div (float_of_Z n) (float_of_Z d).

(** What int64(f) gives for a value that does not fit. *)
Class FloatOverflow := { overflow_int64 : float64 → Z; overflow_is_i64 : ∀ f, is_i64 (overflow_int64 f) }.

(** Truncation towards zero. *)
Definition float_trunc (f : float64) : option Z :=
  match f with
  | S754_zero _ => Some 0
  | S754_finite s m e => let v := Z.shiftl (Zpos m) e in Some (if s then - v else v)
  | _ => None
  end.

Definition int64_of_float `{FloatOverflow} (f : float64) : Z :=
  match float_trunc f with
  | Some z => if (min_i64 <=? z) && (z <=? max_i64) then z else overflow_int64 f
  | None => overflow_int64 f
  end.

(** Seconds(), Minutes() and Hours() of a duration: the whole units plus the rest. *)
Definition time_Hour : Duration := 60 * time_Minute.
Definition in_units (d unit : Duration) : float64 :=
  float_add (float_of_Z (Z.quot d unit)) (float_div (float_of_Z (Z.rem d unit)) (float_of_Z unit)).
Definition Seconds (d : Duration) : float64 := in_units d time_Second.
Definition Minutes (d : Duration) : float64 := in_units d time_Minute.
Definition Hours (d : Duration) : float64 := in_units d time_Hour.

(** [int(f)] of such a number: the largest is far from the end of the range. *)
Definition float_whole (f : float64) : Z := default 0 (float_trunc f).

Lemma int64_of_float_range `{FloatOverflow} f : is_i64 (int64_of_float f).
Proof.
  unfold int64_of_float, is_i64.
  destruct (float_trunc f) as [z|]; [|apply overflow_is_i64].
  case_bool. apply overflow_is_i64.
Qed.

(** amd64 gives the smallest int64. *)
Definition amd64_overflow : FloatOverflow.
Proof. refine {| overflow_int64 := λ _, min_i64 |}. by intros _. Defined.

Example trunc_three_halves : float_trunc (float_lit 3 2) = Some 1.
Proof. reflexivity. Qed.
Example trunc_negative : float_trunc (float_lit (-7) 2) = Some (-3).
Proof. reflexivity. Qed.
Example three_times : float_trunc (float_mul (float_of_Z (10 ^ 9)) (float_of_Z 3)) = Some (3 * 10 ^ 9).
Proof. reflexivity. Qed.
