(* ===== verification/GoTime.v ===== *)
(** * GoTime: time.Parse, time.Date, time.ParseDuration and strconv.ParseFloat

    The parts of the Go standard library the codecs read wire values with. A
    time is its nanoseconds since the Unix epoch, as in GoBase; the calendar is
    the proleptic Gregorian one. *)
From Stdlib Require Import Ascii String.
From stdpp Require Import strings.
From S2P Require Import Prelude GoBase GoFloat GoStrings.

(** ** The calendar *)

(** Days from 1970-01-01 to a day of the civil calendar; [m] is 1 to 12, [d] is any. *)
Definition days_from_civil (y m d : Z) : Z :=
  let y := if m <=? 2 then y - 1 else y in
  let era := y / 400 in
  let yoe := y - era * 400 in
  let doy := (153 * ((m + 9) mod 12) + 2) / 5 + d - 1 in
  let doe := yoe * 365 + yoe / 4 - yoe / 100 + doy in
  era * 146097 + doe - 719468.

(** The day of an era of 400 years that begins in March: year of the era, month and day. *)
Definition civil_of_doe (doe : Z) : Z * Z * Z :=
  let yoe := (doe - doe / 1460 + doe / 36524 - doe / 146096) / 365 in
  let doy := doe - (365 * yoe + yoe / 4 - yoe / 100) in
  let mp := (5 * doy + 2) / 153 in
  let d := doy - (153 * mp + 2) / 5 + 1 in
  let m := if mp <? 10 then mp + 3 else mp - 9 in
  (yoe + (if m <=? 2 then 1 else 0), m, d).

Definition civil_from_days (days : Z) : Z * Z * Z :=
  let z := days + 719468 in
  let '(y, m, d) := civil_of_doe (z mod 146097) in
  (y + z / 146097 * 400, m, d).

Definition isLeap (y : Z) : bool := (y mod 4 =? 0) && (negb (y mod 100 =? 0) || (y mod 400 =? 0)).

Definition daysIn (m y : Z) : Z :=
  if m =? 2 then (if isLeap y then 29 else 28)
  else if (m =? 4) || (m =? 6) || (m =? 9) || (m =? 11) then 30 else 31.

(** time.Date: the month carries into the year, and everything below the month is linear. [offset] is
    the location's, in seconds east of UTC. *)
Definition time_Date (year month day hour min sec nsec offset : Z) : Time :=
  let year := year + (month - 1) / 12 in
  let month := (month - 1) mod 12 + 1 in
  (days_from_civil year month day * 86400 + hour * 3600 + min * 60 + sec - offset) * 10 ^ 9 + nsec.

(** The calendar fields of a time in a location: year, month, day, hour, minute, second. *)
Definition time_fields (t : Time) (offset : Z) : Z * Z * Z * Z * Z * Z :=
  let s := t / 10 ^ 9 + offset in
  let '(y, m, d) := civil_from_days (s / 86400) in
  let r := s mod 86400 in
  (y, m, d, r / 3600, r mod 3600 / 60, r mod 60).

(** time.Unix(n, 0), time.UnixMilli(n) and time.Unix(0, n) *)
Definition time_Unix (n : Z) : Time := n * time_Second.
Definition time_UnixMilli (n : Z) : Time := n * time_Millisecond.
Definition time_UnixNano (n : Z) : Time := n.

(** ** Digits *)

Definition isDigit (c : ascii) : bool := in_range 48 57 (byte_of c).
Definition digit (c : ascii) : Z := byte_of c - 48.

(** The longest run of digits, and the rest. *)
Fixpoint span_digits (s : string) : string * string :=
  match s with
  | String c s' => if isDigit c then let '(ds, rest) := span_digits s' in (String c ds, rest) else ("", s)
  | "" => ("", "")
  end.

(** The value of a run of digits. *)
Definition digits_number (s : string) : Z := default 0 (digits_value s 0).

(** A run of at most [width] digits read as a number of [width] digits. *)
Fixpoint scaled (width : nat) (s : string) : Z :=
  match width with
  | O => 0
  | S width =>
      match s with
      | "" => 0
      | String c s => digit c * 10 ^ Z.of_nat width + scaled width s
      end
  end.

(** ** time.Parse(time.RFC3339Nano, s) *)

(** getnum(s, true): exactly two digits; getnum(s, false): one or two. *)
Definition getnum_fixed (s : string) : option (Z * string) :=
  match s with
  | String a (String b s) => if isDigit a && isDigit b then Some (digit a * 10 + digit b, s) else None
  | _ => None
  end.

Definition getnum (s : string) : option (Z * string) :=
  match s with
  | String a s' =>
      if isDigit a then
        match s' with
        | String b s'' => if isDigit b then Some (digit a * 10 + digit b, s'') else Some (digit a, s')
        | "" => Some (digit a, "")
        end
      else None
  | "" => None
  end.

Definition skip_byte (c : ascii) (s : string) : option string :=
  match s with String a s => if Ascii.eqb a c then Some s else None | "" => None end.

(** The four digits of the year. *)
Definition parse_year (s : string) : option (Z * string) :=
  match s with
  | String a (String b (String c (String d s))) =>
      if isDigit a && isDigit b && isDigit c && isDigit d
      then Some (digit a * 1000 + digit b * 100 + digit c * 10 + digit d, s) else None
  | _ => None
  end.

Definition commaOrPeriod (c : ascii) : bool := Ascii.eqb c "." || Ascii.eqb c ",".

(** The fraction of the second, if there is one: digits past the ninth are dropped. *)
Definition parse_fraction (s : string) : Z * string :=
  match s with
  | String c s' =>
      let '(ds, rest) := span_digits s' in
      if commaOrPeriod c && negb (bool_decide (ds = "")) then (scaled 9 ds, rest) else (0, s)
  | "" => (0, "")
  end.

(** "Z", or the offset in seconds; the hour may be 24 and the minute 60. *)
Definition parse_zone (s : string) : option (Z * string) :=
  match s with
  | String c s' =>
      if Ascii.eqb c "Z" then Some (0, s')
      else
        '(hr, s') ← getnum_fixed s';
        s' ← skip_byte ":" s';
        '(mm, s') ← getnum_fixed s';
        if (hr >? 24) || (mm >? 60) then None
        else if Ascii.eqb c "+" then Some ((hr * 60 + mm) * 60, s')
        else if Ascii.eqb c "-" then Some (- ((hr * 60 + mm) * 60), s')
        else None
  | "" => None
  end.

Definition in_bounds (lo hi n : Z) : option unit := if (lo <=? n) && (n <=? hi) then Some tt else None.

Definition time_Parse (s : string) : option Time :=
  '(year, s) ← parse_year s;
  s ← skip_byte "-" s;
  '(month, s) ← getnum_fixed s;
  _ ← in_bounds 1 12 month;
  s ← skip_byte "-" s;
  '(day, s) ← getnum_fixed s;
  s ← skip_byte "T" s;
  '(hour, s) ← getnum s;
  _ ← in_bounds 0 23 hour;
  s ← skip_byte ":" s;
  '(min, s) ← getnum_fixed s;
  _ ← in_bounds 0 59 min;
  s ← skip_byte ":" s;
  '(sec, s) ← getnum_fixed s;
  _ ← in_bounds 0 59 sec;
  let '(nsec, s) := parse_fraction s in
  '(offset, s) ← parse_zone s;
  if negb (bool_decide (s = "")) then None
  else
    _ ← in_bounds 1 (daysIn month year) day;
    Some (time_Date year month day hour min sec nsec offset).

(** ** time.ParseDuration *)

Definition two_63 : Z := 2 ^ 63.

Definition unitMap (u : string) : option Z :=
  if decide (u = "ns") then Some 1
  else if decide (u = "us") then Some 1000
  else if decide (u = String (ascii_of 194) (String (ascii_of 181) "s")) then Some 1000
  else if decide (u = String (ascii_of 206) (String (ascii_of 188) "s")) then Some 1000
  else if decide (u = "ms") then Some (10 ^ 6)
  else if decide (u = "s") then Some (10 ^ 9)
  else if decide (u = "m") then Some (60 * 10 ^ 9)
  else if decide (u = "h") then Some (3600 * 10 ^ 9)
  else None.

(** leadingInt: [None] is the overflow. *)
Fixpoint leadingInt (s : string) (x : Z) : option (Z * string) :=
  match s with
  | String c s' =>
      if negb (isDigit c) then Some (x, s)
      else if x >? two_63 / 10 then None
      else let x := u64 (x * 10 + digit c) in if x >? two_63 then None else leadingInt s' x
  | "" => Some (x, "")
  end.

(** leadingFraction: once the number has overflown, digits are only skipped. *)
Fixpoint leadingFraction (s : string) (x : Z) (scale : float64) (overflow : bool) : Z * float64 * string :=
  match s with
  | String c s' =>
      if negb (isDigit c) then (x, scale, s)
      else if overflow || (x >? (two_63 - 1) / 10) then leadingFraction s' x scale true
      else
        let y := u64 (x * 10 + digit c) in
        if y >? two_63 then leadingFraction s' x scale true
        else leadingFraction s' y (float_mul scale (float_of_Z 10)) false
  | "" => (x, scale, "")
  end.

(** The unit: everything up to the next digit or period. *)
Fixpoint span_unit (s : string) : string * string :=
  match s with
  | String c s' =>
      if Ascii.eqb c "." || isDigit c then ("", s) else let '(u, rest) := span_unit s' in (String c u, rest)
  | "" => ("", "")
  end.

(** One number and its unit, in nanoseconds, and the rest. *)
Definition duration_term (s : string) : option (Z * string) :=
  match s with
  | "" => None
  | String c _ =>
      if negb (Ascii.eqb c "." || isDigit c) then None
      else
        '(v, s1) ← leadingInt s 0;
        let pre := negb (String.length s1 =? String.length s)%nat in
        let '(f, scale, s2, post) :=
          match s1 with
          | String c1 s1' =>
              if Ascii.eqb c1 "." then
                let '(f, scale, s2) := leadingFraction s1' 0 (float_of_Z 1) false in
                (f, scale, s2, negb (String.length s2 =? String.length s1')%nat)
              else (0, float_of_Z 1, s1, false)
          | "" => (0, float_of_Z 1, s1, false)
          end in
        if negb pre && negb post then None
        else
          let '(u, s3) := span_unit s2 in
          if bool_decide (u = "") then None
          else
            unit ← unitMap u;
            if v >? two_63 / unit then None
            else
              let v := u64 (v * unit) in
              if f >? 0 then
                let v := u64 (v + default 0 (float_trunc (float_mul (float_of_Z f) (float_div (float_of_Z unit) scale)))) in
                if v >? two_63 then None else Some (v, s3)
              else Some (v, s3)
  end.

(** The loop over the terms: each takes at least one byte, so the length is fuel enough. *)
Fixpoint duration_terms (fuel : nat) (s : string) (d : Z) : option Z :=
  match s with
  | "" => Some d
  | _ =>
      match fuel with
      | O => None
      | S fuel =>
          '(v, s) ← duration_term s;
          let d := u64 (d + v) in
          if d >? two_63 then None else duration_terms fuel s d
      end
  end.

Definition ParseDuration (s : string) : option Duration :=
  let '(neg, s) := match s with
                   | String "-" s' => (true, s')
                   | String "+" s' => (false, s')
                   | _ => (false, s) end in
  if bool_decide (s = "0") then Some 0
  else if bool_decide (s = "") then None
  else
    d ← duration_terms (String.length s) s 0;
    if (neg : bool) then Some (i64 (- i64 d))
    else if d >? two_63 - 1 then None else Some d.

(** ** strconv.ParseFloat(s, 64) of a decimal literal *)

(** The float64 nearest to [n / d]: the quotient with a sticky remainder, rounded once. *)
Definition float_of_ratio (neg : bool) (n d : positive) : float64 :=
  let '(q, e, loc) := SFdiv_core_binary 53 1024 (Zpos n) 0 (Zpos d) 0 in
  binary_round_aux 53 1024 neg q e loc.

(** The exponent's digits; past ten thousand they no longer change it. *)
Fixpoint exponent_value (s : string) (e : Z) : Z :=
  match s with
  | "" => e
  | String c s => exponent_value s (if e <? 10000 then e * 10 + digit c else e)
  end.

Definition float_of_decimal (neg : bool) (n e : Z) : float64 :=
  match n with
  | Zpos n' =>
      if 0 <=? e then binary_normalize 53 1024 (if neg then - (n * 10 ^ e) else n * 10 ^ e) 0 neg
      else float_of_ratio neg n' (Z.to_pos (10 ^ (- e)))
  | _ => S754_zero neg
  end.

(** An optional sign, digits, an optional fraction and an optional exponent: the parts of the literal.
    The numbers a JSON scanner lets through have this form; hexadecimal literals, underscores and the
    names of the infinities do not. *)
Definition ParseFloat (s : string) : option float64 :=
  let '(neg, s) := match s with
                   | String "-" s' => (true, s')
                   | String "+" s' => (false, s')
                   | _ => (false, s) end in
  let '(whole, s) := span_digits s in
  let '(frac, s) := match s with
                    | String "." s' => span_digits s'
                    | _ => ("", s) end in
  if bool_decide (whole +:+ frac = "") then None
  else
    let n := digits_number (whole +:+ frac) in
    let f e := let f := float_of_decimal neg n (e - Z.of_nat (String.length frac)) in
               match f with S754_infinity _ => None | _ => Some f end in
    match s with
    | "" => f 0
    | String c s' =>
        if Ascii.eqb c "e" || Ascii.eqb c "E" then
          let '(eneg, s') := match s' with
                             | String "-" s'' => (true, s'')
                             | String "+" s'' => (false, s'')
                             | _ => (false, s') end in
          let '(es, rest) := span_digits s' in
          if bool_decide (es = "") || negb (bool_decide (rest = "")) then None
          else let e := exponent_value es 0 in f (if (eneg : bool) then - e else e)
        else None
    end.
