(* ===== verification/Codec.v ===== *)
(** * Codec: what the codecs share (pkg/codec/codec.go, json.go)

    The interface the pipeline relies on, the registry, the fields a codec
    extracts and the configuration that renames them, the names of operations,
    the cache of repeated strings and the reading of Unix times. *)
From Stdlib Require Import Ascii String.
From stdpp Require Import strings.
From S2P Require Import Prelude GoBase GoStrings GoFloat GoTime Event Projection.

(** ** Errors *)

(** The sentinels; two of them are those of the event package, whose other errors come through too. *)
Inductive codec_error :=
  | ErrMalformed | ErrTooLarge | ErrUnknownCodec | ErrBadConfig
  | ErrEvent (e : Event.Error).

#[export] Instance event_error_eq_dec : EqDecision Event.Error.
Proof. solve_decision. Defined.
#[export] Instance codec_error_eq_dec : EqDecision codec_error.
Proof. solve_decision. Defined.

Definition ErrUnknownOp : codec_error := ErrEvent Event.ErrUnknownOp.
Definition ErrMissingField : codec_error := ErrEvent Event.ErrMissingField.

(** ** The interface *)

(** Decode overwrites every field of the event but ObservedAt, and the sequence number and the epoch
    are uint64. *)
Class Codec := {
  Decode : string → string → Time → codec_error + Event.t;
  Decode_ObservedAt : ∀ payload topic t e, Decode payload topic t = inr e → ObservedAt e = t;
  Decode_uint64 : ∀ payload topic t e, Decode payload topic t = inr e → is_u64 (Seq e) ∧ is_u64 (Epoch e)
}.

(** The event a codec starts from. *)
Definition blank (observed : Time) (topic : string) : Event.t :=
  Event.mk "" 0 0 zero_time observed topic OpUnknown "" "" None 0 None None.

(** The assignments to one field of an event. *)
Definition set_Publisher (v : string) (e : Event.t) : Event.t :=
  Event.mk v (Epoch e) (Seq e) (PublishedAt e) (ObservedAt e) (Topic e) (EOp e) (Event.Key e) (Member e)
    (EValue e) (Delta e) (TTL e) (Raw e).
Definition set_Epoch (v : Z) (e : Event.t) : Event.t :=
  Event.mk (Publisher e) v (Seq e) (PublishedAt e) (ObservedAt e) (Topic e) (EOp e) (Event.Key e) (Member e)
    (EValue e) (Delta e) (TTL e) (Raw e).
Definition set_Seq (v : Z) (e : Event.t) : Event.t :=
  Event.mk (Publisher e) (Epoch e) v (PublishedAt e) (ObservedAt e) (Topic e) (EOp e) (Event.Key e) (Member e)
    (EValue e) (Delta e) (TTL e) (Raw e).
Definition set_PublishedAt (v : Time) (e : Event.t) : Event.t :=
  Event.mk (Publisher e) (Epoch e) (Seq e) v (ObservedAt e) (Topic e) (EOp e) (Event.Key e) (Member e)
    (EValue e) (Delta e) (TTL e) (Raw e).
Definition set_Op (v : Op) (e : Event.t) : Event.t :=
  Event.mk (Publisher e) (Epoch e) (Seq e) (PublishedAt e) (ObservedAt e) (Topic e) v (Event.Key e) (Member e)
    (EValue e) (Delta e) (TTL e) (Raw e).
Definition set_Key (v : string) (e : Event.t) : Event.t :=
  Event.mk (Publisher e) (Epoch e) (Seq e) (PublishedAt e) (ObservedAt e) (Topic e) (EOp e) v (Member e)
    (EValue e) (Delta e) (TTL e) (Raw e).
Definition set_Member (v : string) (e : Event.t) : Event.t :=
  Event.mk (Publisher e) (Epoch e) (Seq e) (PublishedAt e) (ObservedAt e) (Topic e) (EOp e) (Event.Key e) v
    (EValue e) (Delta e) (TTL e) (Raw e).
Definition set_Value (v : option string) (e : Event.t) : Event.t :=
  Event.mk (Publisher e) (Epoch e) (Seq e) (PublishedAt e) (ObservedAt e) (Topic e) (EOp e) (Event.Key e)
    (Member e) v (Delta e) (TTL e) (Raw e).
Definition set_TTL (v : option Duration) (e : Event.t) : Event.t :=
  Event.mk (Publisher e) (Epoch e) (Seq e) (PublishedAt e) (ObservedAt e) (Topic e) (EOp e) (Event.Key e)
    (Member e) (EValue e) (Delta e) v (Raw e).
Definition set_Delta (v : Z) (e : Event.t) : Event.t :=
  Event.mk (Publisher e) (Epoch e) (Seq e) (PublishedAt e) (ObservedAt e) (Topic e) (EOp e) (Event.Key e)
    (Member e) (EValue e) v (TTL e) (Raw e).
Definition set_Raw (v : option string) (e : Event.t) : Event.t :=
  Event.mk (Publisher e) (Epoch e) (Seq e) (PublishedAt e) (ObservedAt e) (Topic e) (EOp e) (Event.Key e)
    (Member e) (EValue e) (Delta e) (TTL e) v.

(** An error value for a failed conversion. *)
Definition or_err {A} (err : codec_error) (m : option A) : codec_error + A :=
  match m with Some a => inr a | None => inl err end.

(** ** The registry *)

Section registry.
Context {C : Type}.

Definition Constructor : Type := gmap string string → codec_error + C.

(** [None] is the panic of a second registration or an empty name. *)
Definition Register (name : string) (ctor : Constructor) (registry : gmap string Constructor)
    : option (gmap string Constructor) :=
  if decide (name = "") then None
  else match registry !! name with
       | Some _ => None
       | None => Some (<[name := ctor]> registry)
       end.

Definition New (registry : gmap string Constructor) (name : string) (cfg : gmap string string)
    : codec_error + C :=
  match registry !! name with
  | None => inl ErrUnknownCodec
  | Some ctor => ctor cfg
  end.

Definition Names (registry : gmap string Constructor) : list string :=
  sort_Strings (elements (dom registry)).
End registry.

(** ** Fields *)

Definition defaultMaxPayloadBytes : Z := 1048576.
Definition defaultMaxKeyBytes : Z := 4096.
Definition defaultMaxDepth : Z := 32.
Definition defaultMaxPublishers : Z := 1024.

(** numFields, the length of the table, is no field of its own here. *)
Inductive field :=
  | fieldPublisher | fieldEpoch | fieldSeq | fieldTimestamp | fieldOp | fieldKey | fieldMember
  | fieldValue | fieldTTL | fieldDelta.

#[export] Instance field_eq_dec : EqDecision field.
Proof. solve_decision. Defined.

(** The table, in the order of the constants: the key that renames a field and its default name. *)
Definition configKeys : list (field * (string * string)) :=
  [(fieldPublisher, ("publisherField", "publisher"));
   (fieldEpoch, ("epochField", "epoch"));
   (fieldSeq, ("seqField", "seq"));
   (fieldTimestamp, ("timestampField", "ts"));
   (fieldOp, ("opField", "op"));
   (fieldKey, ("keyField", "key"));
   (fieldMember, ("memberField", "member"));
   (fieldValue, ("valueField", "value"));
   (fieldTTL, ("ttlField", "ttl"));
   (fieldDelta, ("deltaField", "delta"))].

(** The loop of the constructors over the table: several fields may read one name. *)
Fixpoint field_names (cfg : gmap string string) (table : list (field * (string * string)))
    (names : gmap string (list field)) : codec_error + gmap string (list field) :=
  match table with
  | [] => inr names
  | (f, (cfgKey, defaultName)) :: table =>
      let add name := <[name := default [] (names !! name) ++ [f]]> names in
      match cfg !! cfgKey with
      | Some override =>
          if decide (override = "") then inl ErrBadConfig else field_names cfg table (add override)
      | None => field_names cfg table (add defaultName)
      end
  end.

(** ** Operations *)

(** ASCII letters in lower case, without separators. *)
Fixpoint normalizeOpName (raw : string) : string :=
  match raw with
  | "" => ""
  | String ch raw =>
      if Ascii.eqb ch "_" || Ascii.eqb ch "-" then normalizeOpName raw
      else String (if in_range 65 90 (byte_of ch) then ascii_of (byte_of ch + 32) else ch)
             (normalizeOpName raw)
  end.

Definition builtinOpNames : gmap string Op :=
  foldl (λ out op, <[normalizeOpName (Op_String op) := op]> out) ∅
    [OpSet; OpDelete; OpAdd; OpRemove; OpIncr; OpSnapshotBegin; OpSnapshotEnd; OpHeartbeat].

Section config.
Context `{UnicodeTables}.

Fixpoint parse_pairs (pairs : list string) (out : gmap string Op) : codec_error + gmap string Op :=
  match pairs with
  | [] => inr out
  | entry :: pairs =>
      let '(name, target, found) := strings_Cut entry "=" in
      let name := TrimSpace name in
      let target := TrimSpace target in
      if negb found || bool_decide (name = "") || bool_decide (target = "") then inl ErrBadConfig
      else
        match ParseOp target with
        | None => inl ErrBadConfig
        | Some op => parse_pairs pairs (<[name := op]> out)
        end
  end.

Definition parseOpMapping (spec : string) : codec_error + gmap string Op :=
  if bool_decide (TrimSpace spec = "") then inr ∅ else parse_pairs (strings_Split spec ",") ∅.

Definition intConfig (cfg : gmap string string) (key : string) (def : Z) : codec_error + Z :=
  match cfg !! key with
  | None => inr def
  | Some raw =>
      match ParseInt (TrimSpace raw) with
      | None => inl ErrBadConfig
      | Some n => if n <=? 0 then inl ErrBadConfig else inr n
      end
  end.

Definition boolConfig (cfg : gmap string string) (key : string) : codec_error + bool :=
  match cfg !! key with
  | None => inr false
  | Some raw => match ParseBool (TrimSpace raw) with None => inl ErrBadConfig | Some v => inr v end
  end.
End config.

(** The configured names win over the built-in ones. *)
Definition resolve_name (opMap opNames : gmap string Op) (name : string) : codec_error + Op :=
  match opMap !! name with
  | Some op => inr op
  | None =>
      match opNames !! normalizeOpName name with
      | Some op => inr op
      | None => inl ErrUnknownOp
      end
  end.

(** ** The cache of repeated strings *)

Record interner := mkInterner { im : gmap string string; ientries : Z }.

Definition newInterner (entries : Z) : interner := mkInterner ∅ entries.

Definition intern_store (i : interner) (s : string) : interner :=
  if Z.of_nat (size (im i)) <? ientries i then mkInterner (<[s := s]> (im i)) (ientries i) else i.

(** [get] and [getString]; the lookup and the store are two critical sections. *)
Definition intern_get (i : interner) (b : string) : interner * string :=
  match im i !! b with
  | Some s => (i, s)
  | None => (intern_store i b, b)
  end.

(** ** Unix times *)

Definition unixSecondsCeiling : Z := 10 ^ 11.
Definition unixMillisCeiling : Z := 10 ^ 14.

Definition unixTimestamp (n : Z) : Time :=
  if n =? 0 then zero_time
  else
    let magnitude := if n <? 0 then i64 (- n) else n in
    if magnitude <? unixSecondsCeiling then time_Unix n
    else if magnitude <? unixMillisCeiling then time_UnixMilli n
    else time_UnixNano n.

(** ** Lemmas *)

(** What a cache holds is what it was asked for, and it stays within its bound. *)
Record interner_ok (i : interner) : Prop := mk_interner_ok {
  in_same : ∀ b s, im i !! b = Some s → s = b;
  in_bound : Z.of_nat (size (im i)) ≤ Z.max 0 (ientries i)
}.

Lemma newInterner_ok n : interner_ok (newInterner n).
Proof. split; [intros b s; cbn; by rewrite lookup_empty|cbn; rewrite map_size_empty; lia]. Qed.

Lemma intern_store_ok i s : interner_ok i → interner_ok (intern_store i s).
Proof.
  intros [Hs Hb]. unfold intern_store. destruct (Z.ltb_spec (Z.of_nat (size (im i))) (ientries i)); [|done].
  split; cbn.
  - intros b s'. intros [[<- <-]|[_ Hb']]%lookup_insert_Some; [done|by apply Hs].
  - rewrite map_size_insert. destruct (im i !! s); cbn; lia.
Qed.

(** The cache never changes what is read through it. *)
Lemma intern_get_spec i b :
  interner_ok i → (intern_get i b).2 = b ∧ interner_ok (intern_get i b).1 ∧ ientries (intern_get i b).1 = ientries i.
Proof.
  intros Hi. unfold intern_get. destruct (im i !! b) as [s|] eqn:Hb; cbn.
  - split_and!; [|done|done]. by eapply in_same.
  - split_and!; [done|by apply intern_store_ok|]. unfold intern_store. by case_match.
Qed.

(** At the bottom of int64 the magnitude wraps around: the time is read as seconds, not nanoseconds. *)
Example unixTimestamp_of_min : unixTimestamp min_i64 = time_Unix min_i64.
Proof. reflexivity. Qed.
Example unixTimestamp_below_min : unixTimestamp (min_i64 + 1) = time_UnixNano (min_i64 + 1).
Proof. reflexivity. Qed.

(** ** Operations that have a name *)

Definition ops_named (m : gmap string Op) : Prop := ∀ name op, m !! name = Some op → op ∈ named_ops.

Lemma builtin_named : ops_named builtinOpNames.
Proof.
  intros name op Ho. assert (map_Forall (λ _ op, op ∈ named_ops) builtinOpNames) as Hall.
  { apply (bool_decide_unpack _). vm_compute. exact I. }
  exact (Hall name op Ho).
Qed.

(** A mapping of the configuration names operations, and so does what is resolved with it. *)
Lemma parse_pairs_named `{UnicodeTables} pairs : ∀ out m, ops_named out → parse_pairs pairs out = inr m → ops_named m.
Proof.
  induction pairs as [|entry pairs IH]; intros out m Hout; cbn [parse_pairs]; [by intros [= <-]|].
  destruct (strings_Cut entry "=") as [[name target] found]. case_match; [done|].
  destruct (ParseOp (TrimSpace target)) as [op|] eqn:Hp; [|done]. apply IH.
  intros n o [[<- <-]|[_ Ho]]%lookup_insert_Some; [|by eapply Hout].
  unfold ParseOp in Hp. apply List.find_some in Hp as [Hin _]. by apply list_elem_of_In.
Qed.

Lemma parseOpMapping_named `{UnicodeTables} spec m : parseOpMapping spec = inr m → ops_named m.
Proof.
  unfold parseOpMapping. case_bool_decide.
  - intros [= <-]. intros n o Ho. by rewrite lookup_empty in Ho.
  - intros Hp. eapply parse_pairs_named; [|exact Hp]. intros n o Ho. by rewrite lookup_empty in Ho.
Qed.

Lemma resolve_name_named m name : ops_named m →
  match resolve_name m builtinOpNames name with inl err => err = ErrUnknownOp | inr op => op ∈ named_ops end.
Proof.
  intros Hm. unfold resolve_name. destruct (m !! name) as [op|] eqn:Ho; [by eapply Hm|].
  destruct (builtinOpNames !! normalizeOpName name) as [op|] eqn:Hb; [by eapply builtin_named|done].
Qed.

Lemma valid_named e : Validate e = None → EOp e ∈ named_ops ∧ ∀ d, TTL e = Some d → 0 ≤ d.
Proof.
  unfold Validate. destruct (decide (Publisher e = "")); [done|].
  destruct (match TTL e with Some d => d <? 0 | None => false end) eqn:Ht; [done|].
  intros Ho. split.
  - destruct (EOp e); first [done|refine (bool_decide_unpack _ _); exact I].
  - intros d Hd. rewrite Hd in Ht. lia.
Qed.

(** ** Failures *)

(** The sentinels a payload can fail with. *)
Definition decode_sentinel (err : codec_error) : Prop :=
  err = ErrMalformed ∨ err = ErrTooLarge ∨ err = ErrUnknownOp ∨ err = ErrMissingField.

(** What every codec owes the pipeline for an event it has begun: the fields it does not take from the
    wire, 64-bit numbers, and an operation with a name or none yet. *)
Record begun (observed : Time) (topic : string) (e : Event.t) : Prop := mk_begun {
  bg_observed : ObservedAt e = observed;
  bg_topic : Topic e = topic;
  bg_seq : is_u64 (Seq e);
  bg_epoch : is_u64 (Epoch e);
  bg_op : EOp e = OpUnknown ∨ EOp e ∈ named_ops
}.

Lemma blank_begun observed topic : begun observed topic (blank observed topic).
Proof. split; try done. by left. Qed.

(** A result that is one of the sentinels or satisfies [P]. *)
Definition sentinel_or {A} (P : A → Prop) (res : codec_error + A) : Prop :=
  match res with inl err => decode_sentinel err | inr a => P a end.

Lemma sentinel_bind {A B} (P : A → Prop) (Q : B → Prop) (m : codec_error + A) (k : A → codec_error + B) :
  sentinel_or P m → (∀ a, P a → sentinel_or Q (k a)) → sentinel_or Q (m ≫= k).
Proof. destruct m as [err|a]; cbn; auto. Qed.

Lemma sentinel_weaken {A} (P Q : A → Prop) m : sentinel_or P m → (∀ a, P a → Q a) → sentinel_or Q m.
Proof. destruct m; cbn; auto. Qed.

Lemma or_err_malformed {A} (m : option A) : sentinel_or (λ a, m = Some a) (or_err ErrMalformed m).
Proof. destruct m; [done|by left]. Qed.

Lemma resolve_sentinel m name : ops_named m → sentinel_or (λ op, op ∈ named_ops) (resolve_name m builtinOpNames name).
Proof.
  intros Hm. pose proof (resolve_name_named m name Hm) as Hr. destruct (resolve_name _ _ _); cbn; [|done].
  subst. unfold decode_sentinel. auto.
Qed.

(** ** A field is fed by one name *)

Record fed_once (names : gmap string (list field)) : Prop := mk_fed_once {
  fo_same : ∀ n1 n2 l1 l2 f, names !! n1 = Some l1 → names !! n2 = Some l2 → f ∈ l1 → f ∈ l2 → n1 = n2;
  fo_NoDup : ∀ n l, names !! n = Some l → NoDup l
}.

Lemma field_names_fed_once cfg table : ∀ names names',
  NoDup (table.*1) → fed_once names → (∀ n l f, names !! n = Some l → f ∈ l → f ∉ table.*1) →
  field_names cfg table names = inr names' → fed_once names'.
Proof.
  induction table as [|[f [key def]] table IH]; intros names names' Hnd Hf Hsep; cbn [field_names].
  { by intros [= <-]. }
  apply NoDup_cons in Hnd as [Hnf Hnd].
  assert (∀ name, let names0 := <[name := default [] (names !! name) ++ [f]]> names in
    fed_once names0 ∧ ∀ n l g, names0 !! n = Some l → g ∈ l → g ∉ table.*1) as Hadd.
  { intros name. cbv zeta. assert (∀ n l g, <[name := default [] (names !! name) ++ [f]]> names !! n = Some l → g ∈ l →
      g = f ∧ n = name ∨ ∃ l', names !! n = Some l' ∧ g ∈ l') as Hin.
    { intros n l g [[<- <-]|[_ Hl]]%lookup_insert_Some Hg; [|by eauto].
      apply elem_of_app in Hg as [Hg|Hg%list_elem_of_singleton]; [|by left].
      destruct (names !! name) as [l'|] eqn:Hl; [|by apply elem_of_nil in Hg]. right. eauto. }
    assert (∀ n l, names !! n = Some l → f ∉ l) as Hfresh.
    { intros n l Hl Hfl. apply (Hsep n l f Hl Hfl). by left. }
    split; [split|].
    - intros n1 n2 l1 l2 g H1 H2 G1 G2. apply (Hin _ _ _ H1) in G1. apply (Hin _ _ _ H2) in G2.
      destruct G1 as [[-> ->]|(m1 & M1 & G1)], G2 as [[? ->]|(m2 & M2 & G2)]; [done| | |by eapply fo_same].
      + by apply Hfresh in M2.
      + subst. by apply Hfresh in M1.
    - intros n l [[<- <-]|[_ Hl]]%lookup_insert_Some; [|by eapply fo_NoDup].
      destruct (names !! name) as [l|] eqn:Hl; [|by apply NoDup_singleton]. cbn.
      apply NoDup_app. split_and!; [by eapply fo_NoDup| |by apply NoDup_singleton].
      intros g Hg ->%list_elem_of_singleton. by eapply Hfresh.
    - intros n l g Hl Hg Ht. destruct (Hin _ _ _ Hl Hg) as [[-> _]|(l' & Hl' & Hg')]; [done|].
      apply (Hsep _ _ _ Hl' Hg'). by right. }
  destruct (cfg !! key) as [override|]; [case_decide; [done|]|]; (eapply IH; [done|apply Hadd..]).
Qed.

Lemma configured_fed_once cfg names : field_names cfg configKeys ∅ = inr names → fed_once names.
Proof.
  apply field_names_fed_once.
  - refine (bool_decide_unpack _ _). exact I.
  - split; intros *; by rewrite lookup_empty.
  - intros *. by rewrite lookup_empty.
Qed.

(** Two results that are the same event or both an error. *)
Definition same_result {A} (r r' : codec_error + A) : Prop :=
  match r, r' with inr a, inr b => a = b | inl _, inl _ => True | _, _ => False end.

#[export] Instance same_result_equivalence {A} : Equivalence (@same_result A).
Proof.
  split.
  - by intros [].
  - by intros [] [].
  - intros [] [] []; cbn; try done. by intros -> ->.
Qed.

Lemma same_result_bind {A B} (r r' : codec_error + A) (k : A → codec_error + B) :
  same_result r r' → same_result (r ≫= k) (r' ≫= k).
Proof. destruct r, r'; cbn; try done. by intros ->. Qed.
