(* ===== verification/JsonScan.v ===== *)
(** * JsonScan: the JSON scanner (pkg/codec/json.go, parser)

    A position of the scanner is the rest of the input from it on; [b[start:i]]
    is what was taken off. The scanner allocates nothing and builds no tree: it
    says where a value ends and what kind it has. The recursion through objects
    and arrays runs on fuel; every round takes a byte, and [scanValue_total] has
    the fuel that is always enough. *)
From Stdlib Require Import Ascii String.
From stdpp Require Import strings.
From S2P Require Import Prelude GoBase GoStrings GoFloat GoTime Event Codec.

(** The rest of the scan, or an error; [None] is a recursion that has run out of fuel. *)
Definition scan_bind {A B} (m : option (codec_error + A)) (k : A → option (codec_error + B))
    : option (codec_error + B) :=
  match m with
  | None => None
  | Some (inl err) => Some (inl err)
  | Some (inr a) => k a
  end.
Notation "'let?' p ':=' m 'in' k" := (scan_bind m (λ p, k))
  (at level 10, p pattern, m at level 200, k at level 200, only parsing).
Definition fail {A} (err : codec_error) : option (codec_error + A) := Some (inl err).

Definition quote : ascii := ascii_of 34.
Definition backslash : ascii := ascii_of 92.

Inductive kind := KString | KNumber | KBool | KNull | KContainer.

#[export] Instance kind_eq_dec : EqDecision kind.
Proof. solve_decision. Defined.

(** ** Tokens *)

Definition is_white (c : ascii) : bool :=
  (byte_of c =? 32) || (byte_of c =? 9) || (byte_of c =? 10) || (byte_of c =? 13).

Fixpoint ws (s : string) : string :=
  match s with
  | String c s' => if is_white c then ws s' else s
  | "" => ""
  end.

(** [p.has() && p.b[p.i] == c], and past it. *)
Definition eat (c : ascii) (s : string) : option string :=
  match s with
  | String a s => if Ascii.eqb a c then Some s else None
  | "" => None
  end.

(** The loop of scanString: the body, whether it has an escape, and the rest behind the quote. *)
Fixpoint string_loop (s : string) (escaped : bool) : codec_error + (string * bool * string) :=
  match s with
  | "" => inl ErrMalformed
  | String c s' =>
      if Ascii.eqb c backslash then
        match s' with
        | "" => inl ErrMalformed
        | String d s'' =>
            match string_loop s'' true with
            | inl err => inl err
            | inr (body, esc, rest) => inr (String c (String d body), esc, rest)
            end
        end
      else if Ascii.eqb c quote then inr ("", escaped, s')
      else if byte_of c <? 32 then inl ErrMalformed
      else
        match string_loop s' escaped with
        | inl err => inl err
        | inr (body, esc, rest) => inr (String c body, esc, rest)
        end
  end.

Definition scanString (s : string) : codec_error + (string * bool * string) :=
  match eat quote s with
  | None => inl ErrMalformed
  | Some s => string_loop s false
  end.

Definition scanLiteral (want s : string) : codec_error + string :=
  if HasPrefix want s then inr (string_drop (String.length want) s) else inl ErrMalformed.

Definition scan_fraction (s : string) : codec_error + string :=
  match eat "." s with
  | None => inr s
  | Some s => let '(ds, rest) := span_digits s in if bool_decide (ds = "") then inl ErrMalformed else inr rest
  end.

Definition scan_exponent (s : string) : codec_error + string :=
  match s with
  | String c s' =>
      if Ascii.eqb c "e" || Ascii.eqb c "E" then
        let s' := match s' with
                  | String d s'' => if Ascii.eqb d "+" || Ascii.eqb d "-" then s'' else s'
                  | "" => s' end in
        let '(ds, rest) := span_digits s' in
        if bool_decide (ds = "") then inl ErrMalformed else inr rest
      else inr s
  | "" => inr s
  end.

Definition scanNumber (s : string) : codec_error + string :=
  let s := default s (eat "-" s) in
  let '(ds, s) := span_digits s in
  if bool_decide (ds = "") then inl ErrMalformed
  else s ← scan_fraction s; scan_exponent s.

(** ** Values *)

Section scanner.
Context (maxDepth : Z).

(** The kind of the value, whether it is a string with an escape, and the rest. *)
Fixpoint scanValue (fuel : nat) (depth : Z) (s : string) : option (codec_error + (kind * bool * string)) :=
  match fuel with
  | O => None
  | S fuel =>
      if depth >? maxDepth then fail ErrTooLarge
      else
        match s with
        | "" => fail ErrMalformed
        | String ch s' =>
            if Ascii.eqb ch quote then
              let? (_, esc, rest) := Some (scanString s) in Some (inr (KString, esc, rest))
            else if Ascii.eqb ch "{" then
              let? rest := scanObject fuel depth s' in Some (inr (KContainer, false, rest))
            else if Ascii.eqb ch "[" then
              let? rest := scanArray fuel depth s' in Some (inr (KContainer, false, rest))
            else if Ascii.eqb ch "t" then
              let? rest := Some (scanLiteral "true" s) in Some (inr (KBool, false, rest))
            else if Ascii.eqb ch "f" then
              let? rest := Some (scanLiteral "false" s) in Some (inr (KBool, false, rest))
            else if Ascii.eqb ch "n" then
              let? rest := Some (scanLiteral "null" s) in Some (inr (KNull, false, rest))
            else if Ascii.eqb ch "-" || isDigit ch then
              let? rest := Some (scanNumber s) in Some (inr (KNumber, false, rest))
            else fail ErrMalformed
        end
  end
(** Behind the opening brace. *)
with scanObject (fuel : nat) (depth : Z) (s : string) : option (codec_error + string) :=
  match fuel with
  | O => None
  | S fuel =>
      let s := ws s in
      match eat "}" s with
      | Some rest => Some (inr rest)
      | None => object_loop fuel depth s
      end
  end
with object_loop (fuel : nat) (depth : Z) (s : string) : option (codec_error + string) :=
  match fuel with
  | O => None
  | S fuel =>
      let? (_, _, s) := Some (scanString (ws s)) in
      match eat ":" (ws s) with
      | None => fail ErrMalformed
      | Some s =>
          let? (_, _, s) := scanValue fuel (depth + 1) (ws s) in
          let s := ws s in
          match eat "," s with
          | Some s => object_loop fuel depth s
          | None =>
              match eat "}" s with
              | Some rest => Some (inr rest)
              | None => fail ErrMalformed
              end
          end
      end
  end
with scanArray (fuel : nat) (depth : Z) (s : string) : option (codec_error + string) :=
  match fuel with
  | O => None
  | S fuel =>
      let s := ws s in
      match eat "]" s with
      | Some rest => Some (inr rest)
      | None => array_loop fuel depth s
      end
  end
with array_loop (fuel : nat) (depth : Z) (s : string) : option (codec_error + string) :=
  match fuel with
  | O => None
  | S fuel =>
      let? (_, _, s) := scanValue fuel (depth + 1) (ws s) in
      let s := ws s in
      match eat "," s with
      | Some s => array_loop fuel depth s
      | None =>
          match eat "]" s with
          | Some rest => Some (inr rest)
          | None => fail ErrMalformed
          end
      end
  end.
End scanner.

(** eof: only white space follows. *)
Definition eof (s : string) : codec_error + unit :=
  if bool_decide (ws s = "") then inr tt else inl ErrMalformed.

(** Fuel that is enough for any scan of [s]. *)
Definition scan_fuel (s : string) : nat := 3 + 3 * String.length s.
