(* ===== verification/JsonGrammar.v ===== *)
(** * JsonGrammar: the scanner accepts exactly a grammar

    The strings the scanner takes for a string, a number and a value, as
    inductive predicates, with the depth a value stands at. The scanner is sound
    and complete for them, its fuel is always enough, and nothing it accepts is
    nested deeper than its limit. *)
From Stdlib Require Import Ascii String.
From stdpp Require Import strings.
From S2P Require Import Prelude GoBase GoStrings GoFloat GoTime Event Codec JsonScan.

(** ** White space *)

Fixpoint white (s : string) : bool :=
  match s with String c s => is_white c && white s | "" => true end.

(** The input does not begin with white space. *)
Definition dense (s : string) : Prop := match s with String c _ => is_white c = false | "" => True end.

Lemma ws_split s : ∃ w, white w = true ∧ s = w +:+ ws s ∧ dense (ws s).
Proof.
  induction s as [|c s (w & Hw & Hs & Hd)]; [by exists ""|]. cbn [ws]. destruct (is_white c) eqn:Hc.
  - exists (String c w). split_and!; [cbn; by rewrite Hc|by rewrite string_app_cons, <- Hs|done].
  - exists "". by split_and!.
Qed.

Lemma ws_app w s : white w = true → ws (w +:+ s) = ws s.
Proof.
  induction w as [|c w IH]; [done|]. cbn [white]. intros [Hc Hw]%andb_true_iff.
  rewrite string_app_cons. cbn [ws]. rewrite Hc. auto.
Qed.

Lemma ws_dense s : dense s → ws s = s.
Proof. destruct s as [|c s]; [done|]. cbn. by intros ->. Qed.

Lemma ws_ws s : ws (ws s) = ws s.
Proof. destruct (ws_split s) as (_ & _ & _ & Hd). by apply ws_dense. Qed.

Lemma white_app a b : white (a +:+ b) = white a && white b.
Proof.
  induction a as [|c a IH]; [done|]. rewrite string_app_cons. cbn [white]. by rewrite IH, andb_assoc.
Qed.

Lemma length_ws s : (String.length (ws s) ≤ String.length s)%nat.
Proof. destruct (ws_split s) as (w & _ & Hs & _). rewrite Hs at 2. rewrite string_length_app. lia. Qed.

Lemma eat_spec c s rest : eat c s = Some rest ↔ s = String c rest.
Proof.
  destruct s as [|a s]; cbn; [done|]. destruct (Ascii.eqb_spec a c) as [->|Hne].
  - split; [by intros [= ->]|by intros [= ->]].
  - split; [done|]. by intros [= ? _].
Qed.

Lemma eat_same c s : eat c (String c s) = Some s.
Proof. by apply eat_spec. Qed.

Lemma eat_other c d s : d ≠ c → eat c (String d s) = None.
Proof. intros Hne. cbn. destruct (Ascii.eqb_spec d c) as [->|]; done. Qed.

(** ** Strings *)

(** What stands between the quotes, and whether it has an escape. *)
Inductive string_body : string → bool → Prop :=
  | body_end : string_body "" false
  | body_escape d b e : string_body b e → string_body (String backslash (String d b)) true
  | body_char c b e :
      c ≠ backslash → c ≠ quote → 32 ≤ byte_of c → string_body b e → string_body (String c b) e.

Definition quoted (b : string) : string := String quote (b +:+ String quote "").

Lemma string_loop_sound n : ∀ s esc b e rest, (String.length s ≤ n)%nat →
  string_loop s esc = inr (b, e, rest) →
  s = b +:+ String quote rest ∧ ∃ e', string_body b e' ∧ e = esc || e'.
Proof.
  induction n as [|n IH]; intros s esc b e rest Hn; (destruct s as [|c s]; [done|]); cbn in Hn; [lia|].
  cbn [string_loop]. destruct (Ascii.eqb_spec c backslash) as [->|Hb].
  - destruct s as [|d s]; [done|]. cbn in Hn. destruct (string_loop s true) as [|[[b0 e0] r0]] eqn:Hl; [done|].
    intros [= <- <- <-]. destruct (IH s true b0 e0 r0) as (-> & e' & Hb & ->); [lia|done|].
    split; [done|]. exists true. split; [by econstructor|by rewrite orb_true_r].
  - destruct (Ascii.eqb_spec c quote) as [->|Hq].
    + intros [= <- <- <-]. split; [done|]. exists false. split; [constructor|by rewrite orb_false_r].
    + destruct (Z.ltb_spec (byte_of c) 32); [done|].
      destruct (string_loop s esc) as [|[[b0 e0] r0]] eqn:Hl; [done|].
      intros [= <- <- <-]. destruct (IH s esc b0 e0 r0) as (-> & e' & Hb0 & ->); [lia|done|].
      split; [done|]. exists e'. split; [by constructor|done].
Qed.

Lemma string_loop_complete b e : string_body b e → ∀ esc rest,
  string_loop (b +:+ String quote rest) esc = inr (b, esc || e, rest).
Proof.
  induction 1 as [|d b e Hb IH|c b e Hc Hq H32 Hb IH]; intros esc rest.
  - cbn. by rewrite orb_false_r.
  - rewrite !string_app_cons. cbn [string_loop]. rewrite Ascii.eqb_refl, IH, orb_true_r. done.
  - rewrite !string_app_cons. cbn [string_loop]. rewrite (proj2 (Ascii.eqb_neq _ _) Hc), (proj2 (Ascii.eqb_neq _ _) Hq).
    destruct (Z.ltb_spec (byte_of c) 32); [lia|]. by rewrite IH.
Qed.

Lemma scanString_spec s b e rest :
  scanString s = inr (b, e, rest) ↔ s = quoted b +:+ rest ∧ string_body b e.
Proof.
  unfold scanString, quoted. split.
  - destruct (eat quote s) as [s'|] eqn:He; [|done]. apply eat_spec in He as ->. intros Hl.
    destruct (string_loop_sound _ s' false b e rest (le_n _) Hl) as (-> & e' & Hb & ->).
    by str_norm.
  - intros [-> Hb]. str_norm. rewrite eat_same. by rewrite (string_loop_complete b e Hb false rest).
Qed.

(** ** Numbers *)

Fixpoint digits (s : string) : bool :=
  match s with String c s => isDigit c && digits s | "" => true end.

(** The input does not go on with a digit. *)
Definition no_digit (s : string) : Prop := match s with String c _ => isDigit c = false | "" => True end.

Lemma span_digits_split s :
  let '(ds, rest) := span_digits s in digits ds = true ∧ s = ds +:+ rest ∧ no_digit rest.
Proof.
  induction s as [|c s IH]; [done|]. cbn [span_digits]. destruct (isDigit c) eqn:Hc; [|done].
  destruct (span_digits s) as [ds rest]. destruct IH as (Hd & -> & Hn). split_and!; [cbn; by rewrite Hc|done|done].
Qed.

Lemma span_digits_app ds rest : digits ds = true → no_digit rest → span_digits (ds +:+ rest) = (ds, rest).
Proof.
  intros Hd Hn. induction ds as [|c ds IH].
  - rewrite string_app_nil_l. destruct rest as [|c rest]; [done|]. cbn in *. by rewrite Hn.
  - cbn [digits] in Hd. apply andb_true_iff in Hd as [Hc Hd]. rewrite string_app_cons. cbn [span_digits].
    rewrite Hc, IH by done. done.
Qed.

(** An optional sign, digits (leading zeros are let through), a fraction and an exponent. *)
Definition fraction (s : string) : Prop :=
  s = "" ∨ ∃ ds, s = String "." ds ∧ digits ds = true ∧ ds ≠ "".
Definition exponent (s : string) : Prop :=
  s = "" ∨ ∃ c sign ds, s = String c (sign +:+ ds) ∧ (c = "e"%char ∨ c = "E"%char)
    ∧ (sign = "" ∨ sign = "+" ∨ sign = "-") ∧ digits ds = true ∧ ds ≠ "".
Definition number (s : string) : Prop :=
  ∃ sign ds f e, s = sign +:+ ds +:+ f +:+ e ∧ (sign = "" ∨ sign = "-")
    ∧ digits ds = true ∧ ds ≠ "" ∧ fraction f ∧ exponent e.

(** A byte a number could go on with. *)
Definition in_number (c : ascii) : bool :=
  isDigit c || Ascii.eqb c "." || Ascii.eqb c "e" || Ascii.eqb c "E".
Definition stops (s : string) : Prop := match s with String c _ => in_number c = false | "" => True end.

Lemma stops_no_digit s : stops s → no_digit s.
Proof. destruct s as [|c s]; [done|]. unfold stops, in_number. cbn. by destruct (isDigit c). Qed.

Lemma scan_fraction_sound s rest :
  scan_fraction s = inr rest → ∃ f, s = f +:+ rest ∧ fraction f ∧ (f = "" → eat "." rest = None).
Proof.
  unfold scan_fraction. destruct (eat "." s) as [s'|] eqn:He.
  - apply eat_spec in He as ->. pose proof (span_digits_split s') as Hd. destruct (span_digits s') as [ds r].
    destruct Hd as (Hd & -> & _). case_bool_decide as Hds; [done|]. intros [= <-].
    exists (String "." ds). split_and!; [done| |done]. right. by exists ds.
  - intros [= <-]. exists "". split_and!; [done|by left|done].
Qed.

Lemma scan_exponent_sound s rest : scan_exponent s = inr rest → ∃ e, s = e +:+ rest ∧ exponent e.
Proof.
  unfold scan_exponent. destruct s as [|c s']; [intros [= <-]; exists ""; split; [done|by left]|].
  destruct (Ascii.eqb c "e" || Ascii.eqb c "E") eqn:Hc.
  2: { intros [= <-]. exists "". split; [done|by left]. }
  set (s2 := match s' with String d s'' => if Ascii.eqb d "+" || Ascii.eqb d "-" then s'' else s' | "" => s' end).
  assert (∃ sign, s' = sign +:+ s2 ∧ (sign = "" ∨ sign = "+" ∨ sign = "-")) as (sign & Hs & Hsign).
  { unfold s2. destruct s' as [|d s'']; [exists ""; auto|].
    destruct (Ascii.eqb_spec d "+") as [->|]; [exists "+"; auto|].
    destruct (Ascii.eqb_spec d "-") as [->|]; [exists "-"; auto|exists ""; auto]. }
  pose proof (span_digits_split s2) as Hd. destruct (span_digits s2) as [ds r]. destruct Hd as (Hd & Hs2 & _).
  case_bool_decide as Hds; [done|]. intros [= <-]. exists (String c (sign +:+ ds)). split.
  - rewrite Hs, Hs2. by str_norm.
  - right. exists c, sign, ds. split_and!; try done.
    apply orb_true_iff in Hc as [->%Ascii.eqb_eq| ->%Ascii.eqb_eq]; auto.
Qed.

Lemma scanNumber_sound s rest : scanNumber s = inr rest → ∃ n, s = n +:+ rest ∧ number n.
Proof.
  unfold scanNumber. set (s1 := default s (eat "-" s)).
  assert (∃ sign, s = sign +:+ s1 ∧ (sign = "" ∨ sign = "-")) as (sign & Hs & Hsign).
  { unfold s1. destruct (eat "-" s) as [s'|] eqn:He; [apply eat_spec in He as ->; exists "-"; auto|exists ""; auto]. }
  pose proof (span_digits_split s1) as Hd. destruct (span_digits s1) as [ds s2]. destruct Hd as (Hd & Hs1 & _).
  case_bool_decide as Hds; [done|]. cbn [mbind sum_bind].
  destruct (scan_fraction s2) as [|s3] eqn:Hf; [done|]. intros He.
  destruct (scan_fraction_sound _ _ Hf) as (f & -> & Hff & _). destruct (scan_exponent_sound _ _ He) as (e & -> & Hee).
  exists (sign +:+ ds +:+ f +:+ e). split; [rewrite Hs, Hs1; by str_norm|].
  exists sign, ds, f, e. by split_and!.
Qed.

Lemma scan_fraction_complete f rest :
  fraction f → no_digit rest → eat "." rest = None → scan_fraction (f +:+ rest) = inr rest.
Proof.
  unfold scan_fraction. intros [->|(ds & -> & Hd & Hne)] Hn He; str_norm; [by rewrite He|].
  rewrite eat_same, span_digits_app by done. by rewrite bool_decide_eq_false_2.
Qed.

Lemma scan_exponent_complete e rest : exponent e → stops rest → scan_exponent (e +:+ rest) = inr rest.
Proof.
  unfold scan_exponent. intros [->|(c & sign & ds & -> & Hc & Hsign & Hd & Hne)] Hr; str_norm.
  - destruct rest as [|c rest]; [done|]. unfold stops, in_number in Hr.
    destruct (Ascii.eqb c "e"), (Ascii.eqb c "E"); cbn; try done; by rewrite ?orb_true_r in Hr.
  - replace (Ascii.eqb c "e" || Ascii.eqb c "E") with true by (by destruct Hc as [-> | ->]).
    assert (∀ r, match sign +:+ ds +:+ r with
                 | String d s'' => if Ascii.eqb d "+" || Ascii.eqb d "-" then s'' else sign +:+ ds +:+ r
                 | "" => sign +:+ ds +:+ r end = ds +:+ r) as ->.
    { intros r. destruct Hsign as [->|[-> | ->]]; [|done|done]. str_norm.
      destruct ds as [|d ds]; [done|]. str_norm. cbn [digits] in Hd. apply andb_true_iff in Hd as [Hd _].
      destruct (Ascii.eqb_spec d "+") as [->|]; [done|]. by destruct (Ascii.eqb_spec d "-") as [->|]. }
    rewrite span_digits_app by (try apply stops_no_digit; done). by rewrite bool_decide_eq_false_2.
Qed.

Lemma scanNumber_complete n rest : number n → stops rest → scanNumber (n +:+ rest) = inr rest.
Proof.
  intros (sign & ds & f & e & -> & Hsign & Hd & Hne & Hf & He) Hr. unfold scanNumber.
  assert (default ((sign +:+ ds +:+ f +:+ e) +:+ rest) (eat "-" ((sign +:+ ds +:+ f +:+ e) +:+ rest))
    = ds +:+ f +:+ e +:+ rest) as ->.
  { destruct Hsign as [-> | ->]; str_norm; [|by rewrite eat_same].
    destruct ds as [|d ds]; [done|]. str_norm. cbn [digits] in Hd. apply andb_true_iff in Hd as [Hd _].
    rewrite eat_other; [done|]. by intros ->. }
  assert (no_digit (f +:+ e +:+ rest) ∧ no_digit (e +:+ rest) ∧ eat "." (e +:+ rest) = None) as (H1 & H2 & H3).
  { assert (no_digit (e +:+ rest) ∧ eat "." (e +:+ rest) = None) as [H2 H3].
    { destruct He as [->|(c & sg & ds' & -> & Hc & _)]; str_norm.
      - split; [by apply stops_no_digit|]. destruct rest as [|c rest]; [done|]. unfold stops, in_number in Hr.
        cbn. destruct (Ascii.eqb c "."); [|done]. by rewrite orb_true_r in Hr.
      - by destruct Hc as [-> | ->]. }
    split_and!; [|done|done]. by destruct Hf as [->|(ds' & -> & _)]; str_norm. }
  rewrite span_digits_app, bool_decide_eq_false_2 by done. cbn [mbind sum_bind].
  rewrite scan_fraction_complete by done. by apply scan_exponent_complete.
Qed.

(** ** Values *)

Section values.
Context (maxDepth : Z).

(** A value at a depth: its text, its kind and whether it is a string with an escape. An object and an
    array are what stands behind the opening bracket. *)
Inductive value : Z → string → kind → bool → Prop :=
  | value_string d b e : d ≤ maxDepth → string_body b e → value d (quoted b) KString e
  | value_number d n : d ≤ maxDepth → number n → value d n KNumber false
  | value_literal d s k : d ≤ maxDepth → (s, k) ∈ [("true", KBool); ("false", KBool); ("null", KNull)] →
      value d s k false
  | value_object d s : d ≤ maxDepth → object d s → value d (String "{" s) KContainer false
  | value_array d s : d ≤ maxDepth → array d s → value d (String "[" s) KContainer false
with object : Z → string → Prop :=
  | object_empty d w : white w = true → object d (w +:+ "}")
  | object_some d s : members d s → object d s
with members : Z → string → Prop :=
  | members_last d w1 b e w2 w3 v k esc w4 :
      white w1 = true → string_body b e → white w2 = true → white w3 = true →
      value (d + 1) v k esc → white w4 = true →
      members d (w1 +:+ quoted b +:+ w2 +:+ ":" +:+ w3 +:+ v +:+ w4 +:+ "}")
  | members_more d w1 b e w2 w3 v k esc w4 s :
      white w1 = true → string_body b e → white w2 = true → white w3 = true →
      value (d + 1) v k esc → white w4 = true → members d s →
      members d (w1 +:+ quoted b +:+ w2 +:+ ":" +:+ w3 +:+ v +:+ w4 +:+ "," +:+ s)
with array : Z → string → Prop :=
  | array_empty d w : white w = true → array d (w +:+ "]")
  | array_some d s : items d s → array d s
with items : Z → string → Prop :=
  | items_last d w1 v k esc w2 :
      white w1 = true → value (d + 1) v k esc → white w2 = true →
      items d (w1 +:+ v +:+ w2 +:+ "]")
  | items_more d w1 v k esc w2 s :
      white w1 = true → value (d + 1) v k esc → white w2 = true → items d s →
      items d (w1 +:+ v +:+ w2 +:+ "," +:+ s).

Scheme value_mut := Minimality for value Sort Prop
  with object_mut := Minimality for object Sort Prop
  with members_mut := Minimality for members Sort Prop
  with array_mut := Minimality for array Sort Prop
  with items_mut := Minimality for items Sort Prop.
Combined Scheme json_mut from value_mut, object_mut, members_mut, array_mut, items_mut.

Lemma members_white d w s : white w = true → members d s → members d (w +:+ s).
Proof.
  intros Hw Hs. inversion Hs; subst; rewrite <- string_app_assoc; econstructor; eauto;
    rewrite white_app; by apply andb_true_iff.
Qed.

Lemma items_white d w s : white w = true → items d s → items d (w +:+ s).
Proof.
  intros Hw Hs. inversion Hs; subst; rewrite <- string_app_assoc; econstructor; eauto;
    rewrite white_app; by apply andb_true_iff.
Qed.

(** The first byte of a value. *)
Lemma number_head n : number n → ∃ c n', n = String c n' ∧ (c = "-"%char ∨ isDigit c = true).
Proof.
  intros (sign & ds & f & e & -> & Hsign & Hd & Hne & _). destruct Hsign as [-> | ->].
  - destruct ds as [|c ds]; [done|]. cbn [digits] in Hd. apply andb_true_iff in Hd as [Hc _]. str_norm. eauto.
  - str_norm. eauto.
Qed.

Lemma value_head d v k e : value d v k e → ∃ c v', v = String c v' ∧ is_white c = false ∧ c ≠ "]"%char.
Proof.
  destruct 1 as [d b e _ _|d n _ Hn|d s k _ Hs|d s _ _|d s _ _].
  - by eexists _, _.
  - destruct (number_head n Hn) as (c & n' & -> & Hc). exists c, n'. split; [done|].
    destruct Hc as [->|Hc]; [done|]. unfold isDigit, in_range in Hc. zbool. split; [|by intros ->].
    unfold is_white. destruct (Z.eqb_spec (byte_of c) 32), (Z.eqb_spec (byte_of c) 9), (Z.eqb_spec (byte_of c) 10),
      (Z.eqb_spec (byte_of c) 13); lia || done.
  - repeat (apply elem_of_cons in Hs as [[= -> _]|Hs]; [by eexists _, _|]). by apply elem_of_nil in Hs.
  - by eexists _, _.
  - by eexists _, _.
Qed.

(** ** Soundness *)

Lemma literal_sound want s rest : scanLiteral want s = inr rest → s = want +:+ rest.
Proof.
  unfold scanLiteral. destruct (HasPrefix want s) eqn:Hp; [|done]. intros [= <-].
  apply HasPrefix_app in Hp as [r ->]. by rewrite string_drop_app.
Qed.

Lemma bind_inr {A B} (m : option (codec_error + A)) (k : A → option (codec_error + B)) b :
  scan_bind m k = Some (inr b) → ∃ a, m = Some (inr a) ∧ k a = Some (inr b).
Proof. destruct m as [[err|a]|]; [done| |done]. eauto. Qed.

Definition sound_at (fuel : nat) : Prop :=
  (∀ d s k e rest, scanValue maxDepth fuel d s = Some (inr (k, e, rest)) → ∃ v, s = v +:+ rest ∧ value d v k e)
  ∧ (∀ d s rest, scanObject maxDepth fuel d s = Some (inr rest) → ∃ o, s = o +:+ rest ∧ object d o)
  ∧ (∀ d s rest, object_loop maxDepth fuel d s = Some (inr rest) → ∃ m, s = m +:+ rest ∧ members d m)
  ∧ (∀ d s rest, scanArray maxDepth fuel d s = Some (inr rest) → ∃ a, s = a +:+ rest ∧ array d a)
  ∧ (∀ d s rest, array_loop maxDepth fuel d s = Some (inr rest) → ∃ i, s = i +:+ rest ∧ items d i).

Lemma value_sound_step fuel d s k e rest : sound_at fuel →
  scanValue maxDepth (S fuel) d s = Some (inr (k, e, rest)) → ∃ v, s = v +:+ rest ∧ value d v k e.
Proof.
  intros (_ & HO & _ & HA & _). cbn [scanValue]. destruct (Z.gtb_spec d maxDepth) as [|Hd]; [done|].
  destruct s as [|ch s']; [done|].
  destruct (Ascii.eqb_spec ch quote) as [->|_].
  { intros ([[b esc] r] & [= Hs] & [= <- <- <-])%bind_inr. apply scanString_spec in Hs as [-> Hb].
    exists (quoted b). split; [done|by constructor]. }
  destruct (Ascii.eqb_spec ch "{") as [->|_].
  { intros (r & Hs & [= <- <- <-])%bind_inr. destruct (HO _ _ _ Hs) as (o & -> & Ho).
    exists (String "{" o). split; [done|by constructor]. }
  destruct (Ascii.eqb_spec ch "[") as [->|_].
  { intros (r & Hs & [= <- <- <-])%bind_inr. destruct (HA _ _ _ Hs) as (o & -> & Ho).
    exists (String "[" o). split; [done|by constructor]. }
  destruct (Ascii.eqb ch "t").
  { intros (r & [= Hs%literal_sound] & [= <- <- <-])%bind_inr. exists "true". split; [done|]. constructor; [done|set_solver]. }
  destruct (Ascii.eqb ch "f").
  { intros (r & [= Hs%literal_sound] & [= <- <- <-])%bind_inr. exists "false". split; [done|]. constructor; [done|set_solver]. }
  destruct (Ascii.eqb ch "n").
  { intros (r & [= Hs%literal_sound] & [= <- <- <-])%bind_inr. exists "null". split; [done|]. constructor; [done|set_solver]. }
  destruct (_ || _); [|done].
  intros (r & [= Hs] & [= <- <- <-])%bind_inr. destruct (scanNumber_sound _ _ Hs) as (n & -> & Hn).
  exists n. split; [done|by constructor].
Qed.

Lemma object_loop_sound_step fuel d s rest : sound_at fuel →
  object_loop maxDepth (S fuel) d s = Some (inr rest) → ∃ m, s = m +:+ rest ∧ members d m.
Proof.
  intros (HV & _ & HM & _ & _). cbn [object_loop].
  intros ([[b esc] s1] & [= Hb] & Hk)%bind_inr. apply scanString_spec in Hb as [Hs Hb].
  destruct (eat ":" (ws s1)) as [s2|] eqn:H2; [|done]. apply eat_spec in H2.
  apply bind_inr in Hk as ([[k e] s3] & Hv & Hk). destruct (HV _ _ _ _ _ Hv) as (v & H3 & Hval).
  destruct (ws_split s) as (w1 & Hw1 & E1 & _). destruct (ws_split s1) as (w2 & Hw2 & E2 & _).
  destruct (ws_split s2) as (w3 & Hw3 & E3 & _). destruct (ws_split s3) as (w4 & Hw4 & E4 & _).
  rewrite Hs in E1. rewrite H2 in E2. rewrite H3 in E3. cbv zeta in Hk.
  destruct (eat "," (ws s3)) as [s4|] eqn:H4.
  - apply eat_spec in H4. destruct (HM _ _ _ Hk) as (m & -> & Hm). rewrite H4 in E4.
    eexists. split; [|by eapply members_more with (w1 := w1) (w2 := w2) (w3 := w3) (w4 := w4)].
    rewrite E1, E2, E3, E4. by str_norm.
  - destruct (eat "}" (ws s3)) as [r|] eqn:H5; [|done]. injection Hk as <-. apply eat_spec in H5. rewrite H5 in E4.
    eexists. split; [|by eapply members_last with (w1 := w1) (w2 := w2) (w3 := w3) (w4 := w4)].
    rewrite E1, E2, E3, E4. by str_norm.
Qed.

Lemma array_loop_sound_step fuel d s rest : sound_at fuel →
  array_loop maxDepth (S fuel) d s = Some (inr rest) → ∃ i, s = i +:+ rest ∧ items d i.
Proof.
  intros (HV & _ & _ & _ & HI). cbn [array_loop]. intros ([[k e] s1] & Hv & Hk)%bind_inr.
  destruct (HV _ _ _ _ _ Hv) as (v & H1 & Hval).
  destruct (ws_split s) as (w1 & Hw1 & E1 & _). destruct (ws_split s1) as (w2 & Hw2 & E2 & _).
  rewrite H1 in E1. cbv zeta in Hk. destruct (eat "," (ws s1)) as [s2|] eqn:H2.
  - apply eat_spec in H2. destruct (HI _ _ _ Hk) as (i & -> & Hi). rewrite H2 in E2.
    eexists. split; [|by eapply items_more with (w1 := w1) (w2 := w2)]. rewrite E1, E2. by str_norm.
  - destruct (eat "]" (ws s1)) as [r|] eqn:H3; [|done]. injection Hk as <-. apply eat_spec in H3. rewrite H3 in E2.
    eexists. split; [|by eapply items_last with (w1 := w1) (w2 := w2)]. rewrite E1, E2. by str_norm.
Qed.

Lemma scanner_sound fuel : sound_at fuel.
Proof.
  induction fuel as [|fuel IH]; [by split_and!|]. pose proof IH as (_ & _ & HM & _ & HI).
  split_and!.
  - intros. by eapply value_sound_step.
  - intros d s rest. cbn [scanObject]. destruct (ws_split s) as (w & Hw & E & _). cbv zeta.
    destruct (eat "}" (ws s)) as [r|] eqn:He.
    + intros [= <-]. apply eat_spec in He. rewrite He in E. exists (w +:+ "}"). split; [rewrite E; by str_norm|by constructor].
    + intros (m & Hm & Hmm)%HM. exists (w +:+ m). rewrite Hm in E. split; [rewrite E at 1; by str_norm|].
      constructor. by apply members_white.
  - intros. by eapply object_loop_sound_step.
  - intros d s rest. cbn [scanArray]. destruct (ws_split s) as (w & Hw & E & _). cbv zeta.
    destruct (eat "]" (ws s)) as [r|] eqn:He.
    + intros [= <-]. apply eat_spec in He. rewrite He in E. exists (w +:+ "]"). split; [rewrite E; by str_norm|by constructor].
    + intros (m & Hm & Hmm)%HI. exists (w +:+ m). rewrite Hm in E. split; [rewrite E at 1; by str_norm|].
      constructor. by apply items_white.
  - intros. by eapply array_loop_sound_step.
Qed.

(** ** Fuel *)

Definition stable_at (fuel : nat) : Prop :=
  (∀ d s r, scanValue maxDepth fuel d s = Some r → scanValue maxDepth (S fuel) d s = Some r)
  ∧ (∀ d s r, scanObject maxDepth fuel d s = Some r → scanObject maxDepth (S fuel) d s = Some r)
  ∧ (∀ d s r, object_loop maxDepth fuel d s = Some r → object_loop maxDepth (S fuel) d s = Some r)
  ∧ (∀ d s r, scanArray maxDepth fuel d s = Some r → scanArray maxDepth (S fuel) d s = Some r)
  ∧ (∀ d s r, array_loop maxDepth fuel d s = Some r → array_loop maxDepth (S fuel) d s = Some r).

(** One round of each function, as an equation. *)
Lemma scanValue_S fuel d s :
  scanValue maxDepth (S fuel) d s
  = if d >? maxDepth then fail ErrTooLarge
    else
      match s with
      | "" => fail ErrMalformed
      | String ch s' =>
          if Ascii.eqb ch quote then
            let? (_, esc, rest) := Some (scanString s) in Some (inr (KString, esc, rest))
          else if Ascii.eqb ch "{" then
            let? rest := scanObject maxDepth fuel d s' in Some (inr (KContainer, false, rest))
          else if Ascii.eqb ch "[" then
            let? rest := scanArray maxDepth fuel d s' in Some (inr (KContainer, false, rest))
          else if Ascii.eqb ch "t" then
            let? rest := Some (scanLiteral "true" s) in Some (inr (KBool, false, rest))
          else if Ascii.eqb ch "f" then
            let? rest := Some (scanLiteral "false" s) in Some (inr (KBool, false, rest))
          else if Ascii.eqb ch "n" then
            let? rest := Some (scanLiteral "null" s) in Some (inr (KNull, false, rest))
          else if Ascii.eqb ch "-" || isDigit ch then
            let? rest := Some (scanNumber s) in Some (inr (KNumber, false, rest))
          else fail ErrMalformed
      end.
Proof. done. Qed.

Lemma scanObject_S fuel d s :
  scanObject maxDepth (S fuel) d s
  = match eat "}" (ws s) with Some rest => Some (inr rest) | None => object_loop maxDepth fuel d (ws s) end.
Proof. done. Qed.

Lemma scanArray_S fuel d s :
  scanArray maxDepth (S fuel) d s
  = match eat "]" (ws s) with Some rest => Some (inr rest) | None => array_loop maxDepth fuel d (ws s) end.
Proof. done. Qed.

(** What follows a member's value. *)
Definition after_member (fuel : nat) (d : Z) (s : string) : option (codec_error + string) :=
  match eat "," s with
  | Some s => object_loop maxDepth fuel d s
  | None => match eat "}" s with Some rest => Some (inr rest) | None => fail ErrMalformed end
  end.
Definition after_item (fuel : nat) (d : Z) (s : string) : option (codec_error + string) :=
  match eat "," s with
  | Some s => array_loop maxDepth fuel d s
  | None => match eat "]" s with Some rest => Some (inr rest) | None => fail ErrMalformed end
  end.

Lemma object_loop_S fuel d s :
  object_loop maxDepth (S fuel) d s
  = let? (_, _, s) := Some (scanString (ws s)) in
    match eat ":" (ws s) with
    | None => fail ErrMalformed
    | Some s => let? (_, _, s) := scanValue maxDepth fuel (d + 1) (ws s) in after_member fuel d (ws s)
    end.
Proof. done. Qed.

Lemma array_loop_S fuel d s :
  array_loop maxDepth (S fuel) d s
  = let? (_, _, s) := scanValue maxDepth fuel (d + 1) (ws s) in after_item fuel d (ws s).
Proof. done. Qed.

Lemma bind_stable {A B} (m m' : option (codec_error + A)) (k k' : A → option (codec_error + B)) r :
  (∀ a, m = Some a → m' = Some a) → (∀ a b, k a = Some b → k' a = Some b) →
  scan_bind m k = Some r → scan_bind m' k' = Some r.
Proof.
  intros Hm Hk. destruct m as [[err|a]|] eqn:E; [| |done]; rewrite (Hm _ eq_refl); [done|apply Hk].
Qed.

Lemma fuel_stable_step fuel : stable_at fuel.
Proof.
  induction fuel as [|fuel (HV & HO & HM & HA & HI)]; [by split_and!|]. split_and!; intros d s r.
  - rewrite !scanValue_S. destruct (d >? maxDepth); [done|]. destruct s as [|ch s']; [done|].
    destruct (Ascii.eqb ch quote); [done|].
    destruct (Ascii.eqb ch "{"); [apply bind_stable; [auto|done]|].
    destruct (Ascii.eqb ch "["); [apply bind_stable; [auto|done]|]. done.
  - rewrite !scanObject_S. destruct (eat "}" (ws s)); [done|auto].
  - rewrite !object_loop_S. apply bind_stable; [done|]. intros [[b e] s1] r'. destruct (eat ":" (ws s1)); [|done].
    apply bind_stable; [auto|]. intros [[k e'] s2] r2. unfold after_member. destruct (eat "," (ws s2)); [auto|done].
  - rewrite !scanArray_S. destruct (eat "]" (ws s)); [done|auto].
  - rewrite !array_loop_S. apply bind_stable; [auto|]. intros [[k e'] s2] r2. unfold after_item.
    destruct (eat "," (ws s2)); [auto|done].
Qed.

Lemma scanValue_stable f f' d s r :
  (f ≤ f')%nat → scanValue maxDepth f d s = Some r → scanValue maxDepth f' d s = Some r.
Proof. induction 1; [done|]. intros Hs. apply fuel_stable_step. auto. Qed.

Lemma object_loop_stable f f' d s r :
  (f ≤ f')%nat → object_loop maxDepth f d s = Some r → object_loop maxDepth f' d s = Some r.
Proof. induction 1; [done|]. intros Hs. apply fuel_stable_step. auto. Qed.

Lemma array_loop_stable f f' d s r :
  (f ≤ f')%nat → array_loop maxDepth f d s = Some r → array_loop maxDepth f' d s = Some r.
Proof. induction 1; [done|]. intros Hs. apply fuel_stable_step. auto. Qed.

(** How much is left of what was scanned. *)
Lemma scanValue_shorter f d s k e rest :
  scanValue maxDepth f d s = Some (inr (k, e, rest)) → (String.length rest < String.length s)%nat.
Proof.
  intros Hs. destruct (proj1 (scanner_sound f) _ _ _ _ _ Hs) as (v & -> & Hv).
  destruct (value_head _ _ _ _ Hv) as (c & v' & -> & _). rewrite string_length_app. cbn. lia.
Qed.

Lemma scanString_shorter s b e rest :
  scanString s = inr (b, e, rest) → (String.length rest < String.length s)%nat.
Proof.
  intros [-> _]%scanString_spec. unfold quoted. str_norm. cbn. rewrite !string_length_app. cbn. lia.
Qed.

Lemma eat_shorter c s rest : eat c s = Some rest → (String.length rest < String.length s)%nat.
Proof. intros ->%eat_spec. cbn. lia. Qed.

Lemma bind_total {A B} (m : option (codec_error + A)) (k : A → option (codec_error + B)) :
  m ≠ None → (∀ a, m = Some (inr a) → k a ≠ None) → scan_bind m k ≠ None.
Proof. destruct m as [[err|a]|]; [done| |done]. intros _ Hk. by apply Hk. Qed.

Definition total_at (fuel : nat) : Prop :=
  (∀ d s, (3 * String.length s + 1 ≤ fuel)%nat → scanValue maxDepth fuel d s ≠ None)
  ∧ (∀ d s, (3 * String.length s + 3 ≤ fuel)%nat → scanObject maxDepth fuel d s ≠ None)
  ∧ (∀ d s, (3 * String.length s + 2 ≤ fuel)%nat → object_loop maxDepth fuel d s ≠ None)
  ∧ (∀ d s, (3 * String.length s + 3 ≤ fuel)%nat → scanArray maxDepth fuel d s ≠ None)
  ∧ (∀ d s, (3 * String.length s + 2 ≤ fuel)%nat → array_loop maxDepth fuel d s ≠ None).

Lemma fuel_total fuel : total_at fuel.
Proof.
  induction fuel as [|fuel (HV & HO & HM & HA & HI)]; [split_and!; intros; lia|]. split_and!; intros d s Hf.
  - rewrite scanValue_S. destruct (d >? maxDepth); [done|]. destruct s as [|ch s']; [done|]. cbn in Hf.
    destruct (Ascii.eqb ch quote).
    { apply bind_total; [done|]. by intros [[? ?] ?] _. }
    destruct (Ascii.eqb ch "{"); [apply bind_total; [apply HO; lia|done]|].
    destruct (Ascii.eqb ch "["); [apply bind_total; [apply HA; lia|done]|].
    do 3 (case_match; [by apply bind_total|]). case_match; [by apply bind_total|done].
  - rewrite scanObject_S. destruct (eat "}" (ws s)); [done|]. apply HM. pose proof (length_ws s). lia.
  - rewrite object_loop_S. apply bind_total; [done|]. intros [[b e] s1] [= Hs%scanString_shorter].
    destruct (eat ":" (ws s1)) as [s2|] eqn:H2; [|done]. apply eat_shorter in H2.
    pose proof (length_ws s). pose proof (length_ws s1). pose proof (length_ws s2).
    apply bind_total; [apply HV; lia|]. intros [[k e'] s3] Hv%scanValue_shorter. unfold after_member.
    destruct (eat "," (ws s3)) as [s4|] eqn:H4; [|by case_match]. apply eat_shorter in H4.
    pose proof (length_ws s3). apply HM. lia.
  - rewrite scanArray_S. destruct (eat "]" (ws s)); [done|]. apply HI. pose proof (length_ws s). lia.
  - rewrite array_loop_S. pose proof (length_ws s). apply bind_total; [apply HV; lia|].
    intros [[k e'] s1] Hv%scanValue_shorter. unfold after_item.
    destruct (eat "," (ws s1)) as [s2|] eqn:H2; [|by case_match]. apply eat_shorter in H2.
    pose proof (length_ws s1). apply HI. lia.
Qed.

Lemma scanValue_total d s fuel : (scan_fuel s ≤ fuel)%nat → scanValue maxDepth fuel d s ≠ None.
Proof. intros Hf. apply fuel_total. unfold scan_fuel in Hf. lia. Qed.

(** ** Completeness *)

(** White space and what ends a member do not go on a number. *)
Lemma stops_white w c s : white w = true → in_number c = false → stops (w +:+ String c s).
Proof.
  destruct w as [|a w]; [done|]. cbn [white]. intros [Ha _]%andb_true_iff _. str_norm. cbn.
  unfold is_white in Ha. unfold in_number, isDigit, in_range.
  destruct (Ascii.eqb_spec a ".") as [->|_]; [done|]. destruct (Ascii.eqb_spec a "e") as [->|_]; [done|].
  destruct (Ascii.eqb_spec a "E") as [->|_]; [done|]. rewrite !orb_false_r.
  repeat apply orb_true_iff in Ha as [Ha|Ha]; apply Z.eqb_eq in Ha; by rewrite Ha.
Qed.

Lemma ws_value d v k e s : value d v k e → ws (v +:+ s) = v +:+ s.
Proof. intros (c & v' & -> & Hc & _)%value_head. apply ws_dense. by str_norm. Qed.

(** One round on a member, up to what follows its value. *)
Lemma object_loop_member f d w1 b e w2 w3 v k esc w4 tail :
  white w1 = true → string_body b e → white w2 = true → white w3 = true → value (d + 1) v k esc →
  white w4 = true →
  scanValue maxDepth f (d + 1) (v +:+ w4 +:+ tail) = Some (inr (k, esc, w4 +:+ tail)) →
  object_loop maxDepth (S f) d (w1 +:+ quoted b +:+ w2 +:+ ":" +:+ w3 +:+ v +:+ w4 +:+ tail)
  = after_member f d (ws tail).
Proof.
  intros H1 Hb H2 H3 Hv H4 Hf. rewrite object_loop_S, ws_app by done. rewrite ws_dense by done.
  rewrite (proj2 (scanString_spec _ b e _) (conj eq_refl Hb)). cbn [scan_bind].
  rewrite (ws_app w2) by done. rewrite (string_app_cons ":" "" _), ws_dense by done.
  rewrite eat_same, string_app_nil_l, ws_app by done. rewrite (ws_value _ _ _ _ _ Hv), Hf. cbn [scan_bind]. by rewrite ws_app.
Qed.

Lemma array_loop_item f d w1 v k esc w2 tail :
  white w1 = true → value (d + 1) v k esc → white w2 = true →
  scanValue maxDepth f (d + 1) (v +:+ w2 +:+ tail) = Some (inr (k, esc, w2 +:+ tail)) →
  array_loop maxDepth (S f) d (w1 +:+ v +:+ w2 +:+ tail) = after_item f d (ws tail).
Proof.
  intros H1 Hv H2 Hf. rewrite array_loop_S, ws_app, (ws_value _ _ _ _ _ Hv) by done. rewrite Hf.
  cbn [scan_bind]. by rewrite ws_app.
Qed.

Lemma string_complete d b e rest : d ≤ maxDepth → string_body b e →
  scanValue maxDepth 1 d (quoted b +:+ rest) = Some (inr (KString, e, rest)).
Proof.
  intros Hd Hb. rewrite scanValue_S. destruct (Z.gtb_spec d maxDepth); [lia|].
  pose proof (proj2 (scanString_spec _ b e rest) (conj eq_refl Hb)) as Hs. unfold quoted in *.
  str_norm in Hs. str_norm. by rewrite Ascii.eqb_refl, Hs.
Qed.

Lemma number_complete d n rest : d ≤ maxDepth → number n → stops rest →
  scanValue maxDepth 1 d (n +:+ rest) = Some (inr (KNumber, false, rest)).
Proof.
  intros Hd Hn Hr. rewrite scanValue_S. destruct (Z.gtb_spec d maxDepth); [lia|].
  pose proof (scanNumber_complete n rest Hn Hr) as Hs.
  destruct (number_head n Hn) as (c & n' & -> & Hc). str_norm in Hs. str_norm.
  assert (∀ a, a ≠ "-"%char → isDigit a = false → Ascii.eqb c a = false) as Hno.
  { intros a Ha Hda. apply Ascii.eqb_neq. intros ->. destruct Hc; congruence. }
  rewrite !Hno by done. replace (Ascii.eqb c "-" || isDigit c) with true; [by rewrite Hs|].
  destruct Hc as [->| ->]; [done|by rewrite orb_true_r].
Qed.

Lemma complete :
  (∀ d v k e, value d v k e → ∀ rest, stops rest →
     ∃ f, scanValue maxDepth f d (v +:+ rest) = Some (inr (k, e, rest)))
  ∧ (∀ d o, object d o → ∀ rest, ∃ f, scanObject maxDepth f d (o +:+ rest) = Some (inr rest))
  ∧ (∀ d m, members d m → ∀ rest,
     eat "}" (ws (m +:+ rest)) = None ∧ ∃ f, object_loop maxDepth f d (m +:+ rest) = Some (inr rest))
  ∧ (∀ d a, array d a → ∀ rest, ∃ f, scanArray maxDepth f d (a +:+ rest) = Some (inr rest))
  ∧ (∀ d i, items d i → ∀ rest,
     eat "]" (ws (i +:+ rest)) = None ∧ ∃ f, array_loop maxDepth f d (i +:+ rest) = Some (inr rest)).
Proof.
  assert (∀ d v k e w s, value d v k e → white w = true → eat "]" (ws (w +:+ v +:+ s)) = None) as Hnot.
  { intros d v k e w s Hv Hw. rewrite ws_app, (ws_value _ _ _ _ _ Hv) by done.
    destruct (value_head _ _ _ _ Hv) as (c & v' & -> & _ & Hc). str_norm. by apply eat_other. }
  apply json_mut.
  - intros d b e Hd Hb rest _. exists 1%nat. by apply string_complete.
  - intros d n Hd Hn rest Hr. exists 1%nat. by apply number_complete.
  - intros d s k Hd Hs rest _. exists 1%nat. rewrite scanValue_S. destruct (Z.gtb_spec d maxDepth); [lia|].
    repeat (apply elem_of_cons in Hs as [[= -> ->]|Hs]; [by str_norm|]). by apply elem_of_nil in Hs.
  - intros d s Hd _ IH rest _. destruct (IH rest) as [f Hf]. exists (S f). rewrite scanValue_S.
    destruct (Z.gtb_spec d maxDepth); [lia|]. str_norm. cbn. by rewrite Hf.
  - intros d s Hd _ IH rest _. destruct (IH rest) as [f Hf]. exists (S f). rewrite scanValue_S.
    destruct (Z.gtb_spec d maxDepth); [lia|]. str_norm. cbn. by rewrite Hf.
  - intros d w Hw rest. exists 1%nat. by rewrite scanObject_S, string_app_assoc, ws_app.
  - intros d s _ IH rest. destruct (IH rest) as [He [f Hf]]. exists (S f). rewrite scanObject_S, He.
    destruct f as [|f]; [done|]. rewrite object_loop_S in *. by rewrite ws_ws.
  - intros d w1 b e w2 w3 v k esc w4 H1 Hb H2 H3 Hv IH H4 rest. rewrite !string_app_assoc.
    split; [rewrite ws_app by done; by rewrite ws_dense|].
    destruct (IH (w4 +:+ "}" +:+ rest)) as [f Hf]; [by apply stops_white|]. exists (S f).
    by rewrite (object_loop_member f d w1 b e w2 w3 v k esc w4 _ H1 Hb H2 H3 Hv H4 Hf).
  - intros d w1 b e w2 w3 v k esc w4 s H1 Hb H2 H3 Hv IH H4 _ IHs rest. rewrite !string_app_assoc.
    split; [rewrite ws_app by done; by rewrite ws_dense|].
    destruct (IH (w4 +:+ "," +:+ s +:+ rest)) as [f Hf]; [by apply stops_white|].
    destruct (IHs rest) as [_ [f' Hf']]. exists (S (f + f')).
    apply (scanValue_stable f (f + f') _ _ _ ltac:(lia)) in Hf.
    rewrite (object_loop_member _ d w1 b e w2 w3 v k esc w4 _ H1 Hb H2 H3 Hv H4 Hf).
    apply (object_loop_stable f'); [lia|done].
  - intros d w Hw rest. exists 1%nat. by rewrite scanArray_S, string_app_assoc, ws_app.
  - intros d s _ IH rest. destruct (IH rest) as [He [f Hf]]. exists (S f). rewrite scanArray_S, He.
    destruct f as [|f]; [done|]. rewrite array_loop_S in *. by rewrite ws_ws.
  - intros d w1 v k esc w2 H1 Hv IH H2 rest. rewrite !string_app_assoc. split; [by eapply Hnot|].
    destruct (IH (w2 +:+ "]" +:+ rest)) as [f Hf]; [by apply stops_white|]. exists (S f).
    by rewrite (array_loop_item f d w1 v k esc w2 _ H1 Hv H2 Hf).
  - intros d w1 v k esc w2 s H1 Hv IH H2 _ IHs rest. rewrite !string_app_assoc. split; [by eapply Hnot|].
    destruct (IH (w2 +:+ "," +:+ s +:+ rest)) as [f Hf]; [by apply stops_white|].
    destruct (IHs rest) as [_ [f' Hf']]. exists (S (f + f')).
    apply (scanValue_stable f (f + f') _ _ _ ltac:(lia)) in Hf.
    rewrite (array_loop_item _ d w1 v k esc w2 _ H1 Hv H2 Hf).
    apply (array_loop_stable f'); [lia|done].
Qed.

(** With the fuel of the input, a value is scanned to its end. *)
Lemma scanValue_complete d v k e rest :
  value d v k e → stops rest →
  scanValue maxDepth (scan_fuel (v +:+ rest)) d (v +:+ rest) = Some (inr (k, e, rest)).
Proof.
  intros Hv Hr. destruct (proj1 complete _ _ _ _ Hv rest Hr) as [f Hf].
  destruct (scanValue maxDepth (scan_fuel (v +:+ rest)) d (v +:+ rest)) as [r|] eqn:Hs.
  - apply (scanValue_stable _ (f + scan_fuel (v +:+ rest))) in Hs, Hf; [congruence|lia..].
  - by apply scanValue_total in Hs.
Qed.
End values.
