(* ===== verification/Json.v ===== *)
(** * Json: the json codec (pkg/codec/json.go)

    The top-level walk that captures the fields, the conversion of each capture,
    the fast path for timestamps, the unescaping of strings and Decode. The
    scratch buffers are left out: nothing is read from one that was not written
    to it in the same call. *)
From Stdlib Require Import Ascii String.
From stdpp Require Import strings.
From S2P Require Import Prelude GoBase GoStrings GoFloat GoTime Event Projection Codec JsonScan.

(** ** Escapes *)

Definition hex_value (c : ascii) : option Z :=
  let b := byte_of c in
  if in_range 48 57 b then Some (b - 48)
  else if in_range 97 102 b then Some (b - 97 + 10)
  else if in_range 65 70 b then Some (b - 65 + 10)
  else None.

(** The loop of hex4 over a four-byte slice. *)
Fixpoint hex_loop (l : list ascii) (v : Z) : codec_error + Z :=
  match l with
  | [] => inr v
  | ch :: l =>
      match hex_value ch with
      | Some d => hex_loop l (Z.lor (Z.shiftl v 4) d)
      | None => inl ErrMalformed
      end
  end.

Definition hex4 (a b c d : ascii) : codec_error + Z := hex_loop [a; b; c; d] 0.

(** utf16.IsSurrogate and utf16.DecodeRune *)
Definition IsSurrogate (r : Z) : bool := (55296 <=? r) && (r <? 57344).
Definition utf16_DecodeRune (r1 r2 : Z) : Z :=
  if (55296 <=? r1) && (r1 <? 56320) && (56320 <=? r2) && (r2 <? 57344)
  then Z.shiftl (r1 - 55296) 10 + (r2 - 56320) + 65536
  else RuneError.

(** What follows the 'u' of an escape: the rune and the rest. *)
Definition decodeUnicodeEscape (src : string) : codec_error + (Z * string) :=
  match src with
  | String a (String b (String c (String d rest))) =>
      first ← hex4 a b c d;
      if IsSurrogate first then
        match rest with
        | String s (String u (String e (String f (String g (String h rest'))))) =>
            if Ascii.eqb s backslash && Ascii.eqb u "u" then
              second ← hex4 e f g h;
              let combined := utf16_DecodeRune first second in
              if combined =? RuneError then inr (RuneError, rest) else inr (combined, rest')
            else inr (RuneError, rest)
        | _ => inr (RuneError, rest)
        end
      else inr (first, rest)
  | _ => inl ErrMalformed
  end.

(** What the byte behind a backslash stands for. *)
Definition simple_escape (c : ascii) : option ascii :=
  if Ascii.eqb c quote then Some quote
  else if Ascii.eqb c backslash then Some backslash
  else if Ascii.eqb c "/" then Some "/"%char
  else if Ascii.eqb c "b" then Some (ascii_of 8)
  else if Ascii.eqb c "f" then Some (ascii_of 12)
  else if Ascii.eqb c "n" then Some (ascii_of 10)
  else if Ascii.eqb c "r" then Some (ascii_of 13)
  else if Ascii.eqb c "t" then Some (ascii_of 9)
  else None.

(** The loop of unescape: every round takes a byte, so the length is fuel enough. *)
Fixpoint unescape_loop (fuel : nat) (src : string) : codec_error + string :=
  match fuel, src with
  | _, "" => inr ""
  | O, _ => inl ErrMalformed
  | S fuel, String ch src =>
      if negb (Ascii.eqb ch backslash) then
        dst ← unescape_loop fuel src; inr (String ch dst)
      else
        match src with
        | "" => inl ErrMalformed
        | String e src =>
            if Ascii.eqb e "u" then
              '(r, src) ← decodeUnicodeEscape src;
              dst ← unescape_loop fuel src; inr (EncodeRune r +:+ dst)
            else
              match simple_escape e with
              | Some c => dst ← unescape_loop fuel src; inr (String c dst)
              | None => inl ErrMalformed
              end
        end
  end.

Definition unescape (src : string) : codec_error + string := unescape_loop (String.length src) src.

(** ** Timestamps *)

Fixpoint atoiN_loop (s : string) (n : Z) : option Z :=
  match s with
  | "" => Some n
  | String ch s => if isDigit ch then atoiN_loop s (n * 10 + digit ch) else None
  end.
Definition atoiN (s : string) : option Z := atoiN_loop s 0.

(** [b[i:j]] and [b[i]] *)
Definition slice (i j : nat) (s : string) : string := string_take (j - i) (string_drop i s).
Definition byte_at (i : nat) (c : ascii) (s : string) : bool := bool_decide (String.get i s = Some c).

(** The digits behind the period: the first nine count. *)
Definition rfc3339_fraction (s : string) : option (Z * string) :=
  match s with
  | String "." s' =>
      let '(ds, rest) := span_digits s' in
      if bool_decide (ds = "") then None else Some (scaled 9 ds, rest)
  | _ => Some (0, s)
  end.

(** Whether a "Z" or an offset is all that is left: the offset in seconds. *)
Definition rfc3339_zone (s : string) : option Z :=
  match s with
  | "" => None
  | String c _ =>
      if Ascii.eqb c "Z" then (if (String.length s =? 1)%nat then Some 0 else None)
      else if Ascii.eqb c "+" || Ascii.eqb c "-" then
        if negb (String.length s =? 6)%nat || negb (byte_at 3 ":" s) then None
        else
          offHour ← atoiN (slice 1 3 s);
          offMin ← atoiN (slice 4 6 s);
          let offset := offHour * 3600 + offMin * 60 in
          Some (if Ascii.eqb c "-" then - offset else offset)
      else None
  end.

Definition parseRFC3339 (b : string) : option Time :=
  if (String.length b <? 20)%nat || negb (byte_at 4 "-" b) || negb (byte_at 7 "-" b)
     || negb (byte_at 10 "T" b) || negb (byte_at 13 ":" b) || negb (byte_at 16 ":" b) then None
  else
    year ← atoiN (slice 0 4 b);
    month ← atoiN (slice 5 7 b);
    day ← atoiN (slice 8 10 b);
    hour ← atoiN (slice 11 13 b);
    minute ← atoiN (slice 14 16 b);
    second ← atoiN (slice 17 19 b);
    '(nanos, rest) ← rfc3339_fraction (string_drop 19 b);
    offset ← rfc3339_zone rest;
    let t := time_Date year month day hour minute second nanos offset in
    if bool_decide (time_fields t offset = (year, month, day, hour, minute, second)) then Some t else None.

(** ** The codec *)

Record jsonCodec := mkJson {
  names : gmap string (list field);
  opMap : gmap string Op;
  opNames : gmap string Op;
  publishers : interner;
  topics : interner;
  maxPayloadBytes : Z;
  maxKeyBytes : Z;
  maxDepth : Z;
  retainRaw : bool
}.

Definition set_topics (c : jsonCodec) (i : interner) : jsonCodec :=
  mkJson (names c) (opMap c) (opNames c) (publishers c) i (maxPayloadBytes c) (maxKeyBytes c)
    (maxDepth c) (retainRaw c).
Definition set_publishers (c : jsonCodec) (i : interner) : jsonCodec :=
  mkJson (names c) (opMap c) (opNames c) i (topics c) (maxPayloadBytes c) (maxKeyBytes c)
    (maxDepth c) (retainRaw c).

(** One field's raw value, recorded during the scan. *)
Record capture := mkCapture { craw : string; ckind : kind; cescape : bool; cseen : bool }.

Abbreviation captures := (field → capture).
Definition no_captures : captures := λ _, mkCapture "" KNull false false.
Definition capture_at (f : field) (cp : capture) (caps : captures) : captures :=
  λ g, if decide (g = f) then cp else caps g.

Definition present (cp : capture) : bool := cseen cp && negb (bool_decide (ckind cp = KNull)).

(** [raw[1 : len(raw)-1]] *)
Definition inner (raw : string) : string := slice 1 (String.length raw - 1) raw.

Section codec.
Context `{UnicodeTables} `{FloatOverflow}.

Definition newJSON (cfg : gmap string string) : codec_error + jsonCodec :=
  names ← field_names cfg configKeys ∅;
  opMap ← parseOpMapping (default "" (cfg !! "opMapping"));
  maxPayloadBytes ← intConfig cfg "maxPayloadBytes" defaultMaxPayloadBytes;
  maxKeyBytes ← intConfig cfg "maxKeyBytes" defaultMaxKeyBytes;
  maxDepth ← intConfig cfg "maxDepth" defaultMaxDepth;
  retainRaw ← boolConfig cfg "retainRaw";
  inr (mkJson names opMap builtinOpNames (newInterner defaultMaxPublishers)
         (newInterner defaultMaxPublishers) maxPayloadBytes maxKeyBytes maxDepth retainRaw).

(** The event fields a JSON key feeds. *)
Definition lookup (c : jsonCodec) (name : string) (escaped : bool) : list field :=
  if negb escaped then default [] (names c !! name)
  else match unescape name with
       | inl _ => []
       | inr decoded => default [] (names c !! decoded)
       end.

(** ** The scan *)

(** The loop of scan over the members of the top-level object. *)
Fixpoint scan_members (fuel : nat) (c : jsonCodec) (s : string) (caps : captures)
    : option (codec_error + captures) :=
  match fuel with
  | O => None
  | S fuel =>
      let? (name, escaped, s) := Some (scanString (ws s)) in
      match eat ":" (ws s) with
      | None => fail ErrMalformed
      | Some s =>
          let s := ws s in
          let wanted := lookup c name escaped in
          let? (k, esc, rest) := scanValue (maxDepth c) (scan_fuel s) 0 s in
          let cp := mkCapture (string_take (String.length s - String.length rest) s) k esc true in
          let caps := foldl (λ caps f, capture_at f cp caps) caps wanted in
          let rest := ws rest in
          match eat "," rest with
          | Some s => scan_members fuel c s caps
          | None =>
              match eat "}" rest with
              | None => fail ErrMalformed
              | Some s => Some (_ ← eof s; inr caps)
              end
          end
      end
  end.

Definition scan (c : jsonCodec) (b : string) : option (codec_error + captures) :=
  match eat "{" (ws b) with
  | None => fail ErrMalformed
  | Some s =>
      let s := ws s in
      match eat "}" s with
      | Some s => Some (_ ← eof s; inr no_captures)
      | None => scan_members (scan_fuel s) c s no_captures
      end
  end.

(** ** Conversions *)

Definition json_string (cp : capture) : codec_error + string :=
  if negb (present cp) then inr ""
  else if negb (bool_decide (ckind cp = KString)) then inl ErrMalformed
  else
    let body := inner (craw cp) in
    if negb (cescape cp) then inr body else unescape body.

Definition internedString (i : interner) (cp : capture) : interner * (codec_error + string) :=
  if present cp && bool_decide (ckind cp = KString) && negb (cescape cp) then
    let '(i, s) := intern_get i (inner (craw cp)) in (i, inr s)
  else (i, json_string cp).

Definition boundedString (c : jsonCodec) (cp : capture) : codec_error + string :=
  if present cp && bool_decide (ckind cp = KString)
     && (Z.of_nat (String.length (craw cp)) - 2 >? maxKeyBytes c) then inl ErrTooLarge
  else
    s ← json_string cp;
    if Z.of_nat (String.length s) >? maxKeyBytes c then inl ErrTooLarge else inr s.

Definition json_bytes (cp : capture) : codec_error + option string :=
  if negb (present cp) then inr None
  else s ← json_string cp; inr (Some s).

Fixpoint isFloatLiteral (raw : string) : bool :=
  match raw with
  | "" => false
  | String ch raw => Ascii.eqb ch "." || Ascii.eqb ch "e" || Ascii.eqb ch "E" || isFloatLiteral raw
  end.

(** The digits of a captured number or numeric string. *)
Definition number_text (cp : capture) : codec_error + string :=
  match ckind cp with
  | KNumber => if isFloatLiteral (craw cp) then inl ErrMalformed else inr (craw cp)
  | KString => inr (inner (craw cp))
  | _ => inl ErrMalformed
  end.

Definition json_uint (cp : capture) : codec_error + Z :=
  if negb (present cp) then inr 0
  else raw ← number_text cp; or_err ErrMalformed (ParseUint raw).

Definition json_int (cp : capture) : codec_error + Z :=
  if negb (present cp) then inr 0
  else raw ← number_text cp; or_err ErrMalformed (ParseInt raw).

(** The path that does not go through the fast parser. *)
Definition timestamp_text (s : string) : codec_error + Time :=
  if bool_decide (s = "") then inr zero_time
  else
    match time_Parse s with
    | Some ts => inr ts
    | None => n ← or_err ErrMalformed (ParseInt s); inr (unixTimestamp n)
    end.

Definition timestamp (cp : capture) : codec_error + Time :=
  if negb (present cp) then inr zero_time
  else
    match ckind cp with
    | KString =>
        match (if cescape cp then None else parseRFC3339 (inner (craw cp))) with
        | Some ts => inr ts
        | None => s ← json_string cp; timestamp_text s
        end
    | KNumber =>
        if isFloatLiteral (craw cp) then inl ErrMalformed
        else n ← or_err ErrMalformed (ParseInt (craw cp)); inr (unixTimestamp n)
    | _ => inl ErrMalformed
    end.

Definition json_ttl (cp : capture) : codec_error + option Duration :=
  if negb (present cp) then inr None
  else
    match ckind cp with
    | KNumber =>
        if isFloatLiteral (craw cp) then
          seconds ← or_err ErrMalformed (ParseFloat (craw cp));
          inr (Some (int64_of_float (float_mul seconds (float_of_Z time_Second))))
        else
          seconds ← or_err ErrMalformed (ParseInt (craw cp));
          inr (Some (i64 (seconds * time_Second)))
    | KString =>
        s ← json_string cp;
        d ← or_err ErrMalformed (ParseDuration s);
        inr (Some d)
    | _ => inl ErrMalformed
    end.

Definition resolveOp (c : jsonCodec) (cp : capture) : codec_error + Op :=
  if negb (present cp) then inl ErrMissingField
  else if negb (bool_decide (ckind cp = KString)) then inl ErrMalformed
  else if negb (cescape cp) then resolve_name (opMap c) (opNames c) (inner (craw cp))
  else
    name ← json_string cp;
    match opMap c !! name with
    | Some op => inr op
    | None => or_err ErrUnknownOp (ParseOp name)
    end.

(** ** Decode *)

Definition assign (c : jsonCodec) (caps : captures) (dst : Event.t) : jsonCodec * (codec_error + Event.t) :=
  match resolveOp c (caps fieldOp) with
  | inl err => (c, inl err)
  | inr op =>
      let '(i, publisher) := internedString (publishers c) (caps fieldPublisher) in
      (set_publishers c i,
       publisher ← publisher;
       epoch ← json_uint (caps fieldEpoch);
       seq ← json_uint (caps fieldSeq);
       publishedAt ← timestamp (caps fieldTimestamp);
       key ← boundedString c (caps fieldKey);
       member ← boundedString c (caps fieldMember);
       value ← json_bytes (caps fieldValue);
       delta ← json_int (caps fieldDelta);
       ttl ← json_ttl (caps fieldTTL);
       inr (Event.mk publisher epoch seq publishedAt (ObservedAt dst) (Topic dst) op key member value
              delta ttl None))
  end.

(** [None] is a scan that has run out of fuel. On an error the event is not used. *)
Definition Decode_fuel (c : jsonCodec) (payload topic : string) (observed : Time)
    : jsonCodec * option (codec_error + Event.t) :=
  if Z.of_nat (String.length payload) >? maxPayloadBytes c then (c, fail ErrTooLarge)
  else
    let '(i, topic) := intern_get (topics c) topic in
    let c := set_topics c i in
    match scan c payload with
    | None => (c, None)
    | Some (inl err) => (c, fail err)
    | Some (inr caps) =>
        let '(c, res) := assign c caps (blank observed topic) in
        (c, Some (e ← res;
                  let e := if retainRaw c then set_Raw (Some payload) e else e in
                  match Validate e with Some err => inl (ErrEvent err) | None => inr e end))
    end.

Definition Decode (c : jsonCodec) (payload topic : string) (observed : Time) : jsonCodec * (codec_error + Event.t) :=
  let '(c, res) := Decode_fuel c payload topic observed in (c, default (inl ErrMalformed) res).
End codec.
