(* ===== verification/JsonDecode.v ===== *)
(** * JsonDecode: what the json codec accepts, and what it makes of it

    The top-level walk accepts exactly the documents of a grammar and captures,
    for every field, the last member that feeds it. Decode always ends, does not
    depend on what was decoded before, and keeps what the pipeline relies on. *)
From Stdlib Require Import Ascii String.
From stdpp Require Import strings.
From S2P Require Import Prelude GoBase GoStrings GoFloat GoTime Event Projection Codec JsonScan JsonGrammar Json.

(** ** Documents *)

(** A member of the top-level object: the text of its key and of its value. *)
Record member := mkMember {
  mname : string; mescaped : bool; mvalue : string; mkind : kind; mvescaped : bool
}.

Inductive document_members (maxDepth : Z) : string → list member → Prop :=
  | document_last w1 b e w2 w3 v k esc w4 w5 :
      white w1 = true → string_body b e → white w2 = true → white w3 = true →
      value maxDepth 0 v k esc → white w4 = true → white w5 = true →
      document_members maxDepth (w1 +:+ quoted b +:+ w2 +:+ ":" +:+ w3 +:+ v +:+ w4 +:+ "}" +:+ w5)
        [mkMember b e v k esc]
  | document_more w1 b e w2 w3 v k esc w4 s ms :
      white w1 = true → string_body b e → white w2 = true → white w3 = true →
      value maxDepth 0 v k esc → white w4 = true → document_members maxDepth s ms →
      document_members maxDepth (w1 +:+ quoted b +:+ w2 +:+ ":" +:+ w3 +:+ v +:+ w4 +:+ "," +:+ s)
        (mkMember b e v k esc :: ms).

(** An object with nothing but white space around it. *)
Inductive document (maxDepth : Z) : string → list member → Prop :=
  | document_empty w1 w2 w3 :
      white w1 = true → white w2 = true → white w3 = true →
      document maxDepth (w1 +:+ "{" +:+ w2 +:+ "}" +:+ w3) []
  | document_some w s ms :
      white w = true → document_members maxDepth s ms → document maxDepth (w +:+ "{" +:+ s) ms.

(** A member is recorded for every field its key feeds. *)
Definition member_capture (m : member) : capture := mkCapture (mvalue m) (mkind m) (mvescaped m) true.
Definition record_member (c : jsonCodec) (caps : captures) (m : member) : captures :=
  foldl (λ caps f, capture_at f (member_capture m) caps) caps (lookup c (mname m) (mescaped m)).

Lemma eof_spec s u : eof s = inr u ↔ white s = true.
Proof.
  unfold eof. destruct u, (ws_split s) as (w & Hw & Hs & _). case_bool_decide as He.
  - split; [|done]. intros _. rewrite Hs, He, string_app_nil_r. done.
  - split; [done|]. intros Hwh. rewrite <- (string_app_nil_r s) in He at 1. by rewrite ws_app in He.
Qed.

(** The value a scan of a member ends with. *)
Lemma member_value D s k e rest :
  scanValue D (scan_fuel s) 0 s = Some (inr (k, e, rest)) →
  ∃ v, s = v +:+ rest ∧ value D 0 v k e ∧ string_take (String.length s - String.length rest) s = v.
Proof.
  intros Hs. destruct (proj1 (scanner_sound D _) _ _ _ _ _ Hs) as (v & -> & Hv).
  exists v. split_and!; [done|done|apply string_take_front].
Qed.

Section scan.
Context (c : jsonCodec).

(** What the walk does after a value, on the input behind it. *)
Definition after_value (fuel : nat) (rest : string) (caps : captures) : option (codec_error + captures) :=
  match eat "," rest with
  | Some s => scan_members fuel c s caps
  | None =>
      match eat "}" rest with
      | None => fail ErrMalformed
      | Some s => Some (_ ← eof s; inr caps)
      end
  end.

Lemma scan_members_S fuel s caps :
  scan_members (S fuel) c s caps
  = let? (name, escaped, s) := Some (scanString (ws s)) in
    match eat ":" (ws s) with
    | None => fail ErrMalformed
    | Some s =>
        let? (k, esc, rest) := scanValue (maxDepth c) (scan_fuel (ws s)) 0 (ws s) in
        after_value fuel (ws rest)
          (record_member c caps
             (mkMember name escaped (string_take (String.length (ws s) - String.length rest) (ws s)) k esc))
    end.
Proof. done. Qed.

Lemma scan_members_sound fuel : ∀ s caps caps',
  scan_members fuel c s caps = Some (inr caps') →
  ∃ ms, document_members (maxDepth c) s ms ∧ caps' = foldl (record_member c) caps ms.
Proof.
  induction fuel as [|fuel IH]; [done|]. intros s caps caps'. rewrite scan_members_S.
  intros ([[b e] s1] & [= Hb] & Hk)%bind_inr. apply scanString_spec in Hb as [Hs Hb].
  destruct (eat ":" (ws s1)) as [s2|] eqn:H2; [|done]. apply eat_spec in H2.
  apply bind_inr in Hk as ([[k esc] s3] & Hv & Hk). destruct (member_value _ _ _ _ _ Hv) as (v & H3 & Hval & Ht).
  rewrite Ht in Hk. unfold after_value in Hk.
  destruct (ws_split s) as (w1 & Hw1 & E1 & _). destruct (ws_split s1) as (w2 & Hw2 & E2 & _).
  destruct (ws_split s2) as (w3 & Hw3 & E3 & _). destruct (ws_split s3) as (w4 & Hw4 & E4 & _).
  rewrite Hs in E1. rewrite H2 in E2. rewrite H3 in E3.
  destruct (eat "," (ws s3)) as [s4|] eqn:H4.
  - apply eat_spec in H4. rewrite H4 in E4. destruct (IH _ _ _ Hk) as (ms & Hms & ->).
    exists (mkMember b e v k esc :: ms). split; [|done]. rewrite E1, E2, E3, E4. str_norm.
    by apply (document_more _ w1 b e w2 w3 v k esc w4 s4 ms).
  - destruct (eat "}" (ws s3)) as [s5|] eqn:H5; [|done]. apply eat_spec in H5. rewrite H5 in E4.
    destruct (eof s5) as [|u] eqn:Hu; [done|]. apply eof_spec in Hu. injection Hk as <-.
    exists [mkMember b e v k esc]. split; [|done]. rewrite E1, E2, E3, E4. str_norm.
    by apply (document_last _ w1 b e w2 w3 v k esc w4 s5).
Qed.

(** One round on a member of the grammar. *)
Lemma scan_members_member fuel caps w1 b e w2 w3 v k esc w4 ch tail :
  white w1 = true → string_body b e → white w2 = true → white w3 = true →
  value (maxDepth c) 0 v k esc → white w4 = true → in_number ch = false →
  scan_members (S fuel) c (w1 +:+ quoted b +:+ w2 +:+ ":" +:+ w3 +:+ v +:+ w4 +:+ String ch tail) caps
  = after_value fuel (ws (String ch tail)) (record_member c caps (mkMember b e v k esc)).
Proof.
  intros H1 Hb H2 H3 Hv H4 Hch. rewrite scan_members_S, ws_app by done. rewrite ws_dense by done.
  rewrite (proj2 (scanString_spec _ b e _) (conj eq_refl Hb)). cbn [scan_bind].
  rewrite (ws_app w2) by done. rewrite (string_app_cons ":" "" _), ws_dense by done.
  rewrite eat_same, string_app_nil_l, ws_app by done. rewrite (ws_value _ _ _ _ _ _ Hv).
  rewrite (scanValue_complete _ _ _ _ _ _ Hv) by by apply stops_white. cbn [scan_bind].
  by rewrite string_take_front, ws_app.
Qed.

Lemma scan_members_complete s ms : document_members (maxDepth c) s ms → ∀ fuel caps,
  (String.length s < fuel)%nat → scan_members fuel c s caps = Some (inr (foldl (record_member c) caps ms)).
Proof.
  induction 1 as [w1 b e w2 w3 v k esc w4 w5 H1 Hb H2 H3 Hv H4 H5|w1 b e w2 w3 v k esc w4 s ms H1 Hb H2 H3 Hv H4 Hms IH];
    intros fuel caps Hf; (destruct fuel as [|fuel]; [lia|]).
  - rewrite (string_app_cons "}" "" w5), string_app_nil_l.
    rewrite (scan_members_member fuel caps w1 b e w2 w3 v k esc w4 "}" w5 H1 Hb H2 H3 Hv H4 eq_refl).
    rewrite ws_dense by done. unfold after_value. cbn [eat Ascii.eqb Bool.eqb].
    by rewrite (proj2 (eof_spec w5 tt) H5).
  - rewrite (string_app_cons "," "" s), string_app_nil_l.
    rewrite (scan_members_member fuel caps w1 b e w2 w3 v k esc w4 "," s H1 Hb H2 H3 Hv H4 eq_refl).
    rewrite ws_dense by done. unfold after_value. cbn [eat Ascii.eqb Bool.eqb]. rewrite IH; [done|].
    rewrite !string_length_app in Hf. cbn in Hf. rewrite ?string_length_app in Hf. lia.
Qed.

Lemma members_not_closed D s ms : document_members D s ms → eat "}" (ws s) = None.
Proof. by destruct 1; (rewrite ws_app by done; rewrite ws_dense). Qed.

Lemma document_members_white D w s ms :
  white w = true → document_members D s ms → document_members D (w +:+ s) ms.
Proof.
  intros Hw Hs. inversion Hs; subst; rewrite <- string_app_assoc; econstructor; eauto;
    rewrite white_app; by apply andb_true_iff.
Qed.

Lemma document_members_ws D s ms : document_members D s ms → document_members D (ws s) ms.
Proof.
  destruct 1; (rewrite ws_app by done; rewrite ws_dense by done; rewrite <- (string_app_nil_l (quoted b +:+ _)));
    by econstructor.
Qed.

(** The walk accepts exactly the documents, and captures the last member for every field. *)
Lemma scan_spec s caps :
  scan c s = Some (inr caps) ↔ ∃ ms, document (maxDepth c) s ms ∧ caps = foldl (record_member c) no_captures ms.
Proof.
  unfold scan. split.
  - destruct (eat "{" (ws s)) as [s1|] eqn:H1; [|done]. apply eat_spec in H1. cbv zeta.
    destruct (ws_split s) as (w & Hw & E & _). rewrite H1 in E.
    destruct (ws_split s1) as (w1 & Hw1 & E1 & _). destruct (eat "}" (ws s1)) as [s2|] eqn:H2.
    + apply eat_spec in H2. rewrite H2 in E1. destruct (eof s2) as [|u] eqn:Hu; [done|].
      apply eof_spec in Hu. intros [= <-]. exists []. split; [|done]. rewrite E, E1.
      by apply (document_empty _ w w1 s2).
    + intros (ms & Hms & ->)%scan_members_sound. exists ms. split; [|done]. rewrite E.
      apply (document_some _ w s1); [done|]. rewrite E1. by apply document_members_white.
  - intros (ms & [w1 w2 w3 H1 H2 H3|w s' ms' Hw Hms] & ->).
    + rewrite ws_app by done. rewrite (string_app_cons "{" "" _), string_app_nil_l, ws_dense by done.
      rewrite eat_same. cbv zeta. rewrite ws_app by done. rewrite (string_app_cons "}" "" _), ws_dense by done.
      rewrite eat_same, string_app_nil_l. by rewrite (proj2 (eof_spec w3 tt) H3).
    + rewrite ws_app by done. rewrite (string_app_cons "{" "" _), string_app_nil_l, ws_dense by done.
      rewrite eat_same. cbv zeta. rewrite (members_not_closed _ _ _ Hms).
      apply scan_members_complete; [by apply document_members_ws|unfold scan_fuel; lia].
Qed.

Lemma scan_members_total fuel : ∀ s caps, (String.length s < fuel)%nat → scan_members fuel c s caps ≠ None.
Proof.
  induction fuel as [|fuel IH]; intros s caps Hf; [lia|]. rewrite scan_members_S.
  apply bind_total; [done|]. intros [[b e] s1] [= Hs%scanString_shorter].
  destruct (eat ":" (ws s1)) as [s2|] eqn:H2; [|done]. apply eat_shorter in H2.
  apply bind_total; [by apply scanValue_total|]. intros [[k esc] s3] Hv%scanValue_shorter. unfold after_value.
  destruct (eat "," (ws s3)) as [s4|] eqn:H4; [|by case_match]. apply eat_shorter in H4. apply IH.
  pose proof (length_ws s). pose proof (length_ws s1). pose proof (length_ws s2). pose proof (length_ws s3). lia.
Qed.

Lemma scan_total s : scan c s ≠ None.
Proof.
  unfold scan. destruct (eat "{" (ws s)) as [s1|]; [|done]. cbv zeta. destruct (eat "}" (ws s1)); [done|].
  apply scan_members_total. unfold scan_fuel. lia.
Qed.
End scan.

(** ** The last member wins *)

Definition feeds (c : jsonCodec) (f : field) (m : member) : bool :=
  bool_decide (f ∈ lookup c (mname m) (mescaped m)).

(** The capture of the last member that feeds [f], if there is one. *)
Definition captured (c : jsonCodec) (ms : list member) (f : field) : capture :=
  match last (List.filter (feeds c f) ms) with
  | Some m => member_capture m
  | None => no_captures f
  end.

Lemma foldl_capture_at fs : ∀ caps cp f,
  foldl (λ caps g, capture_at g cp caps) caps fs f = if decide (f ∈ fs) then cp else caps f.
Proof.
  induction fs as [|g fs IH]; intros caps cp f; [by rewrite decide_False by by intros ?%elem_of_nil|].
  cbn [foldl]. rewrite IH. unfold capture_at. destruct (decide (f ∈ fs)) as [Hf|Hf].
  - rewrite decide_True; [done|]. by right.
  - destruct (decide (f = g)) as [->|Hne]; [rewrite decide_True; [done|by left]|].
    rewrite decide_False; [done|]. by intros [?|?]%elem_of_cons.
Qed.

Lemma captured_foldl c ms f : foldl (record_member c) no_captures ms f = captured c ms f.
Proof.
  unfold captured. induction ms as [|m ms IH] using rev_ind; [done|].
  rewrite foldl_app, List.filter_app. cbn [foldl List.filter]. unfold record_member at 1. rewrite foldl_capture_at.
  change (feeds c f m) with (bool_decide (f ∈ lookup c (mname m) (mescaped m))). destruct (decide (f ∈ lookup c (mname m) (mescaped m))) as [Hf|Hf].
  - by rewrite (bool_decide_eq_true_2 _ Hf), last_snoc.
  - rewrite (bool_decide_eq_false_2 _ Hf), app_nil_r. exact IH.
Qed.

(** C13: the scanner implements its grammar: a payload is accepted exactly when it is a document, an
    object within the nesting limit with nothing behind it, and then every field has the text of the
    last member whose key feeds it; the scan of any payload ends. *)
Theorem scan_accepts_exactly_documents c payload :
  match scan c payload with
  | Some (inr caps) => ∃ ms, document (maxDepth c) payload ms ∧ ∀ f, caps f = captured c ms f
  | Some (inl _) => ¬ ∃ ms, document (maxDepth c) payload ms
  | None => False
  end.
Proof.
  destruct (scan c payload) as [[err|caps]|] eqn:Hs; [| |by apply scan_total in Hs].
  - intros (ms & Hd). assert (scan c payload = Some (inr (foldl (record_member c) no_captures ms))) as Hs'.
    { apply scan_spec. by exists ms. }
    congruence.
  - apply scan_spec in Hs as (ms & Hd & ->). exists ms. split; [done|]. intros f. apply captured_foldl.
Qed.

Section decode.
Context {U : UnicodeTables} {F : FloatOverflow}.


(** ** The caches *)

Record codec_ok (c : jsonCodec) : Prop := mk_codec_ok {
  co_publishers : interner_ok (publishers c);
  co_topics : interner_ok (topics c)
}.

(** Codecs that differ in their caches only. *)
Record same_config (c c' : jsonCodec) : Prop := mk_same_config {
  sc_names : names c' = names c;
  sc_opMap : opMap c' = opMap c;
  sc_opNames : opNames c' = opNames c;
  sc_payload : maxPayloadBytes c' = maxPayloadBytes c;
  sc_key : maxKeyBytes c' = maxKeyBytes c;
  sc_depth : maxDepth c' = maxDepth c;
  sc_raw : retainRaw c' = retainRaw c;
  sc_publishers : ientries (publishers c') = ientries (publishers c);
  sc_topics : ientries (topics c') = ientries (topics c)
}.

Lemma same_config_refl c : same_config c c.
Proof. by constructor. Qed.

Lemma same_config_trans c1 c2 c3 : same_config c1 c2 → same_config c2 c3 → same_config c1 c3.
Proof. intros [] []. constructor; congruence. Qed.

Lemma lookup_same c c' n b : same_config c c' → lookup c' n b = lookup c n b.
Proof. intros Hs. unfold lookup. by rewrite (sc_names _ _ Hs). Qed.

Lemma record_member_same c c' caps m : same_config c c' → record_member c' caps m = record_member c caps m.
Proof. intros Hs. unfold record_member. by rewrite (lookup_same c c' _ _ Hs). Qed.

Lemma scan_members_same c c' : same_config c c' → ∀ fuel s caps,
  scan_members fuel c' s caps = scan_members fuel c s caps.
Proof.
  intros Hs. induction fuel as [|fuel IH]; intros s caps; [done|]. rewrite !scan_members_S.
  destruct (scanString (ws s)) as [|[[b e] s1]]; [done|]. cbn [scan_bind].
  destruct (eat ":" (ws s1)) as [s2|]; [|done]. rewrite (sc_depth _ _ Hs).
  destruct (scanValue _ _ _ _) as [[err|[[k esc] s3]]|]; [done| |done]. cbn [scan_bind].
  rewrite (record_member_same c c' _ _ Hs). unfold after_value. destruct (eat "," (ws s3)); [apply IH|done].
Qed.

Lemma scan_same c c' s : same_config c c' → scan c' s = scan c s.
Proof.
  intros Hs. unfold scan. destruct (eat "{" (ws s)) as [s1|]; [|done]. cbv zeta.
  destruct (eat "}" (ws s1)); [done|]. by apply scan_members_same.
Qed.

Lemma internedString_spec i cp : interner_ok i →
  let '(i', s) := internedString i cp in
  s = json_string cp ∧ interner_ok i' ∧ ientries i' = ientries i.
Proof.
  intros Hi. unfold internedString. destruct (present cp && _ && _) eqn:Hp; [|done].
  apply andb_true_iff in Hp as [[Hp Hk]%andb_true_iff He].
  pose proof (intern_get_spec i (inner (craw cp)) Hi) as Hg.
  destruct (intern_get i (inner (craw cp))) as [i' s]. cbn [fst snd] in Hg. destruct Hg as (-> & Hok & Hn).
  split_and!; [|done|done]. unfold json_string. by rewrite Hp, Hk, He.
Qed.

(** The events of two codecs of the same configuration are the same. *)
Lemma assign_same c c' caps dst : same_config c c' → codec_ok c → codec_ok c' →
  (assign c' caps dst).2 = (assign c caps dst).2
  ∧ same_config c (assign c' caps dst).1 ∧ codec_ok (assign c' caps dst).1.
Proof.
  intros Hs [Hp _] [Hp' Ht']. unfold assign. unfold resolveOp. rewrite (sc_opMap _ _ Hs), (sc_opNames _ _ Hs).
  destruct (if negb (present (caps fieldOp)) then _ else _) as [err|op]; [done|].
  pose proof (internedString_spec _ (caps fieldPublisher) Hp) as H1.
  pose proof (internedString_spec _ (caps fieldPublisher) Hp') as H2.
  destruct (internedString (publishers c) _) as [i s]. destruct (internedString (publishers c') _) as [i' s'].
  destruct H1 as (-> & _ & _), H2 as (-> & Hok & Hn). cbn [fst snd]. split_and!.
  - unfold boundedString. by rewrite (sc_key _ _ Hs).
  - destruct Hs. constructor; cbn; congruence.
  - by constructor.
Qed.

Lemma decode_same c c' payload topic observed : same_config c c' → codec_ok c → codec_ok c' →
  (Decode c' payload topic observed).2 = (Decode c payload topic observed).2
  ∧ same_config c (Decode c' payload topic observed).1 ∧ codec_ok (Decode c' payload topic observed).1.
Proof.
  intros Hs Hc Hc'. unfold Decode, Decode_fuel. rewrite (sc_payload _ _ Hs).
  destruct (_ >? _); [done|].
  pose proof (intern_get_spec (topics c) topic (co_topics _ Hc)) as H1.
  pose proof (intern_get_spec (topics c') topic (co_topics _ Hc')) as H2.
  destruct (intern_get (topics c) topic) as [i tp]. destruct (intern_get (topics c') topic) as [i' tp'].
  cbn [fst snd] in H1, H2. destruct H1 as (-> & Hi & Hn), H2 as (-> & Hi' & Hn').
  assert (same_config c (set_topics c i)) as E1 by (by constructor).
  assert (same_config c (set_topics c' i')) as E2 by (destruct Hs; constructor; cbn; congruence).
  assert (same_config (set_topics c i) (set_topics c' i')) as E3 by (destruct Hs; constructor; cbn; congruence).
  assert (codec_ok (set_topics c i)) as O1 by (destruct Hc; by constructor).
  assert (codec_ok (set_topics c' i')) as O2 by (destruct Hc'; by constructor).
  rewrite (scan_same _ _ payload E3). destruct (scan (set_topics c i) payload) as [[err|caps]|]; [done| |done].
  destruct (assign_same _ _ caps (blank observed topic) E3 O1 O2) as (Er & Es & Eo).
  destruct (assign_same _ _ caps (blank observed topic) (same_config_refl _) O1 O1) as (_ & Es' & _).
  destruct (assign (set_topics c i) caps _) as [d res]. destruct (assign (set_topics c' i') caps _) as [d' res'].
  cbn [fst snd default] in *. subst res'. rewrite (sc_raw _ _ Es), (sc_raw _ _ Es').
  split_and!; [done| |done]. eapply same_config_trans; [exact E1|exact Es].
Qed.

(** A run of the codec over frames. *)
Definition decode_all (c : jsonCodec) (frames : list (string * string * Time)) : jsonCodec :=
  foldl (λ c '(payload, topic, observed), (Decode c payload topic observed).1) c frames.

Lemma decode_all_same c frames : codec_ok c → same_config c (decode_all c frames) ∧ codec_ok (decode_all c frames).
Proof.
  intros Hc. unfold decode_all. induction frames as [|[[p t] o] frames IH] using rev_ind; [done|].
  rewrite foldl_app. cbn [foldl]. destruct IH as [Hs Ho]. destruct (decode_same c _ p t o Hs Hc Ho) as (_ & ? & ?).
  done.
Qed.

Lemma newJSON_ok cfg c : newJSON cfg = inr c →
  codec_ok c ∧ ientries (publishers c) = defaultMaxPublishers ∧ ientries (topics c) = defaultMaxPublishers.
Proof.
  unfold newJSON. intros Hn. repeat (match type of Hn with
    | mbind _ ?m = _ => destruct m; [done|cbn [mbind sum_bind] in Hn] end).
  injection Hn as <-. split; [|done]. constructor; apply newInterner_ok.
Qed.

(** decoding leaves no trace: whatever a codec has decoded before, in any order and with any
    result, the next payload decodes as it would on a new one; and the caches it keeps never hold more
    than their bound. *)
Theorem decode_is_stateless cfg c frames payload topic observed :
  newJSON cfg = inr c →
  let c' := decode_all c frames in
  (Decode c' payload topic observed).2 = (Decode c payload topic observed).2
  ∧ Z.of_nat (size (im (publishers c'))) ≤ defaultMaxPublishers
  ∧ Z.of_nat (size (im (topics c'))) ≤ defaultMaxPublishers.
Proof.
  intros (Hc & Hp & Ht)%newJSON_ok c'. destruct (decode_all_same c frames Hc) as [Hs Ho].
  destruct (decode_same c c' payload topic observed Hs Hc Ho) as (Hd & _ & _). split; [exact Hd|].
  pose proof (in_bound _ (co_publishers _ Ho)) as H1. pose proof (in_bound _ (co_topics _ Ho)) as H2.
  rewrite (sc_publishers _ _ Hs), Hp in H1. rewrite (sc_topics _ _ Hs), Ht in H2.
  unfold defaultMaxPublishers in *. fold c' in H1, H2. lia.
Qed.

(** ** What the pipeline relies on *)

Lemma json_uint_range cp n : json_uint cp = inr n → is_u64 n.
Proof.
  unfold json_uint. destruct (negb (present cp)); [by intros [= <-]|].
  destruct (number_text cp) as [|raw]; [done|]. cbn [mbind sum_bind].
  destruct (ParseUint raw) as [m|] eqn:Hp; [|done]. intros [= <-]. by eapply ParseUint_range.
Qed.

Lemma bind_ok {A B} (m : codec_error + A) (k : A → codec_error + B) b :
  m ≫= k = inr b → ∃ a, m = inr a ∧ k a = inr b.
Proof. destruct m as [err|a]; [done|]. eauto. Qed.

Lemma json_int_range cp n : json_int cp = inr n → is_i64 n.
Proof.
  unfold json_int. destruct (negb (present cp)); [by intros [= <-]|].
  intros (raw & _ & Hp)%bind_ok. destruct (ParseInt raw) eqn:Hr; [|done]. injection Hp as <-. by eapply ParseInt_range.
Qed.

Lemma ParseDuration_max s d : ParseDuration s = Some d → d ≤ max_i64.
Proof.
  unfold ParseDuration. destruct (match s with String _ _ => _ | _ => _ end) as [neg s'].
  case_bool_decide; [by intros [= <-]|]. case_bool_decide; [done|].
  intros (d0 & _ & Hk)%bind_Some. destruct neg; [injection Hk as <-; apply i64_range|].
  rewrite Z.gtb_ltb in Hk. destruct (Z.ltb_spec (two_63 - 1) d0); [done|]. injection Hk as <-. done.
Qed.

Lemma json_ttl_max cp d : json_ttl cp = inr (Some d) → d ≤ max_i64.
Proof.
  unfold json_ttl. destruct (negb (present cp)); [done|]. destruct (ckind cp); try done.
  - intros (s & _ & (d0 & Hd & [= <-])%bind_ok)%bind_ok.
    destruct (ParseDuration s) eqn:Hp; [|done]. injection Hd as <-. by eapply ParseDuration_max.
  - destruct (isFloatLiteral _); intros (secs & _ & [= <-])%bind_ok; [apply int64_of_float_range|apply i64_range].
Qed.

Lemma boundedString_bound c cp s : boundedString c cp = inr s → Z.of_nat (String.length s) ≤ maxKeyBytes c.
Proof.
  unfold boundedString. destruct (_ && _); [done|]. intros (s' & _ & Hk)%bind_ok. cbv beta in Hk.
  rewrite Z.gtb_ltb in Hk. destruct (Z.ltb_spec (maxKeyBytes c) (Z.of_nat (String.length s'))); [done|]. by injection Hk as <-.
Qed.

(** The types and bounds of a decoded event. *)
Record well_typed (c : jsonCodec) (e : Event.t) : Prop := mk_well_typed {
  wt_seq : is_u64 (Seq e);
  wt_epoch : is_u64 (Epoch e);
  wt_delta : is_i64 (Delta e);
  wt_ttl : ∀ d, TTL e = Some d → d ≤ max_i64;
  wt_key : Z.of_nat (String.length (Event.Key e)) ≤ maxKeyBytes c;
  wt_member : Z.of_nat (String.length (Member e)) ≤ maxKeyBytes c
}.

Lemma assign_event c caps dst e : (assign c caps dst).2 = inr e →
  ObservedAt e = ObservedAt dst ∧ Topic e = Topic dst ∧ Raw e = None ∧ well_typed c e.
Proof.
  unfold assign. destruct (resolveOp _ _) as [err|op]; [done|]. destruct (internedString _ _) as [i' pub].
  cbn [snd]. intros (p' & _ & (ep & Hep%json_uint_range & (sq & Hsq%json_uint_range & Hk)%bind_ok)%bind_ok)%bind_ok.
  apply bind_ok in Hk as (ts & _ & Hk). apply bind_ok in Hk as (k & Hkey%boundedString_bound & Hk).
  apply bind_ok in Hk as (m & Hm%boundedString_bound & Hk). apply bind_ok in Hk as (v & _ & Hk).
  apply bind_ok in Hk as (dl & Hd%json_int_range & Hk). apply bind_ok in Hk as (ttl & Ht & Hk). injection Hk as <-.
  split_and!; try done. constructor; try done. cbn [TTL]. intros d ->. by eapply json_ttl_max.
Qed.

(** The event of a payload that is accepted. *)
Lemma decode_event c payload topic observed e :
  (Decode c payload topic observed).2 = inr e → codec_ok c →
  ObservedAt e = observed ∧ Topic e = topic ∧ Validate e = None ∧ well_typed c e
  ∧ Raw e = (if retainRaw c then Some payload else None).
Proof.
  intros Hd Hc. revert Hd. unfold Decode, Decode_fuel. destruct (_ >? _); [done|].
  pose proof (intern_get_spec (topics c) topic (co_topics _ Hc)) as H1. destruct (intern_get (topics c) topic) as [i tp].
  destruct H1 as (E & Hi & Hn). cbn [fst snd] in E, Hi, Hn. subst tp.
  assert (same_config c (set_topics c i)) as E1 by (by constructor).
  assert (codec_ok (set_topics c i)) as O1 by (destruct Hc; by constructor).
  destruct (scan (set_topics c i) payload) as [[err|caps]|]; [done| |done].
  pose proof (assign_event (set_topics c i) caps (blank observed topic)) as Ha.
  destruct (assign_same _ _ caps (blank observed topic) E1 Hc O1) as (_ & Es & _).
  destruct (assign _ _ _) as [d res]. cbn [fst snd default] in *. intros (e0 & -> & Hk)%bind_ok.
  destruct (Ha e0 eq_refl) as (Ho & Ht & Hr & Hw). cbn in Ho, Ht. cbv zeta in Hk. rewrite (sc_raw _ _ Es) in Hk.
  destruct (Validate _) as [err|] eqn:Hv; [done|]. injection Hk as <-.
  destruct Hw. destruct (retainRaw c); by split_and!.
Qed.

(** C15: every accepted payload becomes a well-typed event: its fields within the ranges of their machine
    types and the codec's bounds, the source's clock and topic, the payload itself when it is kept, and
    the rules of its operation satisfied. *)
Theorem decoded_events_are_well_typed cfg c payload topic observed e : newJSON cfg = inr c →
  (Decode c payload topic observed).2 = inr e →
  Validate e = None ∧ EOp e ∈ named_ops
  ∧ is_u64 (Seq e) ∧ is_u64 (Epoch e) ∧ is_i64 (Delta e) ∧ (∀ d, TTL e = Some d → 0 ≤ d ≤ max_i64)
  ∧ Z.of_nat (String.length (Event.Key e)) ≤ maxKeyBytes c ∧ Z.of_nat (String.length (Member e)) ≤ maxKeyBytes c
  ∧ ObservedAt e = observed ∧ Topic e = topic ∧ Raw e = (if retainRaw c then Some payload else None).
Proof.
  intros (Hc & _ & _)%newJSON_ok Hd. destruct (decode_event c payload topic observed e Hd Hc) as (Ho & Ht & Hv & [] & Hr).
  destruct (valid_named e Hv) as [Hop Hpos]. split_and!; try done. intros d Hd'. split; [by apply Hpos|by apply wt_ttl0].
Qed.

(** The codec as the pipeline sees it: by [decode_is_stateless] its caches do not matter. *)
Definition json_Codec (c : jsonCodec) (Hc : codec_ok c) : Codec.
Proof.
  refine {| Codec.Decode := λ payload topic observed, (Decode c payload topic observed).2 |};
    intros payload topic t e He; destruct (decode_event c payload topic t e He Hc) as (? & ? & ? & [] & ?); first [done|by split].
Defined.
End decode.
