(* ===== verification/GoFormat.v ===== *)
(** * GoFormat: strconv.FormatInt in base ten, and that parsing undoes it *)
From Stdlib Require Import Ascii String.
From stdpp Require Import pretty strings.
From S2P Require Import Prelude GoBase GoStrings GoFloat GoTime JsonScan JsonGrammar.

(** strconv.FormatInt(n, 10), and FormatUint for an [n] that is not negative. *)
Definition FormatInt (n : Z) : string := pretty n.

Lemma digit_char x : (x < 10)%N → isDigit (pretty_N_char x) = true ∧ digit (pretty_N_char x) = Z.of_N x.
Proof.
  intros Hx. assert (x = 0 ∨ x = 1 ∨ x = 2 ∨ x = 3 ∨ x = 4 ∨ x = 5 ∨ x = 6 ∨ x = 7 ∨ x = 8 ∨ x = 9)%N as Hc by lia.
  by destruct_or! Hc; subst x.
Qed.

Lemma digits_value_cons c s acc :
  isDigit c = true → digits_value (String c s) acc = digits_value s (10 * acc + digit c).
Proof.
  unfold isDigit, in_range. intros [H1 H2]%andb_true_iff. cbn [digits_value]. unfold in_range, digit. cbv zeta.
  apply Z.leb_le in H1, H2. replace (_ && _) with true; [done|]. symmetry. apply andb_true_iff.
  split; apply Z.leb_le; lia.
Qed.

(** The printer puts the digits of [x] in front of [s]. *)
Lemma pretty_go_spec x s :
  (digits s = true → digits (pretty_N_go x s) = true)
  ∧ digits_value (pretty_N_go x s) 0 = digits_value s (Z.of_N x)
  ∧ ((0 < x)%N ∨ s ≠ "" → pretty_N_go x s ≠ "").
Proof.
  revert s. induction (N.lt_wf_0 x) as [x _ IH]; intros s. destruct (decide (x = 0)%N) as [->|Hx].
  { rewrite pretty_N_go_0. split_and!; [done|done|by intros [?|?]; [lia|]]. }
  rewrite pretty_N_go_step by lia. destruct (digit_char (x mod 10)) as [Hd Hv]; [apply N.mod_lt; lia|].
  destruct (IH (x / 10)%N (N.div_lt x 10 ltac:(lia) eq_refl) (String (pretty_N_char (x mod 10)) s)) as (H1 & H2 & H3).
  split_and!.
  - intros Hs. apply H1. cbn [digits]. by rewrite Hd, Hs.
  - rewrite H2, digits_value_cons, Hv by done. f_equal.
    pose proof (N.div_mod x 10 ltac:(lia)) as Hdm. rewrite Hdm at 3. rewrite N2Z.inj_add, N2Z.inj_mul. done.
  - intros _. apply H3. by right.
Qed.

(** A printed natural number is digits, and their value is the number. *)
Lemma pretty_N_spec (x : N) :
  digits (pretty x) = true ∧ pretty x ≠ "" ∧ digits_value (pretty x) 0 = Some (Z.of_N x).
Proof.
  unfold pretty, pretty_N. destruct (decide (x = 0)%N) as [->|Hx]; [done|].
  destruct (pretty_go_spec x "") as (H1 & H2 & H3). split_and!; [by apply H1|apply H3; left; lia|exact H2].
Qed.

(** A printed integer: its sign and its digits. *)
Lemma FormatInt_split n :
  ∃ ds, FormatInt n = (if n <? 0 then "-" else "") +:+ ds ∧ digits ds = true ∧ ds ≠ ""
    ∧ digits_value ds 0 = Some (Z.abs n).
Proof.
  destruct n as [|p|p].
  - by exists "0".
  - destruct (pretty_N_spec (Npos p)) as (Hd & Hne & Hv). by exists (pretty (Npos p)).
  - destruct (pretty_N_spec (Npos p)) as (Hd & Hne & Hv). by exists (pretty (Npos p)).
Qed.

Lemma digits_head c ds : digits (String c ds) = true → isDigit c = true.
Proof. cbn. by intros [? _]%andb_true_iff. Qed.

Lemma ParseInt_FormatInt n : is_i64 n → ParseInt (FormatInt n) = Some n.
Proof.
  intros Hn. destruct (FormatInt_split n) as (ds & -> & Hd & Hne & Hv). destruct ds as [|c ds]; [done|].
  pose proof (digits_head _ _ Hd) as Hc.
  assert ((min_i64 <=? n) && (n <=? max_i64) = true) as Hr by (unfold is_i64 in Hn; lia).
  unfold ParseInt. destruct (Z.ltb_spec n 0) as [Hneg|Hpos].
  - str_norm. rewrite Hv. replace (- Z.abs n) with n by lia. by rewrite Hr.
  - str_norm. assert (match String c ds with String "-" s' => (true, s') | String "+" s' => (false, s')
                      | _ => (false, String c ds) end = (false, String c ds)) as ->.
    { clear -Hc. destruct c as [[] [] [] [] [] [] [] []]; done. }
    rewrite Hv. replace (Z.abs n) with n by lia. by rewrite Hr.
Qed.

Lemma ParseUint_FormatInt n : is_u64 n → ParseUint (FormatInt n) = Some n.
Proof.
  intros [Hn Hm]. destruct (FormatInt_split n) as (ds & -> & Hd & Hne & Hv).
  destruct (Z.ltb_spec n 0); [lia|]. rewrite string_app_nil_l. unfold ParseUint. destruct ds as [|c ds]; [done|].
  rewrite Hv. cbn [mbind option_bind]. rewrite Z.abs_eq by done. by rewrite (proj2 (Z.leb_le _ _) Hm).
Qed.

Lemma FormatInt_number n : number (FormatInt n).
Proof.
  destruct (FormatInt_split n) as (ds & -> & Hd & Hne & _).
  exists (if n <? 0 then "-" else ""), ds, "", "". split_and!; try done; [by rewrite !string_app_nil_r| |by left|by left].
  destruct (n <? 0); auto.
Qed.

(** ** Durations in nanoseconds *)

Lemma gtb_false a b : (a >? b) = false ↔ a ≤ b.
Proof. rewrite Z.gtb_ltb. apply Z.ltb_ge. Qed.

Lemma digit_range c : isDigit c = true → 0 ≤ digit c ≤ 9.
Proof. unfold isDigit, in_range, digit. intros [H1 H2]%andb_true_iff. apply Z.leb_le in H1, H2. lia. Qed.

Lemma digits_value_ge s : ∀ acc v, digits s = true → 0 ≤ acc → digits_value s acc = Some v → acc ≤ v.
Proof.
  induction s as [|c s IH]; intros acc v Hd Ha Hv; [by injection Hv as <-|]. cbn [digits] in Hd.
  apply andb_true_iff in Hd as [Hc Hd]. rewrite digits_value_cons in Hv by done. pose proof (digit_range c Hc).
  assert (10 * acc + digit c ≤ v) by (eapply IH; [done|lia|done]). lia.
Qed.

(** leadingInt reads a run of digits whose value is an int64. *)
Lemma leadingInt_digits ds : ∀ acc v c rest, digits ds = true → 0 ≤ acc → digits_value ds acc = Some v →
  v ≤ max_i64 → isDigit c = false → leadingInt (ds +:+ String c rest) acc = Some (v, String c rest).
Proof.
  induction ds as [|a ds IH]; intros acc v c rest Hd Ha Hv Hm Hc.
  { injection Hv as <-. rewrite string_app_nil_l. cbn [leadingInt]. by rewrite Hc. }
  cbn [digits] in Hd. apply andb_true_iff in Hd as [Hda Hd]. rewrite string_app_cons. cbn [leadingInt].
  rewrite Hda. cbn [negb]. rewrite digits_value_cons in Hv by done. pose proof (digit_range a Hda) as Hr.
  assert (10 * acc + digit a ≤ v) as Hge by (eapply digits_value_ge; [done|lia|done]). unfold max_i64 in Hm.
  rewrite Z.gtb_ltb. destruct (Z.ltb_spec (two_63 / 10) acc) as [Ho|_].
  { change (two_63 / 10) with 922337203685477580 in Ho. lia. }
  rewrite u64_small by (unfold is_u64, max_u64; lia). replace (acc * 10 + digit a) with (10 * acc + digit a) by lia.
  rewrite Z.gtb_ltb. destruct (Z.ltb_spec two_63 (10 * acc + digit a)) as [Ho|_]; [unfold two_63 in Ho; lia|].
  by apply IH; [|lia| | |].
Qed.

Lemma ParseDuration_FormatInt d : 0 ≤ d ≤ max_i64 → ParseDuration (FormatInt d +:+ "ns") = Some d.
Proof.
  intros Hd. destruct (FormatInt_split d) as (ds & -> & Hds & Hne & Hv).
  destruct (Z.ltb_spec d 0); [lia|]. rewrite string_app_nil_l. rewrite Z.abs_eq in Hv by lia.
  pose proof (leadingInt_digits ds 0 d "n" "s" Hds ltac:(lia) Hv ltac:(lia) eq_refl) as Hl.
  destruct ds as [|c ds]; [done|]. pose proof (digits_head _ _ Hds) as Hc. unfold ParseDuration.
  rewrite string_app_cons in *.
  assert (match String c (ds +:+ "ns") with String "-" s' => (true, s') | String "+" s' => (false, s')
            | _ => (false, String c (ds +:+ "ns")) end = (false, String c (ds +:+ "ns"))) as ->.
  { clear -Hc. destruct c as [[] [] [] [] [] [] [] []]; done. }
  rewrite bool_decide_eq_false_2 by (intros [= _ Hx]; by destruct ds). rewrite bool_decide_eq_false_2 by done.
  cbn [String.length duration_terms]. unfold duration_term. rewrite Hc, orb_true_r. cbn [negb]. rewrite Hl.
  cbn [mbind option_bind]. assert ((String.length "ns" =? String.length (String c (ds +:+ "ns")))%nat = false) as ->.
  { apply Nat.eqb_neq. cbn [String.length]. rewrite string_length_app. cbn. lia. }
  change (span_unit "ns") with ("ns", ""). cbn [negb andb Ascii.eqb Bool.eqb].
  change (span_unit (String "n" "s")) with ("ns", ""). cbn [mbind option_bind]. unfold max_i64, two_63 in *.
  change (unitMap "ns") with (Some 1). cbn [mbind option_bind]. change (2 ^ 63 `div` 1) with (2 ^ 63).
  rewrite bool_decide_eq_false_2 by done. change (0 >? 0) with false. cbv beta iota.
  rewrite Z.mul_1_r, (u64_small d) by (unfold is_u64, max_u64; lia). rewrite (proj2 (gtb_false _ _)) by lia.
  cbn [mbind option_bind]. rewrite Z.add_0_l, (u64_small d) by (unfold is_u64, max_u64; lia).
  rewrite (proj2 (gtb_false _ _)) by lia.
  assert (∀ n d, duration_terms n "" d = Some d) as -> by (by intros []). cbn [mbind option_bind].
  by rewrite (proj2 (gtb_false _ _)) by lia.
Qed.

(** ** Trimming what has no space *)

(** Characters of ASCII that are seen, so that there is nothing to trim. *)
Fixpoint graphic (s : string) : bool :=
  match s with "" => true | String c s => (32 <? byte_of c) && (byte_of c <? 128) && graphic s end.

Lemma drop_while_none {A} (p : A → bool) l : Forall (λ x, p x = false) l → drop_while p l = l.
Proof. destruct 1 as [|x l Hx Hl]; [done|]. cbn. by rewrite Hx. Qed.

Lemma graphic_chunks s : graphic s = true →
  Forall (λ rc, IsSpace rc.1 = false) (rune_chunks s) ∧ concat_strings (snd <$> rune_chunks s) = s.
Proof.
  unfold rune_chunks. induction s as [|c s IH]; [done|]. cbn [graphic]. intros H. zbool. destruct IH as [I1 I2]; [done|].
  cbn [rune_chunks_from DecodeRune]. destruct (Z.ltb_spec (byte_of c) 128); [|lia].
  assert (string_take 1 (String c s) = String c "") as -> by (by destruct s). cbn [fmap list_fmap Nat.sub snd].
  split.
  - constructor; [|done]. cbn [fst]. unfold IsSpace, in_range.
    repeat match goal with |- context [?a <=? ?b] => destruct (Z.leb_spec a b); try lia
      | |- context [?a =? ?b] => destruct (Z.eqb_spec a b); try lia end; done.
  - change (concat_strings (String c "" :: (snd <$> rune_chunks_from s 0)))
      with (String c "" +:+ concat_strings (snd <$> rune_chunks_from s 0)). by rewrite I2.
Qed.

Lemma TrimSpace_graphic s : graphic s = true → TrimSpace s = s.
Proof.
  intros [H1 H2]%graphic_chunks. unfold TrimSpace. rewrite (drop_while_none _ _ H1).
  rewrite drop_while_none by by apply Forall_reverse. by rewrite reverse_involutive.
Qed.

Lemma graphic_app a b : graphic (a +:+ b) = graphic a && graphic b.
Proof. induction a as [|c a IH]; [done|]. rewrite string_app_cons. cbn [graphic]. by rewrite IH, andb_assoc. Qed.

Lemma digits_graphic ds : digits ds = true → graphic ds = true.
Proof.
  induction ds as [|c ds IH]; [done|]. cbn [digits graphic]. unfold isDigit, in_range. intros H. zbool.
  rewrite IH by done. destruct (Z.ltb_spec 32 (byte_of c)); [|lia]. by destruct (Z.ltb_spec (byte_of c) 128); [|lia].
Qed.

Lemma FormatInt_graphic n : graphic (FormatInt n) = true.
Proof.
  destruct (FormatInt_split n) as (ds & -> & Hd & _). rewrite graphic_app, (digits_graphic _ Hd). by destruct (n <? 0).
Qed.

Lemma FormatInt_nonempty n : FormatInt n ≠ "".
Proof. destruct (FormatInt_split n) as (ds & -> & Hd & Hne & _). destruct (n <? 0); by str_norm. Qed.
