(* ===== verification/JsonRound.v ===== *)
(** * JsonRound: decoding undoes encoding

    A canonical encoder, written for the specification: the ten fields under
    their default names, strings with the escapes JSON requires and every other
    byte as it is. The codec reads back exactly the event that was written,
    sequence numbers above 2^53 included. *)
From Stdlib Require Import Ascii String.
From stdpp Require Import pretty strings.
From S2P Require Import Prelude GoBase GoStrings GoFloat GoTime Event Projection Codec JsonScan JsonGrammar.
From S2P Require Import Json JsonDecode GoFormat.

(** ** The encoder *)

Definition hex_char (n : Z) : ascii := ascii_of (if n <? 10 then 48 + n else 87 + n).

Definition escape_char (c : ascii) : string :=
  if Ascii.eqb c quote || Ascii.eqb c backslash then String backslash (String c "")
  else if byte_of c <? 32 then
    String backslash (String "u" (String "0" (String "0"
      (String (hex_char (byte_of c / 16)) (String (hex_char (byte_of c mod 16)) "")))))
  else String c "".

Fixpoint escape (s : string) : string :=
  match s with "" => "" | String c s => escape_char c +:+ escape s end.

(** Whether any byte needs an escape. *)
Fixpoint has_escape (s : string) : bool :=
  match s with
  | "" => false
  | String c s => Ascii.eqb c quote || Ascii.eqb c backslash || (byte_of c <? 32) || has_escape s
  end.

(** A value as it is written: its text, its kind and whether it is a string with an escape. *)
Definition wire : Type := string * kind * bool.
Definition wire_string (s : string) : wire := (quoted (escape s), KString, has_escape s).
Definition wire_int (n : Z) : wire := (FormatInt n, KNumber, false).
Definition wire_null : wire := ("null", KNull, false).

Definition wire_field (e : Event.t) (f : field) : wire :=
  match f with
  | fieldPublisher => wire_string (Publisher e)
  | fieldEpoch => wire_int (Epoch e)
  | fieldSeq => wire_int (Seq e)
  | fieldTimestamp => if PublishedAt e =? zero_time then wire_null else wire_int (PublishedAt e)
  | fieldOp => wire_string (Op_String (EOp e))
  | fieldKey => wire_string (Event.Key e)
  | fieldMember => wire_string (Member e)
  | fieldValue => match EValue e with Some v => wire_string v | None => wire_null end
  | fieldTTL => match TTL e with Some d => wire_string (FormatInt d +:+ "ns") | None => wire_null end
  | fieldDelta => wire_int (Delta e)
  end.

Definition wire_member (e : Event.t) (entry : field * (string * string)) : member :=
  let '(text, k, esc) := wire_field e entry.1 in mkMember entry.2.2 false text k esc.

Fixpoint write_members (ms : list member) : string :=
  match ms with
  | [] => "}"
  | [m] => quoted (mname m) +:+ ":" +:+ mvalue m +:+ "}"
  | m :: ms => quoted (mname m) +:+ ":" +:+ mvalue m +:+ "," +:+ write_members ms
  end.

Definition encode (e : Event.t) : string := "{" +:+ write_members (wire_member e <$> configKeys).

(** ** Escapes *)

Lemma hex_nibble n : 0 ≤ n < 16 → hex_value (hex_char n) = Some n.
Proof.
  intros Hn. assert (n = 0 ∨ n = 1 ∨ n = 2 ∨ n = 3 ∨ n = 4 ∨ n = 5 ∨ n = 6 ∨ n = 7 ∨ n = 8 ∨ n = 9 ∨ n = 10
    ∨ n = 11 ∨ n = 12 ∨ n = 13 ∨ n = 14 ∨ n = 15) as Hc by lia.
  by destruct_or! Hc; subst n.
Qed.

Lemma byte_range c : 0 ≤ byte_of c < 256.
Proof. unfold byte_of. pose proof (Ascii.N_ascii_bounded c). lia. Qed.

Lemma ascii_byte c : ascii_of (byte_of c) = c.
Proof. unfold ascii_of, byte_of. by rewrite N2Z.id, ascii_N_embedding. Qed.

(** A control byte comes back from its escape. *)
Lemma control_escape c rest : byte_of c < 32 →
  decodeUnicodeEscape (String "0" (String "0"
    (String (hex_char (byte_of c / 16)) (String (hex_char (byte_of c mod 16)) rest))))
  = inr (byte_of c, rest) ∧ EncodeRune (byte_of c) = String c "".
Proof.
  intros Hc. pose proof (byte_range c) as Hb. split.
  - unfold decodeUnicodeEscape, hex4. cbn [hex_loop]. change (hex_value "0") with (Some 0). cbn [mbind sum_bind].
    rewrite hex_nibble by (split; [apply Z.div_pos; lia|apply Z.div_lt_upper_bound; lia]).
    rewrite hex_nibble by (apply Z.mod_pos_bound; lia). cbn [mbind sum_bind].
    assert (Z.lor (Z.shiftl (Z.lor (Z.shiftl (Z.lor (Z.shiftl (Z.lor (Z.shiftl 0 4) 0) 4) 0) 4) (byte_of c / 16)) 4)
      (byte_of c mod 16) = byte_of c) as ->.
    { assert (∃ n, (n < 32)%nat ∧ byte_of c = Z.of_nat n) as (n & Hn & ->) by (exists (Z.to_nat (byte_of c)); lia).
      do 32 (destruct n as [|n]; [done|]). lia. }
    unfold IsSurrogate. destruct (Z.leb_spec 55296 (byte_of c)); [lia|done].
  - unfold EncodeRune. destruct (Z.ltb_spec (byte_of c) 0); [lia|].
    rewrite Z.gtb_ltb. destruct (Z.ltb_spec 1114111 (byte_of c)); [lia|]. unfold in_range.
    destruct (Z.leb_spec 55296 (byte_of c)); [lia|]. cbn [orb andb].
    destruct (Z.ltb_spec (byte_of c) 128); [|lia]. by rewrite ascii_byte.
Qed.

Lemma escape_body s : string_body (escape s) (has_escape s).
Proof.
  induction s as [|c s IH]; [constructor|]. cbn [escape has_escape]. unfold escape_char.
  destruct (Ascii.eqb_spec c quote) as [->|Hq]; [str_norm; by econstructor|].
  destruct (Ascii.eqb_spec c backslash) as [->|Hb]; [str_norm; by econstructor|]. cbn [orb].
  destruct (Z.ltb_spec (byte_of c) 32) as [H32|H32]; cbn [orb]; str_norm; [|by constructor].
  pose proof (byte_range c) as Hr.
  assert (∃ n, (n < 32)%nat ∧ byte_of c = Z.of_nat n) as (n & Hn & ->) by (exists (Z.to_nat (byte_of c)); lia).
  apply (body_escape "u" _ (has_escape s)).
  do 32 (destruct n as [|n]; [by repeat (constructor; [done..|])|]). lia.
Qed.

(** The loop with any fuel that is enough. *)
Lemma unescape_loop_escape s : ∀ fuel, (String.length (escape s) ≤ fuel)%nat →
  unescape_loop fuel (escape s) = inr s.
Proof.
  induction s as [|c s IH]; intros fuel Hf; [by destruct fuel|]. cbn [escape] in *.
  rewrite string_length_app in Hf. unfold escape_char in *.
  destruct (Ascii.eqb_spec c quote) as [->|Hq]; [|destruct (Ascii.eqb_spec c backslash) as [->|Hb]]; cbn [orb] in *.
  1,2: str_norm; cbn in Hf; destruct fuel as [|fuel]; [lia|]; cbn [unescape_loop]; cbn;
    rewrite IH by lia; done.
  destruct (Z.ltb_spec (byte_of c) 32) as [H32|H32]; str_norm; cbn in Hf; (destruct fuel as [|fuel]; [lia|]);
    cbn [unescape_loop].
  - cbn [negb Ascii.eqb Bool.eqb]. destruct (control_escape c (escape s) H32) as [-> Hr].
    change (Ascii.eqb backslash backslash) with true. change (Ascii.eqb "u" "u") with true. cbn [negb mbind sum_bind].
    rewrite IH by lia. cbn [mbind sum_bind]. by rewrite Hr.
  - rewrite (proj2 (Ascii.eqb_neq _ _) Hb). cbn [negb]. by rewrite IH by lia.
Qed.

Lemma unescape_escape s : unescape (escape s) = inr s.
Proof. by apply unescape_loop_escape. Qed.

Lemma escape_plain s : has_escape s = false → escape s = s.
Proof.
  induction s as [|c s IH]; [done|]. cbn [escape has_escape]. unfold escape_char. intros Hs. zbool.
  destruct (Ascii.eqb c quote), (Ascii.eqb c backslash), (Z.ltb_spec (byte_of c) 32); try done; try lia.
  str_norm. by rewrite IH.
Qed.

(** ** What is written is a document *)

Definition well_written (D : Z) (m : member) : Prop :=
  string_body (mname m) (mescaped m) ∧ value D 0 (mvalue m) (mkind m) (mvescaped m).

Lemma write_members_document D ms :
  ms ≠ [] → Forall (well_written D) ms → document_members D (write_members ms) ms.
Proof.
  intros Hne Hall. induction ms as [|[b e v k esc] ms IH]; [done|]. inversion Hall as [|? ? [Hb Hv] Hall']; subst.
  cbn [mname mescaped mvalue mkind mvescaped] in Hb, Hv. destruct ms as [|m ms].
  - pose proof (document_last D "" b e "" "" v k esc "" "" eq_refl Hb eq_refl eq_refl Hv eq_refl eq_refl) as Hd.
    rewrite !string_app_nil_l, ?string_app_nil_r in Hd. exact Hd.
  - pose proof (document_more D "" b e "" "" v k esc "" (write_members (m :: ms)) (m :: ms)
      eq_refl Hb eq_refl eq_refl Hv eq_refl (IH ltac:(done) Hall')) as Hd.
    rewrite !string_app_nil_l in Hd. exact Hd.
Qed.

Lemma plain_body s : has_escape s = false → string_body s false.
Proof. intros Hs. rewrite <- (escape_plain s Hs), <- Hs. apply escape_body. Qed.

Lemma wire_value D e f : 0 ≤ D → let '(text, k, esc) := wire_field e f in value D 0 text k esc.
Proof.
  intros HD. assert (value D 0 "null" KNull false) as Hnull by (constructor; [done|set_solver]).
  assert (∀ s, value D 0 (quoted (escape s)) KString (has_escape s)) as Hs by (constructor; [done|apply escape_body]).
  assert (∀ n, value D 0 (FormatInt n) KNumber false) as Hn by (constructor; [done|apply FormatInt_number]).
  destruct f; try exact (Hs _); try exact (Hn _); unfold wire_field.
  - destruct (PublishedAt e =? zero_time); [exact Hnull|exact (Hn _)].
  - destruct (EValue e); [exact (Hs _)|exact Hnull].
  - destruct (TTL e); [exact (Hs _)|exact Hnull].
Qed.

Lemma encode_document D e : 0 ≤ D → document D (encode e) (wire_member e <$> configKeys).
Proof.
  intros HD. unfold encode. rewrite <- (string_app_nil_l ("{" +:+ _)). apply document_some; [done|].
  apply write_members_document; [done|]. apply Forall_forall. intros m (en & -> & Hen)%list_elem_of_fmap.
  unfold wire_member. pose proof (wire_value D e en.1 HD) as Hv. destruct (wire_field e en.1) as [[text k] esc].
  split; [|exact Hv]. apply plain_body. cbn [mname].
  repeat (apply elem_of_cons in Hen as [->|Hen]; [done|]). by apply elem_of_nil in Hen.
Qed.

(** ** Conversions undo the encoder *)

Definition wire_capture (w : wire) : capture := let '(text, k, esc) := w in mkCapture text k esc true.

Lemma inner_quoted b : inner (quoted b) = b.
Proof.
  unfold inner, slice, quoted. cbn [String.length string_drop]. rewrite string_length_app. cbn [String.length].
  replace (S (String.length b + 1) - 1 - 1)%nat with (String.length b) by lia.
  apply string_take_app.
Qed.

Lemma json_string_wire s : json_string (wire_capture (wire_string s)) = inr s.
Proof.
  unfold json_string. cbn [wire_capture wire_string present cseen ckind cescape craw andb negb]. rewrite inner_quoted.
  destruct (has_escape s) eqn:Hs; cbn [negb]; [apply unescape_escape|by rewrite escape_plain].
Qed.

Lemma digits_no_float ds : digits ds = true → isFloatLiteral ds = false.
Proof.
  induction ds as [|c ds IH]; [done|]. cbn [digits isFloatLiteral]. intros [Hc Hd]%andb_true_iff.
  rewrite IH by done. destruct (Ascii.eqb_spec c ".") as [->|_]; [done|].
  destruct (Ascii.eqb_spec c "e") as [->|_]; [done|]. by destruct (Ascii.eqb_spec c "E") as [->|_].
Qed.

Lemma FormatInt_no_float n : isFloatLiteral (FormatInt n) = false.
Proof.
  destruct (FormatInt_split n) as (ds & -> & Hd & _ & _). destruct (n <? 0); str_norm; [cbn|]; by apply digits_no_float.
Qed.

Lemma json_uint_wire n : is_u64 n → json_uint (wire_capture (wire_int n)) = inr n.
Proof.
  intros Hn. unfold json_uint, number_text. cbn [wire_capture wire_int present cseen ckind craw andb negb].
  rewrite FormatInt_no_float. cbn. by rewrite ParseUint_FormatInt.
Qed.

Lemma json_int_wire n : is_i64 n → json_int (wire_capture (wire_int n)) = inr n.
Proof.
  intros Hn. unfold json_int, number_text. cbn [wire_capture wire_int present cseen ckind craw andb negb].
  rewrite FormatInt_no_float. cbn. by rewrite ParseInt_FormatInt.
Qed.

(** The times the codec reads back: none, and instants it takes for nanoseconds. *)
Definition readable_time (t : Time) : Prop :=
  t = zero_time ∨ unixMillisCeiling ≤ Z.abs t ∧ min_i64 < t ≤ max_i64.

Lemma timestamp_wire e : readable_time (PublishedAt e) →
  timestamp (wire_capture (wire_field e fieldTimestamp)) = inr (PublishedAt e).
Proof.
  intros Ht. cbn [wire_field]. destruct (Z.eqb_spec (PublishedAt e) zero_time) as [->|Hne]; [done|].
  destruct Ht as [?|[Hm Hr]]; [done|]. unfold timestamp.
  cbn [wire_capture wire_int present cseen ckind craw andb negb]. rewrite FormatInt_no_float. cbn.
  rewrite ParseInt_FormatInt by (unfold is_i64; lia). cbn. f_equal. unfold unixTimestamp.
  destruct (Z.eqb_spec (PublishedAt e) 0) as [H0|H0]; [rewrite H0 in Hm; done|].
  assert ((if PublishedAt e <? 0 then i64 (- PublishedAt e) else PublishedAt e) = Z.abs (PublishedAt e)) as ->.
  { destruct (Z.ltb_spec (PublishedAt e) 0); [|lia]. rewrite i64_small; [lia|].
    unfold is_i64, min_i64, max_i64 in *. lia. }
  unfold unixSecondsCeiling, unixMillisCeiling in *.
  destruct (Z.ltb_spec (Z.abs (PublishedAt e)) (10 ^ 11)); [lia|].
  by destruct (Z.ltb_spec (Z.abs (PublishedAt e)) (10 ^ 14)); [lia|].
Qed.

Lemma json_bytes_wire e : json_bytes (wire_capture (wire_field e fieldValue)) = inr (EValue e).
Proof.
  cbn [wire_field]. destruct (EValue e) as [v|]; [|done]. pose proof (json_string_wire v) as Hs.
  unfold json_bytes. cbn [wire_capture wire_string present cseen ckind andb negb] in *. by rewrite Hs.
Qed.

Lemma boundedString_wire c s : Z.of_nat (String.length (escape s)) ≤ maxKeyBytes c →
  boundedString c (wire_capture (wire_string s)) = inr s.
Proof.
  intros Hl. pose proof (json_string_wire s) as Hs. unfold boundedString. rewrite Hs.
  assert (String.length (quoted (escape s)) = (String.length (escape s) + 2)%nat) as Hq.
  { unfold quoted. cbn. rewrite string_length_app. cbn. lia. }
  assert (String.length s ≤ String.length (escape s))%nat as Hle.
  { clear. induction s as [|c s IH]; [done|]. cbn [escape]. rewrite string_length_app. unfold escape_char.
    repeat case_match; cbn; lia. }
  cbn [wire_capture wire_string craw present cseen ckind andb negb]. rewrite Hq.
  rewrite !Z.gtb_ltb. destruct (Z.ltb_spec (maxKeyBytes c) (Z.of_nat (String.length (escape s) + 2) - 2)); [lia|].
  cbn. rewrite Z.gtb_ltb. by destruct (Z.ltb_spec (maxKeyBytes c) (Z.of_nat (String.length s))); [lia|].
Qed.

Lemma ttl_wire `{FloatOverflow} e : (∀ d, TTL e = Some d → 0 ≤ d ≤ max_i64) →
  json_ttl (wire_capture (wire_field e fieldTTL)) = inr (TTL e).
Proof.
  cbn [wire_field]. intros Hd. destruct (TTL e) as [d|]; [|done]. specialize (Hd d eq_refl).
  pose proof (json_string_wire (FormatInt d +:+ "ns")) as Hs. unfold json_ttl.
  cbn [wire_capture wire_string present cseen ckind andb negb] in *. rewrite Hs. cbn.
  by rewrite ParseDuration_FormatInt.
Qed.

Lemma op_wire `{UnicodeTables} c e : opMap c = ∅ → opNames c = builtinOpNames → EOp e ∈ named_ops →
  resolveOp c (wire_capture (wire_field e fieldOp)) = inr (EOp e).
Proof.
  intros Hm Hn Ho. unfold resolveOp. rewrite Hm, Hn. cbn [wire_field].
  repeat (apply elem_of_cons in Ho as [->|Ho]; [reflexivity|]). by apply elem_of_nil in Ho.
Qed.

(** ** The members reach their fields *)

(** Every field under its default name. *)
Definition default_names : gmap string (list field) :=
  list_to_map ((λ en : field * (string * string), (en.2.2, [en.1])) <$> configKeys).

Lemma captured_wire c e f : names c = default_names →
  captured c (wire_member e <$> configKeys) f = wire_capture (wire_field e f).
Proof.
  intros Hn. unfold captured.
  assert (∀ g en, en ∈ configKeys → feeds c g (wire_member e en) = bool_decide (g = en.1)) as Hf.
  { intros g en Hen. unfold feeds, wire_member. destruct (wire_field e en.1) as [[text k] esc].
    cbn [mname mescaped]. unfold lookup. cbn [negb]. rewrite Hn.
    repeat (apply elem_of_cons in Hen as [->|Hen]; [by destruct g|]). by apply elem_of_nil in Hen. }
  assert (List.filter (feeds c f) (wire_member e <$> configKeys)
          = wire_member e <$> List.filter (λ en, bool_decide (f = en.1)) configKeys) as ->.
  { revert Hf. generalize configKeys as l. induction l as [|en l IH]; intros Hf; [done|].
    cbn [fmap list_fmap List.filter]. rewrite Hf by by left. destruct (bool_decide _); cbn [fmap list_fmap];
      (rewrite IH by by intros; apply Hf; right); done. }
  destruct f; cbn [List.filter configKeys fst]; repeat first
    [rewrite bool_decide_eq_true_2 by done|rewrite bool_decide_eq_false_2 by done]; cbn [fmap list_fmap last];
    unfold wire_member; cbn [fst snd]; destruct (wire_field e _) as [[text k] esc]; reflexivity.
Qed.

(** ** The round trip *)

Section round_trip.
Context {U : UnicodeTables} {F : FloatOverflow}.

(** Events that have a text: nothing outside the ranges of their types, an operation with a name, a time
    that is read as nanoseconds, no raw payload, and strings within the codec's bounds. *)
Record writable (c : jsonCodec) (e : Event.t) : Prop := mk_writable {
  wr_valid : Validate e = None;
  wr_seq : is_u64 (Seq e);
  wr_epoch : is_u64 (Epoch e);
  wr_delta : is_i64 (Delta e);
  wr_time : readable_time (PublishedAt e);
  wr_ttl : ∀ d, TTL e = Some d → d ≤ max_i64;
  wr_raw : Raw e = None;
  wr_key : Z.of_nat (String.length (escape (Event.Key e))) ≤ maxKeyBytes c;
  wr_member : Z.of_nat (String.length (escape (Member e))) ≤ maxKeyBytes c;
  wr_length : Z.of_nat (String.length (encode e)) ≤ maxPayloadBytes c
}.

(** A codec with the default field names and operations that keeps no raw payloads. *)
Record plain_codec (c : jsonCodec) : Prop := mk_plain_codec {
  pc_names : names c = default_names;
  pc_opMap : opMap c = ∅;
  pc_opNames : opNames c = builtinOpNames;
  pc_raw : retainRaw c = false;
  pc_depth : 0 ≤ maxDepth c
}.

Lemma assign_wire c ms e : plain_codec c → codec_ok c → writable c e →
  (∀ f, ms f = wire_capture (wire_field e f)) →
  (assign c ms (blank (ObservedAt e) (Topic e))).2 = inr e ∧ retainRaw (assign c ms (blank (ObservedAt e) (Topic e))).1 = false.
Proof.
  intros [] [Hp _] [] Hms. destruct (valid_named e wr_valid0) as [Hop Httl]. unfold assign. rewrite !Hms.
  rewrite op_wire by done.
  pose proof (internedString_spec _ (wire_capture (wire_field e fieldPublisher)) Hp) as Hi.
  destruct (internedString _ _) as [i pub]. destruct Hi as (-> & _ & _). cbn [snd fst]. split; [|done].
  rewrite timestamp_wire, json_bytes_wire, ttl_wire by (first [done|intros d Hd; split; eauto]).
  cbn [wire_field]. rewrite json_string_wire, !json_uint_wire, !boundedString_wire, json_int_wire by done.
  cbn. destruct e. cbn in *. by subst.
Qed.

Lemma json_reads_back c e : plain_codec c → codec_ok c → writable c e →
  (Decode c (encode e) (Topic e) (ObservedAt e)).2 = inr e.
Proof.
  intros Hp Hc Hw. unfold Decode, Decode_fuel. rewrite (proj2 (gtb_false _ _) (wr_length _ _ Hw)).
  pose proof (intern_get_spec (topics c) (Topic e) (co_topics _ Hc)) as Hi.
  destruct (intern_get (topics c) (Topic e)) as [i tp]. cbn [fst snd] in Hi. destruct Hi as (-> & Hi & _).
  assert (plain_codec (set_topics c i)) as Hp' by (by destruct Hp).
  assert (codec_ok (set_topics c i)) as Hc' by (destruct Hc; by constructor).
  assert (writable (set_topics c i) e) as Hw' by (by destruct Hw).
  assert (scan (set_topics c i) (encode e) = Some (inr (foldl (record_member (set_topics c i)) no_captures
    (wire_member e <$> configKeys)))) as ->.
  { apply scan_spec. eexists. split; [|done]. apply encode_document. apply (pc_depth _ Hp'). }
  destruct (assign_wire (set_topics c i) (foldl (record_member (set_topics c i)) no_captures
    (wire_member e <$> configKeys)) e Hp' Hc' Hw') as [Ha Hr].
  { intros f. rewrite captured_foldl. apply captured_wire, Hp'. }
  destruct (assign _ _ _) as [d res]. cbn [fst snd] in Ha, Hr. subst res. cbn [default snd mbind sum_bind].
  rewrite Hr. cbv zeta. by rewrite (wr_valid _ _ Hw).
Qed.

(** C12: decoding undoes encoding: the codec reads back exactly the event the canonical encoder wrote,
    whatever bytes its strings hold and with its sequence numbers and its epoch at full width; quotes,
    backslashes and control bytes go through their escapes. *)
Theorem decode_encode c e : plain_codec c → codec_ok c → writable c e →
  (Decode c (encode e) (Topic e) (ObservedAt e)).2 = inr e.
Proof. apply json_reads_back. Qed.
End round_trip.
