(* ===== verification/JsonTime.v ===== *)
(** * JsonTime: the fast path for timestamps agrees with the standard library

    What the codec's own RFC3339 reader takes, time.Parse takes as well and reads
    as the same instant, except for offsets time.Parse refuses. The argument goes
    through the calendar: the day the codec rebuilds exists. *)
From Stdlib Require Import Ascii String.
From stdpp Require Import strings.
From S2P Require Import Prelude GoBase GoStrings GoFloat GoTime Event Projection Codec JsonScan Json.

(** Linear arithmetic with division by constants. *)
Ltac div_lia := Z.to_euclidean_division_equations; lia.

(** ** The calendar *)

(** The year of the era and the day of the year; only a leap year has day 365. *)
Lemma day_of_year doe yoe :
  0 ≤ doe < 146097 → yoe = (doe - doe / 1460 + doe / 36524 - doe / 146096) / 365 →
  let doy := doe - (365 * yoe + yoe / 4 - yoe / 100) in
  0 ≤ yoe < 400 ∧ 0 ≤ doy ≤ 365
  ∧ (doy = 365 → (yoe + 1) mod 4 = 0 ∧ ((yoe + 1) mod 100 = 0 → yoe = 399)).
Proof.
  intros Hd Hyo doy. assert (doe = 146096 ∨ doe < 146096) as [->|Hlt] by lia.
  { change ((146096 - 146096 / 1460 + 146096 / 36524 - 146096 / 146096) / 365) with 399 in Hyo. by subst yoe. }
  assert (doe / 36524 = 0 ∨ doe / 36524 = 1 ∨ doe / 36524 = 2 ∨ doe / 36524 = 3) as Hb by div_lia.
  assert (doe / 146096 = 0) as He by div_lia. rewrite He in Hyo.
  assert (0 ≤ yoe < 400) as Hy by (destruct_or! Hb; rewrite Hb in Hyo; div_lia). split; [done|].
  assert (yoe / 100 = 0 ∨ yoe / 100 = 1 ∨ yoe / 100 = 2 ∨ yoe / 100 = 3) as Hc by div_lia.
  subst doy. destruct_or! Hb; rewrite Hb in Hyo; (destruct_or! Hc; rewrite Hc; (split; [div_lia|intros; div_lia])).
Qed.

Lemma isLeap_era y k : isLeap (y + k * 400) = isLeap y.
Proof.
  unfold isLeap. rewrite Z.mod_add by done. replace (k * 400) with (k * 4 * 100) by lia. rewrite Z.mod_add by done.
  replace (k * 4 * 100) with (k * 100 * 4) by lia. by rewrite Z.mod_add.
Qed.

(** The day of the civil calendar is one. *)
Lemma civil_valid days y m d : civil_from_days days = (y, m, d) → 1 ≤ m ≤ 12 ∧ 1 ≤ d ≤ daysIn m y.
Proof.
  unfold civil_from_days. pose proof (Z.mod_pos_bound (days + 719468) 146097 ltac:(lia)) as Hd.
  set (doe := (days + 719468) mod 146097) in *. unfold civil_of_doe.
  set (yoe := (doe - doe / 1460 + doe / 36524 - doe / 146096) / 365).
  destruct (day_of_year doe yoe Hd eq_refl) as (Hy & Hr & Hl). set (doy := doe - (365 * yoe + yoe / 4 - yoe / 100)) in *.
  clearbody doy. cbv zeta. intros [= <- <- <-]. set (mp := (5 * doy + 2) / 153).
  assert (mp = 0 ∨ mp = 1 ∨ mp = 2 ∨ mp = 3 ∨ mp = 4 ∨ mp = 5 ∨ mp = 6 ∨ mp = 7 ∨ mp = 8 ∨ mp = 9 ∨ mp = 10 ∨ mp = 11)
    as Hm by (subst mp; clear -Hr; div_lia).
  destruct_or! Hm; assert ((5 * doy + 2) / 153 = mp) as Hmp by done; rewrite Hm in Hmp |- *; clear Hm; cbn.
  all: split; [lia|].
  12: { change (11 - 9 <=? 2) with true. change (daysIn (11 - 9)) with (λ y, if isLeap y then 29 else 28).
    cbv beta iota. rewrite isLeap_era. unfold isLeap. destruct (Z.eqb_spec doy 365) as [->|Hne].
    - destruct (Hl eq_refl) as [-> H100]. destruct (Z.eqb_spec ((yoe + 1) mod 100) 0) as [H0|]; [|done].
      by rewrite (H100 H0).
    - clear -Hmp Hr Hne. case_match; div_lia. }
  all: clear -Hmp Hr; unfold daysIn; repeat match goal with
    | |- context [?a =? ?b] => let v := eval vm_compute in (a =? b) in change (a =? b) with v end; cbn [orb]; clear doe yoe; div_lia.
Qed.

(** Fields that come back from an instant are those of a day and a time of day. *)
Lemma fields_valid t offset y m d hh mm ss : time_fields t offset = (y, m, d, hh, mm, ss) →
  1 ≤ m ≤ 12 ∧ 1 ≤ d ≤ daysIn m y ∧ 0 ≤ hh ≤ 23 ∧ 0 ≤ mm ≤ 59 ∧ 0 ≤ ss ≤ 59.
Proof.
  unfold time_fields. destruct (civil_from_days _) as [[y' m'] d'] eqn:Hc. apply civil_valid in Hc.
  intros [= <- <- <- <- <- <-]. generalize (t / 10 ^ 9 + offset) as s. intros s.
  split_and!; try apply Hc; div_lia.
Qed.

(** ** Digits *)

Lemma atoiN_2 a b n : atoiN (String a (String b "")) = Some n →
  isDigit a = true ∧ isDigit b = true ∧ n = digit a * 10 + digit b.
Proof.
  unfold atoiN. cbn [atoiN_loop]. destruct (isDigit a); [|done]. destruct (isDigit b); [|done].
  intros [= <-]. split_and!; [done|done|lia].
Qed.

Lemma atoiN_4 a b c d n : atoiN (String a (String b (String c (String d "")))) = Some n →
  isDigit a = true ∧ isDigit b = true ∧ isDigit c = true ∧ isDigit d = true
  ∧ n = digit a * 1000 + digit b * 100 + digit c * 10 + digit d.
Proof.
  unfold atoiN. cbn [atoiN_loop]. destruct (isDigit a); [|done]. destruct (isDigit b); [|done].
  destruct (isDigit c); [|done]. destruct (isDigit d); [|done]. intros [= <-]. split_and!; try done. lia.
Qed.

Lemma byte_at_cons i c a s : byte_at (S i) c (String a s) = byte_at i c s.
Proof. done. Qed.
Lemma byte_at_head c a s : byte_at 0 c (String a s) = Ascii.eqb a c.
Proof.
  unfold byte_at. cbn. destruct (Ascii.eqb_spec a c) as [->|Hne]; [by apply bool_decide_eq_true_2|].
  apply bool_decide_eq_false_2. by intros [= ?].
Qed.

(** ** The two readers *)

(** The offset, if there is one, has at most 24 hours and 60 minutes. *)
Definition zone_in_range (zone : string) : bool :=
  match zone with
  | String _ (String a (String b (String _ (String c (String d ""))))) =>
      (digit a * 10 + digit b <=? 24) && (digit c * 10 + digit d <=? 60)
  | _ => true
  end.

(** What the fraction leaves: the zone. *)
Definition zone_of (b : string) : string := (parse_fraction (string_drop 19 b)).2.

Lemma fraction_agrees s nanos rest : rfc3339_fraction s = Some (nanos, rest) → is_Some (rfc3339_zone rest) →
  parse_fraction s = (nanos, rest).
Proof.
  destruct s as [|c s]; [by intros [= <- <-]|]. destruct (Ascii.eqb_spec c ".") as [->|Hc].
  - cbn [rfc3339_fraction parse_fraction]. destruct (span_digits s) as [ds r]. case_bool_decide; [done|].
    by intros [= <- <-].
  - assert (rfc3339_fraction (String c s) = Some (0, String c s)) as ->.
    { clear -Hc. destruct c as [[] [] [] [] [] [] [] []]; done. }
    intros [= <- <-] [off Hz]. unfold rfc3339_zone in Hz. cbn [parse_fraction]. destruct (span_digits s) as [ds r].
    unfold commaOrPeriod. rewrite (proj2 (Ascii.eqb_neq _ _) Hc). destruct (Ascii.eqb_spec c ",") as [->|]; done.
Qed.

Lemma zone_agrees s off : rfc3339_zone s = Some off →
  parse_zone s = if zone_in_range s then Some (off, "") else None.
Proof.
  destruct s as [|c s]; [done|]. unfold rfc3339_zone, parse_zone. destruct (Ascii.eqb_spec c "Z") as [->|Hz].
  { destruct s; [|done]. by intros [= <-]. }
  destruct (Ascii.eqb c "+" || Ascii.eqb c "-") eqn:Hs; [|done].
  destruct (String.length (String c s) =? 6)%nat eqn:Hl; [|done]. apply Nat.eqb_eq in Hl.
  do 5 (destruct s as [|? s]; [done|]). destruct s as [|? s]; [|done]. rewrite !byte_at_cons, byte_at_head.
  destruct (Ascii.eqb_spec a1 ":") as [->|]; [|done]. cbn [negb orb slice string_take string_drop Nat.sub].
  destruct (atoiN (String a (String a0 ""))) as [h|] eqn:Hh; cbn [mbind option_bind]; [|done]. apply atoiN_2 in Hh as (Ha & Ha0 & ->).
  cbn [mbind option_bind]. destruct (atoiN _) as [m|] eqn:Hm; cbn [mbind option_bind]; [|done]. apply atoiN_2 in Hm as (Ha2 & Ha3 & ->).
  cbn [mbind option_bind getnum_fixed]. rewrite Ha, Ha0. cbn [andb mbind option_bind skip_byte]. rewrite Ascii.eqb_refl.
  cbn [mbind option_bind getnum_fixed]. rewrite Ha2, Ha3. cbn [andb mbind option_bind zone_in_range].
  intros [= <-]. rewrite !Z.gtb_ltb, !Z.ltb_antisym, <- negb_andb.
  destruct (_ && _); cbn [negb]; [|done]. destruct (Ascii.eqb_spec c "+") as [->|]; cbn in Hs |- *.
  - f_equal. f_equal. lia.
  - rewrite Hs. f_equal. f_equal. lia.
Qed.

Lemma skip_same c s : skip_byte c (String c s) = Some s.
Proof. cbn. by rewrite Ascii.eqb_refl. Qed.

Lemma two_digits_fixed a b s : isDigit a = true → isDigit b = true →
  getnum_fixed (String a (String b s)) = Some (digit a * 10 + digit b, s).
Proof. intros Ha Hb. cbn. by rewrite Ha, Hb. Qed.

Lemma two_digits a b s : isDigit a = true → isDigit b = true →
  getnum (String a (String b s)) = Some (digit a * 10 + digit b, s).
Proof. intros Ha Hb. cbn. by rewrite Ha, Hb. Qed.

Lemma in_bounds_ok lo hi n : lo ≤ n ≤ hi → in_bounds lo hi n = Some ().
Proof. intros [H1 H2]. unfold in_bounds. by rewrite (proj2 (Z.leb_le _ _) H1), (proj2 (Z.leb_le _ _) H2). Qed.

(** One step of the parser on digits and separators that are there. *)
Ltac parse_step := repeat (first
  [rewrite skip_same|rewrite two_digits_fixed by assumption|rewrite two_digits by assumption
  |rewrite in_bounds_ok by assumption | progress cbn [mbind option_bind]]).

(** C16: the fast path for timestamps is the standard library's parser: what it takes, time.Parse takes
    and reads as the same instant, leap days, fractions of any length and every offset included; the
    one exception is an offset of more than 24 hours or 60 minutes, which time.Parse refuses and the
    fast path adds up. *)
Theorem fast_timestamp_agrees b t : parseRFC3339 b = Some t →
  time_Parse b = if zone_in_range (zone_of b) then Some t else None.
Proof.
  unfold parseRFC3339, zone_of. do 20 (destruct b as [|? b]; [done|]). cbn [String.length Nat.ltb Nat.leb orb].
  rewrite !byte_at_cons, !byte_at_head. destruct (_ || _) eqn:Hshape; [done|].
  rewrite !orb_false_iff, !negb_false_iff, !Ascii.eqb_eq in Hshape. destruct_and! Hshape. subst.
  cbn [string_drop]. generalize (String a18 b) as rest. intros rest.
  unfold slice. cbn [Nat.sub string_take string_drop].
  intros (year & (Ya & Yb & Yc & Yd & ->)%atoiN_4 & H)%bind_Some.
  apply bind_Some in H as (month & (Ma & Mb & ->)%atoiN_2 & H).
  apply bind_Some in H as (day & (Da & Db & ->)%atoiN_2 & H).
  apply bind_Some in H as (hour & (Ha & Hb & ->)%atoiN_2 & H).
  apply bind_Some in H as (min & (Na & Nb & ->)%atoiN_2 & H).
  apply bind_Some in H as (sec & (Sa & Sb & ->)%atoiN_2 & H).
  apply bind_Some in H as ([nanos zone] & Hf & H). apply bind_Some in H as (off & Hz & H).
  rewrite (fraction_agrees _ _ _ Hf (mk_is_Some _ _ Hz)). cbn [snd].
  case_bool_decide as Hv; [|done]. injection H as <-.
  apply fields_valid in Hv as (Vm & Vd & Vh & Vn & Vs).
  unfold time_Parse. cbn [parse_year]. rewrite Ya, Yb, Yc, Yd. cbn [andb]. parse_step.
  rewrite (fraction_agrees _ _ _ Hf (mk_is_Some _ _ Hz)), (zone_agrees _ _ Hz).
  destruct (zone_in_range zone); [|done]. parse_step. rewrite bool_decide_eq_true_2 by done. cbn [negb].
  by parse_step.
Qed.
