(* ===== verification/FloatFormat.v ===== *)
(** * FloatFormat: strconv.FormatFloat(f, 'g', -1, bits)

    The shortest decimal that rounds back to the value, the closest one where
    there are several, laid out as %g does. [prec] and [emax] are 53 and 1024 for
    float64, 24 and 128 for float32. *)
From Stdlib Require Import Ascii String.
From stdpp Require Import pretty strings.
From S2P Require Import Prelude GoBase GoStrings GoFloat GoTime.

Section format.
Context (prec emax : Z).

(** The value nearest to [n / d]. *)
Definition round_ratio (n d : positive) : spec_float :=
  let '(q, e, loc) := SFdiv_core_binary prec emax (Zpos n) 0 (Zpos d) 0 in
  binary_round_aux prec emax false q e loc.

(** [10 ^ k] as a numerator and a denominator. *)
Definition power_of_ten (k : Z) : Z * Z := if 0 <=? k then (10 ^ k, 1) else (1, 10 ^ (- k)).

(** Whether [c * 10 ^ k] rounds to [m * 2 ^ e]. *)
Definition rounds_to (c k : Z) (m : positive) (e : Z) : bool :=
  let '(a, b) := power_of_ten k in
  match c with
  | Zpos _ =>
      match round_ratio (Z.to_pos (c * a)) (Z.to_pos b) with
      | S754_finite _ m' e' => (Zpos m' =? Zpos m) && (e' =? e)
      | _ => false
      end
  | _ => false
  end.

(** The smallest [dp] from a start on with [n / d < 10 ^ dp]. *)
Fixpoint point_from (fuel : nat) (n d dp : Z) : Z :=
  match fuel with
  | O => dp
  | S fuel => let '(a, b) := power_of_ten dp in if n * b <? a * d then dp else point_from fuel n d (dp + 1)
  end.

(** The place of the decimal point before the first digit: log10 2 is between 0.30102 and 0.30103. *)
Definition decimal_point (n d : Z) : Z := point_from 8 n d ((Z.log2 n - Z.log2 d) * 30103 / 100000 - 2).

(** The decimals of [nd] digits next to the value, the closest first choice, ties to the even one. *)
Fixpoint shortest_from (fuel : nat) (nd n d dp : Z) (m : positive) (e : Z) : Z * Z :=
  let k := dp - nd in
  let '(a, b) := power_of_ten k in
  let lo := n * b / (d * a) in
  let rest := 2 * (n * b - lo * (d * a)) in
  let up := (d * a <? rest) || (d * a =? rest) && Z.odd lo in
  let first := if up then lo + 1 else lo in
  let second := if up then lo else lo + 1 in
  if rounds_to first k m e then (first, k)
  else if rounds_to second k m e then (second, k)
  else match fuel with
       | O => (first, k)
       | S fuel => shortest_from fuel (nd + 1) n d dp m e
       end.

(** Trailing zeros moved into the exponent. *)
Fixpoint strip_zeros (fuel : nat) (c k : Z) : Z * Z :=
  match fuel with
  | O => (c, k)
  | S fuel => if (c mod 10 =? 0) && (0 <? c) then strip_zeros fuel (c / 10) (k + 1) else (c, k)
  end.

(** The shortest decimal [c * 10 ^ k] of [m * 2 ^ e]: seventeen digits are always enough. *)
Definition shortest (m : positive) (e : Z) : Z * Z :=
  let n := Zpos m * 2 ^ Z.max 0 e in
  let d := 2 ^ Z.max 0 (- e) in
  let '(c, k) := shortest_from 17 1 n d (decimal_point n d) m e in
  strip_zeros 20 c k.

Fixpoint zeros (n : nat) : string := match n with O => "" | S n => String "0" (zeros n) end.

(** %e: at least two digits of exponent. *)
Definition fmtE (digits : string) (exp : Z) : string :=
  let head := string_take 1 digits in
  let tail := string_drop 1 digits in
  let e := pretty (Z.abs exp) in
  head +:+ (if bool_decide (tail = "") then "" else "." +:+ tail) +:+ "e" +:+ (if exp <? 0 then "-" else "+")
    +:+ (if (String.length e <? 2)%nat then "0" +:+ e else e).

(** %f with the digits there are. *)
Definition fmtF (digits : string) (dp : Z) : string :=
  let nd := String.length digits in
  if dp <=? 0 then "0." +:+ zeros (Z.to_nat (- dp)) +:+ digits
  else if Z.of_nat nd <=? dp then digits +:+ zeros (Z.to_nat dp - nd)
  else string_take (Z.to_nat dp) digits +:+ "." +:+ string_drop (Z.to_nat dp) digits.

Definition FormatFloat (f : spec_float) : string :=
  match f with
  | S754_nan => "NaN"
  | S754_infinity neg => if neg then "-Inf" else "+Inf"
  | S754_zero neg => if neg then "-0" else "0"
  | S754_finite neg m e =>
      let '(c, k) := shortest m e in
      let digits := pretty c in
      let dp := k + Z.of_nat (String.length digits) in
      (if neg then "-" else "")
        +:+ (if (dp - 1 <? -4) || (6 <=? dp - 1) then fmtE digits (dp - 1) else fmtF digits dp)
  end.
End format.

Definition FormatFloat64 : float64 → string := FormatFloat 53 1024.
Definition FormatFloat32 : spec_float → string := FormatFloat 24 128.

Definition float32_lit (n d : positive) : spec_float := round_ratio 24 128 n d.

Example format_small : FormatFloat64 <$> [float_of_Z 42; float_lit 1 10; float_lit (-3) 2; float_lit 1 100000]
  = ["42"; "0.1"; "-1.5"; "1e-05"].
Proof. vm_compute. reflexivity. Qed.
Example format_large : FormatFloat64 <$> [float_of_Z 999999; float_of_Z 1000000; float_of_Z (2 ^ 60)]
  = ["999999"; "1e+06"; "1.152921504606847e+18"].
Proof. vm_compute. reflexivity. Qed.
Example format_extremes :
  FormatFloat64 <$> [S754_finite false 1 (-1074); S754_finite false 9007199254740991 971; float_lit (4 * 2 ^ 50 + 1) 4]
  = ["5e-324"; "1.7976931348623157e+308"; "1.1258999068426242e+15"].
Proof. vm_compute. reflexivity. Qed.
Example format_third : FormatFloat32 (float32_lit 1 3) = "0.33333334".
Proof. vm_compute. reflexivity. Qed.

(** ** The layout %.<prec>f *)

(** [n / d] rounded to an integer, halves to even. *)
Definition round_half_even (n d : Z) : Z :=
  let q := n / d in
  let r := 2 * (n - q * d) in
  if (d <? r) || (d =? r) && Z.odd q then q + 1 else q.

Fixpoint pad_left (width : nat) (c : ascii) (s : string) : string :=
  match width with
  | O => s
  | S w => if (String.length s <=? w)%nat then String c (pad_left w c s) else s
  end.

Definition FormatFixed (prec : nat) (f : float64) : string :=
  match f with
  | S754_nan => "NaN"
  | S754_infinity neg => if neg then "-Inf" else "+Inf"
  | S754_zero neg => (if neg then "-" else "") +:+ "0" +:+ (match prec with O => "" | _ => "." +:+ zeros prec end)
  | S754_finite neg m e =>
      let v := round_half_even (Zpos m * 2 ^ Z.max 0 e * 10 ^ Z.of_nat prec) (2 ^ Z.max 0 (- e)) in
      let whole := v / 10 ^ Z.of_nat prec in
      let frac := v mod 10 ^ Z.of_nat prec in
      (if neg then "-" else "") +:+ pretty whole
        +:+ (match prec with O => "" | _ => "." +:+ pad_left prec "0" (pretty frac) end)
  end.

Example fixed_layout : FormatFixed 1 <$> [float_lit 3 2; float_lit 1 4; float_lit 7 4; float_of_Z 10; float_lit 1 25]
  = ["1.5"; "0.2"; "1.8"; "10.0"; "0.0"].
Proof. vm_compute. reflexivity. Qed.
Example fixed_padding : FormatFixed 3 (float_lit 1 50) = "0.020".
Proof. vm_compute. reflexivity. Qed.
