(* ===== verification/Template.v ===== *)
(** * Template: the template codec (pkg/codec/template.go)

    A regular expression with named groups, each group a field of the event. The
    expression engine is Go's regexp package: a parameter with the documented
    shape of its results. Slicing out of range is a panic here, and none happens. *)
From Stdlib Require Import Ascii String.
From stdpp Require Import strings.
From S2P Require Import Prelude GoBase GoStrings GoFloat GoTime Event Projection Codec.

(** ** The expression engine *)

(** regexp.Compile, MatchString, SubexpNames and FindSubmatchIndex. The indices come in pairs, the
    whole match and then every group; a group that took no part has -1. *)
Class RegexpEngine := {
  Regexp : Type;
  Compile : string → option Regexp;
  MatchString : Regexp → string → bool;
  SubexpNames : Regexp → list string;
  FindSubmatchIndex : Regexp → string → option (list Z);
  match_finds re s : MatchString re s = true ↔ is_Some (FindSubmatchIndex re s);
  submatch_length re s idx : FindSubmatchIndex re s = Some idx →
    length idx = (2 * length (SubexpNames re))%nat;
  submatch_range re s idx i start stop : FindSubmatchIndex re s = Some idx →
    idx !! (2 * i)%nat = Some start → idx !! (2 * i + 1)%nat = Some stop →
    start < 0 ∨ 0 ≤ start ≤ stop ∧ stop ≤ Z.of_nat (String.length s)
}.

(** The name of a group is the default name of a field. *)
Definition templateFieldNames : gmap string field :=
  list_to_map ((λ en : field * (string * string), (en.2.2, en.1)) <$> configKeys).

Section template.
Context `{RegexpEngine} `{UnicodeTables}.

(** numFields, for a group that fills nothing, is [None]. *)
Record templateCodec := mkTemplate {
  re : Regexp;
  groups : list (option field);
  opMap : gmap string Op;
  opNames : gmap string Op;
  maxPayloadBytes : Z;
  maxKeyBytes : Z;
  retainRaw : bool
}.

(** The loop of newTemplate over the names: the fields and whether one is the operation's. *)
Fixpoint template_groups (i : nat) (names : list string) : codec_error + (list (option field) * bool) :=
  match names with
  | [] => inr ([], false)
  | name :: names =>
      if (i =? 0)%nat || bool_decide (name = "") then
        '(gs, sawOp) ← template_groups (S i) names; inr (None :: gs, sawOp)
      else
        match templateFieldNames !! name with
        | None => inl ErrBadConfig
        | Some f =>
            '(gs, sawOp) ← template_groups (S i) names;
            inr (Some f :: gs, bool_decide (f = fieldOp) || sawOp)
        end
  end.

Definition newTemplate (cfg : gmap string string) : codec_error + templateCodec :=
  let pattern := TrimSpace (default "" (cfg !! "pattern")) in
  if bool_decide (pattern = "") then inl ErrBadConfig
  else
    re ← or_err ErrBadConfig (Compile pattern);
    if MatchString re "" then inl ErrBadConfig
    else
      '(groups, sawOp) ← template_groups 0 (SubexpNames re);
      if negb sawOp then inl ErrBadConfig
      else
        opMap ← parseOpMapping (default "" (cfg !! "opMapping"));
        maxPayloadBytes ← intConfig cfg "maxPayloadBytes" defaultMaxPayloadBytes;
        maxKeyBytes ← intConfig cfg "maxKeyBytes" defaultMaxKeyBytes;
        retainRaw ← boolConfig cfg "retainRaw";
        inr (mkTemplate re groups opMap builtinOpNames maxPayloadBytes maxKeyBytes retainRaw).

(** ** Conversions *)

Definition templateUint (raw : string) : codec_error + Z :=
  let trimmed := TrimSpace raw in
  if bool_decide (trimmed = "") then inr 0 else or_err ErrMalformed (ParseUint trimmed).

Definition templateTime (raw : string) : codec_error + Time :=
  let trimmed := TrimSpace raw in
  if bool_decide (trimmed = "") then inr zero_time
  else
    match time_Parse trimmed with
    | Some ts => inr ts
    | None => n ← or_err ErrMalformed (ParseInt trimmed); inr (unixTimestamp n)
    end.

Definition templateTTL (raw : string) : codec_error + option Duration :=
  let trimmed := TrimSpace raw in
  if bool_decide (trimmed = "") then inr None
  else
    match ParseDuration trimmed with
    | Some d => inr (Some d)
    | None => secs ← or_err ErrMalformed (ParseInt trimmed); inr (Some (i64 (secs * time_Second)))
    end.

Definition template_op (c : templateCodec) (name : string) : codec_error + Op :=
  resolve_name (opMap c) (opNames c) name.

(** One captured string into the field it names. *)
Definition template_assign (c : templateCodec) (dst : Event.t) (f : field) (raw : string) : codec_error + Event.t :=
  match f with
  | fieldPublisher => inr (set_Publisher raw dst)
  | fieldEpoch => n ← templateUint raw; inr (set_Epoch n dst)
  | fieldSeq => n ← templateUint raw; inr (set_Seq n dst)
  | fieldTimestamp => ts ← templateTime raw; inr (set_PublishedAt ts dst)
  | fieldOp => op ← template_op c raw; inr (set_Op op dst)
  | fieldKey => inr (set_Key raw dst)
  | fieldMember => inr (set_Member raw dst)
  | fieldValue => inr (set_Value (Some raw) dst)
  | fieldTTL => ttl ← templateTTL raw; inr (set_TTL ttl dst)
  | fieldDelta => n ← or_err ErrMalformed (ParseInt (TrimSpace raw)); inr (set_Delta n dst)
  end.

(** One CRLF or LF from the end; a lone CR is data. *)
Definition trimTrailingNewline (b : string) : string :=
  let n := String.length b in
  if bool_decide (String.get (n - 1) b = Some (ascii_of 10)) then
    let b := string_take (n - 1) b in
    let n := String.length b in
    if bool_decide (String.get (n - 1) b = Some (ascii_of 13)) then string_take (n - 1) b else b
  else b.

(** ** Decode *)

(** [s[start:stop]]; [None] is the panic. *)
Definition slice_checked (start stop : Z) (s : string) : option string :=
  if (0 <=? start) && (start <=? stop) && (stop <=? Z.of_nat (String.length s))
  then Some (string_take (Z.to_nat (stop - start)) (string_drop (Z.to_nat start) s)) else None.

(** The loop over the groups from [group] on, [idx] being what is left of the indices; [None] is a panic. *)
Fixpoint template_fill (c : templateCodec) (payload : string) (group : nat) (idx : list Z) (dst : Event.t)
    : option (codec_error + Event.t) :=
  match idx with
  | start :: stop :: idx =>
      match groups c !! group with
      | None => None
      | Some None => template_fill c payload (S group) idx dst
      | Some (Some f) =>
          if start <? 0 then template_fill c payload (S group) idx dst
          else
            raw ← slice_checked start stop payload;
            match template_assign c dst f raw with
            | inl err => Some (inl err)
            | inr dst => template_fill c payload (S group) idx dst
            end
      end
  | _ => Some (inr dst)
  end.

(** [None] is a panic. On an error the event is not used. *)
Definition Template_Decode (c : templateCodec) (payload topic : string) (observed : Time)
    : option (codec_error + Event.t) :=
  if (String.length payload =? 0)%nat then Some (inl ErrMalformed)
  else if Z.of_nat (String.length payload) >? maxPayloadBytes c then Some (inl ErrTooLarge)
  else
    let payload := trimTrailingNewline payload in
    match FindSubmatchIndex (re c) payload with
    | None => Some (inl ErrMalformed)
    | Some idx =>
        res ← template_fill c payload 1 (drop 2 idx) (blank observed topic);
        Some (dst ← res;
              if decide (EOp dst = OpUnknown) then inl ErrMissingField
              else if Z.of_nat (String.length (Event.Key dst)) >? maxKeyBytes c then inl ErrTooLarge
              else inr (if retainRaw c then set_Raw (Some payload) dst else dst))
    end.
End template.

(** ** No panic, and only the sentinels *)

Section safety.
Context {X : RegexpEngine} {U : UnicodeTables}.

Record template_ok (c : templateCodec) : Prop := mk_template_ok {
  to_groups : length (groups c) = length (SubexpNames (re c));
  to_opMap : ops_named (opMap c);
  to_opNames : opNames c = builtinOpNames;
  to_empty : MatchString (re c) "" = false
}.

Lemma template_groups_length names : ∀ i gs sawOp,
  template_groups i names = inr (gs, sawOp) → length gs = length names.
Proof.
  induction names as [|name names IH]; intros i gs sawOp; cbn [template_groups]; [by intros [= <- <-]|].
  destruct (_ || _).
  - destruct (template_groups (S i) names) as [|[gs' saw]] eqn:Hg; [done|]. intros [= <- <-]. cbn. f_equal. by eapply IH.
  - destruct (templateFieldNames !! name); [|done].
    destruct (template_groups (S i) names) as [|[gs' saw]] eqn:Hg; [done|]. intros [= <- <-]. cbn. f_equal. by eapply IH.
Qed.

Lemma newTemplate_ok cfg c : newTemplate cfg = inr c → template_ok c.
Proof.
  unfold newTemplate. case_bool_decide; [done|]. destruct (Compile _) as [r|]; [|done]. cbn [or_err mbind sum_bind].
  destruct (MatchString r "") eqn:Hm; [done|].
  destruct (template_groups 0 (SubexpNames r)) as [|[gs saw]] eqn:Hg; [done|]. cbn [mbind sum_bind].
  destruct (negb saw); [done|]. destruct (parseOpMapping _) as [|m] eqn:Hp; [done|]. cbn [mbind sum_bind].
  destruct (intConfig cfg "maxPayloadBytes" _) as [|mp]; [done|]. cbn [mbind sum_bind]. destruct (intConfig cfg "maxKeyBytes" _) as [|mk]; [done|].
  cbn [mbind sum_bind]. destruct (boolConfig _ _) as [|rr]; [done|]. intros [= <-].
  constructor; cbn; [by eapply template_groups_length|by eapply parseOpMapping_named|done|done].
Qed.

Lemma templateUint_range raw : sentinel_or is_u64 (templateUint raw).
Proof.
  unfold templateUint. case_bool_decide; [by split|].
  eapply sentinel_weaken; [apply or_err_malformed|]. intros n. apply ParseUint_range.
Qed.

Lemma templateTime_sentinel raw : sentinel_or (λ _, True) (templateTime raw).
Proof.
  unfold templateTime. case_bool_decide; [done|]. destruct (time_Parse _); [done|].
  eapply sentinel_bind; [apply or_err_malformed|done].
Qed.

Lemma templateTTL_sentinel raw : sentinel_or (λ _, True) (templateTTL raw).
Proof.
  unfold templateTTL. case_bool_decide; [done|]. destruct (ParseDuration _); [done|].
  eapply sentinel_bind; [apply or_err_malformed|done].
Qed.

Lemma template_assign_begun c dst f raw observed topic : template_ok c → begun observed topic dst →
  sentinel_or (begun observed topic) (template_assign c dst f raw).
Proof.
  intros Hc Hd. pose proof Hd as [Ho Ht Hs He Hop]. unfold template_assign.
  destruct f; try (by (cbn; constructor)).
  - eapply sentinel_bind; [apply templateUint_range|]. intros n Hn. by constructor.
  - eapply sentinel_bind; [apply templateUint_range|]. intros n Hn. by constructor.
  - eapply sentinel_bind; [apply templateTime_sentinel|]. intros ts _. by constructor.
  - unfold template_op. rewrite (to_opNames _ Hc). eapply sentinel_bind; [apply resolve_sentinel, Hc|].
    intros op Hn. constructor; auto.
  - eapply sentinel_bind; [apply templateTTL_sentinel|]. intros ttl _. by constructor.
  - eapply sentinel_bind; [apply or_err_malformed|]. intros n _. by constructor.
Qed.

Lemma slice_checked_ok start stop s : 0 ≤ start ≤ stop → stop ≤ Z.of_nat (String.length s) →
  is_Some (slice_checked start stop s).
Proof.
  intros [H1 H2] H3. unfold slice_checked. apply Z.leb_le in H1, H2, H3. rewrite H1, H2, H3. by eexists.
Qed.

(** The loop, on what is left of the indices of a match. *)
Lemma template_fill_safe c payload full observed topic : template_ok c →
  FindSubmatchIndex (re c) payload = Some full →
  ∀ n group dst, length full = (2 * (group + n))%nat → begun observed topic dst →
  ∃ res, template_fill c payload group (drop (2 * group) full) dst = Some res
    ∧ sentinel_or (begun observed topic) res.
Proof.
  intros Hc Hfull. pose proof (submatch_length _ _ _ Hfull) as Hlen.
  induction n as [|n IH]; intros group dst Hn Hd.
  { rewrite drop_ge by lia. by exists (inr dst). }
  destruct (lookup_lt_is_Some_2 full (2 * group)) as [start H1]; [lia|].
  destruct (lookup_lt_is_Some_2 full (2 * group + 1)) as [stop H2]; [lia|].
  assert (drop (2 * group) full = start :: stop :: drop (2 * S group) full) as ->.
  { rewrite (drop_S _ _ _ H1). f_equal. rewrite (drop_S full stop (S (2 * group))) by (by rewrite <- H2; f_equal; lia).
    f_equal. f_equal. lia. }
  cbn [template_fill].
  destruct (lookup_lt_is_Some_2 (groups c) group) as [f Hf]; [rewrite (to_groups _ Hc); lia|]. rewrite Hf.
  destruct f as [f|]; [|apply IH; [lia|done]].
  destruct (Z.ltb_spec start 0); [apply IH; [lia|done]|].
  destruct (submatch_range _ _ _ _ _ _ Hfull H1 H2) as [?|[Hr Hs]]; [lia|].
  destruct (slice_checked_ok start stop payload Hr Hs) as [raw ->]. cbn [mbind option_bind].
  pose proof (template_assign_begun c dst f raw observed topic Hc Hd) as Ha.
  destruct (template_assign c dst f raw) as [err|dst']; [by exists (inl err)|]. apply IH; [lia|done].
Qed.

(** What a template codec makes of a payload. *)
Definition template_event (c : templateCodec) (payload topic : string) (observed : Time) (e : Event.t) : Prop :=
  begun observed topic e ∧ EOp e ∈ named_ops
  ∧ Z.of_nat (String.length (Event.Key e)) ≤ maxKeyBytes c
  ∧ trimTrailingNewline payload ≠ "".

Lemma Template_Decode_spec c payload topic observed : template_ok c →
  ∃ res, Template_Decode c payload topic observed = Some res
    ∧ sentinel_or (template_event c payload topic observed) res.
Proof.
  intros Hc. unfold Template_Decode. destruct (_ =? _)%nat; [eexists; split; [done|by left]|].
  destruct (_ >? _); [eexists; split; [done|by right; left]|].
  destruct (FindSubmatchIndex _ _) as [idx|] eqn:Hf; [|eexists; split; [done|by left]].
  assert (trimTrailingNewline payload ≠ "") as Hne.
  { intros E. rewrite E in Hf. pose proof (proj2 (match_finds _ _) (mk_is_Some _ _ Hf)) as Hm.
    by rewrite (to_empty _ Hc) in Hm. }
  pose proof (submatch_length _ _ _ Hf) as Hl. rewrite <- (to_groups _ Hc) in Hl.
  assert (∃ res, template_fill c (trimTrailingNewline payload) 1 (drop 2 idx) (blank observed topic) = Some res
    ∧ sentinel_or (begun observed topic) res) as (res & -> & Hres).
  { destruct (length (groups c)) as [|n] eqn:Hg.
    - rewrite drop_ge by lia. eexists. split; [done|]. apply blank_begun.
    - apply (template_fill_safe _ _ _ _ _ Hc Hf n); [lia|apply blank_begun]. }
  cbn [mbind option_bind]. eexists. split; [done|]. eapply sentinel_bind; [exact Hres|]. intros dst Hd.
  destruct (decide _) as [Ho|Ho]; [by right; right; right|].
  destruct (Z.gtb_spec (Z.of_nat (String.length (Event.Key dst))) (maxKeyBytes c)); [by right; left|].
  pose proof Hd as [? ? ? ? [?|?]]; [done|]. destruct (retainRaw c); (split; [by constructor; auto|done]).
Qed.

(** the template codec never panics and fails with the sentinels only: for an expression engine
    with the documented shape of results, every payload decodes to one of them or to an event with a
    named operation, the source's clock and topic, 64-bit numbers and a key within the bound; an empty
    line is never an event. *)
Theorem template_decode_is_safe cfg c payload topic observed : newTemplate cfg = inr c →
  match Template_Decode c payload topic observed with
  | None => False
  | Some (inl err) => err = ErrMalformed ∨ err = ErrTooLarge ∨ err = ErrUnknownOp ∨ err = ErrMissingField
  | Some (inr e) =>
      EOp e ∈ named_ops ∧ ObservedAt e = observed ∧ Topic e = topic ∧ is_u64 (Seq e) ∧ is_u64 (Epoch e)
      ∧ Z.of_nat (String.length (Event.Key e)) ≤ maxKeyBytes c
      ∧ payload ≠ "" ∧ trimTrailingNewline payload ≠ ""
  end.
Proof.
  intros Hc%newTemplate_ok. destruct (Template_Decode_spec c payload topic observed Hc) as (res & -> & Hr).
  destruct res as [err|e]; [exact Hr|]. destruct Hr as ([] & Hop & Hk & Hne). split_and!; try done.
  by intros ->.
Qed.

(** The codec as the pipeline sees it. *)
Definition template_Codec (c : templateCodec) (Hc : template_ok c) : Codec.
Proof.
  refine {| Codec.Decode := λ payload topic observed, default (inl ErrMalformed) (Template_Decode c payload topic observed) |};
    intros payload topic t e He; destruct (Template_Decode_spec c payload topic t Hc) as (res & E & Hr); rewrite E in He;
    cbn in He; subst res; destruct Hr as ([] & _); first [done|by split].
Defined.
End safety.
