(* ===== verification/Msgpack.v ===== *)
(** * Msgpack: the msgpack codec (pkg/codec/msgpack.go)

    The decoder of the wire format is a third-party package: a parameter that
    gives a map from names to Go values, an error or a panic. Everything the codec
    does with those values is here, a value carrying its dynamic type. *)
From Stdlib Require Import Ascii String.
From stdpp Require Import strings.
From S2P Require Import Prelude GoBase GoStrings GoFloat GoTime GoFormat FloatFormat Event Projection Codec.

(** ** Values of type any *)

(** [any_other] is every type the codec does not name: arrays, maps and structures. The nil slice is
    [any_bytes None]. *)
Inductive any :=
  | any_nil
  | any_string (s : string)
  | any_bytes (b : option string)
  | any_bool (b : bool)
  | any_int (n : Z) | any_int8 (n : Z) | any_int16 (n : Z) | any_int32 (n : Z) | any_int64 (n : Z)
  | any_uint (n : Z) | any_uint8 (n : Z) | any_uint16 (n : Z) | any_uint32 (n : Z) | any_uint64 (n : Z)
  | any_float32 (f : spec_float)
  | any_float64 (f : float64)
  | any_time (t : Time)
  | any_other.

(** Integers are within their types. *)
Definition any_ok (v : any) : Prop :=
  match v with
  | any_int n | any_int64 n => is_i64 n
  | any_int8 n => - 2 ^ 7 ≤ n < 2 ^ 7
  | any_int16 n => - 2 ^ 15 ≤ n < 2 ^ 15
  | any_int32 n => - 2 ^ 31 ≤ n < 2 ^ 31
  | any_uint n | any_uint64 n => is_u64 n
  | any_uint8 n => 0 ≤ n < 2 ^ 8
  | any_uint16 n => 0 ≤ n < 2 ^ 16
  | any_uint32 n => 0 ≤ n < 2 ^ 32
  | _ => True
  end.

(** msgpack.Unmarshal into a map[string]any; a nil map is no map on the wire. *)
Inductive unmarshalled :=
  | UnmarshalPanic
  | UnmarshalError
  | Unmarshalled (fields : option (gmap string any)).

Class MsgpackDecoder := {
  Unmarshal : string → unmarshalled;
  unmarshal_ok payload fields name v :
    Unmarshal payload = Unmarshalled (Some fields) → fields !! name = Some v → any_ok v
}.

(** ** Conversions *)

Definition msgpackString (raw : any) : codec_error + string :=
  match raw with
  | any_string v => inr v
  | any_bytes v => inr (bytes_of v)
  | any_nil => inr ""
  | _ => inl ErrMalformed
  end.

Definition msgpackUint (raw : any) : codec_error + Z :=
  match raw with
  | any_uint64 v | any_uint v | any_uint32 v | any_uint16 v | any_uint8 v => inr v
  | any_int64 v | any_int v | any_int32 v | any_int16 v | any_int8 v =>
      if v <? 0 then inl ErrMalformed else inr v
  | any_float32 _ | any_float64 _ => inl ErrMalformed
  | any_string v => or_err ErrMalformed (ParseUint (TrimSpace v))
  | any_nil => inr 0
  | _ => inl ErrMalformed
  end.

Definition msgpackInt (raw : any) : codec_error + Z :=
  match raw with
  | any_int64 v | any_int v | any_int32 v | any_int16 v | any_int8 v => inr v
  | any_uint64 v | any_uint v => if v >? max_i64 then inl ErrMalformed else inr v
  | any_uint32 v | any_uint16 v | any_uint8 v => inr v
  | any_float32 _ | any_float64 _ => inl ErrMalformed
  | any_string v => or_err ErrMalformed (ParseInt (TrimSpace v))
  | any_nil => inr 0
  | _ => inl ErrMalformed
  end.

Definition msgpackValue (raw : any) : codec_error + option string :=
  match raw with
  | any_nil => inr None
  | any_string v => inr (Some v)
  | any_bytes v => inr v
  | any_bool v => inr (Some (if v then "true" else "false"))
  | any_int64 v | any_uint64 v | any_int v => inr (Some (FormatInt v))
  | any_float64 v => inr (Some (FormatFloat64 v))
  | any_float32 v => inr (Some (FormatFloat32 v))
  | _ => inl ErrMalformed
  end.

Definition msgpackTime (raw : any) : codec_error + Time :=
  match raw with
  | any_time v => inr v
  | any_nil => inr zero_time
  | any_string v =>
      if bool_decide (TrimSpace v = "") then inr zero_time
      else
        match time_Parse v with
        | Some ts => inr ts
        | None => n ← or_err ErrMalformed (ParseInt (TrimSpace v)); inr (unixTimestamp n)
        end
  | any_float32 _ | any_float64 _ => inl ErrMalformed
  | _ => n ← msgpackInt raw; inr (unixTimestamp n)
  end.

Definition msgpackTTL (raw : any) : codec_error + option Duration :=
  match raw with
  | any_nil => inr None
  | any_string s =>
      let trimmed := TrimSpace s in
      if bool_decide (trimmed = "") then inr None
      else d ← or_err ErrMalformed (ParseDuration trimmed); inr (Some d)
  | _ => secs ← msgpackInt raw; inr (Some (i64 (secs * time_Second)))
  end.

(** ** The codec *)

Record msgpackCodec := mkMsgpack {
  names : gmap string (list field);
  opMap : gmap string Op;
  opNames : gmap string Op;
  maxPayloadBytes : Z;
  maxKeyBytes : Z;
  retainRaw : bool
}.

Definition msgpack_op (c : msgpackCodec) (name : string) : codec_error + Op :=
  resolve_name (opMap c) (opNames c) name.

(** One decoded value into the event field it was mapped onto. *)
Definition msgpack_assign (c : msgpackCodec) (dst : Event.t) (f : field) (raw : any) : codec_error + Event.t :=
  match f with
  | fieldPublisher => s ← msgpackString raw; inr (set_Publisher s dst)
  | fieldEpoch => n ← msgpackUint raw; inr (set_Epoch n dst)
  | fieldSeq => n ← msgpackUint raw; inr (set_Seq n dst)
  | fieldTimestamp => ts ← msgpackTime raw; inr (set_PublishedAt ts dst)
  | fieldOp => s ← msgpackString raw; op ← msgpack_op c s; inr (set_Op op dst)
  | fieldKey => s ← msgpackString raw; inr (set_Key s dst)
  | fieldMember => s ← msgpackString raw; inr (set_Member s dst)
  | fieldValue => v ← msgpackValue raw; inr (set_Value v dst)
  | fieldTTL => ttl ← msgpackTTL raw; inr (set_TTL ttl dst)
  | fieldDelta => n ← msgpackInt raw; inr (set_Delta n dst)
  end.

(** The inner loop: the fields one name feeds; the flag is sawOp. *)
Fixpoint assign_targets (c : msgpackCodec) (raw : any) (targets : list field) (st : Event.t * bool)
    : codec_error + (Event.t * bool) :=
  match targets with
  | [] => inr st
  | f :: targets =>
      dst ← msgpack_assign c st.1 f raw;
      assign_targets c raw targets (dst, st.2 || bool_decide (f = fieldOp))
  end.

(** The outer loop, over the decoded map. *)
Fixpoint assign_fields (c : msgpackCodec) (fields : list (string * any)) (st : Event.t * bool)
    : codec_error + (Event.t * bool) :=
  match fields with
  | [] => inr st
  | (name, raw) :: fields =>
      match names c !! name with
      | None => assign_fields c fields st
      | Some targets => st ← assign_targets c raw targets st; assign_fields c fields st
      end
  end.

Section msgpack.
Context `{UnicodeTables}.

Definition newMsgpack (cfg : gmap string string) : codec_error + msgpackCodec :=
  names ← field_names cfg configKeys ∅;
  opMap ← parseOpMapping (default "" (cfg !! "opMapping"));
  maxPayloadBytes ← intConfig cfg "maxPayloadBytes" defaultMaxPayloadBytes;
  maxKeyBytes ← intConfig cfg "maxKeyBytes" defaultMaxKeyBytes;
  retainRaw ← boolConfig cfg "retainRaw";
  _ ← (match cfg !! "maxDepth" with
       | Some _ => _ ← intConfig cfg "maxDepth" defaultMaxDepth; inr tt
       | None => inr tt end);
  inr (mkMsgpack names opMap builtinOpNames maxPayloadBytes maxKeyBytes retainRaw).

Context `{MsgpackDecoder} `{MapOrder}.

(** A panic of the decoder is recovered into ErrMalformed. On an error the event is not used. *)
Definition Msgpack_Decode (c : msgpackCodec) (payload topic : string) (observed : Time) : codec_error + Event.t :=
  if (String.length payload =? 0)%nat then inl ErrMalformed
  else if Z.of_nat (String.length payload) >? maxPayloadBytes c then inl ErrTooLarge
  else
    match Unmarshal payload with
    | UnmarshalPanic | UnmarshalError | Unmarshalled None => inl ErrMalformed
    | Unmarshalled (Some fields) =>
        '(dst, sawOp) ← assign_fields c (range_map fields) (blank observed topic, false);
        if negb sawOp then inl ErrMissingField
        else if Z.of_nat (String.length (Event.Key dst)) >? maxKeyBytes c then inl ErrTooLarge
        else inr (if retainRaw c then set_Raw (Some payload) dst else dst)
    end.
End msgpack.

(** ** One field, one value *)

(** The conversion of a value for a field, apart from the event it goes into. *)
Definition converted (c : msgpackCodec) (f : field) (raw : any) : codec_error + (Event.t → Event.t) :=
  match f with
  | fieldPublisher => s ← msgpackString raw; inr (set_Publisher s)
  | fieldEpoch => n ← msgpackUint raw; inr (set_Epoch n)
  | fieldSeq => n ← msgpackUint raw; inr (set_Seq n)
  | fieldTimestamp => ts ← msgpackTime raw; inr (set_PublishedAt ts)
  | fieldOp => s ← msgpackString raw; op ← msgpack_op c s; inr (set_Op op)
  | fieldKey => s ← msgpackString raw; inr (set_Key s)
  | fieldMember => s ← msgpackString raw; inr (set_Member s)
  | fieldValue => v ← msgpackValue raw; inr (set_Value v)
  | fieldTTL => ttl ← msgpackTTL raw; inr (set_TTL ttl)
  | fieldDelta => n ← msgpackInt raw; inr (set_Delta n)
  end.

Lemma assign_converted c dst f raw : msgpack_assign c dst f raw = u ← converted c f raw; inr (u dst).
Proof.
  destruct f; cbn [msgpack_assign converted];
    first [by destruct (msgpackString raw) as [|s]; [|cbn; try destruct (msgpack_op c s)]
          |by destruct (msgpackUint raw)|by destruct (msgpackTime raw)|by destruct (msgpackValue raw)
          |by destruct (msgpackTTL raw)|by destruct (msgpackInt raw)].
Qed.

(** Conversions for different fields commute. *)
Lemma converted_commute c f g raw raw' u v dst : f ≠ g →
  converted c f raw = inr u → converted c g raw' = inr v → u (v dst) = v (u dst).
Proof.
  intros Hne Hu Hv.
  assert (∀ f raw u, converted c f raw = inr u → match f with
    | fieldPublisher => ∃ s, u = set_Publisher s | fieldEpoch => ∃ s, u = set_Epoch s
    | fieldSeq => ∃ s, u = set_Seq s | fieldTimestamp => ∃ s, u = set_PublishedAt s
    | fieldOp => ∃ s, u = set_Op s | fieldKey => ∃ s, u = set_Key s | fieldMember => ∃ s, u = set_Member s
    | fieldValue => ∃ s, u = set_Value s | fieldTTL => ∃ s, u = set_TTL s | fieldDelta => ∃ s, u = set_Delta s end) as Hset.
  { clear. intros f raw u Hu. destruct f; cbn [converted] in Hu;
      (match type of Hu with mbind _ ?m = _ => destruct m as [|s]; [done|] end); cbn in Hu;
      first [injection Hu as <-; by eexists|destruct (msgpack_op c s); [done|]; cbn in Hu; injection Hu as <-; by eexists]. }
  apply Hset in Hu, Hv. by destruct f, g; destruct Hu as [? ->], Hv as [? ->].
Qed.

(** ** The order of the map does not matter *)

(** The assignments a decoded map gives rise to, in order. *)
Definition assignments (c : msgpackCodec) (fields : list (string * any)) : list (field * any) :=
  fields ≫= λ nv, (λ f, (f, nv.2)) <$> default [] (names c !! nv.1).

Fixpoint run (c : msgpackCodec) (l : list (field * any)) (dst : Event.t) : codec_error + Event.t :=
  match l with
  | [] => inr dst
  | (f, raw) :: l => dst ← msgpack_assign c dst f raw; run c l dst
  end.

Definition assigns_op (l : list (field * any)) : bool := bool_decide (fieldOp ∈ l.*1).

Lemma run_app c l l' dst : run c (l ++ l') dst = dst ← run c l dst; run c l' dst.
Proof.
  revert dst. induction l as [|[f raw] l IH]; intros dst; [done|]. cbn [app run].
  destruct (msgpack_assign c dst f raw); cbn; [done|apply IH].
Qed.

Lemma assigns_op_app l l' : assigns_op (l ++ l') = assigns_op l || assigns_op l'.
Proof. unfold assigns_op. rewrite fmap_app. by rewrite (bool_decide_ext _ _ (elem_of_app _ _ _)), bool_decide_or. Qed.

Lemma assigns_op_cons f raw l : assigns_op ((f, raw) :: l) = bool_decide (f = fieldOp) || assigns_op l.
Proof.
  unfold assigns_op. cbn [fmap list_fmap fst]. rewrite (bool_decide_ext _ _ (elem_of_cons _ _ _)), bool_decide_or.
  f_equal. by apply bool_decide_ext.
Qed.

Lemma assign_targets_run c raw targets : ∀ dst b,
  assign_targets c raw targets (dst, b)
  = let l := (λ f, (f, raw)) <$> targets in dst ← run c l dst; inr (dst, b || assigns_op l).
Proof.
  induction targets as [|f targets IH]; intros dst b; cbn zeta; [cbn; by rewrite orb_false_r|].
  cbn [assign_targets fmap list_fmap run fst snd]. destruct (msgpack_assign c dst f raw) as [|dst']; [done|].
  cbn [mbind sum_bind]. rewrite IH. cbv zeta. by rewrite assigns_op_cons, orb_assoc.
Qed.

Lemma assign_fields_run c fields : ∀ dst b,
  assign_fields c fields (dst, b)
  = dst ← run c (assignments c fields) dst; inr (dst, b || assigns_op (assignments c fields)).
Proof.
  induction fields as [|[name raw] fields IH]; intros dst b; [cbn; by rewrite orb_false_r|].
  cbn [assign_fields]. unfold assignments. rewrite bind_cons. fold (assignments c fields). cbn [fst snd].
  rewrite run_app, assigns_op_app. destruct (names c !! name) as [targets|]; cbn [default].
  - rewrite assign_targets_run. cbv zeta. destruct (run c _ dst) as [|dst']; [done|]. cbn [mbind sum_bind].
    by rewrite IH, orb_assoc.
  - cbn [fmap list_fmap run mbind sum_bind]. rewrite IH. f_equal.
Qed.

Lemma run_perm c l l' : l ≡ₚ l' → NoDup (l.*1) → ∀ dst, same_result (run c l dst) (run c l' dst).
Proof.
  induction 1 as [|[f raw] l l' Hp IH|[f raw] [g raw'] l|l1 l2 l3 Hp1 IH1 Hp2 IH2]; intros Hnd dst.
  - done.
  - cbn [run]. destruct (msgpack_assign c dst f raw); [done|]. apply IH. by apply NoDup_cons in Hnd as [_ ?].
  - cbn [run]. rewrite !assign_converted.
    assert (f ≠ g) as Hne. { intros ->. apply NoDup_cons in Hnd as [Hn _]. apply Hn. by left. }
    destruct (converted c f raw) as [|u] eqn:Hu, (converted c g raw') as [|v] eqn:Hv; cbn [mbind sum_bind];
      rewrite ?assign_converted, ?Hu, ?Hv; cbn [mbind sum_bind]; try done.
    by rewrite (converted_commute c f g raw raw' u v dst Hne Hu Hv).
  - etrans; [by apply IH1|]. apply IH2. by rewrite <- Hp1.
Qed.

Lemma assignments_NoDup c fields : fed_once (names c) → NoDup (fields.*1) → NoDup ((assignments c fields).*1).
Proof.
  intros Hf. induction fields as [|[name raw] fields IH]; intros Hnd; [by apply NoDup_nil|].
  apply NoDup_cons in Hnd as [Hn Hnd]. unfold assignments. rewrite bind_cons. fold (assignments c fields). cbn [fst snd].
  rewrite fmap_app, <- list_fmap_compose. change (λ f : field, (f, raw).1) with (λ f : field, f).
  assert ((fst ∘ (λ f : field, (f, raw))) <$> default [] (names c !! name) = default [] (names c !! name)) as ->.
  { generalize (default [] (names c !! name)). induction l as [|f l IHl]; [done|]. cbn. by f_equal. }
  apply NoDup_app. split_and!; [| |by apply IH].
  - destruct (names c !! name) as [l|] eqn:Hl; [|by apply NoDup_nil]. by eapply fo_NoDup.
  - intros f H1 ([f' raw'] & -> & Ha)%list_elem_of_fmap. unfold assignments in Ha.
    apply list_elem_of_bind in Ha as ([name' raw''] & (f'' & [= <- <-] & H2)%list_elem_of_fmap & Hin). cbn [fst snd] in H2.
    destruct (names c !! name) as [l|] eqn:Hl; [|by apply elem_of_nil in H1].
    destruct (names c !! name') as [l'|] eqn:Hl'; [|by apply elem_of_nil in H2].
    assert (name = name') as <- by (eapply fo_same; eauto).
    apply Hn. exact (list_elem_of_fmap_2 fst _ _ Hin).
Qed.

(** ** What the codec promises *)

Section promises.
Context {U : UnicodeTables} {D : MsgpackDecoder}.

Lemma newMsgpack_ok cfg c : newMsgpack cfg = inr c →
  fed_once (names c) ∧ ops_named (opMap c) ∧ opNames c = builtinOpNames.
Proof.
  unfold newMsgpack. destruct (field_names _ _ _) as [|ns] eqn:Hn; [done|]. cbn [mbind sum_bind].
  destruct (parseOpMapping _) as [|om] eqn:Ho; [done|]. cbn [mbind sum_bind].
  destruct (intConfig cfg "maxPayloadBytes" _); [done|]. cbn [mbind sum_bind].
  destruct (intConfig cfg "maxKeyBytes" _); [done|]. cbn [mbind sum_bind].
  destruct (boolConfig _ _); [done|]. cbn [mbind sum_bind].
  destruct (match cfg !! "maxDepth" with Some _ => _ | None => _ end); [done|]. intros [= <-].
  split_and!; [by eapply configured_fed_once|by eapply parseOpMapping_named|done].
Qed.

(** the map the decoder hands over is visited in no particular order, and it does not matter: for
    any two orders the codec gives the same event or fails both times. *)
Theorem msgpack_order_does_not_matter (O1 O2 : MapOrder) cfg c payload topic observed :
  newMsgpack cfg = inr c →
  same_result (Msgpack_Decode (H1 := O1) c payload topic observed) (Msgpack_Decode (H1 := O2) c payload topic observed).
Proof.
  intros (Hf & _ & _)%newMsgpack_ok. unfold Msgpack_Decode. destruct (_ =? _)%nat; [done|]. destruct (_ >? _); [done|].
  destruct (Unmarshal payload) as [| |[fields|]]; [done|done| |done]. rewrite !assign_fields_run.
  assert (assignments c (range_map (H:=O1) fields) ≡ₚ assignments c (range_map (H:=O2) fields)) as Hp.
  { unfold assignments, range_map. by rewrite !(range_order_perm (map_to_list fields)). }
  assert (NoDup ((assignments c (range_map (H:=O1) fields)).*1)) as Hnd.
  { apply assignments_NoDup; [done|]. unfold range_map. rewrite range_order_perm. apply NoDup_fst_map_to_list. }
  assert (assigns_op (assignments c (range_map (H:=O1) fields)) = assigns_op (assignments c (range_map (H:=O2) fields))) as ->.
  { unfold assigns_op. apply bool_decide_ext. by rewrite Hp. }
  apply same_result_bind, same_result_bind, run_perm; done.
Qed.

Lemma msgpackUint_range raw : any_ok raw → sentinel_or is_u64 (msgpackUint raw).
Proof.
  intros Hr. assert (∀ n, is_i64 n → sentinel_or is_u64 (if n <? 0 then inl ErrMalformed else inr n)) as Hi.
  { intros n Hn. destruct (Z.ltb_spec n 0); [by left|]. cbn. unfold is_i64, is_u64, max_i64, max_u64 in *. lia. }
  destruct raw; cbn [any_ok msgpackUint] in *; unfold is_i64, is_u64, max_i64, min_i64, max_u64 in *; try (by left); try (apply Hi; lia); try (cbn; lia).
  eapply sentinel_weaken; [apply or_err_malformed|]. intros n. apply ParseUint_range.
Qed.

Lemma msgpackString_sentinel raw : sentinel_or (λ _, True) (msgpackString raw).
Proof. destruct raw; first [done|by left]. Qed.

Lemma msgpackInt_sentinel raw : sentinel_or (λ _, True) (msgpackInt raw).
Proof.
  destruct raw; cbn; try case_match; first [done|by left|idtac].
  eapply sentinel_weaken; [apply or_err_malformed|done].
Qed.

Lemma msgpackValue_sentinel raw : sentinel_or (λ _, True) (msgpackValue raw).
Proof. destruct raw; first [done|by left]. Qed.

Lemma msgpackTime_sentinel raw : sentinel_or (λ _, True) (msgpackTime raw).
Proof.
  destruct raw; try (eapply sentinel_bind; [apply msgpackInt_sentinel|done]); try done; try (by left).
  cbn [msgpackTime]. case_bool_decide; [done|]. destruct (time_Parse s); [done|].
  eapply sentinel_bind; [apply or_err_malformed|done].
Qed.

Lemma msgpackTTL_sentinel raw : sentinel_or (λ _, True) (msgpackTTL raw).
Proof.
  destruct raw; try (eapply sentinel_bind; [apply msgpackInt_sentinel|done]); try done.
  cbn [msgpackTTL]. cbv zeta. case_bool_decide; [done|]. eapply sentinel_bind; [apply or_err_malformed|done].
Qed.

(** An event in progress, with an operation once one has been assigned. *)
Lemma msgpack_assign_begun c dst f raw observed topic :
  ops_named (opMap c) → opNames c = builtinOpNames → any_ok raw → begun observed topic dst →
  sentinel_or (λ e, begun observed topic e ∧ (f = fieldOp ∨ EOp dst ∈ named_ops → EOp e ∈ named_ops))
    (msgpack_assign c dst f raw).
Proof.
  intros Hm Hn Hr Hd. pose proof Hd as [Ho Ht Hs He Hop]. unfold msgpack_assign. destruct f.
  2,3: eapply sentinel_bind; [by apply msgpackUint_range|]; intros n Hv; (split; [by constructor|by intros [?|?]]).
  2: eapply sentinel_bind; [apply msgpackTime_sentinel|].
  3,4,5: eapply sentinel_bind; [apply msgpackString_sentinel|].
  6: eapply sentinel_bind; [apply msgpackValue_sentinel|].
  7: eapply sentinel_bind; [apply msgpackTTL_sentinel|].
  8: eapply sentinel_bind; [apply msgpackInt_sentinel|].
  1: eapply sentinel_bind; [apply msgpackString_sentinel|].
  all: intros v _; try (split; [by constructor|by intros [?|?]]).
  unfold msgpack_op. rewrite Hn. eapply sentinel_bind; [by apply resolve_sentinel|].
  intros op Hop'. split; [by constructor; auto|done].
Qed.

Lemma run_begun c l observed topic : ops_named (opMap c) → opNames c = builtinOpNames →
  (∀ f raw, (f, raw) ∈ l → any_ok raw) → ∀ dst, begun observed topic dst →
  sentinel_or (λ e, begun observed topic e ∧ (assigns_op l = true ∨ EOp dst ∈ named_ops → EOp e ∈ named_ops))
    (run c l dst).
Proof.
  intros Hm Hn. induction l as [|[f raw] l IH]; intros Hl dst Hd; cbn [run].
  { split; [done|]. by intros [?|?]. }
  eapply sentinel_bind; [apply msgpack_assign_begun; try done; apply (Hl f); by left|].
  intros e [He Hop]. eapply sentinel_weaken; [apply IH; [intros; eapply Hl; by right|done]|].
  intros e' [He' Hop']. split; [done|]. rewrite assigns_op_cons. intros Hx. apply Hop'.
  destruct Hx as [[Hx%bool_decide_eq_true|Hx]%orb_true_iff|Hx]; [right; apply Hop; by left|by left|right; apply Hop; by right].
Qed.

Context {O : MapOrder}.

Definition msgpack_event (c : msgpackCodec) (topic : string) (observed : Time) (e : Event.t) : Prop :=
  begun observed topic e ∧ EOp e ∈ named_ops ∧ Z.of_nat (String.length (Event.Key e)) ≤ maxKeyBytes c.

Lemma Msgpack_Decode_spec c payload topic observed : ops_named (opMap c) → opNames c = builtinOpNames →
  sentinel_or (msgpack_event c topic observed) (Msgpack_Decode c payload topic observed).
Proof.
  intros Hm Hn. unfold Msgpack_Decode. destruct (_ =? _)%nat; [by left|]. destruct (_ >? _); [by right; left|].
  destruct (Unmarshal payload) as [| |[fields|]] eqn:Hu; [by left|by left| |by left]. rewrite assign_fields_run.
  pose proof (run_begun c (assignments c (range_map fields)) observed topic Hm Hn) as Hr.
  specialize (λ H, Hr H (blank observed topic) (blank_begun _ _)).
  assert (∀ f raw, (f, raw) ∈ assignments c (range_map fields) → any_ok raw) as Hok.
  { intros f raw ([name v] & (f' & [= <- <-] & _)%list_elem_of_fmap & Hin)%list_elem_of_bind.
    apply elem_of_range_map in Hin. by eapply unmarshal_ok. }
  specialize (Hr Hok). destruct (run c _ _) as [err|e]; [exact Hr|]. cbn [mbind sum_bind orb]. destruct Hr as [He Hop].
  destruct (assigns_op _); cbn [negb]; [|by right; right; right].
  destruct (Z.gtb_spec (Z.of_nat (String.length (Event.Key e))) (maxKeyBytes c)); [by right; left|].
  pose proof He as []. specialize (Hop (or_introl eq_refl)). destruct (retainRaw c); (split_and!; [by constructor; auto|done|done]).
Qed.

(** the msgpack codec fails with the sentinels only, and what it returns is an event the pipeline can
    use: a named operation, the source's clock and topic, 64-bit numbers, a key within the bound; a panic
    of the decoder, or a decoded value of any type in any field, changes none of it. *)
Theorem msgpack_decode_is_safe cfg c payload topic observed : newMsgpack cfg = inr c →
  match Msgpack_Decode c payload topic observed with
  | inl err => err = ErrMalformed ∨ err = ErrTooLarge ∨ err = ErrUnknownOp ∨ err = ErrMissingField
  | inr e =>
      EOp e ∈ named_ops ∧ ObservedAt e = observed ∧ Topic e = topic ∧ is_u64 (Seq e) ∧ is_u64 (Epoch e)
      ∧ Z.of_nat (String.length (Event.Key e)) ≤ maxKeyBytes c
      ∧ Unmarshal payload ≠ UnmarshalPanic
  end.
Proof.
  intros (_ & Hm & Hn)%newMsgpack_ok. pose proof (Msgpack_Decode_spec c payload topic observed Hm Hn) as Hs.
  destruct (Msgpack_Decode c payload topic observed) as [err|e] eqn:Hd; [exact Hs|].
  destruct Hs as ([] & Hop & Hk). split_and!; try done. intros Hp. unfold Msgpack_Decode in Hd. rewrite Hp in Hd.
  by repeat case_match.
Qed.

(** The codec as the pipeline sees it. *)
Definition msgpack_Codec (c : msgpackCodec) (Hm : ops_named (opMap c)) (Hn : opNames c = builtinOpNames) : Codec.
Proof.
  refine {| Codec.Decode := λ payload topic observed, Msgpack_Decode c payload topic observed |};
    intros payload topic t e He; pose proof (Msgpack_Decode_spec c payload topic t Hm Hn) as Hs; rewrite He in Hs;
    destruct Hs as ([] & _); first [done|by split].
Defined.
End promises.
