(* ===== verification/MsgpackRound.v ===== *)
(** * MsgpackRound: the two codecs agree

    An event written field for field as a msgpack map reads back as the event the
    json codec reads from its text: changing the codec of a configuration and
    nothing else changes nothing that is decoded. *)
From Stdlib Require Import Ascii String.
From stdpp Require Import strings.
From S2P Require Import Prelude GoBase GoStrings GoFloat GoTime GoFormat FloatFormat Event Projection Codec.
From S2P Require Import JsonScan JsonGrammar Json JsonDecode JsonRound Msgpack.

(** ** The map of an event *)

(** The value a producer sends for a field: its native timestamp, integers as integers, bytes as bytes. *)
Definition value_of (e : Event.t) (f : field) : any :=
  match f with
  | fieldPublisher => any_string (Publisher e)
  | fieldEpoch => any_uint64 (Epoch e)
  | fieldSeq => any_uint64 (Seq e)
  | fieldTimestamp => any_time (PublishedAt e)
  | fieldOp => any_string (Op_String (EOp e))
  | fieldKey => any_string (Event.Key e)
  | fieldMember => any_string (Member e)
  | fieldValue => match EValue e with Some v => any_bytes (Some v) | None => any_nil end
  | fieldTTL => match TTL e with Some d => any_string (FormatInt d +:+ "ns") | None => any_nil end
  | fieldDelta => any_int64 (Delta e)
  end.

Definition fields_list (e : Event.t) : list (string * any) := (λ en, (en.2.2, value_of e en.1)) <$> configKeys.
Definition fields_of (e : Event.t) : gmap string any := list_to_map (fields_list e).

Section agree.
Context {U : UnicodeTables} {F : FloatOverflow} {D : MsgpackDecoder} {O : MapOrder}.

(** The same configuration as [plain_codec]. *)
Record plain_msgpack (m : msgpackCodec) : Prop := mk_plain_msgpack {
  pm_names : Msgpack.names m = default_names;
  pm_opMap : Msgpack.opMap m = ∅;
  pm_opNames : Msgpack.opNames m = builtinOpNames;
  pm_raw : Msgpack.retainRaw m = false
}.

Lemma default_fed_once : fed_once default_names.
Proof. by apply (configured_fed_once ∅). Qed.

Lemma assignments_of m e : Msgpack.names m = default_names →
  assignments m (fields_list e) = (λ en : field * (string * string), (en.1, value_of e en.1)) <$> configKeys.
Proof. intros Hn. unfold assignments. rewrite Hn. reflexivity. Qed.

(** The assignments, in the order of the table, rebuild the event. *)
Lemma run_fields m e : plain_msgpack m → (∀ d, TTL e = Some d → 0 ≤ d ≤ max_i64) → EOp e ∈ named_ops → Raw e = None →
  run m ((λ en : field * (string * string), (en.1, value_of e en.1)) <$> configKeys) (blank (ObservedAt e) (Topic e)) = inr e.
Proof.
  intros [] Ht Ho Hr.
  assert (msgpack_op m (Op_String (EOp e)) = inr (EOp e)) as Hop.
  { unfold msgpack_op. rewrite pm_opMap0, pm_opNames0.
    repeat (apply elem_of_cons in Ho as [->|Ho]; [reflexivity|]). by apply elem_of_nil in Ho. }
  assert (msgpackValue (value_of e fieldValue) = inr (EValue e)) as Hv by (cbn; by destruct (EValue e)).
  assert (msgpackTTL (value_of e fieldTTL) = inr (TTL e)) as Httl.
  { cbn [value_of]. destruct (TTL e) as [d|]; [|done]. cbn [msgpackTTL]. cbv zeta.
    rewrite TrimSpace_graphic by by rewrite graphic_app, FormatInt_graphic.
    rewrite bool_decide_eq_false_2 by (by destruct (FormatInt d)).
    by rewrite ParseDuration_FormatInt by by apply Ht. }
  cbn [configKeys fmap list_fmap run fst msgpack_assign]. rewrite Hv, Httl.
  cbn [value_of msgpackString msgpackUint msgpackTime msgpackInt mbind sum_bind]. rewrite Hop. cbn.
  destruct e. cbn in *. by subst.
Qed.

(** C17: the codecs agree: an event reads the same from its json text and from the msgpack map of its
    fields, the order of the map and the difference of the two wire formats notwithstanding. *)
Theorem codecs_agree c m e payload :
  plain_codec c → codec_ok c → writable c e → plain_msgpack m →
  Unmarshal payload = Unmarshalled (Some (fields_of e)) → payload ≠ "" →
  Z.of_nat (String.length payload) ≤ Msgpack.maxPayloadBytes m →
  Z.of_nat (String.length (Event.Key e)) ≤ Msgpack.maxKeyBytes m →
  (Json.Decode c (encode e) (Topic e) (ObservedAt e)).2 = inr e
  ∧ Msgpack_Decode m payload (Topic e) (ObservedAt e) = inr e.
Proof.
  intros Hc Hok Hw Hm Hu Hne Hl Hk. split; [by apply json_reads_back|].
  destruct (valid_named e (wr_valid _ _ Hw)) as [Hop Httl].
  assert (String.length payload ≠ 0)%nat as H0 by (by destruct payload).
  unfold Msgpack_Decode. rewrite (proj2 (Nat.eqb_neq _ _) H0), (proj2 (gtb_false _ _) Hl), Hu, assign_fields_run.
  assert (NoDup ((fields_list e).*1)) as Hnd by (refine (bool_decide_unpack _ _); exact I).
  assert (range_map (fields_of e) ≡ₚ fields_list e) as Hp.
  { unfold range_map. rewrite range_order_perm. by apply map_to_list_to_map. }
  assert (assignments m (range_map (fields_of e)) ≡ₚ assignments m (fields_list e)) as Hpa.
  { unfold assignments. by rewrite Hp. }
  assert (assigns_op (assignments m (range_map (fields_of e))) = true) as ->.
  { unfold assigns_op. apply bool_decide_eq_true. rewrite Hpa, assignments_of by apply Hm. cbn. do 4 right. left. }
  pose proof (run_perm m _ _ Hpa) as Hrun. rewrite Hpa in Hrun.
  rewrite (assignments_of m e (pm_names _ Hm)) in Hrun at 1.
  specialize (Hrun ltac:(refine (bool_decide_unpack _ _); exact I) (blank (ObservedAt e) (Topic e))).
  rewrite assignments_of, run_fields in Hrun; [|done|intros d Hd; split; [by apply Httl|by eapply wr_ttl]|done|apply (wr_raw _ _ Hw)|apply Hm].
  destruct (run m _ _) as [err|e']; [done|]. cbn in Hrun. subst e'. cbn [mbind sum_bind orb negb].
  rewrite (proj2 (gtb_false _ _) Hk). by rewrite (pm_raw _ Hm).
Qed.
End agree.
