(* ===== verification/CodecRuns.v ===== *)
(** * CodecRuns: the codecs on concrete payloads

    Instances of the parameters, runs that satisfy the hypotheses of the codec
    theorems, and the places where the codecs do not do what a comment says. *)
From Stdlib Require Import Ascii String.
From stdpp Require Import strings.
From S2P Require Import Prelude GoBase GoStrings GoFloat GoTime GoFormat FloatFormat Event Projection Codec.
From S2P Require Import JsonScan JsonGrammar Json JsonDecode JsonRound JsonTime Template Msgpack MsgpackRound.

#[local] Existing Instance caseless.
#[local] Existing Instance amd64_overflow.
#[local] Existing Instance ascending_order.

(** ** A json codec *)

Definition default_json : jsonCodec :=
  mkJson default_names ∅ builtinOpNames (newInterner defaultMaxPublishers) (newInterner defaultMaxPublishers)
    defaultMaxPayloadBytes defaultMaxKeyBytes defaultMaxDepth false.

Lemma default_field_names : field_names ∅ configKeys ∅ = inr default_names.
Proof. vm_cast_no_check (@eq_refl (codec_error + gmap string (list field)) (inr default_names)). Qed.

Lemma newJSON_default : newJSON ∅ = inr default_json.
Proof. unfold newJSON. rewrite default_field_names. reflexivity. Qed.

Lemma default_json_plain : plain_codec default_json.
Proof. split; done. Qed.

(** A sequence number above 2^53, a quote, a backslash and a line feed. *)
Definition sample_event : Event.t :=
  Event.mk ("pub" +:+ String quote "1") 3 18446744073709551615 1785409351123456789 7 "kv" OpSet
    ("a" +:+ String backslash "b") "" (Some (String (ascii_of 10) "x")) (-5) (Some 1500000000) None.

Lemma sample_writable : writable default_json sample_event.
Proof.
  split.
  - reflexivity.
  - by vm_compute.
  - by vm_compute.
  - by vm_compute.
  - right. by vm_compute.
  - intros d [= <-]. by vm_compute.
  - reflexivity.
  - apply Z.leb_le. vm_compute. reflexivity.
  - apply Z.leb_le. vm_compute. reflexivity.
  - apply Z.leb_le. vm_compute. reflexivity.
Qed.

Lemma decode_encode_witness :
  ∃ e, Seq e = 18446744073709551615 ∧ (Json.Decode default_json (encode e) "kv" 7).2 = inr e.
Proof.
  exists sample_event. split; [reflexivity|].
  apply (decode_encode default_json sample_event); [apply default_json_plain|by split; apply newInterner_ok|apply sample_writable].
Defined.

Definition doc (body : string) : string := "{" +:+ body +:+ "}".
Definition str (s : string) : string := String quote (s +:+ String quote "").
Definition member_of (name value : string) : string := str name +:+ ":" +:+ value.
Definition with_op (op rest : string) : string :=
  doc (member_of "publisher" (str "p") +:+ "," +:+ member_of "op" (str op) +:+ "," +:+ rest).

Definition json_decode (payload : string) : codec_error + Event.t := (Json.Decode default_json payload "kv" 7).2.

Lemma decode_is_stateless_witness :
  let frames := [(with_op "heartbeat" (member_of "seq" "1"), "kv", 1); ("{", "kv", 2)] in
  (Json.Decode (decode_all default_json frames) (with_op "heartbeat" (member_of "seq" "2")) "kv" 7).2
  = json_decode (with_op "heartbeat" (member_of "seq" "2")).
Proof. intros frames. apply (decode_is_stateless ∅ default_json frames _ "kv" 7 newJSON_default). Defined.

Definition leap_day : string := "2024-02-29T23:59:58.123456789+05:30".

Lemma fast_timestamp_agrees_witness :
  ∃ t, parseRFC3339 leap_day = Some t ∧ time_Parse leap_day = Some t.
Proof.
  exists 1709231398123456789. split; [vm_compute; reflexivity|].
  apply (fast_timestamp_agrees leap_day 1709231398123456789). vm_compute. reflexivity.
Defined.

(** ** An expression engine *)

(** The index of the first space, from [i] on. *)
Fixpoint first_space (s : string) (i : Z) : option Z :=
  match s with
  | "" => None
  | String c s => if Ascii.eqb c " " then Some i else first_space s (i + 1)
  end.

Lemma first_space_range s : ∀ i j, first_space s i = Some j → i ≤ j < i + Z.of_nat (String.length s).
Proof.
  induction s as [|c s IH]; intros i j; cbn [first_space String.length]; [done|].
  destruct (Ascii.eqb c " "); [intros [= <-]; lia|]. intros Hj%IH. lia.
Qed.

(** What the engine makes of the pattern (?P<op>[^ ]* ) (?P<key>.* ), the only one of this instance. *)
Definition op_and_key : RegexpEngine.
Proof.
  refine {|
    Regexp := unit;
    Compile := λ _, Some tt;
    SubexpNames := λ _, [""; "op"; "key"];
    MatchString := λ _ s, bool_decide (is_Some (first_space s 0));
    FindSubmatchIndex := λ _ s, i ← first_space s 0;
      Some [0; Z.of_nat (String.length s); 0; i; i + 1; Z.of_nat (String.length s)]
  |}.
  - intros _ s. rewrite bool_decide_eq_true. destruct (first_space s 0); cbn; split; intros [? ?]; by eauto.
  - intros _ s idx. destruct (first_space s 0); [|done]. by intros [= <-].
  - intros _ s idx i start stop. destruct (first_space s 0) as [j|] eqn:Hj; [|done]. apply first_space_range in Hj.
    intros [= <-] H1 H2. destruct i as [|[|[|i]]]; cbn in H1, H2.
    + injection H1 as <-. injection H2 as <-. lia.
    + injection H1 as <-. injection H2 as <-. lia.
    + injection H1 as <-. injection H2 as <-. lia.
    + replace (i + S (S (S (i + 0))))%nat with (S (S (S (i + i))))%nat in H1 by lia. done.
Defined.
#[local] Existing Instance op_and_key.

Definition template_cfg : gmap string string := {[ "pattern" := "(?P<op>[^ ]*) (?P<key>.*)" ]}.
Definition default_template : templateCodec :=
  mkTemplate (tt : @Regexp op_and_key) [None; Some fieldOp; Some fieldKey] ∅ builtinOpNames
    defaultMaxPayloadBytes defaultMaxKeyBytes false.

Definition line : string := "DELETE block:9f3a" +:+ String (ascii_of 10) "".

Lemma template_decode_is_safe_witness :
  newTemplate template_cfg = inr default_template
  ∧ ∃ e, Template_Decode default_template line "kv" 7 = Some (inr e) ∧ Event.Key e = "block:9f3a" ∧ is_u64 (Seq e).
Proof.
  assert (newTemplate template_cfg = inr default_template) as Hn by (vm_compute; reflexivity). split; [exact Hn|].
  eexists. split; [vm_compute; reflexivity|]. split; [reflexivity|].
  pose proof (template_decode_is_safe template_cfg default_template line "kv" 7 Hn) as Hs.
  assert (Template_Decode default_template line "kv" 7
    = Some (inr (Event.mk "" 0 0 zero_time 7 "kv" OpDelete "block:9f3a" "" None 0 None None))) as E by (vm_compute; reflexivity).
  rewrite E in Hs. apply Hs.
Defined.

(** ** A msgpack decoder *)

(** Two payloads and what they stand for. *)
Definition two_maps (a b : gmap string any) : string → unmarshalled := λ payload,
  if bool_decide (payload = "a") then Unmarshalled (Some a)
  else if bool_decide (payload = "b") then Unmarshalled (Some b)
  else UnmarshalError.

Lemma fields_of_ok e name v : is_u64 (Seq e) → is_u64 (Epoch e) → is_i64 (Delta e) →
  fields_of e !! name = Some v → any_ok v.
Proof.
  intros Hs He Hd Hv%elem_of_list_to_map_2. apply list_elem_of_fmap in Hv as (en & [= -> ->] & Hen).
  repeat (apply elem_of_cons in Hen as [->|Hen]; [cbn; try done; by repeat case_match|]). by apply elem_of_nil in Hen.
Qed.

(** A producer that mistakes the type of a field. *)
Definition bad_fields : gmap string any := {[ "op" := any_string "set"; "seq" := any_float64 (float_of_Z 7) ]}.

Definition sample_decoder : MsgpackDecoder.
Proof.
  refine {| Unmarshal := two_maps (fields_of sample_event) bad_fields |}.
  intros payload fields name v. unfold two_maps. case_bool_decide; [|case_bool_decide; [|done]].
  - intros [= <-]. by apply fields_of_ok; vm_compute.
  - intros [= <-]. unfold bad_fields. intros [[<- <-]|[_ [_ <-]%lookup_singleton_Some]]%lookup_insert_Some; done.
Defined.
#[local] Existing Instance sample_decoder.

Definition default_msgpack : msgpackCodec :=
  mkMsgpack default_names ∅ builtinOpNames defaultMaxPayloadBytes defaultMaxKeyBytes false.

Lemma newMsgpack_default : newMsgpack ∅ = inr default_msgpack.
Proof. unfold newMsgpack. rewrite default_field_names. reflexivity. Qed.

Lemma msgpack_decode_is_safe_witness :
  Msgpack_Decode default_msgpack "b" "kv" 7 = inl ErrMalformed
  ∧ (ErrMalformed = ErrMalformed ∨ ErrMalformed = ErrTooLarge ∨ ErrMalformed = ErrUnknownOp ∨ ErrMalformed = ErrMissingField).
Proof.
  assert (Msgpack_Decode default_msgpack "b" "kv" 7 = inl ErrMalformed) as E by (vm_compute; reflexivity).
  split; [exact E|]. pose proof (msgpack_decode_is_safe ∅ default_msgpack "b" "kv" 7 newMsgpack_default) as Hs.
  rewrite E in Hs. exact Hs.
Defined.

Lemma msgpack_order_does_not_matter_witness :
  same_result (Msgpack_Decode (H1 := ascending_order) default_msgpack "a" "kv" 7)
    (Msgpack_Decode (H1 := descending_order) default_msgpack "a" "kv" 7).
Proof. exact (msgpack_order_does_not_matter ascending_order descending_order ∅ default_msgpack "a" "kv" 7 newMsgpack_default). Defined.

Lemma codecs_agree_witness :
  json_decode (encode sample_event) = inr sample_event ∧ Msgpack_Decode default_msgpack "a" "kv" 7 = inr sample_event.
Proof.
  apply (codecs_agree default_json default_msgpack sample_event "a");
    [apply default_json_plain|by split; apply newInterner_ok|apply sample_writable|by split|reflexivity|done|by vm_compute|by vm_compute].
Defined.

(** ** Where the comments do not hold *)

(** parseRFC3339 "can only ever be faster, never more permissive": an offset of 99 hours is taken when
    the string has no escape, and refused when it has one. *)
Definition odd_offset : string := "2026-01-01T00:00:00+99:99".
Definition escaped_offset : string := String backslash "u0032026-01-01T00:00:00+99:99".

Lemma fast_path_is_more_permissive :
  (parseRFC3339 odd_offset, time_Parse odd_offset) = (Some 1766863260000000000, None)
  ∧ (∃ e, json_decode (with_op "heartbeat" (member_of "ts" (str odd_offset))) = inr e)
  ∧ json_decode (with_op "heartbeat" (member_of "ts" (str escaped_offset))) = inl ErrMalformed
  ∧ unescape escaped_offset = inr odd_offset.
Proof.
  split_and!; [vm_compute; reflexivity|eexists; vm_compute; reflexivity|vm_compute; reflexivity|vm_compute; reflexivity].
Qed.

(** A time-to-live in whole seconds is multiplied without a check: 585 years are 290 milliseconds. *)
Lemma ttl_wraps_around :
  (e ← json_decode (with_op "delete" (member_of "key" (str "k") +:+ "," +:+ member_of "ttl" "18446744074")); inr (TTL e))
  = inr (Some 290448384).
Proof. vm_compute. reflexivity. Qed.

(** An operation with a space in front is unknown, unless the string happens to have an escape. *)
Lemma op_space_depends_on_an_escape :
  json_decode (with_op " delete" (member_of "key" (str "k"))) = inl ErrUnknownOp
  ∧ ∃ e, json_decode (with_op (String backslash "u0020delete") (member_of "key" (str "k"))) = inr e.
Proof. split; [|eexists]; vm_compute; reflexivity. Qed.

(** The number grammar takes leading zeros, which JSON does not have. *)
Lemma leading_zeros_are_accepted : ∃ e, json_decode (with_op "heartbeat" (member_of "seq" "007")) = inr e ∧ Seq e = 7.
Proof. eexists. split; vm_compute; reflexivity. Qed.

(** A failure that is none of the codec's sentinels: a heartbeat with a key. *)
Lemma json_failure_is_no_sentinel :
  json_decode (with_op "heartbeat" (member_of "key" (str "k"))) = inl (ErrEvent ErrUnexpectedField)
  ∧ ¬ decode_sentinel (ErrEvent ErrUnexpectedField).
Proof. split; [vm_compute; reflexivity|]. unfold decode_sentinel, ErrUnknownOp, ErrMissingField. naive_solver. Qed.

(** The decoder gives the narrowest integer type; a value of such a type is refused, a wide one is not. *)
Lemma narrow_values_are_refused :
  (msgpackValue (any_int8 42), msgpackValue (any_uint16 600), msgpackValue (any_int64 42))
  = (inl ErrMalformed, inl ErrMalformed, inr (Some "42")).
Proof. reflexivity. Qed.

(** A number "is rendered in canonical decimal": from a million on, a float is not. *)
Lemma large_floats_have_an_exponent :
  (msgpackValue (any_float64 (float_of_Z 999999)), msgpackValue (any_float64 (float_of_Z 1000000)))
  = (inr (Some "999999"), inr (Some "1e+06")).
Proof. vm_compute. reflexivity. Qed.

(** The ttl of the two codecs, "matching the json codec exactly": the empty string and a fraction of
    seconds part them. *)
Lemma ttl_codecs_differ :
  (json_ttl (mkCapture (str "") KString false true), msgpackTTL (any_string "")) = (inl ErrMalformed, inr None)
  ∧ (json_ttl (mkCapture "1.5" KNumber false true), msgpackTTL (any_float64 (float_lit 3 2)))
    = (inr (Some 1500000000), inl ErrMalformed).
Proof. split; vm_compute; reflexivity. Qed.

(** "The limits are all identical": the json codec bounds the member as it bounds the key, msgpack does not. *)
Definition long_member : string := string_of_list (replicate 4097 "m"%char).

Definition member_decoder : MsgpackDecoder.
Proof.
  refine {| Unmarshal := λ _, Unmarshalled (Some {[ "op" := any_string "add"; "member" := any_string long_member ]}) |}.
  intros payload fields name v [= <-]. by intros [[<- <-]|[_ [_ <-]%lookup_singleton_Some]]%lookup_insert_Some.
Defined.

Lemma member_limits_differ :
  json_decode (with_op "add" (member_of "key" (str "k") +:+ "," +:+ member_of "member" (str long_member))) = inl ErrTooLarge
  ∧ ∃ e, Msgpack_Decode (H0 := member_decoder) default_msgpack "x" "kv" 7 = inr e ∧ Member e = long_member.
Proof.
  split; [vm_compute; reflexivity|]. eexists. split; vm_compute; reflexivity.
Qed.

Lemma decoded_events_are_well_typed_witness :
  ∃ e, (Json.Decode default_json (encode sample_event) "kv" 7).2 = inr e ∧ EOp e ∈ named_ops ∧ is_u64 (Seq e).
Proof.
  exists sample_event.
  assert ((Json.Decode default_json (encode sample_event) "kv" 7).2 = inr sample_event) as E by (vm_compute; reflexivity).
  split; [exact E|].
  pose proof (decoded_events_are_well_typed ∅ default_json (encode sample_event) "kv" 7 sample_event newJSON_default E) as Hw.
  split; apply Hw.
Defined.
