(* ===== verification/Reference.v ===== *)
(** * Reference: the naive fold and the projections' agreement with it
      (pkg/projection/reference.go)

    [Fold] is the deliberately simple fold the property tests compare against.
    [project_all] drives a projection the way the pipeline does, one key at a
    time; for each shape the two are proved to reach the same state. *)
From S2P Require Import Prelude GoBase GoStrings Event Projection.

(** ** The reference fold *)

Record Reference := mkReference { rshape : Shape; rdelimiter : string; rincrOnly : bool }.

Definition NewReference (shape : Shape) : Reference := mkReference shape "," false.
Definition WithDelimiter (d : string) (r : Reference) : Reference :=
  mkReference (rshape r) d (rincrOnly r).
Definition WithIncrOnly (v : bool) (r : Reference) : Reference :=
  mkReference (rshape r) (rdelimiter r) v.

Abbreviation State := (gmap string Value).

Definition split_members (s delimiter : string) : gset string :=
  list_to_set (filter (λ field, field ≠ "") (strings_Split s delimiter)).

Definition applySet (r : Reference) (state : State) (e : Event.t) : State :=
  let key := Event.Key e in
  let current := match state !! key with Some v => members_of v | None => ∅ end in
  let store (current : gset string) :=
    if (size current =? 0)%nat then delete key state
    else <[key := set_value current]> state in
  match EOp e with
  | OpAdd => store ({[Event.Member e]} ∪ current)
  | OpRemove => store (current ∖ {[Event.Member e]})
  | OpDelete => delete key state
  | OpSet => store (split_members (bytes_of (EValue e)) (rdelimiter r))
  | _ => state
  end.

Definition applyScalar (state : State) (e : Event.t) : State :=
  match EOp e with
  | OpSet => <[Event.Key e := scalar_value (bytes_of (EValue e))]> state
  | OpDelete => delete (Event.Key e) state
  | _ => state
  end.

Definition applyCounter (r : Reference) (state : State) (e : Event.t) : State :=
  let key := Event.Key e in
  match EOp e with
  | OpIncr =>
      let n := match state !! key with Some v => Counter v | None => 0 end in
      let sum := i64 (n + Delta e) in
      let sum := if (Delta e >? 0) && (sum <? n) then max_i64
                 else if (Delta e <? 0) && (sum >? n) then min_i64 else sum in
      <[key := counter_value sum]> state
  | OpSet =>
      if rincrOnly r then state
      else match ParseInt (bytes_of (EValue e)) with
           | None => state
           | Some n => <[key := counter_value n]> state
           end
  | OpDelete => delete key state
  | _ => state
  end.

Definition apply (r : Reference) (state : State) (e : Event.t) : State :=
  match rshape r with
  | ShapeSet => applySet r state e
  | ShapeScalar => applyScalar state e
  | ShapeCounter => applyCounter r state e
  end.

Definition Fold (r : Reference) (events : list Event.t) : State :=
  filter (λ kv, Value_IsAbsent kv.2 = false)
    (foldl (λ state e, if negb (TouchesKey (EOp e)) then state else apply r state e) ∅ events).

(** ** Driving a projection over a stream

    The expectation a projection builds: the value under [TargetKey], tombstones
    kept as absent values; an event the projection refuses changes nothing. The
    flag records that some mutation was truncated. *)

Definition value_at (st : State) (k : string) : Value := default absent (st !! k).

Definition project_one (p : projection) (acc : State * bool) (e : Event.t) : State * bool :=
  let '(st, truncated) := acc in
  match TargetKey p e with
  | inl _ => (st, truncated)
  | inr key =>
      match Apply p (value_at st key) e with
      | inl _ => (st, truncated)
      | inr m =>
          match MAction m with
          | ActionNone => (st, truncated)
          | ActionUpsert => (<[MKey m := MValue m]> st, truncated || MTruncated m)
          | ActionDelete => (<[MKey m := absent]> st, truncated || MTruncated m)
          end
      end
  end.

Definition project_all (p : projection) (es : list Event.t) : State * bool :=
  foldl (project_one p) (∅, false) es.

(** ** Simulation, once for all shapes *)

(** The values a projection of a shape leaves behind: absent, or a present value
    in the form its constructor gives it. *)
Definition normal (s : Shape) (v : Value) : Prop :=
  v = absent
  ∨ match s with
    | ShapeSet => ∃ m, v = set_value m ∧ m ≠ ∅
    | ShapeScalar => ∃ b, v = scalar_value b
    | ShapeCounter => ∃ n, v = counter_value n
    end.

Record related (s : Shape) (st ref : State) : Prop := mk_related {
  rel_same : ∀ k, value_at st k = value_at ref k;
  rel_normal : ∀ k, normal s (value_at st k)
}.

Lemma normal_absent s v : normal s v → Value_IsAbsent v = true ↔ v = absent.
Proof.
  intros [->|Hv]; [by split|]. destruct s.
  - destruct Hv as (b & ->). by split.
  - destruct Hv as (m & -> & Hm). unfold Value_IsAbsent, members_of. cbn.
    rewrite Nat.eqb_eq, size_empty_iff, leibniz_equiv_iff. by split.
  - destruct Hv as (n & ->). by split.
Qed.

Lemma value_at_insert st k v j : value_at (<[k := v]> st) j = if decide (k = j) then v else value_at st j.
Proof. unfold value_at. rewrite lookup_insert. by case_decide. Qed.

Lemma value_at_delete (st : State) k j :
  value_at (delete k st) j = if decide (k = j) then absent else value_at st j.
Proof. unfold value_at. rewrite lookup_delete. by case_decide. Qed.

Lemma related_insert s st ref k v :
  related s st ref → normal s v → related s (<[k := v]> st) (<[k := v]> ref).
Proof.
  intros [H1 H2] Hv. constructor; intros j; rewrite ?value_at_insert; by case_decide.
Qed.

Lemma related_delete s st ref k :
  related s st ref → related s (<[k := absent]> st) (delete k ref).
Proof.
  intros [H1 H2]. constructor; intros j; rewrite value_at_insert, ?value_at_delete;
    case_decide; try done. by left.
Qed.

Lemma related_delete_absent s st ref k :
  related s st ref → value_at st k = absent → related s st (delete k ref).
Proof.
  intros [H1 H2] Hk. constructor; [|done].
  intros j. rewrite value_at_delete. case_decide; [by subst|done].
Qed.

Section simulation.
Context (p : projection) (r : Reference).
(** One event keeps the projection and the reference related. *)
Context (one_event : ∀ st ref e b,
  related (rshape r) st ref → TouchesKey (EOp e) = true →
  (project_one p (st, b) e).2 = false →
  related (rshape r) (project_one p (st, b) e).1 (apply r ref e)).
Context (untouched : ∀ acc e, TouchesKey (EOp e) = false → project_one p acc e = acc).

Lemma project_one_flag acc e : (project_one p acc e).2 = false → acc.2 = false.
Proof.
  destruct acc as [st b]. unfold project_one. repeat case_match; cbn; auto.
  all: by intros [? _]%orb_false_iff.
Qed.

Lemma project_all_flag es : ∀ acc, (foldl (project_one p) acc es).2 = false → acc.2 = false.
Proof.
  induction es as [|e es IH]; intros acc; cbn; [done|]. intros H%IH. by eapply project_one_flag.
Qed.

Lemma simulation es : ∀ acc ref,
  related (rshape r) acc.1 ref → (foldl (project_one p) acc es).2 = false →
  related (rshape r) (foldl (project_one p) acc es).1
    (foldl (λ state e, if negb (TouchesKey (EOp e)) then state else apply r state e) ref es).
Proof.
  induction es as [|e es IH]; intros acc ref Hr Hf; cbn; [done|].
  apply IH; [|done]. cbn [foldl] in Hf. apply (project_all_flag es (project_one p acc e)) in Hf.
  destruct (TouchesKey (EOp e)) eqn:Ht; cbn [negb].
  - destruct acc as [st b]. by apply (one_event st ref e b Hr Ht).
  - by rewrite untouched.
Qed.

Lemma simulation_fold es :
  (project_all p es).2 = false →
  ∀ k, value_at (project_all p es).1 k = value_at (Fold r es) k.
Proof.
  intros Hf k. destruct (simulation es (∅, false) ∅) as [H1 H2]; [|done|].
  { constructor; [done|by left]. }
  unfold project_all, Fold. rewrite H1. unfold value_at. rewrite map_lookup_filter.
  specialize (H1 k). specialize (H2 k). rewrite H1 in H2. unfold value_at in H2.
  destruct (foldl _ ∅ es !! k) as [v|] eqn:E; cbn; [|done].
  destruct (Value_IsAbsent v) eqn:Ha.
  - rewrite option_guard_False by (cbn; congruence). cbn in *. by apply (normal_absent (rshape r)).
  - by rewrite option_guard_True.
Qed.
End simulation.

(** ** The three projections, one event each *)

Definition identity_key : expander := mkExpander "" fieldRefKey.
Definition identity_member : expander := mkExpander "" fieldRefMember.

Lemma related_insert_same s st ref k v :
  related s st ref → value_at st k = v → related s st (<[k := v]> ref).
Proof.
  intros [H1 H2] Hk. constructor; [|done].
  intros j. rewrite value_at_insert. case_decide; [by subst|done].
Qed.

Lemma members_at (ref : State) k :
  match ref !! k with Some v => members_of v | None => ∅ end = members_of (value_at ref k).
Proof. unfold value_at. by destruct (ref !! k). Qed.

Lemma normal_shape s kd v :
  (match s with ShapeSet => ValueSet | ShapeScalar => ValueScalar | ShapeCounter => ValueCounter end)
    = kd → normal s v → checkShape v kd = None.
Proof.
  intros <- [->|Hv]; [done|]. destruct s; [destruct Hv as (b & ->)|destruct Hv as (b & -> & _)|
    destruct Hv as (b & ->)]; done.
Qed.

Lemma size_zero_empty (m : gset string) : (size m =? 0)%nat = bool_decide (m = ∅).
Proof.
  case_bool_decide as Hm; [by subst|]. apply Nat.eqb_neq. intros Hs. apply Hm.
  by apply leibniz_equiv, size_empty_iff.
Qed.

Lemma normal_set m : m ≠ ∅ → normal ShapeSet (set_value m).
Proof. right. eauto. Qed.

Lemma normal_members v : normal ShapeSet v → members_of v = ∅ → v = absent.
Proof. intros [->|(m & -> & Hm)]; [done|]. intros H. by destruct Hm. Qed.

Lemma normal_members_value v : normal ShapeSet v → members_of v ≠ ∅ → v = set_value (members_of v).
Proof. intros [->|(m & -> & Hm)]; [done|]. done. Qed.

(** Without truncation the bounded loop of [replace] collects the non-empty fields. *)
Lemma replace_loop_members n fields : ∀ acc,
  (replace_loop n fields acc).2 = false →
  (replace_loop n fields acc).1 = list_to_set (filter (λ f, f ≠ "") fields) ∪ acc.
Proof.
  induction fields as [|f fields IH]; intros acc; cbn [replace_loop]; [set_solver|].
  rewrite filter_cons. destruct (decide (f = "")) as [->|Hf].
  - rewrite decide_False by tauto. apply IH.
  - rewrite decide_True by done. destruct (_ >=? _); [done|]. intros H. rewrite IH by done.
    cbn [list_to_set]. set_solver.
Qed.

Lemma replace_loop_full n fields : ∀ acc,
  (replace_loop n fields acc).2 = true → n ≤ Z.of_nat (size (replace_loop n fields acc).1).
Proof.
  induction fields as [|f fields IH]; intros acc; cbn [replace_loop]; [done|].
  destruct (decide _); [by apply IH|]. destruct (_ >=? _) eqn:E; [|by apply IH].
  intros _. zbool. cbn. apply Z.leb_le in E. lia.
Qed.

(** The state changes of a set-valued key, on both sides. *)
Lemma related_store st ref key m :
  related ShapeSet st ref →
  related ShapeSet
    (if (size m =? 0)%nat then <[key := absent]> st else <[key := set_value m]> st)
    (if (size m =? 0)%nat then delete key ref else <[key := set_value m]> ref).
Proof.
  intros Hr. rewrite size_zero_empty. case_bool_decide.
  - by apply related_delete.
  - apply related_insert; [done|]. by apply normal_set.
Qed.

Section shapes.
Context `{TemplateEngine}.

Lemma keyset_untouched k acc e :
  TouchesKey (EOp e) = false → project_one (keyset_projection k) acc e = acc.
Proof.
  intros Ht. destruct acc as [st b]. unfold project_one. cbn. unfold keyset_Apply.
  rewrite Ht. by destruct (expand _ _).
Qed.

Lemma counter_untouched c acc e :
  TouchesKey (EOp e) = false → project_one (counter_projection c) acc e = acc.
Proof.
  intros Ht. destruct acc as [st b]. unfold project_one. cbn. unfold counter_Apply.
  rewrite Ht. by destruct (expand _ _).
Qed.

Lemma scalar_untouched s acc e :
  TouchesKey (EOp e) = false → project_one (scalar_projection s) acc e = acc.
Proof.
  intros Ht. destruct acc as [st b]. unfold project_one. cbn. unfold scalar_Apply.
  rewrite Ht. by destruct (expand _ _).
Qed.

Lemma keyset_one_event k io st ref e b :
  ks_keyTmpl k = identity_key → ks_memberTmpl k = identity_member → 0 < ks_maxMembers k →
  related ShapeSet st ref → TouchesKey (EOp e) = true →
  (project_one (keyset_projection k) (st, b) e).2 = false →
  related ShapeSet (project_one (keyset_projection k) (st, b) e).1
    (apply (mkReference ShapeSet (ks_delimiter k) io) ref e).
Proof.
  intros Hk Hm Hmax Hr Ht. unfold project_one. cbn [TargetKey Apply keyset_projection].
  rewrite Hk. cbn [expand identity_key Projection.ref TKey dataFor].
  unfold keyset_Apply. rewrite Ht, Hk, Hm. cbn [negb].
  set (key := Event.Key e). pose proof (rel_same _ _ _ Hr key) as Hs.
  pose proof (rel_normal _ _ _ Hr key) as Hn.
  rewrite (normal_shape ShapeSet ValueSet) by done.
  cbn [expand identity_key identity_member Projection.ref TKey TMember dataFor].
  unfold apply, applySet. cbn [rshape rdelimiter]. rewrite members_at. fold key. rewrite <- Hs.
  set (v := value_at st key) in *. destruct (EOp e) eqn:Ho; try done; cbv zeta.
  - unfold keyset_replace.
    pose proof (replace_loop_members (ks_maxMembers k)
      (strings_Split (bytes_of (EValue e)) (ks_delimiter k)) ∅) as Hl.
    pose proof (replace_loop_full (ks_maxMembers k)
      (strings_Split (bytes_of (EValue e)) (ks_delimiter k)) ∅) as Hfull.
    destruct (replace_loop _ _ _) as [m tr]. cbn in Hl, Hfull.
    pose proof (related_store st ref key m Hr) as Hst. intros Hf.
    assert (split_members (bytes_of (EValue e)) (ks_delimiter k) = m) as ->.
    { assert (tr = false) as ->; [|rewrite Hl by done; unfold split_members; set_solver].
      destruct (size m =? 0)%nat eqn:E; cbn in Hf; [|by apply orb_false_iff in Hf as [_ ->]].
      apply Nat.eqb_eq in E. destruct tr; [|done]. specialize (Hfull eq_refl). lia. }
    by destruct (size m =? 0)%nat.
  - destruct (Value_IsAbsent v) eqn:Ha; intros _; cbn.
    + apply related_delete_absent; [done|]. by apply (normal_absent ShapeSet v Hn).
    + by apply related_delete.
  - unfold keyset_add. cbv zeta. destruct (negb _ && _); cbn; [by rewrite orb_true_r|]. intros _.
    rewrite size_zero_empty, bool_decide_false by set_solver.
    apply related_insert; [done|]. apply normal_set. set_solver.
  - unfold keyset_remove. cbv zeta. case_bool_decide as Hin; cbn [negb].
    + unfold cloneMembers. intros _. pose proof (related_store st ref key (members_of v ∖ {[Event.Member e]}) Hr) as Hst.
      by destruct (size _ =? 0)%nat.
    + intros _. cbn [MAction bare_mutation fst]. rewrite difference_disjoint_L by set_solver.
      rewrite size_zero_empty. case_bool_decide as He.
      * apply related_delete_absent; [done|]. by apply normal_members.
      * apply related_insert_same; [done|]. by apply normal_members_value.
Qed.

Lemma counter_at (ref : State) k :
  match ref !! k with Some v => Counter v | None => 0 end = Counter (value_at ref k).
Proof. unfold value_at. by destruct (ref !! k). Qed.

Lemma counter_one_event c d st ref e b :
  ct_keyTmpl c = identity_key →
  related ShapeCounter st ref → TouchesKey (EOp e) = true →
  related ShapeCounter (project_one (counter_projection c) (st, b) e).1
    (apply (mkReference ShapeCounter d (ct_incrOnly c)) ref e).
Proof.
  intros Hk Hr Ht. unfold project_one. cbn [TargetKey Apply counter_projection].
  rewrite Hk. cbn [expand identity_key Projection.ref TKey dataFor].
  unfold counter_Apply. rewrite Ht, Hk. cbn [negb].
  set (key := Event.Key e). pose proof (rel_same _ _ _ Hr key) as Hs.
  pose proof (rel_normal _ _ _ Hr key) as Hn.
  rewrite (normal_shape ShapeCounter ValueCounter) by done.
  cbn [expand identity_key Projection.ref TKey dataFor].
  unfold apply, applyCounter. cbn [rshape rincrOnly]. rewrite counter_at. fold key. rewrite <- Hs.
  set (v := value_at st key) in *. destruct (EOp e) eqn:Ho; try done; cbv zeta.
  - destruct (ct_incrOnly c); [done|]. destruct (ParseInt _); [|done].
    apply related_insert; [done|]. right. by eexists.
  - destruct (Value_IsAbsent v) eqn:Ha; cbn.
    + apply related_delete_absent; [done|]. by apply (normal_absent ShapeCounter v Hn).
    + by apply related_delete.
  - unfold addSaturating. cbv zeta. destruct (_ && _); [|destruct (_ && _)]; cbn;
      (apply related_insert; [done|]; right; by eexists).
Qed.

Lemma scalar_one_event s d io st ref e b :
  sc_keyTmpl s = identity_key →
  related ShapeScalar st ref → TouchesKey (EOp e) = true →
  related ShapeScalar (project_one (scalar_projection s) (st, b) e).1
    (apply (mkReference ShapeScalar d io) ref e).
Proof.
  intros Hk Hr Ht. unfold project_one. cbn [TargetKey Apply scalar_projection].
  rewrite Hk. cbn [expand identity_key Projection.ref TKey dataFor].
  unfold scalar_Apply. rewrite Ht, Hk. cbn [negb].
  set (key := Event.Key e). pose proof (rel_same _ _ _ Hr key) as Hs.
  pose proof (rel_normal _ _ _ Hr key) as Hn.
  rewrite (normal_shape ShapeScalar ValueScalar) by done.
  cbn [expand identity_key Projection.ref TKey dataFor].
  unfold apply, applyScalar. cbn [rshape]. fold key.
  set (v := value_at st key) in *. destruct (EOp e) eqn:Ho; try done; cbv zeta.
  - apply related_insert; [done|]. right. by eexists.
  - destruct (Value_IsAbsent v) eqn:Ha; cbn.
    + apply related_delete_absent; [done|]. by apply (normal_absent ShapeScalar v Hn).
    + by apply related_delete.
Qed.

(** Which mutations can be truncated: only a keyset's. *)
Lemma counter_never_truncated c acc e : (project_one (counter_projection c) acc e).2 = acc.2.
Proof.
  destruct acc as [st b]. unfold project_one. cbn [TargetKey Apply counter_projection].
  destruct (expand _ _); [done|]. unfold counter_Apply.
  repeat (case_match; simplify_eq; cbn; try done); by rewrite ?orb_false_r.
Qed.

Lemma scalar_never_truncated s acc e : (project_one (scalar_projection s) acc e).2 = acc.2.
Proof.
  destruct acc as [st b]. unfold project_one. cbn [TargetKey Apply scalar_projection].
  destruct (expand _ _); [done|]. unfold scalar_Apply.
  repeat (case_match; simplify_eq; cbn; try done); by rewrite ?orb_false_r.
Qed.

Lemma never_truncated p es :
  (∀ acc e, (project_one p acc e).2 = acc.2) → (project_all p es).2 = false.
Proof.
  intros Hp. unfold project_all. change false with (@snd State bool (∅, false)) at 2.
  generalize ((∅ : State), false). induction es as [|e es IH]; intros acc; cbn; [done|].
  by rewrite IH.
Qed.

(** the keyset ownership projection, driven over a whole stream, holds under every key exactly
    the value of the naive reference fold, provided no member cap was hit on the way. *)
Theorem keyset_matches_reference k es :
  ks_keyTmpl k = identity_key → ks_memberTmpl k = identity_member → 0 < ks_maxMembers k →
  (project_all (keyset_projection k) es).2 = false →
  ∀ key, value_at (project_all (keyset_projection k) es).1 key
         = value_at (Fold (WithDelimiter (ks_delimiter k) (NewReference ShapeSet)) es) key.
Proof.
  intros Hk Hm Hmax Hf. apply simulation_fold; [| |done].
  - intros. by apply keyset_one_event.
  - intros. by apply keyset_untouched.
Qed.

(** the counter projection always agrees with the reference fold, saturation and refused
    events included; it has no cap, so the agreement has no side condition on the stream. *)
Theorem counter_matches_reference c es :
  ct_keyTmpl c = identity_key →
  ∀ key, value_at (project_all (counter_projection c) es).1 key
         = value_at (Fold (WithIncrOnly (ct_incrOnly c) (NewReference ShapeCounter)) es) key.
Proof.
  intros Hk. apply simulation_fold.
  - intros. by apply counter_one_event.
  - intros. by apply counter_untouched.
  - apply never_truncated, counter_never_truncated.
Qed.

(** the scalar projection always agrees with the reference fold. *)
Theorem scalar_matches_reference s es :
  sc_keyTmpl s = identity_key →
  ∀ key, value_at (project_all (scalar_projection s) es).1 key
         = value_at (Fold (NewReference ShapeScalar) es) key.
Proof.
  intros Hk. apply simulation_fold.
  - intros. by apply scalar_one_event.
  - intros. by apply scalar_untouched.
  - apply never_truncated, scalar_never_truncated.
Qed.

(** ** Order independence of the commutative counter *)

Definition upward (e : Event.t) : Prop := EOp e = OpIncr ∧ 0 ≤ Delta e ≤ max_i64.

(** A state in which every key is absent or counts up from zero. *)
Definition nonneg_state (st : State) : Prop :=
  ∀ k, (Kind (value_at st k) = ValueAbsent ∨ Kind (value_at st k) = ValueCounter)
       ∧ 0 ≤ Counter (value_at st k) ≤ max_i64.

Lemma counter_incr_step c st b e :
  upward e → nonneg_state st →
  project_one (counter_projection c) (st, b) e
  = match expand (ct_keyTmpl c) (dataFor e) with
    | inl _ => (st, b)
    | inr key =>
        (<[key := counter_value (Z.min max_i64 (Counter (value_at st key) + Delta e))]> st, b)
    end.
Proof.
  intros [Ho Hd] Hst. unfold project_one. cbn [TargetKey Apply counter_projection].
  destruct (expand _ _) as [|key] eqn:Hk; [done|].
  unfold counter_Apply. rewrite Ho, Hk. cbn [TouchesKey negb].
  destruct (Hst key) as [Hkind Hn]. unfold checkShape.
  replace (_ || _) with true by (destruct Hkind as [-> | ->]; done).
  rewrite addSaturating_spec by (unfold is_i64, min_i64, max_i64 in *; lia).
  cbn. rewrite orb_false_r. do 3 f_equal. unfold clamp_i64, min_i64, max_i64 in *. lia.
Qed.

Lemma counter_incr_nonneg c acc e :
  upward e → nonneg_state acc.1 → nonneg_state (project_one (counter_projection c) acc e).1.
Proof.
  destruct acc as [st b]. intros He Hst. rewrite counter_incr_step by done.
  destruct (expand _ _) as [|key]; [done|]. intros k. cbn [fst]. rewrite value_at_insert.
  case_decide; [|apply Hst]. cbn. split; [by right|].
  pose proof (proj2 (Hst key)) as Hk. cbn [fst] in Hk. destruct He as [_ He]. lia.
Qed.

Lemma counter_incr_swap c acc e1 e2 :
  upward e1 → upward e2 → nonneg_state acc.1 →
  project_one (counter_projection c) (project_one (counter_projection c) acc e1) e2
  = project_one (counter_projection c) (project_one (counter_projection c) acc e2) e1.
Proof.
  intros H1 H2 Hst. pose proof (counter_incr_nonneg c acc e1 H1 Hst) as Hs1.
  pose proof (counter_incr_nonneg c acc e2 H2 Hst) as Hs2. destruct acc as [st b].
  rewrite counter_incr_step in Hs1 |- * by done.
  rewrite (counter_incr_step c st b e2) in Hs2 |- * by done.
  destruct (expand _ (dataFor e1)) as [|k1] eqn:E1, (expand _ (dataFor e2)) as [|k2] eqn:E2;
    rewrite ?counter_incr_step by done; rewrite ?E1, ?E2; try done.
  rewrite !value_at_insert. destruct H1 as [_ H1], H2 as [_ H2].
  destruct (decide (k1 = k2)) as [->|Hne].
  - rewrite !decide_True by done. rewrite !insert_insert_eq. cbn. do 3 f_equal. lia.
  - rewrite !decide_False by congruence. by rewrite insert_insert_ne.
Qed.

Lemma project_all_upward_permutation c es es' :
  es ≡ₚ es' → Forall upward es → ∀ acc, nonneg_state acc.1 →
  foldl (project_one (counter_projection c)) acc es
  = foldl (project_one (counter_projection c)) acc es'.
Proof.
  induction 1 as [|e es es' Hp IH|e1 e2 es|es1 es2 es3 Hp1 IH1 Hp2 IH2]; intros Hu acc Hst.
  - done.
  - inversion Hu; subst. cbn. apply IH; [done|]. by apply counter_incr_nonneg.
  - inversion Hu as [|? ? ? Hu']; subst. inversion Hu'; subst. cbn.
    by rewrite counter_incr_swap.
  - rewrite IH1 by done. apply IH2; [|done]. by rewrite <- Hp1.
Qed.

(** increments that do not decrease the counter may arrive in any order: every permutation of
    the stream folds to the same state, saturation included. *)
Theorem increments_commute c es es' :
  es ≡ₚ es' → Forall upward es →
  project_all (counter_projection c) es = project_all (counter_projection c) es'.
Proof.
  intros Hp Hu. apply project_all_upward_permutation; [done|done|].
  intros k. unfold value_at. cbn [fst]. rewrite lookup_empty. cbn [default Kind Counter absent]. unfold max_i64. split; [by left|lia].
Qed.
End shapes.

(** an incrOnly counter declares itself commutative although it accepts deletes and signed
    deltas, and neither commutes: two orders of the same events leave different states. *)
Theorem commutative_counter_is_order_dependent :
  Commutative (@counter_projection identity_engine sample_counter) = true
  ∧ (∃ es es', es ≡ₚ es' ∧ Forall (λ e, EOp e = OpIncr ∨ EOp e = OpDelete) es
      ∧ (project_all (@counter_projection identity_engine sample_counter) es).1
        ≠ (project_all (@counter_projection identity_engine sample_counter) es').1)
  ∧ (∃ es es', es ≡ₚ es' ∧ Forall (λ e, EOp e = OpIncr) es
      ∧ (project_all (@counter_projection identity_engine sample_counter) es).1
        ≠ (project_all (@counter_projection identity_engine sample_counter) es').1).
Proof.
  split; [done|]. split.
  - exists [sample_event OpIncr "k" "" None 1; sample_event OpDelete "k" "" None 0],
      [sample_event OpDelete "k" "" None 0; sample_event OpIncr "k" "" None 1].
    split; [apply perm_swap|]. split; [repeat constructor; naive_solver|].
    intros Heq. apply (f_equal (λ st : State, st !! "k")) in Heq. vm_compute in Heq. discriminate.
  - exists [sample_event OpIncr "k" "" None max_i64; sample_event OpIncr "k" "" None 1;
            sample_event OpIncr "k" "" None (-1)],
      [sample_event OpIncr "k" "" None max_i64; sample_event OpIncr "k" "" None (-1);
       sample_event OpIncr "k" "" None 1].
    split; [apply perm_skip, perm_swap|]. split; [repeat constructor; naive_solver|].
    intros Heq. apply (f_equal (λ st : State, st !! "k")) in Heq. vm_compute in Heq. discriminate.
Qed.

(** ** Witnesses *)

Definition sample_stream : list Event.t :=
  [sample_event OpAdd "k" "a" None 0; sample_event OpAdd "k" "b" None 0;
   sample_event OpRemove "k" "a" None 0; sample_event OpSet "j" "" (Some "x,,y") 0;
   sample_event OpDelete "j" "" None 0].

Lemma keyset_matches_reference_witness :
  value_at (project_all (@keyset_projection identity_engine (sample_keyset 3)) sample_stream).1 "k"
  = value_at (Fold (NewReference ShapeSet) sample_stream) "k"
  ∧ value_at (Fold (NewReference ShapeSet) sample_stream) "k" = set_value {["b"]}.
Proof.
  split; [|reflexivity].
  apply (@keyset_matches_reference identity_engine (sample_keyset 3)); reflexivity.
Defined.

Lemma counter_matches_reference_witness :
  value_at (project_all (@counter_projection identity_engine sample_counter)
    [sample_event OpIncr "k" "" None 2; sample_event OpSet "k" "" (Some "9") 0]).1 "k"
  = value_at (Fold (WithIncrOnly true (NewReference ShapeCounter))
    [sample_event OpIncr "k" "" None 2; sample_event OpSet "k" "" (Some "9") 0]) "k".
Proof. apply (@counter_matches_reference identity_engine sample_counter). reflexivity. Defined.

Lemma scalar_matches_reference_witness :
  value_at (project_all (@scalar_projection identity_engine
      (mkScalar (mkExpander "" fieldRefKey) (mkOwnership false ""))) sample_stream).1 "j"
  = value_at (Fold (NewReference ShapeScalar) sample_stream) "j".
Proof.
  apply (@scalar_matches_reference identity_engine
    (mkScalar (mkExpander "" fieldRefKey) (mkOwnership false ""))). reflexivity.
Defined.

Lemma increments_commute_witness :
  project_all (@counter_projection identity_engine sample_counter)
    [sample_event OpIncr "k" "" None max_i64; sample_event OpIncr "k" "" None 7]
  = project_all (@counter_projection identity_engine sample_counter)
    [sample_event OpIncr "k" "" None 7; sample_event OpIncr "k" "" None max_i64].
Proof.
  apply (@increments_commute identity_engine sample_counter).
  - apply perm_swap.
  - repeat constructor; cbn; unfold max_i64; lia.
Defined.
