(* ===== verification/GapSet.v ===== *)
(** * GapSet: the interval set of missing sequence numbers (pkg/seqtrack/gapset.go)

    [Interval] and [t] are the Go structs, [Add], [Fill], [Contains], [Count],
    [Clear], [clone] and the cap enforcement are the methods. The set a gap set
    stands for is [covers]; every method is specified by what it does to it. *)
From stdpp Require Import pretty.
From S2P Require Import Prelude GoBase.

(** ** Data *)

Definition defaultMaxIntervals : Z := 1024.

Record Interval := mkInterval { From : Z; To : Z }.

Definition Interval_Count (i : Interval) : Z := u64 (To i - From i + 1).

Definition Interval_String (i : Interval) : string :=
  "[" +:+ pretty (From i) +:+ "," +:+ pretty (To i) +:+ "]".

Record t := mk {
  intervals : list Interval;
  maxIntervals : Z;
  truncated : bool
}.

Definition set_intervals (l : list Interval) (g : t) : t :=
  mk l (maxIntervals g) (truncated g).

Definition NewGapSet (maxIntervals : Z) : t :=
  let maxIntervals := if maxIntervals <=? 0 then defaultMaxIntervals else maxIntervals in
  mk [] maxIntervals false.

(** ** enforceCap *)

(** The inner loop: the index of the first pair separated by the smallest hole,
    among the pairs that start at [i] and later. *)
Fixpoint smallest_hole (l : list Interval) (i best : nat) (bestHole : Z) : nat :=
  match l with
  | a :: (b :: _) as rest =>
      let hole := u64 (From b - To a) in
      if hole <? bestHole then smallest_hole rest (S i) i hole
      else smallest_hole rest (S i) best bestHole
  | _ => best
  end.

(** [intervals[best].To = intervals[best+1].To], then drop [best+1]. *)
Definition merge_at (best : nat) (l : list Interval) : list Interval :=
  match l !! best, l !! S best with
  | Some a, Some b => take best l ++ mkInterval (From a) (To b) :: drop (S (S best)) l
  | _, _ => l
  end.

(** The loop runs until the list fits; each turn removes one interval, so the
    length of the list is enough fuel ([enforceCap_fits]). *)
Fixpoint enforceCap_loop (fuel : nat) (g : t) : t :=
  match fuel with
  | O => g
  | S fuel' =>
      if Z.of_nat (length (intervals g)) >? maxIntervals g then
        let best := smallest_hole (intervals g) 0 0 max_u64 in
        enforceCap_loop fuel' (mk (merge_at best (intervals g)) (maxIntervals g) true)
      else g
  end.

Definition enforceCap (g : t) : t := enforceCap_loop (length (intervals g)) g.

(** ** Add *)

Fixpoint absorb_end (suffix : list Interval) (hi : nat) (to : Z) : nat :=
  match suffix with
  | [] => hi
  | iv :: rest =>
      let start := From iv in
      if negb (to =? max_u64) && (start >? u64 (to + 1)) then hi
      else if to =? max_u64 then (hi + length suffix)%nat
      else absorb_end rest (S hi) to
  end.

(** The index of the first interval that touches or abuts [from, to]. *)
Definition absorb_start (l : list Interval) (from : Z) : nat :=
  sort_Search (length l)
    (at_index l (λ iv, if from =? 0 then To iv >=? from else To iv >=? u64 (from - 1))).

Definition merged_interval (l : list Interval) (lo hi : nat) (from to : Z) : Interval :=
  if (lo <? hi)%nat then
    let from' := match l !! lo with
                 | Some iv => if From iv <? from then From iv else from
                 | None => from end in
    let to' := match l !! (hi - 1)%nat with
               | Some iv => if To iv >? to then To iv else to
               | None => to end in
    mkInterval from' to'
  else mkInterval from to.

(** [None] is the panic on [from > to]. *)
Definition Add (from to : Z) (g : t) : option t :=
  if from >? to then None
  else
    let l := intervals g in
    let lo := absorb_start l from in
    let hi := absorb_end (drop lo l) lo to in
    let merged := merged_interval l lo hi from to in
    let l' := if (lo <? hi)%nat then take lo l ++ merged :: drop hi l
              else take lo l ++ merged :: drop lo l in
    Some (enforceCap (set_intervals l' g)).

(** ** Lookup, Fill and the remaining methods *)

(** [-1] is [None]. *)
Definition find (seq : Z) (g : t) : option nat :=
  let l := intervals g in
  let i := sort_Search (length l) (at_index l (λ iv, To iv >=? seq)) in
  if (i <? length l)%nat && at_index l (λ iv, From iv <=? seq) i then Some i else None.

Definition Contains (seq : Z) (g : t) : bool :=
  match find seq g with Some _ => true | None => false end.

Definition Fill (seq : Z) (g : t) : t :=
  match find seq g with
  | None => g
  | Some i =>
      let l := intervals g in
      match l !! i with
      | None => g
      | Some iv =>
          if From iv =? To iv then set_intervals (take i l ++ drop (S i) l) g
          else if seq =? From iv then
            set_intervals (<[i := mkInterval (u64 (seq + 1)) (To iv)]> l) g
          else if seq =? To iv then
            set_intervals (<[i := mkInterval (From iv) (u64 (seq - 1))]> l) g
          else
            enforceCap (set_intervals
              (take i l ++ mkInterval (From iv) (u64 (seq - 1))
                        :: mkInterval (u64 (seq + 1)) (To iv) :: drop (S i) l) g)
      end
  end.

Definition Count (g : t) : Z :=
  foldl (λ total iv, u64 (total + Interval_Count iv)) 0 (intervals g).

Definition Intervals (g : t) : list Interval := intervals g.
Definition Truncated (g : t) : bool := truncated g.
Definition Clear (g : t) : t := mk [] (maxIntervals g) false.
Definition clone (g : t) : t := mk (intervals g) (maxIntervals g) (truncated g).

(** ** The set a gap set stands for, and its representation invariant *)

Definition covered_by (l : list Interval) (s : Z) : Prop :=
  ∃ iv, iv ∈ l ∧ From iv ≤ s ≤ To iv.
Definition covers (g : t) (s : Z) : Prop := covered_by (intervals g) s.

(** Two intervals in order with at least one sequence number between them. *)
Definition apart (a b : Interval) : Prop := To a + 1 < From b.
Definition valid (iv : Interval) : Prop := 0 ≤ From iv ∧ From iv ≤ To iv ∧ To iv ≤ max_u64.

Definition sorted_apart (l : list Interval) : Prop :=
  Forall valid l ∧ StronglySorted apart l.

Record wf (g : t) : Prop := mk_wf {
  wf_sorted : sorted_apart (intervals g);
  wf_cap : 1 ≤ maxIntervals g;
  wf_fits : Z.of_nat (length (intervals g)) ≤ maxIntervals g
}.

(** ** Lemmas on sorted interval lists *)

Lemma covered_by_app l1 l2 s : covered_by (l1 ++ l2) s ↔ covered_by l1 s ∨ covered_by l2 s.
Proof. unfold covered_by. set_solver. Qed.

Lemma covered_by_cons iv l s :
  covered_by (iv :: l) s ↔ From iv ≤ s ≤ To iv ∨ covered_by l s.
Proof. unfold covered_by. set_solver. Qed.

Lemma covered_by_nil s : ¬ covered_by [] s.
Proof. unfold covered_by. set_solver. Qed.

#[export] Hint Rewrite covered_by_app covered_by_cons : drift.

Lemma sorted_apart_app l1 l2 :
  sorted_apart (l1 ++ l2) ↔
    sorted_apart l1 ∧ sorted_apart l2 ∧ (∀ a b, a ∈ l1 → b ∈ l2 → apart a b).
Proof. unfold sorted_apart. rewrite Forall_app, StronglySorted_app. naive_solver. Qed.

Lemma sorted_apart_cons iv l :
  sorted_apart (iv :: l) ↔ valid iv ∧ sorted_apart l ∧ (∀ b, b ∈ l → apart iv b).
Proof.
  unfold sorted_apart. rewrite Forall_cons. split.
  - intros ((Hv & Hf) & Hs). inversion Hs as [|? ? Hs' Ha]; subst.
    rewrite Forall_forall in Ha. auto.
  - intros (Hv & (Hf & Hs) & Ha). split; [auto|]. constructor; [done|]. by apply Forall_forall.
Qed.

Lemma sorted_apart_nil : sorted_apart [].
Proof. split; constructor. Qed.

Lemma sorted_apart_valid l iv : sorted_apart l → iv ∈ l → valid iv.
Proof. intros [H _]. rewrite Forall_forall in H. auto. Qed.

(** Decides [sorted_apart] of a list of known length. *)
Ltac sorted_concrete :=
  rewrite ?sorted_apart_cons; split_and!; try apply sorted_apart_nil;
  unfold valid, apart, max_u64 in *; cbn in *; try lia;
  let b := fresh in let Hb := fresh in
  intros b Hb; repeat (apply elem_of_cons in Hb as [->|Hb]; [cbn; lia|]);
  by apply elem_of_nil in Hb.

Lemma sorted_apart_lookup l i j a b :
  sorted_apart l → (i < j)%nat → l !! i = Some a → l !! j = Some b → apart a b.
Proof.
  intros Hs Hij Ha Hb. rewrite <- (take_drop j l) in Hs.
  apply sorted_apart_app in Hs as (_ & _ & H). apply H.
  - apply list_elem_of_lookup. exists i. by rewrite lookup_take_lt.
  - apply list_elem_of_lookup. exists 0%nat. rewrite lookup_drop. by rewrite Nat.add_0_r.
Qed.

Lemma sorted_apart_lookup_le l i j a b :
  sorted_apart l → (i ≤ j)%nat → l !! i = Some a → l !! j = Some b →
  From a ≤ From b ∧ To a ≤ To b.
Proof.
  intros Hs Hij Ha Hb. destruct (decide (i = j)) as [->|]; [simplify_eq; lia|].
  pose proof (sorted_apart_lookup l i j a b Hs ltac:(lia) Ha Hb).
  pose proof (sorted_apart_valid l a Hs (list_elem_of_lookup_2 _ _ _ Ha)).
  pose proof (sorted_apart_valid l b Hs (list_elem_of_lookup_2 _ _ _ Hb)).
  unfold apart, valid in *. lia.
Qed.

Lemma sorted_apart_remove_mid l1 l2 l3 :
  sorted_apart (l1 ++ l2 ++ l3) → sorted_apart (l1 ++ l3).
Proof.
  rewrite !sorted_apart_app. intros (H1 & (H2 & H3 & H23) & H123).
  split_and!; auto. intros. apply H123; [done|]. apply elem_of_app. by right.
Qed.

Lemma sorted_apart_drop n l : sorted_apart l → sorted_apart (drop n l).
Proof. intros Hs. rewrite <- (take_drop n l) in Hs. by apply sorted_apart_app in Hs as (_ & ? & _). Qed.

(** The closures [sort.Search] is given here are monotone on a sorted list. *)
Lemma upto_mono_To l c :
  sorted_apart l → upto_mono (length l) (at_index l (λ iv, To iv >=? c)).
Proof.
  intros Hs a b Hab. unfold at_index.
  destruct (l !! a) as [x|] eqn:Ha; [|done].
  destruct (lookup_lt_is_Some_2 l b) as [y Hy]; [lia|]. rewrite Hy.
  intros H. zbool. destruct (decide (a = b)) as [->|].
  { simplify_eq. apply Z.geb_le. lia. }
  pose proof (sorted_apart_lookup l a b x y Hs ltac:(lia) Ha Hy) as Hxy.
  pose proof (sorted_apart_valid l y Hs (list_elem_of_lookup_2 _ _ _ Hy)) as Hv.
  unfold apart, valid in *. apply Z.geb_le. lia.
Qed.

Lemma absorb_start_mono l from :
  is_u64 from → sorted_apart l →
  upto_mono (length l)
    (at_index l (λ iv, if from =? 0 then To iv >=? from else To iv >=? u64 (from - 1))).
Proof. intros _ Hs. destruct (from =? 0); by apply upto_mono_To. Qed.

(** ** enforceCap *)

Definition hole_at (l : list Interval) (i : nat) : Z :=
  match l !! i, l !! S i with Some a, Some b => u64 (From b - To a) | _, _ => max_u64 end.

Lemma hole_at_range l k : is_u64 (hole_at l k).
Proof.
  unfold hole_at. destruct (l !! k), (l !! S k); eauto with drift.
  all: unfold is_u64, max_u64; lia.
Qed.

Lemma smallest_hole_cases l : ∀ i best h,
  (smallest_hole l i best h = best ∧ ∀ k, (S k < length l)%nat → h ≤ hole_at l k)
  ∨ (∃ k, (S k < length l)%nat ∧ smallest_hole l i best h = (i + k)%nat ∧ hole_at l k < h
          ∧ ∀ k', (S k' < length l)%nat → hole_at l k ≤ hole_at l k').
Proof.
  induction l as [|a [|b l] IH]; intros i best h.
  1,2: left; split; [done|]; simpl; intros; lia.
  change (smallest_hole (a :: b :: l) i best h) with
    (if u64 (From b - To a) <? h then smallest_hole (b :: l) (S i) i (u64 (From b - To a))
     else smallest_hole (b :: l) (S i) best h).
  assert (∀ k, hole_at (a :: b :: l) (S k) = hole_at (b :: l) k) as HS by done.
  assert (hole_at (a :: b :: l) 0 = u64 (From b - To a)) as H0 by done.
  cbn [length]. destruct (Z.ltb_spec (u64 (From b - To a)) h) as [Hlt|Hge].
  - right. destruct (IH (S i) i (u64 (From b - To a))) as [[-> Hall]|(k & Hk & -> & Hlt' & Hall)].
    + exists 0%nat. split_and!; [lia|lia|lia|]. intros [|k'] Hk'; [lia|]. rewrite HS, H0.
      apply Hall. simpl in *. lia.
    + exists (S k). rewrite HS. simpl in *. split_and!; [lia|lia|lia|].
      intros [|k'] Hk'; [lia|]. rewrite HS. apply Hall. lia.
  - destruct (IH (S i) best h) as [[-> Hall]|(k & Hk & -> & Hlt' & Hall)]; simpl in *.
    + left. split; [done|]. intros [|k'] Hk'; [lia|]. rewrite HS. apply Hall. lia.
    + right. exists (S k). rewrite HS. split_and!; [lia|lia|lia|].
      intros [|k'] Hk'; [lia|]. rewrite HS. apply Hall. lia.
Qed.

(** The pair merged is a pair of the list, and no other pair has a smaller hole. *)
Lemma smallest_hole_best l :
  (2 ≤ length l)%nat →
  let r := smallest_hole l 0 0 max_u64 in
  (S r < length l)%nat ∧ ∀ k, (S k < length l)%nat → hole_at l r ≤ hole_at l k.
Proof.
  intros Hl. destruct (smallest_hole_cases l 0 0 max_u64) as [[-> H]|(k & Hk & -> & _ & H)].
  - split; [lia|]. intros k Hk. specialize (H k Hk). pose proof (hole_at_range l 0).
    unfold is_u64 in *. lia.
  - by split.
Qed.

Lemma merge_at_split l r :
  (S r < length l)%nat →
  ∃ l1 a b l2, l = l1 ++ a :: b :: l2 ∧ length l1 = r
    ∧ merge_at r l = l1 ++ mkInterval (From a) (To b) :: l2.
Proof.
  intros Hr. destruct (lookup_lt_is_Some_2 l r) as [a Ha]; [lia|].
  destruct (lookup_lt_is_Some_2 l (S r)) as [b Hb]; [lia|].
  exists (take r l), a, b, (drop (S (S r)) l). unfold merge_at. rewrite Ha, Hb.
  split_and!; [|rewrite length_take; lia|done].
  rewrite <- (take_drop_middle l r a Ha) at 1. do 2 f_equal.
  rewrite <- (drop_S l b (S r) Hb). done.
Qed.

Lemma merge_at_sorted l r :
  (S r < length l)%nat → sorted_apart l → sorted_apart (merge_at r l).
Proof.
  intros Hr Hs. destruct (merge_at_split l r Hr) as (l1 & a & b & l2 & -> & _ & ->).
  rewrite sorted_apart_app, !sorted_apart_cons in Hs.
  rewrite sorted_apart_app, sorted_apart_cons.
  destruct Hs as (H1 & (Va & (Vb & H2 & Hb) & Ha) & H12).
  pose proof (Ha b ltac:(set_solver)) as Hab. unfold valid, apart in *; cbn in *.
  split_and!; auto; try lia.
  intros x y Hx Hy. apply elem_of_cons in Hy as [->|Hy]; cbn.
  - specialize (H12 x a Hx). set_solver.
  - apply H12; set_solver.
Qed.

Lemma merge_at_covers l r s :
  (S r < length l)%nat → sorted_apart l → covered_by l s → covered_by (merge_at r l) s.
Proof.
  intros Hr Hs. destruct (merge_at_split l r Hr) as (l1 & a & b & l2 & -> & _ & ->).
  rewrite sorted_apart_app, !sorted_apart_cons in Hs.
  destruct Hs as (H1 & (Va & (Vb & H2 & Hb) & Ha) & H12).
  pose proof (Ha b ltac:(set_solver)) as Hab. unfold valid, apart in *.
  autorewrite with drift. cbn. intuition lia.
Qed.

Lemma merge_at_length l r :
  (S r < length l)%nat → length (merge_at r l) = (length l - 1)%nat.
Proof.
  intros Hr. destruct (merge_at_split l r Hr) as (l1 & a & b & l2 & -> & _ & ->).
  rewrite !length_app. simpl. lia.
Qed.

Lemma enforceCap_loop_spec fuel : ∀ g,
  sorted_apart (intervals g) → 1 ≤ maxIntervals g → (length (intervals g) ≤ fuel)%nat →
  let g' := enforceCap_loop fuel g in
  wf g' ∧ maxIntervals g' = maxIntervals g
  ∧ (∀ s, covers g s → covers g' s)
  ∧ truncated g' = truncated g || (Z.of_nat (length (intervals g)) >? maxIntervals g).
Proof.
  induction fuel as [|fuel IH]; intros g Hs Hm Hf; cbn [enforceCap_loop].
  - assert ((Z.of_nat (length (intervals g)) >? maxIntervals g) = false) as ->.
    { rewrite Z.gtb_ltb. apply Z.ltb_ge. lia. }
    rewrite orb_false_r. split_and!; auto. constructor; auto. lia.
  - rewrite Z.gtb_ltb. destruct (Z.ltb_spec (maxIntervals g) (Z.of_nat (length (intervals g))))
      as [Hlt|Hge]; cbv zeta.
    2: { split_and!; auto; [by constructor|by destruct (truncated g)]. }
    destruct (smallest_hole_best (intervals g)) as [Hr _]; [lia|].
    set (r := smallest_hole _ _ _ _) in *.
    specialize (IH (mk (merge_at r (intervals g)) (maxIntervals g) true)); cbn in IH.
    destruct IH as (Hwf & Hmax & Hc & Ht); auto using merge_at_sorted.
    { rewrite merge_at_length by done. lia. }
    split_and!; auto.
    + intros s Hc'. apply Hc. unfold covers; cbn. by apply merge_at_covers.
    + rewrite Ht. cbn. by rewrite orb_true_r.
Qed.

(** The cap is enforced, nothing recorded is lost, and the flag says whether it was hit. *)
Lemma enforceCap_spec g :
  sorted_apart (intervals g) → 1 ≤ maxIntervals g →
  wf (enforceCap g) ∧ maxIntervals (enforceCap g) = maxIntervals g
  ∧ (∀ s, covers g s → covers (enforceCap g) s)
  ∧ truncated (enforceCap g) = truncated g || (Z.of_nat (length (intervals g)) >? maxIntervals g).
Proof. intros. by apply enforceCap_loop_spec. Qed.

Lemma enforceCap_id g :
  Z.of_nat (length (intervals g)) ≤ maxIntervals g → enforceCap g = g.
Proof.
  intros H. unfold enforceCap. destruct (length (intervals g)) eqn:E; [done|].
  cbn. rewrite E. destruct (Z.gtb_spec (Z.of_nat (S n)) (maxIntervals g)); [lia|done].
Qed.

(** ** Add *)

(** The interval a search starts from splits the list: what lies before it ends
    below [from - 1], what lies after reaches [from - 1]. *)
Lemma absorb_start_split l from :
  is_u64 from → sorted_apart l →
  let lo := absorb_start l from in
  (lo ≤ length l)%nat
  ∧ (∀ iv, iv ∈ take lo l → To iv + 1 < from)
  ∧ (∀ iv, iv ∈ drop lo l → from ≤ To iv + 1).
Proof.
  intros Hf Hs lo. subst lo. unfold absorb_start.
  destruct (sort_Search_split l (λ iv, if from =? 0 then To iv >=? from
                                       else To iv >=? u64 (from - 1))) as (H1 & H2 & H3).
  { by apply absorb_start_mono. }
  unfold is_u64, max_u64 in Hf. split_and!; [done| |].
  - intros iv Hiv. specialize (H2 iv Hiv).
    pose proof (sorted_apart_valid l iv Hs (take_In _ _ _ Hiv)) as Hv.
    unfold valid in Hv. destruct (Z.eqb_spec from 0); zbool; [lia|].
    rewrite u64_small in H2 by (unfold is_u64, max_u64; lia). lia.
  - intros iv Hiv. specialize (H3 iv Hiv).
    destruct (Z.eqb_spec from 0); zbool; [lia|].
    rewrite u64_small in H3 by (unfold is_u64, max_u64; lia). lia.
Qed.

Lemma absorb_end_split suffix : ∀ hi to,
  is_u64 to → sorted_apart suffix →
  ∃ n, absorb_end suffix hi to = (hi + n)%nat ∧ (n ≤ length suffix)%nat
    ∧ (∀ iv, iv ∈ take n suffix → From iv ≤ to + 1)
    ∧ (∀ iv, iv ∈ drop n suffix → to + 1 < From iv).
Proof.
  induction suffix as [|iv l IH]; intros hi to Hto Hs.
  { exists 0%nat. cbn. split_and!; [lia|lia|set_solver|set_solver]. }
  pose proof Hs as (Hv & Hl & Ha)%sorted_apart_cons.
  cbn [absorb_end]. destruct (Z.eqb_spec to max_u64) as [->|Hne]; cbn [negb andb].
  - exists (length (iv :: l)). split_and!; [done|done| |].
    + intros x Hx%take_In. pose proof (sorted_apart_valid _ _ Hs Hx) as Hx'.
      unfold valid in Hx'. lia.
    + rewrite drop_all. set_solver.
  - rewrite u64_small by (unfold is_u64 in *; lia). rewrite Z.gtb_ltb.
    destruct (Z.ltb_spec (to + 1) (From iv)) as [Hlt|Hge].
    + exists 0%nat. split_and!; [lia|lia|set_solver|]. cbn. intros x Hx.
      apply elem_of_cons in Hx as [->|Hx]; [done|]. specialize (Ha x Hx).
      unfold apart, valid in *. lia.
    + destruct (IH (S hi) to Hto Hl) as (n & Hn & Hn' & H1 & H2).
      exists (S n). cbn. split_and!; [lia|lia| |done].
      intros x Hx. apply elem_of_cons in Hx as [->|Hx]; [lia|by apply H1].
Qed.

(** What [Add] puts in place of the absorbed intervals covers them and [from, to]. *)
Lemma merged_interval_covers l lo n from to :
  from ≤ to → sorted_apart l →
  (lo + n ≤ length l)%nat →
  (∀ iv, iv ∈ take n (drop lo l) → from ≤ To iv + 1 ∧ From iv ≤ to + 1) →
  let m := merged_interval l lo (lo + n) from to in
  From m ≤ from ∧ to ≤ To m
  ∧ (From m = from ∨ ∃ iv, iv ∈ take n (drop lo l) ∧ From m = From iv)
  ∧ (To m = to ∨ ∃ iv, iv ∈ take n (drop lo l) ∧ To m = To iv)
  ∧ ∀ s, From m ≤ s ≤ To m ↔ from ≤ s ≤ to ∨ covered_by (take n (drop lo l)) s.
Proof.
  intros Hft Hs Hlen Hm. unfold merged_interval.
  destruct (Nat.ltb_spec lo (lo + n)) as [Hlt|Hge].
  2: { replace n with 0%nat by lia. cbn.
       pose proof covered_by_nil. split_and!; auto; try lia. naive_solver. }
  destruct (lookup_lt_is_Some_2 l lo) as [x Hx]; [lia|].
  destruct (lookup_lt_is_Some_2 l (lo + n - 1)) as [y Hy]; [lia|].
  rewrite Hx, Hy. cbv zeta. cbn [From To].
  assert (x ∈ take n (drop lo l)) as Hxin.
  { apply list_elem_of_lookup. exists 0%nat. rewrite lookup_take_lt by lia.
    rewrite lookup_drop, Nat.add_0_r. done. }
  assert (y ∈ take n (drop lo l)) as Hyin.
  { apply list_elem_of_lookup. exists (n - 1)%nat. rewrite lookup_take_lt by lia.
    rewrite lookup_drop. replace (lo + (n - 1))%nat with (lo + n - 1)%nat by lia. done. }
  pose proof (Hm x Hxin). pose proof (Hm y Hyin).
  assert (∀ z, z ∈ take n (drop lo l) → From x ≤ From z ∧ To z ≤ To y) as Hends.
  { intros z (k & Hk & Hlt')%elem_of_take. rewrite lookup_drop in Hk. split.
    - apply (sorted_apart_lookup_le l lo (lo + k)); auto; lia.
    - apply (sorted_apart_lookup_le l (lo + k) (lo + n - 1)); auto; lia. }
  pose proof (sorted_apart_valid l x Hs (list_elem_of_lookup_2 _ _ _ Hx)).
  pose proof (sorted_apart_valid l y Hs (list_elem_of_lookup_2 _ _ _ Hy)).
  rewrite Z.gtb_ltb. unfold valid in *.
  destruct (Z.ltb_spec (From x) from), (Z.ltb_spec to (To y)).
  all: split_and!; try lia; eauto 6.
  all: intros s; split; [|intros [?|(z & Hz & ?)]; [lia|specialize (Hends z Hz); lia]].
  all: intros ?; destruct (decide (from ≤ s ≤ to)) as [|Hn]; [by left|right].
  all: unfold covered_by; destruct (decide (s < from)); [exists x|exists y]; split; auto; lia.
Qed.

(** The list [Add] builds before the cap is enforced. *)
Definition spliced (from to : Z) (l : list Interval) : list Interval :=
  let lo := absorb_start l from in
  let hi := absorb_end (drop lo l) lo to in
  take lo l ++ merged_interval l lo hi from to :: drop hi l.

Lemma Add_spliced from to g :
  from ≤ to → is_u64 from → is_u64 to → wf g →
  Add from to g = Some (enforceCap (set_intervals (spliced from to (intervals g)) g)).
Proof.
  intros Hft Hf Ht [Hs _ _]. unfold Add, spliced.
  rewrite Z.gtb_ltb. destruct (Z.ltb_spec to from); [lia|]. cbv zeta.
  set (l := intervals g). set (lo := absorb_start l from).
  destruct (absorb_end_split (drop lo l) lo to Ht) as (n & -> & _ & _ & _).
  { by apply sorted_apart_drop. }
  destruct (Nat.ltb_spec lo (lo + n)); [done|].
  replace (lo + n)%nat with lo by lia. done.
Qed.

Lemma spliced_spec from to l :
  from ≤ to → is_u64 from → is_u64 to → sorted_apart l →
  sorted_apart (spliced from to l)
  ∧ ∀ s, covered_by (spliced from to l) s ↔ covered_by l s ∨ from ≤ s ≤ to.
Proof.
  intros Hft Hf Ht Hs. unfold spliced. cbv zeta.
  destruct (absorb_start_split l from Hf Hs) as (Hlo & Hbelow & Habove).
  set (lo := absorb_start l from) in *.
  pose proof (sorted_apart_drop lo l Hs) as Hsd.
  destruct (absorb_end_split (drop lo l) lo to Ht Hsd) as (n & -> & Hn & Habs & Hrest).
  rewrite length_drop in Hn. rewrite drop_drop in Hrest.
  destruct (merged_interval_covers l lo n from to) as (M1 & M2 & M3 & M4 & Mc);
    [done|done|lia| |].
  { intros iv Hiv. split; [apply Habove; by eapply take_In|by apply Habs]. }
  set (m := merged_interval _ _ _ _ _) in *.
  assert (l = take lo l ++ take n (drop lo l) ++ drop (lo + n) l) as Hl.
  { rewrite <- (take_drop lo l) at 1. f_equal.
    rewrite <- (take_drop n (drop lo l)) at 1. by rewrite drop_drop. }
  split.
  - rewrite Hl in Hs. apply sorted_apart_app in Hs as (H1 & H23 & H123).
    apply sorted_apart_app in H23 as (H2 & H3 & H23).
    assert (valid m) as Hvm.
    { unfold valid, is_u64 in *. destruct M3 as [|(x & Hx & ?)], M4 as [|(y & Hy & ?)].
      all: repeat match goal with
      | H : ?z ∈ take _ _ |- _ => pose proof (sorted_apart_valid _ z H2 H); clear H
      end; unfold valid in *; lia. }
    rewrite sorted_apart_app, sorted_apart_cons. split_and!; auto.
    + intros b Hb. unfold apart. destruct M4 as [->|(y & Hy & ->)]; [by apply Hrest|].
      by apply H23.
    + intros a b Ha Hb. apply elem_of_cons in Hb as [->|Hb].
      * unfold apart. destruct M3 as [->|(x & Hx & ->)]; [by apply Hbelow|].
        apply H123; [done|]. apply elem_of_app. by left.
      * apply H123; [done|]. apply elem_of_app. by right.
  - intros s. rewrite covered_by_app, covered_by_cons, Mc.
    assert (covered_by l s ↔ covered_by (take lo l ++ take n (drop lo l) ++ drop (lo + n) l) s)
      as -> by (by rewrite <- Hl).
    rewrite !covered_by_app. tauto.
Qed.

(** [Add] succeeds, keeps the representation well formed, covers everything it
    covered before and the new range, and covers nothing else unless truncated. *)
Lemma Add_correct from to g :
  from ≤ to → is_u64 from → is_u64 to → wf g →
  ∃ g', Add from to g = Some g' ∧ wf g' ∧ maxIntervals g' = maxIntervals g
    ∧ (∀ s, covers g s ∨ from ≤ s ≤ to → covers g' s)
    ∧ (truncated g = true → truncated g' = true)
    ∧ (truncated g' = false → ∀ s, covers g' s ↔ covers g s ∨ from ≤ s ≤ to).
Proof.
  intros Hft Hf Ht Hwf. rewrite Add_spliced by done.
  destruct (spliced_spec from to (intervals g)) as [Hs Hc]; [done..|by apply wf_sorted|].
  set (g0 := set_intervals _ g).
  destruct (enforceCap_spec g0) as (W & Hmax & Hcov & Htr); [done|by apply (wf_cap g)|].
  eexists. split_and!; [done|done|done| | |].
  - intros s Hs'. apply Hcov. by apply Hc.
  - rewrite Htr. cbn. by intros ->.
  - rewrite Htr. intros [H1 H2]%orb_false_iff. zbool. rewrite enforceCap_id by done. apply Hc.
Qed.

Lemma Add_panics from to g : to < from → Add from to g = None.
Proof. intros H. unfold Add. rewrite Z.gtb_ltb. by destruct (Z.ltb_spec to from); [|lia]. Qed.

(** ** find, Contains and Fill *)

Lemma find_Some seq g i :
  sorted_apart (intervals g) → find seq g = Some i →
  ∃ iv, intervals g !! i = Some iv ∧ From iv ≤ seq ≤ To iv.
Proof.
  intros Hs. unfold find. cbv zeta.
  destruct (sort_Search_spec _ _ (upto_mono_To _ seq Hs)) as (_ & _ & H3).
  set (r := sort_Search _ _) in *. destruct (_ && _) eqn:E; [|done]. intros [= <-].
  apply andb_true_iff in E as [Hlt%Nat.ltb_lt Hfrom]. specialize (H3 r ltac:(lia)).
  unfold at_index in *. destruct (intervals g !! r) as [iv|] eqn:Hiv; [|done].
  exists iv. cbn in *. zbool. split; [done|lia].
Qed.

Lemma find_None seq g :
  sorted_apart (intervals g) → find seq g = None → ¬ covers g seq.
Proof.
  intros Hs. unfold find. cbv zeta.
  destruct (sort_Search_split _ _ (upto_mono_To _ seq Hs)) as (Hr & H2 & H3).
  set (r := sort_Search _ _) in *. destruct (_ && _) eqn:E; [done|]. intros _ (iv & Hiv & Hc).
  rewrite <- (take_drop r (intervals g)) in Hiv. apply elem_of_app in Hiv as [Hiv|Hiv].
  { specialize (H2 iv Hiv). cbn in H2. zbool. lia. }
  destruct (drop r (intervals g)) as [|x rest] eqn:Hd; [set_solver|].
  assert (intervals g !! r = Some x) as Hx.
  { replace r with (r + 0)%nat by lia. by rewrite <- lookup_drop, Hd. }
  pose proof (lookup_lt_Some _ _ _ Hx) as Hlt%Nat.ltb_lt. rewrite Hlt in E.
  unfold at_index in E. rewrite Hx in E. cbn in E. zbool.
  apply list_elem_of_lookup in Hiv as [k Hk]. rewrite <- Hd, lookup_drop in Hk.
  pose proof (sorted_apart_lookup_le _ r (r + k) x iv Hs ltac:(lia) Hx Hk). lia.
Qed.

Lemma Contains_covers seq g : wf g → Contains seq g = true ↔ covers g seq.
Proof.
  intros [Hs _ _]. unfold Contains. destruct (find seq g) as [i|] eqn:E.
  - destruct (find_Some _ _ _ Hs E) as (iv & Hiv & ?). split; [|done]. intros _.
    exists iv. split; [|done]. by eapply list_elem_of_lookup_2.
  - split; [done|]. intros H. by apply (find_None _ _ Hs) in E.
Qed.

(** Replacing an interval by a list of its sub-intervals keeps the list sorted. *)
Lemma sorted_apart_refine l1 iv l2 mid :
  sorted_apart (l1 ++ iv :: l2) → sorted_apart mid →
  (∀ m, m ∈ mid → From iv ≤ From m ∧ To m ≤ To iv) →
  sorted_apart (l1 ++ mid ++ l2).
Proof.
  rewrite !sorted_apart_app, sorted_apart_cons.
  intros (H1 & (Hv & H2 & Ha) & H12) Hmid Hsub. unfold apart in *. split_and!; auto.
  - intros a b Ha' Hb. specialize (Hsub a Ha'). specialize (Ha b Hb). lia.
  - intros a b Ha' [Hb|Hb]%elem_of_app.
    + specialize (Hsub b Hb). specialize (H12 a iv Ha' ltac:(set_solver)). lia.
    + apply H12; set_solver.
Qed.

(** The interval list [Fill] leaves in place of the interval holding [seq]. *)
Definition punctured (seq : Z) (iv : Interval) : list Interval :=
  if From iv =? To iv then []
  else if seq =? From iv then [mkInterval (u64 (seq + 1)) (To iv)]
  else if seq =? To iv then [mkInterval (From iv) (u64 (seq - 1))]
  else [mkInterval (From iv) (u64 (seq - 1)); mkInterval (u64 (seq + 1)) (To iv)].

Lemma punctured_spec seq iv :
  valid iv → From iv ≤ seq ≤ To iv →
  sorted_apart (punctured seq iv)
  ∧ (∀ m, m ∈ punctured seq iv → From iv ≤ From m ∧ To m ≤ To iv)
  ∧ (∀ s, covered_by (punctured seq iv) s ↔ From iv ≤ s ≤ To iv ∧ s ≠ seq).
Proof.
  unfold valid, punctured. intros Hv Hs. pose proof covered_by_nil as Hnil.
  destruct (Z.eqb_spec (From iv) (To iv)) as [E|E].
  { split_and!; [apply sorted_apart_nil|set_solver|]. intros s. split; [by intros ?%Hnil|lia]. }
  destruct (Z.eqb_spec seq (From iv)) as [->|E1]; [|destruct (Z.eqb_spec seq (To iv)) as [->|E2]].
  all: rewrite ?(u64_small (_ + 1)), ?(u64_small (_ - 1)) by (unfold is_u64 in *; lia).
  all: split_and!.
  all: try (intros m Hm; repeat (apply elem_of_cons in Hm as [->|Hm]; cbn; try lia); set_solver).
  all: try (intros s; rewrite !covered_by_cons; cbn; specialize (Hnil s); intuition lia).
  all: unfold is_u64 in *; sorted_concrete.
Qed.

Lemma Fill_punctured seq g i iv :
  wf g → find seq g = Some i → intervals g !! i = Some iv →
  Fill seq g =
    enforceCap (set_intervals (take i (intervals g) ++ punctured seq iv
                               ++ drop (S i) (intervals g)) g).
Proof.
  intros Hwf Hi Hiv. unfold Fill, punctured. rewrite Hi, Hiv.
  pose proof (lookup_lt_Some _ _ _ Hiv) as Hlt. pose proof (wf_fits g Hwf) as Hfit.
  rewrite !insert_take_drop by done.
  repeat match goal with |- context [if ?b then _ else _] => destruct b end; try done.
  all: symmetry; apply enforceCap_id; cbn; rewrite !length_app; cbn;
    rewrite length_take, length_drop; lia.
Qed.

(** [Fill] keeps the representation well formed, forgets no other sequence
    number, and removes exactly [seq] unless the cap forced a merge. *)
Lemma Fill_correct seq g :
  wf g →
  wf (Fill seq g) ∧ maxIntervals (Fill seq g) = maxIntervals g
  ∧ (∀ s, covers g s → s ≠ seq → covers (Fill seq g) s)
  ∧ (truncated g = true → truncated (Fill seq g) = true)
  ∧ (truncated (Fill seq g) = false → ∀ s, covers (Fill seq g) s ↔ covers g s ∧ s ≠ seq).
Proof.
  intros Hwf. pose proof (wf_sorted g Hwf) as Hs. destruct (find seq g) as [i|] eqn:Hi.
  2: { assert (Fill seq g = g) as -> by (unfold Fill; by rewrite Hi).
       pose proof (find_None _ _ Hs Hi). split_and!; auto.
       intros _ s. split; [|tauto]. intros Hc. split; [done|]. by intros ->. }
  destruct (find_Some _ _ _ Hs Hi) as (iv & Hiv & Hc).
  rewrite (Fill_punctured seq g i iv) by done.
  pose proof (take_drop_middle _ _ _ Hiv) as Hl.
  destruct (punctured_spec seq iv) as (P1 & P2 & P3); [by eapply sorted_apart_valid, list_elem_of_lookup_2|done|].
  set (l' := take i (intervals g) ++ _). set (g0 := set_intervals l' g).
  assert (∀ s, covers g0 s ↔ covers g s ∧ s ≠ seq) as Hcov.
  { intros s. unfold covers. cbn. unfold l'.
    assert (covered_by (intervals g) s ↔
      covered_by (take i (intervals g) ++ iv :: drop (S i) (intervals g)) s) as ->
      by (by rewrite Hl).
    rewrite !covered_by_app, covered_by_cons, P3.
    rewrite <- Hl in Hs. apply sorted_apart_app in Hs as (_ & Hs2 & H12).
    apply sorted_apart_cons in Hs2 as (_ & _ & Ha). unfold apart in *.
    assert (covered_by (take i (intervals g)) s → s ≠ seq).
    { intros (x & Hx & ?). specialize (H12 x iv Hx ltac:(set_solver)). lia. }
    assert (covered_by (drop (S i) (intervals g)) s → s ≠ seq).
    { intros (x & Hx & ?). specialize (Ha x Hx). lia. }
    tauto. }
  destruct (enforceCap_spec g0) as (W & Hmax & Hsup & Htr).
  { cbn. apply (sorted_apart_refine _ iv); [by rewrite Hl|done|done]. }
  { apply (wf_cap g Hwf). }
  split_and!; auto.
  - intros s Hs1 Hs2. apply Hsup, Hcov. done.
  - rewrite Htr. cbn. by intros ->.
  - rewrite Htr. intros [_ H2]%orb_false_iff. zbool. by rewrite enforceCap_id.
Qed.

(** ** Count *)

(** Every sequence number the set covers, once. *)
Definition missing_list (l : list Interval) : list Z :=
  l ≫= λ iv, seqZ (From iv) (To iv - From iv + 1).

Definition total (l : list Interval) : Z := foldr (λ iv n, (To iv - From iv + 1) + n) 0 l.

Lemma total_cons iv l : total (iv :: l) = To iv - From iv + 1 + total l.
Proof. done. Qed.

Lemma elem_of_missing_list l s : s ∈ missing_list l ↔ covered_by l s.
Proof.
  unfold missing_list, covered_by. rewrite list_elem_of_bind.
  split; intros (iv & H1 & H2); exists iv; rewrite ?elem_of_seqZ in *; split; auto; lia.
Qed.

Lemma length_missing_list l : Forall valid l → Z.of_nat (length (missing_list l)) = total l.
Proof.
  induction 1 as [|iv l Hv _ IH]; [done|].
  change (missing_list (iv :: l)) with (seqZ (From iv) (To iv - From iv + 1) ++ missing_list l).
  rewrite length_app, length_seqZ, Nat2Z.inj_add, IH.
  rewrite total_cons. unfold valid in Hv. lia.
Qed.

Lemma NoDup_missing_list l : sorted_apart l → NoDup (missing_list l).
Proof.
  induction l as [|iv l IH]; [intros; constructor|].
  intros (Hv & Hl & Ha)%sorted_apart_cons. change (missing_list (iv :: l)) with
    (seqZ (From iv) (To iv - From iv + 1) ++ missing_list l).
  apply NoDup_app. split_and!; auto using NoDup_seqZ.
  intros s Hs (x & Hx & ?)%elem_of_missing_list. apply elem_of_seqZ in Hs.
  specialize (Ha x Hx). unfold apart in Ha. lia.
Qed.

Lemma foldl_count l : ∀ acc,
  foldl (λ n iv, u64 (n + Interval_Count iv)) (u64 acc) l = u64 (acc + total l).
Proof.
  induction l as [|iv l IH]; intros acc; [cbn; by rewrite Z.add_0_r|].
  cbn [foldl]. rewrite IH, total_cons.
  unfold Interval_Count, u64. generalize (To iv - From iv + 1), (total l). intros c n.
  rewrite <- (Zplus_mod_idemp_l (_ + _) n), <- (Z.add_mod acc c) by done.
  rewrite Zplus_mod_idemp_l. by rewrite Z.add_assoc.
Qed.

(** The covered sequence numbers fit in 64 bits unless all of them are covered. *)
Lemma total_bound l : ∀ lo,
  0 ≤ lo ≤ max_u64 + 1 → sorted_apart l → (∀ iv, iv ∈ l → lo ≤ From iv) →
  0 ≤ total l ≤ max_u64 + 1 - lo
  ∧ ((∃ s, lo ≤ s ≤ max_u64 ∧ ¬ covered_by l s) → total l ≤ max_u64 - lo).
Proof.
  induction l as [|iv l IH]; intros lo Hlo Hs Hge.
  { cbn. split; [lia|]. intros (s & ? & _). lia. }
  rewrite total_cons.
  apply sorted_apart_cons in Hs as (Hv & Hl & Ha). pose proof (Hge iv ltac:(set_solver)).
  destruct l as [|x l'].
  - change (total []) with 0. unfold valid in Hv. split; [lia|]. intros (s & ? & Hs).
    rewrite covered_by_cons in Hs. lia.
  - pose proof (Ha x ltac:(set_solver)) as Hx.
    pose proof (sorted_apart_valid _ x Hl ltac:(set_solver)). unfold valid, apart in *.
    destruct (IH (To iv + 2)) as [IH1 _]; [lia|done| |].
    + intros y Hy. specialize (Ha y Hy). lia.
    + split; [lia|]. intros _. lia.
Qed.

Lemma Count_total g : Count g = u64 (total (intervals g)).
Proof. unfold Count. change 0 with (u64 0). by rewrite foldl_count. Qed.

Lemma Count_length g :
  wf g → (∃ s, is_u64 s ∧ ¬ covers g s) →
  Count g = Z.of_nat (length (missing_list (intervals g))).
Proof.
  intros [Hs _ _] (s & Hs1 & Hs2).
  destruct (total_bound (intervals g) 0) as [H1 H2].
  { unfold max_u64. lia. } { done. }
  { intros iv Hiv. pose proof (sorted_apart_valid _ iv Hs Hiv) as Hv. unfold valid in Hv. lia. }
  rewrite Count_total, length_missing_list by apply Hs.
  apply u64_small. unfold is_u64 in *. specialize (H2 (ex_intro _ s (conj Hs1 Hs2))). lia.
Qed.

(** A gap set that leaves some sequence number out counts zero exactly when it
    covers nothing. *)
Lemma Count_zero g :
  wf g → (∃ s, is_u64 s ∧ ¬ covers g s) → Count g = 0 ↔ ∀ s, ¬ covers g s.
Proof.
  intros Hwf Hs. rewrite (Count_length g Hwf Hs).
  destruct (missing_list (intervals g)) as [|x l] eqn:E; cbn.
  - split; [|done]. intros _ s Hc. apply elem_of_missing_list in Hc. rewrite E in Hc. set_solver.
  - split; [lia|]. intros H. destruct (H x). apply elem_of_missing_list. rewrite E. set_solver.
Qed.

Lemma wf_new m : wf (NewGapSet m).
Proof.
  constructor; [apply sorted_apart_nil| |]; unfold NewGapSet; cbn;
    (case_bool; unfold defaultMaxIntervals; lia).
Qed.

Lemma wf_clear g : wf g → wf (Clear g).
Proof. intros [_ H _]. constructor; [apply sorted_apart_nil|done|cbn; lia]. Qed.

Lemma clone_id g : clone g = g.
Proof. by destruct g. Qed.

Lemma covers_new m s : ¬ covers (NewGapSet m) s.
Proof. apply covered_by_nil. Qed.
Lemma covers_clear g s : ¬ covers (Clear g) s.
Proof. apply covered_by_nil. Qed.

#[export] Hint Resolve wf_new wf_clear : drift.

(** ** Merging never reaches outside what was covered *)

Definition bounded_below (m : Z) (g : t) : Prop := ∀ s, covers g s → s < m.

Lemma merge_at_bounded m l r :
  (S r < length l)%nat → sorted_apart l →
  (∀ s, covered_by l s → s < m) → ∀ s, covered_by (merge_at r l) s → s < m.
Proof.
  intros Hr Hs. destruct (merge_at_split l r Hr) as (l1 & a & b & l2 & -> & _ & ->).
  rewrite sorted_apart_app, !sorted_apart_cons in Hs. destruct Hs as (_ & (_ & (Vb & _) & _) & _).
  intros H s. autorewrite with drift. cbn. intros [Hs|[Hs|Hs]].
  1,3: apply H; autorewrite with drift; tauto.
  assert (To b < m); [|lia]. apply H. autorewrite with drift. unfold valid in Vb. lia.
Qed.

Lemma enforceCap_loop_bounded m fuel : ∀ g,
  sorted_apart (intervals g) → 1 ≤ maxIntervals g →
  bounded_below m g → bounded_below m (enforceCap_loop fuel g).
Proof.
  induction fuel as [|fuel IH]; intros g Hs Hm Hb; cbn [enforceCap_loop]; [done|].
  destruct (_ >? _) eqn:E; zbool; [|done].
  destruct (smallest_hole_best (intervals g)) as [Hr _]; [lia|].
  apply IH; cbn; auto using merge_at_sorted.
  intros s. unfold covers. cbn. by apply merge_at_bounded.
Qed.

Lemma Add_bounded m from to g g' :
  from ≤ to → is_u64 from → is_u64 to → wf g → to < m →
  bounded_below m g → Add from to g = Some g' → bounded_below m g'.
Proof.
  intros Hft Hf Ht Hwf Hm Hb. rewrite Add_spliced by done. intros [= <-].
  destruct (spliced_spec from to (intervals g)) as [Hs Hc]; [done..|by apply wf_sorted|].
  apply enforceCap_loop_bounded; [done|by apply (wf_cap g)|].
  intros s [H|H]%Hc; [by apply Hb|lia].
Qed.

Lemma Fill_bounded m seq g : wf g → bounded_below m g → bounded_below m (Fill seq g).
Proof.
  intros Hwf Hb. pose proof (wf_sorted g Hwf) as Hs. destruct (find seq g) as [i|] eqn:Hi.
  2: { unfold Fill. by rewrite Hi. }
  destruct (find_Some _ _ _ Hs Hi) as (iv & Hiv & Hc).
  rewrite (Fill_punctured seq g i iv) by done.
  pose proof (take_drop_middle _ _ _ Hiv) as Hl.
  destruct (punctured_spec seq iv) as (P1 & P2 & P3);
    [by eapply sorted_apart_valid, list_elem_of_lookup_2|done|].
  apply enforceCap_loop_bounded.
  - cbn. apply (sorted_apart_refine _ iv); [by rewrite Hl|done|done].
  - apply (wf_cap g Hwf).
  - intros s. unfold covers. cbn. rewrite !covered_by_app, P3. intros Hcov. apply Hb.
    unfold covers. rewrite <- Hl. rewrite covered_by_app, covered_by_cons. tauto.
Qed.

(** ** Refinement: the gap set implements a set of integers

    The abstract state is the set of missing sequence numbers itself. *)

Inductive GapOp := OpAdd (from to : Z) | OpFill (seq : Z) | OpClear.

Definition valid_op (o : GapOp) : Prop :=
  match o with
  | OpAdd from to => is_u64 from ∧ is_u64 to ∧ from ≤ to
  | OpFill seq => is_u64 seq
  | OpClear => True
  end.

Definition run_op (g : t) (o : GapOp) : option t :=
  match o with
  | OpAdd from to => Add from to g
  | OpFill seq => Some (Fill seq g)
  | OpClear => Some (Clear g)
  end.

Definition spec_op (missing : Z → Prop) (o : GapOp) : Z → Prop :=
  match o with
  | OpAdd from to => λ s, missing s ∨ from ≤ s ≤ to
  | OpFill seq => λ s, missing s ∧ s ≠ seq
  | OpClear => λ _, False
  end.

Fixpoint run_ops (g : t) (os : list GapOp) : option t :=
  match os with
  | [] => Some g
  | o :: os => match run_op g o with Some g' => run_ops g' os | None => None end
  end.

Definition refines (g : t) (missing : Z → Prop) : Prop :=
  wf g ∧ (∀ s, missing s → covers g s)
  ∧ (truncated g = false → ∀ s, covers g s → missing s).

Lemma refines_op g missing o :
  valid_op o → refines g missing →
  ∃ g', run_op g o = Some g' ∧ refines g' (spec_op missing o)
    ∧ maxIntervals g' = maxIntervals g.
Proof.
  intros Ho (Hwf & Hsup & Hex). destruct o as [from to|seq|]; cbn in *.
  - destruct Ho as (Hf & Ht & Hft).
    destruct (Add_correct from to g Hft Hf Ht Hwf) as (g' & -> & W & M & C & T & X).
    exists g'. split_and!; auto. split_and!; auto.
    + intros s [Hs|Hs]; apply C; auto.
    + intros Hn s Hc. apply (X Hn) in Hc as [Hc|]; [|by right]. left. apply Hex; [|done].
      destruct (truncated g); [by rewrite T in Hn|done].
  - destruct (Fill_correct seq g Hwf) as (W & M & C & T & X).
    eexists. split_and!; [done| |done]. split_and!; auto.
    + intros s [Hs Hne]. apply C; auto.
    + intros Hn s Hc. apply (X Hn) in Hc as [Hc Hne]. split; [|done]. apply Hex; [|done].
      destruct (truncated g); [by rewrite T in Hn|done].
  - eexists. split_and!; [done| |done]. split_and!; auto with drift; [done|].
    by intros _ s ?%covers_clear.
Qed.

Lemma refines_ops os : ∀ g missing,
  Forall valid_op os → refines g missing →
  ∃ g', run_ops g os = Some g' ∧ refines g' (foldl spec_op missing os)
    ∧ maxIntervals g' = maxIntervals g.
Proof.
  induction os as [|o os IH]; intros g missing Ho Hr; cbn; [by eauto|].
  inversion Ho; subst. destruct (refines_op g missing o) as (g' & -> & Hr' & Hm); auto.
  destruct (IH g' _ ltac:(done) Hr') as (g'' & -> & Hr'' & Hm'). eexists.
  split_and!; [done|done|congruence].
Qed.

(** C8: a gap set driven by any sequence of operations implements the set of
    missing sequence numbers: it never panics, never outgrows its interval cap,
    reports every missing number as contained, and until it is truncated
    [Contains] answers exactly membership in that set. *)
Theorem gapset_implements_missing_set cap os :
  Forall valid_op os →
  let missing := foldl spec_op (λ _, False) os in
  ∃ g, run_ops (NewGapSet cap) os = Some g
    ∧ Z.of_nat (length (intervals g)) ≤ maxIntervals (NewGapSet cap)
    ∧ (∀ s, missing s → Contains s g = true)
    ∧ (truncated g = false → ∀ s, Contains s g = true ↔ missing s).
Proof.
  intros Ho missing.
  destruct (refines_ops os (NewGapSet cap) (λ _, False) Ho) as (g & Hg & (Hwf & Hs & Hx) & Hm).
  { split_and!; auto with drift; [done|]. by intros _ s ?%covers_new. }
  exists g. split_and!; [done| | |].
  - rewrite <- Hm. apply (wf_fits g Hwf).
  - intros s Hms. apply Contains_covers; auto.
  - intros Hn s. rewrite Contains_covers by done. split; [by apply Hx|by apply Hs].
Qed.

Definition sample_ops : list GapOp := [OpAdd 3 9; OpAdd 20 20; OpFill 5; OpAdd 10 12; OpFill 20].

Lemma gapset_implements_missing_set_witness :
  ∃ g, run_ops (NewGapSet 0) sample_ops = Some g
    ∧ intervals g = [mkInterval 3 4; mkInterval 6 12] ∧ Contains 11 g = true.
Proof.
  destruct (gapset_implements_missing_set 0 sample_ops) as (g & Hg & _ & Hc & _).
  { repeat constructor; unfold is_u64, max_u64; lia. }
  exists g. split; [exact Hg|]. split; [by vm_compute in Hg; injection Hg as <-|].
  apply Hc. cbn. lia.
Defined.

(** a list of intervals over the cap is brought within it by merging, and the
    pair chosen is one separated by the smallest hole, so each merge adds the
    fewest sequence numbers that were not missing. *)
Theorem merge_picks_smallest_hole g :
  sorted_apart (intervals g) → 1 ≤ maxIntervals g →
  Z.of_nat (length (intervals g)) > maxIntervals g →
  let r := smallest_hole (intervals g) 0 0 max_u64 in
  Z.of_nat (length (intervals (enforceCap g))) ≤ maxIntervals g
  ∧ truncated (enforceCap g) = true
  ∧ (S r < length (intervals g))%nat
  ∧ ∀ k, (S k < length (intervals g))%nat → hole_at (intervals g) r ≤ hole_at (intervals g) k.
Proof.
  intros Hs Hm Hlen. destruct (enforceCap_spec g Hs Hm) as (W & M & _ & T).
  split; [rewrite <- M; by apply wf_fits|]. split.
  - rewrite T. apply orb_true_iff. right. apply Z.gtb_lt. lia.
  - apply smallest_hole_best. lia.
Qed.

Definition crowded : t :=
  mk [mkInterval 1 2; mkInterval 10 11; mkInterval 14 14; mkInterval 30 40] 3 false.

Lemma merge_picks_smallest_hole_witness :
  intervals (enforceCap crowded) = [mkInterval 1 2; mkInterval 10 14; mkInterval 30 40]
  ∧ ∀ k, (S k < 4)%nat → hole_at (intervals crowded) 1 ≤ hole_at (intervals crowded) k.
Proof.
  split; [reflexivity|].
  apply (merge_picks_smallest_hole crowded); [|cbn; lia|cbn; lia].
  unfold crowded. cbn [intervals]. sorted_concrete.
Defined.
