(* ===== verification/SeqTrack.v ===== *)
(** * SeqTrack: per-publisher sequence tracking (pkg/seqtrack/seqtrack.go)

    [Tracker] classifies events against what it has seen of their publisher.
    [Observe] is the method, one branch of the Go switch per branch here; the
    ghost history below it says what the classification means. *)
From stdpp Require Import pretty.
From S2P Require Import Prelude GoBase Event GapSet.

(** ** Data *)

Definition defaultMaxPublishers : Z := 1024.
Definition defaultImplicitRestartDelta : Z := 1000.
Definition defaultImplicitRestartCeiling : Z := 100.
Definition maxSeq : Z := max_u64.

Inductive Verdict :=
| Accept | AcceptWithGap | AcceptLateFill | AcceptAfterRestart | AcceptFirstSeen
| DropDuplicate | DropStaleEpoch.

#[export] Instance Verdict_eq_dec : EqDecision Verdict.
Proof. solve_decision. Defined.

Definition Verdict_String (v : Verdict) : string :=
  match v with
  | Accept => "accept"
  | AcceptWithGap => "accept_with_gap"
  | AcceptLateFill => "accept_late_fill"
  | AcceptAfterRestart => "accept_after_restart"
  | AcceptFirstSeen => "accept_first_seen"
  | DropDuplicate => "drop_duplicate"
  | DropStaleEpoch => "drop_stale_epoch"
  end.

Definition Accepted (v : Verdict) : bool :=
  match v with
  | Accept | AcceptWithGap | AcceptLateFill | AcceptAfterRestart | AcceptFirstSeen => true
  | DropDuplicate | DropStaleEpoch => false
  end.

Record Gap := mkGap {
  GPublisher : string; GEpoch : Z; GFrom : Z; GTo : Z; DetectedAt : Time
}.

Definition Gap_String (g : Gap) : string :=
  GPublisher g +:+ "/" +:+ pretty (GEpoch g) +:+ " missing "
    +:+ Interval_String (mkInterval (GFrom g) (GTo g))
    +:+ " (" +:+ pretty (u64 (GTo g - GFrom g + 1)) +:+ ")".

Record PublisherState := mkPublisher {
  ID : string;
  PEpoch : Z;
  Incarnation : Z;
  HWM : Z;
  Gaps : GapSet.t;
  FirstSeen : Time;
  LastSeen : Time;
  EventCount : Z;
  RestartCount : Z;
  Bootstrap : bool
}.

Record Config := mkConfig {
  MaxPublishers : Z;
  MaxGapIntervals : Z;
  ImplicitRestartDelta : Z;
  ImplicitRestartCeiling : Z
}.

Definition applyDefaults (c : Config) : Config := {|
  MaxPublishers := if MaxPublishers c <=? 0 then defaultMaxPublishers else MaxPublishers c;
  MaxGapIntervals := if MaxGapIntervals c <=? 0 then defaultMaxIntervals else MaxGapIntervals c;
  ImplicitRestartDelta := if ImplicitRestartDelta c =? 0 then defaultImplicitRestartDelta
                          else ImplicitRestartDelta c;
  ImplicitRestartCeiling := if ImplicitRestartCeiling c =? 0 then defaultImplicitRestartCeiling
                            else ImplicitRestartCeiling c
|}.

Record Tracker := mkTracker {
  cfg : Config;
  pubs : gmap string PublisherState;
  evictions : Z
}.

Definition New (c : Config) : Tracker := mkTracker (applyDefaults c) ∅ 0.

(** ** Observe *)

Definition set_pub (id : string) (st : PublisherState) (t : Tracker) : Tracker :=
  mkTracker (cfg t) (<[id := st]> (pubs t)) (evictions t).

Definition isImplicitRestart (c : Config) (st : PublisherState) (seq : Z) : bool :=
  (HWM st >? seq)
  && (u64 (HWM st - seq) >? ImplicitRestartDelta c)
  && (seq <? ImplicitRestartCeiling c).

Section evict.
Context `{MapOrder}.

(** One turn of the loop that looks for the least recently seen publisher. *)
Definition older (best : string * Time) (kv : string * PublisherState) : string * Time :=
  let '(oldestID, oldestAt) := best in
  let '(id, st) := kv in
  if bool_decide (oldestID = "") || Before (LastSeen st) oldestAt
     || ((LastSeen st =? oldestAt) && negb (String.leb oldestID id))
  then (id, LastSeen st) else (oldestID, oldestAt).

Definition evictOldestLocked (t : Tracker) : Tracker :=
  let '(oldestID, _) := foldl older ("", zero_time) (range_map (pubs t)) in
  if bool_decide (oldestID = "") then t
  else mkTracker (cfg t) (delete oldestID (pubs t)) (u64 (evictions t + 1)).

Definition admitLocked (e : Event.t) (now : Time) (t : Tracker) : Tracker :=
  let t := if Z.of_nat (size (pubs t)) >=? MaxPublishers (cfg t) then evictOldestLocked t else t in
  set_pub (Event.Publisher e) {|
    ID := Event.Publisher e;
    PEpoch := Event.Epoch e;
    Incarnation := 0;
    HWM := Event.Seq e;
    Gaps := NewGapSet (MaxGapIntervals (cfg t));
    FirstSeen := now;
    LastSeen := now;
    EventCount := 1;
    RestartCount := 0;
    Bootstrap := true
  |} t.

(** The part of [Observe] after the publisher was found and [LastSeen] set.
    A [None] would be the panic of [GapSet.Add] ([observe_known_total]: never). *)
Definition observe_known (c : Config) (st : PublisherState) (e : Event.t) (now : Time)
    : option (PublisherState * Verdict * option Gap) :=
  let seq := Event.Seq e in
  let with_state epoch incarnation hwm gaps events restarts :=
    mkPublisher (ID st) epoch incarnation hwm gaps (FirstSeen st) now events restarts
                (Bootstrap st) in
  let count := u64 (EventCount st + 1) in
  if Event.Epoch e >? PEpoch st then
    Some (with_state (Event.Epoch e) (Incarnation st) seq (Clear (Gaps st)) count
                     (u64 (RestartCount st + 1)), AcceptAfterRestart, None)
  else if Event.Epoch e <? PEpoch st then
    Some (with_state (PEpoch st) (Incarnation st) (HWM st) (Gaps st) (EventCount st)
                     (RestartCount st), DropStaleEpoch, None)
  else if negb (HWM st =? maxSeq) && (seq =? u64 (HWM st + 1)) then
    Some (with_state (PEpoch st) (Incarnation st) seq (Gaps st) count (RestartCount st),
          Accept, None)
  else if seq >? u64 (HWM st + 1) then
    let gap := mkGap (Event.Publisher e) (PEpoch st) (u64 (HWM st + 1)) (u64 (seq - 1)) now in
    match Add (GFrom gap) (GTo gap) (Gaps st) with
    | None => None
    | Some gaps =>
        Some (with_state (PEpoch st) (Incarnation st) seq gaps count (RestartCount st),
              AcceptWithGap, Some gap)
    end
  else if isImplicitRestart c st seq then
    Some (with_state (PEpoch st) (u64 (Incarnation st + 1)) seq (Clear (Gaps st)) count
                     (u64 (RestartCount st + 1)), AcceptAfterRestart, None)
  else if Contains seq (Gaps st) then
    Some (with_state (PEpoch st) (Incarnation st) (HWM st) (Fill seq (Gaps st)) count
                     (RestartCount st), AcceptLateFill, None)
  else
    Some (with_state (PEpoch st) (Incarnation st) (HWM st) (Gaps st) (EventCount st)
                     (RestartCount st), DropDuplicate, None).

Definition Observe (e : Event.t) (now : Time) (t : Tracker)
    : option (Tracker * Verdict * option Gap) :=
  match pubs t !! Event.Publisher e with
  | None => Some (admitLocked e now t, AcceptFirstSeen, None)
  | Some st =>
      match observe_known (cfg t) st e now with
      | None => None
      | Some (st', verdict, gap) => Some (set_pub (Event.Publisher e) st' t, verdict, gap)
      end
  end.
End evict.

(** ** The other operations *)

Definition Trust (publisher : string) (t : Tracker) : TrustState :=
  match pubs t !! publisher with
  | None => TrustComplete
  | Some st =>
      if (Count (Gaps st) >? 0) || Truncated (Gaps st) then TrustSuspect else TrustComplete
  end.

Definition ClearGaps (publisher : string) (t : Tracker) : Tracker :=
  match pubs t !! publisher with
  | None => t
  | Some st =>
      set_pub publisher (mkPublisher (ID st) (PEpoch st) (Incarnation st) (HWM st)
        (Clear (Gaps st)) (FirstSeen st) (LastSeen st) (EventCount st) (RestartCount st)
        (Bootstrap st)) t
  end.

Definition Reset (t : Tracker) : Tracker := mkTracker (cfg t) ∅ (evictions t).

Definition Evictions (t : Tracker) : Z := evictions t.

(** Sorted by ID, each gap set cloned. *)
Definition snapshot_state (st : PublisherState) : PublisherState :=
  mkPublisher (ID st) (PEpoch st) (Incarnation st) (HWM st) (clone (Gaps st)) (FirstSeen st)
    (LastSeen st) (EventCount st) (RestartCount st) (Bootstrap st).

Definition id_le (a b : PublisherState) : Prop := String.le (ID a) (ID b).
#[export] Instance id_le_dec : RelDecision id_le.
Proof. intros a b. unfold id_le. apply _. Defined.

Definition Publishers `{MapOrder} (t : Tracker) : list PublisherState :=
  merge_sort id_le (snapshot_state ∘ snd <$> range_map (pubs t)).

(** ** Observe on one known publisher *)

Definition valid_event (e : Event.t) : Prop :=
  Event.Publisher e ≠ "" ∧ is_u64 (Event.Seq e) ∧ is_u64 (Event.Epoch e).

(** What the tracker keeps true of every publisher it knows. *)
Record pub_wf (st : PublisherState) : Prop := mk_pub_wf {
  pub_gaps : GapSet.wf (Gaps st);
  pub_hwm : is_u64 (HWM st);
  pub_below : GapSet.bounded_below max_u64 (Gaps st)
}.

Lemma gap_range st e :
  is_u64 (HWM st) → is_u64 (Event.Seq e) → (Event.Seq e >? u64 (HWM st + 1)) = true →
  let from := u64 (HWM st + 1) in
  let to := u64 (Event.Seq e - 1) in
  is_u64 from ∧ to = Event.Seq e - 1 ∧ from ≤ to ∧ is_u64 to ∧ to < max_u64
  ∧ (HWM st ≠ maxSeq → from = HWM st + 1).
Proof.
  intros Hh Hs H. zbool. cbv zeta.
  assert (is_u64 (u64 (HWM st + 1))) as Hf by apply u64_range.
  unfold is_u64 in *. rewrite (u64_small (Event.Seq e - 1)) by (unfold is_u64; lia).
  split_and!; try lia. intros Hne. apply u64_small. unfold is_u64, maxSeq in *. lia.
Qed.

Ltac observed := eexists _, _, _; split; [done|]; constructor; cbn.

(** [Observe] never panics, and keeps the publisher well formed. *)
Lemma observe_known_total c st e now :
  pub_wf st → valid_event e →
  ∃ st' v g, observe_known c st e now = Some (st', v, g) ∧ pub_wf st'.
Proof.
  intros [Hg Hh Hb] (_ & Hs & _). unfold observe_known. cbv zeta. cbn [GFrom GTo].
  assert (GapSet.bounded_below max_u64 (Clear (Gaps st))) by (by intros s ?%covers_clear).
  destruct (_ >? PEpoch st); [|destruct (_ <? PEpoch st); [|destruct (negb _ && _)]].
  1-3: observed; auto with drift.
  destruct (_ >? u64 _) eqn:E; [|destruct (isImplicitRestart c st _); [|destruct (Contains _ _)]].
  - destruct (gap_range st e Hh Hs E) as (F1 & _ & F3 & F4 & F5 & _).
    destruct (Add_correct _ _ _ F3 F1 F4 Hg) as (g' & Ha & Hw & _). rewrite Ha.
    observed; auto. exact (Add_bounded _ _ _ _ _ F3 F1 F4 Hg F5 Hb Ha).
  - observed; auto with drift.
  - observed; auto; [by apply Fill_correct|by apply Fill_bounded].
  - observed; auto.
Qed.

(** ** The history of a publisher, and what a verdict says about it

    [seen] collects the sequence numbers accepted since the current baseline,
    which moves on admission, on a restart and on [ClearGaps]. [exact] is lost
    when the sequence space wraps (see [wraparound_is_a_gap]). *)

Record History := mkHistory { base : Z; seen : gset Z; exact : bool }.

Definition history_step (st : PublisherState) (e : Event.t) (v : Verdict) (h : History)
    : History :=
  let seq := Event.Seq e in
  match v with
  | AcceptFirstSeen | AcceptAfterRestart => mkHistory seq {[seq]} true
  | Accept | AcceptLateFill => mkHistory (base h) ({[seq]} ∪ seen h) (exact h)
  | AcceptWithGap =>
      mkHistory (base h) ({[seq]} ∪ seen h) (exact h && negb (HWM st =? maxSeq))
  | DropDuplicate | DropStaleEpoch => h
  end.

Record history_ok (st : PublisherState) (h : History) : Prop := mk_history_ok {
  (** nothing between the baseline and the high-water mark is unaccounted for *)
  accounted : ∀ q, base h ≤ q ≤ HWM st → q ∈ seen h ∨ covers (Gaps st) q;
  seen_below : exact h = true → ∀ q, q ∈ seen h → q ≤ HWM st;
  seen_not_missing : exact h = true → truncated (Gaps st) = false →
                     ∀ q, q ∈ seen h → ¬ covers (Gaps st) q;
  missing_below : exact h = true → bounded_below (HWM st) (Gaps st)
}.

Lemma history_fresh st seq :
  HWM st = seq → (∀ q, ¬ covers (Gaps st) q) → history_ok st (mkHistory seq {[seq]} true).
Proof.
  intros <- Hn. constructor; cbn.
  - intros q ?. left. assert (q = HWM st) as -> by lia. set_solver.
  - intros _ q ->%elem_of_singleton. lia.
  - auto.
  - by intros _ q ?%Hn.
Qed.

(** The three ways an event joins the history of a publisher. *)

Lemma history_successor st st' h seq :
  history_ok st h → HWM st' = seq → seq = HWM st + 1 → Gaps st' = Gaps st →
  history_ok st' (mkHistory (base h) ({[seq]} ∪ seen h) (exact h)).
Proof.
  intros [Ha Hl Hn Hm] Hw -> Hg. constructor; cbn; rewrite ?Hw, ?Hg.
  - intros q Hq. destruct (decide (q = HWM st + 1)) as [->|]; [set_solver|].
    destruct (Ha q) as [|]; [lia|set_solver|by right].
  - intros Hx q [->%elem_of_singleton|Hq]%elem_of_union; [lia|]. specialize (Hl Hx q Hq). lia.
  - intros Hx Ht q [->%elem_of_singleton|Hq]%elem_of_union; [|by apply Hn].
    intros Hc%(Hm Hx). lia.
  - intros Hx q Hc%(Hm Hx). lia.
Qed.

Lemma history_gap st st' h e g' :
  pub_wf st → valid_event e → history_ok st h →
  (Event.Seq e >? u64 (HWM st + 1)) = true →
  Add (u64 (HWM st + 1)) (u64 (Event.Seq e - 1)) (Gaps st) = Some g' →
  HWM st' = Event.Seq e → Gaps st' = g' →
  history_ok st' (mkHistory (base h) ({[Event.Seq e]} ∪ seen h)
                            (exact h && negb (HWM st =? maxSeq))).
Proof.
  intros [Hg Hh Hb] (_ & Hs & _) [Ha Hl Hn Hm] E HA Hw Hgs.
  destruct (gap_range st e Hh Hs E) as (F1 & F2 & F3 & F4 & F5 & F6).
  destruct (Add_correct _ _ _ F3 F1 F4 Hg) as (g'' & HA' & W & _ & C & T & X). simplify_eq.
  constructor; cbn; rewrite ?Hw.
  - intros q Hq. destruct (decide (q = Event.Seq e)) as [->|]; [set_solver|].
    destruct (decide (u64 (HWM st + 1) ≤ q)); [right; apply C; lia|].
    assert (HWM st ≠ maxSeq → u64 (HWM st + 1) = HWM st + 1) by done.
    destruct (Ha q) as [|]; [|set_solver|right; apply C; by left].
    unfold is_u64, maxSeq, max_u64 in *. lia.
  - intros [Hx Hne]%andb_true_iff q. zbool. specialize (F6 Hne). rewrite F6 in *. zbool.
    intros [->%elem_of_singleton|Hq]%elem_of_union; [lia|]. specialize (Hl Hx q Hq). lia.
  - intros [Hx Hne]%andb_true_iff Ht q. zbool. specialize (F6 Hne). rewrite (X Ht), F6, F2 in *.
    intros [->%elem_of_singleton|Hq]%elem_of_union.
    + intros [Hc%(Hm Hx)|]; zbool; lia.
    + pose proof (Hl Hx q Hq). intros [Hc|]; [|lia]. eapply (Hn Hx); [|done|done].
      destruct (truncated (Gaps st)); [by rewrite T in Ht|done].
  - intros [Hx Hne]%andb_true_iff. zbool. specialize (F6 Hne).
    eapply (Add_bounded _ _ _ (Gaps st)); [..|exact HA]; auto; [lia|].
    intros q Hc%(Hm Hx). rewrite F6 in *. zbool. lia.
Qed.

Lemma history_late_fill st st' h seq :
  pub_wf st → history_ok st h → covers (Gaps st) seq →
  HWM st' = HWM st → Gaps st' = Fill seq (Gaps st) →
  history_ok st' (mkHistory (base h) ({[seq]} ∪ seen h) (exact h)).
Proof.
  intros [Hg Hh Hb] [Ha Hl Hn Hm] Hc Hw Hgs.
  destruct (Fill_correct seq _ Hg) as (W & _ & C & T & X).
  constructor; cbn; rewrite ?Hw, ?Hgs.
  - intros q Hq. destruct (decide (q = seq)) as [->|]; [set_solver|].
    destruct (Ha q Hq) as [|]; [set_solver|right; by apply C].
  - intros Hx q [->%elem_of_singleton|Hq]%elem_of_union; [|by apply Hl].
    specialize (Hm Hx _ Hc). lia.
  - intros Hx Ht q Hq. rewrite (X Ht). intros [Hq' Hne].
    assert (q ∈ seen h) as Hs by set_solver. eapply (Hn Hx); [|exact Hs|exact Hq'].
    destruct (truncated (Gaps st)); [by rewrite T in Ht|done].
  - intros Hx. by apply Fill_bounded, Hm.
Qed.

Lemma history_unchanged st st' h :
  HWM st' = HWM st → Gaps st' = Gaps st → history_ok st h → history_ok st' h.
Proof. intros Hw Hg [Ha Hl Hn Hm]. constructor; by rewrite ?Hw, ?Hg. Qed.

Ltac branch H := match type of H with (if ?b then _ else _) = _ => destruct b eqn:? end.

Lemma history_step_ok c st e now h st' v g :
  pub_wf st → valid_event e → history_ok st h →
  observe_known c st e now = Some (st', v, g) →
  history_ok st' (history_step st e v h).
Proof.
  intros Hw He Hh. pose proof Hw as [Hg Hhw _]. pose proof He as (_ & Hs & _).
  unfold observe_known. cbv zeta. cbn [GFrom GTo]. intros H.
  branch H; [simplify_eq; apply history_fresh; [done|intros; apply covers_clear]|].
  branch H; [simplify_eq; by apply (history_unchanged st)|].
  branch H.
  { apply andb_true_iff in Heqb1 as [Hmax Hseq]. simplify_eq. zbool.
    unfold is_u64, maxSeq in *. rewrite u64_small in Hseq by (unfold is_u64; lia).
    by apply (history_successor st). }
  branch H.
  { destruct (Add _ _ _) as [g'|] eqn:HA; [|done]. simplify_eq. by eapply (history_gap st). }
  branch H; [simplify_eq; apply history_fresh; [done|intros; apply covers_clear]|].
  branch H; simplify_eq; [|by apply (history_unchanged st)].
  eapply (history_late_fill st); [done|done| |done|done]. by apply Contains_covers.
Qed.

(** ** Eviction *)

Section evict_lemmas.
Context `{MapOrder}.

Lemma older_step best id st :
  id ≠ "" →
  let r := older best (id, st) in
  (r = best ∨ r = (id, LastSeen st)) ∧ r.1 ≠ "" ∧ r.2 ≤ LastSeen st
  ∧ (best.1 ≠ "" → r.2 ≤ best.2).
Proof.
  intros Hid. destruct best as [oid oat]. unfold older, Before.
  destruct (decide (oid = "")) as [->|Hne].
  { rewrite bool_decide_eq_true_2 by done. cbn. split_and!; auto; [lia|done]. }
  rewrite bool_decide_eq_false_2 by done. cbn [orb].
  destruct (_ || _) eqn:E; cbn.
  - split_and!; auto; [|intros _]; apply orb_true_iff in E as [E|E]; zbool; lia.
  - split_and!; auto; zbool; lia.
Qed.

(** The loop ends with the least recently seen of the publishers it visited. *)
Lemma older_fold l : ∀ best,
  (∀ kv, kv ∈ l → kv.1 ≠ "") →
  let r := foldl older best l in
  (r = best ∨ ∃ st, (r.1, st) ∈ l ∧ LastSeen st = r.2)
  ∧ (best.1 ≠ "" → r.1 ≠ "" ∧ r.2 ≤ best.2)
  ∧ (∀ kv, kv ∈ l → r.1 ≠ "" ∧ r.2 ≤ LastSeen kv.2).
Proof.
  induction l as [|[id st] l IH]; intros best Hne; cbn [foldl]; cbv zeta.
  { split_and!; [by left|done|set_solver]. }
  destruct (older_step best id st) as (S1 & S2 & S3 & S4); [by apply (Hne (id, st)); set_solver|].
  destruct (IH (older best (id, st))) as (H1 & H2 & H3); [set_solver|].
  destruct (H2 S2) as [H2a H2b]. split_and!.
  - destruct H1 as [H1|(st' & Hin & Hst)]; [|right; set_solver].
    rewrite H1. destruct S1 as [S1|S1]; rewrite S1; [by left|].
    right. exists st. set_solver.
  - intros Hb. specialize (S4 Hb). split; [done|lia].
  - intros kv [->|Hkv]%elem_of_cons; [|by apply H3]. cbn. split; [done|lia].
Qed.

(** With no publisher called "" (an event of one never passes validation) the
    eviction removes the least recently seen publisher. *)
Lemma evictOldest_spec t :
  pubs t !! "" = None → pubs t ≠ ∅ →
  ∃ id st, pubs t !! id = Some st
    ∧ pubs (evictOldestLocked t) = delete id (pubs t)
    ∧ cfg (evictOldestLocked t) = cfg t
    ∧ (∀ id' st', pubs t !! id' = Some st' → LastSeen st ≤ LastSeen st').
Proof.
  intros Hempty Hne. unfold evictOldestLocked.
  destruct (older_fold (range_map (pubs t)) ("", zero_time)) as (H1 & _ & H3).
  { intros [k st] Hk%elem_of_range_map. cbn. intros ->. congruence. }
  destruct (foldl older _ _) as [id at_]. cbn in *.
  destruct (map_choose _ Hne) as (k & st0 & Hk).
  destruct (H3 (k, st0)) as [Hid _]; [by apply elem_of_range_map|].
  rewrite bool_decide_eq_false_2 by done.
  destruct H1 as [|(st & Hst%elem_of_range_map & Hat)]; [naive_solver|].
  exists id, st. split_and!; auto. intros id' st' Hid'.
  destruct (H3 (id', st')) as [_ Hle]; [by apply elem_of_range_map|]. cbn in Hle. lia.
Qed.
End evict_lemmas.

(** ** Runs of the tracker *)

(** The states the tracker can be in, with the history of every publisher. *)
Inductive reachable (c : Config) : Tracker → gmap string History → Prop :=
| reach_new : reachable c (New c) ∅
| reach_observe (O : MapOrder) t hs e now t' v g :
    reachable c t hs → valid_event e → Observe e now t = Some (t', v, g) →
    reachable c t' (match pubs t !! Event.Publisher e with
                    | None => <[Event.Publisher e := mkHistory (Event.Seq e) {[Event.Seq e]} true]> hs
                    | Some st => alter (history_step st e v) (Event.Publisher e) hs
                    end)
| reach_clear t hs p st :
    reachable c t hs → pubs t !! p = Some st →
    reachable c (ClearGaps p t) (alter (λ h, mkHistory (HWM st) (seen h) (exact h)) p hs)
| reach_reset t hs : reachable c t hs → reachable c (Reset t) ∅.

Record tracker_ok (c : Config) (t : Tracker) (hs : gmap string History) : Prop := mk_tracker_ok {
  ok_cfg : cfg t = applyDefaults c;
  ok_names : pubs t !! "" = None;
  ok_size : Z.of_nat (size (pubs t)) ≤ MaxPublishers (applyDefaults c);
  ok_pubs : ∀ p st, pubs t !! p = Some st →
              pub_wf st ∧ ∃ h, hs !! p = Some h ∧ history_ok st h ∧ HWM st ∈ seen h
}.

Lemma applyDefaults_publishers c : 1 ≤ MaxPublishers (applyDefaults c).
Proof. unfold applyDefaults, defaultMaxPublishers. cbn. case_bool. Qed.

Lemma pub_wf_fresh c e now :
  valid_event e →
  pub_wf (mkPublisher (Event.Publisher e) (Event.Epoch e) 0 (Event.Seq e)
            (NewGapSet (MaxGapIntervals c)) now now 1 0 true).
Proof. intros (_ & Hs & _). constructor; cbn; auto with drift. by intros s ?%covers_new. Qed.

Lemma observe_known_hwm_seen c st e now st' v g h :
  observe_known c st e now = Some (st', v, g) → HWM st ∈ seen h →
  HWM st' ∈ seen (history_step st e v h).
Proof.
  unfold observe_known. cbv zeta. intros H Hin.
  repeat branch H; try (destruct (Add _ _ _) eqn:?); simplify_eq; cbn; set_solver.
Qed.

Lemma tracker_ok_admit `{MapOrder} c t hs e now :
  tracker_ok c t hs → valid_event e → pubs t !! Event.Publisher e = None →
  tracker_ok c (admitLocked e now t)
    (<[Event.Publisher e := mkHistory (Event.Seq e) {[Event.Seq e]} true]> hs).
Proof.
  intros [Hc Hn Hs Hp] He Hnew. pose proof He as (Hne & _ & _).
  pose proof (applyDefaults_publishers c) as Hmax. unfold admitLocked.
  set (t0 := if _ >=? _ then evictOldestLocked t else t).
  assert (cfg t0 = applyDefaults c ∧ pubs t0 ⊆ pubs t ∧
          Z.of_nat (size (pubs t0)) < MaxPublishers (applyDefaults c)) as (Hc0 & Hsub & Hs0).
  { subst t0. rewrite Z.geb_leb. rewrite Hc.
    destruct (Z.leb_spec (MaxPublishers (applyDefaults c)) (Z.of_nat (size (pubs t)))); [|done].
    destruct (evictOldest_spec t Hn) as (id & st & Hid & Hd & Hcf & _).
    { intros E. rewrite E, map_size_empty in *. lia. }
    rewrite Hd, Hcf. split_and!; [done|apply delete_subseteq|].
    rewrite map_size_delete_Some by (by eexists).
    assert (size (pubs t) ≠ 0%nat) by (intros E%map_size_empty_inv; by rewrite E in Hid). lia. }
  assert (pubs t0 !! Event.Publisher e = None) as Hnew0.
  { destruct (pubs t0 !! _) eqn:E; [|done]. eapply lookup_weaken in E; [|done]. congruence. }
  constructor; cbn [set_pub cfg pubs]; [done| | |].
  - rewrite lookup_insert_ne by done. destruct (pubs t0 !! "") eqn:E; [|done].
    eapply lookup_weaken in E; [|done]. congruence.
  - rewrite map_size_insert_None by done. lia.
  - intros p st Hst. destruct (decide (p = Event.Publisher e)) as [->|Hpe].
    + rewrite lookup_insert_eq in Hst. simplify_eq. split; [by apply pub_wf_fresh|].
      eexists. rewrite lookup_insert_eq. split; [done|]. split; [|cbn; set_solver].
      apply history_fresh; [done|]. intros q. apply covers_new.
    + rewrite lookup_insert_ne in Hst by done. eapply lookup_weaken in Hst; [|done].
      rewrite lookup_insert_ne by done. by apply Hp.
Qed.

Lemma tracker_ok_known c t hs e now st st' v g :
  tracker_ok c t hs → valid_event e → pubs t !! Event.Publisher e = Some st →
  observe_known (cfg t) st e now = Some (st', v, g) →
  tracker_ok c (set_pub (Event.Publisher e) st' t)
    (alter (history_step st e v) (Event.Publisher e) hs).
Proof.
  intros [Hc Hn Hs Hp] He Hst Hobs. pose proof He as (Hne & _ & _).
  destruct (Hp _ _ Hst) as (Hwf & h & Hh & Hok & Hin).
  constructor; cbn [set_pub cfg pubs]; [done|by rewrite lookup_insert_ne|
    by rewrite map_size_insert_Some by (by eexists)|].
  intros p st'' Hst'. destruct (decide (p = Event.Publisher e)) as [->|Hpe].
  - rewrite lookup_insert_eq in Hst'. simplify_eq.
    destruct (observe_known_total (cfg t) st e now Hwf He) as (? & ? & ? & Hobs' & Hwf').
    simplify_eq. split; [done|]. eexists. rewrite lookup_alter_eq, Hh. split; [done|].
    split; [by eapply history_step_ok|by eapply observe_known_hwm_seen].
  - rewrite lookup_insert_ne in Hst' by done. rewrite lookup_alter_ne by done. by apply Hp.
Qed.

Lemma tracker_ok_clear c t hs p st :
  tracker_ok c t hs → pubs t !! p = Some st →
  tracker_ok c (ClearGaps p t) (alter (λ h, mkHistory (HWM st) (seen h) (exact h)) p hs).
Proof.
  intros [Hc Hn Hs Hp] Hst. unfold ClearGaps. rewrite Hst.
  destruct (Hp _ _ Hst) as ([Wg Wh Wb] & h & Hh & [A1 A2 A3 A4] & Hin).
  constructor; cbn [set_pub cfg pubs]; [done| |by rewrite map_size_insert_Some by (by eexists)|].
  { rewrite lookup_insert_ne; [done|]. intros ->. congruence. }
  intros q st' Hst'. destruct (decide (q = p)) as [->|Hpe].
  - rewrite lookup_insert_eq in Hst'. simplify_eq. split.
    + constructor; cbn; auto with drift. by intros s ?%covers_clear.
    + eexists. rewrite lookup_alter_eq, Hh. split; [done|]. split; [|done].
      constructor; cbn; auto using covers_clear.
      * intros x Hx. assert (x = HWM st) as -> by lia. by left.
      * by intros _ x ?%covers_clear.
  - rewrite lookup_insert_ne in Hst' by done. rewrite lookup_alter_ne by done. by apply Hp.
Qed.

Lemma reachable_tracker_ok c t hs : reachable c t hs → tracker_ok c t hs.
Proof.
  induction 1 as [|O t hs e now t' v g _ IH He Hobs|t hs p st _ IH Hst|t hs _ [Hc Hn Hs Hp]].
  - constructor; cbn [cfg pubs New Reset];
      [done|done|pose proof (applyDefaults_publishers c); rewrite map_size_empty; lia|].
    intros p st Hst. by rewrite lookup_empty in Hst.
  - unfold Observe in Hobs. destruct (pubs t !! Event.Publisher e) as [st|] eqn:Hst.
    + destruct (observe_known _ _ _ _) as [[[st' v'] g']|] eqn:Ho; simplify_eq.
      by eapply tracker_ok_known.
    + simplify_eq. by apply tracker_ok_admit.
  - by apply tracker_ok_clear.
  - constructor; cbn [cfg pubs New Reset];
      [done|done|pose proof (applyDefaults_publishers c); rewrite map_size_empty; lia|].
    intros p st Hst. by rewrite lookup_empty in Hst.
Qed.

(** ** Properties *)

(** C6: whenever the tracker calls a publisher's view complete, every sequence
    number from the current baseline (first event, restart or completed
    snapshot) up to the high-water mark was observed: no loss is ever hidden,
    not by truncating the gap set, nor by a late fill, nor by a wrap. *)
Theorem trust_complete_means_no_loss c t hs p st h :
  reachable c t hs → pubs t !! p = Some st → hs !! p = Some h →
  Trust p t = TrustComplete →
  ∀ q, base h ≤ q ≤ HWM st → q ∈ seen h.
Proof.
  intros Hr Hst Hh Htrust q Hq. destruct (reachable_tracker_ok _ _ _ Hr) as [_ _ _ Hp].
  destruct (Hp _ _ Hst) as ([Hg Hw Hb] & h' & Hh' & [Ha _ _ _] & _). simplify_eq.
  unfold Trust in Htrust. rewrite Hst in Htrust.
  destruct (_ || _) eqn:E; [done|]. apply orb_false_iff in E as [E _]. zbool.
  destruct (Ha q Hq) as [|Hc]; [done|]. exfalso.
  assert (∃ s, is_u64 s ∧ ¬ covers (Gaps st) s) as Hu.
  { exists max_u64. split; [done|]. intros Hcm%Hb. lia. }
  pose proof (Count_length _ Hg Hu). destruct (Count_zero _ Hg Hu) as [Hz _].
  apply (Hz ltac:(lia) q Hc).
Qed.

(** within an incarnation, and as long as the gap set was not truncated and
    the sequence space is not exhausted, an event is applied exactly when its
    sequence number was not applied before: accepted events are new, and dropped
    ones were seen or precede the baseline. *)
Theorem verdict_exactly_once `{MapOrder} c t hs p st h e now t' v g :
  reachable c t hs → pubs t !! p = Some st → hs !! p = Some h →
  valid_event e → Event.Publisher e = p → Event.Epoch e = PEpoch st →
  exact h = true → truncated (Gaps st) = false → HWM st ≠ maxSeq →
  Observe e now t = Some (t', v, g) →
  match v with
  | Accept | AcceptWithGap | AcceptLateFill => Event.Seq e ∉ seen h
  | DropDuplicate => Event.Seq e ∈ seen h ∨ Event.Seq e < base h
  | AcceptAfterRestart => Event.Seq e < HWM st
  | AcceptFirstSeen | DropStaleEpoch => False
  end.
Proof.
  intros Hr Hst Hh He <- Hep Hx Ht Hmax. unfold Observe. rewrite Hst.
  destruct (reachable_tracker_ok _ _ _ Hr) as [_ _ _ Hp].
  destruct (Hp _ _ Hst) as ([Hg Hw Hb] & h' & Hh' & [Ha Hl Hn Hm] & _). simplify_eq.
  destruct He as (_ & Hs & _). unfold observe_known. cbv zeta.
  rewrite Hep, Z.gtb_ltb, Z.ltb_irrefl. unfold is_u64, maxSeq in *.
  rewrite !(u64_small (HWM st + 1)) by (unfold is_u64; lia).
  destruct (negb _ && _) eqn:E1.
  { intros [= <- <- <-] Hc%(Hl Hx). zbool. lia. }
  destruct (_ >? _ + 1) eqn:E2.
  { destruct (Add _ _ _); [|done]. intros [= <- <- <-] Hc%(Hl Hx). zbool. lia. }
  assert (Event.Seq e ≤ HWM st) as Hle.
  { apply andb_false_iff in E1 as [E1|E1]; zbool; lia. }
  destruct (isImplicitRestart _ _ _) eqn:E3.
  { intros [= <- <- <-]. unfold isImplicitRestart in E3. zbool. lia. }
  pose proof (Contains_covers (Event.Seq e) (Gaps st) Hg) as Hcc.
  destruct (Contains _ _); intros [= <- <- <-].
  - intros Hin. apply (Hn Hx Ht _ Hin). by apply Hcc.
  - destruct (decide (base h ≤ Event.Seq e)); [left|right; lia].
    destruct (Ha (Event.Seq e)) as [|Hc]; [lia|done|]. by apply Hcc in Hc.
Qed.

(** memory is bounded: however many publishers appear, the tracker never
    holds more than [MaxPublishers] of them. *)
Theorem tracked_publishers_bounded c t hs :
  reachable c t hs → Z.of_nat (size (pubs t)) ≤ MaxPublishers (applyDefaults c).
Proof. intros Hr. by destruct (reachable_tracker_ok _ _ _ Hr). Qed.

(** [Observe] never reaches the panic of [GapSet.Add], whatever the
    publisher sends and whatever came before. *)
Theorem observe_never_panics `{MapOrder} c t hs e now :
  reachable c t hs → valid_event e → ∃ t' v g, Observe e now t = Some (t', v, g).
Proof.
  intros Hr He. destruct (reachable_tracker_ok _ _ _ Hr) as [_ _ _ Hp]. unfold Observe.
  destruct (pubs t !! Event.Publisher e) as [st|] eqn:Hst; [|by eauto].
  destruct (Hp _ _ Hst) as (Hwf & _).
  destruct (observe_known_total (cfg t) st e now Hwf He) as (st' & v & g & -> & _). by eauto.
Qed.

(** ** Concrete runs *)

(** The history [reach_observe] records. *)
Definition history_after (t : Tracker) (e : Event.t) (v : Verdict) (hs : gmap string History)
    : gmap string History :=
  match pubs t !! Event.Publisher e with
  | None => <[Event.Publisher e := mkHistory (Event.Seq e) {[Event.Seq e]} true]> hs
  | Some st => alter (history_step st e v) (Event.Publisher e) hs
  end.

Fixpoint observe_all `{MapOrder} (t : Tracker) (hs : gmap string History)
    (es : list (Event.t * Time)) : option (Tracker * gmap string History) :=
  match es with
  | [] => Some (t, hs)
  | (e, now) :: es =>
      match Observe e now t with
      | Some (t', v, _) => observe_all t' (history_after t e v hs) es
      | None => None
      end
  end.

Lemma observe_all_reachable (O : MapOrder) c es : ∀ t hs t' hs',
  reachable c t hs → Forall (λ p, valid_event p.1) es →
  observe_all t hs es = Some (t', hs') → reachable c t' hs'.
Proof.
  induction es as [|[e now] es IH]; intros t hs t' hs' Hr Hes; cbn; [by intros [= <- <-]|].
  inversion Hes; subst. destruct (Observe e now t) as [[[t1 v] g]|] eqn:Ho; [|done].
  apply IH; [|done]. by eapply reach_observe.
Qed.

Definition heartbeat (publisher : string) (epoch seq : Z) : Event.t :=
  Event.mk publisher epoch seq zero_time zero_time "" OpHeartbeat "" "" None 0 None None.

Definition sample_config : Config := mkConfig 2 4 0 0.

(** p sends 10, 11, 14, then the late 12 and 13; q joins; r evicts the older p. *)
Definition sample_stream : list (Event.t * Time) :=
  [(heartbeat "p" 1 10, 1); (heartbeat "p" 1 11, 2); (heartbeat "p" 1 14, 3);
   (heartbeat "p" 1 12, 4); (heartbeat "p" 1 13, 5); (heartbeat "q" 7 3, 6)].

Definition sample_run : Tracker * gmap string History :=
  default (New sample_config, ∅)
    (@observe_all ascending_order (New sample_config) ∅ sample_stream).

Lemma sample_reachable : reachable sample_config sample_run.1 sample_run.2.
Proof.
  apply (observe_all_reachable ascending_order sample_config sample_stream (New sample_config) ∅).
  - constructor.
  - repeat constructor; try done; vm_compute; done.
  - unfold sample_run. destruct (observe_all _ _ _) as [[t hs]|] eqn:E; [done|].
    exfalso. revert E. vm_compute. done.
Qed.

Definition state_of (p : string) (r : Tracker * gmap string History) : PublisherState :=
  default (mkPublisher "" 0 0 0 (NewGapSet 0) 0 0 0 0 false) (pubs r.1 !! p).
Definition history_of (p : string) (r : Tracker * gmap string History) : History :=
  default (mkHistory 0 ∅ false) (r.2 !! p).

Lemma trust_complete_means_no_loss_witness :
  base (history_of "p" sample_run) = 10 ∧ HWM (state_of "p" sample_run) = 14
  ∧ 13 ∈ seen (history_of "p" sample_run).
Proof.
  split; [vm_compute; reflexivity|]. split; [vm_compute; reflexivity|].
  apply (trust_complete_means_no_loss sample_config sample_run.1 sample_run.2 "p"
           (state_of "p" sample_run) (history_of "p" sample_run) sample_reachable).
  - vm_compute; reflexivity.
  - vm_compute; reflexivity.
  - vm_compute; reflexivity.
  - vm_compute; split; discriminate.
Defined.

Lemma verdict_exactly_once_witness :
  ∃ t', @Observe ascending_order (heartbeat "p" 1 12) 7 sample_run.1 = Some (t', DropDuplicate, None)
    ∧ (12 ∈ seen (history_of "p" sample_run) ∨ 12 < base (history_of "p" sample_run)).
Proof.
  destruct (@Observe ascending_order (heartbeat "p" 1 12) 7 sample_run.1) as [[[t' v] g]|] eqn:E.
  2: { exfalso. revert E. vm_compute. discriminate. }
  assert (v = DropDuplicate ∧ g = None) as [-> ->].
  { revert E. vm_compute. intros [= _ <- <-]. split; reflexivity. }
  exists t'. split; [reflexivity|].
  refine (@verdict_exactly_once ascending_order sample_config sample_run.1 sample_run.2 "p"
            (state_of "p" sample_run) (history_of "p" sample_run) (heartbeat "p" 1 12) 7
            t' DropDuplicate None sample_reachable _ _ _ eq_refl _ _ _ _ E).
  all: vm_compute; repeat split; discriminate || reflexivity.
Defined.

Lemma tracked_publishers_bounded_witness : Z.of_nat (size (pubs sample_run.1)) ≤ 2.
Proof. exact (tracked_publishers_bounded sample_config _ _ sample_reachable). Defined.

Lemma observe_never_panics_witness :
  ∃ t' v g, @Observe ascending_order (heartbeat "r" 0 max_u64) 9 sample_run.1 = Some (t', v, g).
Proof.
  apply (@observe_never_panics ascending_order sample_config _ sample_run.2 _ _ sample_reachable).
  repeat split; vm_compute; discriminate.
Defined.

(** ** Where the sequence space wraps *)

(** The state of a publisher that reached the top of the sequence space. *)
Definition at_top : PublisherState :=
  mkPublisher "p" 1 0 max_u64 (NewGapSet 0) 0 0 1 0 true.

(** past the top of the sequence space the classification contradicts its
    comment: a publisher that wrapped and continues at [5] is not routed to the
    implicit-restart heuristic but recorded as having lost [0, 4], and a plain
    duplicate of the last event is accepted, with a gap of the whole space. *)
Theorem wraparound_is_a_gap :
  (∃ st, observe_known (applyDefaults sample_config) at_top (heartbeat "p" 1 5) 9
         = Some (st, AcceptWithGap, Some (mkGap "p" 1 0 4 9)) ∧ RestartCount st = 0)
  ∧ (∃ st, observe_known (applyDefaults sample_config) at_top (heartbeat "p" 1 max_u64) 9
           = Some (st, AcceptWithGap, Some (mkGap "p" 1 0 (max_u64 - 1) 9)))
  ∧ isImplicitRestart (applyDefaults sample_config) at_top 5 = true.
Proof. split_and!; eexists || reflexivity; split || reflexivity; reflexivity. Qed.
