(* ===== verification/Ring.v ===== *)
(** * Ring: the bounded per-key history (pkg/oracle/ring.go)

    [ring] keeps the last [capacity] history entries of a key in a circular
    buffer that grows lazily; [snapshot] reads it back oldest first. *)
From S2P Require Import Prelude GoBase GoStrings Event SeqTrack.

Record HistoryEntry := mkHistory {
  HEvent : Event.t;
  HVerdict : Verdict;
  ResultValue : Value;
  HVersion : Z;
  AppliedAt : Time
}.

#[local] Arguments Nat.ltb : simpl never.
#[local] Arguments Nat.eqb : simpl never.
#[local] Arguments Nat.modulo : simpl never.

(** [entries], [capacity] and [next] of the Go struct; ints that index the slice. *)
Record ring := mkRing { rentries : list HistoryEntry; capacity : nat; next : nat }.

Definition newRing (capacity : nat) : ring := mkRing [] capacity 0.

Definition push (r : ring) (h : HistoryEntry) : ring :=
  if (capacity r =? 0)%nat then r
  else if (length (rentries r) <? capacity r)%nat then
    let entries := rentries r ++ [h] in
    mkRing entries (capacity r) (length entries mod capacity r)
  else mkRing (<[next r := h]> (rentries r)) (capacity r) ((next r + 1) mod capacity r).

Definition clone_result (h : HistoryEntry) : HistoryEntry :=
  mkHistory (HEvent h) (HVerdict h) (Clone (ResultValue h)) (HVersion h) (AppliedAt h).

(** [nil] and the empty history are the same list. *)
Definition snapshot (r : ring) : list HistoryEntry :=
  let n := length (rentries r) in
  if (n =? 0)%nat then []
  else
    let start := if (n =? capacity r)%nat then next r else 0%nat in
    omap (λ i, clone_result <$> rentries r !! ((start + i) mod n)%nat) (seq 0 n).

(** ** Correctness *)

Lemma clone_result_id h : clone_result h = h.
Proof. destruct h. unfold clone_result. cbn. by rewrite Clone_id. Qed.

(** The buffer is the last entries, rotated so that the oldest is at [next] once full. *)
Record ring_ok (r : ring) (history : list HistoryEntry) : Prop := mk_ring_ok {
  rok_next : (0 < capacity r)%nat → (next r < capacity r)%nat;
  rok_len : length (rentries r) = Nat.min (capacity r) (length history);
  rok_fill : (length (rentries r) < capacity r)%nat → next r = length (rentries r);
  rok_rot : last_n (capacity r) history
            = if (length (rentries r) <? capacity r)%nat then rentries r
              else drop (next r) (rentries r) ++ take (next r) (rentries r)
}.

Lemma newRing_ok c : ring_ok (newRing c) [].
Proof.
  constructor; cbn; auto with lia. destruct c; done.
Qed.

Lemma capacity_push r h : capacity (push r h) = capacity r.
Proof. unfold push. by repeat case_match. Qed.

Lemma push_ok r history h : ring_ok r history → ring_ok (push r h) (history ++ [h]).
Proof.
  intros [Hn Hl Hf Hr]. destruct r as [es c nx]; cbn in *. unfold push; cbn.
  destruct (Nat.eqb_spec c 0) as [->|Hc].
  { constructor; cbn; auto with lia. destruct es; [|done]. unfold last_n.
    rewrite drop_ge by lia. by rewrite drop_nil, take_nil. }
  specialize (Hn ltac:(lia)). pose proof (length_last_n c history) as Hlen.
  destruct (Nat.ltb_spec (length es) c) as [Hlt|Hge]; cbn.
  - assert (length history < c)%nat by lia.
    constructor; cbn; intros; rewrite ?length_app; cbn.
    + by apply Nat.mod_upper_bound.
    + lia.
    + rewrite length_app in *. cbn in *. apply Nat.mod_small. lia.
    + rewrite last_n_snoc by lia. rewrite Hlen, Hr.
      replace (Nat.min c (length history) + 1 - c)%nat with 0%nat by lia. rewrite drop_0.
      destruct (Nat.ltb_spec (length es + 1) c); [done|].
      replace (length es + 1)%nat with c by lia. rewrite Nat.Div0.mod_same.
      by rewrite drop_0, take_0, app_nil_r.
  - assert (length es = c) as Hec by lia. assert (nx < length es)%nat as Hnx by lia.
    constructor; cbn; intros; rewrite ?length_insert, ?length_app in *; cbn; try lia.
    + by apply Nat.mod_upper_bound.
    + rewrite last_n_snoc by lia. rewrite Hlen, Hr.
      replace (Nat.min c (length history) + 1 - c)%nat with 1%nat by lia.
      destruct (Nat.ltb_spec (length es) c); [lia|].
      rewrite <- Hec. symmetry. by apply rotate_insert.
Qed.

(** Reading consecutive positions of a list is a slice of it. *)
Lemma omap_slice (l : list HistoryEntry) (g : nat → nat) m : ∀ a b,
  (∀ i, (i < m)%nat → g (a + i)%nat = (b + i)%nat) → (b + m ≤ length l)%nat →
  omap (λ i, clone_result <$> l !! g i) (seq a m) = take m (drop b l).
Proof.
  induction m as [|m IH]; intros a b Hg Hb; [by rewrite take_0|].
  cbn [seq omap list_omap]. pose proof (Hg 0%nat ltac:(lia)) as H0.
  rewrite !Nat.add_0_r in H0. rewrite H0.
  destruct (l !! b) as [x|] eqn:Hx; [|apply lookup_ge_None in Hx; lia].
  rewrite (drop_S _ x) by done. cbn. rewrite clone_result_id. f_equal.
  apply IH; [|lia]. intros i Hi. specialize (Hg (S i) ltac:(lia)).
  replace (S a + i)%nat with (a + S i)%nat by lia. lia.
Qed.

Lemma snapshot_ok r history : ring_ok r history → snapshot r = last_n (capacity r) history.
Proof.
  intros [Hn Hl Hf Hr]. rewrite Hr. unfold snapshot. cbv zeta.
  destruct (Nat.eqb_spec (length (rentries r)) 0) as [He|He].
  { apply nil_length_inv in He. rewrite He, drop_nil, take_nil. clear Hr. by case_match. }
  assert (0 < capacity r)%nat as Hc by lia. specialize (Hn Hc).
  destruct (Nat.ltb_spec (length (rentries r)) (capacity r)) as [Hlt|Hge].
  - destruct (Nat.eqb_spec (length (rentries r)) (capacity r)); [lia|].
    rewrite (omap_slice _ _ _ 0 0); [by rewrite drop_0, firstn_all| |lia].
    intros i Hi. apply Nat.mod_small. lia.
  - destruct (Nat.eqb_spec (length (rentries r)) (capacity r)) as [Heq|]; [|lia].
    assert (seq 0 (length (rentries r))
            = seq 0 (length (rentries r) - next r) ++ seq (length (rentries r) - next r) (next r)) as ->.
    { rewrite <- seq_app. f_equal. lia. }
    rewrite omap_app, (omap_slice _ _ _ 0 (next r)), (omap_slice _ _ _ _ 0); [| |lia| |lia].
    + rewrite drop_0. f_equal. apply take_ge. rewrite length_drop. lia.
    + intros i Hi. replace (next r + (length (rentries r) - next r + i))%nat
        with (i + 1 * length (rentries r))%nat by lia.
      rewrite Nat.Div0.mod_add. apply Nat.mod_small. lia.
    + intros. apply Nat.mod_small. lia.
Qed.

Definition push_all (c : nat) (history : list HistoryEntry) : ring :=
  foldl push (newRing c) history.

Lemma push_all_ok c history : ring_ok (push_all c history) history ∧ capacity (push_all c history) = c.
Proof.
  induction history as [|h history IH] using rev_ind; [split; [apply newRing_ok|done]|].
  unfold push_all in *. rewrite foldl_app. cbn. rewrite capacity_push.
  destruct IH as [IH1 IH2]. split; [by apply push_ok|done].
Qed.

(** reading the circular buffer back gives exactly the last [capacity] entries pushed, oldest
    first, for every capacity (none at all for 0) and every number of pushes. *)
Theorem ring_keeps_the_last_entries c history :
  snapshot (push_all c history) = last_n c history.
Proof.
  destruct (push_all_ok c history) as [Hok Hc]. rewrite (snapshot_ok _ _ Hok). by rewrite Hc.
Qed.
