(* ===== verification/Shard.v ===== *)
(** * Shard: one lock domain of the oracle
      (pkg/oracle/shard.go, settle.go, evict.go and the entry type of entry.go)

    The entries of a shard, its settlement index (live buckets plus the coalesced
    [settled] set), the cached trust cardinalities, and eviction. Pointers to
    entries are values here: every write of an entry is put back into the map. *)
From S2P Require Import Prelude GoBase GoStrings Event SeqTrack Ring.

#[local] Arguments Z.add : simpl never.
#[local] Arguments Z.sub : simpl never.
#[local] Arguments Z.quot : simpl never.

(** ** Data *)

Record entry := mkEntry {
  key : string;
  value : Value;
  version : Z;
  trust : TrustState;
  lastEventAt : Time;
  lastValueChangeAt : Time;
  lastSeq : Z;
  lastEpoch : Z;
  lastPublisher : string;
  ttl : option Duration;
  truncated : bool;
  createdAt : Time;
  gen : Z;
  bucket : Z;
  ering : ring
}.

Definition with_trust (e : entry) (t : TrustState) : entry :=
  mkEntry (key e) (value e) (version e) t (lastEventAt e) (lastValueChangeAt e) (lastSeq e)
    (lastEpoch e) (lastPublisher e) (ttl e) (truncated e) (createdAt e) (gen e) (bucket e) (ering e).
Definition with_gen (e : entry) (g : Z) : entry :=
  mkEntry (key e) (value e) (version e) (trust e) (lastEventAt e) (lastValueChangeAt e) (lastSeq e)
    (lastEpoch e) (lastPublisher e) (ttl e) (truncated e) (createdAt e) g (bucket e) (ering e).
Definition with_bucket (e : entry) (b : Z) : entry :=
  mkEntry (key e) (value e) (version e) (trust e) (lastEventAt e) (lastValueChangeAt e) (lastSeq e)
    (lastEpoch e) (lastPublisher e) (ttl e) (truncated e) (createdAt e) (gen e) b (ering e).
Definition with_ring (e : entry) (r : ring) : entry :=
  mkEntry (key e) (value e) (version e) (trust e) (lastEventAt e) (lastValueChangeAt e) (lastSeq e)
    (lastEpoch e) (lastPublisher e) (ttl e) (truncated e) (createdAt e) (gen e) (bucket e) r.

(** [&entry{key: k, createdAt: at, ring: newRing(size)}] *)
Definition new_entry (k : string) (at_ : Time) (size : nat) : entry :=
  mkEntry k absent 0 TrustComplete zero_time zero_time 0 0 "" None false at_ 0 0 (newRing size).

(** The snapshot [Entry] of the exported API; [Expired] is filled in by [Get]. *)
Record Entry := mkSnapshot {
  Key : string;
  EntValue : Value;
  Version : Z;
  Trust : TrustState;
  LastEventAt : Time;
  LastValueChangeAt : Time;
  LastSeq : Z;
  LastEpoch : Z;
  LastPublisher : string;
  EntTTL : option Duration;
  Expired : bool;
  Truncated : bool;
  CreatedAt : Time
}.

Definition Entry_IsAbsent (e : Entry) : bool := Value_IsAbsent (EntValue e).

Definition entry_snapshot (e : entry) (effectiveTrust : TrustState) : Entry :=
  mkSnapshot (key e) (Clone (value e)) (version e) effectiveTrust (lastEventAt e)
    (lastValueChangeAt e) (lastSeq e) (lastEpoch e) (lastPublisher e) (ttl e) false (truncated e)
    (createdAt e).

Record shard := mkShard {
  entries : gmap string entry;
  buckets : gmap Z (gset string);
  settled : gset string;
  bucketWidth : Duration;
  maxKeys : Z;
  fresh : Z;
  adopted : Z;
  suspect : Z;
  ntruncated : Z;
  evictions : Z
}.

Definition newShard (bucketWidth : Duration) (maxKeys : Z) : shard :=
  mkShard ∅ ∅ ∅ bucketWidth maxKeys 0 0 0 0 0.

(** Assignments to single fields. *)
Definition set_entries (s : shard) (m : gmap string entry) : shard :=
  mkShard m (buckets s) (settled s) (bucketWidth s) (maxKeys s) (fresh s) (adopted s) (suspect s)
    (ntruncated s) (evictions s).
Definition set_index (s : shard) (b : gmap Z (gset string)) (st : gset string) : shard :=
  mkShard (entries s) b st (bucketWidth s) (maxKeys s) (fresh s) (adopted s) (suspect s)
    (ntruncated s) (evictions s).
Definition set_counts (s : shard) (f a su t : Z) : shard :=
  mkShard (entries s) (buckets s) (settled s) (bucketWidth s) (maxKeys s) f a su t (evictions s).
Definition set_evictions (s : shard) (n : Z) : shard :=
  mkShard (entries s) (buckets s) (settled s) (bucketWidth s) (maxKeys s) (fresh s) (adopted s)
    (suspect s) (ntruncated s) n.

(** ** Cached cardinalities (shard.go) *)

Definition forget (s : shard) (e : entry) (floor : Z) : shard :=
  let s :=
    match trust e with
    | TrustAdopted => set_counts s (fresh s) (adopted s - 1) (suspect s) (ntruncated s)
    | TrustSuspect => set_counts s (fresh s) (adopted s) (suspect s - 1) (ntruncated s)
    | TrustComplete =>
        if gen e >=? floor
        then set_counts s (fresh s - 1) (adopted s) (suspect s) (ntruncated s) else s
    end in
  if truncated e then set_counts s (fresh s) (adopted s) (suspect s) (ntruncated s - 1) else s.

Definition remember (s : shard) (e : entry) (floor : Z) : shard :=
  let s :=
    match trust e with
    | TrustAdopted => set_counts s (fresh s) (adopted s + 1) (suspect s) (ntruncated s)
    | TrustSuspect => set_counts s (fresh s) (adopted s) (suspect s + 1) (ntruncated s)
    | TrustComplete =>
        if gen e >=? floor
        then set_counts s (fresh s + 1) (adopted s) (suspect s) (ntruncated s) else s
    end in
  if truncated e then set_counts s (fresh s) (adopted s) (suspect s) (ntruncated s + 1) else s.

Definition len {A} (m : gmap string A) : Z := Z.of_nat (size m).

Definition suspectCount (s : shard) : Z :=
  suspect s + (len (entries s) - adopted s - suspect s - fresh s).

(** ** The settlement index (settle.go) *)

(** Go's integer division truncates toward zero. *)
Definition bucketOf (s : shard) (at_ : Time) : Z := Z.quot (UnixNano at_) (bucketWidth s).

Definition inBuckets (s : shard) (e : entry) : bool :=
  match buckets s !! bucket e with
  | None => false
  | Some keys => bool_decide (key e ∈ keys)
  end.

Definition removeFromIndex (s : shard) (e : entry) : shard :=
  let b :=
    match buckets s !! bucket e with
    | None => buckets s
    | Some keys =>
        let keys := keys ∖ {[key e]} in
        if (size keys =? 0)%nat then delete (bucket e) (buckets s)
        else <[bucket e := keys]> (buckets s)
    end in
  set_index s b (settled s ∖ {[key e]}).

Definition place (s : shard) (e : entry) (at_ : Time) : shard * entry :=
  let b := bucketOf s at_ in
  if (bucket e =? b) && inBuckets s e then (s, e)
  else
    let s := removeFromIndex s e in
    let e := with_bucket e b in
    let keys := default ∅ (buckets s !! b) in
    (set_index s (<[b := {[key e]} ∪ keys]> (buckets s)) (settled s), e).

Definition isSettled (e : entry) (now : Time) (w neverSettled : Duration) : bool :=
  if Before (lastEventAt e) (time_Add now (- w)) then true
  else negb (IsZero (lastValueChangeAt e))
       && Before (lastValueChangeAt e) (time_Add now (- neverSettled)).

Definition drop_entry (s : shard) (e : entry) (floor : Z) : shard :=
  let s := forget s e floor in
  let s := removeFromIndex s e in
  set_entries s (delete (key e) (entries s)).

Section ranges.
Context `{MapOrder}.

Definition recount (s : shard) (floor : Z) : shard :=
  foldl (λ s kv, remember s kv.2 floor) (set_counts s 0 0 0 0) (range_map (entries s)).

Definition promote (s : shard) (now : Time) (maxWindow : Duration) : shard :=
  let horizon := bucketOf s (time_Add now (- maxWindow)) in
  foldl (λ s bk,
    if bk.1 >=? horizon then s
    else set_index s (delete bk.1 (buckets s))
           (foldl (λ st k, {[k]} ∪ st) (settled s) (range_set bk.2)))
    s (range_map (buckets s)).

(** The test of the inner loop of [settledKeys]: a key without an entry is skipped. *)
Definition settled_key (s : shard) (now : Time) (w neverSettled : Duration) (k : string) : bool :=
  match entries s !! k with
  | None => false
  | Some e => isSettled e now w neverSettled
  end.

Definition settledKeys (s : shard) (dst : list string) (now : Time) (w neverSettled : Duration)
    : list string :=
  foldl (λ dst bk, dst ++ filter (λ k, settled_key s now w neverSettled k = true) (range_set bk.2))
    (dst ++ range_set (settled s)) (range_map (buckets s)).

Definition countSettled (s : shard) (now : Time) (w neverSettled : Duration) : Z * Z :=
  let horizon := time_Add now (- neverSettled) in
  foldl (λ acc bk,
    foldl (λ acc k,
      match entries s !! k with
      | None => acc
      | Some e =>
          if isSettled e now w neverSettled then (acc.1 + 1, acc.2)
          else if Before (createdAt e) horizon then (acc.1, acc.2 + 1)
          else acc
      end) acc (range_set bk.2))
    (Z.of_nat (size (settled s)), 0) (range_map (buckets s)).

Definition oldestIndexed (s : shard) : option string :=
  match range_set (settled s) with
  | k :: _ => Some k
  | [] =>
      (foldl (λ acc bk,
        let '(oldest, found) := acc in
        if bk.1 >? oldest then acc
        else match range_set bk.2 with
             | [] => acc
             | k :: _ => (bk.1, Some k)
             end) (max_i64, None) (range_map (buckets s))).2
  end.

(** ** Eviction (evict.go) *)

Definition evictOneLocked (s : shard) (floor : Z) : shard * option string :=
  let victim :=
    match oldestIndexed s with
    | Some k => Some k
    | None => match range_map (entries s) with (k, _) :: _ => Some k | [] => None end
    end in
  match victim with
  | None => (s, None)
  | Some k =>
      match entries s !! k with
      | None => (s, None)
      | Some ent =>
          let s := drop_entry s ent floor in
          (set_evictions s (u64 (evictions s + 1)), Some k)
      end
  end.
End ranges.

(** ** Sums over the entries *)

Lemma msum_const_one (m : gmap string entry) : msum (λ _, 1) m = len m.
Proof.
  unfold len. induction m as [|k e m Hk IH] using map_ind; [done|].
  rewrite msum_insert_new, map_size_insert_None, IH by done. lia.
Qed.

(** ** What the cached cardinalities should be *)

Definition effectiveTrust (e : entry) (floor : Z) : TrustState :=
  match trust e with
  | TrustComplete => if gen e <? floor then TrustSuspect else TrustComplete
  | t => t
  end.

Definition is_trust (t : TrustState) (floor : Z) (e : entry) : Z :=
  if decide (effectiveTrust e floor = t) then 1 else 0.
Definition marked_suspect (e : entry) : Z := if decide (trust e = TrustSuspect) then 1 else 0.
Definition is_truncated (e : entry) : Z := if truncated e then 1 else 0.

Record counters_ok (s : shard) (floor : Z) : Prop := mk_counters_ok {
  co_fresh : fresh s = msum (is_trust TrustComplete floor) (entries s);
  co_adopted : adopted s = msum (is_trust TrustAdopted floor) (entries s);
  co_suspect : suspect s = msum marked_suspect (entries s);
  co_truncated : ntruncated s = msum is_truncated (entries s)
}.

Lemma forget_counts s e floor :
  forget s e floor
  = set_counts s (fresh s - is_trust TrustComplete floor e)
      (adopted s - is_trust TrustAdopted floor e) (suspect s - marked_suspect e)
      (ntruncated s - is_truncated e).
Proof.
  unfold forget, is_trust, marked_suspect, is_truncated, effectiveTrust, set_counts.
  destruct s; cbn.
  destruct (trust e), (truncated e), (Z.geb_spec (gen e) floor), (Z.ltb_spec (gen e) floor); cbn;
    try lia; repeat case_decide; try congruence; f_equal; lia.
Qed.

Lemma remember_counts s e floor :
  remember s e floor
  = set_counts s (fresh s + is_trust TrustComplete floor e)
      (adopted s + is_trust TrustAdopted floor e) (suspect s + marked_suspect e)
      (ntruncated s + is_truncated e).
Proof.
  unfold remember, is_trust, marked_suspect, is_truncated, effectiveTrust, set_counts.
  destruct s; cbn.
  destruct (trust e), (truncated e), (Z.geb_spec (gen e) floor), (Z.ltb_spec (gen e) floor); cbn;
    try lia; repeat case_decide; try congruence; f_equal; lia.
Qed.

(** The derived suspect cardinality counts the effectively suspect entries. *)
Lemma suspectCount_exact s floor :
  counters_ok s floor → suspectCount s = msum (is_trust TrustSuspect floor) (entries s).
Proof.
  intros [Hf Ha _ _]. unfold suspectCount.
  assert (len (entries s) = msum (is_trust TrustComplete floor) (entries s)
    + (msum (is_trust TrustAdopted floor) (entries s) + msum (is_trust TrustSuspect floor) (entries s)))
    as Hl.
  { rewrite <- !msum_plus, <- msum_const_one. apply msum_ext. intros k e _. unfold is_trust.
    by destruct (effectiveTrust e floor). }
  lia.
Qed.

(** ** The settlement index *)

Definition in_bucket (s : shard) (b : Z) (k : string) : Prop :=
  ∃ keys, buckets s !! b = Some keys ∧ k ∈ keys.

Lemma inBuckets_spec s e : inBuckets s e = true ↔ in_bucket s (bucket e) (key e).
Proof.
  unfold inBuckets, in_bucket. destruct (buckets s !! bucket e) as [keys|].
  - rewrite bool_decide_eq_true. naive_solver.
  - naive_solver.
Qed.

Lemma size_zero_set (m : gset string) : (size m =? 0)%nat = bool_decide (m = ∅).
Proof.
  case_bool_decide as Hm; [by subst|]. apply Nat.eqb_neq. intros Hs. apply Hm.
  by apply leibniz_equiv, size_empty_iff.
Qed.

Lemma removeFromIndex_in s e b k :
  in_bucket (removeFromIndex s e) b k ↔ in_bucket s b k ∧ ¬ (b = bucket e ∧ k = key e).
Proof.
  unfold in_bucket, removeFromIndex. cbn. destruct (buckets s !! bucket e) as [keys|] eqn:Hb.
  - rewrite size_zero_set. case_bool_decide as He.
    + rewrite lookup_delete. case_decide as Hd; [|naive_solver]. subst b.
      rewrite Hb. split; [naive_solver|]. intros ((keys' & [= <-] & Hk) & Hne).
      exfalso. apply Hne. split; [done|]. set_solver.
    + rewrite lookup_insert. case_decide as Hd; [|naive_solver]. subst b. rewrite Hb.
      split.
      * intros (keys' & [= <-] & Hk). split; [exists keys|]; set_solver.
      * intros ((keys' & [= <-] & Hk) & Hne). eexists. split; [done|]. set_solver.
  - split; [|naive_solver]. intros (keys & Hk & Hin). split; [eauto|]. intros [-> _]. congruence.
Qed.

Lemma removeFromIndex_settled s e k : k ∈ settled (removeFromIndex s e) ↔ k ∈ settled s ∧ k ≠ key e.
Proof. unfold removeFromIndex. cbn. set_solver. Qed.

(** Buckets are deleted when they empty. *)
Definition no_empty_bucket (s : shard) : Prop := ∀ b keys, buckets s !! b = Some keys → keys ≠ ∅.

Lemma removeFromIndex_nonempty s e : no_empty_bucket s → no_empty_bucket (removeFromIndex s e).
Proof.
  intros Hs b keys. unfold removeFromIndex. cbn.
  destruct (buckets s !! bucket e) as [keys0|] eqn:Hb; [|apply Hs].
  rewrite size_zero_set. case_bool_decide.
  - rewrite lookup_delete_Some. intros [_ Hk]. by apply (Hs b).
  - rewrite lookup_insert_Some. intros [[_ <-]|[_ Hk]]; [done|by apply (Hs b)].
Qed.

Record index_ok_but (x : string → Prop) (s : shard) : Prop := mk_index_ok {
  io_key : ∀ k e, entries s !! k = Some e → key e = k;
  io_nonempty : no_empty_bucket s;
  io_bucket : ∀ b k, in_bucket s b k → ∃ e, entries s !! k = Some e ∧ bucket e = b;
  io_settled : ∀ k, k ∈ settled s → is_Some (entries s !! k) ∧ ∀ b, ¬ in_bucket s b k;
  io_cover : ∀ k e, entries s !! k = Some e → x k ∨ k ∈ settled s ∨ in_bucket s (bucket e) k
}.

(** Every entry is in exactly one place: one live bucket, its own, or the settled set. *)
Abbreviation index_ok := (index_ok_but (λ _, False)).

Lemma place_entry s e at_ :
  (place s e at_).2 = with_bucket e (bucketOf s at_).
Proof.
  unfold place. case_match eqn:Hc; [|done]. zbool. destruct e; cbn in *. by subst.
Qed.

Lemma place_in s e at_ b k :
  in_bucket (place s e at_).1 b k
  ↔ (in_bucket s b k ∧ ¬ (b = bucket e ∧ k = key e)) ∨ (b = bucketOf s at_ ∧ k = key e).
Proof.
  unfold place. case_match eqn:Hc; cbn [fst].
  - apply andb_true_iff in Hc as [Hb Hi]. apply Z.eqb_eq in Hb. rewrite inBuckets_spec in Hi.
    rewrite Hb in *. split; [|naive_solver]. intros Hin.
    destruct (decide (b = bucketOf s at_ ∧ k = key e)); [by right|by left].
  - rewrite <- removeFromIndex_in. unfold in_bucket at 1. cbn [buckets set_index].
    rewrite lookup_insert. case_decide as Hd.
    + subst b. unfold in_bucket. change (bucketOf (removeFromIndex s e)) with (bucketOf s).
      destruct (buckets (removeFromIndex s e) !! bucketOf s at_) as [keys|]; cbn.
      * split.
        -- intros (? & [= <-] & [?%elem_of_singleton|?]%elem_of_union); [by right|left; eauto].
        -- intros [(? & [= <-] & ?)|[_ ->]]; eexists; (split; [done|set_solver]).
      * split.
        -- intros (? & [= <-] & [?%elem_of_singleton|?]%elem_of_union); [by right|set_solver].
        -- intros [(? & ? & ?)|[_ ->]]; [done|]. eexists. split; [done|set_solver].
    + unfold in_bucket. naive_solver.
Qed.

Lemma place_settled s e at_ k :
  (in_bucket s (bucket e) (key e) → key e ∉ settled s) →
  k ∈ settled (place s e at_).1 ↔ k ∈ settled s ∧ k ≠ key e.
Proof.
  intros Hs. unfold place. case_match eqn:Hc; cbn [fst settled set_index].
  - apply andb_true_iff in Hc as [_ Hi]. rewrite inBuckets_spec in Hi. set_solver.
  - apply removeFromIndex_settled.
Qed.

Lemma place_nonempty s e at_ : no_empty_bucket s → no_empty_bucket (place s e at_).1.
Proof.
  intros Hs. unfold place. case_match; [done|]. cbn [fst]. intros b keys. cbn.
  rewrite lookup_insert_Some. intros [[_ <-]|[_ Hk]]; [set_solver|].
  apply (removeFromIndex_nonempty s e Hs b keys Hk).
Qed.

Lemma place_fields s e at_ :
  entries (place s e at_).1 = entries s ∧ bucketWidth (place s e at_).1 = bucketWidth s
  ∧ maxKeys (place s e at_).1 = maxKeys s
  ∧ fresh (place s e at_).1 = fresh s ∧ adopted (place s e at_).1 = adopted s
  ∧ suspect (place s e at_).1 = suspect s ∧ ntruncated (place s e at_).1 = ntruncated s
  ∧ evictions (place s e at_).1 = evictions s.
Proof. unfold place. by case_match. Qed.

(** Writing back an entry after [place]: the entry is at its new place and only there. *)
Lemma place_ok s k e0 e at_ :
  index_ok_but (λ j, j = k) s → entries s !! k = Some e0 →
  key e = k → bucket e = bucket e0 → (k ∈ settled s → ∀ b, ¬ in_bucket s b k) →
  index_ok (set_entries (place s e at_).1 (<[k := (place s e at_).2]> (entries s))).
Proof.
  intros Hix Hk Hkey Hbk Hdisj. destruct Hix as [Iky Ine Ibk Ist Icov].
  assert (∀ j, j ∈ settled (place s e at_).1 ↔ j ∈ settled s ∧ j ≠ k) as Hset.
  { intros j. rewrite place_settled, Hkey; [done|]. rewrite Hkey. intros Hi Hs. by eapply Hdisj. }
  assert (∀ b j, in_bucket (set_entries (place s e at_).1 (<[k := (place s e at_).2]> (entries s))) b j
    ↔ (in_bucket s b j ∧ ¬ (b = bucket e ∧ j = k)) ∨ (b = bucketOf s at_ ∧ j = k)) as Hin.
  { intros b j. unfold in_bucket at 1. cbn [buckets set_entries].
    change (∃ keys, buckets (place s e at_).1 !! b = Some keys ∧ j ∈ keys)
      with (in_bucket (place s e at_).1 b j). by rewrite place_in, Hkey. }
  rewrite place_entry in *. constructor; cbn [entries set_entries].
  - intros j ej. rewrite lookup_insert_Some. intros [[<- <-]|[_ Hj]]; [done|by apply Iky].
  - apply place_nonempty, Ine.
  - intros b j. rewrite Hin. intros [[Hb Hne]|[-> ->]].
    + destruct (Ibk _ _ Hb) as (ej & Hj & Hbj). destruct (decide (j = k)) as [->|Hjk].
      * exfalso. apply Hne. split; [|done]. congruence.
      * exists ej. by rewrite lookup_insert_ne.
    + eexists. by rewrite lookup_insert_eq.
  - intros j. cbn [settled set_entries]. rewrite Hset. intros [Hj Hjk].
    destruct (Ist _ Hj) as [Hsome Hnb]. split; [by rewrite lookup_insert_ne|].
    intros b. rewrite Hin. intros [[Hb _]|[_ ?]]; [by apply (Hnb b)|done].
  - intros j ej. cbn [settled set_entries]. rewrite lookup_insert_Some. intros Hje. right.
    destruct Hje as [[<- <-]|[Hjk Hj]].
    + right. rewrite Hin. right. done.
    + rewrite Hset, Hin. destruct (Icov _ _ Hj) as [->|[?|?]]; [done|by left|].
      right. left. naive_solver.
Qed.

(** ** Removing an entry *)

Lemma drop_entry_index s k e floor :
  index_ok s → entries s !! k = Some e → index_ok (drop_entry s e floor).
Proof.
  intros [Iky Ine Ibk Ist Icov] Hk. pose proof (Iky _ _ Hk) as Hkey. unfold drop_entry.
  rewrite forget_counts. set (s1 := set_counts _ _ _ _ _).
  assert (∀ b j, in_bucket (removeFromIndex s1 e) b j ↔ in_bucket s b j ∧ j ≠ k) as Hin.
  { intros b j. rewrite removeFromIndex_in. change (in_bucket s1) with (in_bucket s). rewrite Hkey.
    split; intros [Hb Hne]; split; try done; [|naive_solver]. intros ->.
    destruct (Ibk _ _ Hb) as (e' & He & <-). naive_solver. }
  constructor; cbn [entries set_entries].
  - intros j ej. rewrite lookup_delete_Some. intros [_ Hj]. by apply Iky.
  - by apply removeFromIndex_nonempty.
  - intros b j Hb. apply Hin in Hb as [Hb Hj]. destruct (Ibk _ _ Hb) as (ej & He & Hbj).
    exists ej. cbn. rewrite Hkey. by rewrite lookup_delete_ne.
  - intros j Hj. change (j ∈ settled (removeFromIndex s1 e)) in Hj.
    rewrite removeFromIndex_settled in Hj. destruct Hj as [Hj Hne]. rewrite Hkey in Hne.
    destruct (Ist _ Hj) as [Hs Hb]. cbn. rewrite Hkey. split; [by rewrite lookup_delete_ne|].
    intros b Hb'. apply Hin in Hb' as [? _]. by apply (Hb b).
  - intros j ej Hj. cbn in Hj. rewrite lookup_delete_Some, Hkey in Hj. destruct Hj as [Hne Hj].
    right. destruct (Icov _ _ Hj) as [[]|[Hs|Hb]]; [left|right; by apply Hin].
    change (j ∈ settled (removeFromIndex s1 e)). rewrite removeFromIndex_settled, Hkey. done.
Qed.

Lemma drop_entry_fields s k e floor :
  index_ok s → entries s !! k = Some e →
  entries (drop_entry s e floor) = delete k (entries s)
  ∧ bucketWidth (drop_entry s e floor) = bucketWidth s ∧ maxKeys (drop_entry s e floor) = maxKeys s.
Proof.
  intros Hix Hk. unfold drop_entry. rewrite forget_counts. cbn.
  by rewrite (io_key _ _ Hix _ _ Hk).
Qed.

Lemma drop_entry_counters s k e floor :
  index_ok s → counters_ok s floor → entries s !! k = Some e →
  counters_ok (drop_entry s e floor) floor.
Proof.
  intros Hix [H1 H2 H3 H4] Hk. unfold drop_entry. rewrite forget_counts.
  pose proof (io_key _ _ Hix _ _ Hk) as Hkey.
  rewrite (msum_delete _ _ k e) in H1 by done. rewrite (msum_delete _ _ k e) in H2 by done.
  rewrite (msum_delete _ _ k e) in H3 by done. rewrite (msum_delete _ _ k e) in H4 by done.
  constructor; cbn; rewrite Hkey; lia.
Qed.

(** ** The shard invariant

    [bound] is a ghost instant: everything in the settled set was last touched
    before it. It grows with each [promote]. *)

Record shard_ok_but (x : string → Prop) (s : shard) (floor : Z) (bound : Time) : Prop := mk_shard_ok {
  so_index : index_ok_but x s;
  so_counters : counters_ok s floor;
  so_width : 0 < bucketWidth s;
  so_times : ∀ k e, entries s !! k = Some e → x k ∨
    (is_i64 (lastEventAt e) ∧ bucket e = bucketOf s (lastEventAt e));
  so_settled : ∀ k e, k ∈ settled s → entries s !! k = Some e → lastEventAt e < bound;
  so_size : len (entries s) ≤ maxKeys s
}.
Abbreviation shard_ok := (shard_ok_but (λ _, False)).

Lemma newShard_ok w n floor bound : 0 < w → 0 ≤ n → shard_ok (newShard w n) floor bound.
Proof.
  intros Hw Hn. constructor; [|done|done| |cbn; set_solver|done].
  - constructor; cbn; try done. by intros b k (keys & Hk & _).
  - cbn. intros k e. by rewrite lookup_empty.
Qed.

Lemma shard_ok_weaken x s floor bound :
  shard_ok s floor bound → shard_ok_but x s floor bound.
Proof.
  intros [[H1 H2 H3 H4 H5] ? ? H6 ? ?]. constructor; try done; [constructor; try done|].
  - intros k e Hk. right. by destruct (H5 _ _ Hk) as [[]|?].
  - intros k e Hk. right. by destruct (H6 _ _ Hk) as [[]|?].
Qed.

(** One accounted write: forget the old entry, remember the new one, place it and
    store it. *)
Definition write_back (s : shard) (e0 e : entry) (at_ : Time) (floor : Z) : shard :=
  let s := remember (forget s e0 floor) e floor in
  let '(s, e) := place s e at_ in
  set_entries s (<[key e := e]> (entries s)).

Lemma counters_overwrite s k e0 e floor :
  counters_ok s floor → entries s !! k = Some e0 →
  let s' := remember (forget s e0 floor) e floor in
  ∀ b m st wd ev, counters_ok (mkShard (<[k := e]> (entries s)) b st wd m
    (fresh s') (adopted s') (suspect s') (ntruncated s') ev) floor.
Proof.
  intros [H1 H2 H3 H4] Hk s' b m st wd ev. subst s'. rewrite remember_counts, forget_counts.
  constructor; cbn; rewrite (msum_overwrite _ _ k e0) by done; lia.
Qed.

Lemma write_back_ok s floor bound k e0 e at_ :
  shard_ok_but (λ j, j = k) s floor bound → entries s !! k = Some e0 →
  key e = k → bucket e = bucket e0 → lastEventAt e = at_ → is_i64 at_ →
  shard_ok (write_back s e0 e at_ floor) floor bound.
Proof.
  intros [Hix Hco Hw Hti Hse Hsz] Hk Hkey Hb Hat Hi64. unfold write_back.
  rewrite remember_counts, forget_counts. set (s1 := set_counts _ _ _ _ _).
  assert (entries s1 = entries s) as He1 by done.
  destruct (place_fields s1 e at_) as (Hpe & Hpw & Hpm & Hpf & Hpa & Hps & Hpt & Hpv).
  assert (index_ok_but (λ j, j = k) s1) as Hix1 by (destruct Hix; constructor; done).
  assert (k ∈ settled s1 → ∀ b, ¬ in_bucket s1 b k) as Hd by (intros Hs; by apply (io_settled _ _ Hix1)).
  pose proof (place_ok s1 k e0 e at_ Hix1 Hk Hkey Hb Hd) as Hok.
  pose proof (place_entry s1 e at_) as Hent.
  assert (∀ j, j ∈ settled (place s1 e at_).1 ↔ j ∈ settled s1 ∧ j ≠ k) as Hset.
  { intros j. rewrite place_settled, Hkey; [done|]. rewrite Hkey. intros Hin Hs. by eapply Hd. }
  destruct (place s1 e at_) as [s2 e2]. cbn [fst snd] in *.
  assert (key e2 = k) as -> by (by rewrite Hent). rewrite Hpe, He1. rewrite Hent in *.
  constructor.
  - done.
  - pose proof (counters_overwrite s k e0 (with_bucket e (bucketOf s1 at_)) floor Hco Hk
      (buckets s2) (maxKeys s2) (settled s2) (bucketWidth s2) (evictions s2)) as Hcnt.
    rewrite remember_counts, forget_counts in Hcnt. destruct s2; cbn in *. by subst.
  - cbn. by rewrite Hpw.
  - cbn [entries set_entries]. intros j ej. rewrite lookup_insert_Some. intros Hje. right.
    assert (∀ t, bucketOf (set_entries s2 (<[k:=with_bucket e (bucketOf s1 at_)]> (entries s))) t
      = bucketOf s t) as Hbo by (intros t; unfold bucketOf; cbn; by rewrite Hpw).
    rewrite Hbo. destruct Hje as [[<- <-]|[Hjk Hj]].
    + cbn [lastEventAt bucket with_bucket]. by rewrite Hat.
    + by destruct (Hti _ _ Hj) as [->|?].
  - cbn [entries settled set_entries]. intros j ej Hj. apply Hset in Hj as [Hj Hjk].
    rewrite lookup_insert_ne by done. by apply Hse.
  - cbn. unfold len in *. rewrite map_size_insert_Some by eauto. by rewrite Hpm.
Qed.

(** A new entry is stored and remembered before it is forgotten again and written. *)
Lemma store_new_ok s floor bound k e0 :
  shard_ok s floor bound → entries s !! k = None → key e0 = k → len (entries s) < maxKeys s →
  shard_ok_but (λ j, j = k) (remember (set_entries s (<[k := e0]> (entries s))) e0 floor) floor bound.
Proof.
  intros [[Iky Ine Ibk Ist Icov] [H1 H2 H3 H4] Hw Hti Hse Hsz] Hk Hkey Hlt.
  rewrite remember_counts. constructor; cbn.
  - constructor; cbn.
    + intros j ej. rewrite lookup_insert_Some. intros [[<- <-]|[_ Hj]]; [done|by apply Iky].
    + done.
    + intros b j Hj. destruct (Ibk b j Hj) as (ej & Hej & Hbj). exists ej.
      rewrite lookup_insert_ne; [done|]. congruence.
    + intros j Hj. destruct (Ist _ Hj) as [Hs Hb]. split; [|done].
      rewrite lookup_insert_ne; [done|]. intros ->. rewrite Hk in Hs. by destruct Hs.
    + intros j ej. rewrite lookup_insert_Some. intros [[<- _]|[_ Hj]]; [by left|].
      right. by destruct (Icov _ _ Hj) as [[]|?].
  - constructor; cbn; rewrite msum_insert_new by done; lia.
  - done.
  - intros j ej. rewrite lookup_insert_Some. intros [[<- _]|[_ Hj]]; [by left|].
    right. by destruct (Hti _ _ Hj) as [[]|?].
  - intros j ej Hj. rewrite lookup_insert_Some. intros [[-> _]|[_ Hj']]; [|by apply (Hse j)].
    destruct (Ist _ Hj) as [Hs _]. rewrite Hk in Hs. by destruct Hs.
  - unfold len in *. rewrite map_size_insert_None by done. lia.
Qed.

Section index_ops.
Context `{MapOrder}.

(** ** Eviction *)

Lemma drop_entry_ok s floor bound k e :
  shard_ok s floor bound → entries s !! k = Some e → shard_ok (drop_entry s e floor) floor bound.
Proof.
  intros Hok Hk. destruct Hok as [Hix Hco Hw Hti Hse Hsz].
  destruct (drop_entry_fields s k e floor Hix Hk) as (He & Hwd & Hmx). constructor.
  - by apply (drop_entry_index s k).
  - by apply (drop_entry_counters s k).
  - by rewrite Hwd.
  - intros j ej. rewrite He, lookup_delete_Some. intros [_ Hj]. unfold bucketOf. rewrite Hwd.
    by apply (Hti j).
  - intros j ej Hj. rewrite He, lookup_delete_Some. intros [_ Hj']. apply (Hse j); [|done].
    unfold drop_entry in Hj. rewrite forget_counts in Hj. cbn in Hj. set_solver.
  - rewrite He, Hmx. unfold len in *. rewrite map_size_delete_Some by eauto.
    assert (size (entries s) ≠ 0)%nat by (intros Hz%map_size_empty_inv; by rewrite Hz, lookup_empty in Hk). lia.
Qed.

Lemma range_set_nil (x : gset string) : range_set x = [] ↔ x = ∅.
Proof.
  split.
  - intros Hr. apply elem_of_equiv_empty_L. intros k. rewrite <- elem_of_range_set, Hr. set_solver.
  - intros ->. apply length_zero_iff_nil. by rewrite length_range_set, size_empty.
Qed.

(** The fold over the buckets ends at a non-empty bucket that no non-empty one precedes. *)
Lemma oldest_bucket_spec (l : list (Z * gset string)) : ∀ oldest found,
  let r := foldl (λ acc bk, let '(oldest, found) := acc in
        if bk.1 >? oldest then acc
        else match range_set bk.2 with [] => acc | k :: _ => (bk.1, Some k) end)
        (oldest, found) l in
  r.1 ≤ oldest ∧ (∀ bk, bk ∈ l → bk.2 ≠ ∅ → r.1 ≤ bk.1)
  ∧ ((r = (oldest, found) ∧ ∀ bk, bk ∈ l → bk.2 ≠ ∅ → oldest < bk.1)
     ∨ ∃ bk k, bk ∈ l ∧ k ∈ bk.2 ∧ r = (bk.1, Some k)).
Proof.
  induction l as [|bk l IH]; intros oldest found.
  { cbn. split_and!; [lia|set_solver|]. left. split; [done|set_solver]. }
  cbn [foldl]. destruct (Z.gtb_spec bk.1 oldest) as [Hgt|Hle].
  { destruct (IH oldest found) as (H1 & H2 & H3). split_and!; [done| |].
    - intros bk' [->|?]%elem_of_cons ?; [lia|auto].
    - destruct H3 as [[-> H3]|(bk' & k & ? & ? & ->)]; [left|right].
      + split; [done|]. intros bk' [->|?]%elem_of_cons ?; [lia|auto].
      + exists bk', k. split_and!; [by right|done..]. }
  destruct (range_set bk.2) as [|k0 ks] eqn:Hr.
  { assert (bk.2 = ∅) as Hemp by (by apply range_set_nil).
    destruct (IH oldest found) as (H1 & H2 & H3). split_and!; [done| |].
    - intros bk' [->|?]%elem_of_cons ?; [done|auto].
    - destruct H3 as [[-> H3]|(bk' & k & ? & ? & ->)]; [left|right].
      + split; [done|]. intros bk' [->|?]%elem_of_cons ?; [done|auto].
      + exists bk', k. split_and!; [by right|done..]. }
  destruct (IH bk.1 (Some k0)) as (H1 & H2 & H3). split_and!; [lia| |].
  - intros bk' [->|?]%elem_of_cons ?; [done|auto].
  - right. destruct H3 as [[-> H3]|(bk' & k & ? & ? & ->)].
    + exists bk, k0. split_and!; [by left| |done]. apply elem_of_range_set. rewrite Hr. by left.
    + exists bk', k. split_and!; [by right|done..].
Qed.

Lemma bucketOf_le_max s t : 0 < bucketWidth s → bucketOf s t ≤ max_i64.
Proof.
  intros Hw. unfold bucketOf, UnixNano. pose proof (i64_range t) as [_ Ht].
  transitivity (Z.quot max_i64 (bucketWidth s)); [by apply Z.quot_le_mono|].
  apply Z.quot_le_upper_bound; [done|]. unfold max_i64. nia.
Qed.

(** What eviction looks for: a key of the coalesced set, or of a live bucket that no other
    one precedes. *)
Definition oldest_group (s : shard) (k : string) (e : entry) : Prop :=
  if decide (settled s = ∅) then ∀ b keys, buckets s !! b = Some keys → bucket e ≤ b
  else k ∈ settled s.

Lemma oldestIndexed_some s floor bound :
  shard_ok s floor bound → entries s ≠ ∅ →
  ∃ k e, oldestIndexed s = Some k ∧ entries s !! k = Some e ∧ oldest_group s k e.
Proof.
  intros Hok Hne. pose proof (so_index _ _ _ _ Hok) as Hix.
  unfold oldestIndexed, oldest_group. destruct (range_set (settled s)) as [|k0 ks] eqn:Hs.
  - apply range_set_nil in Hs.
    destruct (oldest_bucket_spec (range_map (buckets s)) max_i64 None) as (_ & Hmin & Hr).
    destruct Hr as [[_ Hnone]|([b keys] & k & Hb & Hk & Heq)].
    + exfalso. apply Hne. apply map_eq. intros k. rewrite lookup_empty.
      destruct (entries s !! k) as [e|] eqn:He; [|done].
      destruct (io_cover _ _ Hix k e He) as [[]|[Hk|(keys & Hk & Hin)]]; [set_solver|].
      destruct (so_times _ _ _ _ Hok k e He) as [[]|[_ Hbk]].
      pose proof (bucketOf_le_max s (lastEventAt e) (so_width _ _ _ _ Hok)).
      specialize (Hnone (bucket e, keys)). rewrite elem_of_range_map in Hnone. cbn in Hnone.
      assert (keys ≠ ∅) by set_solver. specialize (Hnone Hk ltac:(done)). lia.
    + rewrite elem_of_range_map in Hb. rewrite Heq in *. cbn in *.
      destruct (io_bucket _ _ Hix b k) as (e & He & Hbe); [by exists keys|].
      exists k, e. split_and!; [done|done|]. rewrite decide_True by done. intros b' keys' Hb'. rewrite Hbe.
      apply (Hmin (b', keys')); [by apply elem_of_range_map|]. by apply (io_nonempty _ _ Hix b').
  - assert (k0 ∈ settled s) as Hk by (apply elem_of_range_set; rewrite Hs; by left).
    destruct (io_settled _ _ Hix k0 Hk) as [[e He] _]. exists k0, e. split_and!; [done|done|].
    rewrite decide_False; [done|]. set_solver.
Qed.

Lemma evictOneLocked_spec s floor bound :
  shard_ok s floor bound → entries s ≠ ∅ →
  ∃ k e, entries s !! k = Some e ∧ oldest_group s k e
    ∧ evictOneLocked s floor = (set_evictions (drop_entry s e floor)
        (u64 (evictions (drop_entry s e floor) + 1)), Some k).
Proof.
  intros Hok Hne. destruct (oldestIndexed_some s floor bound Hok Hne) as (k & e & Ho & He & Hg).
  exists k, e. split_and!; [done|done|]. unfold evictOneLocked. by rewrite Ho, He.
Qed.

Lemma set_evictions_ok s floor bound n :
  shard_ok s floor bound → shard_ok (set_evictions s n) floor bound.
Proof. intros [[] [] ? ? ? ?]. by constructor. Qed.

(** ** Promotion *)

Lemma quot_lt_inv a b w : 0 < w → Z.quot a w < Z.quot b w → a < b.
Proof.
  intros Hw Hlt. destruct (Z.lt_ge_cases a b) as [|Hge]; [done|].
  pose proof (Z.quot_le_mono b a w Hw Hge). lia.
Qed.

Lemma bucketOf_lt_inv s a b :
  0 < bucketWidth s → is_i64 a → is_i64 b → bucketOf s a < bucketOf s b → a < b.
Proof.
  intros Hw Ha Hb. unfold bucketOf, UnixNano. rewrite !i64_small by done. by apply quot_lt_inv.
Qed.

Lemma foldl_union_settled (l : list string) (st : gset string) :
  foldl (λ st k, {[k]} ∪ st) st l = list_to_set l ∪ st.
Proof. revert st. induction l as [|k l IH]; intros st; cbn; [set_solver|]. rewrite IH. set_solver. Qed.

Lemma exists_snoc {A B} (l : list (A * B)) b x (P : A → B → Prop) :
  (∃ b' x', (b', x') ∈ l ++ [(b, x)] ∧ P b' x') ↔ (∃ b' x', (b', x') ∈ l ∧ P b' x') ∨ P b x.
Proof.
  split.
  - intros (b' & x' & [Hl|Hl%list_elem_of_singleton]%elem_of_app & HP); [left; eauto|].
    right. by injection Hl as -> ->.
  - intros [(b' & x' & Hl & HP)|HP].
    + exists b', x'. split; [|done]. apply elem_of_app. by left.
    + exists b, x. split; [|done]. apply elem_of_app. right. by left.
Qed.

(** [promote] moves whole buckets: what is left in the buckets is what is at or past
    the horizon. *)
Lemma promote_spec s now maxWindow :
  let h := bucketOf s (time_Add now (- maxWindow)) in
  let s' := promote s now maxWindow in
  s' = set_index s (buckets s') (settled s')
  ∧ (∀ b keys, buckets s' !! b = Some keys ↔ buckets s !! b = Some keys ∧ h ≤ b)
  ∧ (∀ k, k ∈ settled s' ↔ k ∈ settled s ∨ ∃ b, in_bucket s b k ∧ b < h).
Proof.
  intros h s'. subst s'. unfold promote. fold h.
  set (step := λ (s0 : shard) (bk : Z * gset string), _).
  assert (∀ l s0,
    NoDup l.*1 → (∀ b keys, (b, keys) ∈ l → buckets s0 !! b = Some keys) →
    foldl step s0 l = set_index s0 (buckets (foldl step s0 l)) (settled (foldl step s0 l))
    ∧ (∀ b keys, buckets (foldl step s0 l) !! b = Some keys ↔
         buckets s0 !! b = Some keys ∧ (b ∈ l.*1 → h ≤ b))
    ∧ (∀ k, k ∈ settled (foldl step s0 l) ↔
         k ∈ settled s0 ∨ ∃ b keys, (b, keys) ∈ l ∧ k ∈ keys ∧ b < h)) as Hgen.
  { induction l as [|[b keys] l IH] using rev_ind; intros s0 Hnd Hin.
    { cbn. split_and!; [by destruct s0|set_solver|set_solver]. }
    rewrite fmap_app, NoDup_app in Hnd. cbn in Hnd. destruct Hnd as (Hnd & Hdis & _).
    destruct (IH s0 Hnd) as (IH1 & IH2 & IH3); [intros; apply Hin; set_solver|].
    assert (b ∉ l.*1) as Hb by (intros Hb; apply (Hdis b Hb); by left).
    rewrite !foldl_app. set (s1 := foldl step s0 l) in *. cbn [foldl].
    unfold step. cbn [fst snd]. destruct (Z.geb_spec b h) as [Hge|Hlt].
    - split_and!; [done| |].
      + intros b' keys'. rewrite IH2, fmap_app, elem_of_app. cbn. rewrite list_elem_of_singleton.
        split; intros [Hb' Hh]; (split; [done|]); [intros [?| ->]; [by apply Hh|lia]|auto].
      + intros k. rewrite IH3, exists_snoc. split; [tauto|]. intros [?|[?|[_ ?]]]; [tauto..|lia].
    - split_and!.
      + cbn. rewrite IH1. done.
      + intros b' keys'. cbn. rewrite lookup_delete_Some, IH2, fmap_app, elem_of_app. cbn.
        rewrite list_elem_of_singleton.
        split; [intros (Hne & Hb' & Hh)|intros (Hb' & Hh)].
        * split; [done|]. intros [?| ->]; [by apply Hh|done].
        * split; [|auto]. intros ->. specialize (Hh (or_intror eq_refl)). lia.
      + intros k. cbn. rewrite foldl_union_settled, elem_of_union, elem_of_list_to_set,
          elem_of_range_set, IH3, exists_snoc. tauto. }
  destruct (Hgen (range_map (buckets s)) s) as (H1 & H2 & H3).
  { apply NoDup_fst_range_map. } { intros b keys. apply elem_of_range_map. }
  split_and!; [done| |].
  - intros b keys. rewrite H2. split; intros [Hb Hh]; (split; [done|]); [|done].
    apply Hh, list_elem_of_fmap. exists (b, keys). split; [done|]. by apply elem_of_range_map.
  - intros k. rewrite H3. unfold in_bucket. setoid_rewrite elem_of_range_map. naive_solver.
Qed.

Lemma promote_in s now maxWindow b k :
  in_bucket (promote s now maxWindow) b k
  ↔ in_bucket s b k ∧ bucketOf s (time_Add now (- maxWindow)) ≤ b.
Proof.
  destruct (promote_spec s now maxWindow) as (_ & Hb & _). unfold in_bucket.
  setoid_rewrite Hb. naive_solver.
Qed.

Lemma promote_fields s now maxWindow :
  entries (promote s now maxWindow) = entries s
  ∧ bucketWidth (promote s now maxWindow) = bucketWidth s
  ∧ maxKeys (promote s now maxWindow) = maxKeys s.
Proof. destruct (promote_spec s now maxWindow) as (-> & _ & _). done. Qed.

Lemma promote_index s now maxWindow : index_ok s → index_ok (promote s now maxWindow).
Proof.
  intros [Iky Ine Ibk Ist Icov].
  destruct (promote_fields s now maxWindow) as (He & _ & _).
  destruct (promote_spec s now maxWindow) as (_ & Hb & Hs).
  constructor; rewrite ?He; try done.
  - intros b keys [Hk _]%Hb. by apply (Ine b).
  - intros b k [Hk _]%promote_in. by apply Ibk.
  - intros k. rewrite Hs. intros [Hk|(b & Hk & Hlt)].
    + destruct (Ist _ Hk) as [Hsome Hnb]. split; [done|]. intros b [Hb' _]%promote_in. by apply (Hnb b).
    + destruct (Ibk _ _ Hk) as (e & Hent & Hbe). split; [eauto|].
      intros b' [Hb' Hle]%promote_in. destruct (Ibk _ _ Hb') as (e' & Hent' & Hbe').
      rewrite Hent in Hent'. injection Hent' as <-. lia.
  - intros k e Hk. right. rewrite Hs, promote_in. destruct (Icov _ _ Hk) as [[]|[?|Hin]]; [by left; left|].
    destruct (Z.lt_ge_cases (bucket e) (bucketOf s (time_Add now (- maxWindow)))); [|by right].
    left. right. eauto.
Qed.

Lemma promote_ok s floor bound now maxWindow :
  shard_ok s floor bound → is_i64 (time_Add now (- maxWindow)) →
  shard_ok (promote s now maxWindow) floor (Z.max bound (time_Add now (- maxWindow))).
Proof.
  intros [Hix Hco Hw Hti Hse Hsz] Hnow.
  destruct (promote_fields s now maxWindow) as (He & Hwd & Hmx).
  pose proof (promote_index s now maxWindow Hix) as Hix'.
  destruct (promote_spec s now maxWindow) as (Heq & _ & Hs). constructor.
  - done.
  - rewrite Heq. by destruct Hco.
  - by rewrite Hwd.
  - intros k e. rewrite He. unfold bucketOf. rewrite Hwd. apply Hti.
  - intros k e. rewrite He, Hs. intros [Hk|(b & Hk & Hlt)] Hent.
    + specialize (Hse k e Hk Hent). lia.
    + destruct (io_bucket _ _ Hix _ _ Hk) as (e' & Hent' & Hb). rewrite Hent in Hent'.
      injection Hent' as <-. destruct (Hti _ _ Hent) as [[]|[Hi64 Hbk]].
      assert (lastEventAt e < time_Add now (- maxWindow)); [|lia].
      apply (bucketOf_lt_inv s); try done. by rewrite <- Hbk, Hb.
  - by rewrite He, Hmx.
Qed.

(** ** The settled keys *)

Lemma foldl_append {A B} (f : A → list B) (l : list A) acc :
  foldl (λ dst x, dst ++ f x) acc l = acc ++ (l ≫= f).
Proof.
  revert acc. induction l as [|x l IH]; intros acc; cbn; [by rewrite app_nil_r|].
  rewrite IH. by rewrite <- app_assoc.
Qed.

(** The keys in live buckets that pass a test, in iteration order. *)
Definition bucket_keys (s : shard) (p : string → bool) : list string :=
  range_map (buckets s) ≫= λ bk, filter (λ k, p k = true) (range_set bk.2).

Lemma elem_of_bucket_keys s p k : k ∈ bucket_keys s p ↔ (∃ b, in_bucket s b k) ∧ p k = true.
Proof.
  unfold bucket_keys, in_bucket. rewrite list_elem_of_bind. split.
  - intros ([b keys] & Hk & Hb%elem_of_range_map). cbn in Hk.
    rewrite list_elem_of_filter, elem_of_range_set in Hk. naive_solver.
  - intros ((b & keys & Hb & Hk) & Hp). exists (b, keys). cbn.
    rewrite list_elem_of_filter, elem_of_range_set, elem_of_range_map. done.
Qed.

Lemma NoDup_bucket_keys s p : index_ok s → NoDup (bucket_keys s p).
Proof.
  intros Hix. apply NoDup_bind.
  - intros [b1 k1] [b2 k2] k H1%elem_of_range_map H2%elem_of_range_map. cbn.
    rewrite !list_elem_of_filter, !elem_of_range_set. intros [_ Hk1] [_ Hk2].
    destruct (io_bucket _ _ Hix b1 k) as (e1 & He1 & <-); [by exists k1|].
    destruct (io_bucket _ _ Hix b2 k) as (e2 & He2 & <-); [by exists k2|].
    rewrite He1 in He2. injection He2 as <-. congruence.
  - intros bk _. apply NoDup_filter, NoDup_range_set.
  - apply (NoDup_fmap_1 fst), NoDup_fst_range_map.
Qed.

Lemma settledKeys_eq s dst now w ns :
  settledKeys s dst now w ns
  = dst ++ range_set (settled s) ++ bucket_keys s (settled_key s now w ns).
Proof. unfold settledKeys, bucket_keys. rewrite foldl_append. by rewrite <- app_assoc. Qed.

Lemma NoDup_settledKeys s now w ns : index_ok s → NoDup (settledKeys s [] now w ns).
Proof.
  intros Hix. rewrite settledKeys_eq. cbn. apply NoDup_app. split_and!.
  - apply NoDup_range_set.
  - intros k Hk Hb%elem_of_bucket_keys. rewrite elem_of_range_set in Hk.
    destruct (io_settled _ _ Hix k Hk) as [_ Hn]. destruct Hb as [[b Hb] _]. by apply (Hn b).
  - by apply NoDup_bucket_keys.
Qed.

(** The index gives what a scan of every entry would: each settled key once. *)
Lemma elem_of_settledKeys s floor bound now w ns k :
  shard_ok s floor bound → bound ≤ time_Add now (- w) →
  k ∈ settledKeys s [] now w ns ↔ ∃ e, entries s !! k = Some e ∧ isSettled e now w ns = true.
Proof.
  intros Hok Hb. pose proof (so_index _ _ _ _ Hok) as Hix.
  rewrite settledKeys_eq. cbn. rewrite elem_of_app, elem_of_range_set, elem_of_bucket_keys.
  unfold settled_key. split.
  - intros [Hk|((b & Hk) & Hp)].
    + destruct (io_settled _ _ Hix k Hk) as [[e He] _]. exists e. split; [done|].
      pose proof (so_settled _ _ _ _ Hok k e Hk He). unfold isSettled, Before.
      destruct (Z.ltb_spec (lastEventAt e) (time_Add now (- w))); [done|lia].
    + destruct (entries s !! k) as [e|]; [eauto|done].
  - intros (e & He & Hset). destruct (io_cover _ _ Hix k e He) as [[]|[?|?]]; [by left|right].
    rewrite He. eauto.
Qed.

(** ** Counting *)

(** A key that is not settled although it was created before [horizon]. *)
Definition never_settled_key (s : shard) (now : Time) (w neverSettled : Duration) (k : string) : bool :=
  match entries s !! k with
  | None => false
  | Some e => negb (isSettled e now w neverSettled)
              && Before (createdAt e) (time_Add now (- neverSettled))
  end.

Lemma countSettled_eq s now w ns :
  countSettled s now w ns
  = (Z.of_nat (length (settledKeys s [] now w ns)),
     Z.of_nat (length (bucket_keys s (never_settled_key s now w ns)))).
Proof.
  unfold countSettled. rewrite settledKeys_eq. cbn [app]. rewrite length_app, length_range_set.
  unfold bucket_keys. set (inner := λ (acc : Z * Z) (k : string), match entries s !! k with Some _ => _ | None => _ end).
  assert (∀ ks acc, foldl inner acc ks
    = (acc.1 + Z.of_nat (length (filter (λ k, settled_key s now w ns k = true) ks)),
       acc.2 + Z.of_nat (length (filter (λ k, never_settled_key s now w ns k = true) ks)))) as Hin.
  { induction ks as [|k ks IH]; intros acc; [destruct acc; cbn; f_equal; lia|].
    cbn [foldl]. rewrite IH, !filter_cons.
    destruct (decide (settled_key s now w ns k = true)) as [H1|H1];
      destruct (decide (never_settled_key s now w ns k = true)) as [H2|H2];
      unfold settled_key in H1; unfold never_settled_key in H2; unfold inner;
      destruct (entries s !! k) as [e|]; try done;
      destruct (isSettled e now w ns); try done;
      destruct (Before (createdAt e) _); try done; cbn [length fst snd]; f_equal; lia. }
  assert (∀ l acc, foldl (λ acc bk, foldl inner acc (range_set bk.2)) acc l
    = (acc.1 + Z.of_nat (length (l ≫= λ bk : Z * gset string,
         filter (λ k, settled_key s now w ns k = true) (range_set bk.2))),
       acc.2 + Z.of_nat (length (l ≫= λ bk : Z * gset string,
         filter (λ k, never_settled_key s now w ns k = true) (range_set bk.2))))) as Hout.
  { induction l as [|bk l IH]; intros acc; [destruct acc; cbn; f_equal; lia|].
    cbn [foldl]. rewrite IH, Hin. cbn [mbind list_bind fst snd]. rewrite !length_app.
    f_equal; lia. }
  rewrite Hout. cbn [fst snd]. f_equal; lia.
Qed.

(** ** Recounting *)

Lemma msum_list f (m : gmap string entry) : msum f m = foldr (λ kv acc, f kv.2 + acc) 0 (map_to_list m).
Proof.
  unfold msum. rewrite map_fold_foldr. induction (map_to_list m) as [|[k e] l IH]; [done|].
  cbn. by rewrite IH.
Qed.

Lemma sum_permutation (f : entry → Z) (l l' : list (string * entry)) :
  l ≡ₚ l' → foldr (λ kv acc, f kv.2 + acc) 0 l = foldr (λ kv acc, f kv.2 + acc) 0 l'.
Proof. induction 1; cbn; [done|congruence|lia|congruence]. Qed.

Lemma msum_range f (m : gmap string entry) : msum f m = foldr (λ kv acc, f kv.2 + acc) 0 (range_map m).
Proof.
  rewrite msum_list. unfold range_map. symmetry. apply sum_permutation, range_order_perm.
Qed.

Lemma foldl_remember floor (l : list (string * entry)) : ∀ s,
  foldl (λ s kv, remember s kv.2 floor) s l
  = set_counts s
      (fresh s + foldr (λ kv acc, is_trust TrustComplete floor kv.2 + acc) 0 l)
      (adopted s + foldr (λ kv acc, is_trust TrustAdopted floor kv.2 + acc) 0 l)
      (suspect s + foldr (λ kv acc, marked_suspect kv.2 + acc) 0 l)
      (ntruncated s + foldr (λ kv acc, is_truncated kv.2 + acc) 0 l).
Proof.
  induction l as [|kv l IH]; intros s; cbn.
  - destruct s; unfold set_counts; cbn. f_equal; lia.
  - rewrite IH, remember_counts. unfold set_counts; cbn. f_equal; lia.
Qed.

Lemma recount_eq s floor :
  recount s floor
  = set_counts s (msum (is_trust TrustComplete floor) (entries s))
      (msum (is_trust TrustAdopted floor) (entries s)) (msum marked_suspect (entries s))
      (msum is_truncated (entries s)).
Proof. unfold recount. rewrite foldl_remember, <- !msum_range. by destruct s. Qed.

Lemma recount_ok s floor : counters_ok (recount s floor) floor.
Proof. rewrite recount_eq. by constructor. Qed.

Lemma recount_id s floor : counters_ok s floor → recount s floor = s.
Proof. intros [H1 H2 H3 H4]. rewrite recount_eq, <- H1, <- H2, <- H3, <- H4. by destruct s. Qed.

Lemma recount_set_entries s m floor floor' :
  recount (set_entries (recount s floor) m) floor' = recount (set_entries s m) floor'.
Proof. by rewrite !recount_eq. Qed.

(** The cached cardinalities can be rebuilt for any floor. *)
Lemma reframe s floor bound floor' :
  shard_ok s floor bound → shard_ok (recount s floor') floor' bound.
Proof.
  intros [[] _ ? ? ? ?]. pose proof (recount_ok s floor') as Hc. rewrite recount_eq in *.
  by constructor.
Qed.

(** An entry replaced by one that sits at the same place, and a rebuild. *)
Lemma overwrite_reframe s floor bound k e0 e floor' :
  shard_ok s floor bound → entries s !! k = Some e0 →
  key e = key e0 → bucket e = bucket e0 → lastEventAt e = lastEventAt e0 →
  shard_ok (recount (set_entries s (<[k := e]> (entries s))) floor') floor' bound.
Proof.
  intros [[Iky Ine Ibk Ist Icov] _ Hw Hti Hse Hsz] Hk Hky Hb Hl.
  pose proof (recount_ok (set_entries s (<[k := e]> (entries s))) floor') as Hc.
  rewrite recount_eq in *. constructor; cbn; [|done|done| | |].
  - constructor; cbn.
    + intros j ej. rewrite lookup_insert_Some. intros [[<- <-]|[_ Hj]]; [|by apply Iky].
      rewrite Hky. by apply Iky.
    + done.
    + intros b j Hj. destruct (Ibk b j Hj) as (ej & Hej & Hbj).
      destruct (decide (k = j)) as [<-|].
      * exists e. rewrite lookup_insert_eq. split; [done|]. congruence.
      * exists ej. by rewrite lookup_insert_ne.
    + intros j Hj. destruct (Ist _ Hj) as [Hs Hbs]. split; [|done].
      rewrite lookup_insert. case_decide; [eauto|done].
    + intros j ej. rewrite lookup_insert_Some. intros [[<- <-]|[_ Hj]]; [|by apply Icov].
      rewrite Hb. by apply Icov.
  - intros j ej. rewrite lookup_insert_Some. intros [[<- <-]|[_ Hj]]; [|by apply (Hti j)].
    rewrite Hl, Hb. by apply (Hti k).
  - intros j ej Hj. rewrite lookup_insert_Some. intros [[<- <-]|[_ Hj']]; [|by apply (Hse j)].
    rewrite Hl. by apply (Hse k).
  - unfold len in *. by rewrite map_size_insert_Some by eauto.
Qed.

(** Replacing an entry by one that differs only in what the index and the counters
    do not look at. *)
Lemma touch_ok s floor bound k e0 e :
  shard_ok s floor bound → entries s !! k = Some e0 →
  key e = key e0 → bucket e = bucket e0 → lastEventAt e = lastEventAt e0 →
  trust e = trust e0 → gen e = gen e0 → truncated e = truncated e0 →
  shard_ok (set_entries s (<[k := e]> (entries s))) floor bound.
Proof.
  intros Hok Hk Hky Hb Hl Ht Hg Htr.
  pose proof (overwrite_reframe s floor bound k e0 e floor Hok Hk Hky Hb Hl) as Hr.
  rewrite recount_id in Hr; [done|]. destruct (so_counters _ _ _ _ Hok) as [H1 H2 H3 H4].
  constructor; cbn; rewrite (msum_overwrite _ _ k e0) by done;
    unfold is_trust, marked_suspect, is_truncated, effectiveTrust in *; rewrite ?Ht, ?Hg, ?Htr; lia.
Qed.

(** ** A pass over all entries

    A loop over the entries that rewrites each one in place: every entry becomes its image
    and what each rewrite keeps, the loop keeps. *)
Lemma entries_pass (step : shard → string * entry → shard) (f : string → entry → entry)
    (I : shard → Prop) :
  (∀ s k e, I s → entries s !! k = Some e →
     I (step s (k, e)) ∧ entries (step s (k, e)) = <[k := f k e]> (entries s)) →
  ∀ s, I s →
    let s' := foldl step s (range_map (entries s)) in
    I s' ∧ ∀ k, entries s' !! k = f k <$> entries s !! k.
Proof.
  intros Hstep s Hs.
  assert (∀ l s0, I s0 → NoDup l.*1 → (∀ k e, (k, e) ∈ l → entries s0 !! k = Some e) →
    I (foldl step s0 l) ∧ ∀ k, entries (foldl step s0 l) !! k
      = if decide (k ∈ l.*1) then f k <$> entries s0 !! k else entries s0 !! k) as Hgen.
  { induction l as [|[k e] l IH]; intros s0 H0 Hnd Hl; [done|]. cbn in Hnd.
    apply NoDup_cons in Hnd as [Hk Hnd]. cbn [foldl].
    destruct (Hstep s0 k e H0) as [H1 He]; [apply Hl; by left|].
    destruct (IH (step s0 (k, e)) H1 Hnd) as [H2 Hl2].
    { intros j ej Hj. rewrite He, lookup_insert_ne; [apply Hl; by right|]. intros ->.
      apply Hk, list_elem_of_fmap. by exists (j, ej). }
    split; [done|]. intros j. rewrite Hl2, He, fmap_cons. cbn [fst].
    destruct (decide (k = j)) as [<-|Hne].
    - rewrite lookup_insert_eq, (Hl k e) by (by left). cbn.
      rewrite decide_False by done. rewrite decide_True by (by left). done.
    - rewrite lookup_insert_ne by done. repeat case_decide; set_solver. }
  destruct (Hgen (range_map (entries s)) s Hs) as [H1 H2].
  { apply NoDup_fst_range_map. } { intros k e. apply elem_of_range_map. }
  split; [done|]. intros k. rewrite H2. case_decide as Hk; [done|].
  destruct (entries s !! k) as [e|] eqn:He; [|done]. exfalso. apply Hk.
  apply list_elem_of_fmap. exists (k, e). split; [done|]. by apply elem_of_range_map.
Qed.

(** ** Properties *)

(** the settlement index is a correct optimisation of scanning every entry: after [promote],
    whatever window [w] up to the maximum is in force, [settledKeys] lists each key whose entry is
    settled exactly once and no other. *)
Theorem settled_index_is_a_full_scan s floor bound now maxWindow w ns :
  shard_ok s floor bound → bound ≤ time_Add now (- maxWindow) →
  is_i64 (time_Add now (- maxWindow)) → w ≤ maxWindow →
  settledKeys (promote s now maxWindow) [] now w ns
  ≡ₚ filter (λ k, settled_key s now w ns k = true) (elements (dom (entries s))).
Proof.
  intros Hok Hb Hi Hw. pose proof (promote_ok s floor bound now maxWindow Hok Hi) as Hok'.
  destruct (promote_fields s now maxWindow) as (He & _ & _).
  apply NoDup_Permutation.
  - apply NoDup_settledKeys, (so_index _ _ _ _ Hok').
  - apply NoDup_filter, NoDup_elements.
  - intros k. rewrite (elem_of_settledKeys _ floor _ now w ns k Hok') by (unfold time_Add in *; lia).
    rewrite He, list_elem_of_filter, elem_of_elements, elem_of_dom. unfold settled_key.
    split; [intros (e & -> & Hs); eauto|]. intros [Hs [e He']]. rewrite He' in *. eauto.
Qed.

(** the counting pass agrees with the scan: the first number is how many entries are settled,
    the second how many are unsettled although created before the never-settled horizon. *)
Theorem countSettled_exact s floor bound now maxWindow w ns :
  shard_ok s floor bound → bound ≤ time_Add now (- maxWindow) →
  is_i64 (time_Add now (- maxWindow)) → w ≤ maxWindow →
  countSettled (promote s now maxWindow) now w ns
  = (Z.of_nat (length (filter (λ k, settled_key s now w ns k = true) (elements (dom (entries s))))),
     Z.of_nat (length (filter (λ k, never_settled_key s now w ns k = true)
                              (elements (dom (entries s)))))).
Proof.
  intros Hok Hb Hi Hw. pose proof (promote_ok s floor bound now maxWindow Hok Hi) as Hok'.
  pose proof (so_index _ _ _ _ Hok') as Hix.
  destruct (promote_fields s now maxWindow) as (He & _ & _).
  rewrite countSettled_eq. f_equal; f_equal; apply Permutation_length, NoDup_Permutation.
  - by apply NoDup_settledKeys.
  - apply NoDup_filter, NoDup_elements.
  - intros k. rewrite (elem_of_settledKeys _ floor _ now w ns k Hok') by (unfold time_Add in *; lia).
    rewrite He, list_elem_of_filter, elem_of_elements, elem_of_dom. unfold settled_key.
    split; [intros (e & -> & Hs); eauto|]. intros [Hs [e He']]. rewrite He' in *. eauto.
  - by apply NoDup_bucket_keys.
  - apply NoDup_filter, NoDup_elements.
  - intros k. rewrite elem_of_bucket_keys, list_elem_of_filter, elem_of_elements, elem_of_dom.
    unfold never_settled_key. rewrite He. split.
    + intros [_ Hp]. split; [done|]. destruct (entries s !! k); [eauto|done].
    + intros [Hp [e He']]. split; [|done]. rewrite He' in Hp. apply andb_true_iff in Hp as [Hp _].
      rewrite <- He in He'. destruct (io_cover _ _ Hix k e He') as [[]|[Hk|Hk]]; [|eauto].
      apply (so_settled _ _ _ _ Hok') in He' as Hlt; [|done]. apply negb_true_iff in Hp.
      unfold isSettled, Before in Hp.
      destruct (Z.ltb_spec (lastEventAt e) (time_Add now (- w))); [done|]. unfold time_Add in *; lia.
Qed.

(** eviction always frees a slot of a non-empty shard, keeps the shard consistent, and takes
    its victim from the oldest group of the index: the coalesced set if it is not empty, and
    otherwise the live bucket no other bucket precedes. *)
Theorem eviction_takes_an_oldest_key s floor bound :
  shard_ok s floor bound → entries s ≠ ∅ →
  ∃ k e, (evictOneLocked s floor).2 = Some k ∧ entries s !! k = Some e ∧ oldest_group s k e
    ∧ entries (evictOneLocked s floor).1 = delete k (entries s)
    ∧ shard_ok (evictOneLocked s floor).1 floor bound.
Proof.
  intros Hok Hne. destruct (evictOneLocked_spec s floor bound Hok Hne) as (k & e & He & Hg & Hev).
  exists k, e. rewrite Hev. cbn [fst snd]. split_and!; [done..| |].
  - cbn. by apply (drop_entry_fields s k e floor (so_index _ _ _ _ Hok) He).
  - apply set_evictions_ok. by apply (drop_entry_ok s floor bound k).
Qed.
End index_ops.

(** ** Witnesses *)

(** One key, written at second 5, in a shard of one-second buckets. *)
Definition sample_entry : entry := new_entry "a" (5 * time_Second) 2.
Definition sample_written : entry :=
  mkEntry "a" (scalar_value "x") 1 TrustComplete (5 * time_Second) (5 * time_Second) 1 1 "pub" None
    false (5 * time_Second) 0 0 (newRing 2).
Definition sample_shard : shard :=
  let s := newShard time_Second 1 in
  write_back (remember (set_entries s (<["a" := sample_entry]> (entries s))) sample_entry 0)
    sample_entry sample_written (5 * time_Second) 0.

Lemma sample_shard_ok bound : shard_ok sample_shard 0 bound.
Proof.
  unfold sample_shard. cbv zeta. apply (write_back_ok _ 0 bound "a" sample_entry); try done.
  apply store_new_ok; try done. by apply newShard_ok.
Qed.

Lemma settled_index_is_a_full_scan_witness :
  settledKeys (H := ascending_order) (promote (H := ascending_order) sample_shard (9 * time_Second) (2 * time_Second)) []
    (9 * time_Second) time_Second time_Second ≡ₚ ["a"].
Proof.
  apply (settled_index_is_a_full_scan (H := ascending_order) sample_shard 0 0 (9 * time_Second)
    (2 * time_Second) time_Second time_Second (sample_shard_ok 0)); vm_compute; done.
Defined.

Lemma countSettled_exact_witness :
  countSettled (H := ascending_order) (promote (H := ascending_order) sample_shard (6 * time_Second) (2 * time_Second))
    (6 * time_Second) (2 * time_Second) time_Second = (0, 0).
Proof.
  apply (countSettled_exact (H := ascending_order) sample_shard 0 0 (6 * time_Second)
    (2 * time_Second) (2 * time_Second) time_Second (sample_shard_ok 0)); vm_compute; done.
Defined.

Lemma eviction_takes_an_oldest_key_witness :
  ∃ k e, (evictOneLocked (H := ascending_order) sample_shard 0).2 = Some k
    ∧ entries sample_shard !! k = Some e ∧ oldest_group sample_shard k e
    ∧ entries (evictOneLocked (H := ascending_order) sample_shard 0).1 = delete k (entries sample_shard)
    ∧ shard_ok (evictOneLocked (H := ascending_order) sample_shard 0).1 0 0.
Proof.
  apply (eviction_takes_an_oldest_key (H := ascending_order) sample_shard 0 0 (sample_shard_ok 0)).
  intros He. apply (f_equal (λ m : gmap string entry, m !! "a")) in He. vm_compute in He. discriminate.
Defined.
