(* ===== verification/PathMatch.v ===== *)
(** * PathMatch: path.Match of Go's standard library, as the oracle's globs use it

    The pattern is cut into chunks at its stars; a chunk is matched where it
    stands or, after a star, at the first later position it fits, never past a
    slash. A malformed pattern is an error ([None]). *)
From Stdlib Require Import Ascii String.
From S2P Require Import Prelude GoBase GoStrings.

Definition c_star : ascii := "*"%char.
Definition c_question : ascii := "?"%char.
Definition c_open : ascii := "["%char.
Definition c_close : ascii := "]"%char.
Definition c_backslash : ascii := "\"%char.
Definition c_dash : ascii := "-"%char.
Definition c_caret : ascii := "^"%char.
Definition c_slash : ascii := "/"%char.

(** The loop of scanChunk: the length of the chunk before the next star. *)
Fixpoint scan_length (pattern : string) (inrange : bool) : nat :=
  match pattern with
  | "" => 0
  | String c rest =>
      if Ascii.eqb c c_backslash then
        match rest with
        | "" => 1
        | String _ rest' => 2 + scan_length rest' inrange
        end
      else if Ascii.eqb c c_open then S (scan_length rest true)
      else if Ascii.eqb c c_close then S (scan_length rest false)
      else if Ascii.eqb c c_star && negb inrange then 0
      else S (scan_length rest inrange)
  end%nat.

Fixpoint skip_stars (pattern : string) : bool * string :=
  match pattern with
  | String c rest => if Ascii.eqb c c_star then (true, (skip_stars rest).2) else (false, pattern)
  | "" => (false, "")
  end.

Definition scanChunk (pattern : string) : bool * string * string :=
  let '(star, p) := skip_stars pattern in
  let n := scan_length p false in
  (star, string_take n p, string_drop n p).

(** getEsc: one possibly escaped character of a class and the rest of the chunk. *)
Definition getEsc (chunk : string) : option (Z * string) :=
  match chunk with
  | "" => None
  | String c rest =>
      if Ascii.eqb c c_dash || Ascii.eqb c c_close then None
      else
        let chunk := if Ascii.eqb c c_backslash then rest else chunk in
        if decide (chunk = "") then None
        else
          let '(r, n) := DecodeRune chunk in
          let nchunk := string_drop n chunk in
          if ((r =? RuneError) && (n =? 1)%nat) || bool_decide (nchunk = "") then None
          else Some (r, nchunk)
  end.

(** The ranges of a class, up to its closing bracket. *)
Fixpoint class_ranges (fuel : nat) (chunk : string) (r : Z) (matched : bool) (nrange : nat)
    : option (bool * string) :=
  match fuel with
  | O => None
  | S fuel =>
      let close := match chunk with String c _ => Ascii.eqb c c_close && (0 <? nrange)%nat | "" => false end in
      if close then Some (matched, string_drop 1 chunk)
      else
        match getEsc chunk with
        | None => None
        | Some (lo, chunk) =>
            let hi_chunk :=
              match chunk with
              | String c rest => if Ascii.eqb c c_dash then getEsc rest else Some (lo, chunk)
              | "" => Some (lo, chunk)
              end in
            match hi_chunk with
            | None => None
            | Some (hi, chunk) =>
                class_ranges fuel chunk r (matched || ((lo <=? r) && (r <=? hi))) (S nrange)
            end
        end
  end.

(** matchChunk: [None] is ErrBadPattern, [Some None] no match, [Some (Some rest)] the
    rest of the name. Each step consumes the chunk, so its length is fuel enough. *)
Fixpoint matchChunk_loop (fuel : nat) (chunk s : string) (failed : bool) : option (option string) :=
  match fuel, chunk with
  | _, "" => if failed then Some None else Some (Some s)
  | O, _ => None
  | S fuel, String c rest =>
      let failed := failed || bool_decide (s = "") in
      let literal (c : ascii) (rest : string) :=
        if failed then matchChunk_loop fuel rest s true
        else matchChunk_loop fuel rest (string_drop 1 s)
               (match s with String d _ => negb (Ascii.eqb c d) | "" => true end) in
      if Ascii.eqb c c_open then
        let '(r, n) := if failed then (0, 0%nat) else DecodeRune s in
        let s := string_drop n s in
        let '(negated, rest) :=
          match rest with
          | String d rest' => if Ascii.eqb d c_caret then (true, rest') else (false, rest)
          | "" => (false, rest)
          end in
        match class_ranges (S (String.length rest)) rest r false 0 with
        | None => None
        | Some (matched, rest) => matchChunk_loop fuel rest s (failed || Bool.eqb matched negated)
        end
      else if Ascii.eqb c c_question then
        if failed then matchChunk_loop fuel rest s true
        else
          let slash := match s with String d _ => Ascii.eqb d c_slash | "" => false end in
          matchChunk_loop fuel rest (string_drop (DecodeRune s).2 s) slash
      else if Ascii.eqb c c_backslash then
        match rest with
        | "" => None
        | String d rest' => literal d rest'
        end
      else literal c rest
  end.

Definition matchChunk (chunk s : string) : option (option string) :=
  matchChunk_loop (String.length chunk) chunk s false.

(** The search after a star: the rest of the name after the first later position the
    chunk fits at ([last]: no pattern is left, so nothing of the name may be). *)
Fixpoint star_search (chunk name : string) (last : bool) : option (option string) :=
  match name with
  | "" => Some None
  | String c name' =>
      if Ascii.eqb c c_slash then Some None
      else
        match matchChunk chunk name' with
        | None => None
        | Some (Some t) =>
            if last && negb (bool_decide (t = "")) then star_search chunk name' last
            else Some (Some t)
        | Some None => star_search chunk name' last
        end
  end.

(** The check that the rest of a pattern that failed is well formed. *)
Fixpoint pattern_ok (fuel : nat) (pattern : string) : bool :=
  match fuel with
  | O => true
  | S fuel =>
      if bool_decide (pattern = "") then true
      else
        let '(_, chunk, pattern) := scanChunk pattern in
        match matchChunk chunk "" with None => false | Some _ => pattern_ok fuel pattern end
  end.

Fixpoint contains_byte (c : ascii) (s : string) : bool :=
  match s with "" => false | String d s => Ascii.eqb c d || contains_byte c s end.

Fixpoint Match_loop (fuel : nat) (pattern name : string) : option bool :=
  match fuel with
  | O => None
  | S fuel =>
      if bool_decide (pattern = "") then Some (bool_decide (name = ""))
      else
        let '(star, chunk, pattern) := scanChunk pattern in
        if star && bool_decide (chunk = "") then Some (negb (contains_byte c_slash name))
        else
          match matchChunk chunk name with
          | None => None
          | Some first =>
              let here :=
                match first with
                | Some t => if bool_decide (t = "") || negb (bool_decide (pattern = "")) then Some t
                            else None
                | None => None
                end in
              match here with
              | Some t => Match_loop fuel pattern t
              | None =>
                  match (if star then star_search chunk name (bool_decide (pattern = ""))
                         else Some None) with
                  | None => None
                  | Some (Some t) => Match_loop fuel pattern t
                  | Some None => if pattern_ok fuel pattern then Some false else None
                  end
              end
          end
  end.

(** path.Match: every chunk takes at least one byte of the pattern, so its length and
    one bound the rounds. *)
Definition path_Match (pattern name : string) : option bool :=
  Match_loop (S (String.length pattern)) pattern name.

Example match_prefix : path_Match "user:*" "user:42" = Some true. Proof. reflexivity. Qed.
Example match_slash : path_Match "user:*" "user:a/b" = Some false. Proof. reflexivity. Qed.
Example match_class : path_Match "k[0-9]?*z" "k7-middle-z" = Some true. Proof. reflexivity. Qed.
Example match_bad : path_Match "k[" "k" = None. Proof. reflexivity. Qed.
