(* ===== verification/Oracle.v ===== *)
(** * Oracle: the expected state of the target (pkg/oracle/oracle.go, evict.go)

    The sharded, versioned and bounded map of expectations. Operations of the
    single applier are functions on the whole oracle; a method that reads the
    clock takes the instant as [clock_now]. The xxhash package is a parameter. *)
From S2P Require Import Prelude GoBase GoStrings Event Projection SeqTrack Ring Shard PathMatch.

(** github.com/cespare/xxhash: some hash into uint64. *)
Class XXHash := {
  Sum64String : string → Z;
  Sum64String_u64 : ∀ s, is_u64 (Sum64String s)
}.

(** ** Configuration *)

Definition defaultShards : Z := 64.
Definition defaultNeverSettledFactor : Z := 10.
Definition defaultMaxTrackedKeys : Z := 1000000.
Definition defaultRingSize : Z := 16.
Definition defaultBucketWidth : Duration := time_Second.
Definition defaultMaxSettlementWin : Duration := 120 * time_Second.

Record Config := mkConfig {
  Shards : Z;
  MaxTrackedKeys : Z;
  RingSize : Z;
  RetainRaw : bool;
  SettlementWindow : Duration;
  NeverSettledFactor : Z;
  MaxSettlementWindow : Duration;
  BucketWidth : Duration
}.

Definition applyDefaults (c : Config) : Config :=
  let shards := if Shards c <=? 0 then defaultShards else Shards c in
  let factor := if NeverSettledFactor c <=? 0 then defaultNeverSettledFactor
                else NeverSettledFactor c in
  let maxKeys := if MaxTrackedKeys c <=? 0 then defaultMaxTrackedKeys else MaxTrackedKeys c in
  let shards := if shards >? maxKeys then maxKeys else shards in
  let ring := if RingSize c <? 0 then defaultRingSize else RingSize c in
  let ring := if ring =? 0 then defaultRingSize else ring in
  let maxW := if MaxSettlementWindow c <=? 0 then defaultMaxSettlementWin
              else MaxSettlementWindow c in
  let width := if BucketWidth c <=? 0 then defaultBucketWidth else BucketWidth c in
  let w := if SettlementWindow c <? 0 then 0 else SettlementWindow c in
  let w := if w >? maxW then maxW else w in
  mkConfig shards maxKeys ring (RetainRaw c) w factor maxW width.

(** ** State *)

Record Oracle := mkOracle {
  cfg : Config;
  shards : list shard;
  settlementWindow : Duration;
  suspectGen : Z;
  suspectFloor : Z
}.

(** The budget of shard [i]: the shares sum to MaxTrackedKeys. *)
Definition share (c : Config) (i : nat) : Z :=
  Z.quot (MaxTrackedKeys c) (Shards c)
  + (if Z.of_nat i <? Z.rem (MaxTrackedKeys c) (Shards c) then 1 else 0).

Definition New (c : Config) : Oracle :=
  let c := applyDefaults c in
  mkOracle c ((λ i, newShard (BucketWidth c) (share c i)) <$> seq 0 (Z.to_nat (Shards c)))
    (SettlementWindow c) 0 0.

Record ApplyResult := mkResult {
  ResKey : string;
  ResVersion : Z;
  Created : bool;
  Deleted : bool;
  Evicted : option string;   (** [Evicted] and [DidEvict] *)
  Applied : bool
}.

Definition set_shard (o : Oracle) (i : nat) (s : shard) : Oracle :=
  mkOracle (cfg o) (<[i := s]> (shards o)) (settlementWindow o) (suspectGen o) (suspectFloor o).
Definition set_shards (o : Oracle) (l : list shard) : Oracle :=
  mkOracle (cfg o) l (settlementWindow o) (suspectGen o) (suspectFloor o).
Definition set_suspicion (o : Oracle) (gen floor : Z) : Oracle :=
  mkOracle (cfg o) (shards o) (settlementWindow o) gen floor.

Definition window (o : Oracle) : Duration := settlementWindow o.

Definition observedAt (clock_now : Time) (e : Event.t) : Time :=
  if negb (IsZero (ObservedAt e)) then ObservedAt e else clock_now.

Definition historyEvent (o : Oracle) (e : Event.t) : Event.t :=
  if negb (RetainRaw (cfg o)) then
    Event.mk (Publisher e) (Epoch e) (Seq e) (PublishedAt e) (ObservedAt e) (Topic e) (EOp e)
      (Event.Key e) (Member e) (EValue e) (Delta e) (TTL e) None
  else e.

Definition expired (e : entry) (now : Time) : bool :=
  match ttl e with
  | None => false
  | Some d =>
      if (d <=? 0) || IsZero (lastEventAt e) then false
      else After now (time_Add (lastEventAt e) d)
  end.

Definition neverSettledThreshold (o : Oracle) (w : Duration) : Duration :=
  let d := i64 (NeverSettledFactor (cfg o) * w) in
  if d >? MaxSettlementWindow (cfg o) then MaxSettlementWindow (cfg o) else d.

Record Counts := mkCounts {
  Total : Z; Settled : Z; InFlight : Z; NeverSettled : Z;
  ByComplete : Z; ByAdopted : Z; BySuspect : Z; NTruncated : Z
}.

(** A malformed pattern matches nothing. *)
Definition matchGlob (pattern k : string) : bool :=
  match path_Match pattern k with Some ok => ok | None => false end.

Section oracle.
Context `{XXHash} `{MapOrder}.

Definition shard_index (n : nat) (k : string) : nat :=
  Z.to_nat (Sum64String k mod Z.of_nat n).

(** The shard a key lives in; New makes at least one. *)
Definition shardFor (o : Oracle) (k : string) : nat := shard_index (length (shards o)) k.

Definition get_shard (o : Oracle) (i : nat) : shard :=
  default (newShard (BucketWidth (cfg o)) 0) (shards o !! i).

(** ** Apply *)

(** The entry [Apply] and [AdoptSnapshot] work on: the one there is, or a new one for
    which room is made. *)
Definition obtain (o : Oracle) (sh : shard) (k : string) (now : Time) (floor : Z)
    : shard * entry * option string * bool :=
  match entries sh !! k with
  | Some ent => (sh, ent, None, false)
  | None =>
      let '(sh, evicted) :=
        if len (entries sh) >=? maxKeys sh then evictOneLocked sh floor else (sh, None) in
      let ent := new_entry k now (Z.to_nat (RingSize (cfg o))) in
      let sh := set_entries sh (<[k := ent]> (entries sh)) in
      (remember sh ent floor, ent, evicted, true)
  end.

Definition Apply (clock_now : Time) (o : Oracle) (m : Mutation) (e : Event.t) (verdict : Verdict)
    (trust : TrustState) : Oracle * ApplyResult :=
  match MAction m with
  | ActionNone => (o, mkResult (MKey m) 0 false false None false)
  | action =>
      let now := observedAt clock_now e in
      let i := shardFor o (MKey m) in
      let floor := suspectFloor o in
      let gen := suspectGen o in
      let '(sh, ent, evicted, created) := obtain o (get_shard o i) (MKey m) now floor in
      let sh := forget sh ent floor in
      let previous := value ent in
      let value' := match action with ActionUpsert => MValue m | _ => absent end in
      let ttl' := match action with ActionUpsert => MTTL m | _ => None end in
      let changed := if created || negb (Value_Equal previous value') then now
                     else lastValueChangeAt ent in
      let ent' := mkEntry (key ent) value' (u64 (version ent + 1)) trust now changed (Seq e)
                    (Epoch e) (Publisher e) ttl' (MTruncated m) (createdAt ent) gen (bucket ent)
                    (ering ent) in
      let sh := remember sh ent' floor in
      let '(sh, ent') := place sh ent' now in
      let ent' := with_ring ent' (push (ering ent')
        (mkHistory (historyEvent o e) verdict (value ent') (version ent') now)) in
      let sh := set_entries sh (<[key ent' := ent']> (entries sh)) in
      (set_shard o i sh,
       mkResult (MKey m) (version ent') created
         (match action with ActionDelete => true | _ => false end) evicted true)
  end.

(** ** Reading *)

Definition Get (clock_now : Time) (o : Oracle) (k : string) : option Entry :=
  let floor := suspectFloor o in
  match entries (get_shard o (shardFor o k)) !! k with
  | None => None
  | Some ent =>
      let out := entry_snapshot ent (effectiveTrust ent floor) in
      if expired ent clock_now then
        Some (mkSnapshot (Shard.Key out) absent (Shard.Version out) (Trust out) (LastEventAt out)
          (LastValueChangeAt out) (LastSeq out) (LastEpoch out) (LastPublisher out) (EntTTL out)
          true (Truncated out) (CreatedAt out))
      else Some out
  end.

Definition Version (o : Oracle) (k : string) : option Z :=
  version <$> entries (get_shard o (shardFor o k)) !! k.

Definition History (o : Oracle) (k : string) : list HistoryEntry :=
  match entries (get_shard o (shardFor o k)) !! k with
  | None => []
  | Some ent => snapshot (ering ent)
  end.

(** One shard of the iteration: promote, then list its settled keys. *)
Definition settled_step (now : Time) (maxW w neverSettled : Duration) (sh : shard)
    : shard * list string :=
  let sh := promote sh now maxW in
  (sh, settledKeys sh [] now w neverSettled).

(** The iterator run to its end: the shards promoted and the keys it yields. *)
Definition SettledKeys (o : Oracle) (now : Time) : Oracle * list string :=
  let w := window o in
  let neverSettled := neverSettledThreshold o w in
  let l := settled_step now (MaxSettlementWindow (cfg o)) w neverSettled <$> shards o in
  (set_shards o l.*1, concat l.*2).

Definition Counts_ (o : Oracle) (now : Time) : Oracle * Counts :=
  let w := window o in
  let neverSettled := neverSettledThreshold o w in
  let '(l, c) :=
    foldl (λ acc sh,
      let '(l, c) := acc in
      let sh := promote sh now (MaxSettlementWindow (cfg o)) in
      let '(settled, never) := countSettled sh now w neverSettled in
      (l ++ [sh],
       mkCounts (Total c + len (entries sh)) (Settled c + settled) (InFlight c)
         (NeverSettled c + never) (ByComplete c + fresh sh) (ByAdopted c + adopted sh)
         (BySuspect c + suspectCount sh) (NTruncated c + ntruncated sh)))
      ([], mkCounts 0 0 0 0 0 0 0 0) (shards o) in
  (set_shards o l,
   mkCounts (Total c) (Settled c) (Total c - Settled c) (NeverSettled c) (ByComplete c)
     (ByAdopted c) (BySuspect c) (NTruncated c)).

Definition Evictions (o : Oracle) : Z := foldl (λ total sh, u64 (total + evictions sh)) 0 (shards o).
Definition Len (o : Oracle) : Z := foldl (λ n sh, n + len (entries sh)) 0 (shards o).

(** ** Adopting a snapshot *)

Definition adopt_one (at_ : Time) (o : Oracle) (kv : string * Value) : Oracle :=
  let '(k, v) := kv in
  let floor := suspectFloor o in
  let gen := suspectGen o in
  let i := shardFor o k in
  let '(sh, ent, _, _) := obtain o (get_shard o i) k at_ floor in
  let sh := forget sh ent floor in
  let ent' := mkEntry (key ent) (Clone v) (u64 (version ent + 1)) TrustAdopted at_
                (lastValueChangeAt ent) (lastSeq ent) (lastEpoch ent) (lastPublisher ent) (ttl ent)
                (truncated ent) (createdAt ent) gen (bucket ent) (ering ent) in
  let sh := remember sh ent' floor in
  let '(sh, ent') := place sh ent' at_ in
  set_shard o i (set_entries sh (<[key ent' := ent']> (entries sh))).

Definition AdoptSnapshot (o : Oracle) (snap : gmap string Value) (at_ : Time) : Oracle :=
  foldl (adopt_one at_) o (range_map snap).

(** ** The settlement window and suspicion *)

Definition SetSettlementWindow (o : Oracle) (d : Duration) : Oracle :=
  let d := if d <? 0 then 0 else d in
  let d := if d >? MaxSettlementWindow (cfg o) then MaxSettlementWindow (cfg o) else d in
  mkOracle (cfg o) (shards o) d (suspectGen o) (suspectFloor o).

(** The loop body of the glob branch of MarkSuspect. *)
Definition mark_one (pattern : string) (floor : Z) (sh : shard) (kv : string * entry) : shard :=
  let '(k, ent) := kv in
  if negb (bool_decide (trust ent = TrustComplete)) || negb (matchGlob pattern k) then sh
  else
    let sh := forget sh ent floor in
    let ent := with_trust ent TrustSuspect in
    let sh := remember sh ent floor in
    set_entries sh (<[k := ent]> (entries sh)).

Definition MarkSuspect (o : Oracle) (pattern : string) : Oracle :=
  if decide (pattern = "") then
    let gen := u64 (suspectGen o + 1) in
    set_shards (set_suspicion o gen gen)
      ((λ sh, set_counts sh 0 (adopted sh) (suspect sh) (ntruncated sh)) <$> shards o)
  else
    set_shards o
      ((λ sh, foldl (mark_one pattern (suspectFloor o)) sh (range_map (entries sh))) <$> shards o).

(** The loop body of ClearSuspect. *)
Definition clear_one (pattern : string) (gen : Z) (sh : shard) (kv : string * entry) : shard :=
  let '(k, ent) := kv in
  if negb (bool_decide (pattern = "")) && negb (matchGlob pattern k) then sh
  else
    let ent := if decide (trust ent = TrustSuspect) then with_trust ent TrustComplete else ent in
    let ent := if decide (trust ent = TrustComplete) then with_gen ent gen else ent in
    set_entries sh (<[k := ent]> (entries sh)).

Definition ClearSuspect (o : Oracle) (pattern : string) : Oracle :=
  let o := if decide (pattern = "") then set_suspicion o (suspectGen o) 0 else o in
  set_shards o
    ((λ sh, recount (foldl (clear_one pattern (suspectGen o)) sh (range_map (entries sh)))
              (suspectFloor o)) <$> shards o).

(** ** The invariant *)

Lemma share_pos c i : 0 < Shards c → Shards c ≤ MaxTrackedKeys c → 1 ≤ share c i.
Proof.
  intros H1 H2. unfold share. pose proof (Z.quot_str_pos (MaxTrackedKeys c) (Shards c)).
  case_match; lia.
Qed.

Record oracle_ok (o : Oracle) (bound : Time) : Prop := mk_oracle_ok {
  oo_shards : 0 < Shards (cfg o) ∧ Z.of_nat (length (shards o)) = Shards (cfg o);
  oo_budget : Shards (cfg o) ≤ MaxTrackedKeys (cfg o);
  oo_window : 0 ≤ settlementWindow o ≤ MaxSettlementWindow (cfg o);
  oo_floor : 0 ≤ suspectFloor o ≤ suspectGen o;
  oo_shard : ∀ i s, shards o !! i = Some s →
    shard_ok s (suspectFloor o) bound ∧ maxKeys s = share (cfg o) i
    ∧ ∀ k e, entries s !! k = Some e → shardFor o k = i ∧ gen e ≤ suspectGen o
}.

Lemma applyDefaults_ok c :
  let c := applyDefaults c in
  0 < Shards c ∧ Shards c ≤ MaxTrackedKeys c ∧ 0 < RingSize c ∧ 0 < BucketWidth c
  ∧ 0 ≤ SettlementWindow c ≤ MaxSettlementWindow c ∧ 0 < MaxSettlementWindow c
  ∧ 0 < NeverSettledFactor c.
Proof.
  unfold applyDefaults, defaultShards, defaultMaxTrackedKeys, defaultRingSize, defaultBucketWidth,
    defaultMaxSettlementWin, defaultNeverSettledFactor, time_Second. cbn.
  repeat case_match; zbool; lia.
Qed.

Lemma New_ok c bound : oracle_ok (New c) bound.
Proof.
  unfold New. cbv zeta. generalize (applyDefaults_ok c). cbv zeta. generalize (applyDefaults c).
  intros c' (H1 & H2 & H3 & H4 & H5 & H6 & H7). constructor; cbn; try done; try lia.
  - split; [done|]. rewrite length_fmap, length_seq. lia.
  - intros i s. rewrite list_lookup_fmap_Some. intros (j & -> & Hj).
    apply lookup_seq in Hj as [-> Hj]. cbn. split_and!; [|done|].
    + apply newShard_ok; [done|]. pose proof (share_pos c' i H1 H2). lia.
    + intros k e. cbn. by rewrite lookup_empty.
Qed.

Lemma shard_index_lt n k : (0 < n)%nat → (shard_index n k < n)%nat.
Proof.
  intros Hn. unfold shard_index. pose proof (Z.mod_pos_bound (Sum64String k) (Z.of_nat n)). lia.
Qed.

Lemma get_shard_some o bound k :
  oracle_ok o bound → shards o !! shardFor o k = Some (get_shard o (shardFor o k)).
Proof.
  intros Hok. unfold get_shard.
  destruct (lookup_lt_is_Some_2 (shards o) (shardFor o k)) as [s Hs].
  { apply shard_index_lt. destruct (oo_shards _ _ Hok). lia. }
  by rewrite Hs.
Qed.

(** The entry of a key. *)
Definition find (o : Oracle) (k : string) : option entry :=
  entries (get_shard o (shardFor o k)) !! k.

Lemma find_shard o bound i s k :
  oracle_ok o bound → shards o !! i = Some s →
  entries s !! k = if decide (shardFor o k = i) then find o k else None.
Proof.
  intros Hok Hs. case_decide as Hi.
  - unfold find, get_shard. by rewrite Hi, Hs.
  - destruct (entries s !! k) as [e|] eqn:He; [|done].
    destruct (oo_shard _ _ Hok i s Hs) as (_ & _ & Hk). by destruct (Hk k e He).
Qed.

Lemma find_set_shard o bound i s k :
  oracle_ok o bound → (i < length (shards o))%nat →
  find (set_shard o i s) k = if decide (shardFor o k = i) then entries s !! k else find o k.
Proof.
  intros Hok Hi. unfold find, get_shard, shardFor. cbn. rewrite length_insert.
  fold (shardFor o k). case_decide as Hk.
  - rewrite Hk, list_lookup_insert_eq by done. done.
  - by rewrite list_lookup_insert_ne.
Qed.

Lemma set_shard_ok o bound i s :
  oracle_ok o bound → (i < length (shards o))%nat →
  shard_ok s (suspectFloor o) bound → maxKeys s = share (cfg o) i →
  (∀ k e, entries s !! k = Some e → shardFor o k = i ∧ gen e ≤ suspectGen o) →
  oracle_ok (set_shard o i s) bound.
Proof.
  intros [H1 H2 H3 H4 H5] Hi Hs Hm Hk. constructor; cbn; try done.
  - by rewrite length_insert.
  - intros j sj. rewrite list_lookup_insert_Some. unfold shardFor. cbn. rewrite length_insert.
    intros [(-> & <- & _)|[_ Hj]]; [done|by apply H5].
Qed.

(** ** Making room *)

Record obtained (s : shard) (k : string) (now : Time) (size : nat) (floor : Z) (bound : Time)
    (sh : shard) (ent : entry) (evicted : option string) (created : bool) : Prop := mk_obtained {
  ob_ok : shard_ok_but (λ j, j = k) sh floor bound;
  ob_entry : entries sh !! k = Some ent;
  ob_max : maxKeys sh = maxKeys s;
  ob_created : if created then entries s !! k = None ∧ ent = new_entry k now size
               else entries s !! k = Some ent ∧ evicted = None;
  ob_evicted : ∀ j, evicted = Some j → is_Some (entries s !! j);
  ob_others : ∀ j, j ≠ k → entries sh !! j = if decide (evicted = Some j) then None else entries s !! j
}.

Lemma obtain_spec o s k now floor bound :
  shard_ok s floor bound → 1 ≤ maxKeys s →
  let '(sh, ent, evicted, created) := obtain o s k now floor in
  obtained s k now (Z.to_nat (RingSize (cfg o))) floor bound sh ent evicted created.
Proof.
  intros Hok Hmax. unfold obtain. destruct (entries s !! k) as [ent|] eqn:Hk.
  { constructor; try done. by apply shard_ok_weaken. }
  destruct (Z.geb_spec (len (entries s)) (maxKeys s)) as [Hge|Hlt].
  - assert (entries s ≠ ∅) as Hne.
    { intros He. unfold len in Hge. rewrite He, map_size_empty in Hge. lia. }
    destruct (evictOneLocked_spec s floor bound Hok Hne) as (v & ev & Hv & _ & ->).
    destruct (drop_entry_fields s v ev floor (so_index _ _ _ _ Hok) Hv) as (Hde & _ & Hdm).
    pose proof (drop_entry_ok s floor bound v ev Hok Hv) as Hdok.
    set (s1 := set_evictions _ _). assert (shard_ok s1 floor bound) as Hok1 by (by apply set_evictions_ok).
    assert (entries s1 = delete v (entries s)) as He1 by done.
    assert (maxKeys s1 = maxKeys s) as Hm1 by done.
    assert (entries s1 !! k = None) as Hk1 by (rewrite He1, lookup_delete; by case_decide).
    constructor.
    + apply store_new_ok; try done. rewrite He1, Hm1. pose proof (so_size _ _ _ _ Hok).
      unfold len in *. rewrite map_size_delete_Some by eauto.
      assert (size (entries s) ≠ 0)%nat; [|lia]. by intros ?%map_size_empty_inv.
    + rewrite remember_counts. cbn. apply lookup_insert_eq.
    + rewrite remember_counts. done.
    + done.
    + intros j [= <-]. eauto.
    + intros j Hj. rewrite remember_counts. cbn [entries set_counts set_entries].
      rewrite lookup_insert_ne by done. rewrite He1, lookup_delete. repeat case_decide; naive_solver.
  - constructor.
    + by apply store_new_ok.
    + rewrite remember_counts. cbn. apply lookup_insert_eq.
    + rewrite remember_counts. done.
    + done.
    + done.
    + intros j Hj. rewrite remember_counts. cbn. by rewrite lookup_insert_ne.
Qed.

(** The accounted write of an entry whose ring is pushed last. *)
Lemma write_ring_ok s floor bound k e0 e at_ (r : entry → ring) :
  shard_ok_but (λ j, j = k) s floor bound → entries s !! k = Some e0 →
  key e = k → bucket e = bucket e0 → lastEventAt e = at_ → is_i64 at_ →
  let '(s', e') := place (remember (forget s e0 floor) e floor) e at_ in
  let s'' := set_entries s' (<[key e' := with_ring e' (r e')]> (entries s')) in
  shard_ok s'' floor bound ∧ maxKeys s'' = maxKeys s
  ∧ entries s'' = <[k := with_ring e' (r e')]> (entries s)
  ∧ e' = with_bucket e (bucketOf s at_).
Proof.
  intros Hok Hk Hkey Hb Hat Hi.
  pose proof (write_back_ok s floor bound k e0 e at_ Hok Hk Hkey Hb Hat Hi) as Hw.
  unfold write_back in Hw. pose proof (place_entry (remember (forget s e0 floor) e floor) e at_) as Hent.
  pose proof (place_fields (remember (forget s e0 floor) e floor) e at_) as (He & _ & Hm & _).
  destruct (place _ e at_) as [s' e']. cbn [fst snd] in *.
  rewrite remember_counts, forget_counts in Hent, He, Hm. cbn in He, Hm.
  assert (key e' = k) as Hke by (by rewrite Hent). rewrite Hke in *.
  assert (set_entries s' (<[k := with_ring e' (r e')]> (entries s'))
    = set_entries (set_entries s' (<[k := e']> (entries s')))
        (<[k := with_ring e' (r e')]> (entries (set_entries s' (<[k := e']> (entries s')))))) as ->.
  { cbn. rewrite insert_insert_eq. done. }
  split_and!.
  - apply (touch_ok _ floor bound k e'); try done. cbn. apply lookup_insert_eq.
  - done.
  - cbn. by rewrite insert_insert_eq, He.
  - done.
Qed.

(** ** What Apply does *)

Definition touches (m : Mutation) : Prop := MAction m ≠ ActionNone.

(** The value a mutation leaves. *)
Definition mutated_value (m : Mutation) : Value :=
  match MAction m with ActionUpsert => MValue m | _ => absent end.

Definition old_version (o : Oracle) (k : string) : Z :=
  match find o k with Some e => version e | None => 0 end.

Record applied (now : Time) (o : Oracle) (m : Mutation) (e : Event.t) (tr : TrustState)
    (o' : Oracle) (res : ApplyResult) (ent : entry) : Prop := mk_applied {
  ap_find : find o' (MKey m) = Some ent;
  ap_value : value ent = mutated_value m;
  ap_version : version ent = u64 (old_version o (MKey m) + 1) ∧ ResVersion res = version ent;
  ap_meta : trust ent = tr ∧ gen ent = suspectGen o ∧ lastEventAt ent = now
            ∧ lastSeq ent = Seq e ∧ lastEpoch ent = Epoch e ∧ lastPublisher ent = Publisher e
            ∧ truncated ent = MTruncated m
            ∧ ttl ent = (match MAction m with ActionUpsert => MTTL m | _ => None end);
  ap_change : lastValueChangeAt ent
              = match find o (MKey m) with
                | Some old => if Value_Equal (value old) (value ent) then lastValueChangeAt old else now
                | None => now
                end;
  ap_ring : ∃ v, ering ent = push (match find o (MKey m) with Some old => ering old
                               | None => newRing (Z.to_nat (RingSize (cfg o))) end)
                             (mkHistory (historyEvent o e) v (value ent) (version ent) now);
  ap_created : Created res = bool_decide (find o (MKey m) = None);
  ap_evicted : ∀ j, Evicted res = Some j → is_Some (find o j) ∧ j ≠ MKey m;
  ap_others : ∀ j, j ≠ MKey m → find o' j = if decide (Evicted res = Some j) then None else find o j;
  ap_same : cfg o' = cfg o ∧ suspectGen o' = suspectGen o ∧ suspectFloor o' = suspectFloor o
            ∧ settlementWindow o' = settlementWindow o ∧ length (shards o') = length (shards o)
}.

Lemma find_get_shard o k : entries (get_shard o (shardFor o k)) !! k = find o k.
Proof. done. Qed.

Lemma obtained_version o k now size floor bound sh ent ev cr :
  obtained (get_shard o (shardFor o k)) k now size floor bound sh ent ev cr →
  version ent = old_version o k
  ∧ (cr = bool_decide (find o k = None))
  ∧ key ent = k.
Proof.
  intros Hob. pose proof (ob_created _ _ _ _ _ _ _ _ _ _ Hob) as Hc.
  pose proof (io_key _ _ (so_index _ _ _ _ (ob_ok _ _ _ _ _ _ _ _ _ _ Hob)) k ent
    (ob_entry _ _ _ _ _ _ _ _ _ _ Hob)) as Hk.
  rewrite find_get_shard in Hc. unfold old_version. destruct cr.
  - destruct Hc as [-> ->]. split_and!; done.
  - destruct Hc as [-> _]. split_and!; done.
Qed.

(** The write both Apply and AdoptSnapshot end with: place the entry and store it. *)
Lemma store_ok o bound k now size sh ent ev cr ent' (r : entry → ring) :
  oracle_ok o bound →
  obtained (get_shard o (shardFor o k)) k now size (suspectFloor o) bound sh ent ev cr →
  key ent' = k → bucket ent' = bucket ent → lastEventAt ent' = now → gen ent' = suspectGen o →
  is_i64 now →
  let '(s', e') := place (remember (forget sh ent (suspectFloor o)) ent' (suspectFloor o)) ent' now in
  let fin := with_ring e' (r e') in
  let o' := set_shard o (shardFor o k) (set_entries s' (<[key e' := fin]> (entries s'))) in
  (∃ b, e' = with_bucket ent' b) ∧ oracle_ok o' bound ∧ find o' k = Some fin
  ∧ (∀ j, j ≠ k → find o' j = if decide (ev = Some j) then None else find o j)
  ∧ (∀ j, ev = Some j → is_Some (find o j) ∧ j ≠ k).
Proof.
  intros Hok Hob Hkey Hb Hat Hg Hi. set (i := shardFor o k) in *. set (s := get_shard o i) in *.
  pose proof (get_shard_some o bound k Hok) as Hs. fold i s in Hs.
  destruct (oo_shard _ _ Hok i s Hs) as (_ & Hmax & Hkeys).
  assert (i < length (shards o))%nat as Hilen by (by eapply lookup_lt_Some).
  destruct Hob as [Hoks Hent Hom Hcr Hev Hoth].
  pose proof (write_ring_ok sh (suspectFloor o) bound k ent ent' now r Hoks Hent Hkey Hb Hat Hi) as Hw.
  destruct (place _ ent' now) as [s' e']. cbv zeta in *. destruct Hw as (Hok' & Hm' & He' & ->).
  cbn [key with_bucket] in *. rewrite Hkey in *. set (fin := with_ring _ _) in *.
  assert (∀ j, ev = Some j → is_Some (find o j) ∧ shardFor o j = i ∧ j ≠ k) as Hevj.
  { intros j Hj. destruct (Hev j Hj) as [ej Hej]. destruct (Hkeys j ej Hej) as [Hji _].
    unfold find. rewrite Hji. split_and!; [eauto|done|]. intros ->.
    destruct cr; [destruct Hcr as [Hcr _]|destruct Hcr as [_ Hcr]]; congruence. }
  assert (∀ j, find (set_shard o i (set_entries s' (<[k := fin]> (entries s')))) j
    = if decide (shardFor o j = i) then <[k := fin]> (entries sh) !! j else find o j) as Hfind.
  { intros j. rewrite (find_set_shard o bound) by done. by rewrite He'. }
  split_and!.
  - eauto.
  - apply set_shard_ok; try done; [by rewrite Hm', Hom|]. rewrite He'.
    intros j ej. rewrite lookup_insert_Some. intros [[<- <-]|[Hj Hej]]; [split; [done|]; cbn; lia|].
    rewrite Hoth in Hej by done. case_decide; [done|]. by apply Hkeys.
  - rewrite Hfind, decide_True by done. apply lookup_insert_eq.
  - intros j Hj. rewrite Hfind. case_decide as Hji.
    + rewrite lookup_insert_ne, Hoth by done. unfold find. by rewrite Hji.
    + case_decide as He; [|done]. by destruct (Hevj j He) as (_ & ? & _).
  - intros j Hj. by destruct (Hevj j Hj) as (? & _ & ?).
Qed.

(** Making room in the shard of a key. *)
Lemma obtain_in o bound k now :
  oracle_ok o bound →
  let '(sh, ent, ev, cr) := obtain o (get_shard o (shardFor o k)) k now (suspectFloor o) in
  obtained (get_shard o (shardFor o k)) k now (Z.to_nat (RingSize (cfg o))) (suspectFloor o) bound
    sh ent ev cr.
Proof.
  intros Hok. pose proof (get_shard_some o bound k Hok) as Hs.
  destruct (oo_shard _ _ Hok _ _ Hs) as (Hsok & Hmax & _).
  pose proof (share_pos (cfg o) (shardFor o k) (proj1 (oo_shards _ _ Hok)) (oo_budget _ _ Hok)).
  apply obtain_spec; [done|lia].
Qed.

Lemma Apply_spec clock_now o bound m e verdict tr :
  oracle_ok o bound → touches m → is_i64 (observedAt clock_now e) →
  let '(o', res) := Apply clock_now o m e verdict tr in
  oracle_ok o' bound
  ∧ ∃ ent, applied (observedAt clock_now e) o m e tr o' res ent.
Proof.
  intros Hok Ht Hi. unfold Apply. set (now := observedAt clock_now e) in *.
  pose proof (obtain_in o bound (MKey m) now Hok) as Hob.
  destruct (obtain o _ (MKey m) now (suspectFloor o)) as [[[sh ent] ev] cr].
  destruct (obtained_version o (MKey m) now _ _ _ _ _ _ _ Hob) as (Hver & Hcr & Hkey).
  pose proof (ob_created _ _ _ _ _ _ _ _ _ _ Hob) as Hc. rewrite find_get_shard in Hc.
  assert (MAction m = ActionUpsert ∨ MAction m = ActionDelete) as Hact
    by (unfold touches in Ht; destruct (MAction m); naive_solver).
  destruct Hact as [Ha|Ha]; rewrite Ha; cbv zeta;
    match goal with |- context [place (remember _ ?e' _) ?e' now] =>
      pose proof (store_ok o bound (MKey m) now _ sh ent ev cr e'
        (λ x, push (ering x) (mkHistory (historyEvent o e) verdict (value x) (version x) now))
        Hok Hob Hkey eq_refl eq_refl eq_refl Hi) as Hst;
      destruct (place (remember _ e' _) e' now) as [s' e2]
    end;
    destruct Hst as ((b & ->) & Hok' & Hf & Hoth & Hev); cbn [key with_ring with_bucket] in *;
    (split; [exact Hok'|]); (eexists; constructor;
      cbn [ResVersion Created Evicted]; unfold mutated_value; rewrite ?Ha;
      [exact Hf|done|cbn; by rewrite Hver|cbn; done
      |cbn; destruct cr; destruct Hc as [-> Hce]; cbn; try done; by destruct (Value_Equal _ _)
      |exists verdict; cbn; destruct cr; destruct Hc as [-> Hce]; by rewrite ?Hce
      |done|done|done|cbn; by rewrite length_insert]).
Qed.

(** Apply evicts only to make room for a new key in a full shard. *)
Lemma Apply_no_eviction clock_now o m e verdict tr :
  find o (MKey m) ≠ None
  ∨ len (entries (get_shard o (shardFor o (MKey m)))) < maxKeys (get_shard o (shardFor o (MKey m))) →
  Evicted (Apply clock_now o m e verdict tr).2 = None.
Proof.
  rewrite <- find_get_shard. intros Hroom. unfold Apply. destruct (MAction m); [done|..];
    set (sh := get_shard o _) in *; unfold obtain;
    (destruct (entries sh !! MKey m) as [ent|]; [|destruct (Z.geb_spec (len (entries sh)) (maxKeys sh));
      [destruct Hroom; [done|lia]|]]);
    by destruct (place _ _ _).
Qed.

(** The keys of a shard are keys of the oracle. *)
Lemma shard_dom o bound i s (K : gset string) :
  oracle_ok o bound → shards o !! i = Some s → (∀ k, is_Some (find o k) → k ∈ K) → dom (entries s) ⊆ K.
Proof.
  intros Hok Hs HK k [e He]%elem_of_dom. apply HK. rewrite (find_shard o bound i s) in He by done.
  case_decide; [eauto|done].
Qed.

(** ** The other operations keep the invariant *)

Lemma with_ring_same e : with_ring e (ering e) = e.
Proof. by destruct e. Qed.

Record adopted_entry (at_ : Time) (o : Oracle) (k : string) (v : Value) (o' : Oracle) : Prop :=
  mk_adopted_entry {
  ad_find : ∃ ent, find o' k = Some ent ∧ value ent = v ∧ trust ent = TrustAdopted
                   ∧ version ent = u64 (old_version o k + 1)
                   ∧ lastPublisher ent = (match find o k with Some old => lastPublisher old | None => "" end)
                   ∧ ering ent = (match find o k with Some old => ering old
                                  | None => newRing (Z.to_nat (RingSize (cfg o))) end);
  ad_others : ∀ j, j ≠ k → find o' j = find o j ∨ find o' j = None;
  ad_same : suspectGen o' = suspectGen o ∧ suspectFloor o' = suspectFloor o ∧ cfg o' = cfg o
}.

Lemma adopt_one_spec at_ o bound k v :
  oracle_ok o bound → is_i64 at_ →
  oracle_ok (adopt_one at_ o (k, v)) bound ∧ adopted_entry at_ o k v (adopt_one at_ o (k, v)).
Proof.
  intros Hok Hi. unfold adopt_one. pose proof (obtain_in o bound k at_ Hok) as Hob.
  destruct (obtain o _ k at_ (suspectFloor o)) as [[[sh ent] ev] cr].
  destruct (obtained_version o k at_ _ _ _ _ _ _ _ Hob) as (Hver & Hcr & Hkey). cbv zeta.
  match goal with |- context [place (remember _ ?e' _) ?e' at_] =>
    pose proof (store_ok o bound k at_ _ sh ent ev cr e' ering Hok Hob Hkey eq_refl eq_refl eq_refl Hi)
      as Hst; destruct (place (remember _ e' _) e' at_) as [s' e2] end.
  rewrite with_ring_same in Hst. destruct Hst as ((b & ->) & Hok' & Hf & Hoth & Hev).
  split; [exact Hok'|]. constructor; [|intros j Hj; rewrite Hoth by done; case_decide; auto|done].
  eexists. split; [exact Hf|]. cbn. rewrite Clone_id, Hver. split_and!; [done..| |];
    pose proof (ob_created _ _ _ _ _ _ _ _ _ _ Hob) as Hcr'; rewrite find_get_shard in Hcr';
    destruct cr, Hcr' as [H1 H2]; by rewrite ?H1, ?H2.
Qed.

Lemma AdoptSnapshot_ok o bound snap at_ :
  oracle_ok o bound → is_i64 at_ →
  oracle_ok (AdoptSnapshot o snap at_) bound
  ∧ suspectGen (AdoptSnapshot o snap at_) = suspectGen o.
Proof.
  intros Hok Hi. unfold AdoptSnapshot. revert o Hok.
  induction (range_map snap) as [|[k v] l IH]; intros o Hok; [done|]. cbn [foldl].
  destruct (adopt_one_spec at_ o bound k v Hok Hi) as [Hok' [_ _ (Hg & _ & _)]].
  rewrite <- Hg. by apply IH.
Qed.

(** Rewriting every shard, entry by entry, with a new generation and floor. *)
Lemma map_shards_ok o bound bound' g floor (f : string → entry → entry) (F : shard → shard) :
  oracle_ok o bound → 0 ≤ floor ≤ g →
  (∀ i s, shards o !! i = Some s →
     shard_ok (F s) floor bound' ∧ maxKeys (F s) = maxKeys s
     ∧ ∀ k, entries (F s) !! k = f k <$> entries s !! k) →
  (∀ k e, gen e ≤ suspectGen o → gen (f k e) ≤ g) →
  let o' := mkOracle (cfg o) (F <$> shards o) (settlementWindow o) g floor in
  oracle_ok o' bound' ∧ ∀ k, find o' k = f k <$> find o k.
Proof.
  intros Hok Hfl HF Hf o'. pose proof Hok as Hok0. destruct Hok as [H1 H2 H3 H4 H5].
  assert (∀ k, shardFor o' k = shardFor o k) as Hsf.
  { intros k. unfold shardFor, o'. cbn. by rewrite length_fmap. }
  split.
  - constructor; unfold o'; cbn; try done; [by rewrite length_fmap|].
    intros i s'. rewrite list_lookup_fmap_Some. intros (s & -> & Hs).
    destruct (HF i s Hs) as (Ha & Hb & Hc). destruct (H5 i s Hs) as (_ & Hm & Hk).
    split_and!; [done|congruence|]. intros k e. rewrite Hc, fmap_Some. intros (e0 & He0 & ->).
    destruct (Hk k e0 He0) as [Hki Hg]. fold o'. rewrite Hsf. auto.
  - intros k. pose proof (get_shard_some o bound k Hok0) as Hs.
    unfold find. rewrite Hsf. unfold get_shard at 1. change (shards o') with (F <$> shards o).
    rewrite list_lookup_fmap, Hs. cbn. by destruct (HF _ _ Hs) as (_ & _ & Hc).
Qed.

Lemma is_trust_adopted_floor e f1 f2 : is_trust TrustAdopted f1 e = is_trust TrustAdopted f2 e.
Proof. unfold is_trust, effectiveTrust. destruct (trust e); repeat case_match; done. Qed.

(** The globs and the empty pattern, which means every key. *)
Definition covers (pattern k : string) : bool :=
  bool_decide (pattern = "") || matchGlob pattern k.

Definition effective (o : Oracle) (k : string) : option TrustState :=
  (λ e, effectiveTrust e (suspectFloor o)) <$> find o k.

(** The mark of MarkSuspect on one entry. *)
Definition marked (pattern : string) (k : string) (e : entry) : entry :=
  if decide (trust e = TrustComplete) then
    if matchGlob pattern k then with_trust e TrustSuspect else e
  else e.

Lemma mark_one_ok pattern floor bound s k e :
  shard_ok s floor bound → entries s !! k = Some e →
  shard_ok (mark_one pattern floor s (k, e)) floor bound
  ∧ entries (mark_one pattern floor s (k, e)) = <[k := marked pattern k e]> (entries s).
Proof.
  intros Hok Hk. unfold mark_one, marked. destruct (decide (trust e = TrustComplete)) as [Ht|Ht].
  2: { rewrite bool_decide_false by done. cbn [negb orb]. by rewrite insert_id. }
  rewrite bool_decide_true by done. cbn [negb orb].
  destruct (matchGlob pattern k); cbn [negb]; [|by rewrite insert_id].
  rewrite remember_counts, forget_counts. cbn [entries set_counts]. split; [|done].
  pose proof (overwrite_reframe s floor bound k e (with_trust e TrustSuspect) floor Hok Hk
    eq_refl eq_refl eq_refl) as Hr.
  match goal with |- shard_ok_but _ ?x _ _ =>
    assert (recount (set_entries s (<[k := with_trust e TrustSuspect]> (entries s))) floor = x) as <- end;
    [|done].
  destruct (so_counters _ _ _ _ Hok) as [H1 H2 H3 H4].
  rewrite recount_eq. unfold set_counts, set_entries. cbn.
  rewrite !(msum_overwrite _ _ k e) by done. f_equal; lia.
Qed.

Lemma MarkSuspect_ok o bound pattern :
  oracle_ok o bound → suspectGen o < max_u64 →
  oracle_ok (MarkSuspect o pattern) bound
  ∧ (∀ k, find (MarkSuspect o pattern) k
       = if decide (pattern = "") then find o k else marked pattern k <$> find o k)
  ∧ suspectFloor (MarkSuspect o pattern)
    = (if decide (pattern = "") then suspectGen o + 1 else suspectFloor o).
Proof.
  intros Hok Hg. pose proof (oo_floor _ _ Hok) as Hfl. unfold MarkSuspect.
  destruct (decide (pattern = "")) as [->|Hp].
  - assert (u64 (suspectGen o + 1) = suspectGen o + 1) as -> by (apply u64_small; unfold is_u64; lia).
    destruct (map_shards_ok o bound bound (suspectGen o + 1) (suspectGen o + 1) (λ _ e, e)
      (λ sh, set_counts sh 0 (adopted sh) (suspect sh) (ntruncated sh)) Hok) as [H1 H2]; [lia| |intros; lia|].
    { intros i s Hs. destruct (oo_shard _ _ Hok i s Hs) as (Hsok & _ & Hk). split_and!; [|done|].
      - pose proof (reframe s (suspectFloor o) bound (suspectGen o + 1) Hsok) as Hr.
        destruct (so_counters _ _ _ _ Hsok) as [_ Ha Hsu Htr]. rewrite recount_eq in Hr.
        rewrite Ha, Hsu, Htr. rewrite (msum_ext _ (λ _, 0)) in Hr.
        + rewrite (msum_ext _ (is_trust TrustAdopted (suspectGen o + 1)) (entries s))
            by (intros; apply is_trust_adopted_floor).
          by rewrite msum_zero in Hr.
        + intros k e He. destruct (Hk k e He) as [_ Hge]. unfold is_trust, effectiveTrust.
          destruct (trust e); try done. destruct (Z.ltb_spec (gen e) (suspectGen o + 1)); [done|lia].
      - intros k. cbn. by destruct (entries s !! k). }
    split_and!; [done| |done]. intros k. unfold set_shards, set_suspicion. cbn.
    rewrite H2. by destruct (find o k).
  - destruct (map_shards_ok o bound bound (suspectGen o) (suspectFloor o) (marked pattern)
      (λ sh, foldl (mark_one pattern (suspectFloor o)) sh (range_map (entries sh))) Hok) as [H1 H2];
      [lia| | |].
    { intros i s Hs. destruct (oo_shard _ _ Hok i s Hs) as (Hsok & _ & Hk).
      destruct (entries_pass (mark_one pattern (suspectFloor o)) (marked pattern)
        (λ x, shard_ok x (suspectFloor o) bound ∧ maxKeys x = maxKeys s)) with (s := s) as [[Ha Hb] Hc].
      - intros s0 k e [Hs0 Hm] He. destruct (mark_one_ok pattern _ bound s0 k e Hs0 He) as [Hx Hy].
        split; [split; [done|]|done]. rewrite <- Hm. unfold mark_one. case_match; [done|].
        by rewrite remember_counts, forget_counts.
      - done.
      - split_and!; done. }
    { intros k e. unfold marked. by repeat case_match. }
    split_and!; [by destruct o|by destruct o|done].
Qed.

(** What ClearSuspect makes of one entry. *)
Definition cleared (pattern : string) (g : Z) (k : string) (e : entry) : entry :=
  if covers pattern k then
    let e := if decide (trust e = TrustSuspect) then with_trust e TrustComplete else e in
    if decide (trust e = TrustComplete) then with_gen e g else e
  else e.

Lemma clear_one_ok pattern g floor bound s k e :
  shard_ok (recount s floor) floor bound → entries s !! k = Some e →
  shard_ok (recount (clear_one pattern g s (k, e)) floor) floor bound
  ∧ entries (clear_one pattern g s (k, e)) = <[k := cleared pattern g k e]> (entries s)
  ∧ maxKeys (clear_one pattern g s (k, e)) = maxKeys s.
Proof.
  intros Hok Hk. unfold clear_one, cleared, covers.
  destruct (bool_decide (pattern = "")); cbn [negb andb orb];
    [|destruct (matchGlob pattern k); cbn [negb]; [|by rewrite insert_id]].
  all: split; [|done]; cbv zeta; rewrite <- (recount_set_entries s _ floor);
    assert (entries s = entries (recount s floor)) as Hes by (by rewrite recount_eq);
    rewrite Hes; apply (overwrite_reframe _ floor bound k e); [done|by rewrite <- Hes|..];
    by repeat case_decide.
Qed.

Lemma ClearSuspect_ok o bound pattern :
  oracle_ok o bound →
  oracle_ok (ClearSuspect o pattern) bound
  ∧ (∀ k, find (ClearSuspect o pattern) k = cleared pattern (suspectGen o) k <$> find o k)
  ∧ suspectFloor (ClearSuspect o pattern) = (if decide (pattern = "") then 0 else suspectFloor o).
Proof.
  intros Hok. pose proof (oo_floor _ _ Hok) as Hfl. unfold ClearSuspect.
  set (floor := if decide (pattern = "") then 0 else suspectFloor o).
  assert ((if decide (pattern = "") then set_suspicion o (suspectGen o) 0 else o)
    = set_suspicion o (suspectGen o) floor) as ->.
  { unfold floor. case_decide; [done|by destruct o]. }
  destruct (map_shards_ok o bound bound (suspectGen o) floor (cleared pattern (suspectGen o))
    (λ sh, recount (foldl (clear_one pattern (suspectGen o)) sh (range_map (entries sh))) floor) Hok)
    as [H1 H2].
  - unfold floor. case_decide; lia.
  - intros i s Hs. destruct (oo_shard _ _ Hok i s Hs) as (Hsok & _ & _).
    destruct (entries_pass (clear_one pattern (suspectGen o)) (cleared pattern (suspectGen o))
      (λ x, shard_ok (recount x floor) floor bound ∧ maxKeys x = maxKeys s)) with (s := s) as [[Ha Hb] Hc].
    + intros s0 k e [Hs0 Hm] He.
      destruct (clear_one_ok pattern (suspectGen o) floor bound s0 k e Hs0 He) as (Hx & Hy & Hz).
      split; [split; [done|congruence]|done].
    + split; [|done]. by apply (reframe s (suspectFloor o)).
    + split_and!; [done| |intros k]; rewrite recount_eq; cbn; [done|apply Hc].
  - intros k e Hg. unfold cleared. repeat case_match; cbn; lia.
  - split_and!; [exact H1|exact H2|done].
Qed.

Lemma SetSettlementWindow_ok o bound d :
  oracle_ok o bound → oracle_ok (SetSettlementWindow o d) bound.
Proof.
  intros [H1 H2 H3 H4 H5]. unfold SetSettlementWindow. constructor; cbn; try done.
  repeat case_match; zbool; lia.
Qed.

(** Promoting every shard. *)
Definition promoted (o : Oracle) (now : Time) : Oracle :=
  set_shards o ((λ sh, promote sh now (MaxSettlementWindow (cfg o))) <$> shards o).

Lemma promoted_ok o bound now :
  let horizon := time_Add now (- MaxSettlementWindow (cfg o)) in
  oracle_ok o bound → is_i64 horizon →
  oracle_ok (promoted o now) (Z.max bound horizon) ∧ ∀ k, find (promoted o now) k = find o k.
Proof.
  intros horizon Hok Hi. pose proof (oo_floor _ _ Hok) as Hfl.
  destruct (map_shards_ok o bound (Z.max bound horizon) (suspectGen o) (suspectFloor o) (λ _ e, e)
    (λ sh, promote sh now (MaxSettlementWindow (cfg o))) Hok) as [H1 H2]; [lia| |done|].
  - intros i s Hs. destruct (oo_shard _ _ Hok i s Hs) as (Hsok & _ & _).
    destruct (promote_fields s now (MaxSettlementWindow (cfg o))) as (He & _ & Hm).
    split_and!; [by apply promote_ok|done|]. intros k. rewrite He. by destruct (entries s !! k).
  - split; [exact H1|]. intros k. unfold promoted, set_shards. rewrite H2. by destruct (find o k).
Qed.

Lemma SettledKeys_eq o now :
  SettledKeys o now
  = (promoted o now,
     shards (promoted o now) ≫= λ sh,
       settledKeys sh [] now (window o) (neverSettledThreshold o (window o))).
Proof.
  unfold SettledKeys, promoted. f_equal.
  - f_equal. rewrite <- list_fmap_compose. done.
  - cbn. rewrite <- list_fmap_compose. induction (shards o) as [|sh l IH]; [done|].
    cbn. by rewrite IH.
Qed.

Lemma Counts_oracle o now : (Counts_ o now).1 = promoted o now.
Proof.
  unfold Counts_, promoted.
  assert (∀ l pre c, (foldl (λ acc sh,
      let '(l, c) := acc in
      let sh := promote sh now (MaxSettlementWindow (cfg o)) in
      let '(settled, never) := countSettled sh now (window o) (neverSettledThreshold o (window o)) in
      (l ++ [sh],
       mkCounts (Total c + len (entries sh)) (Settled c + settled) (InFlight c)
         (NeverSettled c + never) (ByComplete c + fresh sh) (ByAdopted c + adopted sh)
         (BySuspect c + suspectCount sh) (NTruncated c + ntruncated sh)))
      (pre, c) l).1 = pre ++ ((λ sh, promote sh now (MaxSettlementWindow (cfg o))) <$> l)) as Hl.
  { induction l as [|sh l IH]; intros pre c; [by rewrite app_nil_r|]. cbn [foldl].
    destruct (countSettled _ _ _ _) as [x y]. rewrite IH. cbn. by rewrite <- app_assoc. }
  specialize (Hl (shards o) [] (mkCounts 0 0 0 0 0 0 0 0)).
  destruct (foldl _ _ _) as [l c]. cbn in *. by subst.
Qed.

(** ** Runs of the oracle *)

Inductive op :=
| OpApply (clock_now : Time) (m : Mutation) (e : Event.t) (verdict : Verdict) (tr : TrustState)
| OpAdopt (snap : gmap string Value) (at_ : Time)
| OpMark (pattern : string)
| OpClear (pattern : string)
| OpWindow (d : Duration)
| OpSettled (now : Time)
| OpCounts (now : Time).

Definition step (o : Oracle) (x : op) : Oracle :=
  match x with
  | OpApply clock_now m e verdict tr => (Apply clock_now o m e verdict tr).1
  | OpAdopt snap at_ => AdoptSnapshot o snap at_
  | OpMark pattern => MarkSuspect o pattern
  | OpClear pattern => ClearSuspect o pattern
  | OpWindow d => SetSettlementWindow o d
  | OpSettled now => (SettledKeys o now).1
  | OpCounts now => (Counts_ o now).1
  end.

(** What a step relies on: instants that [UnixNano] represents (1678 to 2262) and a
    generation counter that has not been around. *)
Definition valid (o : Oracle) (x : op) : Prop :=
  match x with
  | OpApply clock_now _ e _ _ => is_i64 (observedAt clock_now e)
  | OpAdopt _ at_ => is_i64 at_
  | OpMark _ => suspectGen o < max_u64
  | OpSettled now | OpCounts now => is_i64 (time_Add now (- MaxSettlementWindow (cfg o)))
  | _ => True
  end.

(** The ghost bound after a step. *)
Definition horizon_after (o : Oracle) (bound : Time) (x : op) : Time :=
  match x with
  | OpSettled now | OpCounts now => Z.max bound (time_Add now (- MaxSettlementWindow (cfg o)))
  | _ => bound
  end.

Lemma Apply_none clock_now o m e verdict tr :
  ¬ touches m → (Apply clock_now o m e verdict tr).1 = o.
Proof. unfold touches, Apply. intros Ht. destruct (MAction m); naive_solver. Qed.

Lemma step_ok o bound x : oracle_ok o bound → valid o x → oracle_ok (step o x) (horizon_after o bound x).
Proof.
  destruct x as [clock_now m e verdict tr|snap at_|pattern|pattern|d|now|now];
    cbn [step horizon_after valid]; intros Hok Hv.
  - destruct (decide (MAction m = ActionNone)) as [Hn|Ht].
    + rewrite Apply_none by (by unfold touches; intros ?). done.
    + pose proof (Apply_spec clock_now o bound m e verdict tr Hok Ht Hv) as Hs.
      destruct (Apply _ _ _ _ _ _). apply Hs.
  - by apply AdoptSnapshot_ok.
  - by apply MarkSuspect_ok.
  - by apply ClearSuspect_ok.
  - by apply SetSettlementWindow_ok.
  - rewrite SettledKeys_eq. by apply promoted_ok.
  - rewrite Counts_oracle. by apply promoted_ok.
Qed.

Inductive reachable : Oracle → Time → Prop :=
| reachable_new c bound : reachable (New c) bound
| reachable_step o bound x :
    reachable o bound → valid o x → reachable (step o x) (horizon_after o bound x).

Lemma reachable_ok o bound : reachable o bound → oracle_ok o bound.
Proof. induction 1; [apply New_ok|by apply step_ok]. Qed.

(** ** The key budget *)

Lemma foldl_plus {A} (f : A → Z) (l : list A) : ∀ acc,
  foldl (λ n x, n + f x) acc l = acc + foldr (λ x n, f x + n) 0 l.
Proof. induction l as [|x l IH]; intros acc; cbn; [lia|]. rewrite IH. lia. Qed.

Lemma sum_shares c n :
  0 < Shards c → foldr (λ i acc, share c i + acc) 0 (seq 0 n)
    = Z.of_nat n * Z.quot (MaxTrackedKeys c) (Shards c)
      + Z.min (Z.of_nat n) (Z.max 0 (Z.rem (MaxTrackedKeys c) (Shards c))).
Proof.
  intros Hs. induction n as [|n IH]; [cbn; lia|].
  rewrite seq_S, foldr_app. cbn [foldr Nat.add].
  assert (∀ l a, foldr (λ i acc, share c i + acc) a l = foldr (λ i acc, share c i + acc) 0 l + a) as Hl.
  { induction l as [|x l IHl]; intros a; cbn; [lia|]. rewrite IHl. lia. }
  rewrite Hl, IH. unfold share.
  destruct (Z.ltb_spec (Z.of_nat n) (Z.rem (MaxTrackedKeys c) (Shards c))); lia.
Qed.

Lemma budget_sum c :
  0 < Shards c → Shards c ≤ MaxTrackedKeys c →
  foldr (λ i acc, share c i + acc) 0 (seq 0 (Z.to_nat (Shards c))) = MaxTrackedKeys c.
Proof.
  intros H1 H2. rewrite sum_shares by done.
  pose proof (Z.quot_rem' (MaxTrackedKeys c) (Shards c)).
  pose proof (Z.rem_bound_pos (MaxTrackedKeys c) (Shards c)). lia.
Qed.

Lemma sum_le_shares c (l : list shard) : ∀ start,
  (∀ i s, l !! i = Some s → len (entries s) ≤ share c (start + i)) →
  foldr (λ sh n, len (entries sh) + n) 0 l
  ≤ foldr (λ i acc, share c i + acc) 0 (seq start (length l)).
Proof.
  induction l as [|s l IH]; intros start Hl; cbn; [lia|].
  pose proof (Hl 0%nat s eq_refl) as H1. rewrite Nat.add_0_r in H1.
  assert (foldr (λ sh n, len (entries sh) + n) 0 l
    ≤ foldr (λ i acc, share c i + acc) 0 (seq (S start) (length l))); [|lia].
  apply IH. intros i s' Hi. specialize (Hl (S i) s' Hi).
  by replace (S start + i)%nat with (start + S i)%nat by lia.
Qed.

(** C30: the oracle never tracks more keys than MaxTrackedKeys, whatever is applied, adopted or
    marked and however the keys hash. *)
Theorem oracle_within_budget o bound : reachable o bound → 0 ≤ Len o ≤ MaxTrackedKeys (cfg o).
Proof.
  intros Hr. apply reachable_ok in Hr as Hok. destruct (oo_shards _ _ Hok) as [Hs Hlen].
  unfold Len. rewrite foldl_plus. split.
  - assert (∀ l : list shard, 0 ≤ foldr (λ sh n, len (entries sh) + n) 0 l) as Hnn; [|apply Hnn].
    induction l as [|s l IH]; cbn; [lia|]. unfold len in *. lia.
  - rewrite <- (budget_sum (cfg o)) by (try done; apply (oo_budget _ _ Hok)).
    replace (Z.to_nat (Shards (cfg o))) with (length (shards o)) by lia.
    apply (sum_le_shares (cfg o) (shards o) 0). intros i s Hi. cbn [Nat.add].
    destruct (oo_shard _ _ Hok i s Hi) as (Hsok & <- & _). apply (so_size _ _ _ _ Hsok).
Qed.

(** ** Apply, then read *)

(** after a mutation is applied, reading the key gives its new value with the version one above
    the old, the event's position and the trust it was applied with; a delete leaves a tombstone;
    the value reads as absent exactly once the entry's own TTL has run out; and every other key
    reads as before, unless it is the one reported evicted. *)
Theorem apply_then_get o bound clock_now m e verdict tr now' :
  reachable o bound → touches m → is_i64 (observedAt clock_now e) →
  let '(o', res) := Apply clock_now o m e verdict tr in
  (∃ out, Get now' o' (MKey m) = Some out
     ∧ Shard.Version out = u64 (default 0 (Version o (MKey m)) + 1) ∧ ResVersion res = Shard.Version out
     ∧ Trust out = tr ∧ LastSeq out = Seq e ∧ LastPublisher out = Publisher e
     ∧ LastEventAt out = observedAt clock_now e ∧ Truncated out = MTruncated m
     ∧ EntValue out = (if Expired out then absent else mutated_value m)
     ∧ (Expired out = true ↔ ∃ d, EntTTL out = Some d ∧ 0 < d
          ∧ LastEventAt out ≠ zero_time ∧ LastEventAt out + d < now')
     ∧ EntTTL out = (match MAction m with ActionUpsert => MTTL m | _ => None end))
  ∧ (∀ j, j ≠ MKey m → Evicted res ≠ Some j → Get now' o' j = Get now' o j)
  ∧ (∀ j, Evicted res = Some j → Get now' o' j = None).
Proof.
  intros Hr Ht Hi. apply reachable_ok in Hr.
  pose proof (Apply_spec clock_now o bound m e verdict tr Hr Ht Hi) as Hs.
  pose proof (oo_floor _ _ Hr) as Hfl.
  destruct (Apply clock_now o m e verdict tr) as [o' res]. destruct Hs as [Hok' [ent Ha]].
  destruct Ha as [Hf Hv [Hver Hres] (Htr & Hg & Hat & Hseq & Hep & Hpub & Htrunc & Httl) _ _ _ Hev Hoth (_ & _ & Hfloor & _)].
  assert (effectiveTrust ent (suspectFloor o') = tr) as Hte.
  { unfold effectiveTrust. rewrite Htr, Hg, Hfloor. destruct tr; try done.
    destruct (Z.ltb_spec (suspectGen o) (suspectFloor o)); [lia|done]. }
  assert (∀ j, Get now' o' j = match find o' j with None => None | Some _ => Get now' o' j end) as Hnone.
  { intros j. unfold Get, find. by destruct (entries _ !! j). }
  split_and!.
  - unfold Get. fold (find o' (MKey m)). rewrite Hf, Hte.
    assert (expired ent now' = true ↔ ∃ d, ttl ent = Some d ∧ 0 < d
      ∧ lastEventAt ent ≠ zero_time ∧ lastEventAt ent + d < now') as Hexp.
    { unfold expired, IsZero, After, time_Add. destruct (ttl ent) as [d|]; [|naive_solver].
      destruct (Z.leb_spec d 0); cbn [orb]; [naive_solver lia|].
      destruct (Z.eqb_spec (lastEventAt ent) zero_time); [naive_solver|].
      rewrite Z.ltb_lt. naive_solver. }
    assert (default 0 (Version o (MKey m)) = old_version o (MKey m)) as ->.
    { unfold Version, old_version. fold (find o (MKey m)). by destruct (find o (MKey m)). }
    destruct (expired ent now') eqn:He; eexists; (split; [reflexivity|]); cbn;
      rewrite ?Clone_id; split_and!; try done; by rewrite Hexp.
  - intros j Hj Hne. specialize (Hoth j Hj). rewrite decide_False in Hoth by done.
    unfold Get. fold (find o' j) (find o j). by rewrite Hoth, Hfloor.
  - intros j Hj. destruct (Hev j Hj) as [_ Hne]. specialize (Hoth j Hne).
    rewrite decide_True in Hoth by done. unfold Get. fold (find o' j). by rewrite Hoth.
Qed.

(** ** Fencing *)

(** A run of steps during which [k] is never evicted and its version does not wrap. *)
Inductive path (k : string) : Oracle → Time → Oracle → Prop :=
| path_here o b : path k o b o
| path_step o b x o' :
    valid o x → is_Some (find (step o x) k) → old_version o k < max_u64 →
    (match x with OpAdopt snap _ => snap !! k = None | _ => True end) →
    path k (step o x) (horizon_after o b x) o' → path k o b o'.

Definition value_of (o : Oracle) (k : string) : option Value := value <$> find o k.

Lemma adopt_find at_ k l : ∀ o bound,
  oracle_ok o bound → is_i64 at_ → k ∉ l.*1 →
  find (foldl (adopt_one at_) o l) k = find o k ∨ find (foldl (adopt_one at_) o l) k = None.
Proof.
  induction l as [|[j v] l IH]; intros o bound Hok Hi Hk; [by left|]. cbn [foldl].
  destruct (adopt_one_spec at_ o bound j v Hok Hi) as [Hok' [_ Hoth _]].
  cbn in Hk. apply not_elem_of_cons in Hk as [Hne Hk].
  destruct (IH _ bound Hok' Hi Hk) as [-> | ->]; [|by right]. by apply Hoth.
Qed.

(** One step with the key still there: the same entry up to its trust, or a new version. *)
Lemma step_version o b x k e :
  oracle_ok o b → valid o x → find o k = Some e → is_Some (find (step o x) k) →
  version e < max_u64 → 0 ≤ version e →
  (match x with OpAdopt snap _ => snap !! k = None | _ => True end) →
  ∃ e', find (step o x) k = Some e' ∧
    (version e' = version e ∧ value e' = value e ∨ version e' = version e + 1).
Proof.
  intros Hok Hv Hk Hsome Hmax Hpos Hx.
  destruct x as [clock_now m ev verdict tr|snap at_|pattern|pattern|d|now|now];
    cbn [step valid] in *.
  - destruct (decide (MAction m = ActionNone)) as [Hn|Ht].
    { rewrite Apply_none in * by (by unfold touches; intros ?). eauto. }
    pose proof (Apply_spec clock_now o b m ev verdict tr Hok Ht Hv) as Hs.
    destruct (Apply _ _ _ _ _ _) as [o' res]. destruct Hs as [_ [ent Ha]].
    destruct (decide (k = MKey m)) as [->|Hne].
    + exists ent. split; [apply (ap_find _ _ _ _ _ _ _ _ Ha)|]. right.
      rewrite (proj1 (ap_version _ _ _ _ _ _ _ _ Ha)). unfold old_version. rewrite Hk.
      apply u64_small. unfold is_u64. lia.
    + cbn [fst] in *. rewrite (ap_others _ _ _ _ _ _ _ _ Ha k Hne) in *.
      case_decide; [by destruct Hsome|eauto].
  - unfold AdoptSnapshot in *.
    destruct (adopt_find at_ k (range_map snap) o b Hok Hv) as [Hf|Hf]; rewrite ?Hf in *; [|eauto|].
    + intros ([j v] & -> & Hj)%list_elem_of_fmap. apply elem_of_range_map in Hj. cbn in Hx. congruence.
    + by destruct Hsome.
  - destruct (MarkSuspect_ok o b pattern Hok Hv) as (_ & Hf & _). rewrite Hf.
    case_decide; [eauto|]. rewrite Hk. eexists. split; [done|]. left.
    unfold marked. by repeat case_match.
  - destruct (ClearSuspect_ok o b pattern Hok) as (_ & Hf & _). rewrite Hf, Hk.
    eexists. split; [done|]. left. unfold cleared. by repeat case_match.
  - exists e. split; [done|by left].
  - rewrite SettledKeys_eq. cbn [fst]. destruct (promoted_ok o b now Hok Hv) as [_ Hf].
    rewrite Hf. eauto.
  - rewrite Counts_oracle. destruct (promoted_ok o b now Hok Hv) as [_ Hf]. rewrite Hf. eauto.
Qed.

Lemma path_version k o b o' : path k o b o' →
  ∀ e, oracle_ok o b → find o k = Some e → 0 ≤ version e →
  ∃ e', find o' k = Some e' ∧ version e ≤ version e' ∧ (version e' = version e → value e' = value e).
Proof.
  induction 1 as [o b|o b x o' Hv Hs Hlt Hx Hp IH]; intros e Hok Hk Hpos.
  { exists e. split_and!; [done|lia|done]. }
  assert (version e < max_u64) as Hmax by (unfold old_version in Hlt; by rewrite Hk in Hlt).
  destruct (step_version o b x k e Hok Hv Hk Hs Hmax Hpos Hx) as (e1 & Hk1 & Hcase).
  destruct (IH e1 (step_ok o b x Hok Hv) Hk1) as (e' & Hk' & Hle & Heq); [lia|].
  exists e'. split_and!; [done|lia|]. intros Hvv. rewrite Heq by lia. destruct Hcase as [[_ ->]|]; [done|lia].
Qed.

(** Equal versions at the two ends of a run mean an unchanged expectation. *)
Lemma version_fence k o b o' v v' :
  reachable o b → path k o b o' → Version o k = Some v → Version o' k = Some v' → 0 ≤ v →
  v ≤ v' ∧ (v = v' → value_of o k = value_of o' k).
Proof.
  intros Hr Hp Hv Hv' Hpos. unfold Version in Hv, Hv'. fold (find o k) in Hv. fold (find o' k) in Hv'.
  apply fmap_Some in Hv as (e & He & ->). apply fmap_Some in Hv' as (e' & He' & ->).
  destruct (path_version k o b o' Hp e (reachable_ok _ _ Hr) He Hpos) as (e2 & He2 & Hle & Heq).
  rewrite He' in He2. injection He2 as <-. split; [done|]. intros Hvv. unfold value_of.
  rewrite He, He'. cbn. by rewrite Heq.
Qed.


(** ** Suspicion *)

Lemma effective_marked pattern k e g floor :
  gen e ≤ g → floor ≤ g →
  effectiveTrust (if decide (pattern = "") then e else marked pattern k e)
    (if decide (pattern = "") then g + 1 else floor)
  = (if covers pattern k && bool_decide (effectiveTrust e floor = TrustComplete) then TrustSuspect
     else effectiveTrust e floor).
Proof.
  intros Hge Hfl. unfold covers, marked. destruct (decide (pattern = "")) as [->|Hp].
  - rewrite bool_decide_true by done. cbn [orb andb]. unfold effectiveTrust.
    destruct (trust e); cbn; try done. destruct (Z.ltb_spec (gen e) (g + 1)); [|lia].
    by destruct (gen e <? floor).
  - rewrite (bool_decide_false (pattern = "")) by done. cbn [orb].
    destruct (matchGlob pattern k); cbn [andb].
    + unfold effectiveTrust. destruct (trust e) eqn:Ht; cbn; rewrite ?Ht; cbn; try done;
        try (by destruct (gen e <? floor)); by (repeat case_decide; rewrite ?Ht).
    + by case_decide.
Qed.

Lemma effective_cleared pattern k e g floor :
  gen e ≤ g → 0 ≤ g → floor ≤ g →
  effectiveTrust (cleared pattern g k e) (if decide (pattern = "") then 0 else floor)
  = (if covers pattern k && bool_decide (effectiveTrust e floor = TrustSuspect) then TrustComplete
     else effectiveTrust e floor).
Proof.
  intros Hge Hg Hfl. unfold cleared. destruct (covers pattern k) eqn:Hc; cbn [andb].
  - assert ((g <? (if decide (pattern = "") then 0 else floor)) = false) as Hlt
      by (apply Z.ltb_ge; case_decide; lia).
    destruct (decide (trust e = TrustSuspect)) as [Hs|Hs].
    { rewrite decide_True by done. unfold effectiveTrust. cbn. by rewrite Hlt, Hs. }
    destruct (decide (trust e = TrustComplete)) as [Ht|Ht].
    { unfold effectiveTrust. cbn. rewrite Ht, Hlt. by destruct (gen e <? floor). }
    unfold effectiveTrust. by destruct (trust e).
  - assert (pattern ≠ "") as Hp by (intros ->; done). by rewrite !decide_False.
Qed.

(** marking and clearing suspicion act pointwise on the effective trust. A mark, be it the
    constant-time one that only moves the generation floor or a glob, turns exactly the covered
    complete keys suspect; a clear turns exactly the covered suspect keys complete; adopted keys,
    values and versions are left alone. *)
Theorem suspicion_is_pointwise o bound pattern k :
  reachable o bound → suspectGen o < max_u64 →
  effective (MarkSuspect o pattern) k
    = (λ t, if covers pattern k && bool_decide (t = TrustComplete) then TrustSuspect else t)
      <$> effective o k
  ∧ effective (ClearSuspect o pattern) k
    = (λ t, if covers pattern k && bool_decide (t = TrustSuspect) then TrustComplete else t)
      <$> effective o k
  ∧ value_of (MarkSuspect o pattern) k = value_of o k ∧ value_of (ClearSuspect o pattern) k = value_of o k
  ∧ Version (MarkSuspect o pattern) k = Version o k ∧ Version (ClearSuspect o pattern) k = Version o k.
Proof.
  intros Hr Hg. apply reachable_ok in Hr as Hok. pose proof (oo_floor _ _ Hok) as Hfl.
  destruct (MarkSuspect_ok o bound pattern Hok Hg) as (_ & Hm & Hmf).
  destruct (ClearSuspect_ok o bound pattern Hok) as (_ & Hc & Hcf).
  assert (∀ e, find o k = Some e → gen e ≤ suspectGen o) as Hge.
  { intros e He. pose proof (get_shard_some o bound k Hok) as Hs.
    destruct (oo_shard _ _ Hok _ _ Hs) as (_ & _ & Hk). by destruct (Hk k e He). }
  assert (find (MarkSuspect o pattern) k
    = (λ e, if decide (pattern = "") then e else marked pattern k e) <$> find o k) as Hm'.
  { rewrite Hm. case_decide; by destruct (find o k). }
  unfold effective, value_of. unfold Version.
  fold (find o k) (find (MarkSuspect o pattern) k) (find (ClearSuspect o pattern) k).
  rewrite Hm', Hc, Hmf, Hcf.
  destruct (find o k) as [e|]; [|done]. specialize (Hge e eq_refl). cbn.
  rewrite effective_marked, effective_cleared by lia.
  split_and!; f_equal; unfold marked, cleared; by repeat case_match.
Qed.

(** ** Counting and listing *)

Definition all_entries (o : Oracle) : list (string * entry) :=
  shards o ≫= λ sh, map_to_list (entries sh).

Lemma elem_of_all_entries o bound k e :
  oracle_ok o bound → (k, e) ∈ all_entries o ↔ find o k = Some e.
Proof.
  intros Hok. unfold all_entries. rewrite list_elem_of_bind. split.
  - intros (sh & Hin & (i & Hi)%list_elem_of_lookup). apply elem_of_map_to_list in Hin.
    rewrite (find_shard o bound i) in Hin by done. by case_decide.
  - intros Hf. exists (get_shard o (shardFor o k)). split; [by apply elem_of_map_to_list|].
    apply list_elem_of_lookup. exists (shardFor o k). by eapply get_shard_some.
Qed.

Definition count_trust (o : Oracle) (t : TrustState) : Z :=
  Z.of_nat (length (filter (λ kv, effectiveTrust kv.2 (suspectFloor o) = t) (all_entries o))).

Lemma msum_filter (p : entry → Prop) `{∀ e, Decision (p e)} (m : gmap string entry) :
  msum (λ e, if decide (p e) then 1 else 0) m
  = Z.of_nat (length (filter (λ kv : string * entry, p kv.2) (map_to_list m))).
Proof.
  rewrite msum_list. induction (map_to_list m) as [|[k e] l IH]; [done|].
  cbn [foldr snd]. rewrite IH, filter_cons. cbn [snd]. case_decide; cbn [length]; lia.
Qed.

Definition count_step (o : Oracle) (now : Time) (acc : list shard * Counts) (sh : shard)
    : list shard * Counts :=
  let '(l, c) := acc in
  let sh := promote sh now (MaxSettlementWindow (cfg o)) in
  let '(settled, never) := countSettled sh now (window o) (neverSettledThreshold o (window o)) in
  (l ++ [sh],
   mkCounts (Total c + len (entries sh)) (Settled c + settled) (InFlight c)
     (NeverSettled c + never) (ByComplete c + fresh sh) (ByAdopted c + adopted sh)
     (BySuspect c + suspectCount sh) (NTruncated c + ntruncated sh)).

(** Each exported number is the sum over the shards of the shard's. *)
Lemma count_fold o now (g : shard → Z) (field : Counts → Z) :
  (∀ l c sh, field (count_step o now (l, c) sh).2
     = field c + g (promote sh now (MaxSettlementWindow (cfg o)))) →
  ∀ shs acc, field (foldl (count_step o now) acc shs).2
    = field acc.2 + foldr (λ sh n, g (promote sh now (MaxSettlementWindow (cfg o))) + n) 0 shs.
Proof.
  intros Hg. induction shs as [|sh shs IH]; intros [l c]; cbn [foldl foldr]; [lia|].
  rewrite IH, Hg. cbn [snd]. lia.
Qed.

Lemma sum_filter_bind (p : string * entry → Prop) `{∀ x, Decision (p x)} (f : shard → list (string * entry)) l :
  Z.of_nat (length (filter p (l ≫= f)))
  = foldr (λ sh n, Z.of_nat (length (filter p (f sh))) + n) 0 l.
Proof.
  induction l as [|sh l IH]; [done|]. cbn [mbind list_bind foldr].
  rewrite filter_app, length_app, <- IH. unfold mbind. lia.
Qed.

Lemma foldr_ext_in {A} (f g : A → Z) (l : list A) :
  (∀ x, x ∈ l → f x = g x) → foldr (λ x n, f x + n) 0 l = foldr (λ x n, g x + n) 0 l.
Proof.
  induction l as [|x l IH]; intros Hfg; [done|]. cbn. rewrite (Hfg x) by (by left).
  rewrite IH; [done|]. intros y Hy. apply Hfg. by right.
Qed.

(** A number summed from the shards counts the entries with a property. *)
Lemma count_entries o bound now (g : shard → Z) (p : entry → Prop) `{∀ e, Decision (p e)} :
  reachable o bound → is_i64 (time_Add now (- MaxSettlementWindow (cfg o))) →
  (∀ sh, counters_ok sh (suspectFloor o) → g sh = msum (λ e, if decide (p e) then 1 else 0) (entries sh)) →
  foldr (λ sh n, g (promote sh now (MaxSettlementWindow (cfg o))) + n) 0 (shards o)
  = Z.of_nat (length (filter (λ kv : string * entry, p kv.2) (all_entries o))).
Proof.
  intros Hr Hi Hg. unfold all_entries. rewrite sum_filter_bind. apply foldr_ext_in.
  intros sh (i & Hsh)%list_elem_of_lookup.
  destruct (oo_shard _ _ (reachable_ok _ _ Hr) i sh Hsh) as (Hsok & _ & _).
  pose proof (promote_ok _ _ _ now (MaxSettlementWindow (cfg o)) Hsok Hi) as Hp.
  rewrite Hg by apply (so_counters _ _ _ _ Hp).
  destruct (promote_fields sh now (MaxSettlementWindow (cfg o))) as (-> & _ & _).
  apply msum_filter.
Qed.

(** the cardinalities exported for metrics are exact: they are computed from counters patched
    on every write and from the settlement index, and they equal what counting the entries one by
    one gives; the three trust classes add up to the total. *)
Theorem counts_are_exact o bound now :
  reachable o bound → is_i64 (time_Add now (- MaxSettlementWindow (cfg o))) →
  let c := (Counts_ o now).2 in
  Total c = Z.of_nat (length (all_entries o))
  ∧ ByComplete c = count_trust o TrustComplete ∧ ByAdopted c = count_trust o TrustAdopted
  ∧ BySuspect c = count_trust o TrustSuspect
  ∧ NTruncated c = Z.of_nat (length (filter (λ kv, truncated kv.2 = true) (all_entries o)))
  ∧ Settled c = Z.of_nat (length (SettledKeys o now).2)
  ∧ InFlight c = Total c - Settled c.
Proof.
  intros Hr Hi. unfold Counts_.
  change (foldl _ ?z (shards o)) with (foldl (count_step o now) z (shards o)).
  set (z := ([], mkCounts 0 0 0 0 0 0 0 0)).
  assert (∀ g field, (∀ l c sh, field (count_step o now (l, c) sh).2
     = field c + g (promote sh now (MaxSettlementWindow (cfg o)))) → field (snd z) = 0 →
     field (foldl (count_step o now) z (shards o)).2
     = foldr (λ sh n, g (promote sh now (MaxSettlementWindow (cfg o))) + n) 0 (shards o)) as Hsum.
  { intros g field Hf Hz. rewrite (count_fold o now g field Hf), Hz. lia. }
  pose proof (Hsum (λ sh, len (entries sh)) Total) as HT.
  pose proof (Hsum fresh ByComplete) as HC. pose proof (Hsum adopted ByAdopted) as HA.
  pose proof (Hsum suspectCount BySuspect) as HS. pose proof (Hsum ntruncated NTruncated) as HN.
  pose proof (Hsum (λ sh, (countSettled sh now (window o) (neverSettledThreshold o (window o))).1)
    Settled) as HX.
  destruct (foldl (count_step o now) z (shards o)) as [l c]. cbn [snd] in *.
  rewrite HT, HC, HA, HS, HN, HX; try (intros; unfold count_step; by destruct (countSettled _ _ _ _)); try done.
  cbn [Total Settled InFlight ByComplete ByAdopted BySuspect NTruncated].
  split_and!.
  - rewrite (count_entries o bound now (λ sh, len (entries sh)) (λ _, True) Hr Hi).
    + f_equal. induction (all_entries o) as [|kv es IH]; [done|].
      rewrite filter_cons, decide_True by done. cbn. by rewrite IH.
    + intros sh _. by rewrite <- msum_const_one.
  - unfold count_trust. rewrite (count_entries o bound now fresh (λ e, effectiveTrust e (suspectFloor o) = TrustComplete) Hr Hi); [done|].
    intros sh Hco. apply (co_fresh _ _ Hco).
  - unfold count_trust. rewrite (count_entries o bound now adopted (λ e, effectiveTrust e (suspectFloor o) = TrustAdopted) Hr Hi); [done|].
    intros sh Hco. apply (co_adopted _ _ Hco).
  - unfold count_trust. rewrite (count_entries o bound now suspectCount (λ e, effectiveTrust e (suspectFloor o) = TrustSuspect) Hr Hi); [done|].
    intros sh Hco. by apply suspectCount_exact.
  - rewrite (count_entries o bound now ntruncated (λ e, truncated e = true) Hr Hi); [done|].
    intros sh Hco. rewrite (co_truncated _ _ Hco). apply msum_ext. intros k e _.
    unfold is_truncated. by destruct (truncated e).
  - clear Hsum HT HC HA HS HN HX. rewrite SettledKeys_eq. unfold promoted. cbn [snd shards set_shards].
    induction (shards o) as [|sh shs IH]; [done|]. cbn [foldr fmap list_fmap mbind list_bind].
    rewrite length_app, IH, countSettled_eq. cbn [fst]. unfold mbind, fmap. lia.
  - done.
Qed.

Lemma NoDup_bind_lookup {A} (f : A → list string) (l : list A) :
  (∀ i j x y k, l !! i = Some x → l !! j = Some y → k ∈ f x → k ∈ f y → i = j) →
  (∀ x, x ∈ l → NoDup (f x)) → NoDup (l ≫= f).
Proof.
  induction l as [|x l IH]; intros Hd Hf; [constructor|]. cbn [mbind list_bind].
  apply NoDup_app. split_and!.
  - apply Hf. by left.
  - intros k Hk (y & Hy & (j & Hj)%list_elem_of_lookup)%list_elem_of_bind.
    specialize (Hd 0%nat (S j) x y k eq_refl Hj Hk Hy). lia.
  - apply IH; [|intros; apply Hf; by right]. intros i j y z k Hi Hj Hky Hkz.
    specialize (Hd (S i) (S j) y z k Hi Hj Hky Hkz). lia.
Qed.

(** a sweep is offered every settled key exactly once and nothing else, whatever order the maps
    are walked in and however often keys were promoted before. *)
Theorem sweep_sees_each_settled_key_once o bound now :
  reachable o bound → is_i64 (time_Add now (- MaxSettlementWindow (cfg o))) →
  bound ≤ time_Add now (- MaxSettlementWindow (cfg o)) →
  NoDup (SettledKeys o now).2
  ∧ ∀ k, k ∈ (SettledKeys o now).2
      ↔ ∃ e, find o k = Some e ∧ isSettled e now (window o) (neverSettledThreshold o (window o)) = true.
Proof.
  intros Hr Hi Hb. apply reachable_ok in Hr as Hok.
  destruct (promoted_ok o bound now Hok Hi) as [Hok' Hfind].
  set (h := time_Add now (- MaxSettlementWindow (cfg o))) in *.
  pose proof (oo_window _ _ Hok) as Hw. rewrite SettledKeys_eq. cbn [snd].
  assert (∀ i sh k, shards (promoted o now) !! i = Some sh →
    k ∈ settledKeys sh [] now (window o) (neverSettledThreshold o (window o)) ↔
    shardFor (promoted o now) k = i ∧ ∃ e, find o k = Some e
      ∧ isSettled e now (window o) (neverSettledThreshold o (window o)) = true) as Hin.
  { intros i sh k Hsh. destruct (oo_shard _ _ Hok' i sh Hsh) as (Hsok & _ & _).
    rewrite (elem_of_settledKeys sh _ _ now _ _ k Hsok)
      by (unfold window, time_Add in *; subst h; lia).
    rewrite (find_shard (promoted o now) _ i sh k Hok' Hsh), Hfind.
    case_decide; [naive_solver|]. split; [by intros (e & ? & _)|naive_solver]. }
  split.
  - apply NoDup_bind_lookup.
    + intros i j x y k Hx Hy [<- _]%(Hin i x k Hx) [<- _]%(Hin j y k Hy). done.
    + intros sh (i & Hsh)%list_elem_of_lookup. destruct (oo_shard _ _ Hok' i sh Hsh) as (Hsok & _ & _).
      apply NoDup_settledKeys, (so_index _ _ _ _ Hsok).
  - intros k. rewrite list_elem_of_bind. split.
    + intros (sh & Hk & (i & Hsh)%list_elem_of_lookup). exact (proj2 (proj1 (Hin i sh k Hsh) Hk)).
    + intros Hk. exists (get_shard (promoted o now) (shardFor (promoted o now) k)).
      pose proof (get_shard_some (promoted o now) _ k Hok') as Hsh.
      split; [|by apply list_elem_of_lookup_2 in Hsh]. by apply (Hin _ _ k Hsh).
Qed.
End oracle.

(** ** Closed examples *)

(** A hash that sends every key to the same shard. *)
Lemma is_u64_zero : is_u64 0.
Proof. split; discriminate. Qed.

Definition constant_hash : XXHash :=
  {| Sum64String := λ _, 0; Sum64String_u64 := λ _, is_u64_zero |}.

Definition tiny_config (maxKeys : Z) : Config :=
  mkConfig 1 maxKeys 2 false time_Second 10 (5 * time_Second) time_Second.
Definition upsert (k v : string) : Mutation := mkMutation k ActionUpsert (scalar_value v) None false false.
Definition at_second (n : Z) (k : string) : Event.t :=
  Event.mk "pub" 1 n 0 (n * time_Second) "topic" OpSet k "" None 0 None None.
Definition write (n : Z) (k v : string) : op := OpApply 0 (upsert k v) (at_second n k) Accept TrustComplete.

Definition run (o : Oracle) (l : list op) : Oracle :=
  foldl (step (H := constant_hash) (H0 := ascending_order)) o l.

(** the version is reused across an eviction: a key that is evicted and created again starts
    over at version 1, so a reader that fences on the version can see the same version with a
    different value. *)
Theorem eviction_reuses_versions :
  let o1 := run (New (tiny_config 1)) [write 1 "k" "old"] in
  let o2 := run o1 [write 2 "other" "x"; write 3 "k" "new"] in
  Version (H := constant_hash) o1 "k" = Some 1 ∧ Version (H := constant_hash) o2 "k" = Some 1
  ∧ value_of (H := constant_hash) o1 "k" = Some (scalar_value "old")
  ∧ value_of (H := constant_hash) o2 "k" = Some (scalar_value "new").
Proof. split_and!; vm_compute; reflexivity. Qed.

(** ** Witnesses *)

#[local] Existing Instance constant_hash.
#[local] Existing Instance ascending_order.

Definition sample_oracle : Oracle := run (New (tiny_config 2)) [write 1 "k" "v"; write 2 "j" "w"].

Lemma sample_oracle_reachable : reachable sample_oracle 0.
Proof.
  apply (reachable_step _ 0 (write 2 "j" "w")); [|by vm_compute].
  apply (reachable_step _ 0 (write 1 "k" "v")); [constructor|by vm_compute].
Qed.

Lemma oracle_within_budget_witness :
  0 ≤ Len sample_oracle ≤ MaxTrackedKeys (cfg sample_oracle) ∧ Len sample_oracle = 2.
Proof. split; [exact (oracle_within_budget _ 0 sample_oracle_reachable)|by vm_compute]. Defined.

Lemma apply_then_get_witness :
  let '(o', res) := Apply 0 sample_oracle (upsert "k" "v2") (at_second 3 "k") Accept TrustComplete in
  ∃ out, Get (4 * time_Second) o' "k" = Some out ∧ Shard.Version out = 2.
Proof.
  assert (touches (upsert "k" "v2")) as Ht by done.
  assert (is_i64 (observedAt 0 (at_second 3 "k"))) as Hi by (by vm_compute).
  pose proof (apply_then_get sample_oracle 0 0 (upsert "k" "v2") (at_second 3 "k") Accept TrustComplete
    (4 * time_Second) sample_oracle_reachable Ht Hi) as Hw.
  destruct (Apply 0 sample_oracle (upsert "k" "v2") (at_second 3 "k") Accept TrustComplete) as [o' res].
  destruct Hw as [(out & Hout & Hver & _) _].
  exists out. split; [exact Hout|]. rewrite Hver. by vm_compute.
Defined.


Lemma suspicion_is_pointwise_witness :
  effective (MarkSuspect sample_oracle "") "k" = Some TrustSuspect
  ∧ effective (MarkSuspect sample_oracle "j*") "k" = Some TrustComplete.
Proof.
  split.
  - rewrite (proj1 (suspicion_is_pointwise sample_oracle 0 "" "k" sample_oracle_reachable
      ltac:(by vm_compute))). by vm_compute.
  - rewrite (proj1 (suspicion_is_pointwise sample_oracle 0 "j*" "k" sample_oracle_reachable
      ltac:(by vm_compute))). by vm_compute.
Defined.

Lemma counts_are_exact_witness :
  let c := (Counts_ sample_oracle (3 * time_Second)).2 in
  BySuspect c = count_trust sample_oracle TrustSuspect ∧ InFlight c = Total c - Settled c.
Proof.
  destruct (counts_are_exact sample_oracle 0 (3 * time_Second) sample_oracle_reachable
    ltac:(by vm_compute)) as (_ & _ & _ & H1 & _ & _ & H2).
  split; [exact H1|exact H2].
Defined.

Lemma sweep_sees_each_settled_key_once_witness :
  "k" ∈ (SettledKeys sample_oracle (5 * time_Second)).2.
Proof.
  apply (sweep_sees_each_settled_key_once sample_oracle 0 (5 * time_Second) sample_oracle_reachable
    ltac:(by vm_compute) ltac:(by vm_compute)).
  eexists. split; [vm_compute; reflexivity|by vm_compute].
Defined.
