(* ===== verification/Target.v ===== *)
(** * Target: what the program asks of the audited store (pkg/target/target.go)

    The outcomes of reads and health checks, and the command allowlist that
    keeps every implementation read-only. The stores themselves are behind the
    [Target] interface; the sweeper's model takes their answers as inputs. *)
From S2P Require Import Prelude GoBase GoStrings Event Projection.

(** An error of a read: the key holds another type, or the store did not answer. *)
Inductive read_error := WrongTypeError (got : string) | TransportError.

#[export] Instance read_error_eq_dec : EqDecision read_error.
Proof. solve_decision. Defined.

Record Read := mkRead { ReadValue : Value; ReadErr : option read_error }.

Record Health := mkHealth {
  Reachable : bool;
  EvictedKeys : Z;
  ExpiredKeys : Z;
  UsedMemoryBytes : Z;
  MaxMemoryBytes : Z;
  KeyspaceSize : Z;
  Role : string;
  ReplicationLagMs : Z;
  HealthVersion : string
}.

Definition readOnlyCommands : list string :=
  ["GET"; "SMEMBERS"; "SCAN"; "TYPE"; "TTL"; "PTTL"; "EXISTS"; "HGETALL"; "INFO"; "STRLEN";
   "SCARD"; "MEMORY"; "DBSIZE"].

Definition connectionCommands : list string :=
  ["HELLO"; "AUTH"; "SELECT"; "PING"; "ECHO";
   "CLIENT SETINFO"; "CLIENT SETNAME"; "CLIENT GETNAME"; "CLIENT ID"; "CLIENT INFO";
   "CLIENT MAINT_NOTIFICATIONS";
   "CLUSTER SLOTS"; "CLUSTER SHARDS"; "CLUSTER NODES"; "CLUSTER INFO"; "CLUSTER MYID"].

(** [verb[:strings.IndexByte(verb, ' ')]], or all of it without a blank. *)
Fixpoint first_word (s : string) : string :=
  match s with
  | "" => ""
  | String c s => if byte_of c =? 32 then "" else String c (first_word s)
  end.

Definition IsReadOnlyCommand `{UnicodeTables} (name : string) : bool :=
  let upper := strings_ToUpper (TrimSpace name) in
  if decide (upper = "") then false
  else if decide (upper ∈ connectionCommands) then true
  else bool_decide (first_word upper ∈ readOnlyCommands).

Definition ReadOnlyCommands : list string := sort_Strings readOnlyCommands.
Definition ConnectionCommands : list string := sort_Strings connectionCommands.

Definition valuesFromReads (reads : list Read) : list Value :=
  (λ r, match ReadErr r with None => ReadValue r | Some _ => absent end) <$> reads.

(** ** Properties *)

(** Commands of the store that write, or that stop, reconfigure or flush it. *)
Definition mutating_verbs : list string :=
  ["SET"; "SETNX"; "SETEX"; "PSETEX"; "GETSET"; "GETDEL"; "GETEX"; "APPEND"; "SETRANGE"; "MSET";
   "DEL"; "UNLINK"; "RENAME"; "MOVE"; "COPY"; "RESTORE"; "EXPIRE"; "PEXPIRE"; "EXPIREAT"; "PERSIST";
   "INCR"; "INCRBY"; "DECR"; "DECRBY"; "SADD"; "SREM"; "SPOP"; "SMOVE"; "SUNIONSTORE";
   "HSET"; "HDEL"; "HINCRBY"; "LPUSH"; "RPUSH"; "LPOP"; "RPOP"; "LREM"; "LTRIM"; "ZADD"; "ZREM";
   "XADD"; "XDEL"; "PUBLISH"; "EVAL"; "EVALSHA"; "FCALL"; "SCRIPT"; "FLUSHDB"; "FLUSHALL";
   "SHUTDOWN"; "CONFIG"; "DEBUG"; "MIGRATE"; "REPLICAOF"; "SLAVEOF"; "SWAPDB"; "KEYS"].

Lemma mutating_not_allowed :
  Forall (λ v, v ∉ (first_word <$> connectionCommands) ++ readOnlyCommands) mutating_verbs.
Proof. apply (bool_decide_unpack _). by vm_compute. Qed.

(** a command that writes is refused whatever its arguments, its letter case and the blanks
    around it; so are the subcommands of CLIENT and CLUSTER that are not listed. *)
Theorem mutating_commands_refused `{UnicodeTables} name :
  first_word (strings_ToUpper (TrimSpace name)) ∈ mutating_verbs
  ∨ (first_word (strings_ToUpper (TrimSpace name)) ∈ ["CLIENT"; "CLUSTER"]
     ∧ strings_ToUpper (TrimSpace name) ∉ connectionCommands) →
  IsReadOnlyCommand name = false.
Proof.
  unfold IsReadOnlyCommand. set (u := strings_ToUpper (TrimSpace name)). intros Hu.
  case_decide as He; [done|]. destruct Hu as [Hm|[Hc Hn]].
  - pose proof mutating_not_allowed as Hna. rewrite Forall_forall in Hna.
    specialize (Hna _ Hm). rewrite elem_of_app in Hna. rewrite decide_False.
    + apply bool_decide_false. tauto.
    + intros Hu. apply Hna. left. apply list_elem_of_fmap. eauto.
  - rewrite decide_False by done. apply bool_decide_false. intros Hr.
    repeat (apply elem_of_cons in Hc as [Hc|Hc]; [rewrite Hc in Hr; revert Hr;
      apply (bool_decide_unpack (_ ∉ _)); by vm_compute|]). by apply elem_of_nil in Hc.
Qed.

Lemma mutating_commands_refused_witness :
  @IsReadOnlyCommand caseless " set k v" = false ∧ @IsReadOnlyCommand caseless "client kill 1" = false
  ∧ @IsReadOnlyCommand caseless "smembers k" = true ∧ @IsReadOnlyCommand caseless "Client SetInfo" = true.
Proof.
  split_and!; [apply (@mutating_commands_refused caseless); left; apply (bool_decide_unpack _); by vm_compute
    |apply (@mutating_commands_refused caseless); right; split; apply (bool_decide_unpack _); by vm_compute
    |by vm_compute|by vm_compute].
Defined.
