(* ===== verification/Explain.v ===== *)
(** * Explain: what happened to one key (pkg/explain/explain.go, rules.go)

    Everything known about a key is gathered from the oracle, the store and the
    sequence tracker, a verdict is decided, and every rule of the table says its
    part. The store answers through a record, the clock through its readings. *)
From Stdlib Require Import Ascii String.
From stdpp Require Import pretty strings sorting.
From S2P Require Import Prelude GoBase GoFloat GoStrings GoTime FloatFormat.
From S2P Require Import Event Projection GapSet SeqTrack Ring Shard Oracle Target.

(** ** Vocabulary *)

Inductive Verdict :=
  | VerdictAgree | VerdictDiverged | VerdictInFlight | VerdictSuspect | VerdictUnknownKey
  | VerdictTargetUnavailable.

#[export] Instance Verdict_eq_dec : EqDecision Verdict.
Proof. solve_decision. Defined.

Definition Verdict_String (v : Verdict) : string :=
  match v with
  | VerdictAgree => "AGREE"
  | VerdictDiverged => "DIVERGED"
  | VerdictInFlight => "IN FLIGHT"
  | VerdictSuspect => "SUSPECT"
  | VerdictUnknownKey => "UNKNOWN KEY"
  | VerdictTargetUnavailable => "TARGET UNAVAILABLE"
  end.

Inductive Confidence := ConfidenceLow | ConfidenceMedium | ConfidenceHigh.

#[export] Instance Confidence_eq_dec : EqDecision Confidence.
Proof. solve_decision. Defined.

Definition Confidence_String (c : Confidence) : string :=
  match c with ConfidenceLow => "low" | ConfidenceMedium => "medium" | ConfidenceHigh => "high" end.

(** The number behind the constant. *)
Definition confidence_rank (c : Confidence) : Z :=
  match c with ConfidenceLow => 0 | ConfidenceMedium => 1 | ConfidenceHigh => 2 end.

Definition CodeAgree : string := "AGREE".
Definition CodeInFlight : string := "IN_FLIGHT".
Definition CodeSeqGapAffectingPublisher : string := "SEQ_GAP_AFFECTING_PUBLISHER".
Definition CodeMissingInTargetNoGaps : string := "MISSING_IN_TARGET_NO_GAPS".
Definition CodeExtraInTarget : string := "EXTRA_IN_TARGET".
Definition CodePublisherRestarted : string := "PUBLISHER_RESTARTED".
Definition CodeTargetEvictionLikely : string := "TARGET_EVICTION_LIKELY".
Definition CodeTTLExpired : string := "TTL_EXPIRED".
Definition CodeTypeMismatch : string := "TYPE_MISMATCH".
Definition CodeClockSkewHigh : string := "CLOCK_SKEW_HIGH".
Definition CodeMemberSubset : string := "MEMBER_SUBSET".
Definition CodeMemberSuperset : string := "MEMBER_SUPERSET".
Definition CodeHistoryTruncated : string := "HISTORY_TRUNCATED".
Definition CodeNoHistory : string := "NO_HISTORY".

Record Diagnosis := mkDiagnosis {
  Code : string;
  DConfidence : Confidence;
  Statement : string;
  Evidence : list string
}.

Record Step := mkStep {
  Index : nat;
  StepEvent : Event.t;
  StepVerdict : SeqTrack.Verdict;
  ValueAfter : Value;
  StepVersion : Z;
  StepAppliedAt : Time;
  DeltaFromPrev : Duration;
  Note : string
}.

(** ** The explanation, by the step that fills it in *)

(** readOracle; the zero entry for a key it does not know. *)
Record OracleSide := mkOracleSide {
  KnownToOracle : bool;
  OracleValue : Value;
  OracleVersion : Z;
  OracleTrust : TrustState;
  OracleTTL : option Duration;
  XLastEventAt : Time;
  XHistory : list Step;
  HistoryTruncated : bool
}.

(** readTarget; TargetType is empty unless the store holds another type. *)
Record TargetSide := mkTargetSide {
  TargetReachable : bool;
  TargetReadAt : Time;
  TargetValue : Value;
  TargetType : string;
  TargetTTL : option Duration;
  TargetHealth : Health
}.

Record Explanation := mkExplanation {
  XKey : string;
  GeneratedAt : Time;
  SettlementWindow : Duration;
  XShape : Shape;
  oside : OracleSide;
  tside : TargetSide;
  PublisherStates : list PublisherState;
  MissingMembers : list string;
  ExtraMembers : list string;
  MissingMemberCount : nat;
  ExtraMemberCount : nat;
  XSettled : bool;
  XVerdict : Verdict;
  XDiagnosis : list Diagnosis
}.

(** What the store answers to Get, TTL and Health; [None] is an error. *)
Record TargetAnswers := mkAnswers {
  AnsGet : read_error + Value;
  AnsTTL : option (option Duration);
  AnsHealth : option Health
}.

(** The readings of the clock stand for it: the explanation's, the oracle's own and the one the target
    was read at. A nil oracle, target or tracker is [None]. *)
Record Input := mkInput {
  InKey : string;
  InOracle : option Oracle;
  InTarget : option TargetAnswers;
  InSeqTrack : option Tracker;
  InShape : Shape;
  InWindow : Duration;
  InNow : Time;
  InOracleNow : Time;
  InReadAt : Time;
  InRingSize : Z;
  EvictionsSinceLastSweep : Z;
  MaxMembersShown : Z;
  MaxHistoryShown : Z
}.

Definition defaultMembersShown : Z := 8.
Definition defaultHistoryShown : Z := 8.

Definition input_applyDefaults (i : Input) : Input :=
  mkInput (InKey i) (InOracle i) (InTarget i) (InSeqTrack i) (InShape i) (InWindow i) (InNow i) (InOracleNow i)
    (InReadAt i) (InRingSize i) (EvictionsSinceLastSweep i)
    (if MaxMembersShown i <=? 0 then defaultMembersShown else MaxMembersShown i)
    (if MaxHistoryShown i <=? 0 then defaultHistoryShown else MaxHistoryShown i).

(** ** Reading the sides *)

Definition step_note (v : SeqTrack.Verdict) : string :=
  if decide (v = AcceptWithGap) then "a gap precedes this event: earlier sequence numbers were never seen"
  else if decide (v = AcceptAfterRestart) then "the publisher restarted before this event"
  else "".

(** The loop over the history, [prev] being the entry before. *)
Fixpoint history_steps (i : nat) (prev : option HistoryEntry) (history : list HistoryEntry) : list Step :=
  match history with
  | [] => []
  | h :: history =>
      mkStep i (HEvent h) (HVerdict h) (ResultValue h) (HVersion h) (AppliedAt h)
        (match prev with Some p => time_Sub (AppliedAt h) (AppliedAt p) | None => 0 end)
        (step_note (HVerdict h))
      :: history_steps (S i) (Some h) history
  end.

Definition noHealth : Health := mkHealth false 0 0 0 0 0 "" 0 "".

Section explain.
Context `{XXHash} `{MapOrder}.

Definition readOracle (i : Input) (o : Oracle) : OracleSide :=
  let history := History o (InKey i) in
  let steps := history_steps 0 None history in
  let full := (0 <? InRingSize i) && (InRingSize i <=? Z.of_nat (length history)) in
  match Get (InOracleNow i) o (InKey i) with
  | Some en => mkOracleSide true (EntValue en) (Shard.Version en) (Shard.Trust en) (EntTTL en) (LastEventAt en) steps full
  | None => mkOracleSide false absent 0 TrustComplete None zero_time steps full
  end.

Definition readTarget (i : Input) : TargetSide :=
  match InTarget i with
  | None => mkTargetSide false zero_time absent "" None noHealth
  | Some ans =>
      let finish value type_ :=
        mkTargetSide true (InReadAt i) value type_ (default None (AnsTTL ans)) (default noHealth (AnsHealth ans)) in
      match AnsGet ans with
      | inr value => finish value ""
      | inl (WrongTypeError got) => finish absent got
      | inl TransportError => mkTargetSide false (InReadAt i) absent "" None noHealth
      end
  end.

(** Publishers is already sorted by ID, and sorting it again changes nothing. *)
Definition readPublishers (i : Input) : list PublisherState :=
  match InSeqTrack i with None => [] | Some t => merge_sort id_le (Publishers t) end.

(** [for m := range a]: the members missing from [b], sorted. *)
Definition difference (a b : gset string) : list string :=
  sort_Strings (List.filter (λ m, negb (bool_decide (m ∈ b))) (range_set a)).

(** [members[:limit]] of a longer list; a negative limit does not occur. *)
Definition truncate (members : list string) (limit : Z) : list string :=
  if Z.of_nat (length members) <=? limit then members else take (Z.to_nat limit) members.

(** The missing and the extra members, empty unless a side is a set. *)
Definition member_diff (ov tv : Value) : list string * list string :=
  if negb (bool_decide (Kind ov = ValueSet)) && negb (bool_decide (Kind tv = ValueSet)) then ([], [])
  else (difference (members_of ov) (members_of tv), difference (members_of tv) (members_of ov)).

(** ** The verdict *)

Definition settledAt (lastEventAt : Time) (window : Duration) (now : Time) : bool :=
  if IsZero lastEventAt then true else time_Sub now lastEventAt >? window.

Definition decideVerdict (os : OracleSide) (ts : TargetSide) (settled : bool) : Verdict :=
  if negb (KnownToOracle os) && Value_IsAbsent (TargetValue ts) && bool_decide (TargetType ts = "") then VerdictUnknownKey
  else if negb (TargetReachable ts) then VerdictTargetUnavailable
  else if negb (bool_decide (TargetType ts = "")) then VerdictDiverged
  else if Value_Equal (OracleValue os) (TargetValue ts) then VerdictAgree
  else if negb settled then VerdictInFlight
  else if decide (OracleTrust os = TrustSuspect) then VerdictSuspect
  else VerdictDiverged.
End explain.
