(* ===== verification/GoText.v ===== *)
(** * GoText: Duration.String, strconv.ParseFloat of every literal, strings.Cut by a string

    What the configuration is rendered with and read by: the rest of GoTime's
    ParseFloat (hexadecimal literals and the names of the infinities and of NaN) and
    the other direction of its ParseDuration. *)
From Stdlib Require Import Ascii String.
From stdpp Require Import pretty strings.
From S2P Require Import Prelude GoBase GoFloat GoStrings GoTime GoFormat.

(** ** Duration.String *)

(** fmtFrac: the last [prec] digits without their trailing zeros, and what is left of [v]. *)
Fixpoint fmtFrac (prec : nat) (v : Z) (print : bool) (acc : string) : string * Z :=
  match prec with
  | 0%nat => (if print then String "." acc else acc, v)
  | S prec =>
      let digit := v mod 10 in
      let print := print || negb (digit =? 0) in
      fmtFrac prec (v / 10) print (if print then String (ascii_of (48 + digit)) acc else acc)
  end.

Definition micro : string := String (ascii_of 194) (String (ascii_of 181) "").

Definition Duration_String (d : Duration) : string :=
  let u := Z.abs d in
  let unit prec name := let '(f, v) := fmtFrac prec u false name in FormatInt v +:+ f in
  let s :=
    if u =? 0 then "0s"
    else if u <? 1000 then unit 0%nat "ns"
    else if u <? 10 ^ 6 then unit 3%nat (micro +:+ "s")
    else if u <? time_Second then unit 6%nat "ms"
    else
      let '(f, v) := fmtFrac 9 u false "s" in
      let secs := FormatInt (v mod 60) +:+ f in
      let v := v / 60 in
      if v =? 0 then secs
      else
        let mins := FormatInt (v mod 60) +:+ "m" +:+ secs in
        let v := v / 60 in
        if v =? 0 then mins else FormatInt v +:+ "h" +:+ mins in
  if d <? 0 then "-" +:+ s else s.

Example duration_strings :
  Duration_String 0 = "0s" /\ Duration_String (90 * time_Second) = "1m30s" /\ Duration_String (5 * time_Minute) = "5m0s"
  /\ Duration_String 1500 = "1.5" +:+ micro +:+ "s" /\ Duration_String (- 3600000000001) = "-1h0m0.000000001s"
  /\ Duration_String 250000000 = "250ms" /\ Duration_String 7 = "7ns".
Proof. by vm_compute. Qed.

(** ** strconv.ParseFloat(s, 64) *)

Definition ascii_lower (c : ascii) : ascii := if in_range 65 90 (byte_of c) then ascii_of (byte_of c + 32) else c.
Fixpoint lower (s : string) : string :=
  match s with "" => "" | String c s => String (ascii_lower c) (lower s) end.

(** special: the names, in any case; only the infinities take a sign. *)
Definition float_name (s : string) : option float64 :=
  let signed neg r :=
    if bool_decide (lower r = "inf") || bool_decide (lower r = "infinity") then Some (S754_infinity neg) else None in
  match s with
  | String "-" r => signed true r
  | String "+" r => signed false r
  | _ => if bool_decide (lower s = "nan") then Some S754_nan else signed false s
  end.

(** underscoreOK, from the byte class it has seen: '0' a digit, '_' an underscore, '!' anything else. *)
Definition is_digit_of (hex : bool) (c : ascii) : bool :=
  in_range 48 57 (byte_of c) || hex && in_range 97 102 (byte_of (ascii_lower c)).
Fixpoint underscores_ok (hex : bool) (seen : ascii) (s : string) : bool :=
  match s with
  | "" => negb (Ascii.eqb seen "_")
  | String c s =>
      if is_digit_of hex c then underscores_ok hex "0" s
      else if Ascii.eqb c "_" then if Ascii.eqb seen "0" then underscores_ok hex "_" s else false
      else if Ascii.eqb seen "_" then false else underscores_ok hex "!" s
  end.

(** The digits of a hexadecimal mantissa: the number, the digits behind the point and the rest. *)
Fixpoint hex_mantissa (s : string) (n frac : Z) (dot any : bool) : option (Z * Z * string) :=
  match s with
  | String c s' =>
      if Ascii.eqb c "_" then hex_mantissa s' n frac dot any
      else if Ascii.eqb c "." && negb dot then hex_mantissa s' n frac true any
      else if is_digit_of true c then
        let d := if in_range 48 57 (byte_of c) then byte_of c - 48 else byte_of (ascii_lower c) - 87 in
        hex_mantissa s' (16 * n + d) (if dot then frac + 1 else frac) dot true
      else if any then Some (n, frac, s) else None
  | "" => if any then Some (n, frac, "") else None
  end.

(** The exponent of a hexadecimal literal, which must be there; its digits may have underscores. *)
Definition hex_exponent (s : string) : option Z :=
  match s with
  | String c s' =>
      if negb (Ascii.eqb (ascii_lower c) "p") then None
      else
        let '(neg, ds) := match s' with String "-" r => (true, r) | String "+" r => (false, r) | _ => (false, s') end in
        match ds with
        | String c0 _ =>
            if negb (in_range 48 57 (byte_of c0)) then None
            else
              let digits := String.concat "" (strings_Split ds "_") in
              let '(es, rest) := span_digits digits in
              if bool_decide (rest = "") then let e := exponent_value es 0 in Some (if neg then - e else e) else None
        | "" => None
        end
  | "" => None
  end.

Definition hex_float (neg : bool) (s : string) : option float64 :=
  '(n, frac, rest) ← hex_mantissa s 0 0 false false;
  e ← hex_exponent rest;
  if negb (underscores_ok true "0" s) then None
  else
    match n with
    | Zpos _ =>
        match binary_normalize 53 1024 (if neg then - n else n) (e - 4 * frac) neg with
        | S754_infinity _ => None
        | f => Some f
        end
    | _ => Some (S754_zero neg)
    end.

(** [None] is the error, of syntax or of range. *)
Definition strconv_ParseFloat (s : string) : option float64 :=
  match float_name s with
  | Some f => Some f
  | None =>
      let '(neg, r) := match s with String "-" r => (true, r) | String "+" r => (false, r) | _ => (false, s) end in
      match r with
      | String "0" (String x r') => if Ascii.eqb (ascii_lower x) "x" then hex_float neg r' else ParseFloat s
      | _ => ParseFloat s
      end
  end.

Example parse_floats :
  strconv_ParseFloat "NaN" = Some S754_nan /\ strconv_ParseFloat "-Inf" = Some (S754_infinity true)
  /\ strconv_ParseFloat "0x1p-1" = Some (float_lit 1 2) /\ strconv_ParseFloat "0x_1.8p1" = Some (float_of_Z 3)
  /\ strconv_ParseFloat "2.0" = Some (float_of_Z 2) /\ strconv_ParseFloat "1_0" = None /\ strconv_ParseFloat "0x1" = None.
Proof. by vm_compute. Qed.

(** ** strconv.Quote *)

(** strconv.IsPrint above ASCII follows the Unicode tables. *)
Class UnicodePrint := { IsPrint_wide : Z → bool }.

Fixpoint hex_digits (n : nat) (v : Z) (acc : string) : string :=
  match n with 0%nat => acc | S n => hex_digits n (v / 16) (String (hex_digit (v mod 16)) acc) end.

Definition backslash (s : string) : string := String (ascii_of 92) s.

(** appendEscapedRune, for a rune and the bytes it was decoded from. *)
Definition quote_rune `{UnicodePrint} (rc : Z * string) : string :=
  let '(r, bytes) := rc in
  if (r =? RuneError) && (String.length bytes =? 1)%nat then
    backslash (String "x" (hex_EncodeToString bytes))
  else if (r =? 34) || (r =? 92) then backslash (EncodeRune r)
  else if (if r <? 128 then in_range 32 126 r else IsPrint_wide r) then EncodeRune r
  else if r =? 7 then backslash "a" else if r =? 8 then backslash "b" else if r =? 12 then backslash "f"
  else if r =? 10 then backslash "n" else if r =? 13 then backslash "r" else if r =? 9 then backslash "t"
  else if r =? 11 then backslash "v"
  else if (r <? 32) || (r =? 127) then backslash (String "x" (hex_digits 2 r ""))
  else if r <? 65536 then backslash (String "u" (hex_digits 4 r ""))
  else backslash (String "U" (hex_digits 8 r "")).

Definition strconv_Quote `{UnicodePrint} (s : string) : string :=
  String (ascii_of 34) (concat_strings (quote_rune <$> rune_chunks s) +:+ String (ascii_of 34) "").

(** ** strings.Cut by a separator of any length *)

(** The first place of [sep] in [s]: what is before it and after it. *)
Fixpoint strings_CutString (s sep : string) : string * string * bool :=
  if HasPrefix sep s then ("", string_drop (String.length sep) s, true)
  else match s with
       | "" => ("", "", false)
       | String c s' => let '(before, after, found) := strings_CutString s' sep in (String c before, after, found)
       end.

(** strings.TrimSuffix *)
Definition TrimSuffix (s suffix : string) : string :=
  let n := (String.length s - String.length suffix)%nat in
  if bool_decide (string_drop n s = suffix) && (String.length suffix <=? String.length s)%nat then string_take n s else s.

Example cut_scheme : strings_CutString "tcp://host:1" "://" = ("tcp", "host:1", true).
Proof. reflexivity. Qed.
