(* ===== verification/ExplainRules.v ===== *)
(** * ExplainRules: the diagnoses (pkg/explain/rules.go, readNote of render.go)

    One definition per rule of the table, the sentences included, and the
    ordering of what fires. Rendering a duration recurses once on a negative
    one; on the smallest it never ends, which is [None] throughout. *)
From Stdlib Require Import Ascii String.
From stdpp Require Import pretty strings sorting.
From S2P Require Import Prelude GoBase GoFloat GoStrings GoTime GoFormat GoText FloatFormat.
From S2P Require Import Event Projection GapSet SeqTrack Ring Shard Oracle Target Explain.

(** ** Helpers *)

(** %02d of a number that is not negative. *)
Definition two_digits_of (n : Z) : string := pad_left 2 "0" (pretty n).

Definition micro : string := String (ascii_of 194) (String (ascii_of 181) "s").

(** compact of a duration that is not negative. *)
Definition compact_pos (d : Duration) : string :=
  if d <? time_Millisecond then pretty (Z.quot d 1000) +:+ micro
  else if d <? time_Second then pretty (Z.quot d time_Millisecond) +:+ "ms"
  else if d <? time_Minute then TrimSuffix (FormatFixed 1 (Seconds d)) ".0" +:+ "s"
  else if d <? time_Hour then
    pretty (float_whole (Minutes d)) +:+ "m" +:+ two_digits_of (Z.rem (float_whole (Seconds d)) 60) +:+ "s"
  else
    pretty (float_whole (Hours d)) +:+ "h" +:+ two_digits_of (Z.rem (float_whole (Minutes d)) 60) +:+ "m".

(** The recursion, with the depth given to it: [None] is deeper. *)
Fixpoint compact_depth (depth : nat) (d : Duration) : option string :=
  if d <? 0 then
    match depth with
    | O => None
    | S depth => s ← compact_depth depth (i64 (- d)); Some ("-" +:+ s)
    end
  else Some (compact_pos d).

(** One recursion is enough for every duration but the smallest, for which none is. *)
Definition compact (d : Duration) : option string := compact_depth 1 d.

Definition plural (n : nat) (noun : string) : string :=
  pretty (Z.of_nat n) +:+ " " +:+ noun +:+ (if (n =? 1)%nat then "" else "s").

Definition duration_abs (d : Duration) : Duration := if d <? 0 then i64 (- d) else d.
Definition maxInt (a b : Z) : Z := if a >? b then a else b.

Definition memoryPressure (used limit : Z) : Z := if limit =? 0 then 0 else i64 (u64 (used * 100) / limit).

(** The loop of bytesHuman: at most four rounds. *)
Fixpoint human_scale (rounds : nat) (v div : Z) (exp : nat) : Z * nat :=
  match rounds with
  | O => (div, exp)
  | S rounds => if 1024 <=? v then human_scale rounds (v / 1024) (u64 (div * 1024)) (S exp) else (div, exp)
  end.

(** float64(n) of an unsigned number. *)
Definition bytesHuman (n : Z) : string :=
  if n <? 1024 then pretty n +:+ "B"
  else
    let '(div, exp) := human_scale 4 (n / 1024) 1024 0 in
    FormatFixed 1 (float_div (float_of_Z n) (float_of_Z div)) +:+ string_take 1 (string_drop exp "KMGTP") +:+ "iB".

Definition expectedRedisType (s : Shape) : string :=
  match s with ShapeSet => "set" | ShapeCounter => "string holding an integer" | ShapeScalar => "string" end.

(** time.RFC3339 of an instant in UTC: the year has at least four digits. *)
Definition pad_number (width : nat) (n : Z) : string :=
  (if n <? 0 then "-" else "") +:+ pad_left width "0" (pretty (Z.abs n)).
Definition format_RFC3339 (t : Time) : string :=
  let '(y, m, d, hh, mm, ss) := time_fields t 0 in
  pad_number 4 y +:+ "-" +:+ pad_number 2 m +:+ "-" +:+ pad_number 2 d +:+ "T"
    +:+ pad_number 2 hh +:+ ":" +:+ pad_number 2 mm +:+ ":" +:+ pad_number 2 ss +:+ "Z".

(** up to three members for a statement. *)
Definition sample (members : list string) : string :=
  if (3 <? length members)%nat then strings_Join (take 3 members) ", " +:+ ", ..." else strings_Join members ", ".

(** The loop of renderIntervals: three at most, then how many more. *)
Fixpoint interval_parts (i n : nat) (l : list Interval) : list string :=
  match l with
  | [] => []
  | iv :: l =>
      if (i =? 3)%nat then ["and " +:+ pretty (Z.of_nat (n - 3)) +:+ " more"]
      else Interval_String iv :: interval_parts (S i) n l
  end.
Definition renderIntervals (g : GapSet.t) : string :=
  let l := Intervals g in
  if bool_decide (l = []) then "none" else strings_Join (interval_parts 0 (length l) l) ", ".

Definition gapTruncationNote (ps : PublisherState) : string :=
  if GapSet.Truncated (SeqTrack.Gaps ps) then "the gap list hit its bound, so the missing count is a floor rather than a total"
  else "the gap list is complete, so the missing count is exact".

Definition readNote (age : Duration) : option string :=
  if age <? time_Millisecond then Some "read just now" else s ← compact age; Some ("read " +:+ s +:+ " ago").

(** ** What the rules look at *)

Definition Age (e : Explanation) : Duration :=
  if IsZero (XLastEventAt (oside e)) then 0 else time_Sub (GeneratedAt e) (XLastEventAt (oside e)).
Definition readAge (e : Explanation) : Duration :=
  if IsZero (TargetReadAt (tside e)) then 0 else time_Sub (GeneratedAt e) (TargetReadAt (tside e)).

Definition LastPublisher (e : Explanation) : string :=
  match last (XHistory (oside e)) with Some s => Publisher (StepEvent s) | None => "" end.

Definition publisherState (e : Explanation) (id : string) : option PublisherState :=
  List.find (λ ps, bool_decide (ID ps = id)) (PublisherStates e).

Definition seq_step (publisher : string) (acc : Z * Z * Z) (s : Step) : Z * Z * Z :=
  let '(first, last_, count) := acc in
  if negb (bool_decide (Publisher (StepEvent s) = publisher)) then acc
  else (if count =? 0 then Seq (StepEvent s) else first, Seq (StepEvent s), count + 1).
Definition seqRange (e : Explanation) (publisher : string) : Z * Z * Z :=
  foldl (seq_step publisher) (0, 0, 0) (XHistory (oside e)).

(** The last event of the publisher that carries a time. *)
Definition observedSkew (e : Explanation) (publisher : string) : option Duration :=
  s ← List.find (λ s, bool_decide (Publisher (StepEvent s) = publisher) && negb (IsZero (PublishedAt (StepEvent s))))
        (reverse (XHistory (oside e)));
  Some (time_Sub (PublishedAt (StepEvent s)) (ObservedAt (StepEvent s))).

Definition isSetComparison (e : Explanation) : bool :=
  TargetReachable (tside e) && bool_decide (Kind (OracleValue (oside e)) = ValueSet)
  && bool_decide (Kind (TargetValue (tside e)) = ValueSet).

Definition oracleSideOfExtra (e : Explanation) : string :=
  if KnownToOracle (oside e) then
    "the oracle holds a tombstone at version " +:+ pretty (OracleVersion (oside e))
      +:+ ": an event deleted this key and the target still has it"
  else "the oracle has no record of this key at all, not even a deletion".

(** ** The rules *)

(** [None] is a rendering that never ends, [Some None] a rule that does not fire. *)
Definition fires : Type := option (option Diagnosis).
Definition silent : fires := Some None.
Definition say (c : Confidence) (statement : string) (evidence : list string) : fires :=
  Some (Some (mkDiagnosis "" c statement evidence)).

Definition num (n : Z) : string := pretty n.

Definition ruleAgree (e : Explanation) : fires :=
  if negb (bool_decide (XVerdict e = VerdictAgree)) then silent
  else
    age ← compact (Age e); win ← compact (SettlementWindow e);
    say ConfidenceHigh ("Oracle and target agree at version " +:+ num (OracleVersion (oside e)) +:+ ".")
      ["both hold " +:+ Value_String (OracleValue (oside e));
       "last event " +:+ age +:+ " ago, settlement window " +:+ win].

Definition ruleInFlight (e : Explanation) : fires :=
  if XSettled e || IsZero (XLastEventAt (oside e)) then silent
  else
    age ← compact (Age e); win ← compact (SettlementWindow e);
    left ← compact (i64 (SettlementWindow e - Age e));
    say ConfidenceHigh
      ("Last event was " +:+ age +:+ " ago, inside the " +:+ win +:+ " settlement window; disagreement here is expected.")
      ["the key settles in " +:+ left; "the materializer has not been given time to apply it yet"].

Definition ruleSeqGapAffectingPublisher (e : Explanation) : fires :=
  let publisher := LastPublisher e in
  if bool_decide (publisher = "") then silent
  else
    match publisherState e publisher with
    | None => silent
    | Some ps =>
        if Count (Gaps ps) =? 0 then silent
        else
          say ConfidenceHigh
            ("Publisher " +:+ publisher +:+ " has " +:+ num (Count (Gaps ps)) +:+ " missing sequence numbers ("
              +:+ renderIntervals (Gaps ps) +:+ "); driftwatch's own view may be incomplete, so this disagreement may be driftwatch's fault, not the target's.")
            ["publisher " +:+ publisher +:+ ": high-water mark " +:+ num (HWM ps) +:+ ", " +:+ num (EventCount ps) +:+ " events observed";
             gapTruncationNote ps;
             "keys touched by the missing events are marked suspect and never alerted on"]
    end.

Definition ruleMissingInTargetNoGaps (e : Explanation) : fires :=
  if negb (KnownToOracle (oside e)) || Value_IsAbsent (OracleValue (oside e)) || negb (Value_IsAbsent (TargetValue (tside e)))
  then silent
  else if negb (TargetReachable (tside e)) || negb (XSettled e) || negb (bool_decide (OracleTrust (oside e) = TrustComplete))
  then silent
  else
    let publisher := LastPublisher e in
    let '(first, last_, count) := seqRange e publisher in
    note ← readNote (readAge e);
    say ConfidenceHigh
      ("Target is missing this key. driftwatch observed a complete event sequence for publisher " +:+ publisher
        +:+ " (seq " +:+ num first +:+ ".." +:+ num last_
        +:+ ", no gaps), so the materializer most likely dropped or failed to apply seq " +:+ num last_ +:+ ".")
      (["oracle expects " +:+ Value_String (OracleValue (oside e)) +:+ " at version " +:+ num (OracleVersion (oside e));
        "target holds nothing, " +:+ note;
        num count +:+ " events for this key in the retained history"]
       ++ (if Reachable (TargetHealth (tside e)) then
             ["the store reports " +:+ num (EvictedKeys (TargetHealth (tside e)))
                +:+ " evictions in total, so eviction is unlikely"]
           else [])).

Definition ruleExtraInTarget (e : Explanation) : fires :=
  if negb (TargetReachable (tside e)) || Value_IsAbsent (TargetValue (tside e)) then silent
  else if KnownToOracle (oside e) && negb (Value_IsAbsent (OracleValue (oside e))) then silent
  else
    let mode := if decide (OracleTrust (oside e) = TrustAdopted) then "Adopt" else "Wait" in
    say ConfidenceMedium
      ("Target holds this key but no event ever created it. Either it predates driftwatch (bootstrap mode " +:+ mode
        +:+ ") or it was written out-of-band.")
      ["target holds " +:+ Value_String (TargetValue (tside e)); oracleSideOfExtra e].

(** The first step that follows a restart. *)
Definition rulePublisherRestarted (e : Explanation) : fires :=
  match list_find (λ s, StepVerdict s = AcceptAfterRestart) (XHistory (oside e)) with
  | None => silent
  | Some (i, s) =>
      let publisher := Publisher (StepEvent s) in
      let kind := match publisherState e publisher with
                  | Some ps => if 0 <? PEpoch ps then "explicit" else "implicit"
                  | None => "implicit" end in
      say ConfidenceMedium
        ("Publisher " +:+ publisher +:+ " restarted at " +:+ format_RFC3339 (StepAppliedAt s) +:+ " (" +:+ kind
          +:+ "); events around that boundary may have been lost.")
        ["history step #" +:+ num (Z.of_nat i) +:+ " resumed at seq " +:+ num (Seq (StepEvent s));
         "a restart resets the sequence space, so anything in flight at the moment of the restart is unaccounted for"]
  end.

Definition ruleTargetEvictionLikely (e : Explanation) (i : Input) : fires :=
  if negb (TargetReachable (tside e)) || negb (Value_IsAbsent (TargetValue (tside e))) || negb (KnownToOracle (oside e))
  then silent
  else if Value_IsAbsent (OracleValue (oside e)) || (EvictionsSinceLastSweep i =? 0) then silent
  else
    let h := TargetHealth (tside e) in
    let pct := memoryPressure (UsedMemoryBytes h) (MaxMemoryBytes h) in
    say (if 90 <=? pct then ConfidenceHigh else ConfidenceMedium)
      ("Redis reported " +:+ num (EvictionsSinceLastSweep i) +:+ " evictions since the last sweep and is at " +:+ num pct
        +:+ "% of maxmemory; this key was probably evicted.")
      ["used " +:+ bytesHuman (UsedMemoryBytes h) +:+ " of " +:+ bytesHuman (MaxMemoryBytes h);
       "an evicted key is the store working as configured, not drift"].

Definition ruleTTLExpired (e : Explanation) (now : Time) : fires :=
  match OracleTTL (oside e) with
  | None => silent
  | Some ttl =>
      if negb (Value_IsAbsent (TargetValue (tside e))) || IsZero (XLastEventAt (oside e)) then silent
      else
        let expiresAt := time_Add (XLastEventAt (oside e)) ttl in
        if Before now expiresAt then silent
        else
          since ← compact (time_Sub now expiresAt); lifetime ← compact ttl;
          say ConfidenceHigh
            ("The oracle's TTL for this key expired " +:+ since +:+ " ago; absence in the target is expected.")
            ["the last event set a TTL of " +:+ lifetime +:+ " at " +:+ format_RFC3339 (XLastEventAt (oside e));
             "this is not drift under any expiry policy"]
  end.

Definition ruleTypeMismatch (e : Explanation) (i : Input) : fires :=
  if bool_decide (TargetType (tside e) = "") then silent
  else
    say ConfidenceHigh
      ("Target holds type " +:+ TargetType (tside e) +:+ " but the " +:+ Shape_String (InShape i) +:+ " projection expects "
        +:+ expectedRedisType (InShape i) +:+ "; the projection may be misconfigured for this keyspace.")
      ["the store answered, so this is what it holds rather than a failed read";
       "a whole keyspace of these usually means the wrong keyTemplate"].

Definition ruleClockSkewHigh (e : Explanation) (now : Time) : fires :=
  let publisher := LastPublisher e in
  if bool_decide (publisher = "") || (SettlementWindow e =? 0) then silent
  else
    match observedSkew e publisher with
    | None => silent
    | Some skew =>
        if duration_abs skew <=? SettlementWindow e then silent
        else
          by_ ← compact skew;
          say ConfidenceMedium
            ("Publisher " +:+ publisher +:+ "'s clock differs from driftwatch's by " +:+ by_
              +:+ ", which exceeds the settlement window; publisher timestamps in this output are unreliable (settlement itself is unaffected "
              +:+ String (ascii_of 226) (String (ascii_of 128) (String (ascii_of 148) " it uses local receive time).")))
            ["measured against driftwatch's clock at " +:+ format_RFC3339 now;
             "gaps, ordering and settlement all use local receive time, so this is a display problem rather than a correctness one"]
    end.

Definition ruleMemberSubset (e : Explanation) : fires :=
  if negb (isSetComparison e) || (MissingMemberCount e =? 0)%nat || negb (ExtraMemberCount e =? 0)%nat then silent
  else
    let expected := num (Z.of_nat (size (members_of (OracleValue (oside e))))) in
    say ConfidenceHigh
      ("Target is missing " +:+ num (Z.of_nat (MissingMemberCount e)) +:+ " of " +:+ expected +:+ " members ("
        +:+ sample (MissingMembers e) +:+ "); consistent with dropped add events rather than a wholesale failure.")
      ["target holds " +:+ plural (size (members_of (TargetValue (tside e)))) "member" +:+ ", oracle expects " +:+ expected;
       "every member the target does hold is one the oracle expects, so the materializer is applying events rather than failing entirely"].

Definition ruleMemberSuperset (e : Explanation) : fires :=
  if negb (isSetComparison e) || (ExtraMemberCount e =? 0)%nat || negb (MissingMemberCount e =? 0)%nat then silent
  else
    say ConfidenceHigh
      ("Target holds " +:+ plural (ExtraMemberCount e) "extra member" +:+ " (" +:+ sample (ExtraMembers e)
        +:+ "); consistent with dropped remove events.")
      ["target holds " +:+ plural (size (members_of (TargetValue (tside e)))) "member" +:+ ", oracle expects "
         +:+ num (Z.of_nat (size (members_of (OracleValue (oside e)))));
       "a removal that never reached the store leaves exactly this shape"].

Definition ruleHistoryTruncated (e : Explanation) (i : Input) : fires :=
  let n := length (XHistory (oside e)) in
  if negb (HistoryTruncated (oside e)) || (n =? 0)%nat then silent
  else
    say ConfidenceHigh
      ("Only the last " +:+ num (Z.of_nat n) +:+ " events are retained; earlier history is unavailable.")
      ["the per-key ring holds " +:+ num (InRingSize i) +:+ " entries (policy.ringSize)";
       "the oracle is at version " +:+ num (OracleVersion (oside e)) +:+ ", so at least "
         +:+ num (maxInt 0 (i64 (i64 (OracleVersion (oside e)) - Z.of_nat n))) +:+ " events are not shown"].

Definition ruleNoHistory (e : Explanation) : fires :=
  if KnownToOracle (oside e) || (0 <? length (XHistory (oside e)))%nat then silent
  else
    say ConfidenceHigh "driftwatch has never observed an event for this key."
      ["the oracle has no entry, not even a tombstone from a deletion";
       if negb (TargetReachable (tside e)) then
         "the store could not be read, so it is unknown whether the key exists there"
       else if Value_IsAbsent (TargetValue (tside e)) then
         "the store does not hold it either: most likely the key name is wrong, or the keyTemplate does not produce this shape"
       else "the store does hold it, so it predates driftwatch's subscription or was written out-of-band"].

(** ** The table *)

Definition rules : list (string * (Explanation → Input → Time → fires)) :=
  [(CodeAgree, λ e _ _, ruleAgree e);
   (CodeInFlight, λ e _ _, ruleInFlight e);
   (CodeSeqGapAffectingPublisher, λ e _ _, ruleSeqGapAffectingPublisher e);
   (CodeMissingInTargetNoGaps, λ e _ _, ruleMissingInTargetNoGaps e);
   (CodeExtraInTarget, λ e _ _, ruleExtraInTarget e);
   (CodePublisherRestarted, λ e _ _, rulePublisherRestarted e);
   (CodeTargetEvictionLikely, λ e i _, ruleTargetEvictionLikely e i);
   (CodeTTLExpired, λ e _ now, ruleTTLExpired e now);
   (CodeTypeMismatch, λ e i _, ruleTypeMismatch e i);
   (CodeClockSkewHigh, λ e _ now, ruleClockSkewHigh e now);
   (CodeMemberSubset, λ e _ _, ruleMemberSubset e);
   (CodeMemberSuperset, λ e _ _, ruleMemberSuperset e);
   (CodeHistoryTruncated, λ e i _, ruleHistoryTruncated e i);
   (CodeNoHistory, λ e _ _, ruleNoHistory e)].

Definition Rules : list string := fst <$> rules.

Fixpoint fire_all (table : list (string * (Explanation → Input → Time → fires))) (e : Explanation) (i : Input)
    (now : Time) : option (list Diagnosis) :=
  match table with
  | [] => Some []
  | (code, fire) :: table =>
      d ← fire e i now;
      ds ← fire_all table e i now;
      Some (match d with Some d => mkDiagnosis code (DConfidence d) (Statement d) (Evidence d) :: ds | None => ds end)
  end.

(** Confidence descending, then code: not after. *)
Definition diagnosis_le (a b : Diagnosis) : Prop :=
  confidence_rank (DConfidence b) < confidence_rank (DConfidence a)
  ∨ DConfidence a = DConfidence b ∧ String.le (Code a) (Code b).
#[export] Instance diagnosis_le_dec : RelDecision diagnosis_le.
Proof. intros a b. unfold diagnosis_le. apply _. Defined.

(** sort.SliceStable; the codes of one explanation are distinct. *)
Definition diagnose (e : Explanation) (i : Input) (now : Time) : option (list Diagnosis) :=
  ds ← fire_all rules e i now; Some (merge_sort diagnosis_le ds).

Definition Find (e : Explanation) (code : string) : option Diagnosis :=
  List.find (λ d, bool_decide (Code d = code)) (XDiagnosis e).
Definition Has (e : Explanation) (code : string) : bool := bool_decide (is_Some (Find e code)).

(** ** Explain *)

Section explain.
Context `{XXHash} `{MapOrder}.

(** Everything but the diagnoses. *)
Definition gather (i : Input) (o : Oracle) : Explanation :=
  let os := readOracle i o in
  let ts := readTarget i in
  let '(missing, extra) := member_diff (OracleValue os) (TargetValue ts) in
  let settled := settledAt (XLastEventAt os) (InWindow i) (InNow i) in
  mkExplanation (InKey i) (InNow i) (InWindow i) (InShape i) os ts (readPublishers i)
    (truncate missing (MaxMembersShown i)) (truncate extra (MaxMembersShown i)) (length missing) (length extra)
    settled (decideVerdict os ts settled) [].

Definition with_diagnoses (e : Explanation) (ds : list Diagnosis) : Explanation :=
  mkExplanation (XKey e) (GeneratedAt e) (SettlementWindow e) (XShape e) (oside e) (tside e) (PublisherStates e)
    (MissingMembers e) (ExtraMembers e) (MissingMemberCount e) (ExtraMemberCount e) (XSettled e) (XVerdict e) ds.

(** ErrNoOracle is [inl]; the outer [None] is a rendering that never ends. *)
Inductive explain_error := ErrNoOracle.

Definition Explain (i : Input) : option (explain_error + Explanation) :=
  let i := input_applyDefaults i in
  match InOracle i with
  | None => Some (inl ErrNoOracle)
  | Some o =>
      let e := gather i o in
      ds ← diagnose e i (InNow i);
      Some (inr (with_diagnoses e ds))
  end.
End explain.
