(* ===== verification/ExplainFacts.v ===== *)
(** * ExplainFacts: what an explanation may claim

    When Explain answers, what its verdict means, which diagnoses it gives and
    in which order, and what the rules about members say of the two sets. *)
From Stdlib Require Import Ascii String.
From stdpp Require Import strings sorting.
From S2P Require Import Prelude GoBase GoFloat GoStrings GoTime GoFormat FloatFormat.
From S2P Require Import Event Projection GapSet SeqTrack Ring Shard Oracle Target Explain ExplainRules.

(** ** Rendering durations *)

Lemma compact_none d : is_i64 d → compact d = None ↔ d = min_i64.
Proof.
  intros Hd. unfold compact, compact_depth, is_i64 in *. destruct (Z.ltb_spec d 0) as [Hn|Hn].
  - destruct (decide (d = min_i64)) as [->|Hne]; [by split|].
    assert (i64 (- d) = - d) as -> by (apply i64_small; unfold is_i64, min_i64, max_i64 in *; lia).
    destruct (Z.ltb_spec (- d) 0); [lia|]. cbn. split; [done|lia].
  - split; [done|]. unfold min_i64. lia.
Qed.

Lemma compact_some d : d ≠ min_i64 → is_i64 d → is_Some (compact d).
Proof. intros Hne Hd. apply not_eq_None_Some. by rewrite compact_none. Qed.

Lemma time_Sub_i64 a b : is_i64 (time_Sub a b).
Proof. unfold time_Sub, is_i64, min_i64, max_i64. lia. Qed.

(** ** The diagnoses *)

Definition codes_of (table : list (string * (Explanation → Input → Time → fires))) : list string := fst <$> table.

(** One per rule that fires, under the rule's code. *)
Lemma fire_all_codes table e i now ds :
  fire_all table e i now = Some ds → sublist (Code <$> ds) (codes_of table).
Proof.
  revert ds. induction table as [|[code fire] table IH]; intros ds; cbn; [by intros [= <-]|].
  destruct (fire e i now) as [d|]; [|done]. cbn. destruct (fire_all table e i now) as [l|]; [|done].
  cbn. intros [= <-]. destruct d; cbn; constructor; by apply IH.
Qed.

Lemma fire_all_elem table e i now ds code :
  NoDup (codes_of table) → fire_all table e i now = Some ds →
  (∃ d, d ∈ ds ∧ Code d = code) ↔ (∃ fire d, (code, fire) ∈ table ∧ fire e i now = Some (Some d)).
Proof.
  revert ds. induction table as [|[c fire] table IH]; intros ds; cbn.
  - intros _ [= <-]. split; [intros (d & Hd & _); by apply elem_of_nil in Hd|].
    intros (? & ? & Hd & _). by apply elem_of_nil in Hd.
  - intros [Hc Hnd]%NoDup_cons. destruct (fire e i now) as [d|] eqn:Hf; [|done]. cbn.
    destruct (fire_all table e i now) as [l|]; [|done]. cbn. intros [= <-].
    specialize (IH l Hnd eq_refl). split.
    + intros (d' & Hd' & Hcode). destruct d as [d|].
      * apply elem_of_cons in Hd' as [->|Hd']; [cbn in Hcode; subst; exists fire, d; split; [left|done]|].
        destruct (proj1 IH) as (f & x & Hin & Hx); [eauto|]. exists f, x. split; [by right|done].
      * destruct (proj1 IH) as (f & x & Hin & Hx); [eauto|]. exists f, x. split; [by right|done].
    + intros (f & x & [[= -> ->]|Hin]%elem_of_cons & Hx).
      * rewrite Hf in Hx. injection Hx as ->. eexists. split; [left|done].
      * destruct (proj2 IH) as (d' & Hd' & Hcode); [eauto|]. exists d'. split; [|done]. destruct d; [by right|done].
Qed.

Lemma fire_all_answers table e i now :
  Forall (λ rule, is_Some (rule.2 e i now)) table → is_Some (fire_all table e i now).
Proof.
  induction 1 as [|[code fire] table [d Hd] _ [ds IH]]; [by eexists|]. cbn in *. rewrite Hd, IH. cbn. by eexists.
Qed.

Lemma rules_distinct : NoDup (codes_of rules).
Proof. apply (bool_decide_unpack _). vm_compute. exact I. Qed.

#[export] Instance diagnosis_le_trans : Transitive diagnosis_le.
Proof.
  intros a b c [H1|[H1 L1]] [H2|[H2 L2]]; unfold diagnosis_le in *; [left; lia| | |right; split; [congruence|by etrans]].
  - left. by rewrite <- H2.
  - left. by rewrite H1.
Qed.

#[export] Instance diagnosis_le_total : base.Total diagnosis_le.
Proof.
  intros a b. unfold diagnosis_le.
  destruct (Z.lt_trichotomy (confidence_rank (DConfidence a)) (confidence_rank (DConfidence b))) as [|[He|]]; [by right; left| |by left; left].
  assert (DConfidence a = DConfidence b) as Hc by (by destruct (DConfidence a), (DConfidence b)).
  destruct (base.total String.le (Code a) (Code b)); [left|right]; right; by split.
Qed.

(** Two diagnoses that neither outrank have the same code. *)
Lemma diagnosis_le_code a b : diagnosis_le a b → diagnosis_le b a → Code a = Code b.
Proof.
  intros [H1|[H1 L1]] [H2|[H2 L2]]; [lia|rewrite H2 in H1; lia|rewrite H1 in H2; lia|by apply (anti_symm String.le)].
Qed.

(** A rule sees nothing of the others, so their order only orders what they say. *)
Lemma fire_all_swap t1 t2 e i now :
  t1 ≡ₚ t2 → option_Forall2 (≡ₚ) (fire_all t1 e i now) (fire_all t2 e i now).
Proof.
  induction 1 as [|[c f] t1 t2 _ IH|[c f] [c' f'] t|t1 t2 t3 _ IH1 _ IH2]; cbn [fire_all].
  - by constructor.
  - destruct (f e i now) as [d|]; cbn; [|constructor]. destruct IH as [l1 l2 Hl|]; cbn; constructor.
    destruct d; by rewrite ?Hl.
  - destruct (f e i now) as [[d|]|], (f' e i now) as [[d'|]|], (fire_all t e i now); cbn; try apply None_Forall2;
      apply Some_Forall2; try reflexivity; apply perm_swap.
  - by transitivity (fire_all t2 e i now).
Qed.

Lemma fire_all_perm t1 t2 e i now l1 l2 :
  t1 ≡ₚ t2 → fire_all t1 e i now = Some l1 → fire_all t2 e i now = Some l2 → l1 ≡ₚ l2.
Proof. intros Hp H1 H2. pose proof (fire_all_swap t1 t2 e i now Hp) as Hs. rewrite H1, H2 in Hs. by inversion Hs. Qed.

(** Sorting is unique where the codes are. *)
Lemma diagnoses_sort_unique l1 l2 :
  NoDup (Code <$> l2) → l1 ≡ₚ l2 → merge_sort diagnosis_le l1 = merge_sort diagnosis_le l2.
Proof.
  intros Hnd Hp. apply (StronglySorted_unique_strong diagnosis_le).
  - intros a b Ha Hb Hab Hba.
    pose proof (diagnosis_le_code a b Hab Hba) as Hc.
    rewrite merge_sort_Permutation in Ha, Hb. rewrite Hp in Ha.
    apply list_elem_of_lookup in Ha as [n1 H1]. apply list_elem_of_lookup in Hb as [n2 H2].
    assert (n1 = n2) as <-; [|congruence].
    apply (NoDup_lookup (Code <$> l2) n1 n2 (Code b)); [done| |].
    + rewrite list_lookup_fmap, H1. cbn. by rewrite Hc.
    + by rewrite list_lookup_fmap, H2.
  - by apply (StronglySorted_merge_sort diagnosis_le); apply _.
  - by apply (StronglySorted_merge_sort diagnosis_le); apply _.
  - by rewrite !merge_sort_Permutation.
Qed.

(** What Explain returns is what was gathered, with the diagnoses of the table. *)
Lemma Explain_inv `{XXHash} `{MapOrder} i e :
  Explain i = Some (inr e) →
  ∃ o ds, InOracle i = Some o
    ∧ fire_all rules (gather (input_applyDefaults i) o) (input_applyDefaults i) (InNow i) = Some ds
    ∧ e = with_diagnoses (gather (input_applyDefaults i) o) (merge_sort diagnosis_le ds).
Proof.
  unfold Explain, diagnose. cbn [InOracle InNow input_applyDefaults]. destruct (InOracle i) as [o|]; [|done].
  destruct (fire_all rules _ _ _) as [ds|] eqn:Hds; [|done]. cbn. intros [= <-]. exists o, ds. by split_and!.
Qed.

(** what is read first is what is surest: the diagnoses of an answer come with the confidence
    descending and then by code, no code twice, and in whatever order the table of rules were written
    the answer would be the same, a rule never seeing what another said. *)
Theorem explain_is_ordered `{XXHash} `{MapOrder} i e :
  Explain i = Some (inr e) →
  StronglySorted diagnosis_le (XDiagnosis e) ∧ NoDup (Code <$> XDiagnosis e)
  ∧ ∀ table ds o, table ≡ₚ rules → InOracle i = Some o →
      fire_all table (gather (input_applyDefaults i) o) (input_applyDefaults i) (InNow i) = Some ds →
      merge_sort diagnosis_le ds = XDiagnosis e.
Proof.
  intros (o & ds & Ho & Hds & ->)%Explain_inv. cbn [XDiagnosis with_diagnoses].
  assert (NoDup (Code <$> ds)) as Hnd.
  { apply (sublist_NoDup _ _ rules_distinct), (fire_all_codes _ _ _ _ _ Hds). }
  split_and!.
  - by apply (StronglySorted_merge_sort diagnosis_le); apply _.
  - by rewrite merge_sort_Permutation.
  - intros table ds' o' Hperm Ho' Hds'. rewrite Ho in Ho'. injection Ho' as <-.
    apply diagnoses_sort_unique; [done|]. by eapply fire_all_perm.
Qed.

(** ** When Explain answers *)

Record durations_writable (e : Explanation) : Prop := mk_durations_writable {
  dw_age : - 2 ^ 62 ≤ Age e;
  dw_window : 0 ≤ SettlementWindow e < 2 ^ 62;
  dw_ttl : ∀ ttl, OracleTTL (oside e) = Some ttl → is_i64 ttl ∧ ttl ≠ min_i64
}.

Lemma Age_i64 e : is_i64 (Age e).
Proof. unfold Age. case_match; [done|apply time_Sub_i64]. Qed.

Lemma readAge_i64 e : is_i64 (readAge e).
Proof. unfold readAge. case_match; [done|apply time_Sub_i64]. Qed.

(** Rewrites the durations that are rendered into their texts. *)
Ltac render :=
  repeat match goal with
  | |- context [compact ?d] =>
      let s := fresh "s" in let Hs := fresh "Hs" in
      destruct (compact_some d) as [s Hs];
      [try (unfold min_i64 in *; lia)|eauto using Age_i64, readAge_i64, time_Sub_i64, i64_range|];
      rewrite Hs; cbn [mbind option_bind]
  end.

(** A skew that saturated is below every window, as its absolute value wraps: it is never rendered. *)
Lemma skew_rendered skew w : 0 ≤ w → (duration_abs skew <=? w) = false → skew ≠ min_i64.
Proof. intros Hw Hs ->. zbool. change (duration_abs min_i64) with min_i64 in Hs. unfold min_i64 in Hs. lia. Qed.

Lemma observedSkew_i64 e publisher skew : observedSkew e publisher = Some skew → is_i64 skew.
Proof. unfold observedSkew. destruct (List.find _ _); [|done]. cbn. intros [= <-]. apply time_Sub_i64. Qed.

Lemma readNote_some age : is_i64 age → is_Some (readNote age).
Proof.
  intros Ha. unfold readNote. case_match; zbool; [by eexists|].
  assert (age ≠ min_i64) by (unfold min_i64, time_Millisecond in *; lia). render. by eexists.
Qed.

Lemma rules_answer e i now : durations_writable e → Forall (λ rule, is_Some (rule.2 e i now)) rules.
Proof.
  intros [Hage Hw Httl].
  assert (is_i64 (SettlementWindow e)) as Hwi by (unfold is_i64, min_i64, max_i64; lia).
  unfold rules. repeat apply Forall_cons_2; try apply Forall_nil_2; cbn [snd].
  - unfold ruleAgree. case_match; [by eexists|]. render. by eexists.
  - unfold ruleInFlight. case_match; [by eexists|]. pose proof (Age_i64 e) as Ha.
    assert (i64 (SettlementWindow e - Age e) ≠ min_i64) as Hl.
    { intros Hl. unfold i64, is_i64, min_i64, max_i64 in *. 
      pose proof (Z.mod_pos_bound (SettlementWindow e - Age e + 2 ^ 63) (2 ^ 64) ltac:(lia)).
      assert ((SettlementWindow e - Age e + 2 ^ 63) mod 2 ^ 64 = 0) as Hm by lia.
      apply Z.mod_divide in Hm as [q Hq]; lia. }
    render. by eexists.
  - unfold ruleSeqGapAffectingPublisher. repeat case_match; by eexists.
  - unfold ruleMissingInTargetNoGaps. destruct (_ || _); [by eexists|]. destruct (_ || _); [by eexists|].
    destruct (seqRange _ _) as [[f l] c]. destruct (readNote_some (readAge e) (readAge_i64 e)) as [x ->]. by eexists.
  - unfold ruleExtraInTarget. repeat case_match; by eexists.
  - unfold rulePublisherRestarted. repeat case_match; by eexists.
  - unfold ruleTargetEvictionLikely. repeat case_match; by eexists.
  - unfold ruleTTLExpired. destruct (OracleTTL _) as [ttl|]; [|by eexists]. destruct (Httl ttl eq_refl).
    case_match; [by eexists|]. unfold Before. case_match; zbool; [by eexists|].
    assert (time_Sub now (time_Add (XLastEventAt (oside e)) ttl) ≠ min_i64)
      by (unfold time_Sub, min_i64, max_i64; lia).
    render. by eexists.
  - unfold ruleTypeMismatch. case_match; by eexists.
  - unfold ruleClockSkewHigh. case_match; [by eexists|]. destruct (observedSkew _ _) as [skew|] eqn:Hsk; [|by eexists].
    case_match eqn:Hle; [by eexists|]. pose proof (skew_rendered skew _ (proj1 Hw) Hle).
    pose proof (observedSkew_i64 _ _ _ Hsk). render. by eexists.
  - unfold ruleMemberSubset. case_match; by eexists.
  - unfold ruleMemberSuperset. case_match; by eexists.
  - unfold ruleHistoryTruncated. case_match; by eexists.
  - unfold ruleNoHistory. case_match; by eexists.
Qed.

(** Explain answers: given an oracle it returns an explanation, unless the key's last event lies
    more than 146 years ahead of the clock, the window is negative or as long, or a time to live is the
    smallest duration: then a text of it may be asked that never ends. It fails only without an
    oracle, whatever the store answers. *)
Theorem explain_answers `{XXHash} `{MapOrder} i o :
  InOracle i = Some o → 0 ≤ InWindow i < 2 ^ 62 →
  (∀ en, Get (InOracleNow i) o (InKey i) = Some en →
     LastEventAt en - InNow i ≤ 2 ^ 62 ∧ ∀ ttl, EntTTL en = Some ttl → is_i64 ttl ∧ ttl ≠ min_i64) →
  ∃ e, Explain i = Some (inr e).
Proof.
  intros Ho Hw Hen. unfold Explain, diagnose. cbn [InOracle InNow input_applyDefaults]. rewrite Ho.
  assert (durations_writable (gather (input_applyDefaults i) o)) as Hd.
  { unfold gather. destruct (member_diff _ _) as [m x].
    constructor; unfold Age; cbn [oside GeneratedAt SettlementWindow InWindow InNow input_applyDefaults]; [|done|];
      unfold readOracle; cbn [InOracleNow InKey input_applyDefaults];
      destruct (Get _ _ _) as [en|]; cbn [XLastEventAt OracleTTL]; try done;
      destruct (Hen en eq_refl) as [Hfar Httl]; [|done].
    case_match; [lia|]. unfold time_Sub, min_i64, max_i64. lia. }
  destruct (fire_all_answers rules _ (input_applyDefaults i) (InNow i) (rules_answer _ _ _ Hd)) as [ds ->].
  by eexists.
Qed.

(** ** What the verdict means *)

Section verdict.
Context `{XXHash} `{MapOrder}.

(** What the oracle expects, and what it knows of the key's trust and age. *)
Definition expects (i : Input) (o : Oracle) : Value :=
  match Get (InOracleNow i) o (InKey i) with Some en => EntValue en | None => absent end.
Definition doubts (i : Input) (o : Oracle) : Prop :=
  ∃ en, Get (InOracleNow i) o (InKey i) = Some en ∧ Shard.Trust en = TrustSuspect.
Definition in_flight (i : Input) (o : Oracle) : Prop :=
  ∃ en, Get (InOracleNow i) o (InKey i) = Some en
    ∧ LastEventAt en ≠ zero_time ∧ time_Sub (InNow i) (LastEventAt en) ≤ InWindow i.

(** The value a store gave, the zero value behind a type it named nothing. *)
Definition gave (i : Input) (v : Value) : Prop :=
  ∃ ans, InTarget i = Some ans ∧ (AnsGet ans = inr v ∨ AnsGet ans = inl (WrongTypeError "") ∧ v = absent).
Definition gave_type (i : Input) (got : string) : Prop :=
  ∃ ans, InTarget i = Some ans ∧ AnsGet ans = inl (WrongTypeError got) ∧ got ≠ "".
Definition silent_store (i : Input) : Prop :=
  InTarget i = None ∨ ∃ ans, InTarget i = Some ans ∧ AnsGet ans = inl TransportError.

Lemma XVerdict_gather i o ds :
  XVerdict (with_diagnoses (gather (input_applyDefaults i) o) ds)
  = decideVerdict (readOracle i o) (readTarget i) (settledAt (XLastEventAt (readOracle i o)) (InWindow i) (InNow i)).
Proof. unfold gather. by destruct (member_diff _ _). Qed.

(** The store's answer is one of three. *)
Inductive answered (i : Input) : TargetSide → Prop :=
  | answered_nothing ts : silent_store i → TargetReachable ts = false → TargetValue ts = absent → TargetType ts = "" → answered i ts
  | answered_type ts got : gave_type i got → TargetReachable ts = true → TargetValue ts = absent → TargetType ts = got → answered i ts
  | answered_value ts v : gave i v → TargetReachable ts = true → TargetValue ts = v → TargetType ts = "" → answered i ts.

Lemma readTarget_answered i : answered i (readTarget i).
Proof.
  unfold readTarget. destruct (InTarget i) as [ans|] eqn:Ht; [|constructor 1; try done; by left].
  destruct (AnsGet ans) as [[got|]|v] eqn:Hg.
  - destruct (decide (got = "")) as [->|Hne].
    + apply (answered_value _ _ absent); try done. exists ans. split; [done|by right].
    + apply (answered_type _ _ got); try done. by exists ans.
  - constructor 1; try done. right. by exists ans.
  - apply (answered_value _ _ v); try done. exists ans. split; [done|by left].
Qed.

Lemma gave_fun i v w : gave i v → gave i w → v = w.
Proof. intros (a & Ha & [Hv|[Hv ->]]) (b & Hb & [Hw|[Hw ->]]); congruence. Qed.
Lemma gave_not_type i v got : gave i v → gave_type i got → False.
Proof. intros (a & Ha & [Hv|[Hv ->]]) (b & Hb & Hw & Hne); congruence. Qed.
Lemma silent_not_gave i v : silent_store i → gave i v → False.
Proof. intros [Hn|(a & Ha & Hv)] (b & Hb & [Hw|[Hw ->]]); congruence. Qed.
Lemma silent_not_type i got : silent_store i → gave_type i got → False.
Proof. intros [Hn|(a & Ha & Hv)] (b & Hb & Hw & Hne); congruence. Qed.

(** The oracle's side in the same words. *)
Record reads_oracle (i : Input) (o : Oracle) (os : OracleSide) : Prop := mk_reads_oracle {
  ro_value : OracleValue os = expects i o;
  ro_unknown : KnownToOracle os = false → expects i o = absent;
  ro_known : KnownToOracle os = true ↔ is_Some (Get (InOracleNow i) o (InKey i));
  ro_trust : OracleTrust os = TrustSuspect ↔ doubts i o;
  ro_settled : settledAt (XLastEventAt os) (InWindow i) (InNow i) = false ↔ in_flight i o
}.

Lemma settledAt_spec at_ w now : settledAt at_ w now = false ↔ at_ ≠ zero_time ∧ time_Sub now at_ ≤ w.
Proof.
  unfold settledAt, IsZero. destruct (Z.eqb_spec at_ zero_time); [naive_solver|].
  rewrite Z.gtb_ltb, Z.ltb_ge. naive_solver.
Qed.

Lemma readOracle_reads i o : reads_oracle i o (readOracle i o).
Proof.
  unfold readOracle. constructor; unfold expects, doubts, in_flight; destruct (Get _ _ _) as [en|];
    cbn [OracleValue KnownToOracle OracleTrust XLastEventAt]; rewrite ?settledAt_spec; naive_solver.
Qed.

(** an accusation is earned, and none is withheld: Explain says DIVERGED exactly when the store
    answered and either holds a type the projection cannot read, or holds a value other than the one
    expected for a key that has settled and is not under suspicion. *)
Theorem diverged_exactly_when_earned i e o :
  InOracle i = Some o → Explain i = Some (inr e) →
  XVerdict e = VerdictDiverged ↔
    (∃ got, gave_type i got)
    ∨ (∃ v, gave i v ∧ Value_Equal (expects i o) v = false ∧ ¬ in_flight i o ∧ ¬ doubts i o).
Proof.
  intros Ho (o' & ds & Ho' & _ & ->)%Explain_inv. rewrite Ho in Ho'. injection Ho' as <-.
  rewrite XVerdict_gather. destruct (readOracle_reads i o) as [Hv Hunk _ Htr Hset]. setoid_rewrite <- Hset.
  setoid_rewrite <- Htr. rewrite <- Hv.
  assert (KnownToOracle (readOracle i o) = false → OracleValue (readOracle i o) = absent) as Hun by (rewrite Hv; done).
  clear Hunk Htr Hset Hv. set (os := readOracle i o) in *. clearbody os. unfold decideVerdict.
  destruct (readTarget_answered i) as [ts Hs Hr Hval Hty|ts got Hs Hr Hval Hty|ts v Hs Hr Hval Hty]; rewrite Hr, Hval, Hty.
  - split; [|intros [[got Hg]|(v & Hg & _)]; exfalso; eauto using silent_not_type, silent_not_gave].
    intros Hx. by repeat case_match.
  - split; [by eauto|]. intros _. destruct Hs as (ans & _ & _ & Hne). rewrite !bool_decide_false by done.
    by rewrite andb_false_r.
  - cbn. split.
    + intros Hx. right. exists v. split; [done|]. destruct (KnownToOracle os) eqn:Hk; cbn in Hx.
      * destruct (Value_Equal _ _); [done|]. destruct (settledAt _ _ _); [|done]. cbn in Hx.
        case_decide; [done|]. by split_and!.
      * destruct (Value_IsAbsent v) eqn:Hab; cbn in Hx; [done|].
        destruct (Value_Equal _ _); [done|]. destruct (settledAt _ _ _); [|done]. cbn in Hx.
        case_decide; [done|]. by split_and!.
    + intros [[got Hg]|(v' & Hg & Heq & Hset & Htr)]; [exfalso; eauto using gave_not_type|].
      rewrite (gave_fun _ _ _ Hg Hs) in Heq. rewrite Heq. apply not_false_iff_true in Hset. rewrite Hset. cbn.
      rewrite decide_False by done. destruct (KnownToOracle os) eqn:Hk; [done|].
      rewrite (Hun eq_refl) in Heq. destruct (Value_IsAbsent v) eqn:Hab; [|done].
      unfold Value_Equal in Heq. by rewrite Hab in Heq.
Qed.

(** ** Which rules speak *)

Lemma find_code_elem ds code : is_Some (List.find (λ d, bool_decide (Code d = code)) ds) ↔ ∃ d, d ∈ ds ∧ Code d = code.
Proof.
  split.
  - intros [d Hd]. apply find_some in Hd as [Hin Hc]. exists d. split; [by apply list_elem_of_In|].
    by apply bool_decide_eq_true in Hc.
  - intros (d & Hin & Hc). destruct (List.find _ ds) eqn:Hf; [by eexists|].
    apply list_elem_of_In in Hin. pose proof (find_none _ _ Hf _ Hin) as Hn. by apply bool_decide_eq_false in Hn.
Qed.

Lemma Has_code e code : code ∈ (Code <$> XDiagnosis e) → Has e code = true.
Proof.
  intros (d & -> & Hd)%list_elem_of_fmap. unfold Has, Find. rewrite bool_decide_eq_true, find_code_elem. by exists d.
Qed.

Lemma rules_functional code f g : (code, f) ∈ rules → (code, g) ∈ rules → f = g.
Proof.
  intros [a Ha]%list_elem_of_lookup [b Hb]%list_elem_of_lookup. assert (a = b) as <-; [|congruence].
  apply (NoDup_lookup (codes_of rules) a b code rules_distinct); unfold codes_of; rewrite list_lookup_fmap.
  - by rewrite Ha.
  - by rewrite Hb.
Qed.

(** An answer has a code exactly when the rule of that code fires on what was gathered. *)
Lemma Has_rule i o e code fire :
  InOracle i = Some o → Explain i = Some (inr e) → (code, fire) ∈ rules →
  Has e code = true ↔ ∃ d, fire (gather (input_applyDefaults i) o) (input_applyDefaults i) (InNow i) = Some (Some d).
Proof.
  intros Ho (o' & ds & Ho' & Hds & ->)%Explain_inv Hin. rewrite Ho in Ho'. injection Ho' as <-.
  unfold Has, Find. cbn [XDiagnosis with_diagnoses]. rewrite bool_decide_eq_true, find_code_elem.
  setoid_rewrite merge_sort_Permutation. rewrite (fire_all_elem _ _ _ _ _ code rules_distinct Hds). split.
  - intros (f & d & Hf & Hd). rewrite (rules_functional _ _ _ Hin Hf). eauto.
  - intros (d & Hd). eauto.
Qed.

Lemma guarded_say (b : bool) c statement evidence :
  (∃ d, (if b then silent else say c statement evidence) = Some (Some d)) ↔ b = false.
Proof. destruct b; split; try done; [by intros [d Hd]|]. intros _. by eexists. Qed.

Lemma gather_sides i o :
  let g := gather (input_applyDefaults i) o in
  oside g = readOracle i o ∧ tside g = readTarget i
  ∧ MissingMemberCount g = length (member_diff (OracleValue (readOracle i o)) (TargetValue (readTarget i))).1
  ∧ ExtraMemberCount g = length (member_diff (OracleValue (readOracle i o)) (TargetValue (readTarget i))).2.
Proof.
  unfold gather. change (readOracle (input_applyDefaults i) o) with (readOracle i o).
  change (readTarget (input_applyDefaults i)) with (readTarget i). by destruct (member_diff _ _) as [a b].
Qed.

Lemma difference_perm (a b : gset string) : difference a b ≡ₚ elements (a ∖ b).
Proof.
  unfold difference, sort_Strings. rewrite merge_sort_Permutation.
  apply NoDup_Permutation; [|apply NoDup_elements|].
  - apply NoDup_ListNoDup, List.NoDup_filter, NoDup_ListNoDup, NoDup_range_set.
  - intros m. rewrite elem_of_elements, elem_of_difference, <- (elem_of_range_set a), !list_elem_of_In, filter_In.
    by rewrite negb_true_iff, bool_decide_eq_false.
Qed.

Lemma difference_size (a b : gset string) : length (difference a b) = size (a ∖ b).
Proof. by rewrite difference_perm. Qed.

(** Nothing missing one way and something the other is strict inclusion. *)
Lemma counts_subset (a b : gset string) :
  negb (length (difference a b) =? 0)%nat && (length (difference b a) =? 0)%nat = true ↔ b ⊂ a.
Proof.
  rewrite andb_true_iff, negb_true_iff, !difference_size, Nat.eqb_eq, Nat.eqb_neq.
  setoid_rewrite size_empty_iff. rewrite strict_spec_alt. split.
  - intros [Hn He]. split; [|by intros ->; apply Hn; set_solver].
    intros x Hx. destruct (decide (x ∈ a)); [done|]. set_solver.
  - intros [Hs Hn]. split; [|set_solver]. intros He. apply Hn. apply set_eq. intros x. split; [by apply Hs|].
    intros Hx. destruct (decide (x ∈ b)); [done|]. set_solver.
Qed.

Lemma gave_readTarget i v :
  gave i v → TargetReachable (readTarget i) = true ∧ TargetValue (readTarget i) = v.
Proof. intros (ans & Ht & [Hv|[Hv ->]]); unfold readTarget; rewrite Ht, Hv; done. Qed.

(** what Explain says of two sets is exactly how they stand: an answer carries MEMBER_SUBSET exactly
    when the store gave a set strictly inside the one expected, and MEMBER_SUPERSET exactly when it
    gave one strictly around it. *)
Theorem member_rules_are_exact i o e v :
  InOracle i = Some o → gave i v → Kind v = ValueSet → Kind (expects i o) = ValueSet → Explain i = Some (inr e) →
  (Has e CodeMemberSubset = true ↔ members_of v ⊂ members_of (expects i o))
  ∧ (Has e CodeMemberSuperset = true ↔ members_of (expects i o) ⊂ members_of v).
Proof.
  intros Ho Hg Hk Hk' He.
  rewrite (Has_rule i o e _ (λ e _ _, ruleMemberSubset e) Ho He), (Has_rule i o e _ (λ e _ _, ruleMemberSuperset e) Ho He);
    [|unfold rules; set_solver..].
  unfold ruleMemberSubset, ruleMemberSuperset, isSetComparison.
  destruct (gather_sides i o) as (-> & -> & -> & ->). destruct (gave_readTarget i v Hg) as [-> ->].
  rewrite (ro_value _ _ _ (readOracle_reads i o)). unfold member_diff. rewrite Hk, Hk', !bool_decide_true by done.
  cbn [negb andb orb fst snd]. rewrite !guarded_say, !orb_false_iff, !negb_false_iff.
  rewrite <- !counts_subset, !andb_true_iff, !negb_true_iff. done.
Qed.
(** A key the oracle does not know is UNKNOWN KEY when the store does not answer, as if neither side had
    heard of it. *)
Theorem unreadable_key_is_called_unknown i o e :
  InOracle i = Some o → Get (InOracleNow i) o (InKey i) = None → silent_store i → Explain i = Some (inr e) →
  XVerdict e = VerdictUnknownKey.
Proof.
  intros Ho Hg Hs (o' & ds & Ho' & _ & ->)%Explain_inv. rewrite Ho in Ho'. injection Ho' as <-.
  rewrite XVerdict_gather. unfold decideVerdict. destruct (ro_known _ _ _ (readOracle_reads i o)) as [Hk _].
  destruct (KnownToOracle (readOracle i o)); [destruct (Hk eq_refl) as [? ?]; congruence|].
  destruct (readTarget_answered i) as [ts _ _ -> ->|ts got Ht _ _ _|ts v Hv _ _ _];
    [done|exfalso; by eapply silent_not_type|exfalso; by eapply silent_not_gave].
Qed.
End verdict.
