(* ===== verification/Differ.v ===== *)
(** * Differ: comparing an expectation with the store (pkg/differ)

    [Compare] and its siblings, and the report a sweep accumulates. The package
    is pure: the instant, the two values and the options are arguments. *)
From stdpp Require Import pretty.
From S2P Require Import Prelude GoBase GoStrings Event SeqTrack Ring Shard Target.

(** ** Categories and options (categorize.go) *)

Inductive Category :=
| CatMissingInTarget | CatExtraInTarget | CatValueMismatch | CatMemberMismatch
| CatTypeMismatch | CatTTLMismatch | CatCounterMismatch.

#[export] Instance Category_eq_dec : EqDecision Category.
Proof. solve_decision. Defined.

(** The number behind the Go constant. *)
Definition Category_number (c : Category) : nat :=
  match c with
  | CatMissingInTarget => 0 | CatExtraInTarget => 1 | CatValueMismatch => 2
  | CatMemberMismatch => 3 | CatTypeMismatch => 4 | CatTTLMismatch => 5 | CatCounterMismatch => 6
  end.
Definition Category_of_number (n : nat) : Category :=
  match n with
  | 0 => CatMissingInTarget | 1 => CatExtraInTarget | 2 => CatValueMismatch
  | 3 => CatMemberMismatch | 4 => CatTypeMismatch | 5 => CatTTLMismatch | _ => CatCounterMismatch
  end%nat.
#[export] Program Instance Category_countable : Countable Category :=
  inj_countable' Category_number Category_of_number _.
Next Obligation. by intros []. Qed.

Definition TrustState_number (t : TrustState) : nat :=
  match t with TrustComplete => 0 | TrustSuspect => 1 | TrustAdopted => 2 end.
Definition TrustState_of_number (n : nat) : TrustState :=
  match n with 0 => TrustComplete | 1 => TrustSuspect | _ => TrustAdopted end%nat.
#[export] Program Instance TrustState_countable : Countable TrustState :=
  inj_countable' TrustState_number TrustState_of_number _.
Next Obligation. by intros []. Qed.

Definition Category_String (c : Category) : string :=
  match c with
  | CatMissingInTarget => "missing_in_target"
  | CatExtraInTarget => "extra_in_target"
  | CatValueMismatch => "value_mismatch"
  | CatMemberMismatch => "member_mismatch"
  | CatTypeMismatch => "type_mismatch"
  | CatTTLMismatch => "ttl_mismatch"
  | CatCounterMismatch => "counter_mismatch"
  end.

Inductive ExpiryPolicy := ExpiryStrict | ExpiryIgnore | ExpiryModel.

#[export] Instance ExpiryPolicy_eq_dec : EqDecision ExpiryPolicy.
Proof. solve_decision. Defined.

Definition ExpiryPolicy_String (p : ExpiryPolicy) : string :=
  match p with ExpiryStrict => "strict" | ExpiryIgnore => "ignore" | ExpiryModel => "model" end.

Definition defaultTTLTolerance : Duration := 5 * time_Second.
Definition defaultMaxMembersReported : Z := 20.
Definition defaultMaxFindings : Z := 10000.

Record Options := mkOptions {
  TTLTolerance : Duration;
  OExpiryPolicy : ExpiryPolicy;
  AssumedTTL : Duration;
  MaxMembersReported : Z;
  MaxFindings : Z;
  Now : Time
}.

Definition applyDefaults (o : Options) : Options :=
  mkOptions
    (if TTLTolerance o <=? 0 then defaultTTLTolerance else TTLTolerance o)
    (OExpiryPolicy o) (AssumedTTL o)
    (if MaxMembersReported o <=? 0 then defaultMaxMembersReported else MaxMembersReported o)
    (if MaxFindings o <=? 0 then defaultMaxFindings else MaxFindings o)
    (Now o).

Record Finding := mkFinding {
  FKey : string;
  FCategory : Category;
  FTrust : TrustState;
  OracleValue : Value;
  TargetValue : Value;
  MissingMembers : list string;
  ExtraMembers : list string;
  MissingMemberCount : Z;
  ExtraMemberCount : Z;
  OracleVersion : Z;
  FLastEventAt : Time;
  FLastSeq : Z;
  FLastPublisher : string;
  TargetType : string;
  OracleTTL : option Duration;
  TargetTTL : option Duration;
  FirstSeenAt : Time;
  Confirmed : bool
}.

(** Assignments to single fields. *)
Definition with_TargetType (f : Finding) (t : string) : Finding :=
  mkFinding (FKey f) (FCategory f) (FTrust f) (OracleValue f) (TargetValue f) (MissingMembers f)
    (ExtraMembers f) (MissingMemberCount f) (ExtraMemberCount f) (OracleVersion f)
    (FLastEventAt f) (FLastSeq f) (FLastPublisher f) t (OracleTTL f) (TargetTTL f)
    (FirstSeenAt f) (Confirmed f).
Definition with_TTLs (f : Finding) (oracleTTL targetTTL : option Duration) : Finding :=
  mkFinding (FKey f) (FCategory f) (FTrust f) (OracleValue f) (TargetValue f) (MissingMembers f)
    (ExtraMembers f) (MissingMemberCount f) (ExtraMemberCount f) (OracleVersion f)
    (FLastEventAt f) (FLastSeq f) (FLastPublisher f) (TargetType f) oracleTTL targetTTL
    (FirstSeenAt f) (Confirmed f).
Definition with_sighting (f : Finding) (firstSeenAt : Time) (confirmed : bool) : Finding :=
  mkFinding (FKey f) (FCategory f) (FTrust f) (OracleValue f) (TargetValue f) (MissingMembers f)
    (ExtraMembers f) (MissingMemberCount f) (ExtraMemberCount f) (OracleVersion f)
    (FLastEventAt f) (FLastSeq f) (FLastPublisher f) (TargetType f) (OracleTTL f) (TargetTTL f)
    firstSeenAt confirmed.

(** ** Comparison (differ.go) *)

(** An expiry may explain an absence only under the ignore policy. *)
Definition suppressedByExpiry (oe : Entry) (opts : Options) : bool :=
  if negb (bool_decide (OExpiryPolicy opts = ExpiryIgnore)) then false
  else if (AssumedTTL opts <=? 0) || IsZero (Now opts) || IsZero (LastEventAt oe) then false
  else time_Sub (Now opts) (LastEventAt oe) >? AssumedTTL opts.

Section differ.
Context `{MapOrder}.

(** The loop of diffMembers: what is listed so far and the count. *)
Definition diff_step (b : gset string) (limit : Z) (acc : list string * Z) (member : string)
    : list string * Z :=
  let '(listed, total) := acc in
  if bool_decide (member ∈ b) then acc
  else (if Z.of_nat (length listed) <? limit then listed ++ [member] else listed, total + 1).

Definition diffMembers (a b : gset string) (limit : Z) : list string * Z :=
  if (size a =? 0)%nat then ([], 0)
  else
    let '(listed, total) := foldl (diff_step b limit) ([], 0) (range_set a) in
    if total =? 0 then ([], 0) else (sort_Strings listed, total).

Definition newFinding (key : string) (cat : Category) (oe : Entry) (tv : Value) (opts : Options)
    : Finding :=
  let sets := bool_decide (Kind (EntValue oe) = ValueSet) || bool_decide (Kind tv = ValueSet) in
  let '(missing, nmissing) :=
    if sets then diffMembers (members_of (EntValue oe)) (members_of tv) (MaxMembersReported opts)
    else ([], 0) in
  let '(extra, nextra) :=
    if sets then diffMembers (members_of tv) (members_of (EntValue oe)) (MaxMembersReported opts)
    else ([], 0) in
  mkFinding key cat (Trust oe) (EntValue oe) tv missing extra nmissing nextra (Shard.Version oe)
    (LastEventAt oe) (LastSeq oe) (LastPublisher oe) "" (EntTTL oe) None zero_time false.

Definition Compare (key : string) (oe : Entry) (tv : Value) (opts : Options) : option Finding :=
  let opts := applyDefaults opts in
  let oracleAbsent := Value_IsAbsent (EntValue oe) in
  let targetAbsent := Value_IsAbsent tv in
  if oracleAbsent && targetAbsent then None
  else if oracleAbsent && negb targetAbsent then
    if decide (Trust oe = TrustAdopted) then None
    else Some (newFinding key CatExtraInTarget oe tv opts)
  else if negb oracleAbsent && targetAbsent then
    if suppressedByExpiry oe opts then None
    else Some (newFinding key CatMissingInTarget oe tv opts)
  else if Value_Equal (EntValue oe) tv then None
  else if negb (bool_decide (Kind (EntValue oe) = Kind tv)) then
    Some (with_TargetType (newFinding key CatTypeMismatch oe tv opts) (ValueKind_String (Kind tv)))
  else
    match Kind (EntValue oe) with
    | ValueSet => Some (newFinding key CatMemberMismatch oe tv opts)
    | ValueCounter => Some (newFinding key CatCounterMismatch oe tv opts)
    | ValueScalar => Some (newFinding key CatValueMismatch oe tv opts)
    | ValueAbsent => None
    | ValueKindOther _ => Some (newFinding key CatValueMismatch oe tv opts)
    end.

Definition CompareUnreadable (key : string) (oe : Entry) (targetType : string) (opts : Options)
    : Finding :=
  let opts := applyDefaults opts in
  with_TargetType (newFinding key CatTypeMismatch oe absent opts) targetType.

Definition CompareTTL (key : string) (oe : Entry) (targetTTL : option Duration) (opts : Options)
    : option Finding :=
  let opts := applyDefaults opts in
  let oracleTTL := EntTTL oe in
  let finding :=
    if decide (OExpiryPolicy opts = ExpiryIgnore) then None
    else Some (with_TTLs (newFinding key CatTTLMismatch oe absent opts) oracleTTL targetTTL) in
  match oracleTTL, targetTTL with
  | None, None => None
  | Some o, Some t =>
      let delta := i64 (o - t) in
      let delta := if delta <? 0 then i64 (- delta) else delta in
      if delta <=? TTLTolerance opts then None else finding
  | _, _ => finding
  end.

(** ** Reports (report.go) *)

Inductive Pass := PassOracleToTarget | PassTargetToOracle.

Record Report := mkReport {
  RPass : Pass;
  StartedAt : Time;
  FinishedAt : Time;
  KeysCompared : Z;
  KeysSkippedInFlight : Z;
  KeysSkippedSuspect : Z;
  KeysSkippedAdopted : Z;
  RSettlementWindow : Duration;
  Findings : list Finding;
  ByCategory : gmap Category Z;
  ByTrust : gmap TrustState Z;
  EvictionSuspected : bool;
  TargetHealth : Health;
  RTruncated : bool;
  maxFindings : Z
}.

Definition no_health : Health := mkHealth false 0 0 0 0 0 "" 0 "".

Definition NewReport (startedAt : Time) (opts : Options) : Report :=
  let opts := applyDefaults opts in
  mkReport PassOracleToTarget startedAt zero_time 0 0 0 0 0 [] ∅ ∅ false no_health false
    (MaxFindings opts).

(** [m[k]++] *)
Definition map_incr `{Countable K} (k : K) (m : gmap K Z) : gmap K Z :=
  <[k := default 0 (m !! k) + 1]> m.

Definition Add (r : Report) (f : option Finding) : Report :=
  match f with
  | None => r
  | Some f =>
      let cats := map_incr (FCategory f) (ByCategory r) in
      let trusts := map_incr (FTrust f) (ByTrust r) in
      let full := Z.of_nat (length (Findings r)) >=? maxFindings r in
      mkReport (RPass r) (StartedAt r) (FinishedAt r) (KeysCompared r) (KeysSkippedInFlight r)
        (KeysSkippedSuspect r) (KeysSkippedAdopted r) (RSettlementWindow r)
        (if full then Findings r else Findings r ++ [f]) cats trusts (EvictionSuspected r)
        (TargetHealth r) (if full then true else RTruncated r) (maxFindings r)
  end.

Definition Total (r : Report) : Z :=
  foldl (λ n kv, n + kv.2) 0 (range_map (ByCategory r)).

Definition Alertable (r : Report) : Z := Total r - default 0 (ByTrust r !! TrustSuspect).

Definition Report_Duration (r : Report) : Duration :=
  if IsZero (StartedAt r) || IsZero (FinishedAt r) then 0
  else time_Sub (FinishedAt r) (StartedAt r).

Definition renderMembers (members : list string) (total : Z) : string :=
  let shown := strings_Join members " " in
  if total >? Z.of_nat (length members) then
    shown +:+ " ... and " +:+ pretty (total - Z.of_nat (length members)) +:+ " more ("
      +:+ pretty total +:+ " total)"
  else shown.
End differ.

(** ** Lemmas on member diffs *)

Section diffs.
Context `{MapOrder}.

Lemma diff_fold b limit l : ∀ listed total,
  foldl (diff_step b limit) (listed, total) l
  = (listed ++ take (Z.to_nat limit - length listed) (filter (λ m, m ∉ b) l),
     total + Z.of_nat (length (filter (λ m, m ∉ b) l))).
Proof.
  induction l as [|m l IH]; intros listed total.
  { cbn. rewrite take_nil, app_nil_r. f_equal. lia. }
  cbn [foldl]. unfold diff_step at 2. rewrite filter_cons. case_bool_decide as Hm.
  - rewrite decide_False by tauto. apply IH.
  - rewrite decide_True by done. rewrite IH. cbn [length].
    destruct (Z.ltb_spec (Z.of_nat (length listed)) limit) as [Hlt|Hge]; f_equal; try lia.
    + rewrite length_app, <- app_assoc. cbn [length app].
      replace (Z.to_nat limit - length listed)%nat
        with (S (Z.to_nat limit - (length listed + 1))) by lia. done.
    + replace (Z.to_nat limit - length listed)%nat with 0%nat by lia. done.
Qed.

(** The members of [a] missing from [b], in the order the map is walked. *)
Definition missing_in (a b : gset string) : list string := filter (λ m, m ∉ b) (range_set a).

Lemma missing_in_elements a b : missing_in a b ≡ₚ elements (a ∖ b).
Proof.
  apply NoDup_Permutation.
  - apply NoDup_filter, NoDup_range_set.
  - apply NoDup_elements.
  - intros m. unfold missing_in. rewrite list_elem_of_filter, elem_of_range_set, elem_of_elements. set_solver.
Qed.

Lemma diffMembers_eq a b limit :
  diffMembers a b limit
  = (sort_Strings (take (Z.to_nat limit) (missing_in a b)), Z.of_nat (size (a ∖ b))).
Proof.
  unfold diffMembers. rewrite diff_fold. cbn [length]. rewrite Nat.sub_0_r. cbn [app].
  fold (missing_in a b). rewrite (Permutation_length (missing_in_elements a b)).
  change (length (elements (a ∖ b))) with (size (a ∖ b)).
  destruct (Nat.eqb_spec (size a) 0) as [Ha|Ha].
  - apply size_empty_inv, leibniz_equiv in Ha as ->. unfold missing_in.
    assert (range_set ∅ = []) as -> by (apply length_zero_iff_nil; by rewrite length_range_set).
    change (filter _ []) with (@nil string). rewrite take_nil.
    replace (∅ ∖ b) with (∅ : gset string) by set_solver. by rewrite size_empty.
  - destruct (Z.eqb_spec (0 + Z.of_nat (size (a ∖ b))) 0) as [Hz|Hz]; [|f_equal; lia].
    assert (missing_in a b = []) as ->; [|by rewrite take_nil; f_equal; lia].
    apply length_zero_iff_nil. rewrite (Permutation_length (missing_in_elements a b)).
    change (length (elements (a ∖ b))) with (size (a ∖ b)). lia.
Qed.
End diffs.

Lemma sort_Strings_perm l : sort_Strings l ≡ₚ l.
Proof. apply merge_sort_Permutation. Qed.

Lemma sort_Strings_sorted l : Sorted String.le (sort_Strings l).
Proof. apply Sorted_merge_sort, _. Qed.

(** Sorting forgets the order the strings came in. *)
Lemma sort_Strings_proper l l' : l ≡ₚ l' → sort_Strings l = sort_Strings l'.
Proof.
  intros Hp. apply (Sorted_unique String.le); [apply sort_Strings_sorted..|].
  by rewrite !sort_Strings_perm.
Qed.

Section properties.
Context `{MapOrder}.

(** Why a comparison can stay silent although the values differ. *)
Definition excused (oe : Entry) (tv : Value) (opts : Options) : Prop :=
  (Value_IsAbsent (EntValue oe) = true ∧ Trust oe = TrustAdopted)
  ∨ (Value_IsAbsent (EntValue oe) = false ∧ Value_IsAbsent tv = true
     ∧ suppressedByExpiry oe (applyDefaults opts) = true).

(** The category a disagreement has to be filed under. *)
Definition category_of (expected observed : Value) : Category :=
  if Value_IsAbsent expected then CatExtraInTarget
  else if Value_IsAbsent observed then CatMissingInTarget
  else if negb (bool_decide (Kind expected = Kind observed)) then CatTypeMismatch
  else match Kind expected with
       | ValueSet => CatMemberMismatch
       | ValueCounter => CatCounterMismatch
       | _ => CatValueMismatch
       end.

(** C19: [Compare] reports a key exactly when the two values differ as [Value.Equal] sees them and
    neither the adoption rule nor the expiry policy excuses it; there is no second notion of
    equality in the categories. *)
Theorem compare_reports_exactly_differences key oe tv opts :
  known_kind (EntValue oe) →
  Compare key oe tv opts = None ↔ content (EntValue oe) = content tv ∨ excused oe tv opts.
Proof.
  intros Hk. rewrite <- Value_Equal_content by done. unfold Compare, excused. cbv zeta.
  destruct (Value_IsAbsent (EntValue oe)) eqn:Ho, (Value_IsAbsent tv) eqn:Ht; cbn [andb negb].
  - unfold Value_Equal. rewrite Ho, Ht. cbn. naive_solver.
  - unfold Value_Equal. rewrite Ho, Ht. cbn. case_decide; naive_solver.
  - unfold Value_Equal. rewrite Ho, Ht. cbn. destruct (suppressedByExpiry _ _); naive_solver.
  - destruct (Value_Equal (EntValue oe) tv) eqn:He; [naive_solver|].
    destruct (negb _); [naive_solver|]. unfold Value_IsAbsent in Ho.
    destruct (Kind (EntValue oe)) eqn:Hkind; naive_solver.
Qed.

(** What a finding made by [Compare] records. *)
Lemma Compare_fields key oe tv opts f :
  Compare key oe tv opts = Some f →
  FKey f = key ∧ FCategory f = category_of (EntValue oe) tv
  ∧ OracleValue f = EntValue oe ∧ TargetValue f = tv
  ∧ OracleVersion f = Shard.Version oe ∧ FTrust f = Trust oe ∧ FLastSeq f = LastSeq oe
  ∧ Confirmed f = false
  ∧ (TargetType f ≠ "" → FCategory f = CatTypeMismatch ∧ TargetType f = ValueKind_String (Kind tv)).
Proof.
  assert (∀ cat o, let g := newFinding key cat oe tv o in
    FKey g = key ∧ FCategory g = cat ∧ OracleValue g = EntValue oe ∧ TargetValue g = tv
    ∧ OracleVersion g = Shard.Version oe ∧ FTrust g = Trust oe ∧ FLastSeq g = LastSeq oe
    ∧ Confirmed g = false ∧ TargetType g = "") as Hnew.
  { intros cat o. unfold newFinding. cbv zeta.
    destruct (if _ || _ then diffMembers _ _ _ else _) as [m n].
    destruct (if _ || _ then diffMembers _ _ _ else _) as [m' n']. done. }
  unfold Compare, category_of. cbv zeta.
  destruct (Value_IsAbsent (EntValue oe)), (Value_IsAbsent tv); cbn [andb negb]; try done.
  - case_decide; [done|]. intros [= <-].
    destruct (Hnew CatExtraInTarget (applyDefaults opts)) as (?&?&?&?&?&?&?&?&->). done.
  - destruct (suppressedByExpiry _ _); [done|]. intros [= <-].
    destruct (Hnew CatMissingInTarget (applyDefaults opts)) as (?&?&?&?&?&?&?&?&->). done.
  - destruct (Value_Equal _ _); [done|]. destruct (negb _).
    + intros [= <-]. destruct (Hnew CatTypeMismatch (applyDefaults opts)) as (?&?&?&?&?&?&?&?&?). done.
    + destruct (Kind (EntValue oe)); intros [= <-];
        match goal with |- context [newFinding _ ?c _ _ _] =>
          destruct (Hnew c (applyDefaults opts)) as (?&?&?&?&?&?&?&?&->); done end.
Qed.

(** a finding says which key, what was expected at which version and with what trust, what was
    found, and the one category the pair of values belongs to. *)
Theorem finding_is_faithful key oe tv opts f :
  Compare key oe tv opts = Some f →
  FKey f = key ∧ FCategory f = category_of (EntValue oe) tv
  ∧ OracleValue f = EntValue oe ∧ TargetValue f = tv
  ∧ OracleVersion f = Shard.Version oe ∧ FTrust f = Trust oe ∧ FLastSeq f = LastSeq oe
  ∧ Confirmed f = false
  ∧ (TargetType f ≠ "" → FCategory f = CatTypeMismatch ∧ TargetType f = ValueKind_String (Kind tv)).
Proof. apply Compare_fields. Qed.

(** the member lists of a finding are sorted, free of repetition and genuine, as many as the
    limit allows, with the exact total beside them; when nothing was cut they do not depend on the
    order the map was walked in. *)
Theorem member_diff_exact a b limit :
  let '(listed, total) := diffMembers a b limit in
  total = Z.of_nat (size (a ∖ b))
  ∧ length listed = Nat.min (Z.to_nat limit) (size (a ∖ b))
  ∧ NoDup listed ∧ Sorted String.le listed ∧ (∀ m, m ∈ listed → m ∈ a ∧ m ∉ b)
  ∧ (total ≤ limit → listed = sort_Strings (elements (a ∖ b))).
Proof.
  rewrite diffMembers_eq. pose proof (missing_in_elements a b) as Hp.
  assert (length (missing_in a b) = size (a ∖ b)) as Hlen by (by rewrite Hp).
  split_and!.
  - done.
  - rewrite (Permutation_length (sort_Strings_perm _)), length_take. by rewrite Hlen.
  - rewrite sort_Strings_perm. assert (NoDup (missing_in a b)) as Hnd by (rewrite Hp; apply NoDup_elements).
    rewrite <- (take_drop (Z.to_nat limit)) in Hnd. by apply NoDup_app in Hnd as [? _].
  - apply sort_Strings_sorted.
  - intros m. rewrite sort_Strings_perm. intros Hm%take_In. rewrite Hp in Hm. set_solver.
  - intros Hle. apply sort_Strings_proper. rewrite take_ge by lia. done.
Qed.

(** ** Reports *)

Lemma Total_sum r : Total r = map_fold (λ _ n acc, n + acc) 0 (ByCategory r).
Proof.
  unfold Total. rewrite map_fold_foldr. unfold range_map.
  assert (∀ l acc, foldl (λ n kv, n + kv.2) acc l = acc + foldr (λ (kv : Category * Z) n, kv.2 + n) 0 l) as Hl.
  { induction l as [|kv l IH]; intros acc; cbn; [lia|]. rewrite IH. lia. }
  rewrite Hl. assert (∀ l l' : list (Category * Z), l ≡ₚ l' →
    foldr (λ kv n, kv.2 + n) 0 l = foldr (λ kv n, kv.2 + n) 0 l') as Hp.
  { induction 1; cbn; [done|congruence|lia|congruence]. }
  rewrite (Hp _ _ (range_order_perm _)). rewrite Z.add_0_l.
  induction (map_to_list (ByCategory r)) as [|[c n] l IH]; [done|]. cbn. by rewrite IH.
Qed.

Lemma sum_map_incr (c : Category) (m : gmap Category Z) :
  map_fold (λ _ n acc, n + acc) 0 (map_incr c m) = map_fold (λ _ n acc, n + acc) 0 m + 1.
Proof.
  unfold map_incr. destruct (m !! c) as [n|] eqn:Hc; cbn.
  - rewrite <- insert_delete_eq.
    rewrite (map_fold_insert_L (λ _ (n : Z) acc, n + acc)) by (try apply lookup_delete_eq; intros; lia).
    rewrite (map_fold_delete_L (λ _ (n : Z) acc, n + acc) 0 c n m) by (try done; intros; lia). lia.
  - rewrite (map_fold_insert_L (λ _ (n : Z) acc, n + acc)) by (try done; intros; lia). lia.
Qed.

Definition add_all (r : Report) (fs : list Finding) : Report := foldl (λ r f, Add r (Some f)) r fs.

(** a report never loses the magnitude. However many findings are added, the totals count all of
    them, by trust as well; the list keeps the first [MaxFindings] in order, and the truncation mark
    is set exactly when something was left out. *)
Theorem report_counts_everything startedAt opts fs :
  let r := add_all (NewReport startedAt opts) fs in
  Total r = Z.of_nat (length fs)
  ∧ Alertable r = Z.of_nat (length (filter (λ f, FTrust f ≠ TrustSuspect) fs))
  ∧ Findings r = take (Z.to_nat (MaxFindings (applyDefaults opts))) fs
  ∧ (RTruncated r = true ↔ MaxFindings (applyDefaults opts) < Z.of_nat (length fs)).
Proof.
  assert (0 < MaxFindings (applyDefaults opts)) as Hmax.
  { unfold applyDefaults, defaultMaxFindings. cbn. case_match; zbool; lia. }
  set (mx := MaxFindings (applyDefaults opts)) in *. cbv zeta.
  assert (maxFindings (add_all (NewReport startedAt opts) fs) = mx
    ∧ map_fold (λ _ n acc, n + acc) 0 (ByCategory (add_all (NewReport startedAt opts) fs)) = Z.of_nat (length fs)
    ∧ default 0 (ByTrust (add_all (NewReport startedAt opts) fs) !! TrustSuspect)
      = Z.of_nat (length (filter (λ f, FTrust f = TrustSuspect) fs))
    ∧ Findings (add_all (NewReport startedAt opts) fs) = take (Z.to_nat mx) fs
    ∧ (RTruncated (add_all (NewReport startedAt opts) fs) = true ↔ mx < Z.of_nat (length fs)))
    as (_ & H1 & H2 & H3 & H4).
  { induction fs as [|f fs (I0 & I1 & I2 & I3 & I4)] using rev_ind.
    { split_and!; try done; [by rewrite take_nil|]. split; [done|]. cbn [length]. lia. }
    unfold add_all in *. rewrite foldl_app. cbn [foldl].
    set (r := foldl _ _ fs) in *. cbn [Add maxFindings ByCategory ByTrust Findings RTruncated].
    rewrite length_app, I0, filter_app, length_app. cbn [length]. split_and!.
    - done.
    - rewrite sum_map_incr, I1. lia.
    - unfold map_incr. rewrite lookup_insert. rewrite filter_cons. case_decide as Hd.
      + rewrite Hd in *. cbn [default length]. rewrite I2. change (filter _ []) with (@nil Finding). cbn [length id]. lia.
      + rewrite I2. change (filter _ []) with (@nil Finding). cbn [length]. lia.
    - rewrite I3, length_take. destruct (Z.geb_spec (Z.of_nat (Nat.min (Z.to_nat mx) (length fs))) mx).
      + rewrite take_app_le by lia. done.
      + rewrite take_ge by lia. by rewrite take_ge by (rewrite length_app; cbn [length]; lia).
    - rewrite I3, length_take. destruct (Z.geb_spec (Z.of_nat (Nat.min (Z.to_nat mx) (length fs))) mx).
      + split; [lia|done].
      + rewrite I4. lia. }
  rewrite Total_sum. split_and!; try done. unfold Alertable. rewrite Total_sum, H1, H2.
  clear. induction fs as [|f fs IH]; [done|]. rewrite !filter_cons. cbn [length].
  destruct (decide (FTrust f = TrustSuspect)).
  - rewrite decide_False by tauto. cbn [length]. lia.
  - rewrite decide_True by done. cbn [length]. lia.
Qed.
End properties.

(** when the limit cuts a member list, which members it names depends on the order the runtime
    walks the map in: the sorted list is not the same from run to run. *)
Theorem truncated_diff_depends_on_map_order :
  diffMembers (H := ascending_order) {["a"; "b"]} ∅ 1
  ≠ diffMembers (H := descending_order) {["a"; "b"]} ∅ 1.
Proof. vm_compute. discriminate. Qed.

(** ** Witnesses *)

Definition sample_snapshot (v : Value) (t : TrustState) : Entry :=
  mkSnapshot "k" v 7 t 5 5 3 1 "pub" None false false 1.
Definition sample_options : Options := mkOptions 0 ExpiryStrict 0 0 0 100.

Lemma compare_reports_exactly_differences_witness :
  Compare (H := ascending_order) "k" (sample_snapshot (set_value ∅) TrustComplete) absent sample_options
    = None
  ∧ ¬ (Compare (H := ascending_order) "k" (sample_snapshot (set_value {["a"]}) TrustComplete) absent
         sample_options = None).
Proof.
  split.
  - apply (compare_reports_exactly_differences (H := ascending_order)); [intros n; done|]. by left.
  - rewrite (compare_reports_exactly_differences (H := ascending_order)) by (intros n; done).
    intros [Hc|[[Hc _]|(_ & _ & Hc)]]; vm_compute in Hc; discriminate.
Defined.

Lemma finding_is_faithful_witness :
  ∃ f, Compare (H := ascending_order) "k" (sample_snapshot (set_value {["a"]}) TrustSuspect)
         (scalar_value "x") sample_options = Some f
  ∧ FCategory f = CatTypeMismatch ∧ FTrust f = TrustSuspect.
Proof.
  destruct (Compare (H := ascending_order) "k" (sample_snapshot (set_value {["a"]}) TrustSuspect)
    (scalar_value "x") sample_options) as [f|] eqn:Hf; [|vm_compute in Hf; discriminate].
  exists f. split; [done|].
  destruct (finding_is_faithful (H := ascending_order) _ _ _ _ f Hf) as (_ & Hc & _ & _ & _ & Ht & _).
  split; [rewrite Hc; by vm_compute|by rewrite Ht].
Defined.
