(* ===== verification/Sweeper.v ===== *)
(** * Sweeper: settle, diff and two-phase confirm (pkg/sweeper)

    The sweeper's state and its passes. The oracle, the store and the clock move
    while a pass runs: every access to one of them is stamped with a tick, and a
    [world] says what each access sees, so a run covers every interleaving with
    the applier that some world describes. Passes run one at a time, as in the
    loop of [Run]; the parts a mutex makes atomic are single functions on the
    state. *)
From S2P Require Import Prelude GoBase GoStrings Event Projection SeqTrack Ring Shard PathMatch.
From S2P Require Import Oracle Target Differ.

(** ** Configuration and state *)

Record Config := mkConfig {
  TargetShape : Projection.Shape;
  DifferOptions : Options;
  SweepInterval : Duration;
  ExtraScanInterval : Duration;
  ConfirmInterval : Duration;
  ExtraScanPattern : string;
  ReadBatchSize : Z;
  MaxConfirmQueue : Z;
  MaxExtrasTracked : Z;
  RequirePrimary : bool
}.

Definition defaultSweepInterval : Duration := 30 * time_Second.
Definition defaultExtraScanInterval : Duration := 5 * time_Minute.
Definition defaultConfirmInterval : Duration := time_Second.
Definition defaultReadBatchSize : Z := 500.
Definition defaultMaxConfirmQueue : Z := 10000.
Definition defaultMaxExtrasTracked : Z := 100000.
Definition defaultExtraScanPattern : string := "*".
Definition defaultSubscriberBuffer : Z := 256.

Definition applyDefaults (c : Config) : Config :=
  mkConfig (TargetShape c) (DifferOptions c)
    (if SweepInterval c <=? 0 then defaultSweepInterval else SweepInterval c)
    (if ExtraScanInterval c <=? 0 then defaultExtraScanInterval else ExtraScanInterval c)
    (if ConfirmInterval c <=? 0 then defaultConfirmInterval else ConfirmInterval c)
    (if decide (ExtraScanPattern c = "") then defaultExtraScanPattern else ExtraScanPattern c)
    (if ReadBatchSize c <=? 0 then defaultReadBatchSize else ReadBatchSize c)
    (if MaxConfirmQueue c <=? 0 then defaultMaxConfirmQueue else MaxConfirmQueue c)
    (if MaxExtrasTracked c <=? 0 then defaultMaxExtrasTracked else MaxExtrasTracked c)
    (RequirePrimary c).

Inductive Error := ErrTargetUnavailable | ErrNotPrimary | ErrClosed | ErrCanceled | ErrReading | ErrPanic.

#[export] Instance Error_eq_dec : EqDecision Error.
Proof. solve_decision. Defined.

Record candidate := mkCandidate {
  cfinding : Finding; cversion : Z; seenAt : Time; cwindow : Duration
}.

Definition dueAt (c : candidate) : Time := time_Add (seenAt c) (cwindow c).

Record Episode := mkEpisode {
  EpKey : string; EpFinding : Finding; EpFirstSeenAt : Time; ConfirmedAt : Time; EpWindow : Duration
}.

Record extrasPass := mkExtras {
  xkeys : gset string; xstartedAt : Time; xwindow : Duration; xtruncated : bool
}.

Definition extras_dueAt (p : extrasPass) : Time := time_Add (xstartedAt p) (xwindow p).

(** The fields of [counters]. *)
Inductive counter_name :=
| sweeps | sweepsSkipped | keysCompared | fenceFailures
| candidatesEnqueued | confirmQueueDropped | confirmCycles | confirmations
| transientResolved | transientOracleAdvanced | transientKeyEvicted | confirmReadFailed
| driftResolved | confirmedDroppedEvicted | confirmedSuperseded | suspectNotConfirmed
| lastDriftDuration | extraScans | extrasReported | extrasSelfResolved | extrasTruncated
| targetUnavailable | subscriberDropped.

#[export] Instance counter_name_eq_dec : EqDecision counter_name.
Proof. solve_decision. Defined.

(** A subscriber's channel: what is buffered and whether it was closed. *)
Record channel := mkChannel { buffered : list Finding; ch_closed : bool }.

Record Sweeper := mkSweeper {
  queue : list candidate;
  queued : gset string;
  confirmed : gmap string Episode;
  requeued : gset string;
  extras : option extrasPass;
  subs : list channel;
  closed : bool;
  counters : counter_name → Z
}.

Definition New : Sweeper := mkSweeper [] ∅ ∅ ∅ None [] false (λ _, 0).

Definition set_queue (s : Sweeper) (q : list candidate) (qd : gset string) : Sweeper :=
  mkSweeper q qd (confirmed s) (requeued s) (extras s) (subs s) (closed s) (counters s).
Definition set_confirmed (s : Sweeper) (m : gmap string Episode) : Sweeper :=
  mkSweeper (queue s) (queued s) m (requeued s) (extras s) (subs s) (closed s) (counters s).
Definition set_requeued (s : Sweeper) (r : gset string) : Sweeper :=
  mkSweeper (queue s) (queued s) (confirmed s) r (extras s) (subs s) (closed s) (counters s).
Definition set_extras (s : Sweeper) (x : option extrasPass) : Sweeper :=
  mkSweeper (queue s) (queued s) (confirmed s) (requeued s) x (subs s) (closed s) (counters s).
Definition set_subs (s : Sweeper) (l : list channel) (c : bool) : Sweeper :=
  mkSweeper (queue s) (queued s) (confirmed s) (requeued s) (extras s) l c (counters s).
Definition set_counter (s : Sweeper) (n : counter_name) (v : Z) : Sweeper :=
  mkSweeper (queue s) (queued s) (confirmed s) (requeued s) (extras s) (subs s) (closed s)
    (λ m, if decide (m = n) then v else counters s m).

(** [s.c.n.Add(1)] *)
Definition bump (n : counter_name) (s : Sweeper) : Sweeper :=
  set_counter s n (i64 (counters s n + 1)).

(** ** Operations under the mutex *)

Definition enqueue (cfg : Config) (f : Finding) (version : Z) (now : Time) (w : Duration)
    (s : Sweeper) : Sweeper :=
  let key := FKey f in
  if decide (key ∈ queued s) then s
  else if Z.of_nat (length (queue s)) >=? MaxConfirmQueue cfg then bump confirmQueueDropped s
  else bump candidatesEnqueued
         (set_queue s (queue s ++ [mkCandidate f version now w]) ({[key]} ∪ queued s)).

Definition PendingConfirmations (s : Sweeper) : Z := Z.of_nat (length (queue s)).

(** The loop of takeDue: the due candidates, the kept ones and the keys still queued. *)
Fixpoint take_due_loop (now : Time) (q : list candidate) (qd : gset string)
    : list candidate * list candidate * gset string :=
  match q with
  | [] => ([], [], qd)
  | c :: rest =>
      if After (dueAt c) now then
        let '(due, keep, qd) := take_due_loop now rest qd in (due, c :: keep, qd)
      else
        let '(due, keep, qd) := take_due_loop now rest (qd ∖ {[FKey (cfinding c)]}) in
        (c :: due, keep, qd)
  end.

Definition takeDue (now : Time) (s : Sweeper) : Sweeper * list candidate :=
  let '(due, keep, qd) := take_due_loop now (queue s) (queued s) in
  (set_queue s keep qd, due).

Definition requeue_one (cfg : Config) (s : Sweeper) (c : candidate) : Sweeper :=
  if decide (FKey (cfinding c) ∈ queued s) then s
  else if Z.of_nat (length (queue s)) >=? MaxConfirmQueue cfg then bump confirmQueueDropped s
  else set_queue s (queue s ++ [c]) ({[FKey (cfinding c)]} ∪ queued s).

Definition requeueAll (cfg : Config) (cs : list candidate) (s : Sweeper) : Sweeper :=
  foldl (requeue_one cfg) s cs.

Definition publish_one (f : Finding) (acc : list channel * Z) (ch : channel) : list channel * Z :=
  let '(chans, dropped) := acc in
  if Z.of_nat (length (buffered ch)) <? defaultSubscriberBuffer
  then (chans ++ [mkChannel (buffered ch ++ [f]) (ch_closed ch)], dropped)
  else (chans ++ [ch], dropped + 1).

Definition publish (f : Finding) (s : Sweeper) : Sweeper :=
  let '(chans, dropped) := foldl (publish_one f) ([], 0) (subs s) in
  set_counter (set_subs s chans (closed s)) subscriberDropped
    (i64 (counters s subscriberDropped + dropped)).

Definition confirm (key : string) (episode : Episode) (s : Sweeper) : Sweeper :=
  let episode :=
    match confirmed s !! key with
    | None => episode
    | Some existing =>
        mkEpisode (EpKey episode)
          (with_sighting (EpFinding episode) (EpFirstSeenAt existing) (Confirmed (EpFinding episode)))
          (EpFirstSeenAt existing) (ConfirmedAt episode) (EpWindow episode)
    end in
  let s := set_confirmed s (<[key := episode]> (confirmed s)) in
  publish (EpFinding episode) (bump confirmations s).

Definition markRequeued (key : string) (s : Sweeper) : Sweeper :=
  set_requeued s ({[key]} ∪ requeued s).

Definition drainRequeued (s : Sweeper) : Sweeper := set_requeued s ∅.

Definition Requeued `{MapOrder} (s : Sweeper) : list string := range_set (requeued s).

Definition episode (key : string) (s : Sweeper) : option Episode := confirmed s !! key.

Definition refresh (key : string) (f : Finding) (s : Sweeper) : Sweeper :=
  match confirmed s !! key with
  | None => s
  | Some ep =>
      set_confirmed s (<[key := mkEpisode (EpKey ep) f (EpFirstSeenAt ep) (ConfirmedAt ep)
                                  (EpWindow ep)]> (confirmed s))
  end.

Definition resolve (key : string) (now : Time) (s : Sweeper) : Sweeper :=
  match confirmed s !! key with
  | None => s
  | Some ep =>
      let s := set_confirmed s (delete key (confirmed s)) in
      set_counter (bump driftResolved s) lastDriftDuration (time_Sub now (EpFirstSeenAt ep))
  end.

(** Subscribe hands out a new channel; the index names it. *)
Definition Subscribe (s : Sweeper) : Sweeper * channel :=
  if closed s then (s, mkChannel [] true)
  else (set_subs s (subs s ++ [mkChannel [] false]) (closed s), mkChannel [] false).

(** Close closes every channel and forgets them. *)
Definition Close (s : Sweeper) : Sweeper * list channel :=
  if closed s then (s, [])
  else (set_subs s [] true, (λ ch, mkChannel (buffered ch) true) <$> subs s).

Definition takePendingExtras (now : Time) (s : Sweeper) : Sweeper * option extrasPass :=
  match extras s with
  | None => (s, None)
  | Some p => if After (extras_dueAt p) now then (s, None) else (set_extras s None, Some p)
  end.

Definition setPendingExtras (p : extrasPass) (s : Sweeper) : Sweeper := set_extras s (Some p).

Definition PendingExtras (s : Sweeper) : Z :=
  match extras s with None => 0 | Some p => Z.of_nat (size (xkeys p)) end.

(** ** What a comparison leads to *)

Definition compareRead `{MapOrder} (key : string) (e : Entry) (read : Read) (opts : Options)
    : Error + option Finding :=
  match ReadErr read with
  | None => inr (Compare key e (ReadValue read) opts)
  | Some (WrongTypeError got) => inr (Some (CompareUnreadable key e got opts))
  | Some TransportError => inl ErrReading
  end.

Definition handleComparison (cfg : Config) (rep : Report) (f : option Finding) (version : Z)
    (key : string) (now : Time) (w : Duration) (s : Sweeper) : Sweeper * Report :=
  match f with
  | None => (resolve key now s, rep)
  | Some f =>
      if decide (FTrust f = TrustSuspect) then (bump suspectNotConfirmed s, Add rep (Some f))
      else
        match episode key s with
        | Some ep =>
            let f := with_sighting f (EpFirstSeenAt ep) true in
            (refresh key f s, Add rep (Some f))
        | None =>
            let f := with_sighting f now (Confirmed f) in
            (enqueue cfg f version now w s, Add rep (Some f))
        end
  end.

(** ** The world a pass runs in

    What the n-th access sees. The answers of the store may be anything; that the
    oracle moves only by its own operations is a hypothesis where it matters. *)

Record world := mkWorld {
  oracle_at : nat → Oracle;
  clock_at : nat → Time;
  window_at : nat → Duration;
  canceled_at : nat → bool;
  health_at : nat → option Health;
  read_many_at : nat → list string → option (list Read);
  read_one_at : nat → string → Read;
  scan_at : nat → list (list string) * bool   (** the batches, and whether it ended in an error *)
}.

(** State passing over the sweeper and the tick. *)
Definition M (A : Type) : Type := Sweeper * nat → A * (Sweeper * nat).
#[export] Instance M_ret : MRet M := λ A a s, (a, s).
#[export] Instance M_bind : MBind M := λ A B k m s, let '(a, s) := m s in k a s.

Definition access {A} (f : nat → A) : M A := λ '(s, n), (f n, (s, S n)).
Definition modify (f : Sweeper → Sweeper) : M () := λ '(s, n), ((), (f s, n)).
Definition get {A} (f : Sweeper → A) : M A := λ '(s, n), (f s, (s, n)).
Definition update {A} (f : Sweeper → Sweeper * A) : M A := λ '(s, n), let '(s, a) := f s in (a, (s, n)).

Section passes.
Context `{XXHash} `{MapOrder} (cfg : Config) (w : world).

Definition isClosed : M bool := get closed.
Definition oracle_Version (key : string) : M (option Z) :=
  access (λ n, Version (oracle_at w n) key).
Definition oracle_Get (key : string) : M (option Entry) :=
  access (λ n, Get (clock_at w n) (oracle_at w n) key).
Definition Now_ : M Time := access (clock_at w).
Definition SettlementWindow_ : M Duration := access (window_at w).
Definition ctx_Err : M bool := access (canceled_at w).
Definition target_Health : M (option Health) := access (health_at w).

(** Step 1: the store must answer, and be the primary where that is required. *)
Definition checkHealth : M (Error + Health) :=
  health ← target_Health;
  canceled ← ctx_Err;
  if (canceled : bool) then mret (inl ErrCanceled)
  else
    match health with
    | None => modify (bump targetUnavailable);; mret (inl ErrTargetUnavailable)
    | Some h =>
        if negb (Reachable h) then modify (bump targetUnavailable);; mret (inl ErrTargetUnavailable)
        else if RequirePrimary cfg && negb (bool_decide (Role h = "master")) then
          mret (inl ErrNotPrimary)
        else mret (inr h)
    end.

(** The episodes that still stand; the ones the oracle forgot or moved past go. *)
Definition live_one (key : string) : M () :=
  version ← oracle_Version key;
  modify (λ s,
    match version with
    | None => bump confirmedDroppedEvicted (set_confirmed s (delete key (confirmed s)))
    | Some v =>
        match confirmed s !! key with
        | Some ep =>
            if negb (v =? OracleVersion (EpFinding ep))
            then bump confirmedSuperseded (set_confirmed s (delete key (confirmed s)))
            else s
        | None => s
        end
    end).

Fixpoint live_all (keys : list string) : M () :=
  match keys with [] => mret () | key :: keys => live_one key;; live_all keys end.

Definition liveEpisodes : M (gmap string Episode) :=
  keys ← get (λ s, (range_map (confirmed s)).*1);
  live_all keys;; get confirmed.

Definition Confirmed_ : M (gmap string Finding) :=
  eps ← liveEpisodes; mret (EpFinding <$> eps).

(** Step 4 for one key of a batch: the fence, then the comparison. [i] is its place. *)
Definition process_key (opts : Options) (versions : gmap string Z) (now : Time) (win : Duration)
    (rep : Report) (key : string) (read : option Read) : M (Error + Report) :=
  v2 ← oracle_Version key;
  if negb (bool_decide (v2 = Some (default 0 (versions !! key)))) then
    modify (bump fenceFailures);; modify (markRequeued key);; mret (inr rep)
  else
    e ← oracle_Get key;
    match e with
    | None => modify (bump fenceFailures);; modify (markRequeued key);; mret (inr rep)
    | Some e =>
        if negb (Shard.Version e =? default 0 (versions !! key)) then
          modify (bump fenceFailures);; modify (markRequeued key);; mret (inr rep)
        else
          let rep := mkReport (RPass rep) (StartedAt rep) (FinishedAt rep) (KeysCompared rep + 1)
            (KeysSkippedInFlight rep) (KeysSkippedSuspect rep) (KeysSkippedAdopted rep)
            (RSettlementWindow rep) (Findings rep) (ByCategory rep) (ByTrust rep)
            (EvictionSuspected rep) (TargetHealth rep) (RTruncated rep) (maxFindings rep) in
          modify (bump keysCompared);;
          match read with
          | None => mret (inl ErrPanic)   (* reads[i] out of range *)
          | Some read =>
              match compareRead key e read opts with
              | inl err => mret (inl err)
              | inr f => rep ← update (handleComparison cfg rep f (Shard.Version e) key now win); mret (inr rep)
              end
          end
    end.

Fixpoint process_keys (opts : Options) (versions : gmap string Z) (now : Time) (win : Duration)
    (rep : Report) (keys : list string) (reads : list Read) : M (Error + Report) :=
  match keys with
  | [] => mret (inr rep)
  | key :: keys =>
      r ← process_key opts versions now win rep key (head reads);
      match r with
      | inl err => mret (inl err)
      | inr rep => process_keys opts versions now win rep keys (tail reads)
      end
  end.

Definition processBatch (opts : Options) (rep : Report) (keys : list string)
    (versions : gmap string Z) (now : Time) (win : Duration) : M (Error + Report) :=
  reads ← access (λ n, read_many_at w n keys);
  match reads with
  | None => mret (inl ErrReading)
  | Some reads => process_keys opts versions now win rep keys reads
  end.

(** Step 3: what the loop over the settled keys carries along. *)
Record walking := mkWalking { wrep : Report; wbatch : list string; wversions : gmap string Z }.

Definition skip_adopted (r : Report) : Report :=
  mkReport (RPass r) (StartedAt r) (FinishedAt r) (KeysCompared r) (KeysSkippedInFlight r)
    (KeysSkippedSuspect r) (KeysSkippedAdopted r + 1) (RSettlementWindow r) (Findings r)
    (ByCategory r) (ByTrust r) (EvictionSuspected r) (TargetHealth r) (RTruncated r) (maxFindings r).

Definition walk_key (opts : Options) (now : Time) (win : Duration) (st : walking) (key : string)
    : M (Error + walking) :=
  canceled ← ctx_Err;
  if (canceled : bool) then mret (inl ErrCanceled)
  else
    e ← oracle_Get key;
    match e with
    | None => mret (inr st)
    | Some e =>
        if decide (Trust e = TrustAdopted) then
          mret (inr (mkWalking (skip_adopted (wrep st)) (wbatch st) (wversions st)))
        else
          let versions := <[key := Shard.Version e]> (wversions st) in
          let batch := wbatch st ++ [key] in
          if Z.of_nat (length batch) <? ReadBatchSize cfg then
            mret (inr (mkWalking (wrep st) batch versions))
          else
            r ← processBatch opts (wrep st) batch versions now win;
            match r with
            | inl err => mret (inl err)
            | inr rep => mret (inr (mkWalking rep [] ∅))
            end
    end.

Fixpoint walk_keys (opts : Options) (now : Time) (win : Duration) (st : walking)
    (keys : list string) : M (Error + walking) :=
  match keys with
  | [] => mret (inr st)
  | key :: keys =>
      r ← walk_key opts now win st key;
      match r with
      | inl err => mret (inl err)
      | inr st => walk_keys opts now win st keys
      end
  end.

(** One shard of the iterator, listed when the loop reaches it. *)
Definition shard_keys (i : nat) (now : Time) (ow : Duration) (o : Oracle) : list string :=
  settledKeys (promote (get_shard o i) now (MaxSettlementWindow (Oracle.cfg o))) [] now ow
    (neverSettledThreshold o ow).

Fixpoint walk_shards (opts : Options) (now : Time) (win ow : Duration) (st : walking)
    (ids : list nat) : M (Error + walking) :=
  match ids with
  | [] => mret (inr st)
  | i :: ids =>
      keys ← access (λ n, shard_keys i now ow (oracle_at w n));
      r ← walk_keys opts now win st keys;
      match r with
      | inl err => mret (inl err)
      | inr st => walk_shards opts now win ow st ids
      end
  end.

Definition walk (rep : Report) (opts : Options) (now : Time) (win : Duration) : M (Error + Report) :=
  modify drainRequeued;;
  start ← access (λ n, (window (oracle_at w n), length (shards (oracle_at w n))));
  r ← walk_shards opts now win start.1 (mkWalking rep [] ∅) (seq 0 start.2);
  match r with
  | inl err => mret (inl err)
  | inr st =>
      if bool_decide (wbatch st = []) then mret (inr (wrep st))
      else processBatch opts (wrep st) (wbatch st) (wversions st) now win
  end.

Definition with_Now (o : Options) (now : Time) : Options :=
  mkOptions (TTLTolerance o) (OExpiryPolicy o) (AssumedTTL o) (MaxMembersReported o) (MaxFindings o) now.

(** The report as steps 2 and 5 fill it in. *)
Definition begin_report (pass : Pass) (now : Time) (opts : Options) (win : Duration) (inflight : Z)
    : Report :=
  let r := NewReport now opts in
  mkReport pass (StartedAt r) (FinishedAt r) (KeysCompared r) inflight (KeysSkippedSuspect r)
    (KeysSkippedAdopted r) win (Findings r) (ByCategory r) (ByTrust r) (EvictionSuspected r)
    (TargetHealth r) (RTruncated r) (maxFindings r).

Definition end_report (r : Report) (evicting : bool) (h : Health) (finished : Time) : Report :=
  mkReport (RPass r) (StartedAt r) finished (KeysCompared r) (KeysSkippedInFlight r)
    (KeysSkippedSuspect r) (KeysSkippedAdopted r) (RSettlementWindow r) (Findings r) (ByCategory r)
    (ByTrust r) evicting h (RTruncated r) (maxFindings r).

Definition sweep : M (Error + Report) :=
  c ← isClosed;
  if (c : bool) then mret (inl ErrClosed)
  else
    health ← checkHealth;
    match health with
    | inl err => mret (inl err)
    | inr health =>
        now ← Now_;
        win ← SettlementWindow_;
        let opts := with_Now (DifferOptions cfg) now in
        inflight ← access (λ n, InFlight (Counts_ (oracle_at w n) now).2);
        let rep := begin_report PassOracleToTarget now opts win inflight in
        r ← walk rep opts now win;
        match r with
        | inl err => mret (inl err)
        | inr rep =>
            after ← target_Health;
            let '(evicting, h) :=
              match after with
              | Some h => (EvictedKeys h >? EvictedKeys health, h)
              | None => (EvictionSuspected rep, health)
              end in
            liveEpisodes;;
            finished ← Now_;
            modify (bump sweeps);;
            mret (inr (end_report rep evicting h finished))
        end
    end.

(** ** Phase two: confirmation (confirm.go) *)

Definition confirmOne (c : candidate) (now : Time) : M () :=
  let key := FKey (cfinding c) in
  version ← oracle_Version key;
  match version with
  | None => modify (bump transientKeyEvicted)
  | Some version =>
      if negb (version =? cversion c) then
        modify (bump transientOracleAdvanced);; modify (markRequeued key)
      else
        read ← access (λ n, read_one_at w n key);
        if decide (ReadErr read = Some TransportError) then
          modify (bump confirmReadFailed);; modify (markRequeued key)
        else
          e ← oracle_Get key;
          match e with
          | None => modify (bump transientOracleAdvanced);; modify (markRequeued key)
          | Some e =>
              if negb (Shard.Version e =? cversion c) then
                modify (bump transientOracleAdvanced);; modify (markRequeued key)
              else if decide (Trust e = TrustSuspect) then modify (bump suspectNotConfirmed)
              else
                let opts := with_Now (DifferOptions cfg) now in
                let f := match ReadErr read with
                         | Some (WrongTypeError got) => Some (CompareUnreadable key e got opts)
                         | _ => Compare key e (ReadValue read) opts
                         end in
                match f with
                | None => modify (bump transientResolved)
                | Some f =>
                    let f := with_sighting f (seenAt c) true in
                    modify (confirm key (mkEpisode key f (seenAt c) now (cwindow c)))
                end
          end
  end.

Fixpoint confirm_loop (due : list candidate) (now : Time) (decided : Z) : M Z :=
  match due with
  | [] => mret decided
  | c :: rest =>
      canceled ← ctx_Err;
      if (canceled : bool) then modify (requeueAll cfg due);; mret decided
      else confirmOne c now;; confirm_loop rest now (decided + 1)
  end.

Definition ConfirmDue (now : Time) : M Z :=
  c ← isClosed;
  if (c : bool) then mret 0
  else
    due ← update (takeDue now);
    if bool_decide (due = []) then mret 0
    else
      health ← target_Health;
      if negb (match health with Some h => Reachable h | None => false end) then
        modify (requeueAll cfg due);; modify (bump targetUnavailable);; mret 0
      else
        modify (bump confirmCycles);;
        confirm_loop due now 0.

(** ** The two-pass extras scan (extras.go) *)

(** Whether the oracle holds an expectation, a tombstone included. *)
Definition oracleKnows (key : string) : M bool :=
  e ← oracle_Get key; mret (match e with Some _ => true | None => false end).

Definition extraSurvives (key : string) (read : Read) : M bool :=
  match ReadErr read with
  | Some _ => mret false
  | None =>
      if decide (Kind (ReadValue read) = ValueAbsent) then mret false
      else tracked ← oracleKnows key; mret (negb tracked)
  end.

(** The keys of one batch; [inl] is the early return at the bound. *)
Fixpoint first_pass_keys (pass : extrasPass) (keys : list string) : M (extrasPass + extrasPass) :=
  match keys with
  | [] => mret (inr pass)
  | key :: keys =>
      tracked ← oracleKnows key;
      if (tracked : bool) then first_pass_keys pass keys
      else if Z.of_nat (size (xkeys pass)) >=? MaxExtrasTracked cfg then
        modify (bump extrasTruncated);;
        mret (inl (mkExtras (xkeys pass) (xstartedAt pass) (xwindow pass) true))
      else
        first_pass_keys (mkExtras ({[key]} ∪ xkeys pass) (xstartedAt pass) (xwindow pass)
                           (xtruncated pass)) keys
  end.

Fixpoint first_pass_batches (pass : extrasPass) (batches : list (list string)) (failed : bool)
    : M (Error + extrasPass) :=
  match batches with
  | [] => if failed then mret (inl ErrReading) else mret (inr pass)
  | keys :: batches =>
      canceled ← ctx_Err;
      if (canceled : bool) then mret (inl ErrCanceled)
      else
        r ← first_pass_keys pass keys;
        match r with
        | inl pass => mret (inr pass)
        | inr pass => first_pass_batches pass batches failed
        end
  end.

Definition firstPass (win : Duration) (now : Time) : M (Error + extrasPass) :=
  scan ← access (scan_at w);
  first_pass_batches (mkExtras ∅ now win false) scan.1 scan.2.

Definition extra_finding (pass : extrasPass) (key : string) (v : Value) : Finding :=
  mkFinding key CatExtraInTarget TrustComplete absent v [] [] 0 0 0 zero_time 0 "" "" None None
    (xstartedAt pass) true.

Fixpoint second_pass_keys (rep : Report) (pass : extrasPass) (batch : list string)
    (reads : list Read) : M (Error + Report) :=
  match batch with
  | [] => mret (inr rep)
  | key :: batch =>
      match reads with
      | [] => mret (inl ErrPanic)   (* reads[i] out of range *)
      | read :: reads =>
          survives ← extraSurvives key read;
          if negb survives then
            modify (bump extrasSelfResolved);; second_pass_keys rep pass batch reads
          else
            let rep := Add rep (Some (extra_finding pass key (ReadValue read))) in
            modify (bump extrasReported);; second_pass_keys rep pass batch reads
      end
  end.

(** The batches of the parked keys; every round takes at least one key, so their number is
    fuel enough. *)
Fixpoint second_pass_batches (fuel : nat) (rep : Report) (pass : extrasPass) (keys : list string)
    : M (Error + Report) :=
  match fuel, keys with
  | _, [] => mret (inr rep)
  | O, _ => mret (inr rep)
  | S fuel, _ =>
      canceled ← ctx_Err;
      if (canceled : bool) then mret (inl ErrCanceled)
      else
        let batch := take (Z.to_nat (ReadBatchSize cfg)) keys in
        reads ← access (λ n, read_many_at w n batch);
        match reads with
        | None => mret (inl ErrReading)
        | Some reads =>
            r ← second_pass_keys rep pass batch reads;
            match r with
            | inl err => mret (inl err)
            | inr rep =>
                second_pass_batches fuel rep pass (drop (Z.to_nat (ReadBatchSize cfg)) keys)
            end
        end
  end.

Definition set_truncated (r : Report) (b : bool) : Report :=
  mkReport (RPass r) (StartedAt r) (FinishedAt r) (KeysCompared r) (KeysSkippedInFlight r)
    (KeysSkippedSuspect r) (KeysSkippedAdopted r) (RSettlementWindow r) (Findings r)
    (ByCategory r) (ByTrust r) (EvictionSuspected r) (TargetHealth r) b (maxFindings r).

Definition secondPass (rep : Report) (pass : extrasPass) : M (Error + Report) :=
  let keys := range_set (xkeys pass) in
  r ← second_pass_batches (length keys) rep pass keys;
  match r with
  | inl err => mret (inl err)
  | inr rep => mret (inr (set_truncated rep (RTruncated rep || xtruncated pass)))
  end.

Definition end_extras (r : Report) (pass : extrasPass) (finished : Time) : Report :=
  mkReport (RPass r) (StartedAt r) finished (Z.of_nat (size (xkeys pass))) (KeysSkippedInFlight r)
    (KeysSkippedSuspect r) (KeysSkippedAdopted r) (RSettlementWindow r) (Findings r)
    (ByCategory r) (ByTrust r) (EvictionSuspected r) (TargetHealth r) (xtruncated pass)
    (maxFindings r).

Definition ScanExtrasOnce : M (Error + Report) :=
  c ← isClosed;
  if (c : bool) then mret (inl ErrClosed)
  else
    health ← checkHealth;
    match health with
    | inl err => mret (inl err)
    | inr _ =>
        now ← Now_;
        win ← SettlementWindow_;
        let opts := with_Now (DifferOptions cfg) now in
        let rep := begin_report PassTargetToOracle now opts win 0 in
        pending ← update (takePendingExtras now);
        r ← (match pending with
             | None => mret (inr rep)
             | Some pass => secondPass rep pass
             end);
        match r with
        | inl err => mret (inl err)
        | inr rep =>
            p ← firstPass win now;
            match p with
            | inl err => mret (inl err)
            | inr pass =>
                modify (setPendingExtras pass);;
                finished ← Now_;
                modify (bump extraScans);;
                mret (inr (end_extras rep pass finished))
            end
        end
    end.

(** ** The loop *)

(** A sweep that finds another one running is counted and skipped. *)
Definition TrySweepOnce (running : bool) : M (option (Error + Report)) :=
  if running then modify (bump sweepsSkipped);; mret None
  else r ← sweep; mret (Some r).

(** One round of [Run]: which ticker fired, and what its handler leaves for OnReport. *)
Inductive tick_kind := SweepTick | ConfirmTick (now : Time) | ExtrasTick.

Definition Run_tick (paused : bool) (t : tick_kind) : M (option (Error + Report)) :=
  if paused then mret None
  else
    match t with
    | SweepTick => TrySweepOnce false
    | ConfirmTick now => ConfirmDue now;; mret None
    | ExtrasTick => r ← ScanExtrasOnce; mret (Some r)
    end.

Fixpoint Run (ticks : list (bool * tick_kind)) : M (list (option (Error + Report))) :=
  match ticks with
  | [] => mret []
  | (paused, t) :: ticks => r ← Run_tick paused t; rs ← Run ticks; mret (r :: rs)
  end.

Record Stats := mkStats {
  stat : counter_name → Z;
  CurrentlyConfirmed : Z;
  StatPending : Z;
  StatExtras : Z
}.

Definition Stats_ : M Stats :=
  live ← liveEpisodes;
  get (λ s, mkStats (counters s) (Z.of_nat (size (live : gmap string Episode)))
              (PendingConfirmations s) (PendingExtras s)).
End passes.
