(* ===== verification/SweepSafety.v ===== *)
(** * SweepSafety: what the sweeper guarantees

    An invariant of the sweeper's state that every operation and every round of
    the loop keeps, in any world, and the theorems that rest on it: the confirm
    queue is bounded and free of repetition, confirmed episodes were seen twice
    a window apart, and keys under suspicion are never confirmed. *)
From S2P Require Import Prelude GoBase GoStrings Event Projection SeqTrack Ring Shard PathMatch.
From S2P Require Import Oracle Target Differ Sweeper.

(** ** Reasoning about passes *)

(** [m] run from a state with [P] ends with a result and a state related by [Q]. *)
Definition triple {A} (P : Sweeper * nat → Prop) (m : M A) (Q : A → Sweeper * nat → Prop) : Prop :=
  ∀ s, P s → Q (m s).1 (m s).2.

Section triples.
Context {A B : Type}.
Implicit Types (P : Sweeper * nat → Prop).

Lemma triple_ret P (a : A) (Q : A → Sweeper * nat → Prop) :
  (∀ s, P s → Q a s) → triple P (mret a) Q.
Proof. intros HQ s Hs. by apply HQ. Qed.

Lemma triple_bind P (m : M A) (k : A → M B) R Q :
  triple P m R → (∀ a, triple (R a) (k a) Q) → triple P (m ≫= k) Q.
Proof.
  intros Hm Hk s Hs. specialize (Hm s Hs). unfold mbind, M_bind.
  destruct (m s) as [a s']. by apply Hk.
Qed.

Lemma triple_consequence P P' (m : M A) (Q Q' : A → Sweeper * nat → Prop) :
  triple P' m Q' → (∀ s, P s → P' s) → (∀ a s, Q' a s → Q a s) → triple P m Q.
Proof. intros Hm HP HQ s Hs. apply HQ, Hm, HP, Hs. Qed.

Lemma triple_access P (f : nat → A) (Q : A → Sweeper * nat → Prop) :
  (∀ s n, P (s, n) → Q (f n) (s, S n)) → triple P (access f) Q.
Proof. intros HQ [s n] Hs. by apply HQ. Qed.

Lemma triple_get P (f : Sweeper → A) (Q : A → Sweeper * nat → Prop) :
  (∀ s n, P (s, n) → Q (f s) (s, n)) → triple P (get f) Q.
Proof. intros HQ [s n] Hs. by apply HQ. Qed.

Lemma triple_update P (f : Sweeper → Sweeper * A) (Q : A → Sweeper * nat → Prop) :
  (∀ s n, P (s, n) → Q (f s).2 ((f s).1, n)) → triple P (update f) Q.
Proof. intros HQ [s n] Hs. unfold update. specialize (HQ s n Hs). by destruct (f s). Qed.
End triples.

Lemma triple_modify P f (Q : () → Sweeper * nat → Prop) :
  (∀ s n, P (s, n) → Q () (f s, n)) → triple P (modify f) Q.
Proof. intros HQ [s n] Hs. by apply HQ. Qed.

(** The passes that keep a property of the sweeper. *)
Definition keeps {A} (I : Sweeper → Prop) (m : M A) : Prop :=
  triple (λ s, I s.1) m (λ _ s, I s.1).

Section keeps.
Context (I : Sweeper → Prop).
Context {A B : Type}.

Lemma keeps_ret (a : A) : keeps I (mret a).
Proof. by apply triple_ret. Qed.
Lemma keeps_bind (m : M A) (k : A → M B) : keeps I m → (∀ a, keeps I (k a)) → keeps I (m ≫= k).
Proof. intros Hm Hk. by eapply triple_bind. Qed.
Lemma keeps_access (f : nat → A) : keeps I (access f).
Proof. by apply triple_access. Qed.
Lemma keeps_get (f : Sweeper → A) : keeps I (get f).
Proof. by apply triple_get. Qed.
Lemma keeps_update (f : Sweeper → Sweeper * A) : (∀ s, I s → I (f s).1) → keeps I (update f).
Proof. intros Hf. apply triple_update. intros s n Hs. by apply Hf. Qed.
End keeps.

Lemma keeps_modify (I : Sweeper → Prop) f : (∀ s, I s → I (f s)) → keeps I (modify f).
Proof. intros Hf. apply triple_modify. intros s n Hs. by apply Hf. Qed.

#[export] Hint Resolve keeps_ret keeps_access keeps_get : drift.

(** Walk through a pass, splitting on what it looks at. *)
Ltac keeps_step :=
  lazymatch goal with
  | |- keeps _ (mret _) => apply keeps_ret
  | |- keeps _ (access _) => apply keeps_access
  | |- keeps _ (get _) => apply keeps_get
  | |- keeps _ (mbind _ _) => apply keeps_bind; [|intros ?]
  | |- keeps _ (if ?b then _ else _) => destruct b
  | |- keeps _ (match ?x with _ => _ end) => destruct x
  end.
Ltac keeps := repeat keeps_step.

(** ** The invariant *)

Definition qkeys (q : list candidate) : list string := (λ c, FKey (cfinding c)) <$> q.

(** A finding that may be claimed: driftwatch trusts its own view of the key. *)
Definition claimable (f : Finding) : Prop := FTrust f ≠ TrustSuspect.

Definition good_episode (k : string) (ep : Episode) : Prop :=
  FKey (EpFinding ep) = k ∧ claimable (EpFinding ep) ∧ Confirmed (EpFinding ep) = true
  ∧ FirstSeenAt (EpFinding ep) = EpFirstSeenAt ep
  ∧ EpFirstSeenAt ep + EpWindow ep ≤ ConfirmedAt ep.

Definition good_channel (ch : channel) : Prop :=
  Z.of_nat (length (buffered ch)) ≤ defaultSubscriberBuffer
  ∧ ∀ f, f ∈ buffered ch → claimable f ∧ Confirmed f = true.

Record sweeper_ok (cfg : Config) (s : Sweeper) : Prop := mk_sweeper_ok {
  sw_nodup : NoDup (qkeys (queue s));
  sw_queued : ∀ k, k ∈ queued s ↔ k ∈ qkeys (queue s);
  sw_bound : Z.of_nat (length (queue s)) ≤ MaxConfirmQueue cfg;
  sw_trust : ∀ c, c ∈ queue s → claimable (cfinding c);
  sw_disjoint : ∀ k, k ∈ queued s → confirmed s !! k = None;
  sw_episodes : ∀ k ep, confirmed s !! k = Some ep → good_episode k ep;
  sw_extras : ∀ p, extras s = Some p → Z.of_nat (size (xkeys p)) ≤ MaxExtrasTracked cfg;
  sw_subs : ∀ ch, ch ∈ subs s → good_channel ch
}.

Section invariant.
Context `{XXHash} `{MapOrder} (cfg : Config).
Context (Hqueue : 0 < MaxConfirmQueue cfg) (Hextras : 0 < MaxExtrasTracked cfg).

Abbreviation ok := (sweeper_ok cfg).

Lemma New_sweeper_ok : ok New.
Proof. constructor; cbn; try done; try (constructor); try set_solver; lia. Qed.

(** Changes the invariant does not look at. *)
Lemma bump_ok n s : ok s → ok (bump n s).
Proof. by intros []. Qed.
Lemma set_counter_ok s n v : ok s → ok (set_counter s n v).
Proof. by intros []. Qed.
Lemma set_requeued_ok s r : ok s → ok (set_requeued s r).
Proof. by intros []. Qed.
Lemma markRequeued_ok k s : ok s → ok (markRequeued k s).
Proof. apply set_requeued_ok. Qed.

Lemma delete_episode_ok s k : ok s → ok (set_confirmed s (delete k (confirmed s))).
Proof.
  intros []. constructor; cbn; try done.
  - intros j Hj. rewrite lookup_delete. case_decide; [done|auto].
  - intros j ep. rewrite lookup_delete_Some. intros [_ Hj]. auto.
Qed.

Lemma resolve_ok k now s : ok s → ok (resolve k now s).
Proof.
  intros Hs. unfold resolve. case_match; [|done].
  apply set_counter_ok, bump_ok, delete_episode_ok, Hs.
Qed.

Lemma enqueue_ok f v now win s :
  ok s → claimable f → confirmed s !! FKey f = None → ok (enqueue cfg f v now win s).
Proof.
  intros Hs Hf Hn. unfold enqueue. case_decide as Hq; [done|].
  destruct (Z.geb_spec (Z.of_nat (length (queue s))) (MaxConfirmQueue cfg)); apply bump_ok; [done|].
  destruct Hs as [K1 K2 K3 K4 K5 K6 K7 K8]. constructor; cbn; try done.
  - unfold qkeys. rewrite fmap_app. apply NoDup_app. split_and!; [done| |apply NoDup_singleton].
    intros k Hk. cbn. rewrite list_elem_of_singleton. intros ->. apply Hq. by apply K2.
  - intros k. unfold qkeys. rewrite fmap_app, elem_of_app. cbn.
    rewrite list_elem_of_singleton, elem_of_union, elem_of_singleton, K2. tauto.
  - rewrite length_app. cbn. lia.
  - intros c [Hc| ->%list_elem_of_singleton]%elem_of_app; [auto|done].
  - intros k [->%elem_of_singleton|Hk]%elem_of_union; auto.
Qed.

Lemma refresh_ok k f s :
  ok s → claimable f → FKey f = k → Confirmed f = true →
  (∀ ep, confirmed s !! k = Some ep → FirstSeenAt f = EpFirstSeenAt ep) → ok (refresh k f s).
Proof.
  intros Hs Hf Hk Hc Hfs. unfold refresh. destruct (confirmed s !! k) as [ep|] eqn:Hep; [|done].
  destruct Hs as [K1 K2 K3 K4 K5 K6 K7 K8]. constructor; cbn; try done.
  - intros j Hj. rewrite lookup_insert_ne; [auto|]. intros <-. rewrite K5 in Hep; done.
  - intros j ep'. rewrite lookup_insert_Some. intros [[<- <-]|[_ Hj]]; [|auto].
    destruct (K6 _ _ Hep) as (_ & _ & _ & _ & Hw). unfold good_episode. cbn.
    split_and!; try done. by apply Hfs.
Qed.

Lemma publish_ok f s : ok s → claimable f → Confirmed f = true → ok (publish f s).
Proof.
  intros Hs Hf Hc. unfold publish.
  assert (∀ l acc n, (∀ ch, ch ∈ acc → good_channel ch) → (∀ ch, ch ∈ l → good_channel ch) →
    ∀ ch, ch ∈ (foldl (publish_one f) (acc, n) l).1 → good_channel ch) as Hfold.
  { induction l as [|ch l IH]; intros acc n Ha Hl; [done|]. cbn [foldl]. unfold publish_one at 2.
    destruct (Z.ltb_spec (Z.of_nat (length (buffered ch))) defaultSubscriberBuffer);
      apply IH; try (intros; apply Hl; by right).
    - intros ch' [?| ->%list_elem_of_singleton]%elem_of_app; [auto|]. split; cbn.
      + rewrite length_app. cbn. lia.
      + intros g [Hg| ->%list_elem_of_singleton]%elem_of_app; [|done].
        apply (Hl ch); [by left|done].
    - intros ch' [?| ->%list_elem_of_singleton]%elem_of_app; [auto|]. apply Hl. by left. }
  specialize (Hfold (subs s) [] 0 ltac:(set_solver) (sw_subs _ _ Hs)).
  destruct (foldl _ _ _) as [chans dropped]. apply set_counter_ok.
  destruct Hs. by constructor.
Qed.

(** ** Comparing *)

Lemma newFinding_key key cat oe tv opts :
  FKey (newFinding key cat oe tv opts) = key ∧ FTrust (newFinding key cat oe tv opts) = Trust oe
  ∧ OracleVersion (newFinding key cat oe tv opts) = Shard.Version oe.
Proof.
  unfold newFinding. cbv zeta. destruct (if _ || _ then diffMembers _ _ _ else _) as [? ?].
  by destruct (if _ || _ then diffMembers _ _ _ else _) as [? ?].
Qed.

Lemma compareRead_fields key e read opts f :
  compareRead key e read opts = inr (Some f) →
  FKey f = key ∧ FTrust f = Trust e ∧ OracleVersion f = Shard.Version e.
Proof.
  unfold compareRead. destruct (ReadErr read) as [[got|]|]; [|done|].
  - intros [= <-]. apply newFinding_key.
  - intros [= Hf]. by destruct (Compare_fields _ _ _ _ _ Hf) as (?&_&_&_&?&?&_).
Qed.

Lemma handleComparison_ok rep f v key now win s :
  ok s → (∀ g, f = Some g → FKey g = key) → ok (handleComparison cfg rep f v key now win s).1.
Proof.
  intros Hs Hf. unfold handleComparison. destruct f as [f|]; [|by apply resolve_ok].
  specialize (Hf f eq_refl). case_decide as Ht; [by apply bump_ok|].
  unfold episode. destruct (confirmed s !! key) as [ep|] eqn:Hep; cbn [fst].
  - apply refresh_ok; try done. intros ep' Hep'. rewrite Hep in Hep'. by injection Hep' as <-.
  - apply enqueue_ok; try done. cbn. by rewrite Hf.
Qed.

(** ** Taking and putting back candidates *)

(** What the confirm loop holds: due candidates, distinct, neither queued nor confirmed. *)
Record due_ok (now : Time) (due : list candidate) (s : Sweeper) : Prop := mk_due_ok {
  du_nodup : NoDup (qkeys due);
  du_queued : ∀ k, k ∈ qkeys due → k ∉ queued s;
  du_confirmed : ∀ k, k ∈ qkeys due → confirmed s !! k = None;
  du_trust : ∀ c, c ∈ due → claimable (cfinding c) ∧ dueAt c ≤ now
}.

Lemma take_due_loop_spec now q : ∀ qd,
  NoDup (qkeys q) →
  let '(due, keep, qd') := take_due_loop now q qd in
  q ≡ₚ due ++ keep ∧ (∀ c, c ∈ due → dueAt c ≤ now) ∧ (∀ c, c ∈ keep → now < dueAt c)
  ∧ (∀ k, k ∈ qd' ↔ k ∈ qd ∧ k ∉ qkeys due) ∧ (length keep ≤ length q)%nat.
Proof.
  induction q as [|c q IH]; intros qd Hnd; cbn [take_due_loop].
  { split_and!; [done|set_solver|set_solver|set_solver|done]. }
  cbn in Hnd. apply NoDup_cons in Hnd as [Hc Hnd]. unfold After.
  destruct (Z.ltb_spec now (dueAt c)).
  - specialize (IH qd Hnd). destruct (take_due_loop now q qd) as [[due keep] qd'].
    destruct IH as (Hp & Hd & Hk & Hq & Hl). split_and!; try done.
    + rewrite Hp. apply Permutation_middle.
    + intros c' [->|?]%elem_of_cons; auto.
    + cbn. lia.
  - specialize (IH (qd ∖ {[FKey (cfinding c)]}) Hnd).
    destruct (take_due_loop now q _) as [[due keep] qd']. destruct IH as (Hp & Hd & Hk & Hq & Hl).
    split_and!; try done.
    + by rewrite Hp.
    + intros c' [->|?]%elem_of_cons; auto.
    + intros k. rewrite Hq. cbn. rewrite not_elem_of_cons. set_solver.
    + cbn. lia.
Qed.

Lemma qkeys_app q1 q2 : qkeys (q1 ++ q2) = qkeys q1 ++ qkeys q2.
Proof. apply fmap_app. Qed.

Lemma takeDue_ok now s :
  ok s → ok (takeDue now s).1 ∧ due_ok now (takeDue now s).2 (takeDue now s).1
  ∧ confirmed (takeDue now s).1 = confirmed s
  ∧ queue s ≡ₚ (takeDue now s).2 ++ queue (takeDue now s).1.
Proof.
  intros [K1 K2 K3 K4 K5 K6 K7 K8]. unfold takeDue.
  pose proof (take_due_loop_spec now (queue s) (queued s) K1) as Hs.
  destruct (take_due_loop now (queue s) (queued s)) as [[due keep] qd]. cbn [fst snd].
  destruct Hs as (Hp & Hd & Hk & Hq & Hl).
  assert (∀ k, k ∈ qkeys (queue s) ↔ k ∈ qkeys due ∨ k ∈ qkeys keep) as Hkeys.
  { intros k. rewrite <- elem_of_app, <- qkeys_app. unfold qkeys. by rewrite Hp. }
  assert (NoDup (qkeys due ++ qkeys keep)) as Hnd.
  { rewrite <- qkeys_app. unfold qkeys. by rewrite <- Hp. }
  apply NoDup_app in Hnd as (Hnd1 & Hdis & Hnd2). split_and!; [|constructor|done|done].
  - constructor; cbn; try done.
    + intros k. rewrite Hq, K2, Hkeys. split; [tauto|]. intros Hk'. split; [by right|].
      intros Hk2. by apply (Hdis k Hk2).
    + lia.
    + intros c Hc. apply K4. rewrite Hp. apply elem_of_app. by right.
    + intros k Hk'. apply K5. by apply Hq in Hk' as [? _].
  - done.
  - intros k Hk' Hin. cbn in Hin. by apply Hq in Hin as [_ ?].
  - intros k Hk'. cbn. apply K5, K2, Hkeys. by left.
  - intros c Hc. split; [|by apply Hd]. apply K4. rewrite Hp. apply elem_of_app. by left.
Qed.

Lemma requeue_one_ok s c :
  ok s → claimable (cfinding c) → confirmed s !! FKey (cfinding c) = None →
  ok (requeue_one cfg s c) ∧ confirmed (requeue_one cfg s c) = confirmed s.
Proof.
  intros Hs Hf Hn. unfold requeue_one. case_decide as Hq; [done|].
  destruct (Z.geb_spec (Z.of_nat (length (queue s))) (MaxConfirmQueue cfg)); [by split; [apply bump_ok|]|].
  split; [|done]. destruct Hs as [K1 K2 K3 K4 K5 K6 K7 K8]. constructor; cbn; try done.
  - rewrite qkeys_app. apply NoDup_app. split_and!; [done| |apply NoDup_singleton].
    intros k Hk. cbn. rewrite list_elem_of_singleton. intros ->. apply Hq. by apply K2.
  - intros k. rewrite qkeys_app, elem_of_app. cbn.
    rewrite list_elem_of_singleton, elem_of_union, elem_of_singleton, K2. tauto.
  - rewrite length_app. cbn. lia.
  - intros c' [Hc| ->%list_elem_of_singleton]%elem_of_app; [auto|done].
  - intros k [->%elem_of_singleton|Hk]%elem_of_union; auto.
Qed.

Lemma requeueAll_ok now due s : ok s → due_ok now due s → ok (requeueAll cfg due s).
Proof.
  intros Hs [_ _ Hn Ht]. unfold requeueAll. revert s Hs Hn.
  induction due as [|c due IH]; intros s Hs Hn; [done|]. cbn [foldl].
  destruct (requeue_one_ok s c Hs) as [Hok Hc].
  { by apply (Ht c); left. } { apply Hn. by left. }
  apply IH; [|done|].
  - intros c' Hc'. apply Ht. by right.
  - intros k Hk. rewrite Hc. apply Hn. by right.
Qed.

Lemma confirm_ok k ep s :
  ok s → k ∉ queued s → confirmed s !! k = None → good_episode k ep → ok (confirm k ep s).
Proof.
  intros Hs Hq Hn Hg. unfold confirm. rewrite Hn. destruct Hg as (Hk & Hc & Hf & Hfs & Hw).
  apply publish_ok; [|done|done]. apply bump_ok. destruct Hs as [K1 K2 K3 K4 K5 K6 K7 K8].
  constructor; cbn; try done.
  - intros j Hj. rewrite lookup_insert_ne; [auto|]. by intros ->.
  - intros j ep'. rewrite lookup_insert_Some. intros [[<- <-]|[_ Hj]]; [done|auto].
Qed.

(** ** What sweeps and extras scans keep

    A property of the sweeper that these changes keep is kept by both passes. *)

Definition pass_ok (p : extrasPass) : Prop := Z.of_nat (size (xkeys p)) ≤ MaxExtrasTracked cfg.

Record pass_closed (I : Sweeper → Prop) : Prop := mk_pass_closed {
  pc_bump : ∀ n s, I s → I (bump n s);
  pc_requeued : ∀ r s, I s → I (set_requeued s r);
  pc_delete : ∀ k s, I s → I (set_confirmed s (delete k (confirmed s)));
  pc_extras : ∀ x s, (∀ p, x = Some p → pass_ok p) → I s → I (set_extras s x);
  pc_handle : ∀ rep f v key now win s,
    I s → (∀ g, f = Some g → FKey g = key) → I (handleComparison cfg rep f v key now win s).1
}.

Lemma sweeper_ok_closed : pass_closed ok.
Proof.
  constructor; intros.
  - by apply bump_ok.
  - by apply set_requeued_ok.
  - by apply delete_episode_ok.
  - match goal with Hs : ok _ |- _ => destruct Hs end. by constructor.
  - by apply handleComparison_ok.
Qed.

Section passes_keep.
Context (w : world) (I : Sweeper → Prop) (HI : pass_closed I).

Lemma checkHealth_keeps : keeps I (checkHealth cfg w).
Proof. unfold checkHealth, target_Health, ctx_Err. keeps; apply keeps_modify; intros; by apply (pc_bump _ HI). Qed.

Lemma live_one_keeps key : keeps I (live_one w key).
Proof.
  unfold live_one, oracle_Version. keeps. apply keeps_modify. intros s Hs.
  repeat case_match; try done; apply (pc_bump _ HI), (pc_delete _ HI), Hs.
Qed.

Lemma liveEpisodes_keeps : keeps I (liveEpisodes w).
Proof.
  unfold liveEpisodes. keeps. generalize a. intros keys.
  induction keys as [|key keys IH]; cbn [live_all]; [apply keeps_ret|].
  apply keeps_bind; [apply live_one_keeps|]. intros _. exact IH.
Qed.

Lemma requeue_steps_keeps {A} n key (r : A) :
  keeps I (modify (bump n);; modify (markRequeued key);; mret r).
Proof.
  keeps; apply keeps_modify; intros; [by apply (pc_bump _ HI)|by apply (pc_requeued _ HI)].
Qed.

Lemma process_key_keeps opts versions now win rep key read :
  keeps I (process_key cfg w opts versions now win rep key read).
Proof.
  unfold process_key, oracle_Version, oracle_Get.
  apply keeps_bind; [apply keeps_access|intros v2]. destruct (negb _); [apply requeue_steps_keeps|].
  apply keeps_bind; [apply keeps_access|intros [e|]]; [|apply requeue_steps_keeps].
  destruct (negb _); [apply requeue_steps_keeps|]. cbv zeta.
  apply keeps_bind; [apply keeps_modify; intros; by apply (pc_bump _ HI)|intros _].
  destruct read as [read|]; [|apply keeps_ret].
  destruct (compareRead key e read opts) as [err|f] eqn:Hcmp; [apply keeps_ret|].
  apply keeps_bind; [|intros; apply keeps_ret]. apply keeps_update. intros s Hs.
  apply (pc_handle _ HI); [done|]. intros g ->. by destruct (compareRead_fields _ _ _ _ _ Hcmp).
Qed.

Lemma process_keys_keeps opts versions now win keys : ∀ rep reads,
  keeps I (process_keys cfg w opts versions now win rep keys reads).
Proof.
  induction keys as [|key keys IH]; intros rep reads; cbn [process_keys]; [apply keeps_ret|].
  apply keeps_bind; [apply process_key_keeps|intros [err|rep']]; [apply keeps_ret|apply IH].
Qed.

Lemma processBatch_keeps opts rep keys versions now win :
  keeps I (processBatch cfg w opts rep keys versions now win).
Proof.
  unfold processBatch. apply keeps_bind; [apply keeps_access|intros [reads|]];
    [apply process_keys_keeps|apply keeps_ret].
Qed.

Lemma walk_key_keeps opts now win st key : keeps I (walk_key cfg w opts now win st key).
Proof.
  unfold walk_key, ctx_Err, oracle_Get. keeps. apply processBatch_keeps.
Qed.

Lemma walk_keys_keeps opts now win keys : ∀ st, keeps I (walk_keys cfg w opts now win st keys).
Proof.
  induction keys as [|key keys IH]; intros st; cbn [walk_keys]; [apply keeps_ret|].
  apply keeps_bind; [apply walk_key_keeps|intros [err|st']]; [apply keeps_ret|apply IH].
Qed.

Lemma walk_shards_keeps opts now win ow ids : ∀ st, keeps I (walk_shards cfg w opts now win ow st ids).
Proof.
  induction ids as [|i ids IH]; intros st; cbn [walk_shards]; [apply keeps_ret|].
  apply keeps_bind; [apply keeps_access|intros keys].
  apply keeps_bind; [apply walk_keys_keeps|intros [err|st']]; [apply keeps_ret|apply IH].
Qed.

Lemma walk_keeps rep opts now win : keeps I (walk cfg w rep opts now win).
Proof.
  unfold walk. apply keeps_bind; [apply keeps_modify; intros; by apply (pc_requeued _ HI)|intros _].
  apply keeps_bind; [apply keeps_access|intros start].
  apply keeps_bind; [apply walk_shards_keeps|intros [err|st]]; [apply keeps_ret|].
  destruct (bool_decide _); [apply keeps_ret|apply processBatch_keeps].
Qed.

Lemma sweep_keeps : keeps I (sweep cfg w).
Proof.
  unfold sweep, isClosed, Now_, SettlementWindow_, target_Health. keeps;
    try apply checkHealth_keeps; try apply walk_keeps; try apply liveEpisodes_keeps.
  apply keeps_modify. intros. by apply (pc_bump _ HI).
Qed.

(** ** The extras scan *)

Lemma oracleKnows_keeps key : keeps I (oracleKnows w key).
Proof. unfold oracleKnows, oracle_Get. keeps. Qed.

Lemma first_pass_keys_keeps keys : ∀ p, pass_ok p →
  triple (λ s, I s.1) (first_pass_keys cfg w p keys)
    (λ r s, I s.1 ∧ match r with inl p | inr p => pass_ok p end).
Proof.
  induction keys as [|key keys IH]; intros p Hp; cbn [first_pass_keys]; [by apply triple_ret|].
  eapply triple_bind; [apply oracleKnows_keeps|intros [|]]; [by apply IH|].
  destruct (Z.geb_spec (Z.of_nat (size (xkeys p))) (MaxExtrasTracked cfg)) as [Hge|Hlt].
  - eapply (triple_bind _ _ _ (λ _ s, I s.1)); [apply keeps_modify; intros; by apply (pc_bump _ HI)|].
    intros u. by apply triple_ret.
  - apply IH. unfold pass_ok. cbn.
    assert (size ({[key]} ∪ xkeys p) ≤ S (size (xkeys p)))%nat; [|lia].
    rewrite size_union_alt, size_singleton.
    assert (size (xkeys p ∖ {[key]}) ≤ size (xkeys p))%nat by (apply subseteq_size; set_solver). lia.
Qed.

Lemma first_pass_batches_keeps batches failed : ∀ p, pass_ok p →
  triple (λ s, I s.1) (first_pass_batches cfg w p batches failed)
    (λ r s, I s.1 ∧ match r with inr p => pass_ok p | inl _ => True end).
Proof.
  induction batches as [|keys batches IH]; intros p Hp; cbn [first_pass_batches].
  { destruct failed; by apply triple_ret. }
  unfold ctx_Err. eapply (triple_bind _ _ _ (λ _ s, I s.1)); [apply keeps_access|intros [|]];
    [by apply triple_ret|].
  eapply triple_bind; [by apply first_pass_keys_keeps|intros [p'|p']]; [by apply triple_ret|].
  intros s [Hs Hp']. by apply IH.
Qed.

Lemma extraSurvives_keeps key read : keeps I (extraSurvives w key read).
Proof. unfold extraSurvives. keeps. apply oracleKnows_keeps. Qed.

Lemma second_pass_keys_keeps pass batch : ∀ rep reads,
  keeps I (second_pass_keys w rep pass batch reads).
Proof.
  induction batch as [|key batch IH]; intros rep reads; cbn [second_pass_keys]; [apply keeps_ret|].
  destruct reads as [|read reads]; [apply keeps_ret|].
  apply keeps_bind; [apply extraSurvives_keeps|intros survives]. cbv zeta.
  destruct (negb survives); (apply keeps_bind; [apply keeps_modify; intros; by apply (pc_bump _ HI)|intros; apply IH]).
Qed.

Lemma second_pass_batches_keeps fuel pass : ∀ rep keys,
  keeps I (second_pass_batches cfg w fuel rep pass keys).
Proof.
  induction fuel as [|fuel IH]; intros rep [|key keys]; cbn [second_pass_batches]; try apply keeps_ret.
  unfold ctx_Err. apply keeps_bind; [apply keeps_access|intros [|]]; [apply keeps_ret|]. cbv zeta.
  apply keeps_bind; [apply keeps_access|intros [reads|]]; [|apply keeps_ret].
  apply keeps_bind; [apply second_pass_keys_keeps|intros [err|rep']]; [apply keeps_ret|apply IH].
Qed.

Lemma ScanExtrasOnce_keeps : keeps I (ScanExtrasOnce cfg w).
Proof.
  unfold ScanExtrasOnce, isClosed, Now_, SettlementWindow_.
  apply keeps_bind; [apply keeps_get|intros [|]]; [apply keeps_ret|].
  apply keeps_bind; [apply checkHealth_keeps|intros [err|h]]; [apply keeps_ret|].
  apply keeps_bind; [apply keeps_access|intros now]. apply keeps_bind; [apply keeps_access|intros win].
  cbv zeta. apply keeps_bind.
  { apply keeps_update. intros s Hs. unfold takePendingExtras.
    destruct (extras s); [destruct (After _ _)|]; try done. by apply (pc_extras _ HI). }
  intros pending. apply keeps_bind.
  { destruct pending as [p|]; [|apply keeps_ret]. unfold secondPass. cbv zeta.
    apply keeps_bind; [apply second_pass_batches_keeps|intros [err|rep']]; apply keeps_ret. }
  intros [err|rep]; [apply keeps_ret|].
  eapply triple_bind.
  { unfold firstPass. eapply (triple_bind _ _ _ (λ _ s, I s.1)); [apply keeps_access|intros scan].
    apply first_pass_batches_keeps. unfold pass_ok. cbn. rewrite size_empty. lia. }
  intros [err|pass]; [apply triple_ret; by intros s [? _]|].
  eapply (triple_bind _ _ _ (λ _ s, I s.1)).
  { apply triple_modify. intros s n [Hs Hp]. apply (pc_extras _ HI); [|done]. by intros p [= <-]. }
  intros u. apply keeps_bind; [apply keeps_access|intros finished].
  apply keeps_bind; [apply keeps_modify; intros; by apply (pc_bump _ HI)|intros; apply keeps_ret].
Qed.
End passes_keep.

(** ** Confirming *)

Section in_world.
Context (w : world).

(** The state of the confirm loop, with the candidates still in hand. *)
Definition confirming (now : Time) (due : list candidate) (s : Sweeper * nat) : Prop :=
  ok s.1 ∧ due_ok now due s.1.

Lemma due_ok_tail now c due s : due_ok now (c :: due) s → due_ok now due s.
Proof.
  intros [K1 K2 K3 K4]. cbn in K1. apply NoDup_cons in K1 as [_ K1].
  constructor; [done|intros k Hk; apply K2; by right|intros k Hk; apply K3; by right|].
  intros c' Hc'. apply K4. by right.
Qed.

Lemma confirming_drop now c due n f :
  (∀ s, ok s → ok (f s) ∧ queued (f s) = queued s ∧ confirmed (f s) = confirmed s) →
  ∀ s, confirming now (c :: due) (s, n) → confirming now due (f s, n).
Proof.
  intros Hf s [Hs Hd]. destruct (Hf s Hs) as (Hok & Hq & Hc). split; [done|].
  apply due_ok_tail in Hd as [K1 K2 K3 K4]. constructor; cbn; try done; [by rewrite Hq|by rewrite Hc].
Qed.

Lemma confirmOne_spec now c due :
  triple (confirming now (c :: due)) (confirmOne cfg w c now) (λ _, confirming now due).
Proof.
  assert (∀ n, triple (confirming now (c :: due)) (modify (bump n)) (λ _, confirming now due)) as Hbump.
  { intros n. apply triple_modify. intros s m Hs.
    apply (confirming_drop now c due m (bump n)); [|done]. intros. split_and!; [by apply bump_ok|done..]. }
  assert (∀ n, triple (confirming now (c :: due)) (modify (bump n);; modify (markRequeued (FKey (cfinding c))))
    (λ _, confirming now due)) as Hback.
  { intros n. eapply triple_bind; [apply Hbump|]. intros u. apply triple_modify. intros s m [Hs Hd].
    split; [by apply markRequeued_ok|]. by destruct Hd. }
  unfold confirmOne, oracle_Version, oracle_Get.
  eapply triple_bind; [by apply (triple_access _ _ (λ _, confirming now (c :: due)))|intros [v|]]; [|done].
  destruct (negb _); [done|].
  eapply triple_bind; [by apply (triple_access _ _ (λ _, confirming now (c :: due)))|intros read].
  destruct (decide _) as [|Hread]; [done|].
  eapply triple_bind; [by apply (triple_access _ _ (λ _, confirming now (c :: due)))|intros [e|]]; [|done].
  destruct (negb _); [done|]. destruct (decide (Trust e = TrustSuspect)) as [|Ht]; [done|].
  cbv zeta. destruct (match ReadErr read with Some (WrongTypeError _) => _ | _ => _ end) as [f|] eqn:Hcmp;
    [|done].
  assert (FKey f = FKey (cfinding c) ∧ FTrust f = Trust e) as [Hfk Hft].
  { assert (compareRead (FKey (cfinding c)) e read (with_Now (DifferOptions cfg) now) = inr (Some f)) as Hcr.
    { unfold compareRead. destruct (ReadErr read) as [[got|]|]; [by rewrite <- Hcmp|done|by rewrite Hcmp]. }
    by destruct (compareRead_fields _ _ _ _ _ Hcr) as (? & ? & _). }
  apply triple_modify. intros s n [Hs Hd].
  destruct (du_trust _ _ _ Hd c) as [_ Hdue]; [by left|].
  split; cbn [fst].
  - apply confirm_ok; [done| | |].
    + apply (du_queued _ _ _ Hd). by left.
    + apply (du_confirmed _ _ _ Hd). by left.
    + unfold good_episode, claimable. cbn. rewrite Hft, Hfk. split_and!; try done.
  - pose proof (du_confirmed _ _ _ Hd (FKey (cfinding c)) ltac:(by left)) as Hnone.
    cbn [fst] in Hnone. unfold confirm. rewrite Hnone. unfold publish. destruct (foldl _ _ _) as [chans dropped].
    apply due_ok_tail in Hd as Hd'. destruct Hd as [K1 _ _ _], Hd' as [L1 L2 L3 L4].
    constructor; cbn; try done. intros k Hk. rewrite lookup_insert_ne; [auto|].
    intros <-. cbn in K1. by apply NoDup_cons in K1 as [? _].
Qed.

Lemma confirm_loop_ok now due : ∀ decided,
  triple (confirming now due) (confirm_loop cfg w due now decided) (λ _ s, ok s.1).
Proof.
  induction due as [|c due IH]; intros decided; cbn [confirm_loop].
  { apply triple_ret. by intros s [? _]. }
  unfold ctx_Err.
  eapply triple_bind; [by apply (triple_access _ _ (λ _, confirming now (c :: due)))|intros []].
  - eapply (triple_bind _ _ _ (λ _ s, ok s.1)); [|intros u; by apply triple_ret].
    apply triple_modify. intros s n [Hs Hd]. by apply (requeueAll_ok now).
  - eapply triple_bind; [apply confirmOne_spec|intros u; apply IH].
Qed.

Lemma ConfirmDue_ok now : keeps ok (ConfirmDue cfg w now).
Proof.
  unfold ConfirmDue, isClosed, target_Health. apply keeps_bind; [apply keeps_get|intros []]; [apply keeps_ret|].
  eapply (triple_bind _ _ _ (λ due s, confirming now due s)).
  { apply triple_update. intros s n Hs. destruct (takeDue_ok now s Hs) as (? & ? & _). done. }
  intros due. destruct (bool_decide (due = [])); [apply triple_ret; by intros s [? _]|].
  eapply (triple_bind _ _ _ (λ _, confirming now due)); [by apply triple_access|intros health].
  destruct (negb _).
  - eapply (triple_bind _ _ _ (λ _ s, ok s.1)).
    { apply triple_modify. intros s n [Hs Hd]. by apply (requeueAll_ok now). }
    intros _. apply keeps_bind; [apply keeps_modify; intros; by apply bump_ok|intros; apply keeps_ret].
  - eapply triple_bind; [|intros u; apply confirm_loop_ok].
    apply triple_modify. intros s n [Hs Hd]. split; [by apply bump_ok|by destruct Hd].
Qed.
End in_world.

Section ticks.
Context (w : world).

Lemma Run_tick_ok paused t : keeps ok (Run_tick cfg w paused t).
Proof.
  unfold Run_tick, TrySweepOnce. destruct paused; [apply keeps_ret|]. destruct t as [|now|].
  - apply keeps_bind; [apply sweep_keeps, sweeper_ok_closed|intros; apply keeps_ret].
  - apply keeps_bind; [apply ConfirmDue_ok|intros; apply keeps_ret].
  - apply keeps_bind; [apply ScanExtrasOnce_keeps, sweeper_ok_closed|intros; apply keeps_ret].
Qed.
End ticks.

(** ** Reachable sweepers

    Rounds of the loop in any world from any tick, the read methods, subscribing,
    closing, and consumers taking findings from their channels. *)

Inductive reached : Sweeper → Prop :=
| reached_new : reached New
| reached_tick s w n paused t : reached s → reached (Run_tick cfg w paused t (s, n)).2.1
| reached_read s w n : reached s → reached (liveEpisodes w (s, n)).2.1
| reached_subscribe s : reached s → reached (Subscribe s).1
| reached_close s : reached s → reached (Close s).1
| reached_receive s i f rest closed_ :
    reached s → subs s !! i = Some (mkChannel (f :: rest) closed_) →
    reached (set_subs s (<[i := mkChannel rest closed_]> (subs s)) (closed s)).

Lemma reached_ok s : reached s → ok s.
Proof.
  induction 1 as [|s w n paused t _ IH|s w n _ IH|s _ IH|s _ IH|s i f rest cl _ IH Hi].
  - apply New_sweeper_ok.
  - by apply (Run_tick_ok w paused t (s, n)).
  - by apply (liveEpisodes_keeps w ok sweeper_ok_closed (s, n)).
  - unfold Subscribe. destruct (closed s); [done|]. destruct IH. constructor; cbn; try done.
    intros ch [?| ->%list_elem_of_singleton]%elem_of_app; [auto|]. split; [done|set_solver].
  - unfold Close. destruct (closed s); [done|]. destruct IH. constructor; cbn; try done. set_solver.
  - destruct IH as [K1 K2 K3 K4 K5 K6 K7 K8]. constructor; cbn; try done.
    intros ch (j & Hj)%list_elem_of_lookup. apply list_lookup_insert_Some in Hj as [(-> & <- & _)|[_ Hj]].
    + destruct (K8 (mkChannel (f :: rest) cl)) as [Hl Hf].
      { apply list_elem_of_lookup. eauto. }
      split; cbn in *; [lia|]. intros g Hg. apply Hf. by right.
    + apply K8. apply list_elem_of_lookup. eauto.
Qed.

(** nothing is confirmed on one sighting: every episode standing at any time was first seen at
    least its settlement window before it was confirmed, and its finding carries that first sight. *)
Theorem confirmed_a_window_apart s k ep :
  reached s → confirmed s !! k = Some ep →
  EpFirstSeenAt ep + EpWindow ep ≤ ConfirmedAt ep
  ∧ FirstSeenAt (EpFinding ep) = EpFirstSeenAt ep ∧ Confirmed (EpFinding ep) = true
  ∧ FKey (EpFinding ep) = k.
Proof.
  intros Hr Hk. destruct (sw_episodes _ _ (reached_ok s Hr) k ep Hk) as (? & ? & ? & ? & ?). done.
Qed.

(** driftwatch never claims the store is wrong about a key it does not trust itself about: no
    confirmed episode, no queued candidate and no finding sent to a subscriber is suspect. *)
Theorem suspects_are_never_confirmed s :
  reached s →
  (∀ k ep, confirmed s !! k = Some ep → FTrust (EpFinding ep) ≠ TrustSuspect)
  ∧ (∀ c, c ∈ queue s → FTrust (cfinding c) ≠ TrustSuspect)
  ∧ (∀ ch f, ch ∈ subs s → f ∈ buffered ch → FTrust f ≠ TrustSuspect).
Proof.
  intros Hr. destruct (reached_ok s Hr) as [K1 K2 K3 K4 K5 K6 K7 K8]. split_and!.
  - intros k ep Hk. by destruct (K6 k ep Hk) as (_ & ? & _).
  - exact K4.
  - intros ch f Hch Hf. by destruct (proj2 (K8 ch Hch) f Hf).
Qed.

(** the sweeper's memory is bounded under mass divergence: at most MaxConfirmQueue candidates
    wait, no key twice and none that is already confirmed; at most MaxExtrasTracked extras are
    parked; and a subscriber that does not read holds up at most its buffer. *)
Theorem sweeper_memory_bounded s :
  reached s →
  PendingConfirmations s ≤ MaxConfirmQueue cfg ∧ NoDup (qkeys (queue s))
  ∧ (∀ k, k ∈ qkeys (queue s) → confirmed s !! k = None)
  ∧ PendingExtras s ≤ MaxExtrasTracked cfg
  ∧ (∀ ch, ch ∈ subs s → Z.of_nat (length (buffered ch)) ≤ defaultSubscriberBuffer).
Proof.
  intros Hr. destruct (reached_ok s Hr) as [K1 K2 K3 K4 K5 K6 K7 K8]. split_and!; [done|done| | |].
  - intros k Hk. by apply K5, K2.
  - unfold PendingExtras. destruct (extras s); [auto|lia].
  - intros ch Hch. by destruct (K8 ch Hch).
Qed.
End invariant.
