(* ===== verification/SweepFence.v ===== *)
(** * SweepFence: what a finding of the sweeper is evidence of

    Every finding a sweep reports was made from a settled key whose version did
    not move around the read of the store; an extra was seen twice, a window
    apart, without the oracle knowing it; and when the store does not answer
    nothing is claimed. *)
From S2P Require Import Prelude GoBase GoStrings Event Projection SeqTrack Ring Shard PathMatch.
From S2P Require Import Oracle Target Differ Sweeper SweepSafety.

(** ** Ticks only grow *)

Definition mono {A} (m : M A) : Prop := ∀ s, (s.2 ≤ (m s).2.2)%nat.

Section mono.
Context {A B : Type}.

Lemma mono_ret (a : A) : mono (mret a).
Proof. by intros s. Qed.
Lemma mono_bind (m : M A) (k : A → M B) : mono m → (∀ a, mono (k a)) → mono (m ≫= k).
Proof.
  intros Hm Hk s. specialize (Hm s). unfold mbind, M_bind. destruct (m s) as [a s'].
  specialize (Hk a s'). cbn in *. lia.
Qed.
Lemma mono_access (f : nat → A) : mono (access f).
Proof. intros [s n]. cbn. lia. Qed.
Lemma mono_get (f : Sweeper → A) : mono (get f).
Proof. by intros [s n]. Qed.
Lemma mono_update (f : Sweeper → Sweeper * A) : mono (update f).
Proof. intros [s n]. unfold update. by destruct (f s). Qed.
End mono.

Lemma mono_modify f : mono (modify f).
Proof. by intros [s n]. Qed.

Ltac mono_step :=
  lazymatch goal with
  | |- mono (mret _) => apply mono_ret
  | |- mono (access _) => apply mono_access
  | |- mono (get _) => apply mono_get
  | |- mono (update _) => apply mono_update
  | |- mono (modify _) => apply mono_modify
  | |- mono (mbind _ _) => apply mono_bind; [|intros ?]
  | |- mono (if ?b then _ else _) => destruct b
  | |- mono (match ?x with _ => _ end) => destruct x
  end.
Ltac mono := cbv zeta; repeat mono_step.

(** Running the steps of a pass. *)
Lemma run_access {A B} (f : nat → A) (k : A → M B) s n :
  (access f ≫= k) (s, n) = k (f n) (s, S n).
Proof. done. Qed.
Lemma run_bind {A B} (m : M A) (k : A → M B) s : (m ≫= k) s = k (m s).1 (m s).2.
Proof. unfold mbind, M_bind. by destruct (m s). Qed.
Lemma run_modify {B} f (k : () → M B) s n : (modify f ≫= k) (s, n) = k () (f s, n).
Proof. done. Qed.
Lemma run_get {A B} (f : Sweeper → A) (k : A → M B) s n : (get f ≫= k) (s, n) = k (f s) (s, n).
Proof. done. Qed.

Section fence.
Context `{XXHash} `{MapOrder} (cfg : Config) (w : world).

(** The evidence behind a finding, gathered in accesses from [n0] up to [n]: the key was in a list
    of settled keys, its entry was looked at, then the store was read, then the entry was looked at
    again at the same version, and the finding is what comparing the two gives. *)
Definition witnessed (n0 : nat) (f : Finding) (n : nat) : Prop :=
  ∃ ts t0 t1 t2 e0 e keys reads i read opts g,
    (n0 ≤ ts < t0)%nat ∧ (t0 < t1 < t2)%nat ∧ (t2 < n)%nat
    ∧ (∃ j now ow, FKey f ∈ shard_keys j now ow (oracle_at w ts))
    ∧ Get (clock_at w t0) (oracle_at w t0) (FKey f) = Some e0 ∧ Trust e0 ≠ TrustAdopted
    ∧ read_many_at w t1 keys = Some reads ∧ keys !! i = Some (FKey f) ∧ reads !! i = Some read
    ∧ Get (clock_at w t2) (oracle_at w t2) (FKey f) = Some e
    ∧ Shard.Version e0 = OracleVersion f ∧ Shard.Version e = OracleVersion f
    ∧ compareRead (FKey f) e read opts = inr (Some g)
    ∧ f = with_sighting g (FirstSeenAt f) (Confirmed f).

Lemma witnessed_later n0 f n n' : (n ≤ n')%nat → witnessed n0 f n → witnessed n0 f n'.
Proof.
  intros Hn (ts & t0 & t1 & t2 & e0 & e & keys & reads & i & read & opts & g & K1 & K2 & K3 & K).
  exists ts, t0, t1, t2, e0, e, keys, reads, i, read, opts, g.
  split; [exact K1|split; [exact K2|split; [lia|exact K]]].
Qed.

Definition rep_ok (n0 : nat) (rep : Report) (n : nat) : Prop :=
  ∀ f, f ∈ Findings rep → witnessed n0 f n.

Lemma rep_ok_later n0 rep n n' : (n ≤ n')%nat → rep_ok n0 rep n → rep_ok n0 rep n'.
Proof. intros Hn Hr f Hf. eapply witnessed_later; [done|by apply Hr]. Qed.

(** A key picked for comparison: settled, then looked at, with its version noted. *)
Definition picked (n0 : nat) (versions : gmap string Z) (k : string) (n : nat) : Prop :=
  ∃ ts t0 e0, (n0 ≤ ts < t0)%nat ∧ (t0 < n)%nat
    ∧ (∃ j now ow, k ∈ shard_keys j now ow (oracle_at w ts))
    ∧ Get (clock_at w t0) (oracle_at w t0) k = Some e0 ∧ Trust e0 ≠ TrustAdopted
    ∧ versions !! k = Some (Shard.Version e0).

Lemma Add_findings rep f g : g ∈ Findings (Add rep (Some f)) → g ∈ Findings rep ∨ g = f.
Proof.
  cbn. destruct (_ >=? _); [by left|]. intros [?| ->%list_elem_of_singleton]%elem_of_app; auto.
Qed.

Lemma handleComparison_findings rep f v key now win s g :
  g ∈ Findings (handleComparison cfg rep f v key now win s).2 →
  g ∈ Findings rep ∨ ∃ f0, f = Some f0 ∧ g = with_sighting f0 (FirstSeenAt g) (Confirmed g).
Proof.
  unfold handleComparison. destruct f as [f|]; [|by left].
  case_decide; [|destruct (episode key s)]; cbn [snd]; intros [?| ->]%Add_findings; auto;
    right; exists f; (split; [done|]); by destruct f.
Qed.

Definition at_tick {A} (Q : A → nat → Prop) : A → Sweeper * nat → Prop := λ a s, Q a s.2.

(** One key of a batch read at tick [t1]. *)
Lemma process_key_fenced n0 opts versions now win rep keys t1 reads i key :
  read_many_at w t1 keys = Some reads → keys !! i = Some key → picked n0 versions key t1 →
  triple (λ s, (t1 < s.2)%nat ∧ rep_ok n0 rep s.2)
    (process_key cfg w opts versions now win rep key (reads !! i))
    (λ r s, (t1 < s.2)%nat ∧ match r with inr rep => rep_ok n0 rep s.2 | inl _ => True end).
Proof.
  intros Hreads Hkey (ts & t0 & e0 & Hts & Ht0 & Hset & Hget0 & Htr & Hv).
  unfold process_key, oracle_Version, oracle_Get. rewrite Hv. cbn [default id].
  intros [s n] [Hn Hrep]. cbn in Hn, Hrep. unfold mbind, M_bind, mret, M_ret, access, modify.
  assert (rep_ok n0 rep (S n)) as Hrep1 by (apply (rep_ok_later _ _ n); [lia|done]).
  assert (rep_ok n0 rep (S (S n))) as Hrep2 by (apply (rep_ok_later _ _ n); [lia|done]).
  destruct (negb (bool_decide _)); [split; cbn; [lia|done]|].
  destruct (Get (clock_at w (S n)) (oracle_at w (S n)) key) as [e|] eqn:Hget; [|split; cbn; [lia|done]].
  destruct (Z.eqb_spec (Shard.Version e) (Shard.Version e0)) as [He|]; cbn [negb]; [|split; cbn; [lia|done]].
  destruct (reads !! i) as [read|] eqn:Hread; [|split; cbn; [lia|done]].
  destruct (compareRead key e read opts) as [err|f] eqn:Hcmp; [split; cbn; [lia|done]|].
  unfold update. set (rep' := mkReport _ _ _ _ _ _ _ _ _ _ _ _ _ _ _).
  destruct (handleComparison cfg rep' f (Shard.Version e) key now win (bump keysCompared s)) as [s' rep2] eqn:Hh.
  cbn. split; [lia|]. intros g Hg.
  assert (g ∈ Findings (handleComparison cfg rep' f (Shard.Version e) key now win (bump keysCompared s)).2)
    as Hg' by (by rewrite Hh).
  destruct (handleComparison_findings _ _ _ _ _ _ _ _ Hg') as [Hold|(f0 & -> & Hgf)].
  - by apply Hrep2.
  - destruct (compareRead_fields _ _ _ _ _ Hcmp) as (Hfk & _ & Hfv).
    assert (FKey g = key) as Hgk by (by rewrite Hgf).
    assert (OracleVersion g = Shard.Version e) as Hgv by (by rewrite Hgf).
    exists ts, t0, t1, (S n), e0, e, keys, reads, i, read, opts, f0. rewrite Hgk, Hgv.
    split_and!; try done; lia.
Qed.

Definition rep_result (n0 : nat) (r : Error + Report) (n : nat) : Prop :=
  match r with inr rep => rep_ok n0 rep n | inl _ => True end.

Lemma head_drop {A} (l : list A) i : head (drop i l) = l !! i.
Proof. revert i. induction l as [|x l IH]; intros [|i]; cbn; auto. Qed.

Lemma tail_drop {A} (l : list A) i : tail (drop i l) = drop (S i) l.
Proof. revert i. induction l as [|x l IH]; intros [|i]; try done. apply IH. Qed.

Lemma process_keys_fenced n0 opts versions now win keys t1 reads :
  read_many_at w t1 keys = Some reads → (∀ k, k ∈ keys → picked n0 versions k t1) →
  ∀ rest i rep, rest = drop i keys →
  triple (λ s, (t1 < s.2)%nat ∧ rep_ok n0 rep s.2)
    (process_keys cfg w opts versions now win rep rest (drop i reads))
    (λ r s, rep_result n0 r s.2).
Proof.
  intros Hreads Hpick. induction rest as [|key rest IH]; intros i rep Hrest; cbn [process_keys].
  { apply triple_ret. by intros s [_ ?]. }
  assert (keys !! i = Some key) as Hkey by (rewrite <- head_drop, <- Hrest; done).
  rewrite head_drop, tail_drop. eapply triple_bind.
  - apply (process_key_fenced n0 opts versions now win rep keys t1 reads i key Hreads Hkey).
    apply Hpick, list_elem_of_lookup. eauto.
  - intros [err|rep']; [by apply triple_ret|]. apply IH. by rewrite <- tail_drop, <- Hrest.
Qed.

Lemma processBatch_fenced n0 opts rep keys versions now win :
  triple (λ s, rep_ok n0 rep s.2 ∧ ∀ k, k ∈ keys → picked n0 versions k s.2)
    (processBatch cfg w opts rep keys versions now win) (λ r s, rep_result n0 r s.2).
Proof.
  intros [s n] [Hrep Hpick]. unfold processBatch, mbind, M_bind, access.
  destruct (read_many_at w n keys) as [reads|] eqn:Hreads; [|done].
  apply (process_keys_fenced n0 opts versions now win keys n reads Hreads Hpick keys 0 rep eq_refl).
  cbn. split; [lia|]. apply (rep_ok_later _ _ n); [lia|done].
Qed.

Lemma process_keys_mono opts versions now win keys : ∀ rep reads,
  mono (process_keys cfg w opts versions now win rep keys reads).
Proof.
  induction keys as [|key keys IH]; intros rep reads; cbn [process_keys]; [apply mono_ret|].
  apply mono_bind; [|intros [err|rep']; [apply mono_ret|apply IH]].
  unfold process_key, oracle_Version, oracle_Get. mono.
Qed.

Lemma processBatch_mono opts rep keys versions now win :
  mono (processBatch cfg w opts rep keys versions now win).
Proof. unfold processBatch. mono. apply process_keys_mono. Qed.

(** What the loop over the settled keys keeps. *)
Definition walk_ok (n0 : nat) (st : walking) (n : nat) : Prop :=
  rep_ok n0 (wrep st) n ∧ ∀ k, k ∈ wbatch st → picked n0 (wversions st) k n.

Lemma picked_later n0 versions k n n' : (n ≤ n')%nat → picked n0 versions k n → picked n0 versions k n'.
Proof.
  intros Hn (ts & t0 & e0 & K1 & K2 & K). exists ts, t0, e0.
  split; [exact K1|split; [lia|exact K]].
Qed.

Lemma walk_ok_later n0 st n n' : (n ≤ n')%nat → walk_ok n0 st n → walk_ok n0 st n'.
Proof.
  intros Hn [K1 K2]. split; [by apply (rep_ok_later _ _ n)|]. intros k Hk.
  apply (picked_later _ _ _ n); auto.
Qed.

Definition walk_result (n0 : nat) (r : Error + walking) (n : nat) : Prop :=
  match r with inr st => walk_ok n0 st n | inl _ => True end.

Lemma walk_key_fenced n0 opts now win st ts key :
  (n0 ≤ ts)%nat → (∃ j now ow, key ∈ shard_keys j now ow (oracle_at w ts)) →
  triple (λ s, (ts < s.2)%nat ∧ walk_ok n0 st s.2) (walk_key cfg w opts now win st key)
    (λ r s, (ts < s.2)%nat ∧ walk_result n0 r s.2).
Proof.
  intros Hts Hset [s n] [Hn Hst]. cbn in Hn, Hst. unfold walk_key, ctx_Err, oracle_Get.
  rewrite !run_access. destruct (canceled_at w n); [split; cbn; [lia|done]|].
  rewrite !run_access.
  destruct (Get (clock_at w (S n)) (oracle_at w (S n)) key) as [e|] eqn:Hget.
  2: { split; cbn; [lia|]. apply (walk_ok_later _ _ n); [lia|done]. }
  destruct (decide (Trust e = TrustAdopted)) as [|Htr].
  { split; cbn; [lia|]. destruct (walk_ok_later n0 st n (S (S n)) ltac:(lia) Hst) as [K1 K2]. done. }
  cbv zeta. set (versions := <[key := Shard.Version e]> (wversions st)).
  assert (∀ k, k ∈ wbatch st ++ [key] → picked n0 versions k (S (S n))) as Hpick.
  { intros k Hk. destruct (decide (k = key)) as [->|Hne].
    - exists ts, (S n), e. split_and!; try done; try lia; apply lookup_insert_eq.
    - apply elem_of_app in Hk as [Hk|Hk%list_elem_of_singleton]; [|done].
      destruct (picked_later _ _ _ n (S (S n)) ltac:(lia) (proj2 Hst k Hk)) as (ts' & t0 & e0 & K).
      exists ts', t0, e0. unfold versions. by rewrite lookup_insert_ne. }
  assert (rep_ok n0 (wrep st) (S (S n))) as Hrep by (apply (rep_ok_later _ _ n); [lia|apply Hst]).
  destruct (Z.of_nat (length (wbatch st ++ [key])) <? ReadBatchSize cfg); [by split; cbn; [lia|]|].
  pose proof (processBatch_fenced n0 opts (wrep st) (wbatch st ++ [key]) versions now win
    (s, S (S n)) (conj Hrep Hpick)) as Hb.
  pose proof (processBatch_mono opts (wrep st) (wbatch st ++ [key]) versions now win (s, S (S n))) as Hm.
  rewrite !run_bind. destruct (processBatch _ _ _ _ _ _ _ _ _) as [[err|rep] [s' n']];
    cbn in *; (split; [lia|]); [done|]. split; [done|set_solver].
Qed.

Lemma walk_keys_fenced n0 opts now win ts keys :
  (n0 ≤ ts)%nat → (∀ k, k ∈ keys → ∃ j now ow, k ∈ shard_keys j now ow (oracle_at w ts)) →
  ∀ st, triple (λ s, (ts < s.2)%nat ∧ walk_ok n0 st s.2) (walk_keys cfg w opts now win st keys)
    (λ r s, walk_result n0 r s.2).
Proof.
  intros Hts. induction keys as [|key keys IH]; intros Hset st; cbn [walk_keys].
  { apply triple_ret. by intros s [_ ?]. }
  eapply triple_bind; [apply (walk_key_fenced n0 opts now win st ts key Hts); apply Hset; by left|].
  intros [err|st']; [by apply triple_ret|]. apply IH. intros k Hk. apply Hset. by right.
Qed.

Lemma walk_key_mono opts now win st key : mono (walk_key cfg w opts now win st key).
Proof. unfold walk_key, ctx_Err, oracle_Get. mono. apply processBatch_mono. Qed.

Lemma walk_keys_mono opts now win keys : ∀ st, mono (walk_keys cfg w opts now win st keys).
Proof.
  induction keys as [|key keys IH]; intros st; cbn [walk_keys]; [apply mono_ret|].
  apply mono_bind; [apply walk_key_mono|intros [err|st']; [apply mono_ret|apply IH]].
Qed.

Lemma walk_shards_fenced n0 opts now win ow ids : ∀ st,
  triple (λ s, (n0 ≤ s.2)%nat ∧ walk_ok n0 st s.2) (walk_shards cfg w opts now win ow st ids)
    (λ r s, walk_result n0 r s.2).
Proof.
  induction ids as [|i ids IH]; intros st; cbn [walk_shards].
  { apply triple_ret. by intros s [_ ?]. }
  intros [s n] [Hn Hst]. cbn in Hn, Hst. rewrite !run_access.
  pose proof (walk_keys_fenced n0 opts now win n (shard_keys i now ow (oracle_at w n)) Hn
    ltac:(eauto) st (s, S n)
    (conj (Nat.lt_succ_diag_r n) (walk_ok_later _ _ n (S n) ltac:(lia) Hst))) as Hw.
  pose proof (walk_keys_mono opts now win (shard_keys i now ow (oracle_at w n)) st (s, S n)) as Hm.
  rewrite !run_bind. destruct (walk_keys _ _ _ _ _ _ _ _) as [[err|st'] s']; [done|].
  apply IH. cbn in *. split; [lia|done].
Qed.

Lemma walk_shards_mono opts now win ow ids : ∀ st, mono (walk_shards cfg w opts now win ow st ids).
Proof.
  induction ids as [|i ids IH]; intros st; cbn [walk_shards]; [apply mono_ret|].
  apply mono_bind; [apply mono_access|intros keys].
  apply mono_bind; [apply walk_keys_mono|intros [err|st']; [apply mono_ret|apply IH]].
Qed.

Lemma checkHealth_mono : mono (checkHealth cfg w).
Proof. unfold checkHealth, target_Health, ctx_Err. mono. Qed.

Lemma liveEpisodes_mono : mono (liveEpisodes w).
Proof.
  unfold liveEpisodes. apply mono_bind; [apply mono_get|intros keys].
  apply mono_bind; [|intros u; apply mono_get].
  induction keys as [|k keys IH]; cbn [live_all]; [apply mono_ret|].
  apply mono_bind; [|intros u; apply IH]. unfold live_one, oracle_Version. mono.
Qed.

Lemma walk_fenced n0 rep opts now win :
  triple (λ s, (n0 ≤ s.2)%nat ∧ rep_ok n0 rep s.2) (walk cfg w rep opts now win)
    (λ r s, rep_result n0 r s.2).
Proof.
  unfold walk.
  eapply (triple_bind _ _ _ (λ _ s, (n0 ≤ s.2)%nat ∧ rep_ok n0 rep s.2)); [by apply triple_modify|intros u].
  eapply (triple_bind _ _ _ (λ _ s, (n0 ≤ s.2)%nat ∧ rep_ok n0 rep s.2)).
  { apply triple_access. cbn. intros s n [? ?]. split; [lia|]. by apply (rep_ok_later _ _ n); [lia|]. }
  intros start. eapply triple_bind.
  { eapply triple_consequence; [apply (walk_shards_fenced n0 opts now win)| |by intros ? ? Hq; exact Hq].
    intros s [? ?]. split; [done|]. split; [done|set_solver]. }
  intros [err|st]; [by apply triple_ret|].
  destruct (bool_decide (wbatch st = [])).
  - apply triple_ret. by intros s [? _].
  - eapply triple_consequence; [apply (processBatch_fenced n0)|done|by intros ? ? Hq; exact Hq].
Qed.

(** The tail of a sweep only stamps the report and prunes the episodes. *)
Lemma sweep_fenced n0 :
  triple (λ s, s.2 = n0) (sweep cfg w) (λ r s, rep_result n0 r s.2).
Proof.
  intros [s n] [= ->]. unfold sweep, isClosed. rewrite run_get. destruct (closed s); [done|].
  rewrite run_bind. pose proof (checkHealth_mono (s, n0)) as Hm.
  destruct (checkHealth cfg w (s, n0)) as [[err|h] [s1 n1]]; [done|]. cbn [fst snd] in *.
  unfold Now_, SettlementWindow_. rewrite !run_access. cbv zeta. rewrite run_bind.
  set (rep := begin_report _ _ _ _ _). set (opts := with_Now _ _).
  pose proof (walk_fenced n0 rep opts (clock_at w n1) (window_at w (S n1)) (s1, S (S (S n1)))) as Hw.
  destruct (walk cfg w rep opts _ _ _) as [[err|rep'] [s2 n2]]; [done|]. cbn [fst snd rep_result] in *.
  assert (rep_ok n0 rep' n2) as Hr by (apply Hw; split; [lia|intros f Hf; by apply elem_of_nil in Hf]).
  unfold target_Health. rewrite run_access. destruct (match health_at w n2 with Some _ => _ | None => _ end).
  rewrite run_bind. pose proof (liveEpisodes_mono (s2, S n2)) as Hl.
  destruct (liveEpisodes w (s2, S n2)) as [u [s3 n3]]. cbn [fst snd] in *.
  rewrite run_access, run_modify. cbn. intros f Hf. apply (witnessed_later _ _ n2); [lia|]. by apply Hr.
Qed.

(** The value a read was compared against is the one the oracle expected while the store was read. *)
Definition expected_during (t0 t1 t2 : nat) (f : Finding) : Prop :=
  ∀ b b', 0 ≤ OracleVersion f → reachable (oracle_at w t0) b → reachable (oracle_at w t1) b' →
  path (FKey f) (oracle_at w t0) b (oracle_at w t1) →
  path (FKey f) (oracle_at w t1) b' (oracle_at w t2) →
  ∃ v, value_of (oracle_at w t1) (FKey f) = Some v
    ∧ (OracleValue f = Clone v ∨ OracleValue f = absent).

Lemma Get_version now o k e : Get now o k = Some e → Version o k = Some (Shard.Version e).
Proof. unfold Get, Version. destruct (entries _ !! k); [|done]. case_match; by intros [= <-]. Qed.

Lemma Get_value now o k e :
  Get now o k = Some e →
  ∃ v, value_of o k = Some v ∧ (EntValue e = Clone v ∨ EntValue e = absent).
Proof.
  unfold Get, value_of, find. destruct (entries _ !! k) as [ent|]; [|done]. intros Hg.
  exists (value ent). split; [done|]. revert Hg. case_match; intros [= <-]; [by right|by left].
Qed.

Lemma path_keeps_tracked k o b o' : path k o b o' → is_Some (find o k) → is_Some (find o' k).
Proof. induction 1; auto. Qed.

Lemma fenced_value t0 t1 t2 e0 e f :
  Get (clock_at w t0) (oracle_at w t0) (FKey f) = Some e0 →
  Get (clock_at w t2) (oracle_at w t2) (FKey f) = Some e →
  Shard.Version e0 = OracleVersion f → Shard.Version e = OracleVersion f →
  OracleValue f = EntValue e → expected_during t0 t1 t2 f.
Proof.
  intros Hg0 Hg He0 He Hv b b' Hpos Hr0 Hr1 Hp0 Hp1.
  apply Get_version in Hg0 as Hv0. apply Get_version in Hg as Hv2. rewrite He0 in Hv0. rewrite He in Hv2.
  assert (is_Some (find (oracle_at w t1) (FKey f))) as [ent Hent].
  { apply (path_keeps_tracked _ _ _ _ Hp0). unfold Version in Hv0.
    apply fmap_Some in Hv0 as (? & ? & _). eexists. done. }
  assert (Version (oracle_at w t1) (FKey f) = Some (version ent)) as Hv1.
  { unfold Version. unfold find in Hent. by rewrite Hent. }
  destruct (version_fence _ _ _ _ _ _ Hr0 Hp0 Hv0 Hv1 Hpos) as [Hle1 _].
  destruct (version_fence _ _ _ _ _ _ Hr1 Hp1 Hv1 Hv2 ltac:(lia)) as [Hle2 Heq].
  destruct (Get_value _ _ _ _ Hg) as (v & Hval & Hcase).
  exists v. rewrite Hv, Heq by lia. done.
Qed.

Lemma compareRead_value key e read opts f :
  compareRead key e read opts = inr (Some f) → OracleValue f = EntValue e.
Proof.
  unfold compareRead. destruct (ReadErr read) as [[got|]|]; [|done|].
  - intros [= <-]. unfold CompareUnreadable, newFinding. cbv zeta.
    destruct (if _ || _ then diffMembers _ _ _ else _) as [? ?].
    by destruct (if _ || _ then diffMembers _ _ _ else _) as [? ?].
  - intros [= Hf]. by destruct (Compare_fields _ _ _ _ _ Hf) as (_ & _ & ? & _).
Qed.

End fence.
