(* ===== verification/SweepClaims.v ===== *)
(** * SweepClaims: what the sweeper may claim, and when it must not

    A store that does not answer changes nothing the sweeper claims; a finding
    is confirmed only by a second read at the version it was first seen at; an
    extra is reported only when two scans a window apart found it unknown to the
    oracle. *)
From S2P Require Import Prelude GoBase GoStrings Event Projection SeqTrack Ring Shard PathMatch.
From S2P Require Import Oracle Target Differ Sweeper SweepSafety SweepFence.

(** ** The store does not answer *)

(** No health check of the world finds a store that answers. *)
Definition store_down (w : world) : Prop :=
  ∀ n, match health_at w n with Some h => Reachable h = false | None => True end.

(** The same claims, the same parked work: the queue up to its order. *)
Record same_claims (s s' : Sweeper) : Prop := mk_same_claims {
  sc_confirmed : confirmed s' = confirmed s;
  sc_subs : subs s' = subs s;
  sc_extras : extras s' = extras s;
  sc_queue : queue s' ≡ₚ queue s
}.

#[export] Instance same_claims_refl : Reflexive same_claims.
Proof. by intros s; constructor. Qed.

Section down.
Context `{XXHash} `{MapOrder} (cfg : Config) (w : world).

Lemma checkHealth_down s n :
  store_down w → ∃ err s', (checkHealth cfg w (s, n)) = (inl err, (s', S (S n))) ∧ same_claims s s'.
Proof.
  intros Hd. specialize (Hd n). unfold checkHealth, target_Health, ctx_Err. rewrite !run_access.
  destruct (canceled_at w (S n)); [eexists _, _; split; [reflexivity|reflexivity]|].
  destruct (health_at w n) as [h|]; [rewrite Hd; cbn [negb]|]; rewrite run_modify;
    (eexists _, _; split; [reflexivity|by constructor]).
Qed.

Lemma requeueAll_queue cs : ∀ s,
  NoDup (qkeys (queue s ++ cs)) → (∀ k, k ∈ queued s ↔ k ∈ qkeys (queue s)) →
  Z.of_nat (length (queue s ++ cs)) ≤ MaxConfirmQueue cfg →
  let s' := requeueAll cfg cs s in
  queue s' = queue s ++ cs ∧ confirmed s' = confirmed s ∧ subs s' = subs s ∧ extras s' = extras s.
Proof.
  unfold requeueAll. induction cs as [|c cs IH]; intros s Hnd Hq Hl; cbn [foldl].
  { by rewrite app_nil_r. }
  assert (FKey (cfinding c) ∉ queued s) as Hc.
  { rewrite Hq. rewrite qkeys_app in Hnd. apply NoDup_app in Hnd as (_ & Hdis & _).
    intros Hin. apply (Hdis _ Hin). by left. }
  rewrite length_app in Hl. cbn in Hl. set (s1 := set_queue s (queue s ++ [c]) ({[FKey (cfinding c)]} ∪ queued s)).
  assert (requeue_one cfg s c = s1) as ->.
  { unfold requeue_one. rewrite decide_False by done.
    by destruct (Z.geb_spec (Z.of_nat (length (queue s))) (MaxConfirmQueue cfg)); [lia|]. }
  destruct (IH s1) as (Hq1 & Hc1 & Hs1 & Hx1).
  - cbn. by rewrite <- app_assoc.
  - intros k. cbn. rewrite qkeys_app, elem_of_app, elem_of_union, elem_of_singleton, Hq. cbn.
    rewrite list_elem_of_singleton. tauto.
  - cbn. rewrite !length_app. cbn. lia.
  - rewrite Hq1. split_and!; try done. cbn. by rewrite <- app_assoc.
Qed.

Lemma ConfirmDue_down now s n :
  0 < MaxConfirmQueue cfg → 0 < MaxExtrasTracked cfg → store_down w → sweeper_ok cfg s →
  (ConfirmDue cfg w now (s, n)).1 = 0 ∧ same_claims s (ConfirmDue cfg w now (s, n)).2.1.
Proof.
  intros Hmq Hmx Hd Hok. unfold ConfirmDue, isClosed. rewrite run_get. destruct (closed s); [done|].
  destruct (takeDue_ok cfg Hmq Hmx now s Hok) as (Hok1 & Hdue & Hc & Hp).
  assert (subs (takeDue now s).1 = subs s ∧ extras (takeDue now s).1 = extras s) as [Hsub Hex].
  { unfold takeDue. by destruct (take_due_loop _ _ _) as [[? ?] ?]. }
  rewrite run_bind. unfold update. destruct (takeDue now s) as [s1 due]. cbn [fst snd] in *.
  case_bool_decide as Hnil.
  - split; [done|]. subst due. constructor; cbn; try done.
  - unfold target_Health. rewrite run_access. specialize (Hd n).
    assert (match health_at w n with Some h => Reachable h | None => false end = false) as ->
      by (destruct (health_at w n); [done|done]).
    cbn [negb]. rewrite !run_modify.
    destruct (requeueAll_queue due s1) as (Hq1 & Hc1 & Hs1 & Hx1).
    + rewrite qkeys_app. apply NoDup_app. split_and!; [apply Hok1| |apply Hdue].
      intros k Hk Hk2. apply (du_queued _ _ _ Hdue k Hk2). by apply (sw_queued _ _ Hok1).
    + apply Hok1.
    + pose proof (sw_bound _ _ Hok) as Hb. rewrite Hp, length_app in Hb. rewrite length_app. lia.
    + split; [done|]. constructor; cbn; [by rewrite Hc1|by rewrite Hs1|by rewrite Hx1|].
      rewrite Hq1, Hp. apply Permutation_app_comm.
Qed.

(** C18: no answer, no claim. While no health check finds a store that answers, a sweep and an extras
    scan return an error and no report, a confirm round decides nothing, and what is confirmed, what
    was sent to subscribers, the parked extras and the waiting candidates all stay as they were. *)
Theorem unreachable_store_asserts_nothing s n now :
  store_down w → reached cfg s → 0 < MaxConfirmQueue cfg → 0 < MaxExtrasTracked cfg →
  (∃ err, (sweep cfg w (s, n)).1 = inl err) ∧ same_claims s (sweep cfg w (s, n)).2.1
  ∧ (∃ err, (ScanExtrasOnce cfg w (s, n)).1 = inl err)
  ∧ same_claims s (ScanExtrasOnce cfg w (s, n)).2.1
  ∧ (ConfirmDue cfg w now (s, n)).1 = 0 ∧ same_claims s (ConfirmDue cfg w now (s, n)).2.1.
Proof.
  intros Hd Hr Hq Hx. apply reached_ok in Hr; [|done|done].
  destruct (checkHealth_down s n Hd) as (err & s' & Hc & Hs).
  pose proof (ConfirmDue_down now s n Hq Hx Hd Hr) as [Hc1 Hc2].
  unfold sweep, ScanExtrasOnce, isClosed. rewrite !run_get.
  destruct (closed s); [split_and!; try done; eauto|].
  rewrite !run_bind, Hc. cbn [fst snd]. split_and!; try done; eexists; reflexivity.
Qed.
End down.

(** ** Confirmation *)

(** The evidence behind an episode: a candidate that waited out its window, and a second read of the
    store between two looks at the oracle that show the version it was first seen at. *)
Definition reread `{MapOrder} `{XXHash} (cfg : Config) (w : world) (n : nat) (c : candidate) (now : Time)
    (ep : Episode) (n' : nat) : Prop :=
  let k := FKey (cfinding c) in
  ∃ t0 t1 t2 e g, (n ≤ t0 < t1)%nat ∧ (t1 < t2 < n')%nat
    ∧ Version (oracle_at w t0) k = Some (cversion c)
    ∧ Get (clock_at w t2) (oracle_at w t2) k = Some e ∧ Shard.Version e = cversion c
    ∧ Trust e ≠ TrustSuspect
    ∧ compareRead k e (read_one_at w t1 k) (with_Now (DifferOptions cfg) now) = inr (Some g)
    ∧ ep = mkEpisode k (with_sighting g (seenAt c) true) (seenAt c) now (cwindow c).

Section confirmation.
Context `{MapOrder} `{XXHash} (cfg : Config) (w : world).
Context (Hqueue : 0 < MaxConfirmQueue cfg) (Hextras : 0 < MaxExtrasTracked cfg).

Lemma reread_later n c now ep n1 n2 : (n1 ≤ n2)%nat → reread cfg w n c now ep n1 → reread cfg w n c now ep n2.
Proof.
  intros Hle (t0 & t1 & t2 & e & g & K1 & K2 & K). exists t0, t1, t2, e, g.
  split; [done|split; [lia|done]].
Qed.

(** Every episode of [s] was there at the start or comes from one of the candidates [cs]. *)
Definition grown (s0 : Sweeper) (n : nat) (cs : list candidate) (now : Time) (s : Sweeper * nat) : Prop :=
  (n ≤ s.2)%nat ∧ ∀ k ep, confirmed s.1 !! k = Some ep →
    confirmed s0 !! k = Some ep
    ∨ ∃ c, c ∈ cs ∧ FKey (cfinding c) = k ∧ reread cfg w n c now ep s.2.

Lemma grown_step s0 n cs now s m s' m' :
  (m ≤ m')%nat → confirmed s' = confirmed s → grown s0 n cs now (s, m) → grown s0 n cs now (s', m').
Proof.
  intros Hle Hc [Hn Hg]. split; cbn in *; [lia|]. intros k ep. rewrite Hc. intros Hk.
  destruct (Hg k ep Hk) as [?|(c & Hin & Hkey & Hr)]; [by left|right].
  exists c. split_and!; try done. by apply (reread_later _ _ _ _ m).
Qed.

Lemma confirm_confirmed k ep s :
  confirmed s !! k = None → confirmed (confirm k ep s) = <[k := ep]> (confirmed s).
Proof. intros Hn. unfold confirm, publish. rewrite Hn. by destruct (foldl _ _ _). Qed.

Lemma confirmOne_grown s0 n cs now c due :
  c ∈ cs →
  triple (λ s, confirming cfg now (c :: due) s ∧ grown s0 n cs now s) (confirmOne cfg w c now)
    (λ _ s, grown s0 n cs now s).
Proof.
  intros Hc [s m] [[Hok Hdue] Hg]. unfold confirmOne, oracle_Version, oracle_Get. cbn in Hok, Hdue.
  assert (∀ m' f, (m ≤ m')%nat → (confirmed (f s) = confirmed s) → grown s0 n cs now (f s, m')) as Hstay.
  { intros m' f Hm' Hf. by apply (grown_step _ _ _ _ s m). }
  rewrite run_access. destruct (Version (oracle_at w m) (FKey (cfinding c))) as [v|] eqn:Hv;
    [|apply (Hstay _ (bump transientKeyEvicted)); [lia|done]].
  destruct (Z.eqb_spec v (cversion c)) as [->|]; cbn [negb];
    [|rewrite run_modify; apply (Hstay _ (λ s, markRequeued _ (bump _ s))); [lia|done]].
  rewrite run_access. destruct (decide (ReadErr _ = _)) as [|Hread];
    [rewrite run_modify; apply (Hstay _ (λ s, markRequeued _ (bump _ s))); [lia|done]|].
  rewrite run_access. destruct (Get _ _ _) as [e|] eqn:Hget;
    [|rewrite run_modify; apply (Hstay _ (λ s, markRequeued _ (bump _ s))); [lia|done]].
  destruct (Z.eqb_spec (Shard.Version e) (cversion c)) as [He|]; cbn [negb];
    [|rewrite run_modify; apply (Hstay _ (λ s, markRequeued _ (bump _ s))); [lia|done]].
  destruct (decide (Trust e = TrustSuspect)) as [|Ht]; [apply (Hstay _ (bump suspectNotConfirmed)); [lia|done]|].
  cbv zeta. destruct (match ReadErr _ with Some (WrongTypeError _) => _ | _ => _ end) as [g|] eqn:Hcmp;
    [|apply (Hstay _ (bump transientResolved)); [lia|done]].
  pose proof (du_confirmed _ _ _ Hdue (FKey (cfinding c)) ltac:(by left)) as Hnone.
  destruct Hg as [Hn Hg]. cbn in Hn, Hg. split; cbn; [lia|]. rewrite confirm_confirmed by done.
  intros k ep. rewrite lookup_insert_Some. intros [[<- <-]|[_ Hk]].
  - right. exists c. split_and!; [done..|]. exists m, (S m), (S (S m)), e, g. split_and!; try done; try lia.
    unfold compareRead. destruct (ReadErr _) as [[got|]|]; [by rewrite <- Hcmp|done|by rewrite Hcmp].
  - destruct (Hg k ep Hk) as [?|(c' & Hin & Hkey & Hr)]; [by left|right].
    exists c'. split_and!; try done. apply (reread_later _ _ _ _ m); [lia|done].
Qed.

Lemma requeueAll_confirmed cs s : confirmed (requeueAll cfg cs s) = confirmed s.
Proof.
  unfold requeueAll. revert s. induction cs as [|c cs IH]; intros s; [done|]. cbn [foldl].
  rewrite IH. unfold requeue_one. by repeat case_match.
Qed.

Lemma confirm_loop_grown s0 n cs now due : ∀ decided, (∀ c, c ∈ due → c ∈ cs) →
  triple (λ s, confirming cfg now due s ∧ grown s0 n cs now s) (confirm_loop cfg w due now decided)
    (λ _ s, grown s0 n cs now s).
Proof.
  induction due as [|c due IH]; intros decided Hcs; cbn [confirm_loop].
  { apply triple_ret. by intros s [_ ?]. }
  unfold ctx_Err.
  eapply (triple_bind _ _ _ (λ _ s, confirming cfg now (c :: due) s ∧ grown s0 n cs now s)).
  { apply triple_access. intros s m [Hs Hg]. split; [done|]. by apply (grown_step _ _ _ _ s m); [lia| |]. }
  intros [|].
  - eapply (triple_bind _ _ _ (λ _ s, grown s0 n cs now s)); [|intros u; by apply triple_ret].
    apply triple_modify. intros s m [_ Hg]. apply (grown_step _ _ _ _ s m); [lia| |done].
    apply (requeueAll_confirmed (c :: due)).
  - eapply (triple_bind _ _ _ (λ _ s, confirming cfg now due s ∧ grown s0 n cs now s)).
    { intros s [Hs Hg]. split.
      - by eapply confirmOne_spec.
      - apply (confirmOne_grown s0 n cs now c due); [|done]. apply Hcs. by left. }
    intros u. apply IH. intros c' Hc'. apply Hcs. by right.
Qed.

Lemma ConfirmDue_grown s now n :
  sweeper_ok cfg s →
  grown s n (filter (λ c, dueAt c ≤ now) (queue s)) now (ConfirmDue cfg w now (s, n)).2.
Proof.
  intros Hok. assert (∀ cs, grown s n cs now (s, n)) as Hg0 by (intros cs; split; [done|by left]).
  unfold ConfirmDue, isClosed. rewrite run_get. destruct (closed s); [apply Hg0|].
  destruct (takeDue_ok cfg Hqueue Hextras now s Hok) as (Hok1 & Hdue & Hc & Hp).
  rewrite run_bind. unfold update. destruct (takeDue now s) as [s1 due]. cbn [fst snd] in *.
  set (cs := filter _ _).
  assert (grown s n cs now (s1, n)) as Hg1 by (apply (grown_step _ _ _ _ s n); [lia|done|apply Hg0]).
  case_bool_decide as Hnil; [done|]. unfold target_Health. rewrite run_access.
  destruct (negb _).
  - rewrite !run_modify. apply (grown_step _ _ _ _ s1 n); [lia| |done]. apply requeueAll_confirmed.
  - rewrite run_modify. apply (confirm_loop_grown s n cs now due 0).
    + intros c Hin. apply list_elem_of_filter. split; [by apply (du_trust _ _ _ Hdue)|].
      rewrite Hp. apply elem_of_app. by left.
    + split; [|by apply (grown_step _ _ _ _ s1 n); [lia| |]].
      split; [by apply bump_ok|by destruct Hdue].
Qed.

(** No sweep and no extras scan adds an episode. *)
Definition within (s0 : Sweeper) (s : Sweeper) : Prop :=
  ∀ k, is_Some (confirmed s !! k) → is_Some (confirmed s0 !! k).

Lemma within_closed s0 : pass_closed cfg (within s0).
Proof.
  constructor; intros; try done.
  - intros j [ep Hj]. cbn in Hj. apply lookup_delete_Some in Hj as [_ Hj]. eauto.
  - match goal with Hw : within _ _ |- _ => rename Hw into Hs end.
    unfold handleComparison, resolve, enqueue, episode, refresh. intros j.
    destruct f as [f|]; [case_decide; [apply Hs|]|]; destruct (confirmed s !! key) as [ep|] eqn:Hep;
      cbn; try apply Hs.
    + intros [ep' [[<- _]|[_ Hj]]%lookup_insert_Some]; apply Hs; eauto.
    + repeat case_match; apply Hs.
    + intros [ep' [_ Hj]%lookup_delete_Some]. apply Hs; eauto.
Qed.

(** C5: two-phase confirmation. A key that stands confirmed after a round of the loop and did not
    before it was confirmed by a confirm round, from a candidate whose window had passed, on a second
    read of the store made between two looks at the oracle that both show the version the candidate
    was first seen at, that still disagrees, on a key not under suspicion. *)
Theorem confirmation_needs_a_second_read s n paused t k ep :
  reached cfg s → confirmed s !! k = None →
  confirmed (Run_tick cfg w paused t (s, n)).2.1 !! k = Some ep →
  paused = false ∧ ∃ now c, t = ConfirmTick now ∧ c ∈ queue s ∧ FKey (cfinding c) = k
    ∧ seenAt c + cwindow c ≤ now ∧ reread cfg w n c now ep (Run_tick cfg w paused t (s, n)).2.2.
Proof.
  intros Hr Hn. apply reached_ok in Hr; [|done|done].
  assert (∀ s', within s s' → confirmed s' !! k = Some ep → False) as Hno.
  { intros s' Hw Hk. destruct (Hw k ltac:(eauto)) as [ep' Hep']. congruence. }
  unfold Run_tick, TrySweepOnce. destruct paused; [intros Hk; cbn in Hk; congruence|].
  destruct t as [|now|]; rewrite run_bind; cbn; intros Hk.
  - exfalso. apply (Hno _ (sweep_keeps cfg w _ (within_closed s) (s, n) ltac:(by intros ?)) Hk).
  - split; [done|]. destruct (ConfirmDue_grown s now n Hr) as [_ Hg].
    destruct (Hg k ep Hk) as [?|(c & [Hdue Hc]%list_elem_of_filter & Hkey & Hre)]; [congruence|].
    exists now, c. done.
  - exfalso. apply (Hno _ (ScanExtrasOnce_keeps cfg Hqueue Hextras w _ (within_closed s) (s, n) ltac:(by intros ?)) Hk).
Qed.
End confirmation.

(** ** Extras *)

Section extras_scan.
Context `{MapOrder} `{XXHash} (cfg : Config) (w : world).

(** An extra that survived both passes: parked, then present in a later read of the store, and after
    that read still unknown to the oracle. *)
Definition survived (n : nat) (pass : extrasPass) (f : Finding) (n' : nat) : Prop :=
  FKey f ∈ xkeys pass ∧ FCategory f = CatExtraInTarget ∧ FirstSeenAt f = xstartedAt pass
  ∧ ∃ t1 t2 keys reads i read, (n ≤ t1 < t2)%nat ∧ (t2 < n')%nat
    ∧ read_many_at w t1 keys = Some reads ∧ keys !! i = Some (FKey f) ∧ reads !! i = Some read
    ∧ ReadErr read = None ∧ Kind (ReadValue read) ≠ ValueAbsent ∧ TargetValue f = ReadValue read
    ∧ Get (clock_at w t2) (oracle_at w t2) (FKey f) = None.

Definition all_survived (n : nat) (pass : extrasPass) (rep : Report) (n' : nat) : Prop :=
  ∀ f, f ∈ Findings rep → survived n pass f n'.

Lemma all_survived_later n pass rep n1 n2 :
  (n1 ≤ n2)%nat → all_survived n pass rep n1 → all_survived n pass rep n2.
Proof.
  intros Hle Hr f Hf. destruct (Hr f Hf) as (K1 & K2 & K3 & t1 & t2 & keys & reads & i & read & K4 & K5 & K).
  split; [done|]. split; [done|]. split; [done|]. exists t1, t2, keys, reads, i, read.
  split; [done|]. split; [lia|done].
Qed.

(** What the second pass knows of its result. *)
Definition pass_result (n : nat) (pass : extrasPass) (r : Error + Report) (n' : nat) : Prop :=
  match r with inr rep => all_survived n pass rep n' | inl _ => True end.

Lemma second_pass_keys_survived n pass t1 keys reads :
  read_many_at w t1 keys = Some reads → (n ≤ t1)%nat → (∀ k, k ∈ keys → k ∈ xkeys pass) →
  ∀ batch i rep, batch = drop i keys →
  triple (λ s, (t1 < s.2)%nat ∧ all_survived n pass rep s.2)
    (second_pass_keys w rep pass batch (drop i reads))
    (λ r s, (t1 < s.2)%nat ∧ pass_result n pass r s.2).
Proof.
  intros Hreads Hn Hkeys. induction batch as [|key batch IH]; intros i rep Hb; cbn [second_pass_keys].
  { by apply triple_ret. }
  assert (keys !! i = Some key) as Hkey by (rewrite <- head_drop, <- Hb; done).
  assert (batch = drop (S i) keys) as Hb' by (by rewrite <- tail_drop, <- Hb).
  destruct (drop i reads) as [|read rest] eqn:Hd; [apply triple_ret; by intros s [? _]|].
  assert (reads !! i = Some read) as Hread by (by rewrite <- head_drop, Hd).
  assert (rest = drop (S i) reads) as -> by (by rewrite <- tail_drop, Hd).
  assert (∀ r, triple (λ s, (t1 < s.2)%nat ∧ all_survived n pass r s.2)
    (second_pass_keys w r pass batch (drop (S i) reads))
    (λ r s, (t1 < s.2)%nat ∧ pass_result n pass r s.2)) as Hrest by (intros r; by apply IH).
  assert (∀ nm r, triple (λ s, (t1 < s.2)%nat ∧ all_survived n pass r s.2)
    (modify (bump nm);; second_pass_keys w r pass batch (drop (S i) reads))
    (λ r s, (t1 < s.2)%nat ∧ pass_result n pass r s.2)) as Hbump.
  { intros nm r. eapply triple_bind; [|intros u; apply Hrest]. by apply triple_modify. }
  unfold extraSurvives. destruct (ReadErr read) eqn:Herr; [apply (Hbump extrasSelfResolved rep)|].
  destruct (decide (Kind (ReadValue read) = ValueAbsent)) as [|Hkind]; [apply (Hbump extrasSelfResolved rep)|].
  intros [s m] [Hm Hr]. cbn in Hm, Hr. unfold oracleKnows, oracle_Get.
  rewrite run_bind, run_bind, run_bind. cbn [fst snd access].
  assert (all_survived n pass rep (S m)) as Hr' by (apply (all_survived_later _ _ _ m); [lia|done]).
  destruct (Get (clock_at w m) (oracle_at w m) key) as [e|] eqn:Hg; cbn [mret M_ret fst snd negb];
    apply Hbump; (split; [cbn; lia|]); [done|].
  intros f [Hf| ->]%Add_findings; [by apply Hr'|].
  split; [apply Hkeys, list_elem_of_lookup; eauto|]. split; [done|]. split; [done|].
  exists t1, m, keys, reads, i, read. cbn. split_and!; try done; lia.
Qed.

Lemma second_pass_batches_survived n pass fuel : ∀ rep keys,
  (∀ k, k ∈ keys → k ∈ xkeys pass) →
  triple (λ s, (n ≤ s.2)%nat ∧ all_survived n pass rep s.2)
    (second_pass_batches cfg w fuel rep pass keys)
    (λ r s, (n ≤ s.2)%nat ∧ pass_result n pass r s.2).
Proof.
  induction fuel as [|fuel IH]; intros rep [|key keys] Hkeys; cbn [second_pass_batches];
    try by apply triple_ret.
  intros [s m] [Hm Hr]. cbn in Hm, Hr. unfold ctx_Err. rewrite run_access.
  destruct (canceled_at w m); [split; cbn; [lia|done]|]. cbv zeta. rewrite run_access.
  set (batch := take _ _). destruct (read_many_at w (S m) batch) as [reads|] eqn:Hreads;
    [|split; cbn; [lia|done]].
  rewrite run_bind.
  pose proof (second_pass_keys_survived n pass (S m) batch reads Hreads ltac:(lia)) as Hsp.
  specialize (Hsp ltac:(intros k Hk; by eapply Hkeys, subseteq_take)).
  specialize (Hsp batch 0%nat rep eq_refl (s, S (S m))). rewrite drop_0 in Hsp. cbn [snd] in Hsp.
  specialize (Hsp (conj (Nat.lt_succ_diag_r _) (all_survived_later n pass rep m (S (S m)) (le_S _ _ (Nat.le_succ_diag_r m)) Hr))).
  destruct (second_pass_keys _ _ _ _ _ _) as [[err|rep'] [s2 m2]]; cbn in Hsp; destruct Hsp as [Hm2 Hr2];
    [split; [cbn; lia|done]|].
  cbn [fst snd]. apply IH.
  - intros k Hk. by eapply Hkeys, subseteq_drop.
  - cbn. split; [lia|done].
Qed.

(** What the first pass knows of a parked key: a scan returned it and the oracle did not know it. *)
Definition seen_unknown (n : nat) (k : string) (n' : nat) : Prop :=
  ∃ t t' ks, (n ≤ t < t')%nat ∧ (t' < n')%nat ∧ ks ∈ (scan_at w t).1 ∧ k ∈ ks
    ∧ Get (clock_at w t') (oracle_at w t') k = None.

Definition parked (n : nat) (pass : extrasPass) (n' : nat) : Prop :=
  ∀ k, k ∈ xkeys pass → seen_unknown n k n'.

Lemma parked_later n pass n1 n2 : (n1 ≤ n2)%nat → parked n pass n1 → parked n pass n2.
Proof.
  intros Hle Hp k Hk. destruct (Hp k Hk) as (t & t' & ks & K1 & K2 & K). exists t, t', ks.
  split; [done|]. split; [lia|done].
Qed.

Lemma first_pass_keys_parked n ts ks keys :
  (n ≤ ts)%nat → ks ∈ (scan_at w ts).1 → (∀ k, k ∈ keys → k ∈ ks) →
  ∀ pass, triple (λ s, (ts < s.2)%nat ∧ parked n pass s.2) (first_pass_keys cfg w pass keys)
    (λ r s, (ts < s.2)%nat ∧ match r with inl p | inr p => parked n p s.2 end).
Proof.
  intros Hn Hks. induction keys as [|key keys IH]; intros Hin pass; cbn [first_pass_keys];
    [by apply triple_ret|].
  assert (∀ k, k ∈ keys → k ∈ ks) as Hin' by (intros k Hk; apply Hin; by right).
  intros [s m] [Hm Hp]. cbn in Hm, Hp. unfold oracleKnows, oracle_Get. rewrite run_bind, run_bind.
  cbn [fst snd access]. apply (parked_later _ _ m (S m)) in Hp; [|lia].
  destruct (Get (clock_at w m) (oracle_at w m) key) as [e|] eqn:Hg; cbn [mret M_ret fst snd].
  { apply IH; [done|]. cbn. split; [lia|done]. }
  destruct (_ >=? _).
  { rewrite run_modify. split; cbn; [lia|done]. }
  apply IH; [done|]. split; cbn; [lia|]. intros k [->%elem_of_singleton|Hk]%elem_of_union; [|by apply Hp].
  exists ts, m, ks. split_and!; try done; [lia|]. apply Hin. by left.
Qed.

Lemma first_pass_batches_parked n ts batches failed :
  (n ≤ ts)%nat → (∀ ks, ks ∈ batches → ks ∈ (scan_at w ts).1) →
  ∀ pass, triple (λ s, (ts < s.2)%nat ∧ parked n pass s.2)
    (first_pass_batches cfg w pass batches failed)
    (λ r s, (ts < s.2)%nat ∧ match r with inr p => parked n p s.2 | inl _ => True end).
Proof.
  intros Hn. induction batches as [|ks batches IH]; intros Hin pass; cbn [first_pass_batches].
  { destruct failed; apply triple_ret; by intros s [? ?]. }
  intros [s m] [Hm Hp]. cbn in Hm, Hp. unfold ctx_Err. rewrite run_access.
  destruct (canceled_at w m); [split; cbn; [lia|done]|]. rewrite run_bind.
  pose proof (first_pass_keys_parked n ts ks ks Hn (Hin ks ltac:(by left)) ltac:(done) pass (s, S m)) as Hk.
  cbn in Hk. specialize (Hk (conj (le_S _ _ Hm) (parked_later n pass m (S m) (Nat.le_succ_diag_r m) Hp))).
  destruct (first_pass_keys cfg w pass ks (s, S m)) as [[p|p] [s1 m1]]; cbn in Hk; [done|].
  cbn [fst snd]. apply IH; [|done]. intros ks' Hks'. apply Hin. by right.
Qed.

Lemma secondPass_survived n pass rep :
  triple (λ s, (n ≤ s.2)%nat ∧ all_survived n pass rep s.2) (secondPass cfg w rep pass)
    (λ r s, (n ≤ s.2)%nat ∧ pass_result n pass r s.2).
Proof.
  unfold secondPass. cbv zeta. eapply triple_bind.
  - apply (second_pass_batches_survived n). intros k. by rewrite elem_of_range_set.
  - intros [err|rep']; apply triple_ret; by intros s1 [? ?].
Qed.

Lemma checkHealth_extras s0 : keeps (λ s, extras s = extras s0) (checkHealth cfg w).
Proof. unfold checkHealth, target_Health, ctx_Err. keeps; by apply keeps_modify. Qed.

Lemma firstPass_parked n win now :
  triple (λ s, s.2 = n) (firstPass cfg w win now)
    (λ r s, (n < s.2)%nat ∧ match r with inr p => parked n p s.2 | inl _ => True end).
Proof.
  intros [s m] [= ->]. unfold firstPass. rewrite run_access.
  apply (first_pass_batches_parked n n); [lia|done|]. cbn. split; [lia|]. intros k Hk. by apply elem_of_empty in Hk.
Qed.

(** C31: an extra is reported only on two scans: it was parked by an earlier scan at least its window
    ago, a later read of the store found it present and readable, and after that read the oracle
    still knew nothing of it, not even a tombstone; and what a scan parks for the next one are keys
    it was given by the store and the oracle did not know. *)
Theorem extras_need_two_scans s n rep s' n' :
  ScanExtrasOnce cfg w (s, n) = (inr rep, (s', n')) →
  (∀ f, f ∈ Findings rep → ∃ pass tnow m, extras s = Some pass ∧ (n ≤ tnow < m)%nat
     ∧ xstartedAt pass + xwindow pass ≤ clock_at w tnow ∧ survived m pass f n')
  ∧ ∃ pass', extras s' = Some pass' ∧ parked n pass' n'.
Proof.
  unfold ScanExtrasOnce, isClosed. rewrite run_get. destruct (closed s); [done|].
  rewrite run_bind. pose proof (checkHealth_mono cfg w (s, n)) as Hm.
  pose proof (checkHealth_extras s (s, n) eq_refl) as Hx.
  destruct (checkHealth cfg w (s, n)) as [[err|h] [s1 n1]]; [done|]. cbn in Hm, Hx. cbn [fst snd].
  unfold Now_, SettlementWindow_. rewrite !run_access. cbv zeta. rewrite run_bind.
  set (rep0 := begin_report _ _ _ _ _).
  assert (∀ pass, all_survived (S (S n1)) pass rep0 (S (S n1))) as Hr0 by (intros pass f Hf; by apply elem_of_nil in Hf).
  set (R := λ (r : Error + Report) (st : Sweeper * nat), (S (S n1) ≤ st.2)%nat ∧ match r with
    | inl _ => True
    | inr rep => ∀ f, f ∈ Findings rep → ∃ pass, extras s = Some pass
        ∧ xstartedAt pass + xwindow pass ≤ clock_at w n1 ∧ survived (S (S n1)) pass f st.2 end).
  unfold update. destruct (takePendingExtras (clock_at w n1) s1) as [s2 pending] eqn:Htake. cbn [fst snd].
  rewrite run_bind. set (second := match pending with
    | Some pass => secondPass cfg w rep0 pass | None => mret (M := M) (inr rep0) end).
  set (run := second (s2, S (S n1))).
  assert (R run.1 run.2) as HR.
  { unfold run, second, R. destruct pending as [pass|]; [|split; cbn; [lia|]; intros f Hf; by apply elem_of_nil in Hf].
    destruct (secondPass_survived (S (S n1)) pass rep0 (s2, S (S n1))) as [Hle Hres]; [split; [done|apply Hr0]|].
    split; [done|]. destruct (secondPass _ _ _ _ _).1; [done|]. intros f Hf. exists pass.
    unfold takePendingExtras in Htake. rewrite Hx in Htake. destruct (extras s) as [p|]; [|done].
    unfold After in Htake. destruct (Z.ltb_spec (clock_at w n1) (extras_dueAt p)) as [|Hdue]; [done|].
    injection Htake as <- ->. split_and!; [done|exact Hdue|by apply Hres]. }
  clearbody run. destruct run as [[err|rep1] [s3 n3]]; [done|]. destruct HR as [Hn3 HR]. cbn [fst snd] in *.
  rewrite run_bind. pose proof (firstPass_parked n3 (window_at w (S n1)) (clock_at w n1) (s3, n3) eq_refl) as Hfp.
  destruct (firstPass _ _ _ _ _) as [[err|pass'] [s4 n4]]; [done|]. cbn [fst snd] in *.
  destruct Hfp as [Hn4 Hfp]. rewrite run_modify, run_access, run_modify. intros [= <- <- <-]. split.
  - intros f Hf. destruct (HR f Hf) as (pass & He & Hd & Hs). exists pass, n1, (S (S n1)).
    split_and!; [done|lia|lia|done|].
    destruct Hs as (K1 & K2 & K3 & t1 & t2 & keys & reads & i & read & K4 & K5 & K).
    split; [done|]. split; [done|]. split; [done|]. exists t1, t2, keys, reads, i, read.
    split; [done|]. split; [lia|done].
  - exists pass'. split; [done|]. intros k Hk.
    destruct (Hfp k Hk) as (t & t' & ks & K1 & K2 & K). exists t, t', ks.
    split; [lia|]. split; [lia|done].
Qed.
End extras_scan.
