(* ===== verification/SweepRuns.v ===== *)
(** * SweepRuns: the sweeper on concrete worlds

    A store that lost every key, swept, confirmed and scanned; the two places
    where the code falls short of what its comments promise, shown by runs; and
    the witnesses of the theorems about the sweeper. *)
From S2P Require Import Prelude GoBase GoStrings Event Projection SeqTrack Ring Shard PathMatch.
From S2P Require Import Oracle Target Differ Sweeper SweepSafety SweepFence SweepClaims.

#[local] Existing Instance constant_hash.
#[local] Existing Instance ascending_order.

Definition run_config (maxFindings : Z) : Sweeper.Config :=
  Sweeper.mkConfig ShapeScalar (mkOptions 0 ExpiryStrict 0 10 maxFindings 0) (30 * time_Second)
    (5 * time_Minute) time_Second "*" 500 10 10 false.

Definition up : Health := mkHealth true 0 0 0 0 0 "master" 0 "7.2".

(** A world that stands still: the oracle, the time, and a store that holds [stored] under every key
    and returns [scanned] from its scan. *)
Definition still (o : Oracle) (now : Time) (health : option Health) (stored : Value)
    (scanned : list string) : world :=
  mkWorld (λ _, o) (λ _, now) (λ _, time_Second) (λ _, false) (λ _, health)
    (λ _ keys, Some ((λ _, mkRead stored None) <$> keys)) (λ _ _, mkRead stored None)
    (λ _, ([scanned], false)).

Definition lost (o : Oracle) (now : Time) : world := still o now (Some up) absent [].

(** [sample_oracle] expects "k" and "j"; the store has neither. *)
Definition swept : Sweeper :=
  (Run_tick (run_config 100) (lost sample_oracle (5 * time_Second)) false SweepTick
     (Sweeper.New, 0%nat)).2.1.
Definition confirmed_run : Sweeper :=
  (Run_tick (run_config 100) (lost sample_oracle (6 * time_Second)) false
     (ConfirmTick (6 * time_Second)) (swept, 0%nat)).2.1.

Lemma swept_reached : reached (run_config 100) swept.
Proof. apply reached_tick, reached_new. Qed.
Lemma confirmed_run_reached : reached (run_config 100) confirmed_run.
Proof. apply reached_tick, swept_reached. Qed.

Example swept_queues_both : qkeys (queue swept) ≡ₚ ["k"; "j"].
Proof. vm_compute. constructor. Qed.
Example swept_confirms_none : size (confirmed swept) = 0%nat.
Proof. by vm_compute. Qed.
Example confirmed_run_confirms_both : size (confirmed confirmed_run) = 2%nat.
Proof. by vm_compute. Qed.

(** ** A stale episode is refreshed instead of withdrawn *)

(** The same keys after "k" got a new value: its version is now 2. *)
Definition moved_oracle : Oracle := run sample_oracle [write 7 "k" "v2"].

(** What is on record for a key: the version its finding names, and when it was confirmed. *)
Definition record_of (s : Sweeper) (k : string) : option (Z * Time) :=
  (λ ep, (OracleVersion (EpFinding ep), ConfirmedAt ep)) <$> confirmed s !! k.

(** a sweep that meets an episode from an older version takes the new disagreement over as
    confirmed, on one read and with the old confirmation's time, when nothing read the episodes in
    between; after such a read the same sweep confirms nothing and queues the key instead. *)
Theorem stale_episode_is_refreshed_unread :
  let w := lost moved_oracle (20 * time_Second) in
  let direct := (Run_tick (run_config 100) w false SweepTick (confirmed_run, 0%nat)).2.1 in
  let read_first := (liveEpisodes w (confirmed_run, 0%nat)).2.1 in
  let after_read := (Run_tick (run_config 100) w false SweepTick (read_first, 0%nat)).2.1 in
  record_of confirmed_run "k" = Some (1, 6 * time_Second)
  ∧ record_of direct "k" = Some (2, 6 * time_Second)
  ∧ record_of after_read "k" = None ∧ "k" ∈ qkeys (queue after_read).
Proof.
  cbv zeta. split_and!; try (vm_compute; reflexivity).
  apply (bool_decide_unpack _). by vm_compute.
Qed.

(** ** A truncated extras report does not say so *)

Definition extra_world (now : Time) : world :=
  still sample_oracle now (Some up) (scalar_value "left over") ["x"; "y"].
Definition scan_at_second (n : Z) (s : Sweeper) : (Error + Report) * Sweeper :=
  let '(r, (s, _)) := ScanExtrasOnce (run_config 1) (extra_world (n * time_Second)) (s, 0%nat) in (r, s).

(** the extras scan overwrites the mark a full report carries: with room for one finding and two
    extras that survive, the report counts two, lists one and says it is not truncated. *)
Theorem extras_report_hides_truncation :
  match (scan_at_second 7 (scan_at_second 5 Sweeper.New).2).1 with
  | inr rep => length (Findings rep) = 1%nat ∧ Total rep = 2
               ∧ RTruncated rep = false
  | inl _ => False
  end.
Proof. by vm_compute. Qed.

(** ** Witnesses *)

Lemma confirmed_a_window_apart_witness :
  ∃ ep, confirmed confirmed_run !! "k" = Some ep ∧ EpFirstSeenAt ep + EpWindow ep ≤ ConfirmedAt ep.
Proof.
  destruct (confirmed confirmed_run !! "k") as [ep|] eqn:Hep; [|vm_compute in Hep; discriminate].
  exists ep. split; [done|].
  exact (proj1 (confirmed_a_window_apart (run_config 100) ltac:(done) ltac:(done) confirmed_run "k" ep
    confirmed_run_reached Hep)).
Defined.

Lemma suspects_are_never_confirmed_witness :
  Forall (λ c, FTrust (cfinding c) ≠ TrustSuspect) (queue swept).
Proof.
  apply Forall_forall. exact (proj1 (proj2 (suspects_are_never_confirmed (run_config 100) ltac:(done) ltac:(done) swept
    swept_reached))).
Defined.

Lemma sweeper_memory_bounded_witness :
  PendingConfirmations swept = 2 ∧ PendingConfirmations swept ≤ 10.
Proof.
  split; [by vm_compute|].
  exact (proj1 (sweeper_memory_bounded (run_config 100) ltac:(done) ltac:(done) swept swept_reached)).
Defined.


Lemma unreachable_store_asserts_nothing_witness :
  let w := still sample_oracle (6 * time_Second) None absent [] in
  confirmed (ConfirmDue (run_config 100) w (6 * time_Second) (swept, 0%nat)).2.1 = confirmed swept.
Proof.
  intros w.
  destruct (unreachable_store_asserts_nothing (run_config 100) w swept 0 (6 * time_Second)
    (λ n, Logic.I) swept_reached ltac:(done) ltac:(done)) as (_ & _ & _ & _ & _ & Hc).
  exact (sc_confirmed _ _ Hc).
Defined.

Lemma confirmation_needs_a_second_read_witness :
  ∃ c, c ∈ queue swept ∧ FKey (cfinding c) = "k" ∧ seenAt c + cwindow c ≤ 6 * time_Second.
Proof.
  destruct (confirmed confirmed_run !! "k") as [ep|] eqn:Hep; [|vm_compute in Hep; discriminate].
  destruct (confirmation_needs_a_second_read (run_config 100) (lost sample_oracle (6 * time_Second))
    ltac:(done) ltac:(done) swept 0 false (ConfirmTick (6 * time_Second)) "k" ep swept_reached
    ltac:(by vm_compute) Hep) as (_ & now & c & Hnow & Hc & Hk & Hdue & _).
  injection Hnow as <-. exists c. exact (conj Hc (conj Hk Hdue)).
Defined.

Lemma extras_need_two_scans_witness :
  match ScanExtrasOnce (run_config 100) (extra_world (5 * time_Second)) (Sweeper.New, 0%nat) with
  | (inr rep, (s', n')) => ∃ pass, extras s' = Some pass
      ∧ parked (extra_world (5 * time_Second)) 0 pass n'
  | _ => False
  end.
Proof.
  pose proof (extras_need_two_scans (run_config 100) (extra_world (5 * time_Second)) Sweeper.New 0) as Hx.
  destruct (ScanExtrasOnce _ _ _) as [[err|rep] [s' n']] eqn:Hs.
  - apply (f_equal (λ r, match r.1 with inl _ => true | inr _ => false end)) in Hs.
    vm_compute in Hs. discriminate.
  - apply (Hx rep s' n' eq_refl).
Defined.
