(* ===== verification/Reorder.v ===== *)
(** * Reorder: the bounded reorder buffer (pkg/check/reorder.go)

    Events of a publisher that arrive ahead of their predecessor wait until it
    arrives, the window has passed or the buffer is full. The methods run under
    the buffer's mutex, so each is one function on its state; what a publisher's
    entry points to is only reached through the buffer, so it is a value of the
    map. *)
From S2P Require Import Prelude GoBase Event.

(** ** State *)

Record publisherOrder := mkOrder {
  epoch : Z;
  next : Z;
  held : gmap Z Event.t;
  oldestAt : Time;
  started : bool
}.

Record reorderBuffer := mkReorder {
  rwindow : Duration;
  maxHeld : Z;
  pubs : gmap string publisherOrder
}.

Definition defaultMaxHeldPerPublisher : Z := 1024.

Definition newReorderBuffer (window : Duration) (maxHeld : Z) : reorderBuffer :=
  mkReorder window (if maxHeld <=? 0 then defaultMaxHeldPerPublisher else maxHeld) ∅.

Definition enabled (r : reorderBuffer) : bool := 0 <? rwindow r.

Definition fresh_order : publisherOrder := mkOrder 0 0 ∅ zero_time false.

Definition set_pub (r : reorderBuffer) (p : string) (pb : publisherOrder) : reorderBuffer :=
  mkReorder (rwindow r) (maxHeld r) (<[p := pb]> (pubs r)).

(** ** Releasing *)

Section reorder.
Context `{MapOrder}.

(** The keys of the held events, as [drain] collects and sorts them. *)
Definition sorted_seqs (m : gmap Z Event.t) : list Z := merge_sort (≤) (range_map m).*1.

Definition drain (pb : publisherOrder) : publisherOrder * list Event.t :=
  if (size (held pb) =? 0)%nat then (pb, [])
  else
    let seqs := sorted_seqs (held pb) in
    let last := List.last seqs 0 in
    (mkOrder (epoch pb) (if last >=? next pb then u64 (last + 1) else next pb) ∅ (oldestAt pb)
       (started pb),
     omap (λ seq, held pb !! seq) seqs).

(** The loop of releaseConsecutive: every round takes one held event out, so their number is fuel
    enough. *)
Fixpoint release_loop (fuel : nat) (m : gmap Z Event.t) (nxt : Z) (out : list Event.t)
    : gmap Z Event.t * Z * list Event.t :=
  match fuel with
  | O => (m, nxt, out)
  | S fuel =>
      match m !! nxt with
      | None => (m, nxt, out)
      | Some e => release_loop fuel (delete nxt m) (u64 (nxt + 1)) (out ++ [e])
      end
  end.

Definition releaseConsecutive (pb : publisherOrder) (out : list Event.t)
    : publisherOrder * list Event.t :=
  let '(m, nxt, out) := release_loop (size (held pb)) (held pb) (next pb) out in
  (mkOrder (epoch pb) nxt m (oldestAt pb) (started pb), out).

Definition hold (r : reorderBuffer) (pb : publisherOrder) (e : Event.t) (now : Time)
    : publisherOrder * list Event.t :=
  let pb :=
    match held pb !! Seq e with
    | Some _ => pb
    | None => mkOrder (epoch pb) (next pb) (<[Seq e := e]> (held pb))
                (if (size (held pb) =? 0)%nat then now else oldestAt pb) (started pb)
    end in
  if Z.of_nat (size (held pb)) <? maxHeld r then (pb, []) else drain pb.

(** ** The operations *)

(** The switch of [offer] on the publisher's entry. *)
Definition offer_pub (r : reorderBuffer) (pb : publisherOrder) (e : Event.t) (now : Time)
    : publisherOrder * list Event.t :=
  if negb (started pb) then
    (mkOrder (Epoch e) (u64 (Seq e + 1)) (held pb) (oldestAt pb) true, [e])
  else if negb (Epoch e =? epoch pb) then
    let '(pb, out) := drain pb in
    (mkOrder (Epoch e) (u64 (Seq e + 1)) (held pb) (oldestAt pb) (started pb), out ++ [e])
  else if Seq e <? next pb then (pb, [e])
  else if Seq e =? next pb then
    releaseConsecutive
      (mkOrder (epoch pb) (u64 (next pb + 1)) (held pb) (oldestAt pb) (started pb)) [e]
  else hold r pb e now.

Definition offer (r : reorderBuffer) (e : Event.t) (now : Time) : reorderBuffer * list Event.t :=
  if negb (enabled r) then (r, [e])
  else
    let '(pb, out) := offer_pub r (default fresh_order (pubs r !! Publisher e)) e now in
    (set_pub r (Publisher e) pb, out).

(** What [expire] does for one publisher. *)
Definition expire_one (now : Time) (acc : reorderBuffer * list Event.t)
    (kv : string * publisherOrder) : reorderBuffer * list Event.t :=
  let '(r, out) := acc in
  let '(p, pb) := kv in
  if (size (held pb) =? 0)%nat || (time_Sub now (oldestAt pb) <? rwindow r) then (r, out)
  else let '(pb, released) := drain pb in (set_pub r p pb, out ++ released).

Definition expire (r : reorderBuffer) (now : Time) : reorderBuffer * list Event.t :=
  if negb (enabled r) then (r, [])
  else foldl (expire_one now) (r, []) (range_map (pubs r)).

Definition heldCount (r : reorderBuffer) : Z :=
  if negb (enabled r) then 0
  else foldl (λ n kv, n + Z.of_nat (size (held kv.2))) 0 (range_map (pubs r)).
End reorder.

(** ** The invariant *)

Abbreviation vals m := ((map_to_list m).*2).

(** What one publisher's entry keeps: the held events are its own, of the current epoch, filed under
    their sequence number, all ahead of the next one expected, and fewer than the limit. *)
Record order_ok (limit : Z) (p : string) (pb : publisherOrder) : Prop := mk_order_ok {
  oo_own : ∀ s e, held pb !! s = Some e → Seq e = s ∧ Publisher e = p ∧ Epoch e = epoch pb;
  oo_ahead : ∀ s, is_Some (held pb !! s) → next pb < s ≤ max_u64;
  oo_next : is_u64 (next pb);
  oo_started : started pb = false → held pb = ∅;
  oo_limit : Z.of_nat (size (held pb)) < limit
}.

Definition reorder_ok (r : reorderBuffer) : Prop :=
  0 < maxHeld r ∧ ∀ p pb, pubs r !! p = Some pb → order_ok (maxHeld r) p pb.

Lemma newReorderBuffer_ok window limit : reorder_ok (newReorderBuffer window limit).
Proof.
  split; [|intros p pb Hp; cbn [pubs newReorderBuffer] in Hp; by rewrite lookup_empty in Hp]. cbn.
  unfold defaultMaxHeldPerPublisher. case_bool.
Qed.

Lemma fresh_order_ok limit p : 0 < limit → order_ok limit p fresh_order.
Proof.
  intros Hl. constructor; cbn [held next started epoch fresh_order]; try done.
  intros s [e He]. by rewrite lookup_empty in He.
Qed.

Section laws.
Context `{MapOrder}.

Lemma elem_of_vals (m : gmap Z Event.t) e : e ∈ vals m ↔ ∃ s, m !! s = Some e.
Proof.
  rewrite list_elem_of_fmap. split.
  - intros ([s e'] & -> & Hs%elem_of_map_to_list). eauto.
  - intros [s Hs]. exists (s, e). by rewrite elem_of_map_to_list.
Qed.

Lemma sorted_seqs_perm (m : gmap Z Event.t) : sorted_seqs m ≡ₚ (map_to_list m).*1.
Proof. unfold sorted_seqs, range_map. by rewrite merge_sort_Permutation, range_order_perm. Qed.

Lemma elem_of_sorted_seqs m s : s ∈ sorted_seqs m ↔ is_Some (m !! s).
Proof.
  rewrite sorted_seqs_perm, list_elem_of_fmap. split.
  - intros ([k e] & -> & Hk%elem_of_map_to_list). eauto.
  - intros [e He]. exists (s, e). by rewrite elem_of_map_to_list.
Qed.

Lemma omap_keys (m : gmap Z Event.t) l :
  (∀ kv, kv ∈ l → m !! kv.1 = Some kv.2) → omap (λ s, m !! s) l.*1 = l.*2.
Proof.
  induction l as [|[k e] l IH]; intros Hl; [done|]. cbn.
  pose proof (Hl (k, e) ltac:(by left)) as Hk. cbn in Hk. rewrite Hk. cbn. f_equal. apply IH. intros kv Hkv. apply Hl. by right.
Qed.

Lemma drained_perm m : omap (λ s, m !! s) (sorted_seqs m) ≡ₚ vals m.
Proof.
  rewrite sorted_seqs_perm, omap_keys; [done|]. intros [k e] Hkv. by apply elem_of_map_to_list in Hkv.
Qed.

Lemma sorted_seqs_sorted m : StronglySorted (<) (sorted_seqs m).
Proof.
  assert (NoDup (sorted_seqs m)) as Hnd by (rewrite sorted_seqs_perm; apply NoDup_fst_map_to_list).
  assert (StronglySorted (≤) (sorted_seqs m)) as Hs by (apply StronglySorted_merge_sort; red; lia).
  induction Hs as [|s l Hs IH Hall]; constructor.
  - apply IH. by apply NoDup_cons in Hnd as [_ ?].
  - apply NoDup_cons in Hnd as [Hn _]. rewrite Forall_forall in Hall |- *. intros x Hx.
    specialize (Hall x Hx). assert (x ≠ s) by (by intros ->). lia.
Qed.

(** The events come out in the order of their sequence numbers. *)
Lemma drained_seqs (m : gmap Z Event.t) (l : list Z) :
  (∀ s e, m !! s = Some e → Seq e = s) → (∀ s, s ∈ l → is_Some (m !! s)) →
  Seq <$> omap (λ s, m !! s) l = l.
Proof.
  intros Hseq. induction l as [|s l IH]; intros Hl; [done|]. cbn.
  destruct (Hl s ltac:(by left)) as [e He]. rewrite He. cbn. rewrite (Hseq s e He). f_equal.
  apply IH. intros s' Hs'. apply Hl. by right.
Qed.

Lemma drain_spec limit p pb :
  order_ok limit p pb → 0 < limit →
  order_ok limit p (drain pb).1 ∧ (drain pb).2 ≡ₚ vals (held pb)
  ∧ StronglySorted (<) (Seq <$> (drain pb).2)
  ∧ held (drain pb).1 = ∅ ∧ started (drain pb).1 = started pb.
Proof.
  intros [K1 K2 K3 K4 K5] Hl. unfold drain.
  destruct (Nat.eqb_spec (size (held pb)) 0) as [Hz|Hz]; cbn [fst snd].
  - apply map_size_empty_inv in Hz. rewrite Hz, map_to_list_empty.
    split_and!; [by constructor|done|constructor|done|done].
  - split_and!; try done.
    + constructor; cbn [held next started epoch]; try done.
      * intros s [e He]. by rewrite lookup_empty in He.
      * destruct (_ >=? _); [|done]. apply u64_range.
    + apply drained_perm.
    + rewrite drained_seqs; [apply sorted_seqs_sorted| |].
      * intros s e He. by apply K1.
      * intros s. by rewrite elem_of_sorted_seqs.
Qed.

Lemma release_loop_spec fuel : ∀ m nxt out,
  (size m ≤ fuel)%nat → is_u64 nxt → (∀ s, is_Some (m !! s) → nxt ≤ s ≤ max_u64) →
  (∀ s e, m !! s = Some e → Seq e = s) →
  let '(m', nxt', out') := release_loop fuel m nxt out in
  ∃ rel, out' = out ++ rel ∧ rel ++ vals m' ≡ₚ vals m
    ∧ Seq <$> rel = seqZ nxt (Z.of_nat (length rel))
    ∧ nxt' = u64 (nxt + Z.of_nat (length rel)) ∧ (m' ≠ ∅ → nxt + Z.of_nat (length rel) ≤ max_u64)
    ∧ m' ⊆ m ∧ (size m' ≤ size m)%nat ∧ (∀ s, is_Some (m' !! s) → nxt' < s).
Proof.
  induction fuel as [|fuel IH]; intros m nxt out Hsz Hnxt Hge Hseq; cbn [release_loop].
  { assert (m = ∅) as -> by (apply map_size_empty_inv; lia).
    exists []. rewrite app_nil_r, Z.add_0_r, u64_small by done. split_and!; try done.
    intros s [e He]. by rewrite lookup_empty in He. }
  destruct (m !! nxt) as [e|] eqn:He.
  2: { exists []. rewrite app_nil_r, Z.add_0_r, u64_small by done. split_and!; try done.
       - intros _. unfold is_u64 in Hnxt. lia.
       - intros s Hs. destruct (Hge s Hs). assert (s ≠ nxt); [intros ->|lia].
         rewrite He in Hs. by destruct Hs. }
  destruct (Hge nxt ltac:(eauto)) as [_ Hmax].
  assert (∀ s, is_Some (delete nxt m !! s) → nxt + 1 ≤ s ≤ max_u64) as Hge'.
  { intros s [e' [Hne Hs]%lookup_delete_Some]. destruct (Hge s ltac:(eauto)). lia. }
  specialize (IH (delete nxt m) (u64 (nxt + 1)) (out ++ [e])).
  destruct (release_loop fuel _ _ _) as [[m' nxt'] out'] eqn:Hrun.
  destruct IH as (rel & -> & Hp & Hs & Hn & Hm & Hsub & Hsz' & Hgt).
  - rewrite map_size_delete, He. destruct (size m); cbn; lia.
  - apply u64_range.
  - intros s Hs. destruct (Hge' s Hs). rewrite u64_small; [lia|]. unfold is_u64 in *. lia.
  - intros s e' [_ Hs]%lookup_delete_Some. by apply Hseq.
  - exists (e :: rel). cbn [length app fmap list_fmap].
    assert (Seq e = nxt) as He2 by (by apply Hseq).
    assert (delete nxt m = ∅ → rel = [] ∧ m' = ∅) as Hend.
    { intros Hd. rewrite Hd, map_to_list_empty in Hp. apply Permutation_nil_r in Hp.
      apply app_nil in Hp as [-> Hp]. split; [done|]. apply map_to_list_empty_iff.
      by apply fmap_nil_inv in Hp. }
    assert (nxt < max_u64 ∨ nxt = max_u64 ∧ rel = [] ∧ m' = ∅) as [Hlt|(-> & -> & ->)].
    { destruct (decide (nxt = max_u64)) as [->|]; [right; split; [done|]|left; lia].
      apply Hend. apply map_empty. intros s. apply eq_None_not_Some. intros Hs'.
      destruct (Hge' s Hs'). lia. }
    + assert (is_u64 (nxt + 1)) as Hn1 by (unfold is_u64 in *; lia). 
      rewrite (u64_small (nxt + 1) Hn1) in Hs, Hn, Hm.
      split_and!; try done.
      * by rewrite <- app_assoc.
      * rewrite Hp. by rewrite <- (map_to_list_delete m nxt e He).
      * rewrite He2, Hs. rewrite Nat2Z.inj_succ. rewrite (seqZ_cons nxt (Z.succ _)), Z.pred_succ by lia. done.
      * rewrite Hn. f_equal. lia.
      * intros Hne. specialize (Hm Hne). lia.
      * transitivity (delete nxt m); [done|apply delete_subseteq].
      * rewrite map_size_delete, He in Hsz'. lia.
    + rewrite map_to_list_empty in Hp |- *. split_and!; try done.
      * by rewrite app_nil_r.
      * rewrite <- (map_to_list_delete m max_u64 e He). cbn. by rewrite <- Hp.
      * by rewrite He2.
      * apply map_empty_subseteq.
      * rewrite map_size_empty. lia.
Qed.

Lemma vals_empty (m : gmap Z Event.t) : vals m = [] → m = ∅.
Proof. intros Hv%fmap_nil_inv. by apply map_to_list_empty_iff. Qed.

Lemma order_ok_change limit p pb pb' :
  order_ok limit p pb → held pb' ⊆ held pb → epoch pb' = epoch pb → started pb' = true →
  is_u64 (next pb') → (∀ s, is_Some (held pb' !! s) → next pb' < s) →
  (size (held pb') ≤ size (held pb))%nat → order_ok limit p pb'.
Proof.
  intros [K1 K2 K3 K4 K5] Hsub Hep Hst Hn Hah Hsz. constructor.
  - intros s e He. rewrite Hep. by apply K1, (lookup_weaken _ _ _ _ He).
  - intros s Hs. split; [by apply Hah|]. destruct Hs as [e He].
    apply K2. exists e. by apply (lookup_weaken _ _ _ _ He).
  - done.
  - by rewrite Hst.
  - lia.
Qed.

Lemma ahead_of_next limit p pb s :
  order_ok limit p pb → is_Some (held pb !! s) → u64 (next pb + 1) ≤ s ≤ max_u64.
Proof.
  intros Hok Hs. pose proof (oo_ahead _ _ _ Hok s Hs). pose proof (oo_next _ _ _ Hok).
  rewrite u64_small; unfold is_u64 in *; lia.
Qed.

(** Releasing in sequence keeps the invariant and hands out a run of consecutive events. *)
Lemma releaseConsecutive_spec limit p pb out :
  order_ok limit p pb → started pb = true →
  let pb1 := mkOrder (epoch pb) (u64 (next pb + 1)) (held pb) (oldestAt pb) true in
  let '(pb', out') := releaseConsecutive pb1 out in
  ∃ rel, out' = out ++ rel ∧ rel ++ vals (held pb') ≡ₚ vals (held pb) ∧ order_ok limit p pb'
    ∧ started pb' = true ∧ epoch pb' = epoch pb ∧ oldestAt pb' = oldestAt pb
    ∧ (next pb < max_u64 → Seq <$> rel = seqZ (next pb + 1) (Z.of_nat (length rel))
       ∧ next pb' = u64 (next pb + 1 + Z.of_nat (length rel)))
    ∧ (∀ s, is_Some (held pb' !! s) → is_Some (held pb !! s)).
Proof.
  intros Hok Hst. cbv zeta. unfold releaseConsecutive. cbn [held next epoch oldestAt started].
  pose proof (release_loop_spec (size (held pb)) (held pb) (u64 (next pb + 1)) out (le_n _)
    (u64_range _) (λ s, ahead_of_next _ _ pb s Hok) (λ s e He, proj1 (oo_own _ _ _ Hok s e He))) as Hs.
  destruct (release_loop _ _ _ _) as [[m nxt] out'].
  destruct Hs as (rel & -> & Hp & Hseq & Hn & Hmax & Hsub & Hsz & Hgt).
  exists rel. split_and!; try done.
  - apply (order_ok_change limit p pb); try done. cbn. rewrite Hn. apply u64_range.
  - intros Hlt. assert (u64 (next pb + 1) = next pb + 1) as Heq.
    { pose proof (oo_next _ _ _ Hok). apply u64_small. unfold is_u64 in *. lia. }
    by rewrite Heq in Hseq, Hn.
  - intros s [e He]. exists e. by apply (lookup_weaken _ _ _ _ He).
Qed.

(** An event that is dropped because its sequence number is already waiting. *)
Definition already_held (pb : publisherOrder) (e : Event.t) : bool :=
  started pb && (Epoch e =? epoch pb) && (next pb <? Seq e) && bool_decide (is_Some (held pb !! Seq e)).

Lemma hold_spec r pb e now :
  0 < maxHeld r → order_ok (maxHeld r) (Publisher e) pb → started pb = true → Epoch e = epoch pb →
  next pb < Seq e ≤ max_u64 →
  let '(pb', out) := hold r pb e now in
  order_ok (maxHeld r) (Publisher e) pb' ∧ started pb' = true ∧
  out ++ vals (held pb') ++ (if already_held pb e then [e] else []) ≡ₚ e :: vals (held pb)
  ∧ StronglySorted (<) (Seq <$> out) ∧ (out ≠ [] → held pb' = ∅).
Proof.
  intros Hmax Hok Hst Hep Hlt. unfold hold, already_held. rewrite Hst, Hep, Z.eqb_refl. cbn [andb].
  destruct (Z.ltb_spec (next pb) (Seq e)); [|lia]. cbn [andb].
  destruct (held pb !! Seq e) as [e'|] eqn:He; cbn [bool_decide].
  - rewrite bool_decide_true by eauto. destruct Hok as [K1 K2 K3 K4 K5].
    destruct (Z.ltb_spec (Z.of_nat (size (held pb))) (maxHeld r)); [|lia].
    split_and!; [by constructor|done| |constructor|done]. cbn. by rewrite Permutation_app_comm.
  - rewrite bool_decide_false by (by intros [? ?]). set (m := <[Seq e := e]> (held pb)). cbv zeta. cbn [held].
    assert (size m = S (size (held pb))) as Hsz by (by apply map_size_insert_None).
    assert (e :: vals (held pb) ≡ₚ vals m) as Hv by (unfold m; by rewrite map_to_list_insert).
    assert (∀ limit o, Z.of_nat (size m) < limit →
      order_ok limit (Publisher e) (mkOrder (epoch pb) (next pb) m o true)) as Hok'.
    { intros limit o Hl. destruct Hok as [K1 K2 K3 K4 K5]. constructor; cbn [held next epoch started]; try done.
      - intros s x [[<- <-]|[_ Hx]]%lookup_insert_Some; [done|by apply K1].
      - intros s [x [[<- _]|[_ Hx]]%lookup_insert_Some]; [done|eauto]. }
    destruct (Z.ltb_spec (Z.of_nat (size m)) (maxHeld r)).
    + split_and!; [by apply Hok'|done| |constructor|done]. by rewrite Hv, app_nil_r.
    + set (pb1 := mkOrder _ _ m _ _).
      destruct (drain_spec (Z.of_nat (size m) + 1) (Publisher e) pb1) as (Hd1 & Hd2 & Hd3 & Hd4 & Hd5);
        [apply Hok'; lia|lia|].
      destruct (drain pb1) as [pb' out]. cbn [fst snd] in *. rewrite Hd4, map_to_list_empty. split_and!; try done.
      * destruct Hd1 as [K1 K2 K3 K4 K5]. constructor; try done. rewrite Hd4, map_size_empty. lia.
      * by rewrite app_nil_r, Hd2, Hv.
Qed.

Lemma offer_pub_spec r pb e now :
  0 < maxHeld r → order_ok (maxHeld r) (Publisher e) pb → is_u64 (Seq e) →
  let '(pb', out) := offer_pub r pb e now in
  order_ok (maxHeld r) (Publisher e) pb' ∧ started pb' = true ∧
  out ++ vals (held pb') ++ (if already_held pb e then [e] else []) ≡ₚ e :: vals (held pb).
Proof.
  intros Hmax Hok Hseq. unfold offer_pub.
  assert (∀ pb1 : publisherOrder, held pb1 = ∅ → order_ok (maxHeld r) (Publisher e)
    (mkOrder (Epoch e) (u64 (Seq e + 1)) (held pb1) (oldestAt pb1) true)) as Hfresh.
  { intros pb1 ->. constructor; cbn [held next epoch started]; try done.
    - intros s [x Hx]. by rewrite lookup_empty in Hx.
    - apply u64_range. }
  unfold already_held. destruct (started pb) eqn:Hst; cbn [negb andb].
  2: { pose proof (oo_started _ _ _ Hok Hst) as Hemp. split_and!; [by apply Hfresh|done|].
       cbn [held]. by rewrite Hemp, map_to_list_empty. }
  destruct (Z.eqb_spec (Epoch e) (epoch pb)) as [Hep|]; cbn [negb andb].
  2: { destruct (drain_spec _ _ _ Hok Hmax) as (Hd1 & Hd2 & _ & Hd4 & Hd5).
       destruct (drain pb) as [pb1 out]. cbn [fst snd] in *. rewrite Hst in Hd5. rewrite Hd5.
       split_and!; [by apply Hfresh|done|]. cbn [held]. rewrite Hd4, map_to_list_empty. cbn.
       by rewrite app_nil_r, Hd2, Permutation_app_comm. }
  destruct (Z.ltb_spec (Seq e) (next pb)).
  { destruct (Z.ltb_spec (next pb) (Seq e)); [lia|]. split_and!; try done. by rewrite app_nil_r. }
  destruct (Z.eqb_spec (Seq e) (next pb)) as [Heq|].
  { rewrite <- Heq, Z.ltb_irrefl, Heq.
    pose proof (releaseConsecutive_spec _ _ _ [e] Hok Hst) as Hrel. cbv zeta in Hrel.
    destruct (releaseConsecutive _ _) as [pb' out]. destruct Hrel as (rel & -> & Hp & Hok' & Hst' & _).
    split_and!; [done|done|]. cbn. rewrite app_nil_r. by rewrite Hp. }
  pose proof (hold_spec r pb e now Hmax Hok Hst Hep) as Hh. unfold already_held in Hh.
  rewrite Hst, Hep, Z.eqb_refl in Hh. cbn [andb] in Hh. destruct (hold r pb e now) as [pb' out].
  destruct Hh as (? & ? & ? & _); [unfold is_u64 in *; lia|]. done.
Qed.

(** ** Runs *)

Inductive input := Offer (e : Event.t) (now : Time) | Expire (now : Time).

Definition step (r : reorderBuffer) (x : input) : reorderBuffer * list Event.t :=
  match x with Offer e now => offer r e now | Expire now => expire r now end.

Definition offered (x : input) : list Event.t := match x with Offer e _ => [e] | Expire _ => [] end.

Definition entry_of (r : reorderBuffer) (p : string) : publisherOrder :=
  default fresh_order (pubs r !! p).

Definition refused (r : reorderBuffer) (x : input) : list Event.t :=
  match x with
  | Offer e _ => if enabled r && already_held (entry_of r (Publisher e)) e then [e] else []
  | Expire _ => []
  end.

(** The buffer after the inputs, what was released, and what was refused as a repetition. *)
Fixpoint run (r : reorderBuffer) (xs : list input) : reorderBuffer * list Event.t * list Event.t :=
  match xs with
  | [] => (r, [], [])
  | x :: xs =>
      let '(r1, out) := step r x in
      let '(r2, outs, refs) := run r1 xs in (r2, out ++ outs, refused r x ++ refs)
  end.

Definition valid (x : input) : Prop := match x with Offer e _ => is_u64 (Seq e) | Expire _ => True end.

(** The part of a list that is one publisher's. *)
Definition stream_of (p : string) (l : list Event.t) : list Event.t := filter (λ e, Publisher e = p) l.

Definition held_of (r : reorderBuffer) (p : string) : list Event.t := vals (held (entry_of r p)).

Lemma of_app p l1 l2 : stream_of p (l1 ++ l2) = stream_of p l1 ++ stream_of p l2.
Proof. apply filter_app. Qed.

Lemma of_same p l : (∀ e, e ∈ l → Publisher e = p) → stream_of p l = l.
Proof.
  induction l as [|e l IH]; intros Hl; [done|]. unfold stream_of. rewrite filter_cons_True.
  - f_equal. apply IH. intros x Hx. apply Hl. by right.
  - apply Hl. by left.
Qed.

Lemma of_other p q l : p ≠ q → (∀ e, e ∈ l → Publisher e = q) → stream_of p l = [].
Proof.
  intros Hne. induction l as [|e l IH]; intros Hl; [done|]. unfold stream_of. rewrite filter_cons_False.
  - apply IH. intros x Hx. apply Hl. by right.
  - intros He. apply Hne. rewrite <- He. apply Hl. by left.
Qed.

Lemma entry_of_ok r p : reorder_ok r → order_ok (maxHeld r) p (entry_of r p).
Proof.
  intros [Hm Hr]. unfold entry_of. destruct (pubs r !! p) as [pb|] eqn:Hp; cbn; [by apply Hr|].
  by apply fresh_order_ok.
Qed.

Lemma entry_of_set r p pb q : entry_of (set_pub r p pb) q = if decide (p = q) then pb else entry_of r q.
Proof. unfold entry_of, set_pub. cbn. rewrite lookup_insert. by destruct (decide (p = q)). Qed.

Lemma set_pub_ok r p pb : reorder_ok r → order_ok (maxHeld r) p pb → reorder_ok (set_pub r p pb).
Proof.
  intros [Hm Hr] Hp. split; [done|]. cbn. intros q pb' [[<- <-]|[_ Hq]]%lookup_insert_Some; [done|].
  by apply Hr.
Qed.

(** What the held events of an entry are. *)
Lemma vals_publisher limit p pb e : order_ok limit p pb → e ∈ vals (held pb) → Publisher e = p.
Proof. intros Hok [s Hs]%elem_of_vals. by destruct (oo_own _ _ _ Hok s e Hs) as (_ & ? & _). Qed.

(** One publisher's events, before and after a step. *)
Definition conserves (r : reorderBuffer) (inp out refs : list Event.t) (r' : reorderBuffer) : Prop :=
  ∀ p, stream_of p out ++ held_of r' p ++ stream_of p refs ≡ₚ held_of r p ++ stream_of p inp.

Lemma offer_step r e now :
  reorder_ok r → is_u64 (Seq e) →
  let '(r', out) := offer r e now in
  reorder_ok r' ∧ conserves r [e] out (refused r (Offer e now)) r'
  ∧ rwindow r' = rwindow r ∧ maxHeld r' = maxHeld r.
Proof.
  intros Hr Hseq. unfold offer, refused, enabled. destruct (0 <? rwindow r); cbn [negb andb].
  2: { split_and!; try done. intros p. cbn. by rewrite app_nil_r, Permutation_app_comm. }
  fold (entry_of r (Publisher e)).
  pose proof (offer_pub_spec r (entry_of r (Publisher e)) e now (proj1 Hr) (entry_of_ok r _ Hr) Hseq) as Ho.
  destruct (offer_pub r _ e now) as [pb out]. destruct Ho as (Hok & Hst & Hp).
  split_and!; try done; [by apply set_pub_ok|]. intros p. unfold held_of. rewrite entry_of_set.
  assert (∀ x, x ∈ out → Publisher x = Publisher e) as Hout.
  { intros x Hx. assert (x ∈ e :: vals (held (entry_of r (Publisher e)))) as [->|Hin]%elem_of_cons;
      [rewrite <- Hp; apply elem_of_app; by left|done|].
    by apply (vals_publisher _ _ _ _ (entry_of_ok r _ Hr)). }
  destruct (decide (Publisher e = p)) as [<-|Hne].
  - set (refs := if already_held _ e then [e] else []) in *.
    assert (∀ x, x ∈ refs → Publisher x = Publisher e) as Hrefs.
    { unfold refs. destruct (already_held _ _); set_solver. }
    rewrite (of_same _ out), (of_same _ refs), (of_same _ [e]) by (done || set_solver).
    by rewrite Hp, Permutation_app_comm.
  - set (refs := if already_held _ e then [e] else []) in *.
    assert (∀ x, x ∈ refs → Publisher x = Publisher e) as Hrefs.
    { unfold refs. destruct (already_held _ _); set_solver. }
    rewrite (of_other p (Publisher e) out), (of_other p (Publisher e) refs),
      (of_other p (Publisher e) [e]) by (done || set_solver). done.
Qed.

(** What expiring leaves of one publisher: nothing that waited its window out. *)
Definition timely (now : Time) (r : reorderBuffer) (p : string) : Prop :=
  held (entry_of r p) = ∅ ∨ time_Sub now (oldestAt (entry_of r p)) < rwindow r.

Lemma expire_loop_spec now l : ∀ r out,
  reorder_ok r → NoDup l.*1 → (∀ kv, kv ∈ l → entry_of r kv.1 = kv.2) →
  let '(r', out') := foldl (expire_one now) (r, out) l in
  ∃ rel, out' = out ++ rel ∧ reorder_ok r' ∧ conserves r [] rel [] r'
    ∧ rwindow r' = rwindow r ∧ maxHeld r' = maxHeld r
    ∧ (∀ p, p ∉ l.*1 → entry_of r' p = entry_of r p)
    ∧ (∀ p, p ∈ l.*1 → timely now r' p).
Proof.
  induction l as [|[p pb] l IH]; intros r out Hr Hnd Hl.
  { cbn. exists []. rewrite app_nil_r. split_and!; try done; [|set_solver]. intros p.
    cbn. by rewrite app_nil_r. }
  cbn in Hnd. apply NoDup_cons in Hnd as [Hp Hnd]. pose proof (Hl (p, pb) ltac:(by left)) as Hpb. cbn in Hpb.
  assert (∀ r1 out1 rel1, reorder_ok r1 → out1 = out ++ rel1 → conserves r [] rel1 [] r1 →
    rwindow r1 = rwindow r → maxHeld r1 = maxHeld r → timely now r1 p →
    (∀ q, q ≠ p → entry_of r1 q = entry_of r q) →
    let '(r', out') := foldl (expire_one now) (r1, out1) l in
    ∃ rel, out' = out ++ rel ∧ reorder_ok r' ∧ conserves r [] rel [] r'
      ∧ rwindow r' = rwindow r ∧ maxHeld r' = maxHeld r
      ∧ (∀ q, q ∉ ((p, pb) :: l).*1 → entry_of r' q = entry_of r q)
      ∧ (∀ q, q ∈ ((p, pb) :: l).*1 → timely now r' q)) as Hrest.
  { intros r1 out1 rel1 Hr1 -> Hc1 Hw1 Hm1 Ht1 Ho1. specialize (IH r1 (out ++ rel1) Hr1 Hnd).
    destruct (foldl _ _ l) as [r' out']. destruct IH as (rel & -> & Hr' & Hc & Hw & Hm & Ho & Ht).
    { intros kv Hkv. rewrite Ho1; [apply Hl; by right|]. intros <-. by apply Hp, list_elem_of_fmap_2. }
    exists (rel1 ++ rel). rewrite Hw, Hm. split_and!; try done.
    - by rewrite app_assoc.
    - intros q. specialize (Hc q). specialize (Hc1 q). cbn in *. rewrite !app_nil_r in *.
      rewrite of_app, <- app_assoc, Hc. done.
    - intros q Hq. cbn in Hq. apply not_elem_of_cons in Hq as [Hq1 Hq2]. rewrite Ho by done. by apply Ho1.
    - intros q [->|Hq]%elem_of_cons; [|by apply Ht]. unfold timely in *. by rewrite Ho, Hw. }
  cbn [foldl expire_one]. destruct (_ || _) eqn:Hskip.
  - apply (Hrest r out []); try done; [by rewrite app_nil_r|..].
    + intros q. cbn. by rewrite app_nil_r.
    + unfold timely. rewrite Hpb. apply orb_true_iff in Hskip as [Hz%Nat.eqb_eq|Hlt%Z.ltb_lt]; [left|by right].
      by apply map_size_empty_inv.
  - pose proof (entry_of_ok r p Hr) as Hok. rewrite Hpb in Hok.
    destruct (drain_spec _ _ _ Hok (proj1 Hr)) as (Hd1 & Hd2 & _ & Hd4 & _).
    destruct (drain pb) as [pb' rel1]. cbn [fst snd] in *.
    apply (Hrest (set_pub r p pb') (out ++ rel1) rel1); try done.
    + by apply set_pub_ok.
    + intros q. unfold held_of. rewrite entry_of_set. cbn. rewrite !app_nil_r.
      assert (∀ x, x ∈ rel1 → Publisher x = p) as Hrel.
      { intros x Hx. rewrite Hd2 in Hx. by apply (vals_publisher _ _ _ _ Hok). }
      destruct (decide (p = q)) as [<-|Hne].
      * rewrite Hd4, map_to_list_empty, app_nil_r, of_same by done. by rewrite Hd2, Hpb.
      * by rewrite (of_other q p rel1) by done.
    + left. rewrite entry_of_set. by destruct (decide (p = p)).
    + intros q Hq. rewrite entry_of_set. by destruct (decide (p = q)).
Qed.

Lemma expire_step r now :
  reorder_ok r →
  let '(r', out) := expire r now in
  reorder_ok r' ∧ conserves r [] out [] r' ∧ rwindow r' = rwindow r ∧ maxHeld r' = maxHeld r
  ∧ (enabled r = true → ∀ p, timely now r' p).
Proof.
  intros Hr. unfold expire. destruct (enabled r); cbn [negb].
  2: { split_and!; try done. intros p. cbn. by rewrite app_nil_r. }
  assert (∀ kv, kv ∈ range_map (pubs r) → entry_of r kv.1 = kv.2) as Hl.
  { intros [p pb] Hkv%elem_of_range_map. unfold entry_of. cbn. by rewrite Hkv. }
  pose proof (expire_loop_spec now (range_map (pubs r)) r [] Hr (NoDup_fst_range_map _) Hl) as Hs.
  destruct (foldl _ _ _) as [r' out]. destruct Hs as (rel & -> & Hr' & Hc & Hw & Hm & Ho & Ht).
  split_and!; try done. intros _ p. destruct (decide (p ∈ (range_map (pubs r)).*1)) as [Hin|Hout]; [by apply Ht|].
  left. rewrite Ho by done. unfold entry_of. destruct (pubs r !! p) as [pb|] eqn:Hp; [|done].
  destruct Hout. apply list_elem_of_fmap. exists (p, pb). split; [done|]. by apply elem_of_range_map.
Qed.

Lemma run_spec xs : ∀ r,
  reorder_ok r → Forall valid xs →
  let '(r', out, refs) := run r xs in
  reorder_ok r' ∧ conserves r (concat (offered <$> xs)) out refs r'
  ∧ rwindow r' = rwindow r ∧ maxHeld r' = maxHeld r.
Proof.
  induction xs as [|x xs IH]; intros r Hr Hv; cbn [run].
  { split_and!; try done. intros p. cbn. by rewrite app_nil_r. }
  apply Forall_cons in Hv as [Hx Hv].
  assert (let '(r1, out) := step r x in
    reorder_ok r1 ∧ conserves r (offered x) out (refused r x) r1
    ∧ rwindow r1 = rwindow r ∧ maxHeld r1 = maxHeld r) as Hs.
  { destruct x as [e now|now]; cbn [step offered]; [by apply offer_step|].
    pose proof (expire_step r now Hr) as He. destruct (expire r now) as [r1 out]. by destruct He as (? & ? & ? & ? & _). }
  destruct (step r x) as [r1 out]. destruct Hs as (Hr1 & Hc1 & Hw1 & Hm1). specialize (IH r1 Hr1 Hv).
  destruct (run r1 xs) as [[r2 outs] refs]. destruct IH as (Hr2 & Hc2 & Hw2 & Hm2).
  rewrite Hw2, Hm2. split_and!; try done. intros p. specialize (Hc1 p). specialize (Hc2 p).
  cbn [fmap list_fmap concat]. rewrite !of_app.
  by apply (perm_chain _ _ _ (held_of r1 p)).
Qed.

(** C10: the reorder buffer neither loses nor invents an event: after any offers and expiries, what a
    publisher sent is exactly what was released of it, what still waits and what was refused because
    the same sequence number of the same epoch was already waiting; and fewer events than the limit
    wait per publisher. *)
Theorem reorder_loses_nothing window limit xs p :
  Forall valid xs →
  let '(r, out, refs) := run (newReorderBuffer window limit) xs in
  stream_of p out ++ held_of r p ++ stream_of p refs ≡ₚ stream_of p (concat (offered <$> xs))
  ∧ Z.of_nat (length (held_of r p)) < maxHeld (newReorderBuffer window limit).
Proof.
  intros Hv. pose proof (run_spec xs _ (newReorderBuffer_ok window limit) Hv) as Hr.
  destruct (run _ xs) as [[r out] refs]. destruct Hr as (Hok & Hc & _ & Hm). split.
  - rewrite (Hc p). unfold held_of, entry_of. cbn [pubs newReorderBuffer].
    by rewrite lookup_empty.
  - rewrite <- Hm. unfold held_of. rewrite length_fmap, length_map_to_list.
    apply (oo_limit _ _ _ (entry_of_ok r p Hok)).
Qed.

(** ** Order *)

(** Where publisher [p] stands: [done] has arrived, [out] of it was released as the run of events
    from [s0] up to the next one expected, the rest waits. *)
Record in_order (r : reorderBuffer) (p : string) (ep s0 : Z) (done out : list Event.t) : Prop :=
  mk_in_order {
  io_started : started (entry_of r p) = true;
  io_epoch : epoch (entry_of r p) = ep;
  io_next : s0 < next (entry_of r p);
  io_out : Seq <$> out = seqZ s0 (next (entry_of r p) - s0);
  io_perm : out ++ held_of r p ≡ₚ done
}.

Lemma offer_other r e now p :
  enabled r = true → Publisher e ≠ p → reorder_ok r → is_u64 (Seq e) →
  let '(r', out) := offer r e now in entry_of r' p = entry_of r p ∧ stream_of p out = [].
Proof.
  intros He Hne Hr Hseq. pose proof (offer_step r e now Hr Hseq) as Hs.
  unfold offer in *. rewrite He in *. cbn [negb] in *.
  destruct (offer_pub r _ e now) as [pb out]. destruct Hs as (_ & Hc & _).
  assert (entry_of (set_pub r (Publisher e) pb) p = entry_of r p) as Hentry.
  { rewrite entry_of_set. by destruct (decide (Publisher e = p)). }
  split; [done|]. specialize (Hc p). unfold held_of in Hc. rewrite Hentry in Hc.
  rewrite (of_other p (Publisher e) [e]), app_nil_r in Hc by (done || set_solver).
  apply Permutation_length in Hc. rewrite !length_app in Hc.
  destruct (stream_of p out); [done|]. cbn in Hc. lia.
Qed.

Lemma offer_own r e now ep s0 done out :
  enabled r = true → reorder_ok r → in_order r (Publisher e) ep s0 done out → 0 ≤ s0 →
  Epoch e = ep → Seq e ∉ Seq <$> done → s0 < Seq e < max_u64 → Z.of_nat (length done) < maxHeld r →
  (∀ x, x ∈ done → Seq x < max_u64) →
  let '(r', rel) := offer r e now in
  in_order r' (Publisher e) ep s0 (done ++ [e]) (out ++ stream_of (Publisher e) rel).
Proof.
  intros Hen Hr [J1 J2 J3 J4 J5] Hs0 Hep Hnew Hseq Hlen Hbound.
  pose proof (entry_of_ok r (Publisher e) Hr) as Hok.
  pose proof (offer_step r e now Hr ltac:(unfold is_u64; lia)) as Hstep.
  unfold offer in *. rewrite Hen in *. cbn [negb] in *. fold (entry_of r (Publisher e)) in *.
  unfold held_of in J5. set (pb := entry_of r (Publisher e)) in *.
  unfold offer_pub in *. rewrite J1, J2, Hep, Z.eqb_refl in *. cbn [negb] in *.
  destruct (Z.ltb_spec (Seq e) (next pb)).
  { destruct Hnew. rewrite <- J5, fmap_app, elem_of_app, J4. left. apply elem_of_seqZ. lia. }
  destruct (Z.eqb_spec (Seq e) (next pb)) as [Heq|].
  - pose proof (releaseConsecutive_spec _ _ _ [e] Hok J1) as Hrel. cbv zeta in Hrel. rewrite J2 in Hrel.
    destruct (releaseConsecutive _ _) as [pb' out'].
    destruct Hrel as (rel & -> & Hp & Hok' & Hst' & Hep' & _ & Hrel & _). destruct Hrel as [Hseqs Hnext]; [lia|].
    destruct Hstep as (_ & Hc & _). specialize (Hc (Publisher e)).
    assert (∀ x, x ∈ [e] ++ rel → Publisher x = Publisher e) as Hown.
    { intros x [->%list_elem_of_singleton|Hx]%elem_of_app; [done|].
      apply (vals_publisher _ _ _ _ Hok). rewrite <- Hp. apply elem_of_app. by left. }
    assert (next pb' = next pb + 1 + Z.of_nat (length rel)) as Hn'.
    { rewrite Hnext. apply u64_small. unfold is_u64.
      destruct (decide (rel = [])) as [->|Hne]; [cbn; lia|].
      assert (next pb + Z.of_nat (length rel) ∈ Seq <$> rel) as Hlast.
      { rewrite Hseqs. apply elem_of_seqZ. destruct rel; [done|]. cbn. lia. }
      apply list_elem_of_fmap in Hlast as (x & Hx & Hin).
      assert (x ∈ vals (held pb)) as [s Hs]%elem_of_vals by (rewrite <- Hp; apply elem_of_app; by left).
      specialize (Hbound x). rewrite <- J5, elem_of_app in Hbound.
      assert (Seq x < max_u64); [|lia]. apply Hbound. right. apply elem_of_vals. eauto. }
    rewrite of_same by done. unfold held_of. constructor; rewrite ?entry_of_set, ?decide_True by done; try done.
    + lia.
    + rewrite !fmap_app, J4. cbn [fmap list_fmap]. rewrite Hseqs, Heq, Hn'.
      replace (next pb + 1 + Z.of_nat (length rel) - s0)
        with ((next pb - s0) + (1 + Z.of_nat (length rel))) by lia.
      rewrite (seqZ_app s0) by lia. f_equal.
      replace (s0 + (next pb - s0)) with (next pb) by lia. rewrite (seqZ_cons (next pb)) by lia.
      f_equal. f_equal; lia.
    + unfold held_of. rewrite entry_of_set, decide_True by done.
      rewrite <- J5, <- Hp. cbn. rewrite <- !app_assoc. f_equiv. cbn.
      rewrite (app_assoc rel). apply Permutation_cons_append.
  - assert (held pb !! Seq e = None) as Hnone.
    { apply eq_None_not_Some. intros [x Hx]. apply Hnew. rewrite <- J5, fmap_app, elem_of_app. right.
      apply list_elem_of_fmap. exists x. split; [|apply elem_of_vals; eauto].
      by destruct (oo_own _ _ _ Hok _ _ Hx) as (-> & _). }
    assert (Z.of_nat (size (held pb)) + 1 < maxHeld r) as Hroom.
    { apply Permutation_length in J5. rewrite length_app, length_fmap, length_map_to_list in J5.
      apply (f_equal length) in J4. rewrite length_fmap, length_seqZ in J4. lia. }
    unfold hold in *. rewrite Hnone in *. cbv zeta in *. cbn [held] in *.
    rewrite map_size_insert_None in * by done.
    destruct (Z.ltb_spec (Z.of_nat (S (size (held pb)))) (maxHeld r)); [|lia].
    unfold held_of. cbn [stream_of]. rewrite app_nil_r.
    constructor; rewrite ?entry_of_set, ?decide_True by done; try done.
    unfold held_of. rewrite entry_of_set, decide_True by done. cbn [held].
    rewrite map_to_list_insert by done. cbn. rewrite <- J5, <- app_assoc. f_equiv.
    apply Permutation_cons_append.
Qed.

Definition offers (es : list (Event.t * Time)) : list input := (λ '(e, t), Offer e t) <$> es.

(** Publisher [p]'s part of the events. *)
Abbreviation sent p es := (stream_of p es.*1).

Lemma run_in_order p ep s0 es : ∀ r done out,
  enabled r = true → reorder_ok r → 0 ≤ s0 → in_order r p ep s0 done out →
  (∀ e, e ∈ es.*1 → is_u64 (Seq e)) →
  (∀ e, e ∈ sent p es → Epoch e = ep ∧ s0 < Seq e) →
  (∀ e, e ∈ done ++ sent p es → Seq e < max_u64) →
  NoDup (Seq <$> done ++ sent p es) → Z.of_nat (length (done ++ sent p es)) ≤ maxHeld r →
  let '(r', o, _) := run r (offers es) in
  in_order r' p ep s0 (done ++ sent p es) (out ++ stream_of p o) ∧ reorder_ok r'.
Proof.
  induction es as [|[e t] es IH]; intros r done out Hen Hr Hs0 Hio Hu Hown Hmax Hnd Hlen.
  { cbn. rewrite !app_nil_r. done. }
  change (offers ((e, t) :: es)) with (Offer e t :: offers es). cbn [run].
  assert (is_u64 (Seq e)) as Hue by (apply Hu; by left).
  assert (∀ x, x ∈ es.*1 → is_u64 (Seq x)) as Hu' by (intros x Hx; apply Hu; by right).
  pose proof (offer_step r e t Hr Hue) as Hstep. cbn [step].
  destruct (decide (Publisher e = p)) as [Hp|Hp].
  - assert (sent p ((e, t) :: es) = e :: sent p es) as Hsent by (by apply filter_cons_True).
    rewrite Hsent in *. destruct (Hown e ltac:(by left)) as [Hep Hlow].
    pose proof (Hmax e ltac:(apply elem_of_app; right; by left)) as Hhigh.
    pose proof Hnd as Hnd'. rewrite fmap_app in Hnd'. cbn in Hnd'. apply NoDup_app in Hnd' as (_ & Hdis & _).
    rewrite length_app in Hlen. cbn in Hlen. subst p.
    pose proof (offer_own r e t ep s0 done out Hen Hr Hio Hs0 Hep) as Ho.
    destruct (offer r e t) as [r1 rel]. destruct Hstep as (Hr1 & _ & Hw & Hm).
    rewrite (cons_middle e done) in Hmax, Hnd |- *. rewrite app_assoc in Hmax, Hnd |- *.
    specialize (IH r1 (done ++ [e]) (out ++ stream_of (Publisher e) rel)).
    destruct (run r1 _) as [[r' o] refs]. rewrite of_app, app_assoc. apply IH; try done.
    + unfold enabled. by rewrite Hw.
    + apply Ho; [|lia|lia|].
      * intros Hin. apply (Hdis _ Hin). by left.
      * intros x Hx. apply Hmax. apply elem_of_app. left. apply elem_of_app. by left.
    + intros x Hx. apply Hown. by right.
    + rewrite Hm, !length_app. cbn. lia.
  - assert (sent p ((e, t) :: es) = sent p es) as Hsent by (by apply filter_cons_False).
    rewrite Hsent in *. pose proof (offer_other r e t p Hen Hp Hr Hue) as Ho.
    destruct (offer r e t) as [r1 rel]. destruct Hstep as (Hr1 & _ & Hw & Hm). destruct Ho as [Hentry Hrel].
    specialize (IH r1 done out). destruct (run r1 _) as [[r' o] refs].
    rewrite of_app, Hrel. apply IH; try done.
    + unfold enabled. by rewrite Hw.
    + destruct Hio as [J1 J2 J3 J4 J5]. unfold held_of in J5. constructor; unfold held_of; by rewrite Hentry.
    + by rewrite Hm.
Qed.

(** Until a publisher is heard of, its entry is the fresh one; its first event sets the baseline. *)
Lemma run_from_first p ep s0 es : ∀ r e0 rest,
  enabled r = true → reorder_ok r → 0 ≤ s0 < max_u64 → entry_of r p = fresh_order →
  sent p es = e0 :: rest → Seq e0 = s0 → Epoch e0 = ep →
  (∀ e, e ∈ es.*1 → is_u64 (Seq e)) →
  (∀ e, e ∈ rest → Epoch e = ep ∧ s0 < Seq e < max_u64) →
  NoDup (Seq <$> e0 :: rest) → Z.of_nat (length (e0 :: rest)) ≤ maxHeld r →
  let '(r', o, _) := run r (offers es) in
  in_order r' p ep s0 (e0 :: rest) (stream_of p o) ∧ reorder_ok r'.
Proof.
  induction es as [|[e t] es IH]; intros r e0 rest Hen Hr Hs0 Hfresh Hsent Hseq Hep Hu Hown Hnd Hlen;
    [done|]. change (offers ((e, t) :: es)) with (Offer e t :: offers es). cbn [run step].
  assert (is_u64 (Seq e)) as Hue by (apply Hu; by left).
  pose proof (offer_step r e t Hr Hue) as Hstep.
  destruct (decide (Publisher e = p)) as [Hp|Hp].
  - assert (sent p ((e, t) :: es) = e :: sent p es) as Hs by (by apply filter_cons_True).
    rewrite Hs in Hsent. injection Hsent as <- <-.
    assert (offer r e t = (set_pub r p (mkOrder ep (s0 + 1) ∅ zero_time true), [e])) as Ho.
    { unfold offer. rewrite Hen. fold (entry_of r (Publisher e)). rewrite Hp, Hfresh.
      unfold offer_pub. cbn. rewrite Hseq, Hep, u64_small; [done|]. unfold is_u64 in *. lia. }
    rewrite Ho in *. destruct Hstep as (Hr1 & _ & Hw & Hm).
    pose proof (run_in_order p ep s0 es (set_pub r p (mkOrder ep (s0 + 1) ∅ zero_time true)) [e] [e]) as Hrun.
    destruct (run _ (offers es)) as [[r' o] refs]. rewrite of_app, (of_same p [e]) by set_solver.
    apply Hrun; try done; try lia.
    + constructor; rewrite ?entry_of_set, ?decide_True by done; cbn [started epoch next held]; try done; try lia.
      * cbn. replace (s0 + 1 - s0) with 1 by lia. by rewrite <- Hseq.
      * unfold held_of. by rewrite entry_of_set, decide_True.
    + intros x Hx. apply Hu. by right.
    + intros x Hx. destruct (Hown x Hx). lia.
    + intros x [->%list_elem_of_singleton|Hx]%elem_of_app; [lia|]. destruct (Hown x Hx). lia.
  - assert (sent p ((e, t) :: es) = sent p es) as Hs by (by apply filter_cons_False).
    rewrite Hs in Hsent. pose proof (offer_other r e t p Hen Hp Hr Hue) as Ho.
    destruct (offer r e t) as [r1 rel]. destruct Hstep as (Hr1 & _ & Hw & Hm). destruct Ho as [Hentry Hrel].
    specialize (IH r1 e0 rest). destruct (run r1 _) as [[r' o] refs].
    rewrite of_app, Hrel. apply IH; try done.
    + unfold enabled. by rewrite Hw.
    + by rewrite Hentry.
    + intros x Hx. apply Hu. by right.
    + by rewrite Hm.
Qed.

(** Nothing waits at the end and what was released is the stream in order. *)
Lemma restored_order window limit es p ep s0 e0 rest n :
  0 < window → sent p es = e0 :: rest → Seq e0 = s0 → Epoch e0 = ep → 0 ≤ s0 →
  (∀ e, e ∈ es.*1 → is_u64 (Seq e)) → (∀ e, e ∈ rest → Epoch e = ep) →
  Seq <$> rest ≡ₚ seqZ (s0 + 1) n → 0 ≤ n → s0 + n < max_u64 →
  n < maxHeld (newReorderBuffer window limit) →
  let '(_, out, _) := run (newReorderBuffer window limit) (offers es) in
  stream_of p out ≡ₚ e0 :: rest ∧ Seq <$> stream_of p out = seqZ s0 (n + 1).
Proof.
  intros Hw Hsent Hseq Hep Hs0 Hu Hown Hperm Hn Hmax Hlimit.
  assert (length rest = Z.to_nat n) as Hlen.
  { apply Permutation_length in Hperm. by rewrite length_fmap, length_seqZ in Hperm. }
  pose proof (run_from_first p ep s0 es (newReorderBuffer window limit) e0 rest) as Hrun.
  destruct (run _ _) as [[r' out] refs]. destruct Hrun as [[J1 J2 J3 J4 J5] Hok]; try done.
  - unfold enabled. cbn. by apply Z.ltb_lt.
  - apply newReorderBuffer_ok.
  - lia.
  - intros e He. split; [by apply Hown|].
    assert (Seq e ∈ seqZ (s0 + 1) n) as Hin%elem_of_seqZ by (rewrite <- Hperm; by apply list_elem_of_fmap_2). lia.
  - cbn. rewrite Hperm, Hseq. apply NoDup_cons. split; [|apply NoDup_seqZ].
    intros Hin%elem_of_seqZ. lia.
  - cbn [length]. lia.
  - assert (s0 + n < next (entry_of r' p)) as Hnext.
    { apply Z.nle_gt. intros Hle.
      assert (next (entry_of r' p) ∈ Seq <$> stream_of p out ++ held_of r' p) as Hin.
      { rewrite J5. cbn. right. rewrite Hperm. apply elem_of_seqZ. lia. }
      rewrite fmap_app, elem_of_app, J4 in Hin. destruct Hin as [Hin%elem_of_seqZ|Hin]; [lia|].
      apply list_elem_of_fmap in Hin as (x & Hx & [s Hs]%elem_of_vals).
      pose proof (entry_of_ok r' p Hok) as Ho. destruct (oo_own _ _ _ Ho s x Hs) as (Hsx & _).
      pose proof (oo_ahead _ _ _ Ho s ltac:(eauto)). lia. }
    assert (length (held_of r' p) = 0%nat ∧ next (entry_of r' p) - s0 = n + 1) as [Hheld Heq].
    { apply (f_equal length) in J4. rewrite length_fmap, length_seqZ in J4.
      apply Permutation_length in J5. rewrite length_app in J5. cbn in J5. lia. }
    apply nil_length_inv in Hheld. rewrite Hheld, app_nil_r in J5. by rewrite J4, Heq.
Qed.

(** C9: the buffer restores the order of a stream: if a publisher's events are its first one and then,
    in any order, the next [n] sequence numbers of the same epoch, with [n] below the limit and no
    wait timing out, then whatever other publishers send in between it releases all of them, each
    once, in sequence order. *)
Theorem reorder_restores_order window limit es p ep s0 e0 rest n :
  0 < window → sent p es = e0 :: rest → Seq e0 = s0 → Epoch e0 = ep → 0 ≤ s0 →
  (∀ e, e ∈ es.*1 → is_u64 (Seq e)) → (∀ e, e ∈ rest → Epoch e = ep) →
  Seq <$> rest ≡ₚ seqZ (s0 + 1) n → 0 ≤ n → s0 + n < max_u64 →
  n < maxHeld (newReorderBuffer window limit) →
  let '(_, out, _) := run (newReorderBuffer window limit) (offers es) in
  stream_of p out ≡ₚ e0 :: rest ∧ Seq <$> stream_of p out = seqZ s0 (n + 1).
Proof. apply restored_order. Qed.

(** ** Waiting *)

(** Buffers that see time pass: events are offered at the time they were observed, and neither
    offers nor expiries go back in time. *)
Inductive clocked (window : Duration) (limit : Z) : reorderBuffer → Time → Prop :=
| clocked_new b : clocked window limit (newReorderBuffer window limit) b
| clocked_offer r b e :
    clocked window limit r b → b ≤ ObservedAt e → is_u64 (Seq e) →
    clocked window limit (offer r e (ObservedAt e)).1 (ObservedAt e)
| clocked_expire r b now :
    clocked window limit r b → b ≤ now → clocked window limit (expire r now).1 now.

(** The window of an entry is measured from no later than the arrival of anything it holds. *)
Definition dated (pb : publisherOrder) (b : Time) : Prop :=
  ∀ s e, held pb !! s = Some e → oldestAt pb ≤ ObservedAt e ≤ b.

Lemma dated_empty pb b : held pb = ∅ → dated pb b.
Proof. intros Hp s e. by rewrite Hp, lookup_empty. Qed.

Lemma drain_dated pb b : dated pb b → dated (drain pb).1 b.
Proof.
  intros Hd. unfold drain. destruct (size (held pb) =? 0)%nat; [done|].
  by apply dated_empty.
Qed.

Lemma drain_empties pb : held (drain pb).1 = ∅.
Proof.
  unfold drain. destruct (Nat.eqb_spec (size (held pb)) 0); cbn; [by apply map_size_empty_inv|done].
Qed.

Lemma offer_pub_dated r pb e b :
  order_ok (maxHeld r) (Publisher e) pb → dated pb b → b ≤ ObservedAt e →
  dated (offer_pub r pb e (ObservedAt e)).1 (ObservedAt e).
Proof.
  intros Hok Hd Hb.
  assert (dated pb (ObservedAt e)) as Hd' by (intros s x Hx; destruct (Hd s x Hx); lia).
  unfold offer_pub. destruct (started pb) eqn:Hst; cbn [negb].
  2: { apply dated_empty. by apply (oo_started _ _ _ Hok). }
  destruct (negb (Epoch e =? epoch pb)).
  { pose proof (drain_empties pb). destruct (drain pb). by apply dated_empty. }
  destruct (Seq e <? next pb); [done|]. destruct (Seq e =? next pb).
  - unfold releaseConsecutive. cbn [held next epoch oldestAt started].
    pose proof (release_loop_spec (size (held pb)) (held pb) (u64 (next pb + 1)) [e] (le_n _)
      (u64_range _)) as Hloop.
    destruct (release_loop _ _ _ _) as [[m nxt] out]. cbn.
    intros s x Hx. cbn [oldestAt held] in *. apply (Hd' s x). destruct Hloop as (rel & _ & _ & _ & _ & _ & Hsub & _).
    + intros s'. by apply (ahead_of_next _ _ pb s' Hok).
    + intros s' x' Hx'. by apply (oo_own _ _ _ Hok).
    + by apply (lookup_weaken _ _ _ _ Hx).
  - unfold hold. destruct (held pb !! Seq e) as [e'|] eqn:He.
    + destruct (_ <? _); [done|]. by apply drain_dated.
    + set (pb1 := mkOrder _ _ _ _ _).
      assert (dated pb1 (ObservedAt e)) as Hd1.
      { intros s x. unfold pb1. cbn [held oldestAt].
        destruct (Nat.eqb_spec (size (held pb)) 0) as [Hz|Hz].
        - apply map_size_empty_inv in Hz. rewrite Hz.
          intros [[<- <-]|[_ Hx]]%lookup_insert_Some; [lia|by rewrite lookup_empty in Hx].
        - intros [[<- <-]|[_ Hx]]%lookup_insert_Some; [|by apply (Hd' s x)].
          destruct (map_choose (held pb)) as (s' & x' & Hx').
          { intros Hemp. by rewrite Hemp, map_size_empty in Hz. }
          destruct (Hd s' x' Hx'). lia. }
      destruct (_ <? _); [done|]. by apply drain_dated.
Qed.

(** Expiring leaves an entry alone or empties it. *)
Lemma expire_entries now l : ∀ r out p,
  NoDup l.*1 → (∀ kv, kv ∈ l → entry_of r kv.1 = kv.2) →
  let r' := (foldl (expire_one now) (r, out) l).1 in
  entry_of r' p = entry_of r p ∨ held (entry_of r' p) = ∅.
Proof.
  induction l as [|[q pb] l IH]; intros r out p Hnd Hl; [by left|]. cbn [foldl expire_one].
  cbn in Hnd. apply NoDup_cons in Hnd as [Hq Hnd].
  destruct (_ || _); [apply IH; [done|]; intros kv Hkv; apply Hl; by right|].
  pose proof (drain_empties pb) as Hemp. destruct (drain pb) as [pb' rel]. cbn [fst] in Hemp.
  destruct (IH (set_pub r q pb') (out ++ rel) p Hnd) as [He|He]; [| |by right].
  - intros kv Hkv. rewrite entry_of_set. destruct (decide (q = kv.1)) as [->|]; [|apply Hl; by right].
    destruct Hq. by apply list_elem_of_fmap_2.
  - cbv zeta in *. rewrite He, entry_of_set. destruct (decide (q = p)); [by right|by left].
Qed.

Lemma clocked_ok window limit r b :
  clocked window limit r b →
  reorder_ok r ∧ rwindow r = window ∧ ∀ p, dated (entry_of r p) b.
Proof.
  induction 1 as [b|r b e _ (Hr & Hw & Hd) Hb Hseq|r b now _ (Hr & Hw & Hd) Hb].
  - split_and!; [apply newReorderBuffer_ok|done|]. intros p. by apply dated_empty.
  - pose proof (offer_step r e (ObservedAt e) Hr Hseq) as Hs. unfold offer in *.
    assert (∀ p, dated (entry_of r p) (ObservedAt e)) as Hd'.
    { intros p s x Hx. destruct (Hd p s x Hx). lia. }
    destruct (negb (enabled r)); [done|].
    pose proof (offer_pub_dated r (entry_of r (Publisher e)) e b (entry_of_ok r _ Hr) (Hd _) Hb) as Ho.
    unfold entry_of in Ho at 1. destruct (offer_pub r _ e _) as [pb out]. destruct Hs as (Hr' & _ & Hw' & _).
    split_and!; [done|by rewrite <- Hw|]. intros p. cbn [fst]. rewrite entry_of_set.
    by destruct (decide _).
  - pose proof (expire_step r now Hr) as Hs.
    assert (∀ p, entry_of (expire r now).1 p = entry_of r p ∨ held (entry_of (expire r now).1 p) = ∅) as He.
    { intros p. unfold expire. destruct (negb (enabled r)); [by left|].
      apply expire_entries; [apply NoDup_fst_range_map|].
      intros [q pb] Hkv%elem_of_range_map. unfold entry_of. cbn. by rewrite Hkv. }
    destruct (expire r now) as [r' out]. destruct Hs as (Hr' & _ & Hw' & _). cbn [fst] in *.
    split_and!; [done|by rewrite Hw'|]. intros p. destruct (He p) as [->|Hp]; [|by apply dated_empty].
    intros s x Hx. destruct (Hd p s x Hx). lia.
Qed.

(** nothing waits past the window: whatever was offered before, after an expiry at [now] every
    event still held was observed less than the window ago. *)
Theorem no_event_waits_past_the_window window limit r b now p e :
  clocked window limit r b → 0 < window → b ≤ now →
  e ∈ held_of (expire r now).1 p → time_Sub now (ObservedAt e) < window.
Proof.
  intros Hc Hw Hb He. destruct (clocked_ok _ _ _ _ Hc) as (Hr & Hrw & _).
  destruct (clocked_ok _ _ _ _ (clocked_expire _ _ _ _ _ Hc Hb)) as (_ & Hw' & Hd').
  apply elem_of_vals in He as [s Hs]. destruct (Hd' p s e Hs) as [Hle _].
  pose proof (expire_step r now Hr) as Hstep. destruct (expire r now) as [r' out]. cbn [fst] in *.
  destruct Hstep as (_ & _ & _ & _ & Ht). destruct (Ht ltac:(unfold enabled; apply Z.ltb_lt; lia) p) as [Hemp|Hlt].
  - by rewrite Hemp, lookup_empty in Hs.
  - unfold time_Sub in *. lia.
Qed.
End laws.

(** ** Runs *)

#[local] Existing Instance ascending_order.

Definition arrived (epoch seq : Z) (at_ : Time) : Event.t :=
  Event.mk "pub" epoch seq 0 at_ "topic" OpSet "k" "" None 0 None None.
Definition offer_at (epoch seq : Z) (at_ : Time) : input := Offer (arrived epoch seq at_) at_.
Definition seqs_released (xs : list input) : list Z :=
  Seq <$> (run (newReorderBuffer (2 * time_Second) 1024) xs).1.2.

(** the window is measured from the wrong event once the one that opened it has left: 3 waits at
    0s, 5 at 1.9s, the predecessor of 3 arrives, and at 2s the buffer gives up on the predecessor of
    5 after a tenth of a second, so 4 comes out after 5; without 3 it comes out in order. *)
Theorem window_survives_the_event_that_opened_it :
  let ms n := n * time_Millisecond in
  let late := [offer_at 1 5 (ms 1900); offer_at 1 2 (ms 1950); Expire (ms 2000)] in
  seqs_released ([offer_at 1 1 0; offer_at 1 3 0] ++ late ++ [offer_at 1 4 (ms 2050)]) = [1; 2; 3; 5; 4]
  ∧ seqs_released ([offer_at 1 1 0] ++ late ++ [offer_at 1 3 (ms 2010); offer_at 1 4 (ms 2050)])
    = [1; 2; 3; 4; 5].
Proof. by vm_compute. Qed.

(** an event of an epoch that is over takes the buffer back to it: what waits for the current
    epoch is let go at once, although the code says such an event is passed on untouched. *)
Theorem stale_epoch_flushes_the_buffer :
  seqs_released [offer_at 2 1 0; offer_at 2 3 1; offer_at 1 9 2; offer_at 2 2 3] = [1; 3; 9; 2]
  ∧ seqs_released [offer_at 2 1 0; offer_at 2 3 1; offer_at 2 2 3] = [1; 2; 3].
Proof. by vm_compute. Qed.

Lemma reorder_loses_nothing_witness :
  let '(r, out, refs) := run (newReorderBuffer time_Second 2) [offer_at 1 1 0; offer_at 1 3 0] in
  stream_of "pub" out ++ held_of r "pub" ++ stream_of "pub" refs ≡ₚ [arrived 1 1 0; arrived 1 3 0].
Proof.
  pose proof (reorder_loses_nothing time_Second 2 [offer_at 1 1 0; offer_at 1 3 0] "pub"
    ltac:(repeat constructor; vm_compute; discriminate)) as Hc.
  destruct (run _ _) as [[r out] refs]. exact (proj1 Hc).
Defined.

Lemma reorder_restores_order_witness :
  let es := [(arrived 1 7 0, 0); (arrived 1 9 1, 1); (arrived 1 8 2, 2)] in
  let '(_, out, _) := run (newReorderBuffer time_Second 10) (offers es) in
  Seq <$> stream_of "pub" out = [7; 8; 9].
Proof.
  cbv zeta. pose proof (reorder_restores_order time_Second 10
    [(arrived 1 7 0, 0); (arrived 1 9 1, 1); (arrived 1 8 2, 2)] "pub" 1 7 (arrived 1 7 0)
    [arrived 1 9 1; arrived 1 8 2] 2) as Hc.
  destruct (run _ _) as [[r out] refs]. destruct Hc as [_ Hc]; try done.
  - intros e He. apply list_elem_of_In in He. cbn in He.
    destruct He as [<-|[<-|[<-|[]]]]; vm_compute; split; discriminate.
  - intros e He. apply list_elem_of_In in He. cbn in He. by destruct He as [<-|[<-|[]]].
  - constructor.
Defined.

Lemma no_event_waits_past_the_window_witness :
  let r := (offer (newReorderBuffer time_Second 10) (arrived 1 1 0) 0).1 in
  let r' := (offer r (arrived 1 3 5) 5).1 in
  Forall (λ e, time_Sub 10 (ObservedAt e) < time_Second) (held_of (expire r' 10).1 "pub")
  ∧ length (held_of (expire r' 10).1 "pub") = 1%nat.
Proof.
  split; [|by vm_compute]. apply Forall_forall. intros e.
  apply (no_event_waits_past_the_window time_Second 10 _ 5 10 "pub"); [|done|done].
  apply (clocked_offer time_Second 10 _ 0 (arrived 1 3 5)); [|done|vm_compute; split; discriminate].
  apply (clocked_offer time_Second 10 _ 0 (arrived 1 1 0)); [|done|vm_compute; split; discriminate].
  constructor.
Defined.
