(* ===== verification/Lag.v ===== *)
(** * Lag: measuring convergence and deriving the settlement window (pkg/lag)

    adaptive.go: the ring of observations, percentiles and the controller that
    moves the window; probe.go: the rotating sample of keys and one poll;
    estimator.go: the measurements in flight and the tick that polls them. The
    store and the oracle answer through arguments; the sampler's random numbers
    are a parameter. *)
From S2P Require Import Prelude GoBase GoFloat GoStrings Event Projection Shard Oracle.
From S2P Require Import Target.

Definition defaultProbeCount : Z := 200.
Definition defaultProbeRotation : Duration := time_Minute.
Definition defaultMaxPollDelay : Duration := 60 * time_Second.
Definition defaultWindowSize : Z := 10000.
Definition defaultMinWindow : Duration := time_Second.
Definition defaultMaxWindow : Duration := 120 * time_Second.
Definition defaultSafetyFactor : float64 := float_of_Z 3.
Definition minObservations : Z := 100.
Definition hysteresisRatio : float64 := float_lit 1 5.
Definition minChangeInterval : Duration := time_Minute.
Definition basePollInterval : Duration := 10 * time_Millisecond.
Definition maxPollInterval : Duration := time_Second.

(** ** The distribution of observations *)

Record window := mkWindow {
  samples : list Duration;
  wnext : Z;
  filled : bool;
  timedOut : Z;
  total : Z
}.

Definition newWindow (size : Z) : window :=
  mkWindow (replicate (Z.to_nat (if size <=? 0 then defaultWindowSize else size)) 0) 0 false 0 0.

Definition push (w : window) (d : Duration) : window :=
  let nxt := (wnext w + 1) mod Z.of_nat (length (samples w)) in
  mkWindow (<[Z.to_nat (wnext w) := d]> (samples w)) nxt (filled w || (nxt =? 0)) (timedOut w)
    (i64 (total w + 1)).

Definition record (w : window) (d : Duration) : window := push w d.

Definition recordTimeout (w : window) (maxPollDelay : Duration) : window :=
  push (mkWindow (samples w) (wnext w) (filled w) (i64 (timedOut w + 1)) (total w)) maxPollDelay.

(** The retained observations in ascending order, the timeouts and the total. *)
Definition snapshot (w : window) : list Duration * Z * Z :=
  let n := if filled w then length (samples w) else Z.to_nat (wnext w) in
  (merge_sort (≤) (take n (samples w)), timedOut w, total w).

Definition nearly_one : float64 := float_lit 999999 1000000.

(** The index the nearest-rank percentile takes of [n] observations, before it is clamped. *)
Definition rank_of `{FloatOverflow} (p : float64) (n : Z) : Z :=
  int64_of_float (float_add (float_mul p (float_of_Z n)) nearly_one) - 1.

Definition percentile `{FloatOverflow} (sorted : list Duration) (p : float64) : Duration :=
  match sorted with
  | [] => 0
  | _ =>
      let n := Z.of_nat (length sorted) in
      let rank := rank_of p n in
      let rank := if rank <? 0 then 0 else rank in
      let rank := if rank >=? n then n - 1 else rank in
      default 0 (sorted !! Z.to_nat rank)
  end.

(** ** The controller *)

Record controller := mkController {
  minWindow : Duration;
  maxWindow : Duration;
  safetyFactor : float64;
  current : Duration;
  lastChangeAt : Time;
  changes : Z;
  clamped : bool;
  adaptive : bool
}.

Definition with_current (c : controller) (d : Duration) (at_ : Time) (n : Z) (cl ad : bool) : controller :=
  mkController (minWindow c) (maxWindow c) (safetyFactor c) d at_ n cl ad.

(** The window the distribution asks for, within the bounds, and whether the ceiling cut it. *)
Definition wanted `{FloatOverflow} (c : controller) (sorted : list Duration) : Duration * bool :=
  let p99 := percentile sorted (float_lit 99 100) in
  let want := int64_of_float (float_mul (float_of_Z p99) (safetyFactor c)) in
  if want <? minWindow c then (minWindow c, false)
  else if want >? maxWindow c then (maxWindow c, true)
  else (want, false).

Definition float_abs_lt0 (f : float64) : float64 := if SFltb f (S754_zero false) then SFopp f else f.

(** How far the window wanted is from the current one, relative to the current one. *)
Definition relative_change (want current : Duration) : float64 :=
  float_abs_lt0 (float_div (float_of_Z (i64 (want - current))) (float_of_Z current)).

Definition decide_window `{FloatOverflow} (c : controller) (sorted : list Duration) (observations : Z)
    (now : Time) : controller * (Duration * bool) :=
  if observations <? minObservations then
    if current c =? 0 then
      (with_current c (minWindow c) (lastChangeAt c) (changes c) (clamped c) false, (minWindow c, true))
    else (with_current c (current c) (lastChangeAt c) (changes c) (clamped c) false, (current c, false))
  else
    let '(want, cl) := wanted c sorted in
    let c := with_current c (current c) (lastChangeAt c) (changes c) cl true in
    let moved := with_current c want now (i64 (changes c + 1)) cl true in
    if current c =? 0 then (moved, (want, true))
    else if want =? current c then (c, (current c, false))
    else if SFleb (relative_change want (current c)) hysteresisRatio then (c, (current c, false))
    else if negb (IsZero (lastChangeAt c)) && (time_Sub now (lastChangeAt c) <? minChangeInterval) then
      (c, (current c, false))
    else (moved, (want, true)).

Definition state (c : controller) : Duration * bool * bool * Z :=
  (current c, adaptive c, clamped c, changes c).

(** ** The sample of keys *)

(** The random numbers of a seeded source: the n-th draw from [0, bound). *)
Class Rand := {
  Intn : Z → nat → Z → Z;
  Intn_range : ∀ seed n bound, 0 < bound → 0 ≤ Intn seed n bound < bound
}.

Record probeSet := mkProbes {
  seed : Z;
  draws : nat;
  capacity : Z;
  keys : list string;
  index : gset string;
  seen : Z;
  rotatedAt : Time;
  rotations : Z
}.

Definition newProbeSet (cap seed : Z) : probeSet :=
  mkProbes seed 0 (if cap <=? 0 then defaultProbeCount else cap) [] ∅ 0 zero_time 0.

Definition probe_offer `{Rand} (p : probeSet) (key : string) : probeSet :=
  if decide (key ∈ index p) then p
  else
    let seen' := i64 (seen p + 1) in
    if Z.of_nat (length (keys p)) <? capacity p then
      mkProbes (seed p) (draws p) (capacity p) (keys p ++ [key]) ({[key]} ∪ index p) seen'
        (rotatedAt p) (rotations p)
    else
      let j := Intn (seed p) (draws p) seen' in
      if j <? capacity p then
        let old := default "" (keys p !! Z.to_nat j) in
        mkProbes (seed p) (S (draws p)) (capacity p) (<[Z.to_nat j := key]> (keys p))
          ({[key]} ∪ (index p ∖ {[old]})) seen' (rotatedAt p) (rotations p)
      else
        mkProbes (seed p) (S (draws p)) (capacity p) (keys p) (index p) seen' (rotatedAt p) (rotations p).

Definition contains (p : probeSet) (key : string) : bool := bool_decide (key ∈ index p).

Definition rotateIfDue (p : probeSet) (now : Time) (every : Duration) : probeSet * bool :=
  if IsZero (rotatedAt p) then
    (mkProbes (seed p) (draws p) (capacity p) (keys p) (index p) (seen p) now (rotations p), false)
  else if time_Sub now (rotatedAt p) <? every then (p, false)
  else (mkProbes (seed p) (draws p) (capacity p) [] ∅ 0 now (i64 (rotations p + 1)), true).

Definition probe_size (p : probeSet) : Z := Z.of_nat (length (keys p)).

(** ** The estimator *)

Record Config := mkConfig {
  LShape : Shape;
  ProbeCount : Z;
  ProbeRotation : Duration;
  MaxPollDelay : Duration;
  WindowSize : Z;
  MinWindow : Duration;
  MaxWindow : Duration;
  SafetyFactor : float64;
  Static : option Duration;
  Seed : Z
}.

Definition applyDefaults (c : Config) : Config :=
  let minW := if MinWindow c <=? 0 then defaultMinWindow else MinWindow c in
  let maxW := if MaxWindow c <=? 0 then defaultMaxWindow else MaxWindow c in
  mkConfig (LShape c)
    (if ProbeCount c <=? 0 then defaultProbeCount else ProbeCount c)
    (if ProbeRotation c <=? 0 then defaultProbeRotation else ProbeRotation c)
    (if MaxPollDelay c <=? 0 then defaultMaxPollDelay else MaxPollDelay c)
    (if WindowSize c <=? 0 then defaultWindowSize else WindowSize c)
    minW (if maxW <? minW then minW else maxW)
    (if SFleb (SafetyFactor c) (S754_zero false) then defaultSafetyFactor else SafetyFactor c)
    (Static c) (Seed c).

(** A measurement in flight. [pid] stands for the address of the allocation: two measurements of one
    key are different objects. *)
Record pending := mkPending {
  pid : nat;
  pkey : string;
  pversion : Z;
  expected : Value;
  startedAt : Time;
  nextPollAt : Time;
  interval : Duration
}.

Record Estimator := mkEstimator {
  lcfg : Config;
  probes : probeSet;
  win : window;
  ctrl : controller;
  lwindow : Duration;
  in_flight : gmap string pending;
  next_pid : nat;
  abandoned : Z;
  polls : Z
}.

Definition New (clock_now : Time) (c : Config) : Estimator :=
  let c := applyDefaults c in
  let seed := if Seed c =? 0 then UnixNano clock_now else Seed c in
  mkEstimator c (newProbeSet (ProbeCount c) seed) (newWindow (WindowSize c))
    (mkController (MinWindow c) (MaxWindow c) (SafetyFactor c) 0 zero_time 0 false false)
    (match Static c with Some d => d | None => MinWindow c end) ∅ 0 0 0.

Definition SettlementWindow (e : Estimator) : Duration := lwindow e.

Definition set_probes (e : Estimator) (p : probeSet) : Estimator :=
  mkEstimator (lcfg e) p (win e) (ctrl e) (lwindow e) (in_flight e) (next_pid e) (abandoned e) (polls e).
Definition set_flight (e : Estimator) (m : gmap string pending) : Estimator :=
  mkEstimator (lcfg e) (probes e) (win e) (ctrl e) (lwindow e) m (next_pid e) (abandoned e) (polls e).
Definition set_win (e : Estimator) (w : window) : Estimator :=
  mkEstimator (lcfg e) (probes e) w (ctrl e) (lwindow e) (in_flight e) (next_pid e) (abandoned e) (polls e).
Definition set_abandoned (e : Estimator) (n : Z) : Estimator :=
  mkEstimator (lcfg e) (probes e) (win e) (ctrl e) (lwindow e) (in_flight e) (next_pid e) n (polls e).
Definition set_polls (e : Estimator) (n : Z) : Estimator :=
  mkEstimator (lcfg e) (probes e) (win e) (ctrl e) (lwindow e) (in_flight e) (next_pid e) (abandoned e) n.
Definition set_control (e : Estimator) (c : controller) (w : Duration) : Estimator :=
  mkEstimator (lcfg e) (probes e) (win e) c w (in_flight e) (next_pid e) (abandoned e) (polls e).

Definition OfferKey `{Rand} (e : Estimator) (key : string) : Estimator :=
  set_probes e (probe_offer (probes e) key).

Definition IsProbe (e : Estimator) (key : string) : bool := contains (probes e) key.

Definition Observe `{XXHash} (clock_now : Time) (o : Oracle) (e : Estimator) (key : string)
    (version : Z) (at_ : Time) : Estimator :=
  if negb (contains (probes e) key) then e
  else
    match Get clock_now o key with
    | None => e
    | Some entry =>
        if negb (Shard.Version entry =? version) then e
        else
          mkEstimator (lcfg e) (probes e) (win e) (ctrl e) (lwindow e)
            (<[key := mkPending (next_pid e) key version (EntValue entry) at_
                        (time_Add at_ basePollInterval) basePollInterval]> (in_flight e))
            (S (next_pid e)) (abandoned e) (polls e)
    end.

Definition PendingCount (e : Estimator) : Z := Z.of_nat (size (in_flight e)).

Inductive pollOutcome := pollPending (interval : Duration) (next : Time) | pollConverged | pollTimedOut | pollAbandoned.

(** One poll: the version the oracle shows and the store's answer decide it. A measurement that goes
    on gets its next interval and poll time, which the code writes into the object. *)
Definition poll (maxPollDelay : Duration) (version : option Z) (read : Read) (p : pending) (now : Time)
    : pollOutcome :=
  if negb (bool_decide (version = Some (pversion p))) then pollAbandoned
  else
    let waiting :=
      if time_Sub now (startedAt p) >=? maxPollDelay then pollTimedOut
      else
        let i := i64 (interval p * 2) in
        let i := if i >? maxPollInterval then maxPollInterval else i in
        pollPending i (time_Add now i) in
    match ReadErr read with
    | None => if Value_Equal (expected p) (ReadValue read) then pollConverged else waiting
    | Some (WrongTypeError _) => pollAbandoned
    | Some TransportError => waiting
    end.

Definition remove (e : Estimator) (key : string) : Estimator := set_flight e (delete key (in_flight e)).

(** The object [p] is written to; it is seen in the map as long as the map still holds it. *)
Definition reschedule (e : Estimator) (p : pending) (i : Duration) (next : Time) : Estimator :=
  match in_flight e !! pkey p with
  | Some q =>
      if (pid q =? pid p)%nat then
        set_flight e (<[pkey p := mkPending (pid p) (pkey p) (pversion p) (expected p) (startedAt p) next i]>
                        (in_flight e))
      else e
  | None => e
  end.

(** One round of the loop of [pollDue], for the measurement [p] collected before. *)
Definition poll_one (e : Estimator) (p : pending) (version : option Z) (read : Read) (now : Time)
    : Estimator :=
  let e := set_polls e (i64 (polls e + 1)) in
  match poll (MaxPollDelay (lcfg e)) version read p now with
  | pollConverged => remove (set_win e (record (win e) (time_Sub now (startedAt p)))) (pkey p)
  | pollTimedOut => remove (set_win e (recordTimeout (win e) (MaxPollDelay (lcfg e)))) (pkey p)
  | pollAbandoned => remove (set_abandoned e (i64 (abandoned e + 1))) (pkey p)
  | pollPending i next => reschedule e p i next
  end.

Definition collect_due `{MapOrder} (e : Estimator) (now : Time) : list pending :=
  filter (λ p, After (nextPollAt p) now = false) (range_map (in_flight e)).*2.

(** What the i-th poll of a round meets: whether the context is done, the oracle's version of the key
    and the store's answer for it. *)
Record answer := mkAnswer { done_ : bool; version_of : string → option Z; read_of : string → Read }.

Fixpoint poll_all (e : Estimator) (due : list pending) (answers : nat → answer) (i : nat) (now : Time)
    : Estimator :=
  match due with
  | [] => e
  | p :: due =>
      if done_ (answers i) then e
      else
        poll_all (poll_one e p (version_of (answers i) (pkey p)) (read_of (answers i) (pkey p)) now)
          due answers (S i) now
  end.

Definition pollDue `{MapOrder} (e : Estimator) (answers : nat → answer) (now : Time) : Estimator :=
  poll_all e (collect_due e now) answers 0 now.

Definition dropNonProbes (e : Estimator) : Estimator :=
  set_flight e (filter (λ kv, contains (probes e) kv.1 = true) (in_flight e)).

(** The change handed to OnWindowChange, when there is one. *)
Definition Recompute `{FloatOverflow} (e : Estimator) (now : Time) : Estimator * option (Duration * Duration) :=
  let '(sorted, _, _) := snapshot (win e) in
  match Static (lcfg e) with
  | Some _ => (e, None)
  | None =>
      let old := lwindow e in
      let '(c, (next, changed)) := decide_window (ctrl e) sorted (Z.of_nat (length sorted)) now in
      if negb changed || (next =? old) then (set_control e c old, None)
      else (set_control e c next, Some (old, next))
  end.

Definition Tick `{MapOrder} `{FloatOverflow} (e : Estimator) (answers : nat → answer) (now : Time)
    : Estimator * option (Duration * Duration) :=
  let e := pollDue e answers now in
  let '(p, rotated) := rotateIfDue (probes e) now (ProbeRotation (lcfg e)) in
  let e := set_probes e p in
  Recompute (if rotated then dropNonProbes e else e) now.

Record Stats := mkStats {
  P50 : Duration; P90 : Duration; P99 : Duration; SMax : Duration;
  Observations : Z; STimedOut : Z; CurrentWindow : Duration;
  Adaptive : bool; Clamped : bool; Changes : Z
}.

Definition Stats_ `{FloatOverflow} (e : Estimator) : Stats :=
  let '(sorted, timedOut, _) := snapshot (win e) in
  let '(_, adaptive, clamped, changes) := state (ctrl e) in
  mkStats (percentile sorted (float_lit 1 2)) (percentile sorted (float_lit 9 10))
    (percentile sorted (float_lit 99 100)) (default 0 (last sorted)) (Z.of_nat (length sorted)) timedOut
    (lwindow e) (adaptive && negb (bool_decide (is_Some (Static (lcfg e))))) clamped changes.

(** ** The ring of observations *)

(** [w] has seen the observations [l] and holds the last of them. *)
Record window_ok (size : nat) (w : window) (l : list Duration) : Prop := mk_window_ok {
  wo_size : length (samples w) = size;
  wo_next : 0 ≤ wnext w < Z.of_nat size;
  wo_filled : if filled w then last_n size l = drop (Z.to_nat (wnext w)) (samples w)
                ++ take (Z.to_nat (wnext w)) (samples w) ∧ (size ≤ length l)%nat
              else take (Z.to_nat (wnext w)) (samples w) = l
}.

Lemma newWindow_ok n : 0 < n → window_ok (Z.to_nat n) (newWindow n) [].
Proof.
  intros Hn. unfold newWindow. destruct (Z.leb_spec n 0); [lia|].
  constructor; cbn; [apply length_replicate|lia|done].
Qed.

Lemma window_push_ok size w l d : window_ok size w l → window_ok size (push w d) (l ++ [d]).
Proof.
  intros [Hs Hn Hf]. unfold push. set (n := Z.to_nat (wnext w)) in *.
  assert ((wnext w + 1) mod Z.of_nat (length (samples w))
    = Z.of_nat ((n + 1) mod length (samples w))%nat) as Hnext.
  { unfold n. rewrite Nat2Z.inj_mod. f_equal. lia. }
  rewrite Hnext. assert (n < length (samples w))%nat as Hlt by lia.
  pose proof (Nat.mod_upper_bound (n + 1) (length (samples w)) ltac:(lia)) as Hub.
  constructor; cbn [samples wnext filled]; rewrite ?length_insert, ?Nat2Z.id; [done|lia|].
  destruct (filled w) eqn:Hfl; cbn [orb].
  - destruct Hf as [Hf Hlen]. split; [|rewrite length_app; cbn; lia].
    rewrite rotate_insert by done. rewrite last_n_snoc by lia.
    rewrite length_last_n, Hf. by replace (size `min` length l + 1 - size)%nat with 1%nat by lia.
  - assert (length l = n) as Hl by (rewrite <- Hf, length_take; lia).
    assert (take (S n) (<[n:=d]> (samples w)) = l ++ [d]) as Htake.
    { erewrite take_S_r by (apply list_lookup_insert_eq; lia). by rewrite take_insert_ge, Hf by lia. }
    destruct (decide (n + 1 = length (samples w))%nat) as [Hw|Hw].
    + rewrite Hw, Nat.Div0.mod_same. cbn [Z.of_nat Z.eqb]. rewrite drop_0, take_0, app_nil_r.
      split; [|rewrite length_app; cbn; lia]. unfold last_n. rewrite length_app, Hl. cbn.
      replace (n + 1 - size)%nat with 0%nat by lia. rewrite drop_0, <- Htake.
      apply take_ge. rewrite length_insert. lia.
    + rewrite Nat.mod_small by lia. destruct (Z.eqb_spec (Z.of_nat (n + 1)) 0); [lia|].
      rewrite <- Htake. f_equal. lia.
Qed.

(** The retained observations, before they are sorted. *)
Lemma snapshot_perm size w l : window_ok size w l → (snapshot w).1.1 ≡ₚ last_n size l.
Proof.
  intros [Hs Hn Hf]. unfold snapshot. cbn. rewrite merge_sort_Permutation. destruct (filled w).
  - destruct Hf as [-> _]. rewrite take_ge by lia. rewrite Permutation_app_comm. by rewrite take_drop.
  - assert (length l < size)%nat by (rewrite <- Hf, length_take; lia). rewrite Hf. unfold last_n.
    by replace (length l - size)%nat with 0%nat by lia.
Qed.

Lemma snapshot_sorted w : StronglySorted (≤) (snapshot w).1.1.
Proof. apply StronglySorted_merge_sort; red; lia. Qed.

(** ** Percentiles *)

Section percentiles.
Context `{FloatOverflow}.

(** The float arithmetic of the code computes the nearest rank, [⌈99n/100⌉ - 1], exactly: checked for
    every number of observations up to a thousand. *)
Definition rank_exact (n : nat) : bool :=
  rank_of (float_lit 99 100) (Z.of_nat n) =? (99 * Z.of_nat n + 99) / 100 - 1.

Definition checked_observations : Z := 1000.

Lemma ranks_exact : forallb rank_exact (seq 1 (Z.to_nat checked_observations)) = true.
Proof. vm_compute. reflexivity. Qed.

Lemma rank_of_p99 n :
  0 < n ≤ checked_observations → rank_of (float_lit 99 100) n = (99 * n + 99) / 100 - 1.
Proof.
  intros Hn. pose proof ranks_exact as Hall. rewrite forallb_forall in Hall.
  specialize (Hall (Z.to_nat n)). unfold rank_exact in Hall. rewrite Z2Nat.id in Hall by lia.
  apply Z.eqb_eq, Hall, in_seq. lia.
Qed.

Lemma percentile_p99 l :
  l ≠ [] → Z.of_nat (length l) ≤ checked_observations →
  percentile l (float_lit 99 100) = default 0 (l !! Z.to_nat ((99 * Z.of_nat (length l) + 99) / 100 - 1)).
Proof.
  intros Hl Hlen. unfold percentile. destruct l as [|x l]; [done|]. remember (x :: l) as l' eqn:Hl'.
  assert (0 < Z.of_nat (length l')) by (subst; cbn; lia). rewrite rank_of_p99 by lia.
  set (n := Z.of_nat (length l')) in *.
  assert (0 ≤ (99 * n + 99) / 100 - 1 < n) as [? ?].
  { pose proof (Z.div_mod (99 * n + 99) 100 ltac:(lia)). pose proof (Z.mod_pos_bound (99 * n + 99) 100 ltac:(lia)). lia. }
  cbv zeta. destruct (Z.ltb_spec ((99 * n + 99) / 100 - 1) 0); [lia|].
  destruct (Z.geb_spec ((99 * n + 99) / 100 - 1) n); [lia|done].
Qed.

(** In an ascending list bounded by [D], the positions from [length - count of D] on hold [D]. *)
Lemma sorted_tail (D : Z) l :
  StronglySorted (≤) l → (∀ x, x ∈ l → x ≤ D) →
  ∀ i, (length l - length (filter (λ x, x = D) l) ≤ i < length l)%nat → l !! i = Some D.
Proof.
  induction 1 as [|x l Hs IH Hall]; intros HD i Hi; [cbn in Hi; lia|].
  assert (∀ y, y ∈ l → y ≤ D) as HD' by (intros y Hy; apply HD; by right).
  destruct (decide (x = D)) as [->|Hx].
  - assert (∀ y, y ∈ D :: l → y = D) as Heq.
    { intros y [->|Hy]%elem_of_cons; [done|]. rewrite Forall_forall in Hall. specialize (Hall y Hy).
      specialize (HD' y Hy). lia. }
    destruct (lookup_lt_is_Some_2 (D :: l) i ltac:(lia)) as [y Hy]. rewrite Hy. f_equal. apply Heq.
    apply list_elem_of_lookup. eauto.
  - rewrite filter_cons_False in Hi by done. cbn in Hi.
    pose proof (length_filter (λ x, x = D) l). destruct i as [|i]; [lia|]. cbn. apply IH; [done|]. lia.
Qed.

(** the slow tail is not thrown away: when more than one in a hundred of the retained observations
    are probes that timed out, and nothing measured longer, the 99th percentile is the deadline they
    were recorded at. *)
Theorem timeouts_set_the_p99 size w l D :
  window_ok size w l → (0 < size)%nat → Z.of_nat size ≤ checked_observations → l ≠ [] →
  (∀ d, d ∈ last_n size l → d ≤ D) →
  Z.of_nat (length (last_n size l)) < 100 * Z.of_nat (length (filter (λ d, d = D) (last_n size l))) →
  percentile (snapshot w).1.1 (float_lit 99 100) = D.
Proof.
  intros Hw Hsize Hmax Hl HD Hcount. pose proof (snapshot_perm _ _ _ Hw) as Hp.
  pose proof (snapshot_sorted w) as Hs. set (s := (snapshot w).1.1) in *. clearbody s.
  assert (0 < length s)%nat as Hlen.
  { rewrite Hp, length_last_n. destruct l; [done|]. cbn. lia. }
  rewrite percentile_p99.
  - rewrite (sorted_tail D); [done|done| |].
    + intros x Hx. apply HD. by rewrite <- Hp.
    + rewrite <- Hp in Hcount.
      pose proof (Z.div_mod (99 * Z.of_nat (length s) + 99) 100 ltac:(lia)).
      pose proof (Z.mod_pos_bound (99 * Z.of_nat (length s) + 99) 100 ltac:(lia)). lia.
  - intros ->. cbn in Hlen. lia.
  - rewrite Hp, length_last_n. lia.
Qed.
End percentiles.
