(* ===== verification/LagSteps.v ===== *)
(** * LagSteps: the estimator as two goroutines, and what holds in every state they reach

    The applier offers keys and starts measurements ([OfferKey], [Observe]) while the estimator's
    own goroutine works through a poll round, rotates the sample and recomputes the window. A step
    is one critical section of either; [round] is what is left of the poll round's list of due
    objects. *)
From S2P Require Import Prelude GoBase GoFloat GoStrings Event Projection Shard Oracle.
From S2P Require Import Target Lag.

Record system := mkSystem { est : Estimator; round : list pending; round_now : Time }.

Section steps.
Context `{XXHash} `{MapOrder} `{FloatOverflow} `{Rand}.

Inductive lag_step : system → system → Prop :=
  | step_offer s key :
      lag_step s (mkSystem (OfferKey (est s) key) (round s) (round_now s))
  | step_observe s clk o key version at_ :
      lag_step s (mkSystem (Observe clk o (est s) key version at_) (round s) (round_now s))
  | step_collect e t now :
      lag_step (mkSystem e [] t) (mkSystem e (collect_due e now) now)
  | step_poll e p due now version read :
      lag_step (mkSystem e (p :: due) now) (mkSystem (poll_one e p version read now) due now)
  | step_cancelled e due now :
      lag_step (mkSystem e due now) (mkSystem e [] now)
  | step_rotate e now every t :
      lag_step (mkSystem e [] t)
        (mkSystem (set_probes e (rotateIfDue (probes e) now every).1) [] t)
  | step_drop e t :
      lag_step (mkSystem e [] t) (mkSystem (dropNonProbes e) [] t)
  | step_recompute e now t :
      lag_step (mkSystem e [] t) (mkSystem (Recompute e now).1 [] t).

Definition lag_start (now : Time) (c : Config) : system := mkSystem (New now c) [] 0.

Definition lag_reachable (c : Config) (s : system) : Prop := ∃ now, rtc lag_step (lag_start now c) s.

(** ** The sequential tick is made of these steps *)

Lemma poll_all_steps due : ∀ e answers i now,
  rtc lag_step (mkSystem e due now) (mkSystem (poll_all e due answers i now) [] now).
Proof.
  induction due as [|p due IH]; intros e answers i now; cbn [poll_all]; [done|].
  destruct (done_ (answers i)); [apply rtc_once, step_cancelled|].
  eapply rtc_l; [apply step_poll|apply IH].
Qed.

Lemma tick_steps e answers now t :
  rtc lag_step (mkSystem e [] t) (mkSystem (Tick e answers now).1 [] now).
Proof.
  unfold Tick. eapply rtc_l; [apply (step_collect e t now)|].
  etrans; [apply (poll_all_steps _ _ answers 0)|]. fold (pollDue e answers now).
  set (e1 := pollDue e answers now). clearbody e1.
  destruct (rotateIfDue (probes e1) now (ProbeRotation (lcfg e1))) as [p rotated] eqn:Hr.
  eapply rtc_l; [apply (step_rotate e1 now (ProbeRotation (lcfg e1)) now)|]. rewrite Hr. cbn [fst].
  destruct rotated; [eapply rtc_l; [apply step_drop|]|]; apply rtc_once, step_recompute.
Qed.

Lemma reachable_tick c e answers now t :
  lag_reachable c (mkSystem e [] t) → lag_reachable c (mkSystem (Tick e answers now).1 [] now).
Proof. intros [n Hn]. exists n. etrans; [exact Hn|apply tick_steps]. Qed.

(** ** The control state *)

Definition window_bounds (c : Config) (w : Duration) : Prop := MinWindow c ≤ w ≤ MaxWindow c.

(** The controller works within the configuration and the window readers see is the controller's. *)
Record control_ok (c : Config) (e : Estimator) : Prop := mk_control_ok {
  co_cfg : lcfg e = c;
  co_min : minWindow (ctrl e) = MinWindow c;
  co_max : maxWindow (ctrl e) = MaxWindow c;
  co_current : current (ctrl e) = 0 ∨ window_bounds c (current (ctrl e));
  co_window : lwindow e = match Static c with
                          | Some d => d
                          | None => if current (ctrl e) =? 0 then MinWindow c else current (ctrl e)
                          end
}.

Lemma applyDefaults_bounds c :
  0 < MinWindow (applyDefaults c) ≤ MaxWindow (applyDefaults c) ∧ 0 < MaxPollDelay (applyDefaults c).
Proof.
  unfold applyDefaults, defaultMinWindow, defaultMaxWindow, defaultMaxPollDelay, time_Second. cbn.
  repeat match goal with |- context [if ?b then _ else _] => destruct b eqn:? end; zbool; lia.
Qed.

(** The operations that leave the control state alone. *)
Lemma control_same c e e' :
  lcfg e' = lcfg e → ctrl e' = ctrl e → lwindow e' = lwindow e → control_ok c e → control_ok c e'.
Proof. intros E1 E2 E3 [? ? ? ? ?]. constructor; rewrite ?E1, ?E2, ?E3; done. Qed.

(** What one decision of the controller can do. *)
Lemma decide_cases c sorted n now :
  minWindow c ≤ maxWindow c → 0 < minWindow c →
  (current c = 0 ∨ minWindow c ≤ current c ≤ maxWindow c) →
  let '(c', (next, changed)) := decide_window c sorted n now in
  minWindow c' = minWindow c ∧ maxWindow c' = maxWindow c
  ∧ (if changed
     then current c = 0 ∧ n < minObservations ∧ next = minWindow c ∧ current c' = next
        ∧ lastChangeAt c' = lastChangeAt c
       ∨ minObservations ≤ n ∧ next = (wanted c sorted).1 ∧ current c' = next ∧ lastChangeAt c' = now
         ∧ minWindow c ≤ next ≤ maxWindow c
         ∧ (current c = 0
            ∨ next ≠ current c ∧ SFleb (relative_change next (current c)) hysteresisRatio = false
              ∧ (lastChangeAt c = zero_time ∨ minChangeInterval ≤ time_Sub now (lastChangeAt c)))
     else current c ≠ 0 ∧ current c' = current c ∧ next = current c ∧ lastChangeAt c' = lastChangeAt c).
Proof.
  intros Hm Hpos Hcur. unfold decide_window. destruct (Z.ltb_spec n minObservations).
  { destruct (Z.eqb_spec (current c) 0); cbn; split_and!; try done. left. split_and!; done. }
  pose proof (eq_refl : (wanted c sorted) = wanted c sorted) as Hw. unfold wanted in Hw at 2.
  cbv zeta in Hw. destruct (wanted c sorted) as [want cl] eqn:Hwant.
  assert (minWindow c ≤ want ≤ maxWindow c) as Hb.
  { revert Hw. repeat case_match; intros [= -> ->]; zbool; lia. }
  assert (want ≠ 0) as Hwz by lia. clear Hw.
  cbv zeta. cbn [current with_current lastChangeAt changes].
  destruct (Z.eqb_spec (current c) 0) as [Hc0|Hc0].
  { cbn. split_and!; try done. right. split_and!; auto; lia. }
  destruct (Z.eqb_spec want (current c)); [cbn; by split_and!|].
  destruct (SFleb _ _) eqn:Hh; [cbn; by split_and!|].
  destruct (IsZero (lastChangeAt c)) eqn:Hz; unfold IsZero in Hz; zbool; cbn [negb andb].
  { cbn. split_and!; try done. right. split_and!; auto; lia. }
  destruct (Z.ltb_spec (time_Sub now (lastChangeAt c)) minChangeInterval); cbn; split_and!; try done.
  right. split_and!; auto; lia.
Qed.

Lemma control_recompute c e now :
  0 < MinWindow c ≤ MaxWindow c → control_ok c e → control_ok c (Recompute e now).1.
Proof.
  intros Hb Hok. unfold Recompute. destruct (snapshot (win e)) as [[sorted to] tot].
  destruct Hok as [Hcfg Hmin Hmax Hcur Hwin]. rewrite Hcfg. destruct (Static c) as [d|] eqn:Hst.
  { cbn. constructor; try done. by rewrite Hst. }
  pose proof (decide_cases (ctrl e) sorted (Z.of_nat (length sorted)) now) as Hd.
  unfold window_bounds in Hcur. rewrite Hmin, Hmax in Hd. specialize (Hd ltac:(lia) ltac:(lia) Hcur).
  destruct (decide_window (ctrl e) sorted _ now) as [k [next changed]]. destruct Hd as (Hkmin & Hkmax & Hd).
  assert (control_ok c (set_control e k (if changed then next else lwindow e))) as Hall.
  { destruct changed.
    - assert (current k = next ∧ 0 < next ∧ window_bounds c next) as (Hk & Hpos & Hnb).
      { unfold window_bounds. destruct Hd as [(_ & _ & ? & ? & _)|(_ & _ & ? & _ & ? & _)]; lia. }
      constructor; cbn; try done; [right; by rewrite Hk|]. rewrite Hst.
      destruct (Z.eqb_spec (current k) 0); lia.
    - destruct Hd as (Hnz & Hk & _ & _). constructor; cbn; try done; [rewrite Hk; by right; destruct Hcur|].
      by rewrite Hst, Hk. }
  destruct changed; cbn [negb orb]; [|exact Hall].
  destruct (Z.eqb_spec next (lwindow e)) as [Heq|Hne]; [|exact Hall]. by rewrite <- Heq.
Qed.

Lemma control_step c s s' :
  0 < MinWindow c ≤ MaxWindow c → lag_step s s' → control_ok c (est s) → control_ok c (est s').
Proof.
  intros Hb Hs Hok. destruct Hs; cbn [est] in *; try exact Hok.
  - by apply (control_same c (est s)).
  - apply (control_same c (est s)); [..|done]; unfold Observe; by repeat case_match.
  - apply (control_same c e); [..|done]; unfold poll_one, reschedule; by repeat case_match.
  - by apply (control_same c e).
  - by apply (control_same c e).
  - by apply control_recompute.
Qed.

Lemma control_reachable c s : lag_reachable c s → control_ok (applyDefaults c) (est s).
Proof.
  intros [now Hr]. pose proof (applyDefaults_bounds c) as [Hb _]. remember (lag_start now c) as s0 eqn:Hs0.
  assert (control_ok (applyDefaults c) (est s0)) as Hok.
  { subst. constructor; cbn [est lag_start New ctrl current]; try done; by left. }
  clear Hs0. induction Hr as [s|s1 s2 s3 Hs _ IH]; [done|]. by apply IH, (control_step _ s1).
Qed.

(** the settlement window never leaves its bounds: whatever the applier and the estimator's loop
    do in any order, the window a reader sees is between the configured minimum and maximum, and it is
    exactly the configured one when the window is static. *)
Theorem window_stays_in_bounds c s :
  lag_reachable c s →
  match Static (applyDefaults c) with
  | Some d => SettlementWindow (est s) = d
  | None => MinWindow (applyDefaults c) ≤ SettlementWindow (est s) ≤ MaxWindow (applyDefaults c)
  end.
Proof.
  intros [_ _ _ Hcur Hwin]%control_reachable. pose proof (applyDefaults_bounds c) as [Hb _].
  unfold SettlementWindow. rewrite Hwin. unfold window_bounds in Hcur. case_match; [done|].
  destruct (Z.eqb_spec (current (ctrl (est s))) 0); lia.
Qed.

(** the window moves on evidence only: a recomputation that reports a change has at least a hundred
    retained observations, takes its value from the
    distribution, and is either the first choice or more than a fifth away from the current window and
    at least a minute after the last change; the moment is remembered for the next one. *)
Theorem window_moves_only_on_evidence c s now old new_ :
  lag_reachable c s → (Recompute (est s) now).2 = Some (old, new_) →
  let sorted := (snapshot (win (est s))).1.1 in
  let before := ctrl (est s) in
  let e' := (Recompute (est s) now).1 in
  old = SettlementWindow (est s) ∧ new_ = SettlementWindow e' ∧ old ≠ new_
  ∧ minObservations ≤ Z.of_nat (length sorted)
  ∧ new_ = (wanted before sorted).1
  ∧ lastChangeAt (ctrl e') = now
  ∧ (current before = 0
     ∨ SFleb (relative_change new_ old) hysteresisRatio = false
       ∧ (lastChangeAt before = zero_time ∨ minChangeInterval ≤ time_Sub now (lastChangeAt before))).
Proof.
  intros [Hcfg Hmin Hmax Hcur Hwin]%control_reachable Hr. pose proof (applyDefaults_bounds c) as [Hb _].
  revert Hr. unfold Recompute, SettlementWindow. destruct (snapshot (win (est s))) as [[sorted to] tot].
  cbn [fst snd]. rewrite Hcfg. destruct (Static (applyDefaults c)) as [d|] eqn:Hst; [done|].
  pose proof (decide_cases (ctrl (est s)) sorted (Z.of_nat (length sorted)) now) as Hd.
  unfold window_bounds in Hcur. rewrite Hmin, Hmax in Hd. specialize (Hd ltac:(lia) ltac:(lia) Hcur).
  destruct (decide_window (ctrl (est s)) sorted _ now) as [k [next changed]]. destruct Hd as (_ & _ & Hd).
  destruct changed; cbn [negb orb]; [|done].
  destruct (Z.eqb_spec next (lwindow (est s))) as [Heq|Hne]; [done|]. intros [= <- <-].
  cbn [set_control lwindow ctrl fst]. destruct Hd as [(H0c & _ & Hnext & _)|(Hn & Hnext & _ & Hl & _ & Hmove)].
  - exfalso. rewrite H0c, Z.eqb_refl in Hwin. congruence.
  - split_and!; try done. destruct Hmove as [?|(_ & Hh & ?)]; [by left|].
    destruct (Z.eqb_spec (current (ctrl (est s))) 0) as [?|_]; [by left|]. right. split; [|done].
    by rewrite Hwin.
Qed.

(** ** The measurements in flight *)

(** A measurement is polled again before a poll interval past its deadline has gone by. *)
Definition pending_ok (c : Config) (p : pending) : Prop :=
  0 < interval p ≤ maxPollInterval
  ∧ nextPollAt p < startedAt p + MaxPollDelay c + maxPollInterval.

Definition flight_ok (c : Config) (m : gmap string pending) : Prop :=
  ∀ key p, m !! key = Some p → pkey p = key ∧ pending_ok c p.

Record measures_ok (c : Config) (s : system) : Prop := mk_measures_ok {
  mo_cfg : lcfg (est s) = c;
  mo_flight : flight_ok c (in_flight (est s));
  mo_round : Forall (pending_ok c) (round s)
}.

Lemma flight_delete c m k : flight_ok c m → flight_ok c (delete k m).
Proof. intros Hm key p [_ Hp]%lookup_delete_Some. eauto. Qed.

Lemma time_Sub_lt t u d : is_i64 d → time_Sub t u < d → t - u < d.
Proof. unfold time_Sub, is_i64, min_i64, max_i64. lia. Qed.

Lemma time_Sub_ge t u d : is_i64 d → d ≤ t - u → d ≤ time_Sub t u.
Proof. unfold time_Sub, is_i64, min_i64, max_i64. lia. Qed.

Lemma poll_pending D version read p now i next :
  is_i64 D → 0 < interval p ≤ maxPollInterval →
  poll D version read p now = pollPending i next →
  0 < i ≤ maxPollInterval ∧ next < startedAt p + D + maxPollInterval ∧ now < startedAt p + D.
Proof.
  intros HD Hi. unfold poll. destruct (negb _); [done|].
  assert (i64 (interval p * 2) = interval p * 2) as ->.
  { apply i64_small. unfold is_i64, min_i64, max_i64. unfold maxPollInterval, time_Second in Hi. lia. }
  set (waiting := if time_Sub _ _ >=? _ then _ else _).
  assert (waiting = pollPending i next →
    0 < i ≤ maxPollInterval ∧ next < startedAt p + D + maxPollInterval ∧ now < startedAt p + D) as Hw.
  { unfold waiting. destruct (time_Sub now (startedAt p) >=? D) eqn:Ht; [done|]. zbool.
    apply time_Sub_lt in Ht; [|done]. unfold time_Add.
    destruct (interval p * 2 >? maxPollInterval) eqn:?; zbool; intros [= <- <-]; lia. }
  repeat case_match; done.
Qed.

Lemma flight_poll c e p version read now :
  is_i64 (MaxPollDelay c) → lcfg e = c → pending_ok c p → flight_ok c (in_flight e) →
  flight_ok c (in_flight (poll_one e p version read now)).
Proof.
  intros HD Hcfg [Hi Hn] Hf. unfold poll_one. cbn [set_polls lcfg]. rewrite Hcfg.
  destruct (poll _ _ _ _ _) as [i next| | |] eqn:Hp; try by apply flight_delete.
  destruct (poll_pending _ _ _ _ _ _ _ HD Hi Hp) as (Hi' & Hn' & Hd). unfold reschedule. cbn [in_flight set_polls].
  destruct (in_flight e !! pkey p) as [q|] eqn:Hq; [|done]. destruct (pid q =? pid p)%nat; [|done].
  intros key r. cbn [in_flight set_flight]. destruct (decide (pkey p = key)) as [<-|Hne].
  - rewrite lookup_insert_eq. intros [= <-]. done.
  - rewrite lookup_insert_ne by done. apply Hf.
Qed.

Lemma collect_due_elem e now p :
  p ∈ collect_due e now ↔ (∃ key, in_flight e !! key = Some p) ∧ nextPollAt p ≤ now.
Proof.
  unfold collect_due, After. rewrite list_elem_of_filter, list_elem_of_fmap.
  rewrite Z.ltb_ge. split.
  - intros [Hn ([k v] & -> & Hk)]. rewrite elem_of_range_map in Hk. eauto.
  - intros [[k Hk] Hn]. split; [done|]. exists (k, p). split; [done|]. by apply elem_of_range_map.
Qed.

Lemma measures_step c s s' :
  is_i64 (MaxPollDelay c) → 0 < MaxPollDelay c → lag_step s s' → measures_ok c s → measures_ok c s'.
Proof.
  intros HD Hpos Hs [Hcfg Hf Hr].
  destruct Hs; cbn [est round] in *.
  - by constructor.
  - unfold Observe. destruct (negb _); [by constructor|]. destruct (Get _ _ _) as [en|]; [|by constructor].
    destruct (negb _); [by constructor|]. constructor; cbn [est round in_flight lcfg]; try done.
    intros k p. destruct (decide (key = k)) as [<-|Hne]; [rewrite lookup_insert_eq; intros [= <-]|].
    + split; [done|]. unfold pending_ok, basePollInterval, maxPollInterval, time_Add,
        time_Millisecond, time_Second. cbn. lia.
    + rewrite lookup_insert_ne by done. apply Hf.
  - constructor; cbn; try done. apply Forall_forall. intros p ([key Hk] & _)%collect_due_elem.
    by apply (Hf key).
  - inversion Hr as [|? ? Hp Hr']; subst. constructor; cbn [est round]; try done.
    + unfold poll_one, reschedule. by repeat case_match.
    + by apply flight_poll.
  - by constructor.
  - by constructor.
  - constructor; cbn; try done. intros key p [Hk _]%map_lookup_filter_Some. by apply Hf.
  - constructor; cbn [est round]; [..|done]; unfold Recompute; by repeat case_match.
Qed.

Lemma measures_reachable c s :
  is_i64 (MaxPollDelay (applyDefaults c)) → lag_reachable c s → measures_ok (applyDefaults c) s.
Proof.
  intros HD [now Hr]. pose proof (applyDefaults_bounds c) as [_ Hpos].
  remember (lag_start now c) as s0 eqn:Hs0.
  assert (measures_ok (applyDefaults c) s0) as Hok.
  { subst. constructor; cbn; [done| |done]. intros key p Hk. by rewrite lookup_empty in Hk. }
  clear Hs0. induction Hr as [s|s1 s2 s3 Hs _ IH]; [done|]. by apply IH, (measures_step _ s1).
Qed.

(** ** The end of a poll round *)

(** What a poll leaves: nothing new, and past the deadline not the measurement polled. *)
Lemma poll_one_flight e p version read now key q :
  in_flight (poll_one e p version read now) !! key = Some q →
  (key ≠ pkey p ∧ in_flight e !! key = Some q)
  ∨ key = pkey p ∧ ∃ i next, poll (MaxPollDelay (lcfg e)) version read p now = pollPending i next.
Proof.
  unfold poll_one, reschedule. cbn [set_polls lcfg in_flight].
  destruct (poll _ _ _ _ _) as [i next| | |] eqn:Hp; cbn [in_flight remove set_flight set_win set_abandoned];
    try (intros [? ?]%lookup_delete_Some; left; by split).
  intros Hq. destruct (decide (key = pkey p)) as [->|Hne]; [right; eauto|]. left. split; [done|].
  repeat case_match; cbn [in_flight set_flight] in Hq; try done. by rewrite lookup_insert_ne in Hq.
Qed.

Lemma poll_one_cfg e p version read now : lcfg (poll_one e p version read now) = lcfg e.
Proof. unfold poll_one, reschedule. by repeat case_match. Qed.

Lemma poll_all_flight D due : ∀ e answers i now key q,
  is_i64 D → MaxPollDelay (lcfg e) = D → (∀ j, done_ (answers j) = false) →
  Forall (λ p, 0 < interval p ≤ maxPollInterval) due →
  in_flight (poll_all e due answers i now) !! key = Some q →
  (∃ p, p ∈ due ∧ pkey p = key ∧ now < startedAt p + D)
  ∨ in_flight e !! key = Some q ∧ ∀ p, p ∈ due → pkey p ≠ key.
Proof.
  induction due as [|p due IH]; intros e answers i now key q HD He Hd Hall; cbn [poll_all].
  { intros Hq. right. split; [done|]. by intros p ?%elem_of_nil. }
  rewrite Hd. inversion Hall as [|? ? Hp Hall']; subst. intros Hq.
  apply IH in Hq; rewrite ?poll_one_cfg; try done.
  destruct Hq as [(p' & Hp' & Hk & Hlt)|[Hq Hno]]; [left; exists p'; set_solver|].
  destruct (poll_one_flight _ _ _ _ _ _ _ Hq) as [[Hne Hq']|[-> (j & next & Hpoll)]].
  - right. split; [done|]. intros r [->|Hr]%elem_of_cons; [done|auto].
  - left. exists p. split_and!; [set_solver|done|].
    by destruct (poll_pending _ _ _ _ _ _ _ HD Hp Hpoll) as (_ & _ & ?).
Qed.

(** A round keeps the start of every measurement it leaves. *)
Lemma poll_one_started e p version read now key q :
  (∀ r, in_flight e !! pkey p = Some r → startedAt r = startedAt p) →
  in_flight (poll_one e p version read now) !! key = Some q →
  ∃ q0, in_flight e !! key = Some q0 ∧ startedAt q = startedAt q0.
Proof.
  intros Hp. unfold poll_one, reschedule. cbn [set_polls in_flight].
  destruct (poll _ _ _ _ _) as [i next| | |]; cbn [in_flight remove set_flight set_win set_abandoned];
    try (intros [_ ?]%lookup_delete_Some; eauto; fail).
  destruct (in_flight e !! pkey p) as [r|] eqn:Hr; [|eauto]. destruct (pid r =? pid p)%nat; [|eauto].
  cbn [in_flight set_flight]. intros [[<- <-]|[_ ?]]%lookup_insert_Some; [|eauto].
  exists r. split; [done|]. cbn. symmetry. by apply Hp.
Qed.

Lemma poll_all_started due : ∀ e answers i now key q,
  (∀ p r, p ∈ due → in_flight e !! pkey p = Some r → startedAt r = startedAt p) →
  in_flight (poll_all e due answers i now) !! key = Some q →
  ∃ q0, in_flight e !! key = Some q0 ∧ startedAt q = startedAt q0.
Proof.
  induction due as [|p due IH]; intros e answers i now key q Hst; cbn [poll_all]; [eauto|].
  destruct (done_ (answers i)); [eauto|]. intros (q1 & Hq1 & ->)%IH.
  - eapply poll_one_started in Hq1; [done|]. intros r. apply Hst. by left.
  - intros p' r Hp' Hr. eapply poll_one_started in Hr as (r0 & Hr0 & ->); [|intros r1; apply Hst; by left].
    apply Hst; [by right|done].
Qed.

Lemma tick_flight e answers now :
  let e' := (Tick e answers now).1 in
  in_flight e' ⊆ in_flight (pollDue e answers now) ∧ lcfg e' = lcfg (pollDue e answers now).
Proof.
  unfold Tick. set (e1 := pollDue e answers now). destruct (rotateIfDue _ _ _) as [p rotated].
  set (e2 := if rotated then _ else _).
  assert (in_flight e2 ⊆ in_flight e1 ∧ lcfg e2 = lcfg e1) as [Hf <-].
  { unfold e2. destruct rotated; [|done]. split; [|done]. apply map_filter_subseteq. }
  unfold Recompute. split; [|by repeat case_match].
  etrans; [|exact Hf]. by repeat case_match.
Qed.

(** every measurement ends: after a tick that is not cancelled, no measurement is in flight that
    started longer ago than the poll deadline and one poll interval, whatever the store and the oracle
    answered in this round and in all rounds before. *)
Theorem every_measurement_ends c e t answers now :
  lag_reachable c (mkSystem e [] t) → is_i64 (MaxPollDelay (applyDefaults c)) →
  (∀ j, done_ (answers j) = false) →
  ∀ key p, in_flight (Tick e answers now).1 !! key = Some p →
  now < startedAt p + MaxPollDelay (applyDefaults c) + maxPollInterval.
Proof.
  intros Hr HD Hd key p Hp. destruct (measures_reachable _ _ HD Hr) as [Hcfg Hf _]. cbn [est] in *.
  destruct (measures_reachable _ _ HD (reachable_tick _ _ answers now _ Hr)) as [_ Hf' _].
  destruct (tick_flight e answers now) as [Hsub _]. destruct (Hf' _ _ Hp) as [<- _].
  pose proof (lookup_weaken _ _ _ _ Hp Hsub) as Hp1. cbn [est] in *.
  unfold pollDue in Hp1. eapply (poll_all_flight (MaxPollDelay (applyDefaults c))) in Hp1; try done;
    [|by rewrite Hcfg|].
  - destruct Hp1 as [(q & Hq & Hk & Hlt)|[Hin Hno]].
    + pose proof (lookup_weaken _ _ _ _ Hp Hsub) as Hp1. eapply poll_all_started in Hp1 as (q0 & Hq0 & ->).
      * apply collect_due_elem in Hq as [[k Hq] _]. destruct (Hf _ _ Hq) as [<- _]. rewrite Hk in Hq.
        assert (q0 = q) as -> by congruence. assert (0 < maxPollInterval) by done. lia.
      * intros r r' [[k Hr1] _]%collect_due_elem Hr'. destruct (Hf _ _ Hr1) as [<- _]. congruence.
    + destruct (decide (nextPollAt p ≤ now)) as [Hdue|Hdue].
      * exfalso. eapply Hno; [|done]. apply collect_due_elem. eauto.
      * destruct (Hf _ _ Hin) as [_ [_ ?]]. lia.
  - apply Forall_forall. intros q [[k Hk] _]%collect_due_elem. by destruct (Hf _ _ Hk) as [_ [? _]].
Qed.

(** ** The sample of keys *)

Record sample_ok (cap n : Z) (p : probeSet) : Prop := mk_sample_ok {
  so_capacity : capacity p = cap ∧ 0 < cap;
  so_nodup : NoDup (keys p);
  so_index : ∀ key, key ∈ index p ↔ key ∈ keys p;
  so_size : Z.of_nat (length (keys p)) ≤ cap;
  so_seen : 0 ≤ seen p ≤ n
}.

(** Replacing one element of a list without duplicates by a new one. *)
Lemma replace_elem {A} (l : list A) i x y :
  NoDup l → l !! i = Some x → y ∉ l →
  NoDup (<[i := y]> l) ∧ ∀ z, z ∈ <[i := y]> l ↔ z = y ∨ z ∈ l ∧ z ≠ x.
Proof.
  intros Hnd Hx Hy. pose proof (lookup_lt_Some _ _ _ Hx) as Hlt.
  rewrite insert_take_drop by done. pose proof (take_drop_middle _ _ _ Hx) as Hl.
  remember (take i l) as a eqn:Ha. remember (drop (S i) l) as b eqn:Hb. clear Ha Hb. subst l.
  rewrite NoDup_app, NoDup_cons in Hnd. rewrite NoDup_app, NoDup_cons. set_solver.
Qed.

Lemma sample_offer cap n p key :
  n < max_i64 → sample_ok cap n p → sample_ok cap (n + 1) (probe_offer p key).
Proof.
  intros Hn [[Hc Hpos] Hnd Hi Hs Hseen]. unfold probe_offer.
  destruct (decide (key ∈ index p)) as [Hin|Hout]; [constructor; try done; lia|].
  assert (key ∉ keys p) as Hk by (by rewrite <- Hi).
  assert (i64 (seen p + 1) = seen p + 1) as ->.
  { apply i64_small. unfold is_i64, min_i64, max_i64 in *. lia. }
  destruct (Z.ltb_spec (Z.of_nat (length (keys p))) (capacity p)) as [Hlt|Hge].
  { constructor; cbn; try done.
    - apply NoDup_app. split_and!; [done|set_solver|by apply NoDup_singleton].
    - intros z. rewrite elem_of_union, elem_of_singleton, elem_of_app, Hi. set_solver.
    - rewrite length_app. cbn. lia.
    - lia. }
  pose proof (Intn_range (seed p) (draws p) (seen p + 1) ltac:(lia)) as Hj.
  set (j := Intn _ _ _) in *. destruct (Z.ltb_spec j (capacity p)) as [Hjc|Hjc].
  - destruct (lookup_lt_is_Some_2 (keys p) (Z.to_nat j) ltac:(lia)) as [old Hold]. rewrite Hold.
    destruct (replace_elem _ _ _ _ Hnd Hold Hk) as [Hnd' Hel].
    constructor; cbn [keys index capacity seen default]; try done.
    + intros z. rewrite Hel, <- Hi. set_solver.
    + by rewrite length_insert.
    + lia.
  - constructor; cbn; try done. lia.
Qed.

Lemma sample_step cap n s s' :
  n < max_i64 → lag_step s s' → sample_ok cap n (probes (est s)) → sample_ok cap (n + 1) (probes (est s')).
Proof.
  intros Hn Hs Hok.
  assert (∀ p, probes (est s) = p → sample_ok cap (n + 1) p) as Hsame.
  { intros p <-. destruct Hok. constructor; try done; lia. }
  destruct Hs; cbn [est] in *.
  - by apply sample_offer.
  - apply Hsame. unfold Observe. by repeat case_match.
  - by apply Hsame.
  - apply Hsame. unfold poll_one, reschedule. by repeat case_match.
  - by apply Hsame.
  - destruct Hok as [[Hc Hpos] Hnd Hi Hsz Hsn]. cbn [probes set_probes]. unfold rotateIfDue.
    destruct (IsZero _); [constructor; try done; cbn; lia|].
    destruct (_ <? _); [constructor; try done; cbn; lia|].
    constructor; cbn; [done|constructor|set_solver|lia|lia].
  - by apply Hsame.
  - apply Hsame. unfold Recompute. by repeat case_match.
Qed.

Lemma probes_reachable c now n : ∀ s,
  nsteps lag_step n (lag_start now c) s → Z.of_nat n ≤ max_i64 →
  sample_ok (ProbeCount (applyDefaults c)) (Z.of_nat n) (probes (est s)).
Proof.
  induction n as [|n IH]; intros s Hr Hn.
  - inversion Hr; subst. constructor; cbn; [|constructor|set_solver| |done].
    + unfold defaultProbeCount. repeat case_match; zbool; lia.
    + repeat case_match; zbool; unfold defaultProbeCount; lia.
  - apply nsteps_inv_r in Hr as (s1 & Hr & Hs).
    replace (Z.of_nat (S n)) with (Z.of_nat n + 1) by lia.
    apply (sample_step _ _ s1); [lia|done|]. apply IH; [done|lia].
Qed.

(** the sample is a sample: in every state reached by fewer than 2^63 steps, the probed keys are
    distinct and no more than configured, and [IsProbe], which the applier asks on every event,
    answers exactly for them. *)
Theorem probes_are_a_bounded_sample c now n s :
  nsteps lag_step n (lag_start now c) s → Z.of_nat n ≤ max_i64 →
  NoDup (keys (probes (est s)))
  ∧ probe_size (probes (est s)) ≤ ProbeCount (applyDefaults c)
  ∧ ∀ key, IsProbe (est s) key = true ↔ key ∈ keys (probes (est s)).
Proof.
  intros Hr Hn. destruct (probes_reachable _ _ _ _ Hr Hn) as [_ Hnd Hi Hs _].
  split_and!; [done|done|]. intros key. unfold IsProbe, contains. by rewrite bool_decide_eq_true.
Qed.

(** ** A measurement lost *)

(** polling an object that a newer measurement of its key has replaced removes the newer one: the
    oracle has moved on, the old object is abandoned, and the removal is by key. *)
Theorem abandoned_poll_removes_the_fresh_measurement e p q version read now :
  in_flight e !! pkey p = Some q → pid q ≠ pid p → version = Some (pversion q) →
  pversion q ≠ pversion p →
  let e' := poll_one e p version read now in
  in_flight e' !! pkey p = None ∧ abandoned e' = i64 (abandoned e + 1) ∧ win e' = win e.
Proof.
  intros Hq Hpid -> Hv. unfold poll_one, poll. rewrite bool_decide_false by congruence. cbn.
  split_and!; [by rewrite lookup_delete_eq|done|done].
Qed.
End steps.
