(* ===== verification/LagRuns.v ===== *)
(** * LagRuns: the estimator on concrete runs

    A run in which a hundred probes converge and move the window, one in which
    the store is slow, and one in which a measurement is lost; they are the
    witnesses of the theorems about the estimator. *)
From S2P Require Import Prelude GoBase GoFloat GoStrings Event Projection Shard Oracle.
From S2P Require Import Target Lag LagSteps.

#[local] Existing Instance constant_hash.
#[local] Existing Instance ascending_order.
#[local] Existing Instance amd64_overflow.

(** A source of random numbers: the number of the draw, reduced. *)
Definition counting_rand : Rand.
Proof.
  refine {| Intn := λ _ n bound, Z.of_nat n mod bound |}.
  intros _ n bound Hb. by apply Z.mod_pos_bound.
Defined.
#[local] Existing Instance counting_rand.

Definition lag_config : Lag.Config :=
  Lag.mkConfig ShapeScalar 2 (3600 * time_Second) 0 200 (10 * time_Millisecond) 0 (S754_zero false) None 1.

Definition sec (n : Z) : Time := n * time_Second.

(** The expected value of "k" is there ([fast]) or the store does not answer ([slow]). *)
Definition held_k : Value := default absent (EntValue <$> Get (sec 3) sample_oracle "k").
Definition fast (_ : nat) : answer := mkAnswer false (λ _, Some 1) (λ _, mkRead held_k None).
Definition slow (_ : nat) : answer := mkAnswer false (λ _, Some 1) (λ _, mkRead absent (Some TransportError)).

Definition offered : Estimator := OfferKey (Lag.New (sec 1) lag_config) "k".
Definition observed (e : Estimator) (t : Time) : Estimator := Observe t sample_oracle e "k" 1 t.

(** [n] measurements that converge a second after they start, [n] seconds from [t] on. *)
Fixpoint measured (n : nat) (e : Estimator) (t : Z) : Estimator :=
  match n with
  | O => e
  | S n => measured n (Tick (observed e (sec t)) fast (sec (t + 1))).1 (t + 1)
  end.

Lemma offered_reachable : lag_reachable lag_config (mkSystem offered [] 0).
Proof. exists (sec 1). apply rtc_once, (step_offer (lag_start (sec 1) lag_config) "k"). Qed.

Lemma reachable_observed c e r u t :
  lag_reachable c (mkSystem e r u) → lag_reachable c (mkSystem (observed e t) r u).
Proof.
  intros [now Hr]. exists now. eapply rtc_r; [exact Hr|].
  apply (step_observe (mkSystem e r u) t sample_oracle "k" 1 t).
Qed.

Lemma measured_reachable n : ∀ c e u t,
  lag_reachable c (mkSystem e [] u) → ∃ u', lag_reachable c (mkSystem (measured n e t) [] u').
Proof.
  induction n as [|n IH]; intros c e u t Hr; cbn [measured]; [eauto|].
  eapply IH, (reachable_tick _ _ fast). by apply reachable_observed.
Qed.

(** Ninety-nine measurements have converged and the hundredth is done: the window is about to move. *)
Definition before_move : Estimator :=
  pollDue (observed (measured 99 offered 10) (sec 120)) fast (sec 121).

Lemma before_move_reachable : ∃ u, lag_reachable lag_config (mkSystem before_move [] u).
Proof.
  destruct (measured_reachable 99 _ _ _ 10 offered_reachable) as [u Hu].
  exists (sec 121). apply (reachable_observed _ _ _ _ (sec 120)) in Hu. destruct Hu as [now Hr].
  exists now. etrans; [exact Hr|]. eapply rtc_l; [apply (step_collect _ _ (sec 121))|].
  apply (poll_all_steps _ _ fast 0).
Qed.

Example window_moves : (Recompute before_move (sec 121)).2 = Some (10 * time_Millisecond, 3 * time_Second).
Proof. by vm_compute. Qed.

Lemma timeouts_set_the_p99_witness :
  let D := sec 60 in
  let w := recordTimeout (push (push (newWindow 4) 1) (sec 2)) D in
  percentile (snapshot w).1.1 (float_lit 99 100) = D.
Proof.
  intros D w. apply (timeouts_set_the_p99 4 w [1; sec 2; D] D).
  - apply (window_push_ok 4 _ [1; sec 2] D). pose proof (newWindow_ok 4 ltac:(lia)) as Hok.
    apply (window_push_ok _ _ _ 1) in Hok. by apply (window_push_ok _ _ _ (sec 2)) in Hok.
  - lia.
  - done.
  - done.
  - intros d Hd. vm_compute in Hd. apply list_elem_of_In in Hd. cbn in Hd.
    unfold D, sec, time_Second. lia.
  - by vm_compute.
Defined.

Lemma window_stays_in_bounds_witness :
  MinWindow (applyDefaults lag_config) ≤ SettlementWindow before_move ≤ MaxWindow (applyDefaults lag_config).
Proof.
  destruct before_move_reachable as [u Hu]. exact (window_stays_in_bounds lag_config _ Hu).
Defined.

Lemma window_moves_only_on_evidence_witness :
  minObservations ≤ Z.of_nat (length (snapshot (win before_move)).1.1)
  ∧ lastChangeAt (ctrl (Recompute before_move (sec 121)).1) = sec 121.
Proof.
  destruct before_move_reachable as [u Hu].
  pose proof (window_moves_only_on_evidence lag_config _ (sec 121) _ _ Hu window_moves) as Hw.
  exact (conj (proj1 (proj2 (proj2 (proj2 Hw)))) (proj1 (proj2 (proj2 (proj2 (proj2 (proj2 Hw))))))).
Defined.

(** A measurement the store does not answer: pending after a second, gone after the deadline. *)
Definition waiting : Estimator := observed offered (sec 10).

Lemma every_measurement_ends_witness :
  let started := startedAt <$> in_flight (Tick waiting slow (sec 11)).1 !! "k" in
  started = Some (sec 10) ∧ sec 11 < sec 10 + defaultMaxPollDelay + maxPollInterval
  ∧ in_flight (Tick (Tick waiting slow (sec 11)).1 slow (sec 71)).1 !! "k" = None.
Proof.
  pose proof (reachable_observed _ _ _ _ (sec 10) offered_reachable) as Hr.
  assert (is_i64 (MaxPollDelay (applyDefaults lag_config))) as HD by (by vm_compute).
  destruct (in_flight (Tick waiting slow (sec 11)).1 !! "k") as [p|] eqn:Hp; [|by vm_compute in Hp].
  pose proof (every_measurement_ends lag_config waiting 0 slow (sec 11) Hr HD (λ _, eq_refl) "k" p Hp) as He.
  assert (startedAt p = sec 10) as Hs.
  { assert (startedAt <$> in_flight (Tick waiting slow (sec 11)).1 !! "k" = Some (sec 10)) as Hq by (by vm_compute).
    rewrite Hp in Hq. by injection Hq. }
  rewrite Hs in He. cbv zeta. split_and!; [cbn [fmap option_fmap option_map]; by rewrite Hs|exact He|by vm_compute].
Defined.

Lemma probes_are_a_bounded_sample_witness :
  NoDup (keys (probes offered)) ∧ IsProbe offered "k" = true.
Proof.
  assert (nsteps lag_step 1 (lag_start (sec 1) lag_config) (mkSystem offered [] 0)) as Hr.
  { apply nsteps_once, (step_offer (lag_start (sec 1) lag_config) "k"). }
  destruct (probes_are_a_bounded_sample _ _ _ _ Hr ltac:(done)) as (Hnd & _ & Hi).
  split; [exact Hnd|]. apply Hi. by vm_compute; left.
Defined.

(** "k" changes while its measurement is being polled: the applier starts the new measurement, and the
    poll of the old one removes it. *)
Definition k_moved : Oracle := Oracle.run sample_oracle [write 11 "k" "v2"].
Definition restarted : Estimator := Observe (sec 11) k_moved waiting "k" 2 (sec 11).

Lemma restarted_reachable :
  lag_reachable lag_config (mkSystem restarted (collect_due waiting (sec 11)) (sec 11)).
Proof.
  destruct (reachable_observed _ _ _ _ (sec 10) offered_reachable) as [now Hr]. exists now.
  eapply rtc_r; [eapply rtc_r; [exact Hr|apply (step_collect _ _ (sec 11))]|].
  apply (step_observe (mkSystem waiting (collect_due waiting (sec 11)) (sec 11)) (sec 11) k_moved "k" 2 (sec 11)).
Qed.

Lemma abandoned_poll_removes_the_fresh_measurement_witness :
  ∃ p q, collect_due waiting (sec 11) = [p] ∧ in_flight restarted !! "k" = Some q
    ∧ in_flight (poll_one restarted p (Version k_moved "k") (mkRead absent None) (sec 11)) !! "k" = None.
Proof.
  eexists _, _. split; [by vm_compute|]. split; [by vm_compute|].
  match goal with |- in_flight (poll_one _ ?p _ ?r ?t) !! _ = None =>
    refine (proj1 (abandoned_poll_removes_the_fresh_measurement restarted p _ (Version k_moved "k") r t _ _ _ _))
  end; by vm_compute.
Defined.
