(* ===== verification/Spec.v ===== *)
(** * Spec: the configuration of a check (pkg/check/config.go)

    The specification as the YAML file and the custom resource hold it, its
    defaults, and its translation into the settings of the components. Reading
    and writing YAML is left to the library. *)
From stdpp Require Import pretty.
From S2P Require Import Prelude GoBase GoFloat GoStrings Event Projection Differ.

(** ** Data *)

Record SecretRef := mkSecretRef { Secret_Name : string; Secret_Key : string }.

Record ZMQSpec := mkZMQ {
  ZMQ_Endpoints : list string;
  ZMQ_Topics : list string;
  ZMQ_RecvHWM : Z;
  ZMQ_ConnectTimeout : Duration;
  ZMQ_ReconnectIntervalMax : Duration;
  ZMQ_IdleTimeout : Duration;
  ZMQ_Multipart : string
}.

Record NATSSpec := mkNATS {
  NATS_URL : string;
  NATS_Subjects : list string;
  NATS_QueueGroup : string;
  NATS_CredentialsSecretRef : option SecretRef
}.

Record FileSpec := mkFile { File_Path : string; File_Speed : string; File_Loop : bool }.

Record SourceSpec := mkSource {
  Source_Type : string;
  Source_ZMQ : option ZMQSpec;
  Source_NATS : option NATSSpec;
  Source_File : option FileSpec;
  Source_IngestBufferSize : Z
}.

Record CodecSpec := mkCodecSpec {
  Codec_Type : string;
  Codec_MaxPayloadBytes : Z;
  Codec_RetainRaw : bool;
  Codec_FieldMapping : gmap string string;
  Codec_OpMapping : gmap string string
}.

Record OwnershipSpec := mkOwnershipSpec { Ownership_Partitioned : bool; Ownership_KeyPattern : string }.

Record ProjectionSpec := mkProjectionSpec {
  Projection_Type : string;
  Projection_KeyTemplate : string;
  Projection_MemberTemplate : string;
  Projection_MaxMembersPerKey : Z;
  Projection_IncrOnly : bool;
  Projection_Ownership : option OwnershipSpec;
  Projection_Extra : gmap string string
}.

Record TLSSpec := mkTLS {
  TLS_Enabled : bool;
  TLS_InsecureSkipVerify : bool;
  TLS_CASecretRef : option SecretRef
}.

Record RedisSpec := mkRedis {
  Redis_Mode : string;
  Redis_Addr : string;
  Redis_Addrs : list string;
  Redis_MasterName : string;
  Redis_DB : Z;
  Redis_Username : string;
  Redis_Password : string;
  Redis_PasswordSecretRef : option SecretRef;
  Redis_TLS : option TLSSpec;
  Redis_KeyPattern : string;
  Redis_ReadBatchSize : Z;
  Redis_ScanCount : Z;
  Redis_DialTimeout : Duration;
  Redis_ReadTimeout : Duration;
  Redis_PoolSize : Z
}.

Record TargetSpec := mkTargetSpec {
  Target_Type : string;
  Target_Redis : option RedisSpec;
  Target_Settings : gmap string string
}.

Record SettlementWindowSpec := mkWindowSpec {
  Window_Mode : string;
  Window_Static : Duration;
  Window_Min : Duration;
  Window_Max : Duration;
  Window_SafetyFactor : float64
}.

Record PolicySpec := mkPolicy {
  Policy_SettlementWindow : SettlementWindowSpec;
  Policy_SweepInterval : Duration;
  Policy_ExtraScanInterval : Duration;
  Policy_Bootstrap : string;
  Policy_ExpiryPolicy : string;
  Policy_AssumedTTL : Duration;
  Policy_TTLTolerance : Duration;
  Policy_RequirePrimary : bool;
  Policy_ReorderWindow : Duration;
  Policy_MaxTrackedKeys : Z;
  Policy_RingSize : Z;
  Policy_MaxConfirmQueue : Z;
  Policy_MaxFindings : Z;
  Policy_MaxExtrasTracked : Z;
  Policy_MaxPublishers : Z;
  Policy_OracleShards : Z;
  Policy_NeverSettledThreshold : Z;
  Policy_Paused : bool
}.

Record AlertSpec := mkAlert {
  Alert_DivergentKeysThreshold : Z;
  Alert_DivergentRatioThreshold : float64;
  Alert_ForDuration : Duration;
  Alert_IncludeSuspect : bool
}.

Record Spec := mkSpec {
  Spec_Name : string;
  Spec_Namespace : string;
  Spec_Source : SourceSpec;
  Spec_Codec : CodecSpec;
  Spec_Projection : ProjectionSpec;
  Spec_Target : TargetSpec;
  Spec_Policy : PolicySpec;
  Spec_Alert : AlertSpec
}.

Definition BootstrapAdopt : string := "Adopt".
Definition BootstrapStrict : string := "Strict".
Definition BootstrapWait : string := "Wait".
Definition ExpiryIgnore : string := "Ignore".
Definition ExpiryModel : string := "Model".
Definition ExpiryStrict : string := "Strict".
Definition WindowStatic : string := "static".
Definition WindowAdaptive : string := "adaptive".
Definition RedisStandalone : string := "standalone".
Definition RedisSentinel : string := "sentinel".
Definition RedisCluster : string := "cluster".
Definition MultipartAuto : string := "auto".
Definition MultipartTopicThenLoad : string := "topicThenPayload".
Definition MultipartSingleFrame : string := "singleFrame".

Definition ID (s : Spec) : string :=
  if decide (Spec_Name s = "") then "default"
  else if decide (Spec_Namespace s = "") then Spec_Name s
  else Spec_Namespace s +:+ "/" +:+ Spec_Name s.

(** ** Defaults *)

Definition DefaultIngestBufferSize : Z := 200000.
Definition DefaultRecvHWM : Z := 100000.
Definition DefaultMaxPayloadBytes : Z := 1048576.
Definition DefaultMaxMembersPerKey : Z := 100000.
Definition DefaultReadBatchSize : Z := 500.
Definition DefaultScanCount : Z := 1000.
Definition DefaultMaxTrackedKeys : Z := 1000000.
Definition DefaultRingSize : Z := 16.
Definition DefaultMaxConfirmQueue : Z := 10000.
Definition DefaultMaxFindings : Z := 10000.
Definition DefaultMaxExtrasTracked : Z := 100000.
Definition DefaultMaxPublishers : Z := 1024.
Definition DefaultOracleShards : Z := 64.
Definition DefaultNeverSettledThreshold : Z := 10.
Definition DefaultDivergentKeys : Z := 10.
Definition DefaultSweepInterval : Duration := 30 * time_Second.
Definition DefaultExtraScanInterval : Duration := 5 * time_Minute.
Definition DefaultStaticWindow : Duration := 5 * time_Second.
Definition DefaultMinWindow : Duration := time_Second.
Definition DefaultMaxWindow : Duration := 120 * time_Second.
Definition DefaultTTLTolerance : Duration := 5 * time_Second.
Definition DefaultReorderWindow : Duration := 2 * time_Second.
Definition DefaultDialTimeout : Duration := 5 * time_Second.
Definition DefaultReadTimeout : Duration := 3 * time_Second.
Definition DefaultConnectTimeout : Duration := 5 * time_Second.
Definition DefaultReconnectMax : Duration := 30 * time_Second.
Definition DefaultIdleTimeout : Duration := 60 * time_Second.
Definition DefaultForDuration : Duration := 60 * time_Second.
Definition DefaultSafetyFactor : float64 := float_of_Z 3.
Definition DefaultDivergentRatio : float64 := float_lit 1 1000.
Definition DefaultRedisPoolSize : Z := 10.
Definition DefaultKeyPatternGlob : string := "*".
Definition DefaultKeyTemplate : string := "{{.Key}}".
Definition DefaultMemberTemplate : string := "{{.Member}}".

(** [if x <= 0 { x = d }] and [if x == "" { x = d }]. *)
Definition positive_or (d x : Z) : Z := if x <=? 0 then d else x.
Definition nonempty_or (d x : string) : string := if decide (x = "") then d else x.
Definition positive_decimal_or (d x : float64) : float64 := if SFleb x (S754_zero false) then d else x.

Definition defaultSource (s : SourceSpec) : SourceSpec :=
  mkSource (nonempty_or "memory" (Source_Type s))
    ((λ z, mkZMQ (ZMQ_Endpoints z) (ZMQ_Topics z) (positive_or DefaultRecvHWM (ZMQ_RecvHWM z))
             (positive_or DefaultConnectTimeout (ZMQ_ConnectTimeout z))
             (positive_or DefaultReconnectMax (ZMQ_ReconnectIntervalMax z))
             (positive_or DefaultIdleTimeout (ZMQ_IdleTimeout z))
             (nonempty_or MultipartAuto (ZMQ_Multipart z))) <$> Source_ZMQ s)
    (Source_NATS s)
    ((λ f, mkFile (File_Path f) (nonempty_or "fast" (File_Speed f)) (File_Loop f)) <$> Source_File s)
    (positive_or DefaultIngestBufferSize (Source_IngestBufferSize s)).

Definition defaultCodec (c : CodecSpec) : CodecSpec :=
  mkCodecSpec (nonempty_or "json" (Codec_Type c))
    (positive_or DefaultMaxPayloadBytes (Codec_MaxPayloadBytes c)) (Codec_RetainRaw c)
    (Codec_FieldMapping c) (Codec_OpMapping c).

Definition defaultProjection (p : ProjectionSpec) : ProjectionSpec :=
  mkProjectionSpec (nonempty_or "scalar" (Projection_Type p))
    (nonempty_or DefaultKeyTemplate (Projection_KeyTemplate p))
    (nonempty_or DefaultMemberTemplate (Projection_MemberTemplate p))
    (positive_or DefaultMaxMembersPerKey (Projection_MaxMembersPerKey p))
    (Projection_IncrOnly p) (Projection_Ownership p) (Projection_Extra p).

(** [&RedisSpec{}] *)
Definition empty_redis : RedisSpec :=
  mkRedis "" "" [] "" 0 "" "" None None "" 0 0 0 0 0.

Definition default_redis (r : RedisSpec) : RedisSpec :=
  mkRedis (nonempty_or RedisStandalone (Redis_Mode r)) (Redis_Addr r) (Redis_Addrs r)
    (Redis_MasterName r) (Redis_DB r) (Redis_Username r) (Redis_Password r)
    (Redis_PasswordSecretRef r) (Redis_TLS r)
    (nonempty_or DefaultKeyPatternGlob (Redis_KeyPattern r))
    (positive_or DefaultReadBatchSize (Redis_ReadBatchSize r))
    (positive_or DefaultScanCount (Redis_ScanCount r))
    (positive_or DefaultDialTimeout (Redis_DialTimeout r))
    (positive_or DefaultReadTimeout (Redis_ReadTimeout r))
    (positive_or DefaultRedisPoolSize (Redis_PoolSize r)).

Definition defaultTarget (t : TargetSpec) : TargetSpec :=
  let ty := nonempty_or "memory" (Target_Type t) in
  if negb (bool_decide (ty = "redis")) then mkTargetSpec ty (Target_Redis t) (Target_Settings t)
  else mkTargetSpec ty (Some (default_redis (default empty_redis (Target_Redis t)))) (Target_Settings t).

Definition defaultPolicy (p : PolicySpec) : PolicySpec :=
  let w := Policy_SettlementWindow p in
  mkPolicy
    (mkWindowSpec (nonempty_or WindowStatic (Window_Mode w))
       (positive_or DefaultStaticWindow (Window_Static w))
       (positive_or DefaultMinWindow (Window_Min w)) (positive_or DefaultMaxWindow (Window_Max w))
       (positive_decimal_or DefaultSafetyFactor (Window_SafetyFactor w)))
    (positive_or DefaultSweepInterval (Policy_SweepInterval p))
    (positive_or DefaultExtraScanInterval (Policy_ExtraScanInterval p))
    (nonempty_or BootstrapAdopt (Policy_Bootstrap p))
    (nonempty_or ExpiryStrict (Policy_ExpiryPolicy p))
    (Policy_AssumedTTL p)
    (positive_or DefaultTTLTolerance (Policy_TTLTolerance p))
    (Policy_RequirePrimary p)
    (if Policy_ReorderWindow p =? 0 then DefaultReorderWindow else Policy_ReorderWindow p)
    (positive_or DefaultMaxTrackedKeys (Policy_MaxTrackedKeys p))
    (positive_or DefaultRingSize (Policy_RingSize p))
    (positive_or DefaultMaxConfirmQueue (Policy_MaxConfirmQueue p))
    (positive_or DefaultMaxFindings (Policy_MaxFindings p))
    (positive_or DefaultMaxExtrasTracked (Policy_MaxExtrasTracked p))
    (positive_or DefaultMaxPublishers (Policy_MaxPublishers p))
    (positive_or DefaultOracleShards (Policy_OracleShards p))
    (positive_or DefaultNeverSettledThreshold (Policy_NeverSettledThreshold p))
    (Policy_Paused p).

Definition defaultAlert (a : AlertSpec) : AlertSpec :=
  mkAlert (positive_or DefaultDivergentKeys (Alert_DivergentKeysThreshold a))
    (positive_decimal_or DefaultDivergentRatio (Alert_DivergentRatioThreshold a))
    (positive_or DefaultForDuration (Alert_ForDuration a)) (Alert_IncludeSuspect a).

Definition ApplyDefaults (s : Spec) : Spec :=
  mkSpec (nonempty_or "default" (Spec_Name s)) (Spec_Namespace s) (defaultSource (Spec_Source s))
    (defaultCodec (Spec_Codec s)) (defaultProjection (Spec_Projection s))
    (defaultTarget (Spec_Target s)) (defaultPolicy (Spec_Policy s)) (defaultAlert (Spec_Alert s)).

Definition EffectiveWindow (s : Spec) : Duration :=
  let w := Policy_SettlementWindow (Spec_Policy s) in
  if decide (Window_Mode w = WindowAdaptive) then Window_Min w else Window_Static w.
