(* ===== verification/Ingest.v ===== *)
(** * Ingest: the assembled pipeline and its lifecycle (pkg/check/check.go)

    One message at a time from the codec through the reorder buffer, the
    sequence tracker and the projection into the oracle; what a loss signal, a
    snapshot marker and the start-up modes do to the oracle's trust; and the
    phase the check reports. The specification and the projection built from it
    never change, the codec, the clock and the source's connection are
    parameters: the clock and the connection answer by the number of the read.
    Logging and metrics are output and are left out. *)
From stdpp Require Import pretty.
From S2P Require Import Prelude GoBase GoFloat GoStrings GoTime Codec Sweeper Event Projection GapSet SeqTrack Ring Shard.
From S2P Require Import PathMatch Oracle Target Differ Reorder Lag Spec.

(** ** What the pipeline is given *)

(** One frame of a source. *)
Record RawMessage := mkRaw { RTopic : string; Payload : string; RObservedAt : Time }.

Inductive Phase :=
  | PhasePending | PhaseBootstrapping | PhaseAwaitingSnapshot | PhaseWatching | PhaseDegraded
  | PhasePaused | PhaseFailed.

#[export] Instance Phase_eq_dec : EqDecision Phase.
Proof. solve_decision. Defined.

(** ** State *)

Record lifecycle := mkLife {
  phase : Phase;
  message : string;
  saturated : bool;
  saturation : string;
  sourceFailed : bool;
  sourceFailure : string;
  targetUnreachable : bool;
  paused : bool;
  awaitingSnapshot : bool;
  lastReport : option Report;
  lastSweep : Time
}.

Record counters := mkCounters {
  snapshotsSeen : Z;
  eventsApplied : Z;
  eventsDropped : Z;
  bytesRead : Z;
  gapSignals : Z;
  decodeErrors : Z
}.

Record check := mkCheck {
  orc : Oracle;
  tracker : Tracker;
  reorder : reorderBuffer;
  est : Estimator;
  life : lifecycle;
  cnt : counters;
  multiWriter : bool;
  multiWriterKey : option string;
  clockSkew : gmap string Duration;
  reads : nat    (** of the clock, so far *)
}.

Definition set_orc (c : check) (o : Oracle) : check :=
  mkCheck o (tracker c) (reorder c) (est c) (life c) (cnt c) (multiWriter c) (multiWriterKey c)
    (clockSkew c) (reads c).
Definition set_tracker (c : check) (t : Tracker) : check :=
  mkCheck (orc c) t (reorder c) (est c) (life c) (cnt c) (multiWriter c) (multiWriterKey c)
    (clockSkew c) (reads c).
Definition set_reorder (c : check) (r : reorderBuffer) : check :=
  mkCheck (orc c) (tracker c) r (est c) (life c) (cnt c) (multiWriter c) (multiWriterKey c)
    (clockSkew c) (reads c).
Definition set_est (c : check) (e : Estimator) : check :=
  mkCheck (orc c) (tracker c) (reorder c) e (life c) (cnt c) (multiWriter c) (multiWriterKey c)
    (clockSkew c) (reads c).
Definition set_life (c : check) (l : lifecycle) : check :=
  mkCheck (orc c) (tracker c) (reorder c) (est c) l (cnt c) (multiWriter c) (multiWriterKey c)
    (clockSkew c) (reads c).
Definition set_cnt (c : check) (n : counters) : check :=
  mkCheck (orc c) (tracker c) (reorder c) (est c) (life c) n (multiWriter c) (multiWriterKey c)
    (clockSkew c) (reads c).
Definition set_writer (c : check) (key : string) : check :=
  mkCheck (orc c) (tracker c) (reorder c) (est c) (life c) (cnt c) true (Some key) (clockSkew c) (reads c).
Definition set_skew (c : check) (m : gmap string Duration) : check :=
  mkCheck (orc c) (tracker c) (reorder c) (est c) (life c) (cnt c) (multiWriter c) (multiWriterKey c)
    m (reads c).
(** The clock has been read. *)
Definition tick (c : check) : check :=
  mkCheck (orc c) (tracker c) (reorder c) (est c) (life c) (cnt c) (multiWriter c) (multiWriterKey c)
    (clockSkew c) (S (reads c)).

Definition count_snapshot (n : counters) : counters :=
  mkCounters (u64 (snapshotsSeen n + 1)) (eventsApplied n) (eventsDropped n) (bytesRead n) (gapSignals n)
    (decodeErrors n).
Definition count_applied (n : counters) : counters :=
  mkCounters (snapshotsSeen n) (u64 (eventsApplied n + 1)) (eventsDropped n) (bytesRead n) (gapSignals n)
    (decodeErrors n).
Definition count_dropped (n : counters) : counters :=
  mkCounters (snapshotsSeen n) (eventsApplied n) (u64 (eventsDropped n + 1)) (bytesRead n) (gapSignals n)
    (decodeErrors n).
Definition count_bytes (len : Z) (n : counters) : counters :=
  mkCounters (snapshotsSeen n) (eventsApplied n) (eventsDropped n) (u64 (bytesRead n + len)) (gapSignals n)
    (decodeErrors n).
Definition count_signal (n : counters) : counters :=
  mkCounters (snapshotsSeen n) (eventsApplied n) (eventsDropped n) (bytesRead n) (u64 (gapSignals n + 1))
    (decodeErrors n).
Definition count_decode_error (n : counters) : counters :=
  mkCounters (snapshotsSeen n) (eventsApplied n) (eventsDropped n) (bytesRead n) (gapSignals n)
    (u64 (decodeErrors n + 1)).

Definition bump (f : counters → counters) (c : check) : check := set_cnt c (f (cnt c)).

(** ** The phase *)

Definition with_phase (l : lifecycle) (p : Phase) (m : string) : lifecycle :=
  mkLife p m (saturated l) (saturation l) (sourceFailed l) (sourceFailure l) (targetUnreachable l)
    (paused l) (awaitingSnapshot l) (lastReport l) (lastSweep l).
Definition with_saturation (l : lifecycle) (m : string) : lifecycle :=
  mkLife (phase l) (message l) true m (sourceFailed l) (sourceFailure l) (targetUnreachable l)
    (paused l) (awaitingSnapshot l) (lastReport l) (lastSweep l).
Definition with_failure (l : lifecycle) (m : string) : lifecycle :=
  mkLife (phase l) (message l) (saturated l) (saturation l) true m (targetUnreachable l)
    (paused l) (awaitingSnapshot l) (lastReport l) (lastSweep l).
Definition with_unreachable (l : lifecycle) (b : bool) : lifecycle :=
  mkLife (phase l) (message l) (saturated l) (saturation l) (sourceFailed l) (sourceFailure l) b
    (paused l) (awaitingSnapshot l) (lastReport l) (lastSweep l).
Definition with_paused (l : lifecycle) (b : bool) : lifecycle :=
  mkLife (phase l) (message l) (saturated l) (saturation l) (sourceFailed l) (sourceFailure l)
    (targetUnreachable l) b (awaitingSnapshot l) (lastReport l) (lastSweep l).
Definition with_awaiting (l : lifecycle) (b : bool) : lifecycle :=
  mkLife (phase l) (message l) (saturated l) (saturation l) (sourceFailed l) (sourceFailure l)
    (targetUnreachable l) (paused l) b (lastReport l) (lastSweep l).
Definition with_report (l : lifecycle) (rep : Report) : lifecycle :=
  mkLife (phase l) (message l) (saturated l) (saturation l) (sourceFailed l) (sourceFailure l)
    (targetUnreachable l) (paused l) (awaitingSnapshot l) (Some rep) (FinishedAt rep).

Definition setPhase (p : Phase * string) (c : check) : check :=
  set_life c (with_phase (life c) p.1 p.2).

Definition phaseIs (c : check) (p : Phase) : bool := bool_decide (phase (life c) = p).

(** [connected] is what the source's statistics say. *)
Definition steadyPhase (connected : bool) (l : lifecycle) : Phase * string :=
  if paused l then (PhasePaused, "policy.paused is set: ingesting, not sweeping")
  else if awaitingSnapshot l then
    (PhaseAwaitingSnapshot, "no key is asserted on until a publisher completes a snapshot cycle")
  else if sourceFailed l then (PhaseDegraded, sourceFailure l)
  else if negb connected then
    (PhaseDegraded, "the source is not currently subscribed; no events are arriving, so a clean sweep says nothing about the store")
  else if negb (saturated l) && negb (sourceFailed l) then (PhaseWatching, "steady state")
  else if sourceFailed l then (PhaseDegraded, sourceFailure l)
  else (PhaseDegraded, saturation l).

Section pipeline.
Context `{XXHash} `{MapOrder} `{FloatOverflow} `{Rand} `{Codec}.
Context (s : Spec) (p : projection) (clk : nat → Time) (connected : nat → bool).

Definition now (c : check) : Time := clk (reads c).

(** ** Loss *)

(** The keys a publisher's loss casts doubt over; "" is all of them. *)
Definition suspectPattern (publisher : string) : string :=
  let ownership := KeyOwnership p in
  if negb (Partitioned ownership) || bool_decide (KeyPattern ownership = "") then ""
  else strings_ReplaceAll (KeyPattern ownership) "{{.Publisher}}" publisher.

Definition scopeOf (pattern : string) : string :=
  if decide (pattern = "") then "all keys" else pattern.

Definition mark (pattern : string) (c : check) : check := set_orc c (MarkSuspect (orc c) pattern).

Definition onGap (c : check) (e : Event.t) : check :=
  mark (suspectPattern (Publisher e)) (bump count_signal c).

Definition onRestart (c : check) (e : Event.t) : check :=
  mark (suspectPattern (Publisher e)) (bump count_signal c).

Definition SignalGap (c : check) : check := mark "" (bump count_signal c).

Definition drop_event (c : check) : check := bump count_dropped c.

Definition onProjectionError (c : check) : check := bump count_dropped c.

Definition onDecodeError (c : check) : check :=
  bump count_signal (mark "" (drop_event (bump count_decode_error c))).

(** ** Folding one event *)

(** [prev] is the entry read before the fold; the zero entry has no publisher. *)
Definition checkMultiWriter (prevPublisher : string) (e : Event.t) (c : check) : check :=
  if bool_decide (prevPublisher = "") || bool_decide (prevPublisher = Publisher e) then c
  else if bool_decide (TargetShape p = ShapeSet) || Commutative p then c
  else if Partitioned (KeyOwnership p) then c
  else set_writer c (Event.Key e).

Definition recordSkew (e : Event.t) (c : check) : check :=
  if IsZero (PublishedAt e) || IsZero (ObservedAt e) then c
  else
    match clockSkew c !! Publisher e with
    | None =>
        if Z.of_nat (size (clockSkew c)) >=? Policy_MaxPublishers (Spec_Policy s) then c
        else set_skew c (<[Publisher e := time_Sub (PublishedAt e) (ObservedAt e)]> (clockSkew c))
    | Some _ => set_skew c (<[Publisher e := time_Sub (PublishedAt e) (ObservedAt e)]> (clockSkew c))
    end.

Definition skewOf (c : check) (publisher : string) : Duration := default 0 (clockSkew c !! publisher).

(** The trust an event's write gets. *)
Definition fold_trust (c : check) (e : Event.t) : TrustState :=
  if awaitingSnapshot (life c) then TrustSuspect else SeqTrack.Trust (Publisher e) (tracker c).

Definition fold (c : check) (e : Event.t) (verdict : Verdict) : check :=
  match TargetKey p e with
  | inl _ => onProjectionError c
  | inr key =>
      let prev := Get (now c) (orc c) key in
      let c := tick c in
      match Projection.Apply p (match prev with Some out => EntValue out | None => absent end) e with
      | inl _ => onProjectionError c
      | inr mutation =>
          let c := checkMultiWriter (match prev with Some out => LastPublisher out | None => "" end) e c in
          let c := recordSkew e c in
          let trust := fold_trust c e in
          let started := now c in
          let c := tick c in
          let '(o, res) := Oracle.Apply (now c) (orc c) mutation e verdict trust in
          let c := set_orc (tick c) o in
          if Applied res then
            let c := bump count_applied c in
            let est' := OfferKey (est c) (MKey mutation) in
            tick (set_est c (Lag.Observe (now c) (orc c) est' (MKey mutation) (ResVersion res) started))
          else c
      end
  end.

Definition onSnapshotOp (c : check) (e : Event.t) : check :=
  match EOp e with
  | OpSnapshotEnd =>
      let c := set_tracker c (ClearGaps (Publisher e) (tracker c)) in
      let c := set_orc c (ClearSuspect (orc c) (suspectPattern (Publisher e))) in
      let c := bump count_snapshot c in
      if awaitingSnapshot (life c) then
        let c := set_life c (with_awaiting (life c) false) in
        setPhase (steadyPhase (connected (reads c)) (life c)) c
      else c
  | _ => c
  end.

(** One in-sequence event through the rest of the pipeline. [None] is the panic of the tracker's gap
    set, which the guard around the applier turns into the end of the check. *)
Definition applyOrdered (c : check) (e : Event.t) : option check :=
  match SeqTrack.Observe e (now c) (tracker c) with
  | None => None
  | Some (t, verdict, _) =>
      let c := tick (set_tracker c t) in
      match verdict with
      | DropDuplicate | DropStaleEpoch => Some (drop_event c)
      | _ =>
          let c := match verdict with
                   | AcceptWithGap => onGap c e
                   | AcceptAfterRestart => onRestart c e
                   | _ => c
                   end in
          Some (fold (onSnapshotOp c e) e verdict)
      end
  end.

(** The loop over what the reorder buffer released. *)
Fixpoint apply_released (c : check) (released : list Event.t) : option check :=
  match released with
  | [] => Some c
  | e :: released => c ← applyOrdered c e; apply_released c released
  end.

Definition applyMessage (c : check) (msg : RawMessage) : option check :=
  let c := bump (count_bytes (Z.of_nat (String.length (Payload msg)))) c in
  let observed := if IsZero (RObservedAt msg) then now c else RObservedAt msg in
  let c := tick c in
  match Decode (Payload msg) (RTopic msg) observed with
  | inl _ => Some (onDecodeError c)
  | inr e =>
      match Validate e with
      | Some _ => Some (drop_event c)
      | None =>
          let '(r, released) := offer (reorder c) e (ObservedAt e) in
          apply_released (set_reorder c r) released
      end
  end.

Definition Ingest (c : check) (msg : RawMessage) : option check := applyMessage c msg.

Definition FlushReorder (c : check) : option check :=
  let '(r, released) := expire (reorder c) (now c) in
  apply_released (tick (set_reorder c r)) released.

(** A round of the estimator; a change of the window goes to the oracle. The i-th poll finds what
    [read i] says of the store. *)
Definition PollLag (c : check) (cancelled : nat → bool) (read : nat → string → Read) : check :=
  let answers i := mkAnswer (cancelled i) (Version (orc c)) (read i) in
  let '(e, change) := Tick (est c) answers (now c) in
  let c := tick (set_est c e) in
  match change with
  | None => c
  | Some (_, next) => set_orc c (SetSettlementWindow (orc c) next)
  end.

(** ** Start-up *)

(** A batch of the target's scan, with what GetMany read of its keys. *)
Inductive scan_batch := batch_read (kvs : list (string * Value)) | batch_failed (err : string).

Definition adopt_batch (c : check) (at_ : Time) (adopted skipped : Z) (kvs : list (string * Value))
    : check * Z * Z :=
  let '(batch, skipped) :=
    foldl (λ acc kv,
      let '(batch, skipped) := acc in
      if adopted + Z.of_nat (size batch) >=? Policy_MaxTrackedKeys (Spec_Policy s)
      then (batch, skipped + 1) else (<[kv.1 := kv.2]> batch, skipped))
      ((∅ : gmap string Value), skipped) kvs in
  (set_orc c (AdoptSnapshot (orc c) batch at_), adopted + Z.of_nat (size batch), skipped).

Fixpoint adopt_batches (c : check) (at_ : Time) (adopted skipped : Z) (batches : list scan_batch)
    : check * Z * (string + Z) :=
  match batches with
  | [] => (c, adopted, inr skipped)
  | batch_failed err :: _ => (c, adopted, inl ("reading a batch during the adopt scan: " +:+ err))
  | batch_read kvs :: rest =>
      let '(c, adopted, skipped) := adopt_batch c at_ adopted skipped kvs in
      adopt_batches c at_ adopted skipped rest
  end.

Definition saturation_message (adopted skipped : Z) : string :=
  "oracle saturated: adopted " +:+ pretty adopted +:+ " keys, skipped " +:+ pretty skipped
    +:+ "; findings cover only the keys driftwatch is tracking".

(** [scan_err] is the iterator's error after its last batch. *)
Definition adoptScan (c : check) (batches : list scan_batch) (scan_err : option string)
    : check * (string + Z) :=
  let c := setPhase (PhaseBootstrapping, "scanning the target keyspace") c in
  let at_ := now c in
  let '(c, adopted, skipped) := adopt_batches (tick c) at_ 0 0 batches in
  match skipped with
  | inl err => (c, inl err)
  | inr skipped =>
      match scan_err with
      | Some err => (c, inl ("scanning the target keyspace: " +:+ err))
      | None =>
          if skipped >? 0 then
            let m := saturation_message adopted skipped in
            (setPhase (PhaseDegraded, m) (set_life c (with_saturation (life c) m)), inr adopted)
          else (c, inr adopted)
      end
  end.

(** The attempts of an adopting start-up: it ends at the first scan that succeeds; running out of
    attempts is the cancellation of the context. *)
Fixpoint bootstrapAdopt (c : check) (scans : list (list scan_batch * option string)) : check * bool :=
  match scans with
  | [] => (c, false)
  | (batches, scan_err) :: scans =>
      let '(c, res) := adoptScan c batches scan_err in
      match res with
      | inr _ => (c, true)
      | inl err => bootstrapAdopt (setPhase (PhaseBootstrapping, "adopt scan failed: " +:+ err) c) scans
      end
  end.

(** The check and whether it is ready to sweep. *)
Definition bootstrap (c : check) (scans : list (list scan_batch * option string)) : check * bool :=
  let mode := Policy_Bootstrap (Spec_Policy s) in
  if decide (mode = BootstrapAdopt) then bootstrapAdopt c scans
  else if decide (mode = BootstrapWait) then (c, true)
  else
    let c := mark "" (set_life c (with_awaiting (life c) true)) in
    (setPhase (PhaseAwaitingSnapshot, "no key is asserted on until a publisher completes a snapshot cycle") c,
     true).

(** runSweeper up to the sweeper's own loop. *)
Definition runSweeper (c : check) (scans : list (list scan_batch * option string)) : check :=
  let '(c, ready) := bootstrap c scans in
  if ready then setPhase (steadyPhase (connected (reads c)) (life c)) c else c.

(** The source's Run returned: [err] is an error that is not the end of the context. *)
Definition runSource (c : check) (err : option string) : check :=
  match err with
  | None => c
  | Some err =>
      let m := "source: " +:+ err in
      setPhase (PhaseDegraded, m) (set_life c (with_failure (life c) m))
  end.

(** Run before its goroutines start, and after they have ended. *)
Definition Run_start (c : check) : check := setPhase (PhaseBootstrapping, "starting") c.
Definition Run_end (c : check) (err : option string) : check :=
  match err with
  | Some err => setPhase (PhaseFailed, err) c
  | None => setPhase (PhasePending, "stopped") c
  end.

Definition SetPaused (c : check) (b : bool) : check :=
  let before := paused (life c) in
  let c := set_life c (with_paused (life c) b) in
  if eqb before b then c
  else if phaseIs c PhaseWatching || phaseIs c PhasePaused || phaseIs c PhaseDegraded then
    setPhase (steadyPhase (connected (reads c)) (life c)) c
  else c.

(** A sweep's outcome in the status: what [onReport] does besides the metrics. *)
Definition onReport (c : check) (rep : option Report) (err : option Sweeper.Error) : check :=
  let sweep_report := match rep with
                      | Some r => match RPass r with PassOracleToTarget => Some r | _ => None end
                      | None => None end in
  let c := match err, sweep_report with
           | None, Some r => set_life c (with_report (life c) r)
           | _, _ => c
           end in
  let unavailable := bool_decide (err = Some ErrTargetUnavailable) in
  let c := if unavailable then set_life c (with_unreachable (life c) true)
           else match sweep_report with
                | Some r => set_life c (with_unreachable (life c) (negb (Reachable (TargetHealth r))))
                | None => c
                end in
  if unavailable then
    setPhase (PhaseDegraded, "the target could not be reached; nothing was compared") c
  else match err with
       | Some _ => c
       | None =>
           if phaseIs c PhaseDegraded then setPhase (steadyPhase (connected (reads c)) (life c)) c else c
       end.

(** ** Construction *)

Definition build_reorder : reorderBuffer :=
  newReorderBuffer (if Commutative p then 0 else Policy_ReorderWindow (Spec_Policy s))
    defaultMaxHeldPerPublisher.

Definition build_tracker : Tracker :=
  SeqTrack.New (SeqTrack.mkConfig (Policy_MaxPublishers (Spec_Policy s)) 0 0 0).

Definition build_oracle : Oracle :=
  let pol := Spec_Policy s in
  Oracle.New (Oracle.mkConfig (Policy_OracleShards pol) (Policy_MaxTrackedKeys pol) (Policy_RingSize pol)
    (Codec_RetainRaw (Spec_Codec s)) (EffectiveWindow s) (Policy_NeverSettledThreshold pol)
    (Window_Max (Policy_SettlementWindow pol)) 0).

Definition buildLag (clock_now : Time) : Estimator :=
  let w := Policy_SettlementWindow (Spec_Policy s) in
  Lag.New clock_now
    (Lag.mkConfig (TargetShape p) 0 0 0 0 (Window_Min w) (Window_Max w) (Window_SafetyFactor w)
       (if decide (Window_Mode w = WindowStatic) then Some (Window_Static w) else None) 0).

(** A check as New leaves it. *)
Definition build : check :=
  mkCheck build_oracle build_tracker build_reorder (buildLag (clk 0%nat))
    (mkLife PhasePending "" false "" false "" false (Policy_Paused (Spec_Policy s)) false None zero_time)
    (mkCounters 0 0 0 0 0 0) false None ∅ 1.
End pipeline.
