(* ===== verification/IngestFold.v ===== *)
(** * IngestFold: what the pipeline believes after a stream it saw completely

    As long as every event follows its publisher's last one, nothing is dropped
    or doubted: the oracle holds, key by key, what the projection folds from the
    events, and hence what the reference fold says, with complete trust. The
    reorder buffer extends this to streams whose events arrive out of order
    within its window. *)
From S2P Require Import Prelude GoBase GoFloat GoStrings GoTime Codec Event Projection Reference GapSet SeqTrack.
From S2P Require Import Ring Shard PathMatch Oracle Target Differ Reorder Lag Spec Ingest.

(** ** What the fold needs of a projection *)

(** Lifetimes come from the event, a mutation is for the key the event targets, and an event that
    touches no key changes none. *)
Class Disciplined (p : projection) := {
  mutation_ttl : ∀ prev e m, Projection.Apply p prev e = inr m → TTL e = None → MTTL m = None;
  mutation_key : ∀ prev e m, Projection.Apply p prev e = inr m → touches m → TargetKey p e = inr (MKey m);
  mutation_untouched : ∀ prev e m, Projection.Apply p prev e = inr m → TouchesKey (EOp e) = false → ¬ touches m
}.

Section disciplined.
Context `{TemplateEngine}.

#[export] Instance scalar_disciplined s : Disciplined (scalar_projection s).
Proof.
  split; intros prev e m; cbn [Projection.Apply scalar_projection TargetKey]; unfold scalar_Apply, touches;
    repeat (case_match; simplify_eq; cbn; try done); intros [= <-]; try done; intros Hno; first [by rewrite Hno in *|by intros []].
Qed.

#[export] Instance counter_disciplined c : Disciplined (counter_projection c).
Proof.
  split; intros prev e m; cbn [Projection.Apply counter_projection TargetKey]; unfold counter_Apply, touches;
    repeat (case_match; simplify_eq; cbn; try done); intros [= <-]; try done; intros Hno; first [by rewrite Hno in *|by intros []].
Qed.

#[export] Instance keyset_disciplined k : Disciplined (keyset_projection k).
Proof.
  split; intros prev e m; cbn [Projection.Apply keyset_projection TargetKey];
    unfold keyset_Apply, keyset_add, keyset_remove, keyset_replace, touches;
    repeat (case_match; simplify_eq; cbn; try done); intros [= <-]; try done; intros Hno; first [by rewrite Hno in *|by intros []].
Qed.
End disciplined.

(** ** Streams in sequence *)

(** The last position of each publisher. *)
Abbreviation positions := (gmap string (Z * Z)).

Definition advance (pos : positions) (e : Event.t) : positions :=
  <[Publisher e := (Epoch e, Seq e)]> pos.

Definition follows (pos : positions) (e : Event.t) : bool :=
  match pos !! Publisher e with
  | None => true
  | Some (ep, q) => (Epoch e =? ep) && (Seq e =? q + 1)
  end.

Fixpoint in_sequence (pos : positions) (es : list Event.t) : bool :=
  match es with
  | [] => true
  | e :: es => follows pos e && in_sequence (advance pos e) es
  end.

(** ** The tracker on such a stream *)

(** A publisher the tracker knows stands at its last position with nothing missing. *)
Definition tracked (pos : positions) (t : Tracker) : Prop :=
  ∀ p st, SeqTrack.pubs t !! p = Some st →
    pos !! p = Some (PEpoch st, HWM st) ∧ Count (Gaps st) = 0 ∧ GapSet.truncated (Gaps st) = false.

Lemma tracked_trust pos t p : tracked pos t → SeqTrack.Trust p t = TrustComplete.
Proof.
  intros Ht. unfold SeqTrack.Trust. destruct (SeqTrack.pubs t !! p) as [st|] eqn:Hp; [|done].
  unfold GapSet.Truncated. destruct (Ht p st Hp) as (_ & -> & ->). done.
Qed.

Lemma Count_clear g : Count (Clear g) = 0.
Proof. done. Qed.

Lemma tracked_clear pos t p : tracked pos t → tracked pos (ClearGaps p t).
Proof.
  intros Ht. unfold ClearGaps. destruct (SeqTrack.pubs t !! p) as [st|] eqn:Hp; [|done].
  intros q sq. cbn [SeqTrack.set_pub SeqTrack.pubs].
  intros [[<- <-]|[_ Hq]]%lookup_insert_Some; [|by apply Ht].
  destruct (Ht p st Hp) as (Hpos & _ & _). done.
Qed.

Section tracker.
Context `{MapOrder}.

Lemma evict_subset t p st :
  SeqTrack.pubs (evictOldestLocked t) !! p = Some st → SeqTrack.pubs t !! p = Some st.
Proof.
  unfold evictOldestLocked. destruct (foldl older _ _) as [oid oat]. case_match; [done|].
  cbn [SeqTrack.pubs]. by intros [_ ?]%lookup_delete_Some.
Qed.

Lemma tracked_observe pos t e now :
  tracked pos t → valid_event e → follows pos e = true →
  ∃ t' v g, SeqTrack.Observe e now t = Some (t', v, g) ∧ tracked (advance pos e) t'
    ∧ (v = Accept ∨ v = AcceptFirstSeen).
Proof.
  intros Ht (Hpub & Hq & _) Hf. unfold SeqTrack.Observe, follows, advance in *.
  destruct (SeqTrack.pubs t !! Publisher e) as [st|] eqn:Hp.
  - destruct (Ht _ _ Hp) as (Hpos & Hc & Htr). rewrite Hpos in Hf. apply andb_true_iff in Hf as [He Hs].
    zbool. unfold observe_known. cbv zeta.
    assert (HWM st ≠ maxSeq ∧ u64 (HWM st + 1) = HWM st + 1) as [Hne Hu].
    { unfold is_u64, maxSeq in *. split; [lia|]. rewrite <- Hs. apply u64_small. unfold is_u64. lia. }
    rewrite He, Z.gtb_ltb, Z.ltb_irrefl, Hu, Hs, Z.eqb_refl.
    rewrite (proj2 (Z.eqb_neq _ _) Hne). cbn [negb andb].
    eexists _, _, _. split; [done|]. split; [|by left].
    intros q sq. cbn [SeqTrack.set_pub SeqTrack.pubs].
    intros [[<- <-]|[Hpq Hsq]]%lookup_insert_Some; cbn.
    + rewrite lookup_insert_eq. split_and!; try done.
    + rewrite lookup_insert_ne by done. by apply Ht.
  - eexists _, _, _. split; [done|]. split; [|by right]. unfold admitLocked.
    intros q sq. cbn [SeqTrack.set_pub SeqTrack.pubs].
    intros [[<- <-]|[Hpq Hsq]]%lookup_insert_Some; cbn.
    + by rewrite lookup_insert_eq.
    + rewrite lookup_insert_ne by done. apply Ht. case_match; [by apply evict_subset|done].
Qed.
End tracker.

Section folding.
Context {X : XXHash} {O : MapOrder} {F : FloatOverflow} {R : Rand} {C : Codec}.
Context (s : Spec) (p : projection) (clk : nat → Time) (connected : nat → bool).

(** ** One event *)

(** What [fold] leaves alone. *)
Lemma fold_frame c e v :
  let c' := fold s p clk c e v in
  tracker c' = tracker c ∧ reorder c' = reorder c ∧ life c' = life c
  ∧ gapSignals (cnt c') = gapSignals (cnt c).
Proof.
  unfold fold, onProjectionError, checkMultiWriter, recordSkew.
  destruct (TargetKey p e); [done|]. destruct (Projection.Apply _ _ _); [done|].
  repeat case_match; done.
Qed.

Definition stored_value (o : Oracle) (t : Time) (key : string) : Value :=
  match Get t o key with Some out => EntValue out | None => absent end.

(** What [fold] does to the oracle. *)
Lemma fold_oracle c e v :
  ∃ n, orc (fold s p clk c e v)
    = match TargetKey p e with
      | inl _ => orc c
      | inr key =>
          match Projection.Apply p (stored_value (orc c) (now clk c) key) e with
          | inl _ => orc c
          | inr m => (Oracle.Apply (clk n) (orc c) m e v (fold_trust c e)).1
          end
      end.
Proof.
  unfold fold, stored_value. destruct (TargetKey p e) as [err|key]; [by exists 0%nat|]. cbv zeta.
  destruct (Projection.Apply _ _ _) as [err|m]; [by exists 0%nat|].
  set (c2 := recordSkew s e (checkMultiWriter p _ e (tick c))).
  assert (orc c2 = orc c ∧ fold_trust c2 e = fold_trust c e) as [Ho Ht].
  { unfold c2, recordSkew, checkMultiWriter. repeat case_match; done. }
  rewrite Ht. cbn [orc tick]. rewrite Ho. exists (reads (tick c2)).
  change (clk (reads (tick c2))) with (now clk (tick c2)).
  destruct (Oracle.Apply _ (orc c) m e v _) as [o res]. by destruct (Applied res).
Qed.

(** The oracle holds the fold [st], completely trusted, and has room for all the keys of [K]. *)
Record believes (K : gset string) (o : Oracle) (st : State) : Prop := mk_believes {
  be_ok : ∃ bound, oracle_ok o bound;
  be_value : ∀ k, value <$> find o k = st !! k;
  be_entry : ∀ k e, find o k = Some e → trust e = TrustComplete ∧ ttl e = None ∧ 0 ≤ gen e;
  be_floor : suspectFloor o = 0;
  be_keys : dom st ⊆ K;
  be_room : Z.of_nat (size K) ≤ Z.quot (MaxTrackedKeys (Oracle.cfg o)) (Shards (Oracle.cfg o))
}.

Lemma believes_get K o st t key :
  believes K o st →
  Get t o key = (λ ent, entry_snapshot ent TrustComplete) <$> find o key
  ∧ stored_value o t key = value_at st key.
Proof.
  intros [_ Hv He Hf _ _]. unfold stored_value, value_at. rewrite <- Hv. unfold Get.
  fold (find o key). destruct (find o key) as [ent|] eqn:Hk; [|done].
  destruct (He _ _ Hk) as (Htr & Httl & Hg). unfold expired. rewrite Httl. unfold effectiveTrust.
  rewrite Htr, Hf. destruct (Z.ltb_spec (gen ent) 0); [lia|]. split; [done|]. cbn. by rewrite ?Clone_id.
Qed.

Lemma believes_apply K o st t m e v :
  believes K o st → touches m → MTTL m = None → MKey m ∈ K → is_i64 (observedAt t e) →
  believes K (Oracle.Apply t o m e v TrustComplete).1 (<[MKey m := mutated_value m]> st).
Proof.
  intros [[bound Hok] Hv He Hf Hk Hr] Ht Httl Hin Hi.
  pose proof (oo_floor _ _ Hok) as Hfl.
  assert (∀ k, is_Some (find o k) → k ∈ K) as HK.
  { intros k Hs. apply Hk, elem_of_dom. rewrite <- Hv. by apply fmap_is_Some. }
  assert (Evicted (Oracle.Apply t o m e v TrustComplete).2 = None) as Hev.
  { apply Apply_no_eviction. destruct (find o (MKey m)) eqn:Hfm; [by left|right].
    pose proof (get_shard_some o bound (MKey m) Hok) as Hs.
    pose proof (shard_dom o bound _ _ K Hok Hs HK) as Hdom.
    destruct (oo_shard _ _ Hok _ _ Hs) as (_ & -> & _).
    assert (dom (entries (get_shard o (shardFor o (MKey m)))) ⊂ K) as Hsub.
    { split; [done|]. intros Habs. specialize (Habs (MKey m) Hin). apply elem_of_dom in Habs.
      rewrite find_get_shard, Hfm in Habs. by destruct Habs. }
    apply subset_size in Hsub. rewrite size_dom in Hsub. unfold len.
    pose proof (share_pos (Oracle.cfg o) (shardFor o (MKey m)) (proj1 (oo_shards _ _ Hok)) (oo_budget _ _ Hok)).
    unfold share in *. case_match; lia. }
  pose proof (Apply_spec t o bound m e v TrustComplete Hok Ht Hi) as Hs.
  destruct (Oracle.Apply _ _ _ _ _ _) as [o' res]. cbn [fst snd] in *.
  destruct Hs as (Hok' & ent & [Hfind Hval _ (Htr & Hg & _ & _ & _ & _ & _ & Htl) _ _ _ _ Hoth (Hcfg & _ & Hfloor & _)]).
  constructor.
  - eauto.
  - intros k. rewrite lookup_insert. case_decide as Hkk; [subst k; by rewrite Hfind, <- Hval|].
    rewrite Hoth, Hev, decide_False by done. apply Hv.
  - intros k e0. destruct (decide (k = MKey m)) as [->|Hne].
    + rewrite Hfind. intros [= <-]. rewrite Htr, Htl, Hg. split_and!; [done| |lia].
      by destruct (MAction m).
    + rewrite Hoth, Hev, decide_False by done. apply He.
  - by rewrite Hfloor.
  - rewrite dom_insert. set_solver.
  - by rewrite Hcfg.
Qed.

Lemma fold_believes `{!Disciplined p} K c st b e v :
  believes K (orc c) st → awaitingSnapshot (life c) = false →
  SeqTrack.Trust (Publisher e) (tracker c) = TrustComplete →
  TTL e = None → ObservedAt e ≠ zero_time → is_i64 (ObservedAt e) →
  (∀ key, TargetKey p e = inr key → key ∈ K) →
  believes K (orc (fold s p clk c e v)) (project_one p (st, b) e).1.
Proof.
  intros Hb Haw Htrust Httl Hnz Hi HK. destruct (fold_oracle c e v) as [n ->].
  unfold project_one. destruct (TargetKey p e) as [err|key] eqn:Hkey; [done|].
  destruct (believes_get K (orc c) st (now clk c) key Hb) as [_ ->].
  destruct (Projection.Apply p (value_at st key) e) as [err|m] eqn:Hm; [done|].
  unfold fold_trust. rewrite Haw, Htrust.
  destruct (decide (touches m)) as [Ht|Hnt].
  2: { rewrite Apply_none by done. unfold touches in Hnt. destruct (MAction m); naive_solver. }
  assert (believes K (Oracle.Apply (clk n) (orc c) m e v TrustComplete).1 (<[MKey m:=mutated_value m]> st)) as Ha.
  { apply believes_apply; [done|done|by eapply mutation_ttl| |].
    - apply HK. rewrite <- Hkey. by eapply mutation_key.
    - unfold observedAt, IsZero. rewrite (proj2 (Z.eqb_neq _ _) Hnz). done. }
  unfold mutated_value, touches in *. by destruct (MAction m).
Qed.

(** ** A stream in sequence *)

(** What the stream's events look like: the fields the oracle relies on, and keys of [K]. *)
Record plain (K : gset string) (e : Event.t) : Prop := mk_plain {
  pl_valid : valid_event e;
  pl_ttl : TTL e = None;
  pl_observed : ObservedAt e ≠ zero_time ∧ is_i64 (ObservedAt e);
  pl_key : ∀ key, TargetKey p e = inr key → key ∈ K
}.

Record sound (K : gset string) (pos : positions) (st : State) (c : check) : Prop := mk_sound {
  so_believes : believes K (orc c) st;
  so_tracked : tracked pos (tracker c);
  so_awaiting : awaitingSnapshot (life c) = false;
  so_signals : gapSignals (cnt c) = 0
}.

Lemma believes_clear K o st pattern : believes K o st → believes K (ClearSuspect o pattern) st.
Proof.
  intros [[bound Hok] Hv He Hf Hk Hr]. destruct (ClearSuspect_ok o bound pattern Hok) as (Hok' & Hfind & Hfloor).
  pose proof (oo_floor _ _ Hok) as Hfl.
  constructor; [eauto| | | |done|].
  - intros k. rewrite Hfind, <- Hv. destruct (find o k) as [ent|]; [|done]. cbn. f_equal.
    unfold cleared. by repeat case_match.
  - intros k e. rewrite Hfind. destruct (find o k) as [ent|] eqn:Hfe; [|done]. intros [= <-].
    destruct (He _ _ Hfe) as (Ht & Htl & Hg). unfold cleared. destruct (covers pattern k); [|by split_and!].
    cbv zeta. rewrite Ht. rewrite (decide_False (P := TrustComplete = TrustSuspect)) by done.
    rewrite Ht, decide_True by done. cbn. split_and!; [done|done|lia].
  - rewrite Hfloor, Hf. by case_decide.
  - unfold ClearSuspect, set_shards. cbn. by case_decide.
Qed.

Lemma snapshot_sound K pos st c e : sound K pos st c → sound K pos st (onSnapshotOp p connected c e).
Proof.
  intros [Hb Ht Ha Hg]. unfold onSnapshotOp.
  destruct (EOp e); try by constructor. cbn [life set_orc set_tracker bump set_cnt]. rewrite Ha.
  constructor; cbn [orc tracker life cnt set_orc set_tracker bump set_cnt]; [by apply believes_clear|by apply tracked_clear|done|done].
Qed.

Lemma snapshot_frame c e : reorder (onSnapshotOp p connected c e) = reorder c.
Proof. unfold onSnapshotOp. by repeat case_match. Qed.

Lemma ordered_sound `{!Disciplined p} K pos st b c e :
  sound K pos st c → follows pos e = true → plain K e →
  ∃ c', applyOrdered s p clk connected c e = Some c'
    ∧ sound K (advance pos e) (project_one p (st, b) e).1 c' ∧ reorder c' = reorder c.
Proof.
  intros [Hb Ht Ha Hg] Hf [Hv Httl [Hnz Hi] HK]. unfold applyOrdered.
  destruct (tracked_observe pos (tracker c) e (now clk c) Ht Hv Hf) as (t' & v & g & -> & Ht' & Hverdict).
  set (c1 := tick (set_tracker c t')).
  assert (sound K (advance pos e) st c1) as Hs1 by by constructor.
  set (c2 := onSnapshotOp p connected c1 e).
  assert (sound K (advance pos e) st c2) as Hs2 by by apply snapshot_sound.
  assert (reorder c2 = reorder c) as Hr2 by exact (snapshot_frame c1 e).
  exists (fold s p clk c2 e v). split; [by destruct Hverdict as [-> | ->]|].
  destruct (fold_frame c2 e v) as (Htr & Hro & Hli & Hsi). destruct Hs2 as [Hb2 Ht2 Ha2 Hg2].
  split; [|by rewrite Hro]. constructor.
  - apply (fold_believes K); try done. by eapply tracked_trust.
  - by rewrite Htr.
  - by rewrite Hli.
  - by rewrite Hsi.
Qed.

Lemma released_sound `{!Disciplined p} K es : ∀ pos acc c,
  sound K pos acc.1 c → in_sequence pos es = true → Forall (plain K) es →
  ∃ c', apply_released s p clk connected c es = Some c'
    ∧ sound K (foldl advance pos es) (foldl (project_one p) acc es).1 c' ∧ reorder c' = reorder c.
Proof.
  induction es as [|e es IH]; intros pos [st b] c Hs Hseq Hall; [eauto|].
  cbn [in_sequence] in Hseq. apply andb_true_iff in Hseq as [Hf Hseq]. inversion Hall as [|? ? Hp Hall']; subst.
  destruct (ordered_sound K pos st b c e Hs Hf Hp) as (c1 & Hc1 & Hs1 & Hr1).
  cbn [apply_released foldl]. rewrite Hc1. cbn [mbind option_bind].
  destruct (IH (advance pos e) (project_one p (st, b) e) c1 Hs1 Hseq Hall') as (c' & Hc' & Hs' & Hr').
  exists c'. split_and!; [done|done|congruence].
Qed.

(** ** Messages *)

Fixpoint ingest_all (c : check) (msgs : list RawMessage) : option check :=
  match msgs with
  | [] => Some c
  | msg :: msgs => c ← Ingest s p clk connected c msg; ingest_all c msgs
  end.

(** The messages decode to these events, stamped with their time of receipt, and pass validation. *)
Definition decodes (msg : RawMessage) (e : Event.t) : Prop :=
  RObservedAt msg ≠ zero_time ∧ Decode (Payload msg) (RTopic msg) (RObservedAt msg) = inr e
  ∧ Validate e = None.

Lemma decodes_valid msg e : decodes msg e → valid_event e ∧ ObservedAt e = RObservedAt msg.
Proof.
  intros (_ & Hd & Hv). pose proof (Decode_uint64 _ _ _ _ Hd) as [Hs He].
  split; [|by eapply Decode_ObservedAt]. split; [by apply Validate_publisher|done].
Qed.

Definition timed (es : list Event.t) : list (Event.t * Time) := (λ e, (e, ObservedAt e)) <$> es.

Lemma ingest_sound `{!Disciplined p} K msgs : ∀ es pos acc c r' out refs,
  Forall2 decodes msgs es → sound K pos acc.1 c →
  run (reorder c) (offers (timed es)) = (r', out, refs) →
  in_sequence pos out = true → Forall (plain K) out →
  ∃ c', ingest_all c msgs = Some c'
    ∧ sound K (foldl advance pos out) (foldl (project_one p) acc out).1 c' ∧ reorder c' = r'.
Proof.
  induction msgs as [|msg msgs IH]; intros es pos acc c r' out refs Hd Hs Hrun Hseq Hall.
  { inversion Hd; subst. cbn in Hrun. injection Hrun as <- <- <-. eauto. }
  inversion Hd as [|? e ? es' Hde Hd']; subst. destruct (decodes_valid _ _ Hde) as [_ Hobs].
  destruct Hde as (Hnz & Hdec & Hval).
  change (offers (timed (e :: es'))) with (Offer e (ObservedAt e) :: offers (timed es')) in Hrun.
  cbn [run step] in Hrun. destruct (offer (reorder c) e (ObservedAt e)) as [r1 rel] eqn:Ho.
  destruct (run r1 _) as [[r2 outs] rs] eqn:Hr2. injection Hrun as <- <- <-.
  assert (∀ l pos', in_sequence pos' (l ++ outs)
    = in_sequence pos' l && in_sequence (foldl advance pos' l) outs) as Happ.
  { induction l as [|x l IHl]; intros pos'; [done|]. cbn. by rewrite IHl, andb_assoc. }
  rewrite Happ in Hseq. apply andb_true_iff in Hseq as [Hseq1 Hseq2]. apply Forall_app in Hall as [Hall1 Hall2].
  cbn [ingest_all]. unfold Ingest, applyMessage. unfold IsZero. rewrite (proj2 (Z.eqb_neq _ _) Hnz), Hdec, Hval.
  set (c1 := tick (bump _ c)). change (reorder c1) with (reorder c). rewrite Ho.
  assert (sound K pos acc.1 (set_reorder c1 r1)) as Hs1 by (destruct Hs; by constructor).
  destruct (released_sound K rel pos acc _ Hs1 Hseq1 Hall1) as (c2 & -> & Hs2 & Hro).
  cbn [mbind option_bind]. cbn [reorder set_reorder] in Hro.
  rewrite !foldl_app. eapply (IH es'); [done|done|by rewrite Hro|done|done].
Qed.

(** ** A new check *)

Lemma New_find oc k : find (Oracle.New oc) k = None.
Proof.
  unfold find, get_shard, Oracle.New. cbn [shards]. rewrite list_lookup_fmap.
  destruct (seq _ _ !! _); cbn [fmap option_fmap option_map default entries newShard]; apply lookup_empty.
Qed.

Lemma build_sound K :
  Z.of_nat (size K) ≤ Z.quot (MaxTrackedKeys (Oracle.cfg (build_oracle s))) (Shards (Oracle.cfg (build_oracle s))) →
  sound K ∅ ∅ (build s p clk).
Proof.
  intros Hroom. constructor; [| |done|done].
  2: { intros q st Hq. change ((∅ : gmap string PublisherState) !! q = Some st) in Hq.
       by rewrite lookup_empty in Hq. }
  constructor.
  - exists 0. apply New_ok.
  - intros k. cbn [orc build]. unfold build_oracle. by rewrite New_find, lookup_empty.
  - intros k e. cbn [orc build]. unfold build_oracle. by rewrite New_find.
  - done.
  - rewrite dom_empty. set_solver.
  - exact Hroom.
Qed.
End folding.

(** ** Streams that arrive within the window *)

(** A publisher's events arrive as its first one and then, in any order, the next [n] sequence numbers
    of the same epoch. *)
Definition within_window (limit : Z) (es : list Event.t) (pub : string) : Prop :=
  stream_of pub es = []
  ∨ ∃ e0 rest n, stream_of pub es = e0 :: rest ∧ (∀ e, e ∈ rest → Epoch e = Epoch e0)
      ∧ Seq <$> rest ≡ₚ seqZ (Seq e0 + 1) n ∧ 0 ≤ n ∧ Seq e0 + n < max_u64 ∧ n < limit.

(** Publisher by publisher, from the positions on. *)
Definition stream_follows (pos : positions) (pub : string) (l : list Event.t) : Prop :=
  match pos !! pub with
  | Some (ep, q) => Forall (λ e, Epoch e = ep) l ∧ Seq <$> l = seqZ (q + 1) (Z.of_nat (length l))
  | None => l = [] ∨ ∃ ep q, Forall (λ e, Epoch e = ep) l ∧ Seq <$> l = seqZ q (Z.of_nat (length l))
  end.

Lemma seqZ_head {A} (f : A → Z) x l q :
  f <$> x :: l = seqZ q (Z.of_nat (length (x :: l))) → f x = q ∧ f <$> l = seqZ (q + 1) (Z.of_nat (length l)).
Proof.
  cbn [length]. rewrite seqZ_cons by lia. cbn [fmap list_fmap]. intros [= -> ->].
  split; [done|]. f_equal; lia.
Qed.

Lemma in_sequence_streams es : ∀ pos,
  (∀ pub, stream_follows pos pub (stream_of pub es)) → in_sequence pos es = true.
Proof.
  induction es as [|e es IH]; intros pos Hs; [done|]. cbn [in_sequence].
  pose proof (Hs (Publisher e)) as He. unfold stream_of in He. rewrite filter_cons_True in He by done.
  fold (stream_of (Publisher e) es) in He.
  assert (∃ q, Seq e = q ∧ follows pos e = true
    ∧ Forall (λ x, Epoch x = Epoch e) (stream_of (Publisher e) es)
    ∧ Seq <$> stream_of (Publisher e) es = seqZ (q + 1) (Z.of_nat (length (stream_of (Publisher e) es))))
    as (q & Hq & Hf & Hep & Hseq).
  { unfold stream_follows in He. unfold follows. destruct (pos !! Publisher e) as [[ep q]|].
    - destruct He as [Hep Hq%seqZ_head]. inversion Hep; subst. destruct Hq as [-> ?]. exists (q + 1).
      by rewrite !Z.eqb_refl.
    - destruct He as [?|(ep & q & Hep & Hq%seqZ_head)]; [done|]. inversion Hep; subst.
      destruct Hq as [<- ?]. by exists (Seq e). }
  rewrite Hf. cbn [andb]. apply IH. intros pub. unfold stream_follows, advance.
  destruct (decide (Publisher e = pub)) as [<-|Hne].
  - rewrite lookup_insert_eq. by rewrite Hq.
  - rewrite lookup_insert_ne by done. specialize (Hs pub). unfold stream_of in Hs.
    by rewrite filter_cons_False in Hs.
Qed.

Lemma streams_perm es : ∀ out, (∀ pub, stream_of pub out ≡ₚ stream_of pub es) → out ≡ₚ es.
Proof.
  induction es as [|e es IH]; intros out Hs.
  - destruct out as [|x out]; [done|]. specialize (Hs (Publisher x)). unfold stream_of in Hs.
    rewrite filter_cons_True in Hs by done. by apply Permutation_sym, Permutation_nil_cons in Hs.
  - assert (e ∈ out) as Hin.
    { assert (e ∈ stream_of (Publisher e) out) as Hin.
      { rewrite Hs. unfold stream_of. rewrite filter_cons_True by done. by left. }
      by apply list_elem_of_filter in Hin as [_ ?]. }
    apply elem_of_Permutation in Hin as [out' Hout]. rewrite Hout. f_equiv. apply IH. intros pub.
    specialize (Hs pub). assert (stream_of pub out ≡ₚ stream_of pub (e :: out')) as Hp by (unfold stream_of; by rewrite Hout).
    rewrite Hp in Hs. unfold stream_of in *. rewrite !filter_cons in Hs. case_decide; [|done].
    by apply Permutation_cons_inv in Hs.
Qed.

Section agreement.
Context {X : XXHash} {O : MapOrder} {F : FloatOverflow} {R : Rand} {C : Codec} {T : TemplateEngine}.

Lemma timed_events es : (timed es).*1 = es.
Proof. unfold timed. rewrite <- list_fmap_compose. apply list_fmap_id. Qed.

Lemma run_disabled r es : enabled r = false → run r (offers (timed es)) = (r, es, []).
Proof.
  intros Hen. induction es as [|e es IH]; [done|].
  change (offers (timed (e :: es))) with (Offer e (ObservedAt e) :: offers (timed es)).
  cbn [run step refused]. unfold offer. rewrite Hen. cbn [negb andb]. by rewrite IH.
Qed.

Lemma run_in_window window limit es :
  0 < window → (∀ e, e ∈ es → is_u64 (Seq e)) →
  (∀ pub, within_window (maxHeld (newReorderBuffer window limit)) es pub) →
  let '(_, out, _) := run (newReorderBuffer window limit) (offers (timed es)) in
  out ≡ₚ es ∧ in_sequence ∅ out = true.
Proof.
  intros Hw Hu Hin.
  assert (∀ pub, let '(_, out, _) := run (newReorderBuffer window limit) (offers (timed es)) in
    stream_of pub out ≡ₚ stream_of pub es ∧ stream_follows ∅ pub (stream_of pub out)) as Hs.
  { intros pub. destruct (Hin pub) as [Hnil|(e0 & rest & n & Hsent & Hep & Hseq & Hn & Hmax & Hlim)].
    - assert (Forall valid (offers (timed es))) as Hv.
      { apply Forall_forall. intros x (et & -> & Het)%list_elem_of_fmap.
        apply list_elem_of_fmap in Het as (e & -> & He). by apply Hu. }
      pose proof (run_spec _ _ (newReorderBuffer_ok window limit) Hv) as Hr.
      destruct (run _ _) as [[r out] refs]. destruct Hr as (_ & Hc & _). specialize (Hc pub).
      assert (concat (offered <$> offers (timed es)) = es) as Hoff.
      { clear. induction es as [|e es IH]; [done|].
        change (offers (timed (e :: es))) with (Offer e (ObservedAt e) :: offers (timed es)). cbn. by f_equal. }
      rewrite Hoff, Hnil in Hc. unfold held_of, entry_of in Hc. cbn [pubs newReorderBuffer] in Hc.
      rewrite lookup_empty in Hc. cbn in Hc. apply Permutation_nil_r, app_eq_nil in Hc as [-> _].
      rewrite Hnil. split; [done|by left].
    - assert (0 ≤ Seq e0) as H0.
      { assert (e0 ∈ stream_of pub es) as He by (rewrite Hsent; by left).
        apply list_elem_of_filter in He as [_ He]. apply (Hu e0 He). }
      pose proof (restored_order window limit (timed es) pub (Epoch e0) (Seq e0) e0 rest n) as Hr.
      rewrite timed_events in Hr. destruct (run _ _) as [[r out] refs].
      destruct Hr as [Hperm Horder]; try done. rewrite Hsent. split; [done|]. right.
      exists (Epoch e0), (Seq e0). split.
      + apply Forall_forall. intros x Hx. rewrite Hperm in Hx.
        apply elem_of_cons in Hx as [->|Hx]; [done|auto].
      + rewrite Horder. f_equal. apply (f_equal length) in Horder.
        rewrite length_fmap, length_seqZ in Horder. lia. }
  destruct (run _ _) as [[r out] refs]. split.
  - apply streams_perm. intros pub. apply Hs.
  - apply in_sequence_streams. intros pub. apply Hs.
Qed.

(** The projections with the identity templates and the reference folds they are tested against. *)
Inductive matched : projection → Reference → Prop :=
  | matched_keyset k :
      ks_keyTmpl k = identity_key → ks_memberTmpl k = identity_member → 0 < ks_maxMembers k →
      matched (keyset_projection k) (WithDelimiter (ks_delimiter k) (NewReference ShapeSet))
  | matched_counter c :
      ct_keyTmpl c = identity_key →
      matched (counter_projection c) (WithIncrOnly (ct_incrOnly c) (NewReference ShapeCounter))
  | matched_scalar sc :
      sc_keyTmpl sc = identity_key → matched (scalar_projection sc) (NewReference ShapeScalar).

Lemma matched_disciplined p r : matched p r → Disciplined p.
Proof. destruct 1; apply _. Qed.

Lemma matched_agrees p r es key :
  matched p r → (project_all p es).2 = false →
  value_at (project_all p es).1 key = value_at (Fold r es) key.
Proof.
  intros Hm Hf. revert key. destruct Hm as [k Hk Hmt Hmax|c Hk|sc Hk];
    (eapply simulation_fold; [intros st ref e b|intros acc e|exact Hf]).
  - intros. by apply keyset_one_event.
  - by apply keyset_untouched.
  - intros. by apply counter_one_event.
  - by apply counter_untouched.
  - intros. by apply scalar_one_event.
  - by apply scalar_untouched.
Qed.

(** What a check's stream looks like when nothing was lost: the messages decode to events without
    lifetimes, their keys fit the oracle, and every publisher's events arrive in sequence or, when the
    reorder buffer is on, out of order within its window. *)
Record complete_stream (s : Spec) (p : projection) (msgs : list RawMessage) (es : list Event.t) : Prop :=
  mk_complete_stream {
  cs_decodes : Forall2 decodes msgs es;
  cs_ttl : Forall (λ e, TTL e = None) es;
  cs_instants : Forall (λ m, is_i64 (RObservedAt m)) msgs;
  cs_room : Z.of_nat (size (list_to_set (omap (λ e, match TargetKey p e with inr k => Some k | _ => None end) es) : gset string))
            ≤ Z.quot (MaxTrackedKeys (Oracle.cfg (build_oracle s))) (Shards (Oracle.cfg (build_oracle s)));
  cs_order : if enabled (build_reorder s p)
             then ∀ pub, within_window defaultMaxHeldPerPublisher es pub
             else in_sequence ∅ es = true
}.

(** The argument of [pipeline_agrees_with_reference], for the codecs of the repository too. *)
Lemma complete_stream_folds s p r clk connected msgs es :
  matched p r → complete_stream s p msgs es →
  ∃ c out, ingest_all s p clk connected (build s p clk) msgs = Some c
    ∧ out ≡ₚ es ∧ in_sequence ∅ out = true ∧ gapSignals (cnt c) = 0
    ∧ ∀ key t,
        ((project_all p out).2 = false → stored_value (orc c) t key = value_at (Fold r out) key)
        ∧ (∀ en, Get t (orc c) key = Some en → Trust en = TrustComplete ∧ Expired en = false).
Proof.
  intros Hm [Hd Httl Hi Hroom Hord]. pose proof (matched_disciplined _ _ Hm) as Hdis.
  set (K := list_to_set (omap _ es) : gset string) in *.
  assert (∀ e, e ∈ es → plain p K e) as Hplain.
  { intros e He. apply list_elem_of_lookup in He as He'. destruct He' as [i Hei].
    destruct (Forall2_lookup_r _ _ _ _ _ Hd Hei) as (m & Hmi & Hde).
    destruct (decodes_valid _ _ Hde) as [Hv Hobs]. constructor; [done| |rewrite Hobs; split|].
    - rewrite Forall_forall in Httl. auto.
    - by destruct Hde.
    - rewrite Forall_lookup in Hi. eauto.
    - intros key Hkey. apply elem_of_list_to_set, list_elem_of_omap. exists e. by rewrite Hkey. }
  destruct (run (build_reorder s p) (offers (timed es))) as [[r' out] refs] eqn:Hrun.
  assert (out ≡ₚ es ∧ in_sequence ∅ out = true) as [Hperm Hseq].
  { destruct (enabled (build_reorder s p)) eqn:Hen.
    - unfold build_reorder in Hrun, Hen. set (w := if Commutative p then _ else _) in *.
      pose proof (run_in_window w defaultMaxHeldPerPublisher es) as Hw. rewrite Hrun in Hw. apply Hw.
      + unfold enabled in Hen. by apply Z.ltb_lt in Hen.
      + intros e He. apply (pl_valid _ _ _ (Hplain e He)).
      + exact Hord.
    - rewrite run_disabled in Hrun by done. by injection Hrun as <- <- <-. }
  destruct (ingest_sound s p clk connected K msgs es ∅ (∅, false) (build s p clk) r' out refs Hd
    (build_sound s p clk K Hroom) Hrun Hseq) as (c & Hc & [Hb _ _ Hg] & _).
  { apply Forall_forall. intros e He. apply Hplain. by rewrite <- Hperm. }
  exists c, out. split_and!; try done. intros key t.
  destruct (believes_get K (orc c) _ t key Hb) as [Hget Hval]. split.
  - intros Hf. rewrite Hval. by apply matched_agrees.
  - intros en. rewrite Hget. destruct (find (orc c) key); [|done]. by intros [= <-].
Qed.

End agreement.
