(* ===== verification/IngestSafety.v ===== *)
(** * IngestSafety: what holds in every state of a running check

    The applier takes messages, releases and applies events one by one; the
    source's loss signals, the start-up scan, the estimator and the sweeper's
    reads of the oracle come in between. A step is one of these; the queue holds
    the released events that are still to be applied. *)
From S2P Require Import Prelude GoBase GoFloat GoStrings GoTime Codec Sweeper Event Projection GapSet SeqTrack.
From S2P Require Import Ring Shard PathMatch Oracle Target Differ Reorder Lag Spec Ingest IngestFold.

(** ** Trackers *)

Definition tracker_wf (t : Tracker) : Prop := ∀ p st, SeqTrack.pubs t !! p = Some st → pub_wf st.

Lemma tracker_wf_set p st t : pub_wf st → tracker_wf t → tracker_wf (SeqTrack.set_pub p st t).
Proof. intros Hst Ht q sq. cbn. intros [[_ <-]|[_ Hq]]%lookup_insert_Some; [done|by apply (Ht q)]. Qed.

Lemma tracker_wf_clear p t : tracker_wf t → tracker_wf (ClearGaps p t).
Proof.
  intros Ht. unfold ClearGaps. destruct (SeqTrack.pubs t !! p) as [st|] eqn:Hp; [|done].
  apply tracker_wf_set; [|done]. destruct (Ht p st Hp). constructor; cbn; auto with drift.
  by intros q ?%covers_clear.
Qed.

Lemma trust_of st t p :
  SeqTrack.pubs t !! p = Some st → pub_wf st →
  SeqTrack.Trust p t = TrustComplete ↔ (∀ q, ¬ GapSet.covers (Gaps st) q) ∧ GapSet.truncated (Gaps st) = false.
Proof.
  intros Hp [Hg _ Hb]. unfold SeqTrack.Trust, GapSet.Truncated. rewrite Hp.
  assert (∃ q, is_u64 q ∧ ¬ GapSet.covers (Gaps st) q) as Hout.
  { exists max_u64. split; [done|]. intros Hc%Hb. lia. }
  rewrite <- (Count_zero _ Hg Hout). destruct (Z.gtb_spec (Count (Gaps st)) 0) as [Hc|Hc]; cbn [orb].
  - split; [done|]. intros [? _]. lia.
  - assert (Count (Gaps st) = 0) as ->.
    { pose proof (u64_range (GapSet.total (intervals (Gaps st)))) as Hr. rewrite <- Count_total in Hr.
      unfold is_u64 in Hr. lia. }
    destruct (GapSet.truncated (Gaps st)); naive_solver.
Qed.

Lemma trust_clear p q t :
  tracker_wf t → SeqTrack.Trust q t = TrustComplete ∨ q = p → SeqTrack.Trust q (ClearGaps p t) = TrustComplete.
Proof.
  intros Ht Hq. unfold ClearGaps. destruct (SeqTrack.pubs t !! p) as [st|] eqn:Hp.
  - destruct (decide (q = p)) as [->|Hne].
    + unfold SeqTrack.Trust. cbn. by rewrite lookup_insert_eq.
    + destruct Hq as [Hq|]; [|done]. unfold SeqTrack.Trust in *. cbn. by rewrite lookup_insert_ne.
  - destruct Hq as [Hq| ->]; [done|]. unfold SeqTrack.Trust. by rewrite Hp.
Qed.

(** An event casts doubt on its own publisher only, and then its verdict is a gap. *)
Lemma observe_wf_trust `{MapOrder} e now t :
  tracker_wf t → valid_event e →
  ∃ t' v g, SeqTrack.Observe e now t = Some (t', v, g) ∧ tracker_wf t'
    ∧ ∀ q, SeqTrack.Trust q t = TrustComplete →
        SeqTrack.Trust q t' = TrustComplete ∨ q = Publisher e ∧ v = AcceptWithGap.
Proof.
  intros Ht He. unfold SeqTrack.Observe. destruct (SeqTrack.pubs t !! Publisher e) as [st|] eqn:Hp.
  - destruct (observe_known_total (SeqTrack.cfg t) st e now (Ht _ _ Hp) He) as (st' & v & g & Ho & Hwf).
    rewrite Ho. eexists _, _, _. split; [done|]. split; [by apply tracker_wf_set|]. intros q Hq.
    destruct (decide (q = Publisher e)) as [->|Hne].
    2: { left. unfold SeqTrack.Trust in *. cbn. by rewrite lookup_insert_ne. }
    apply (trust_of st t _ Hp (Ht _ _ Hp)) in Hq as [Hq Htr].
    destruct (decide (v = AcceptWithGap)) as [->|Hv]; [by right|left].
    apply (trust_of st'); [cbn; apply lookup_insert_eq|done|].
    unfold observe_known in Ho. repeat case_match; simplify_eq; cbn; try done; try (by split);
      try (split; [intros x; apply covers_clear|done]).
    exfalso. eapply Hq, Contains_covers; [apply (pub_gaps _ (Ht _ _ Hp))|done].
  - eexists _, _, _. split; [done|]. unfold admitLocked.
    set (t0 := if _ >=? _ then _ else _).
    assert (∀ q st, SeqTrack.pubs t0 !! q = Some st → SeqTrack.pubs t !! q = Some st) as H0.
    { intros q st. unfold t0. case_match; [by apply evict_subset|done]. }
    split.
    + apply tracker_wf_set; [by apply pub_wf_fresh|]. intros q st Hq. by apply (Ht q), H0.
    + intros q Hq. left. unfold SeqTrack.Trust in *. cbn. rewrite lookup_insert. case_decide; [done|].
      destruct (SeqTrack.pubs t0 !! q) as [st|] eqn:Hq0; [|done]. by rewrite (H0 _ _ Hq0) in Hq.
Qed.

Section safety.
Context {X : XXHash} {O : MapOrder} {F : FloatOverflow} {R : Rand} {C : Codec}.
Context (s : Spec) (p : projection) (clk : nat → Time) (connected : nat → bool).
(** The clock's instants are ones [UnixNano] represents (1678 to 2262). *)
Context (clock_sane : ∀ n, is_i64 (clk n)).

Record running := mkRunning { chk : check; queue : list Event.t }.

(** ** Steps *)

(** The applier takes a message that passes, with the event it holds. *)
Definition received (c : check) (msg : RawMessage) (e : Event.t) : Prop :=
  let observed := if IsZero (RObservedAt msg) then now clk c else RObservedAt msg in
  Decode (Payload msg) (RTopic msg) observed = inr e ∧ Validate e = None ∧ is_i64 observed.

(** The generation counter of the oracle has not been around yet. *)
Definition unwrapped (x : running) : Prop := suspectGen (orc (chk x)) < max_u64.

Inductive check_step (Q : Event.t → Prop) : running → running → Prop :=
  | step_message c msg e r rel :
      received c msg e → offer (reorder c) e (ObservedAt e) = (r, rel) →
      check_step Q (mkRunning c [])
        (mkRunning (set_reorder (tick (bump (count_bytes (Z.of_nat (String.length (Payload msg)))) c)) r) rel)
  | step_undecodable c msg :
      check_step Q (mkRunning c [])
        (mkRunning (onDecodeError (tick (bump (count_bytes (Z.of_nat (String.length (Payload msg)))) c))) [])
  | step_invalid c msg :
      check_step Q (mkRunning c [])
        (mkRunning (drop_event (tick (bump (count_bytes (Z.of_nat (String.length (Payload msg)))) c))) [])
  | step_flush c r rel :
      expire (reorder c) (now clk c) = (r, rel) →
      check_step Q (mkRunning c []) (mkRunning (tick (set_reorder c r)) rel)
  | step_apply c e c' q :
      Q e → applyOrdered s p clk connected c e = Some c' →
      check_step Q (mkRunning c (e :: q)) (mkRunning c' q)
  | step_signal c q : check_step Q (mkRunning c q) (mkRunning (SignalGap c) q)
  | step_poll c q cancelled read :
      check_step Q (mkRunning c q) (mkRunning (PollLag clk c cancelled read) q)
  | step_adopt c q at_ adopted skipped kvs :
      is_i64 at_ →
      check_step Q (mkRunning c q) (mkRunning (adopt_batch s c at_ adopted skipped kvs).1.1 q)
  | step_sweep c q t :
      is_i64 (time_Add t (- MaxSettlementWindow (Oracle.cfg (orc c)))) →
      check_step Q (mkRunning c q) (mkRunning (set_orc c (promoted (orc c) t)) q)
  | step_strict c q :
      check_step Q (mkRunning c q) (mkRunning (mark "" (set_life c (with_awaiting (life c) true))) q)
  | step_life c q l :
      awaitingSnapshot l = awaitingSnapshot (life c) →
      check_step Q (mkRunning c q) (mkRunning (set_life c l) q).

Definition guarded_step (Q : Event.t → Prop) (x y : running) : Prop := unwrapped x ∧ check_step Q x y.

(** The states a check reaches from its construction. *)
Definition reached (Q : Event.t → Prop) (x : running) : Prop :=
  rtc (guarded_step Q) (mkRunning (build s p clk) []) x.

(** ** The invariant *)

Definition good (e : Event.t) : Prop := valid_event e ∧ is_i64 (ObservedAt e).

Record running_ok (x : running) : Prop := mk_running_ok {
  ro_oracle : ∃ bound, oracle_ok (orc (chk x)) bound;
  ro_tracker : tracker_wf (tracker (chk x));
  ro_reorder : reorder_ok (reorder (chk x));
  ro_held : ∀ q e, e ∈ held_of (reorder (chk x)) q → good e;
  ro_queue : Forall good (queue x)
}.

(** What was offered or held is what is held or released. *)
Lemma conserves_good r r' inp out refs :
  conserves r inp out refs r' → (∀ q e, e ∈ held_of r q → good e) → Forall good inp →
  (∀ q e, e ∈ held_of r' q → good e) ∧ Forall good out.
Proof.
  intros Hc Hh Hi. assert (∀ q e, e ∈ stream_of q out ++ held_of r' q → good e) as Hall.
  { intros q e He. assert (e ∈ stream_of q out ++ held_of r' q ++ stream_of q refs) as He'.
    { rewrite app_assoc. apply elem_of_app. by left. }
    rewrite (Hc q) in He'. apply elem_of_app in He' as [He'|He']; [by eapply Hh|].
    apply list_elem_of_filter in He' as [_ He']. rewrite Forall_forall in Hi. auto. }
  split.
  - intros q e He. apply (Hall q), elem_of_app. by right.
  - apply Forall_forall. intros e He. apply (Hall (Publisher e)), elem_of_app. left.
    by apply list_elem_of_filter.
Qed.

Lemma received_good c msg e : received c msg e → good e.
Proof.
  intros (Hd & Hv & Hi). pose proof (Decode_uint64 _ _ _ _ Hd) as [Hs He].
  split; [split; [by apply Validate_publisher|done]|]. by rewrite (Decode_ObservedAt _ _ _ _ Hd).
Qed.

Lemma observed_i64 t e : is_i64 t → is_i64 (ObservedAt e) → is_i64 (observedAt t e).
Proof. intros Ht He. unfold observedAt. by case_match. Qed.

Lemma mark_ok bound o pattern :
  oracle_ok o bound → suspectGen o < max_u64 → oracle_ok (MarkSuspect o pattern) bound.
Proof. intros Ho Hg. by apply MarkSuspect_ok. Qed.

(** The oracle after a fold. *)
Lemma fold_oracle_ok c e v bound :
  oracle_ok (orc c) bound → is_i64 (ObservedAt e) →
  oracle_ok (orc (fold s p clk c e v)) bound.
Proof.
  intros Ho Hi. destruct (fold_oracle s p clk c e v) as [n ->].
  destruct (TargetKey p e); [done|]. destruct (Projection.Apply _ _ _) as [|m]; [done|].
  destruct (decide (touches m)) as [Ht|Hn]; [|by rewrite Apply_none].
  pose proof (Apply_spec (clk n) (orc c) bound m e v (fold_trust c e) Ho Ht
    (observed_i64 _ _ (clock_sane n) Hi)) as Hs.
  destruct (Oracle.Apply _ _ _ _ _ _) as [o res]. apply Hs.
Qed.

Lemma snapshot_op_ok c e bound :
  oracle_ok (orc c) bound → tracker_wf (tracker c) →
  let c' := onSnapshotOp p connected c e in
  oracle_ok (orc c') bound ∧ tracker_wf (tracker c') ∧ reorder c' = reorder c.
Proof.
  intros Ho Ht c'. split_and!; [| |apply snapshot_frame].
  - unfold c', onSnapshotOp. destruct (EOp e); try done. cbn [life set_orc set_tracker bump set_cnt].
    case_match; cbn; by apply ClearSuspect_ok.
  - unfold c', onSnapshotOp. destruct (EOp e); try done. cbn [life set_orc set_tracker bump set_cnt].
    case_match; cbn; by apply tracker_wf_clear.
Qed.

(** The doubt a verdict casts before the event is folded. *)
Definition doubted (c : check) (e : Event.t) (v : Verdict) : check :=
  match v with AcceptWithGap => onGap p c e | AcceptAfterRestart => onRestart p c e | _ => c end.

Lemma doubted_frame c e v :
  tracker (doubted c e v) = tracker c ∧ reorder (doubted c e v) = reorder c ∧ life (doubted c e v) = life c.
Proof. by destruct v. Qed.

Lemma applyOrdered_cases c e :
  tracker_wf (tracker c) → valid_event e →
  ∃ t v g, SeqTrack.Observe e (now clk c) (tracker c) = Some (t, v, g) ∧ tracker_wf t
    ∧ let c1 := tick (set_tracker c t) in
      applyOrdered s p clk connected c e
      = Some (if Accepted v then fold s p clk (onSnapshotOp p connected (doubted c1 e v) e) e v
              else drop_event c1).
Proof.
  intros Ht He. destruct (observe_wf_trust e (now clk c) (tracker c) Ht He) as (t & v & g & Ho & Hwf & _).
  exists t, v, g. split_and!; [done|done|]. cbv zeta. unfold applyOrdered. rewrite Ho. by destruct v.
Qed.

Lemma applied_ok c e c' bound :
  oracle_ok (orc c) bound → tracker_wf (tracker c) → good e → suspectGen (orc c) < max_u64 →
  applyOrdered s p clk connected c e = Some c' →
  oracle_ok (orc c') bound ∧ tracker_wf (tracker c') ∧ reorder c' = reorder c.
Proof.
  intros Ho Ht [He Hi] Hg. destruct (applyOrdered_cases c e Ht He) as (t & v & g & _ & Hwf & ->).
  intros [= <-]. set (c1 := tick (set_tracker c t)). destruct (Accepted v); [|by split_and!].
  destruct (doubted_frame c1 e v) as (Htr & Hro & _).
  assert (oracle_ok (orc (doubted c1 e v)) bound) as Hd by (destruct v; try done; by apply mark_ok).
  destruct (snapshot_op_ok (doubted c1 e v) e bound Hd) as (Hs1 & Hs2 & Hs3); [by rewrite Htr|].
  destruct (fold_frame s p clk (onSnapshotOp p connected (doubted c1 e v) e) e v) as (Hf1 & Hf2 & _ & _).
  split_and!; [by apply fold_oracle_ok|by rewrite Hf1|by rewrite Hf2, Hs3, Hro].
Qed.

Lemma adopt_batch_frame c at_ adopted skipped kvs :
  let c' := (adopt_batch s c at_ adopted skipped kvs).1.1 in
  tracker c' = tracker c ∧ reorder c' = reorder c ∧ life c' = life c
  ∧ ∃ batch, orc c' = AdoptSnapshot (orc c) batch at_.
Proof. unfold adopt_batch. destruct (foldl _ _ _) as [batch sk]. cbn. eauto. Qed.

Lemma step_keeps_ok Q x y : guarded_step Q x y → running_ok x → running_ok y.
Proof.
  intros [Hg Hs] [[bound Ho] Ht Hr Hh Hq]. unfold unwrapped in Hg.
  destruct Hs; cbn [chk queue] in *;
    try (constructor; cbn [chk queue]; try done; exists bound; cbn; by apply mark_ok).
  - pose proof (received_good _ _ _ H) as Hgood. destruct Hgood as [Hv Hi].
    pose proof (offer_step (reorder c) e (ObservedAt e) Hr (proj1 (proj2 Hv))) as Hof.
    rewrite H0 in Hof. destruct Hof as (Hr' & Hc & _).
    destruct (conserves_good _ _ _ _ _ Hc Hh) as [Hh' Hrel]; [by apply Forall_singleton|].
    constructor; try done. by exists bound.
  - constructor; try done. by exists bound.
  - pose proof (expire_step (reorder c) (now clk c) Hr) as Hex. rewrite H in Hex.
    destruct Hex as (Hr' & Hc & _). destruct (conserves_good _ _ _ _ _ Hc Hh) as [Hh' Hrel]; [done|].
    constructor; try done. by exists bound.
  - inversion Hq; subst. destruct (applied_ok c e c' bound) as (Ho' & Ht' & Hr'); try done.
    constructor; cbn [chk queue]; rewrite ?Hr'; eauto.
  - constructor; cbn [chk queue]; try done.
    all: unfold PollLag; destruct (Tick _ _ _) as [e [[o' n']|]]; cbn; try done; exists bound; try done.
    by apply SetSettlementWindow_ok.
  - destruct (adopt_batch_frame c at_ adopted skipped kvs) as (E1 & E2 & _ & batch & E3).
    constructor; cbn [chk queue]; rewrite ?E1, ?E2, ?E3; try done. exists bound. by apply AdoptSnapshot_ok.
  - constructor; try done. eexists. cbn. by apply promoted_ok.
  - constructor; try done. by exists bound.
Qed.

Lemma build_ok : running_ok (mkRunning (build s p clk) []).
Proof.
  constructor; cbn [chk queue]; try done.
  - exists 0. apply New_ok.
  - intros q e. unfold held_of, entry_of, build, build_reorder. cbn [reorder newReorderBuffer pubs].
    rewrite lookup_empty. cbn. by intros ?%elem_of_nil.
Qed.

Lemma reached_running_ok Q x : reached Q x → running_ok x.
Proof.
  unfold reached. intros Hr. pose proof build_ok as Hb.
  remember (mkRunning (build s p clk) []) as x0 eqn:Hx0. clear Hx0.
  induction Hr as [x|x y z Hxy _ IH]; [done|]. by apply IH, (step_keeps_ok Q x).
Qed.

(** C28: the applier never panics: in every state a check reaches, whatever was received, signalled,
    scanned and swept before and in whatever order, the next released event is applied; the tracker's
    gap set is never asked to add an empty range. *)
Theorem applier_never_panics x e q :
  reached (λ _, True) x → queue x = e :: q →
  ∃ c', applyOrdered s p clk connected (chk x) e = Some c'.
Proof.
  intros [_ Ht _ _ Hq]%reached_running_ok He. rewrite He in Hq. inversion Hq as [|? ? [Hv _] _]; subst.
  destruct (applyOrdered_cases (chk x) e Ht Hv) as (t & v & g & _ & _ & ->). eauto.
Qed.

(** ** Confidence *)

(** The entry of a key the oracle asserts on. *)
Definition confident (o : Oracle) (k : string) (e : entry) : Prop :=
  find o k = Some e ∧ effectiveTrust e (suspectFloor o) = TrustComplete.

(** [o'] asserts only where [o] did, for the same publisher. *)
Definition weaker (o o' : Oracle) : Prop :=
  ∀ k e', confident o' k e' → ∃ e, confident o k e ∧ lastPublisher e = lastPublisher e'.

Lemma weaker_refl o : weaker o o.
Proof. intros k e He. eauto. Qed.

Lemma weaker_trans o1 o2 o3 : weaker o1 o2 → weaker o2 o3 → weaker o1 o3.
Proof.
  intros H1 H2 k e3 H3. destruct (H2 _ _ H3) as (e2 & He2 & <-). by apply H1.
Qed.

Lemma gen_bounded o bound k e : oracle_ok o bound → find o k = Some e → gen e ≤ suspectGen o.
Proof.
  intros Hok He. pose proof (get_shard_some o bound k Hok) as Hs.
  destruct (oo_shard _ _ Hok _ _ Hs) as (_ & _ & Hk). by destruct (Hk k e He).
Qed.

(** A mark leaves no confidence under its pattern and adds none. *)
Lemma mark_confident o bound pattern k e' :
  oracle_ok o bound → suspectGen o < max_u64 → confident (MarkSuspect o pattern) k e' →
  covers pattern k = false ∧ ∃ e, confident o k e ∧ lastPublisher e = lastPublisher e'.
Proof.
  intros Hok Hg [Hf He]. pose proof (oo_floor _ _ Hok) as Hfl.
  destruct (MarkSuspect_ok o bound pattern Hok Hg) as (_ & Hm & Hmf). rewrite Hm in Hf.
  destruct (find o k) as [e|] eqn:Hfe; [|by case_decide].
  assert (e' = if decide (pattern = "") then e else marked pattern k e) as ->.
  { case_decide; by injection Hf as <-. }
  rewrite Hmf in He. rewrite effective_marked in He by (try eapply gen_bounded; eauto; lia).
  assert (covers pattern k = false ∧ effectiveTrust e (suspectFloor o) = TrustComplete) as [Hc Hc'].
  { case_bool_decide as Hb; [|by rewrite andb_false_r in He]. destruct (covers pattern k); [done|by split]. }
  split; [done|]. exists e. split; [done|]. unfold marked. by repeat case_match.
Qed.

Lemma weaker_mark o bound pattern :
  oracle_ok o bound → suspectGen o < max_u64 → weaker o (MarkSuspect o pattern).
Proof. intros Hok Hg k e' He. by eapply mark_confident. Qed.

(** A clear adds confidence under its pattern only. *)
Lemma clear_confident o bound pattern k e' :
  oracle_ok o bound → confident (ClearSuspect o pattern) k e' →
  ∃ e, find o k = Some e ∧ lastPublisher e = lastPublisher e'
    ∧ (effectiveTrust e (suspectFloor o) = TrustComplete ∨ covers pattern k = true).
Proof.
  intros Hok [Hf He]. pose proof (oo_floor _ _ Hok) as Hfl.
  destruct (ClearSuspect_ok o bound pattern Hok) as (_ & Hc & Hcf). rewrite Hc in Hf.
  destruct (find o k) as [e|] eqn:Hfe; [|done]. injection Hf as <-.
  exists e. split; [done|]. split; [unfold cleared; by repeat case_match|].
  rewrite Hcf, effective_cleared in He by (try eapply gen_bounded; eauto; lia).
  destruct (covers pattern k); [by right|by left].
Qed.

Lemma weaker_adopt o bound batch at_ :
  oracle_ok o bound → is_i64 at_ → weaker o (AdoptSnapshot o batch at_).
Proof.
  intros Hok Hi. unfold AdoptSnapshot. revert o Hok.
  induction (range_map batch) as [|[k v] l IH]; intros o Hok; [apply weaker_refl|]. cbn [foldl].
  destruct (adopt_one_spec at_ o bound k v Hok Hi) as [Hok' [Hent Hoth (_ & Hfl & _)]].
  eapply weaker_trans; [|by apply IH]. intros j e' [Hf He]. destruct (decide (j = k)) as [->|Hne].
  - destruct Hent as (ent & Hent & _ & Htr & _). rewrite Hent in Hf. injection Hf as <-.
    unfold effectiveTrust in He. by rewrite Htr in He.
  - destruct (Hoth j Hne) as [Hj|Hj]; rewrite Hj in Hf; [|done]. exists e'. split; [|done].
    split; [done|]. by rewrite <- Hfl.
Qed.

Lemma weaker_same o o' : (∀ k, find o' k = find o k) → suspectFloor o' = suspectFloor o → weaker o o'.
Proof. intros Hf Hfl k e [He Ht]. exists e. split; [|done]. split; [by rewrite <- Hf|by rewrite <- Hfl]. Qed.

(** A fold adds confidence in the key it writes, if the event's trust is complete, and nowhere else. *)
Lemma fold_confident c e v bound k e' :
  oracle_ok (orc c) bound → is_i64 (ObservedAt e) → confident (orc (fold s p clk c e v)) k e' →
  confident (orc c) k e' ∨ lastPublisher e' = Publisher e ∧ fold_trust c e = TrustComplete.
Proof.
  intros Ho Hi. destruct (fold_oracle s p clk c e v) as [n ->].
  destruct (TargetKey p e); [by left|]. destruct (Projection.Apply _ _ _) as [|m]; [by left|].
  destruct (decide (touches m)) as [Ht|Hn]; [|rewrite Apply_none by done; by left].
  pose proof (Apply_spec (clk n) (orc c) bound m e v (fold_trust c e) Ho Ht
    (observed_i64 _ _ (clock_sane n) Hi)) as Hs.
  destruct (Oracle.Apply _ _ _ _ _ _) as [o res]. cbn [fst].
  destruct Hs as (_ & ent & [Hf _ _ (Htr & _ & _ & _ & _ & Hpub & _) _ _ _ _ Hoth (_ & _ & Hfl & _)]).
  intros [Hk He]. destruct (decide (k = MKey m)) as [->|Hne].
  - right. rewrite Hf in Hk. injection Hk as <-. split; [done|]. unfold effectiveTrust in He.
    rewrite Htr in He. by destruct (fold_trust c e).
  - left. rewrite Hoth in Hk by done. case_decide; [done|]. split; [done|]. by rewrite <- Hfl.
Qed.

(** Where an applied event leaves confidence: in what it wrote itself, or where there was some before
    and the event neither revealed a gap over the key nor ended a snapshot that covers it. *)
Lemma applied_confident c e c' bound k e' :
  oracle_ok (orc c) bound → tracker_wf (tracker c) → good e → suspectGen (orc c) < max_u64 →
  applyOrdered s p clk connected c e = Some c' → confident (orc c') k e' →
  lastPublisher e' = Publisher e ∧ (awaitingSnapshot (life c') = false ∧ SeqTrack.Trust (Publisher e) (tracker c') = TrustComplete)
  ∨ (∃ e0, find (orc c) k = Some e0 ∧ lastPublisher e0 = lastPublisher e'
       ∧ (EOp e = OpSnapshotEnd ∧ covers (suspectPattern p (Publisher e)) k = true
            ∧ SeqTrack.Trust (Publisher e) (tracker c') = TrustComplete
          ∨ effectiveTrust e0 (suspectFloor (orc c)) = TrustComplete
            ∧ (SeqTrack.Trust (lastPublisher e') (tracker c) = TrustComplete →
               SeqTrack.Trust (lastPublisher e') (tracker c') = TrustComplete
               ∨ lastPublisher e' = Publisher e ∧ covers (suspectPattern p (Publisher e)) k = false))).
Proof.
  intros Ho Ht [He Hi] Hg Ha Hconf.
  destruct (observe_wf_trust e (now clk c) (tracker c) Ht He) as (t & v & g & Hobs & Hwf & Htrust).
  unfold applyOrdered in Ha. rewrite Hobs in Ha. set (c1 := tick (set_tracker c t)) in *.
  assert (c' = if Accepted v then fold s p clk (onSnapshotOp p connected (doubted c1 e v) e) e v
               else drop_event c1) as ->.
  { destruct v; by injection Ha as <-. }
  clear Ha. destruct (Accepted v) eqn:Hacc.
  2: { right. destruct Hconf as [Hf Hc]. exists e'. split_and!; [done|done|]. right. split; [done|]. intros Hq.
       destruct (Htrust _ Hq) as [?|[_ ->]]; [by left|done]. }
  set (c2 := doubted c1 e v) in *. set (c3 := onSnapshotOp p connected c2 e) in *.
  destruct (doubted_frame c1 e v) as (Htr & _ & _). fold c2 in Htr.
  assert (oracle_ok (orc c2) bound) as Ho2 by (unfold c2; destruct v; try done; by apply mark_ok).
  destruct (snapshot_op_ok c2 e bound Ho2 ltac:(by rewrite Htr)) as (Ho3 & _ & _). fold c3 in Ho3.
  destruct (fold_frame s p clk c3 e v) as (Hf1 & _ & Hf3 & _). rewrite Hf1, Hf3.
  destruct (fold_confident c3 e v bound k e' Ho3 Hi Hconf) as [Hc3|[Hpub Hft]].
  2: { left. split; [done|]. unfold fold_trust in Hft. by destruct (awaitingSnapshot (life c3)). }
  right.
  (* what the verdict's mark leaves *)
  assert (∀ en, confident (orc c2) k en → ∃ e0, confident (orc c) k e0 ∧ lastPublisher e0 = lastPublisher en
    ∧ (v = AcceptWithGap → covers (suspectPattern p (Publisher e)) k = false)) as Hmark.
  { intros en Hen. unfold c2, doubted in Hen. destruct v; try (exists en; by split_and!).
    all: destruct (mark_confident (orc c) bound _ k en Ho Hg Hen) as (Hcov & e0 & He0 & Hl); by exists e0. }
  assert (∀ q, SeqTrack.Trust q t = TrustComplete → SeqTrack.Trust q (tracker c3) = TrustComplete) as Hkeep.
  { intros q Hq. unfold c3, onSnapshotOp. destruct (EOp e); try by rewrite Htr.
    cbn [life set_orc set_tracker bump set_cnt]. case_match; cbn; rewrite Htr; apply trust_clear; auto. }
  destruct (decide (EOp e = OpSnapshotEnd)) as [Hend|Hend].
  - assert (confident (ClearSuspect (orc c2) (suspectPattern p (Publisher e))) k e') as Hcl.
    { revert Hc3. unfold c3, onSnapshotOp. rewrite Hend. cbn [life set_orc set_tracker bump set_cnt].
      by case_match. }
    destruct (clear_confident _ bound _ k e' Ho2 Hcl) as (e2 & Hf2 & Hl2 & Hor).
    assert (∃ e0, find (orc c) k = Some e0 ∧ lastPublisher e0 = lastPublisher e2) as (e0 & Hf0 & Hl0).
    { revert Hf2. unfold c2, doubted. destruct v; try (intros Hf2; by exists e2).
      all: destruct (MarkSuspect_ok (orc c) bound (suspectPattern p (Publisher e)) Ho Hg) as (_ & Hm & _);
        cbn; intros Hf2; unfold onGap, onRestart in Hf2; cbn in Hf2; rewrite Hm in Hf2;
        destruct (find (orc c) k) as [e0|]; [|by case_decide]; exists e0; split; [done|];
        case_decide; injection Hf2 as <-; [done|]; unfold marked; by repeat case_match. }
    exists e0. split_and!; [done|congruence|].
    destruct (covers (suspectPattern p (Publisher e)) k) eqn:Hcov; [left|right].
    { split_and!; try done. unfold c3, onSnapshotOp. rewrite Hend. cbn [life set_orc set_tracker bump set_cnt].
      case_match; cbn; apply trust_clear; rewrite ?Htr; auto. }
    destruct Hor as [Hor|]; [|done].
    destruct (Hmark e2 (conj Hf2 Hor)) as (e1 & [Hf1' Hc1] & Hl1 & _). rewrite Hf0 in Hf1'. injection Hf1' as <-.
    split; [done|]. intros Hq. destruct (Htrust _ Hq) as [?|[-> _]]; [left; auto|by right].
  - assert (orc c3 = orc c2) as E3.
    { unfold c3, onSnapshotOp. by destruct (EOp e). }
    unfold confident in Hc3. rewrite E3 in Hc3. destruct (Hmark e' Hc3) as (e0 & [Hf0 Hc0] & Hl0 & Hgap).
    exists e0. split_and!; [done|done|]. right. split; [done|]. intros Hq.
    destruct (Htrust _ Hq) as [?|[-> ->]]; [left; auto|right; auto].
Qed.

(** ** No confidence over a known gap *)

(** No key can belong to two publishers. *)
Definition partitions_disjoint : Prop :=
  ∀ a b k, covers (suspectPattern p a) k = true → covers (suspectPattern p b) k = true → a = b.

(** A snapshot that ends is one of a partition. *)
Definition snapshots_are_partitioned (e : Event.t) : Prop := EOp e = OpSnapshotEnd → partitions_disjoint.

Definition gaps_doubted (c : check) : Prop :=
  ∀ k e, confident (orc c) k e → covers (suspectPattern p (lastPublisher e)) k = true →
    SeqTrack.Trust (lastPublisher e) (tracker c) = TrustComplete.

Lemma gaps_doubted_weaker c c' :
  gaps_doubted c → weaker (orc c) (orc c') → tracker c' = tracker c → gaps_doubted c'.
Proof.
  intros Hg Hw Ht k e' He' Hc. destruct (Hw k e' He') as (e & He & Hl). rewrite Ht, <- Hl.
  apply (Hg k e); [done|]. by rewrite Hl.
Qed.

(** The steps that only take confidence away, and leave the tracker alone. *)
Lemma step_weaker Q x y :
  guarded_step Q x y → running_ok x →
  (∃ c e c' q, x = mkRunning c (e :: q) ∧ y = mkRunning c' q ∧ Q e ∧ applyOrdered s p clk connected c e = Some c')
  ∨ weaker (orc (chk x)) (orc (chk y)) ∧ tracker (chk y) = tracker (chk x)
    ∧ (awaitingSnapshot (life (chk x)) = true → awaitingSnapshot (life (chk y)) = true).
Proof.
  intros [Hg Hs] [[bound Ho] _ _ _ _]. unfold unwrapped in Hg. destruct Hs; cbn [chk] in *.
  5: { left. eauto 8. }
  all: right.
  - split_and!; [apply weaker_refl|done|done].
  - split_and!; [by apply (weaker_mark _ bound)|done|done].
  - split_and!; [apply weaker_refl|done|done].
  - split_and!; [apply weaker_refl|done|done].
  - split_and!; [by apply (weaker_mark _ bound)|done|done].
  - unfold PollLag. destruct (Tick _ _ _) as [e [[o' n']|]]; split_and!; try done; try apply weaker_refl.
    by apply weaker_same.
  - destruct (adopt_batch_frame c at_ adopted skipped kvs) as (E1 & _ & E2 & batch & E3).
    rewrite E1, E2, E3. split_and!; [by eapply weaker_adopt|done|done].
  - split_and!; [|done|done]. apply weaker_same; [|done]. intros k. cbn. by eapply promoted_ok.
  - split_and!; [by apply (weaker_mark _ bound)|done|done].
  - split_and!; [apply weaker_refl|done|by intros <-].
Qed.

(** In every state a check reaches, confidence and known gaps keep apart. *)
Lemma reached_gaps_doubted x k e :
  reached snapshots_are_partitioned x → confident (orc (chk x)) k e →
  covers (suspectPattern p (lastPublisher e)) k = true →
  SeqTrack.Trust (lastPublisher e) (tracker (chk x)) = TrustComplete.
Proof.
  intros Hr. revert k e. change (gaps_doubted (chk x)). pose proof build_ok as Hok. unfold reached in Hr.
  assert (gaps_doubted (build s p clk)) as Hb.
  { intros k e [Hf _]. cbn [orc build] in Hf. unfold build_oracle in Hf. by rewrite New_find in Hf. }
  change (build s p clk) with (chk (mkRunning (build s p clk) [])) in Hb.
  induction Hr as [x|x y z Hxy _ IH]; [done|]. apply IH; [by eapply step_keeps_ok|].
  destruct (step_weaker _ _ _ Hxy Hok) as [(c & e & c' & q & -> & -> & HQ & Ha)|(Hw & Ht & _)];
    [|by eapply gaps_doubted_weaker].
  cbn [chk] in *. destruct Hxy as [Hg _]. destruct Hok as [[bound Ho] Ht _ _ Hq]. cbn [chk queue] in *.
  inversion Hq as [|? ? Hgood _]; subst. intros k e' Hconf Hcov.
  destruct (applied_confident c e c' bound k e' Ho Ht Hgood Hg Ha Hconf)
    as [(-> & _ & ?)|(e0 & Hf0 & Hl & [(Hend & Hpat & Hall)|[Hc0 Htr]])]; [done| |].
  - by rewrite (HQ Hend _ _ _ Hcov Hpat).
  - destruct Htr as [?|[Hp Hno]]; [|done|rewrite Hp in Hcov; congruence].
    rewrite <- Hl. apply (Hb k e0); [by split|]. by rewrite Hl.
Qed.


(** ** Start-up that waits for a snapshot *)

Lemma applied_awaiting c e c' :
  tracker_wf (tracker c) → valid_event e → EOp e ≠ OpSnapshotEnd →
  applyOrdered s p clk connected c e = Some c' → awaitingSnapshot (life c') = awaitingSnapshot (life c).
Proof.
  intros Ht He Hop Ha. destruct (applyOrdered_cases c e Ht He) as (t & v & g & _ & _ & Happ).
  rewrite Ha in Happ. injection Happ as ->. destruct (Accepted v); [|done].
  destruct (fold_frame s p clk (onSnapshotOp p connected (doubted (tick (set_tracker c t)) e v) e) e v)
    as (_ & _ & -> & _).
  destruct (doubted_frame (tick (set_tracker c t)) e v) as (_ & _ & Hl).
  unfold onSnapshotOp. destruct (EOp e); try done; by rewrite Hl.
Qed.


(** ** A completed snapshot *)

(** a completed snapshot restores trust: when a publisher of a projection that is not partitioned
    ends its snapshot, no key is suspect any more; its own gaps are forgotten, and a check that was
    waiting for a snapshot is not any more. *)
Theorem snapshot_end_clears_suspicion `{!Disciplined p} x e q c' k :
  reached (λ _, True) x → unwrapped x → queue x = e :: q →
  (∀ publisher, suspectPattern p publisher = "") → EOp e = OpSnapshotEnd →
  applyOrdered s p clk connected (chk x) e = Some c' →
  snapshotsSeen (cnt c') ≠ snapshotsSeen (cnt (chk x)) →
  effective (orc c') k ≠ Some TrustSuspect ∧ SeqTrack.Trust (Publisher e) (tracker c') = TrustComplete
  ∧ awaitingSnapshot (life c') = false.
Proof.
  intros [[bound Ho] Ht Hr Hh Hq]%reached_running_ok Hu Hqe Hpat Hop Ha Hseen. rewrite Hqe in Hq.
  inversion Hq as [|? ? Hgood _]; subst. destruct (applyOrdered_cases (chk x) e Ht (proj1 Hgood)) as (t & v & g & _ & Hwf & Happ).
  rewrite Ha in Happ. injection Happ as ->. destruct (Accepted v); [|done].
  set (c1 := tick (set_tracker (chk x) t)) in *. destruct (doubted_frame c1 e v) as (Htr & _ & _).
  assert (oracle_ok (orc (doubted c1 e v)) bound) as Ho2 by (destruct v; try done; by apply mark_ok).
  set (c2 := doubted c1 e v) in *. set (c3 := onSnapshotOp p connected c2 e) in *.
  assert (orc c3 = ClearSuspect (orc c2) "" ∧ tracker c3 = ClearGaps (Publisher e) (tracker c2)
    ∧ awaitingSnapshot (life c3) = false) as (E1 & E2 & E3).
  { unfold c3, onSnapshotOp. rewrite Hop, Hpat. cbn [life set_orc set_tracker bump set_cnt].
    destruct (awaitingSnapshot (life c2)) eqn:Hl; by split_and!. }
  destruct (fold_frame s p clk c3 e v) as (F1 & _ & F3 & _). rewrite F1, F3, E2, E3.
  assert (orc (fold s p clk c3 e v) = orc c3) as ->.
  { destruct (fold_oracle s p clk c3 e v) as [n ->]. destruct (TargetKey p e); [done|].
    destruct (Projection.Apply p _ e) as [|m] eqn:Hm; [done|]. apply Apply_none.
    eapply mutation_untouched; [done|]. by rewrite Hop. }
  split_and!; [|by apply trust_clear; rewrite ?Htr; auto|done].
  rewrite E1. unfold effective. destruct (ClearSuspect_ok (orc c2) bound "" Ho2) as (_ & -> & ->).
  pose proof (oo_floor _ _ Ho2). destruct (find (orc c2) k) as [en|] eqn:Hf; [|done].
  cbn [fmap option_fmap option_map]. rewrite effective_cleared by (try eapply gen_bounded; eauto; lia).
  cbn [covers bool_decide decide_rel orb]. unfold covers. rewrite bool_decide_true by done. cbn [orb andb].
  by destruct (effectiveTrust en (suspectFloor (orc c2))).
Qed.

(** a message that cannot be decoded is a message that was not seen: it is counted, and after it
    no key at all is trusted completely. *)
Theorem undecodable_message_doubts_everything x msg err :
  reached (λ _, True) x → unwrapped x →
  Decode (Payload msg) (RTopic msg) (if IsZero (RObservedAt msg) then now clk (chk x) else RObservedAt msg) = inl err →
  ∃ c', Ingest s p clk connected (chk x) msg = Some c'
    ∧ (∀ k e, ¬ confident (orc c') k e)
    ∧ eventsDropped (cnt c') = u64 (eventsDropped (cnt (chk x)) + 1)
    ∧ decodeErrors (cnt c') = u64 (decodeErrors (cnt (chk x)) + 1)
    ∧ gapSignals (cnt c') = u64 (gapSignals (cnt (chk x)) + 1).
Proof.
  intros [[bound Ho] _ _ _ _]%reached_running_ok Hu Hd. unfold Ingest, applyMessage.
  change (now clk (bump _ (chk x))) with (now clk (chk x)). rewrite Hd. eexists. split; [done|].
  split_and!; try done. intros k e Hc. by destruct (mark_confident (orc (chk x)) bound "" k e Ho Hu Hc).
Qed.
End safety.

(** ** The phase a check reports

    The operations that move the phase or the facts it is derived from, in any
    order: the applier, the start-up, the source's end, pausing and the outcome
    of sweeps. *)

Section life.
Context {X : XXHash} {O : MapOrder} {F : FloatOverflow} {R : Rand} {C : Codec}.
Context (s : Spec) (p : projection) (clk : nat → Time) (connected : nat → bool).

Inductive life_step : check → check → Prop :=
  | life_applied c e c' : applyOrdered s p clk connected c e = Some c' → life_step c c'
  | life_run c : life_step c (Run_start c)
  | life_bootstrap c scans : life_step c (runSweeper s clk connected c scans)
  | life_source c err : life_step c (runSource c err)
  | life_paused c b : life_step c (SetPaused connected c b)
  | life_report c rep err : life_step c (onReport connected c rep err)
  | life_end c err : life_step c (Run_end c err).

Definition lived (c : check) : Prop := rtc life_step (build s p clk) c.

(** What Watching claims. *)
Definition honest (l : lifecycle) : Prop :=
  phase l = PhaseWatching →
  paused l = false ∧ awaitingSnapshot l = false ∧ sourceFailed l = false ∧ saturated l = false.

Lemma honest_other l : phase l ≠ PhaseWatching → honest l.
Proof. by intros Hp ?. Qed.

Lemma honest_steady b l : honest (with_phase l (steadyPhase b l).1 (steadyPhase b l).2).
Proof.
  unfold honest, steadyPhase. cbn [phase with_phase paused awaitingSnapshot sourceFailed saturated].
  destruct (paused l), (awaitingSnapshot l), (sourceFailed l), b, (saturated l); cbn; by intros.
Qed.

Lemma honest_applied c e c' :
  applyOrdered s p clk connected c e = Some c' → honest (life c) → honest (life c').
Proof.
  intros Ha Hh. unfold applyOrdered in Ha. destruct (SeqTrack.Observe _ _ _) as [[[t v] g]|]; [|done].
  assert (∀ c1, honest (life c1) → honest (life (onSnapshotOp p connected c1 e))) as Hsnap.
  { intros c1 H1. unfold onSnapshotOp. destruct (EOp e); try done. cbn [life set_orc set_tracker bump set_cnt].
    destruct (awaitingSnapshot (life c1)); [apply honest_steady|done]. }
  assert (∀ c1 w, honest (life c1) → honest (life (fold s p clk (onSnapshotOp p connected c1 e) e w))) as Hfold.
  { intros c1 w H1. destruct (fold_frame s p clk (onSnapshotOp p connected c1 e) e w) as (_ & _ & -> & _). auto. }
  destruct v; injection Ha as <-; try done; by apply Hfold.
Qed.

(** Start-up ends in a phase of its own until the steady one is set. *)
Lemma adopt_batches_life at_ batches : ∀ c adopted skipped,
  life (adopt_batches s c at_ adopted skipped batches).1.1 = life c.
Proof.
  induction batches as [|[kvs|err] batches IH]; intros c adopted skipped; cbn [adopt_batches]; [done| |done].
  unfold adopt_batch. destruct (foldl _ _ _) as [batch sk]. by rewrite IH.
Qed.

Lemma adoptScan_phase c batches err :
  phase (life (adoptScan s clk c batches err).1) ≠ PhaseWatching.
Proof.
  unfold adoptScan. set (c1 := setPhase _ c).
  pose proof (adopt_batches_life (now clk c1) batches (tick c1) 0 0) as Hl.
  destruct (adopt_batches _ _ _ _ _ _) as [[c2 n] [e|k]]; cbn [fst] in Hl.
  - cbn. by rewrite Hl.
  - destruct err; [cbn; by rewrite Hl|]. destruct (k >? 0); cbn; [done|by rewrite Hl].
Qed.

Lemma bootstrapAdopt_phase scans : ∀ c,
  phase (life c) ≠ PhaseWatching → phase (life (bootstrapAdopt s clk c scans).1) ≠ PhaseWatching.
Proof.
  induction scans as [|[batches err] scans IH]; intros c Hc; [done|]. cbn [bootstrapAdopt].
  pose proof (adoptScan_phase c batches err) as Hp. destruct (adoptScan _ _ _ _ _) as [c1 [e|n]]; [|done].
  by apply IH.
Qed.

Lemma honest_bootstrap c scans : honest (life c) → honest (life (runSweeper s clk connected c scans)).
Proof.
  intros Hh. unfold runSweeper.
  assert (honest (life (bootstrap s clk c scans).1)) as Hb.
  { unfold bootstrap. case_decide; [|case_decide; [done|by apply honest_other]].
    destruct scans as [|[batches err] scans]; [done|]. apply honest_other. cbn [bootstrapAdopt].
    pose proof (adoptScan_phase c batches err) as Hp. destruct (adoptScan _ _ _ _ _) as [c1 [e|n]]; [|done].
    by apply bootstrapAdopt_phase. }
  destruct (bootstrap _ _ _ _) as [c1 []]; [apply honest_steady|done].
Qed.

Lemma honest_step c c' : life_step c c' → honest (life c) → honest (life c').
Proof.
  intros Hs Hh. destruct Hs.
  - by eapply honest_applied.
  - by apply honest_other.
  - by apply honest_bootstrap.
  - destruct err; [by apply honest_other|done].
  - unfold SetPaused. destruct (eqb _ b) eqn:Hb.
    + apply eqb_prop in Hb. destruct c as [? ? ? ? l ? ? ? ? ?]. cbn in *. subst b. by destruct l.
    + unfold phaseIs. cbn [life set_life phase with_paused]. destruct (_ || _ || _) eqn:Hp; [apply honest_steady|].
      apply honest_other. cbn. repeat apply orb_false_iff in Hp as [Hp ?]. by apply bool_decide_eq_false in Hp.
  - unfold onReport. set (sr := match rep with Some _ => _ | None => None end).
    assert (∀ l, honest l → ∀ r, honest (with_report l r)) as H1 by (intros l Hl r; exact Hl).
    assert (∀ l, honest l → ∀ b, honest (with_unreachable l b)) as H2 by (intros l Hl b; exact Hl).
    set (c1 := match err with None => _ | Some _ => c end).
    assert (honest (life c1)) as Hc1 by (unfold c1; destruct err, sr; auto; by apply H1).
    destruct (bool_decide (err = Some ErrTargetUnavailable)); [by apply honest_other|].
    set (c2 := match sr with Some _ => _ | None => c1 end).
    assert (honest (life c2)) as Hc2 by (unfold c2; destruct sr; auto; by apply H2).
    destruct err; [done|]. destruct (phaseIs c2 PhaseDegraded); [apply honest_steady|done].
  - by destruct err; apply honest_other.
Qed.

End life.
