(* ===== verification/IngestRuns.v ===== *)
(** * IngestRuns: the pipeline on concrete streams

    A codec of three-byte messages and a few short streams through an assembled
    check: they are the witnesses of the theorems about the pipeline, and the
    runs behind what modelling it showed. *)
From Stdlib Require Ascii.
From S2P Require Import Prelude GoBase GoFloat GoStrings GoTime Codec Sweeper Event Projection Reference GapSet SeqTrack.
From S2P Require Import Ring Shard PathMatch Oracle Target Differ Reorder Lag LagRuns Spec Ingest IngestFold IngestSafety.

#[local] Existing Instance constant_hash.
#[local] Existing Instance ascending_order.
#[local] Existing Instance amd64_overflow.
#[local] Existing Instance counting_rand.
#[local] Existing Instance identity_engine.

(** ** A sample check *)

(** The first byte is the sequence number, the second the key and the rest its value; the number alone
    ends a snapshot; the topic is the publisher. *)
Definition sample_decode (payload topic : string) (t : Time) : codec_error + Event.t :=
  match payload with
  | "" => inl ErrMalformed
  | String n "" => inr (Event.mk topic 1 (byte_of n) zero_time t topic OpSnapshotEnd "" "" None 0 None None)
  | String n (String k v) =>
      inr (Event.mk topic 1 (byte_of n) zero_time t topic OpSet (String k "") "" (Some v) 0 None None)
  end.

Lemma byte_u64 n : is_u64 (byte_of n).
Proof.
  unfold is_u64, byte_of, max_u64. pose proof (Ascii.N_ascii_bounded n). lia.
Qed.

Definition sample_codec : Codec.
Proof.
  refine {| Decode := sample_decode |}; intros payload topic t e; unfold sample_decode;
    (destruct payload as [|n [|k v]]; [done| |]; intros [= <-]); try done; (split; [apply byte_u64|done]).
Defined.
#[local] Existing Instance sample_codec.

(** The defaults, with a start-up mode and a reorder window (a negative one is off). *)
Definition sample_spec (bootstrap : string) (window : Duration) : Spec :=
  ApplyDefaults (mkSpec "" ""
    (mkSource "" None None None 0) (mkCodecSpec "" 0 false ∅ ∅)
    (mkProjectionSpec "" "" "" 0 false None ∅) (mkTargetSpec "" None ∅)
    (mkPolicy (mkWindowSpec "" 0 0 0 (S754_zero false)) 0 0 bootstrap "" 0 0 false window 0 0 0 0 0 0 4 0 false)
    (mkAlert 0 (S754_zero false) 0 false)).

Definition shared : OwnershipModel := mkOwnership false "".
Definition sample_projection (o : OwnershipModel) : projection :=
  scalar_projection (mkScalar (mkExpander "" fieldRefKey) o).

Definition minute (n : nat) : Time := sec (60 * (1 + Z.of_nat n)).
Definition up (_ : nat) : bool := true.

Lemma minute_sane : ∀ n, (n < 1000)%nat → is_i64 (minute n).
Proof. intros n Hn. unfold is_i64, minute, sec, min_i64, max_i64, time_Second. lia. Qed.

(** A clock that stands still once the run is over. *)
Definition sample_clock (n : nat) : Time := minute (Nat.min n 999).

Lemma sample_clock_sane n : is_i64 (sample_clock n).
Proof. apply minute_sane. lia. Qed.

Definition message_at (n : Z) (topic payload : string) : RawMessage := mkRaw topic payload (sec n).
Definition event_of (m : RawMessage) : Event.t :=
  match Decode (Payload m) (RTopic m) (RObservedAt m) with inr e => e | inl _ => sample_event OpSet "" "" None 0 end.

(** A check under this specification, after these messages. *)
Definition start (sp : Spec) (o : OwnershipModel) : check := build sp (sample_projection o) sample_clock.
Definition after (sp : Spec) (o : OwnershipModel) (ms : list RawMessage) : check :=
  default (start sp o) (ingest_all sp (sample_projection o) sample_clock up (start sp o) ms).

(** ** What the pipeline agrees on *)

Definition windowed : Spec := sample_spec "" (2 * time_Second).
(** Two publishers of separate keys; the second message of "a" is overtaken by its third. *)
Definition overtaken : list RawMessage :=
  [message_at 10 "a" "1kx"; message_at 11 "b" "7jv"; message_at 12 "a" "3kz"; message_at 13 "a" "2ky"].

Lemma overtaken_stream pub :
  (pub = "a" ∧ stream_of pub (event_of <$> overtaken) = event_of <$> [message_at 10 "a" "1kx"; message_at 12 "a" "3kz"; message_at 13 "a" "2ky"])
  ∨ (pub = "b" ∧ stream_of pub (event_of <$> overtaken) = event_of <$> [message_at 11 "b" "7jv"])
  ∨ stream_of pub (event_of <$> overtaken) = [].
Proof.
  unfold stream_of. cbn [fmap list_fmap overtaken]. rewrite !filter_cons.
  change (Publisher (event_of (message_at 10 "a" "1kx"))) with "a".
  change (Publisher (event_of (message_at 11 "b" "7jv"))) with "b".
  change (Publisher (event_of (message_at 12 "a" "3kz"))) with "a".
  change (Publisher (event_of (message_at 13 "a" "2ky"))) with "a".
  destruct (decide ("a" = pub)) as [<-|Ha]; [by left|]. destruct (decide ("b" = pub)) as [<-|Hb]; [right; by left|].
  by right; right.
Qed.

Lemma overtaken_complete : complete_stream windowed (sample_projection shared) overtaken (event_of <$> overtaken).
Proof.
  constructor.
  - repeat constructor; by vm_compute.
  - repeat constructor.
  - repeat constructor; by vm_compute.
  - by vm_compute.
  - change (enabled (build_reorder windowed (sample_projection shared))) with true.
    intros pub. destruct (overtaken_stream pub) as [[_ Hs]|[[_ Hs]|Hs]]; [right|right|by left].
    + eexists _, _, 2. split; [exact Hs|]. split_and!; try by vm_compute.
      * intros e He. repeat (apply elem_of_cons in He as [->|He]; [by vm_compute|]). by apply elem_of_nil in He.
      * apply (perm_swap 50 51 []).
    + eexists _, _, 0. split; [exact Hs|]. split_and!; try by vm_compute. by intros e He%elem_of_nil.
Qed.


(** The run itself: the key holds the value of the last event of its publisher. *)
Example overtaken_run :
  stored_value (orc (after windowed shared overtaken)) (sec 60) "k" = scalar_value "z".
Proof. by vm_compute. Qed.

(** ** Reaching a state *)

Section reaching.
Context (sp : Spec) (p : projection) (Q : Event.t → Prop) (q : Event.t → bool) (q_sound : ∀ e, q e = true → Q e).
Context (x0 : running).

(** From [x0] on. *)
Abbreviation leads := (rtc (guarded_step sp p sample_clock up Q) x0).

(** A message that decodes to an event which passes and, the reorder buffer being off, is released at once. *)
Definition smooth (c : check) (msg : RawMessage) : bool :=
  let observed := if IsZero (RObservedAt msg) then now sample_clock c else RObservedAt msg in
  (suspectGen (orc c) <? max_u64) && negb (enabled (reorder c))
  && match Decode (Payload msg) (RTopic msg) observed with
     | inl _ => false
     | inr e => bool_decide (Validate e = None) && (min_i64 <=? observed) && (observed <=? max_i64) && q e
     end.

Fixpoint all_smooth (c : check) (msgs : list RawMessage) : bool :=
  match msgs with
  | [] => true
  | msg :: msgs =>
      smooth c msg && match Ingest sp p sample_clock up c msg with Some c' => all_smooth c' msgs | None => false end
  end.

Lemma reached_one c msg :
  leads (mkRunning c []) → smooth c msg = true →
  ∃ e c1, Q e ∧ leads (mkRunning c1 [e])
    ∧ suspectGen (orc c1) < max_u64 ∧ Ingest sp p sample_clock up c msg = applyOrdered sp p sample_clock up c1 e.
Proof.
  unfold smooth. intros Hr Hs. zbool. destruct (Decode _ _ _) as [err|e] eqn:Hd; [done|]. zbool.
  set (c1 := set_reorder (tick (bump (count_bytes (Z.of_nat (String.length (Payload msg)))) c)) (reorder c)).
  assert (Validate e = None) as Hval by (by eapply bool_decide_eq_true).
  assert (offer (reorder c) e (ObservedAt e) = (reorder c, [e])) as Ho.
  { unfold offer. by destruct (enabled (reorder c)). }
  exists e, c1. split_and!; [by apply q_sound| |done|].
  - eapply rtc_r; [exact Hr|]. split; [done|]. by apply step_message with (e := e) (r := reorder c).
  - unfold Ingest, applyMessage. change (now sample_clock (bump _ c)) with (now sample_clock c).
    rewrite Hd, Hval. change (reorder (tick (bump _ c))) with (reorder c). rewrite Ho. cbn [apply_released].
    fold c1. by destruct (applyOrdered sp p sample_clock up c1 e).
Qed.

Lemma reached_all msgs : ∀ c,
  leads (mkRunning c []) → all_smooth c msgs = true →
  ∃ c', ingest_all sp p sample_clock up c msgs = Some c' ∧ leads (mkRunning c' []).
Proof.
  induction msgs as [|msg msgs IH]; intros c Hr Hs; [eauto|]. cbn [all_smooth ingest_all] in *.
  apply andb_true_iff in Hs as [Hs Hall]. destruct (reached_one c msg Hr Hs) as (e & c1 & HQ & Hr1 & Hg & Hi).
  destruct (Ingest sp p sample_clock up c msg) as [c2|]; [|done]. cbn [mbind option_bind].
  apply IH; [|done]. eapply rtc_r; [exact Hr1|]. split; [exact Hg|]. by apply step_apply.
Qed.
End reaching.

(** The states the sample messages lead to. *)
Lemma after_reached sp o Q (q : Event.t → bool) ms :
  (∀ e, q e = true → Q e) →
  all_smooth sp (sample_projection o) q (start sp o) ms = true →
  reached sp (sample_projection o) sample_clock up Q (mkRunning (after sp o ms) []).
Proof.
  intros Hq Hs. destruct (reached_all sp (sample_projection o) Q q Hq (mkRunning (start sp o) []) ms (start sp o)) as (c & Hc & Hr);
    [apply rtc_refl|done|]. unfold after. by rewrite Hc.
Qed.

Definition is_write (e : Event.t) : bool := bool_decide (EOp e = OpSet).

(** Without a reorder window every message is released at once. *)
Definition direct : Spec := sample_spec "" (-1).

(** "b" loses its second message, and then "a" writes its key once more. *)
Definition loss : list RawMessage :=
  [message_at 10 "a" "1kx"; message_at 11 "b" "1jv"; message_at 12 "b" "3jw"; message_at 13 "a" "2ky"].

Lemma loss_reached : reached direct (sample_projection shared) sample_clock up
  (snapshots_are_partitioned (sample_projection shared)) (mkRunning (after direct shared loss) []).
Proof.
  apply (after_reached _ _ _ is_write); [|by vm_compute].
  intros e He%bool_decide_eq_true Hend. congruence.
Qed.


(** The applier has taken a message and not yet applied its event. *)
Lemma applier_never_panics_witness :
  ∃ c e c', reached direct (sample_projection shared) sample_clock up (λ _, True) (mkRunning c [e])
    ∧ applyOrdered direct (sample_projection shared) sample_clock up c e = Some c'.
Proof.
  destruct (reached_one direct (sample_projection shared) (λ _, True) (λ _, true) (λ _ _, I)
    (mkRunning (start direct shared) []) (start direct shared) (message_at 10 "a" "1kx")) as (e & c & _ & Hr & _); [apply rtc_refl|by vm_compute|].
  destruct (applier_never_panics direct (sample_projection shared) sample_clock up sample_clock_sane
    (mkRunning c [e]) e [] Hr eq_refl) as [c' Hc].
  exists c, e, c'. split; [exact Hr|exact Hc].
Defined.

(** ** Start-up and snapshots *)

Definition strict : Spec := sample_spec BootstrapStrict (-1).

(** Told to wait for a snapshot, and then one key is written. *)
Definition waiting_check : check := (bootstrap strict sample_clock (start strict shared) []).1.


(** "b" has lost its second message and ends a snapshot. *)
Definition healed : list RawMessage :=
  [message_at 10 "a" "1kx"; message_at 11 "b" "1jv"; message_at 12 "b" "3jw"].

Lemma snapshot_end_clears_suspicion_witness :
  ∃ c e c', reached direct (sample_projection shared) sample_clock up (λ _, True) (mkRunning c [e])
    ∧ effective (orc c) "k" = Some TrustSuspect
    ∧ applyOrdered direct (sample_projection shared) sample_clock up c e = Some c'
    ∧ effective (orc c') "k" ≠ Some TrustSuspect.
Proof.
  assert (reached direct (sample_projection shared) sample_clock up (λ _, True)
    (mkRunning (after direct shared healed) [])) as H0 by (apply (after_reached _ _ _ (λ _, true)); [done|by vm_compute]).
  set (m := message_at 13 "b" "4").
  set (c := set_reorder (tick (bump (count_bytes 1) (after direct shared healed))) (reorder (after direct shared healed))).
  assert (reached direct (sample_projection shared) sample_clock up (λ _, True) (mkRunning c [event_of m])) as Hr.
  { eapply rtc_r; [exact H0|]. split; [by vm_compute|].
    apply (step_message direct (sample_projection shared) sample_clock up _ _ m (event_of m)); [|by vm_compute].
    split_and!; by vm_compute. }
  destruct (applyOrdered direct (sample_projection shared) sample_clock up c (event_of m)) as [c'|] eqn:Ha.
  2: { by vm_compute in Ha. }
  exists c, (event_of m), c'. split; [exact Hr|]. split; [by vm_compute|]. split; [exact Ha|].
  apply (snapshot_end_clears_suspicion direct (sample_projection shared) sample_clock up sample_clock_sane
    (mkRunning c [event_of m]) (event_of m) [] c' "k" Hr).
  - by vm_compute.
  - reflexivity.
  - intros publisher. reflexivity.
  - reflexivity.
  - exact Ha.
  - vm_compute in Ha. injection Ha as <-. by vm_compute.
Defined.

(** An empty message after a written key. *)
Lemma undecodable_message_doubts_everything_witness :
  ∃ e, confident (orc (after direct shared [message_at 10 "a" "1kx"])) "k" e
  ∧ ∃ c', Ingest direct (sample_projection shared) sample_clock up
            (after direct shared [message_at 10 "a" "1kx"]) (message_at 11 "a" "") = Some c'
      ∧ (∀ k e, ¬ confident (orc c') k e) ∧ decodeErrors (cnt c') = 1.
Proof.
  eexists. split; [split; [vm_compute; reflexivity|by vm_compute]|].
  destruct (undecodable_message_doubts_everything direct (sample_projection shared) sample_clock up sample_clock_sane
    (mkRunning (after direct shared [message_at 10 "a" "1kx"]) []) (message_at 11 "a" "") ErrMalformed)
    as (c' & Hi & Hno & _ & Hn & _).
  - apply (after_reached _ _ _ (λ _, true)); [exact (λ _ _, I)|by vm_compute].
  - by vm_compute.
  - reflexivity.
  - exists c'. split; [exact Hi|]. split; [exact Hno|]. rewrite Hn. by vm_compute.
Defined.

(** ** Phases *)

(** Started, adopted an empty target and found the source connected. *)
Definition watching : check := runSweeper direct sample_clock up (Run_start (start direct shared)) [([], None)].

Lemma watching_lived : lived direct (sample_projection shared) sample_clock up watching.
Proof.
  eapply rtc_l; [apply (life_run direct (sample_projection shared))|].
  apply rtc_once, life_bootstrap.
Qed.


(** A report that could be compared leaves Watching alone, whether or not the source is connected: the
    steady phase, which looks at the connection, is asked for only from Degraded. *)
Lemma watching_outlives_its_source c rep err (conn : nat → bool) :
  phase (life c) = PhaseWatching → err ≠ Some ErrTargetUnavailable →
  phase (life (onReport conn c rep err)) = PhaseWatching.
Proof.
  intros Hw He. unfold onReport. rewrite (bool_decide_eq_false_2 _ He).
  destruct err as [e|], rep as [r|]; cbn; try destruct (RPass r); cbn; unfold phaseIs; cbn; by rewrite ?Hw.
Qed.

(** ** Runs that show something *)

Definition flushed (sp : Spec) (c : check) : check :=
  default c (FlushReorder sp (sample_projection shared) sample_clock up c).

(** "a" writes x, y and z under the numbers 1, 2 and 3; the second message comes after the third has
    been given up on. *)
Definition late_fill : check :=
  let c := flushed windowed (after windowed shared [message_at 10 "a" "1kx"; message_at 12 "a" "3kz"]) in
  default c (Ingest windowed (sample_projection shared) sample_clock up c (message_at 200 "a" "2ky")).

(** The key holds the older value, and is asserted on. *)
Example late_fill_is_trusted :
  stored_value (orc late_fill) (sec 300) "k" = scalar_value "y"
  ∧ effective (orc late_fill) "k" = Some TrustComplete
  ∧ value_at (Fold (NewReference ShapeScalar)
      (event_of <$> [message_at 10 "a" "1kx"; message_at 200 "a" "2ky"; message_at 12 "a" "3kz"])) "k" = scalar_value "z".
Proof. split_and!; by vm_compute. Qed.

(** "b" has lost its second message; "a", which has nothing to do with it, ends a snapshot: the key "b"
    last wrote is asserted on, over the gap. *)
Definition another_snapshot : check :=
  after direct shared [message_at 10 "b" "1kx"; message_at 11 "b" "3jw"; message_at 12 "a" "1"].

Example another_snapshot_restores_trust :
  effective (orc (after direct shared [message_at 10 "b" "1kx"; message_at 11 "b" "3jw"])) "k" = Some TrustSuspect
  ∧ effective (orc another_snapshot) "k" = Some TrustComplete
  ∧ SeqTrack.Trust "b" (tracker another_snapshot) = TrustSuspect.
Proof. split_and!; by vm_compute. Qed.

(** The pattern of a partition is a path pattern: its star stops at a slash, and a publisher's name is
    part of it unescaped. *)
Definition by_publisher : projection := sample_projection (mkOwnership true "{{.Publisher}}:*").

Example partition_stops_at_a_slash :
  covers (suspectPattern by_publisher "a") "a:k" = true
  ∧ covers (suspectPattern by_publisher "a") "a:k/1" = false
  ∧ covers (suspectPattern by_publisher "p[0") "p[0:k" = false.
Proof. split_and!; by vm_compute. Qed.
