(* ===== verification/JsonPipeline.v ===== *)
(** * JsonPipeline: from the bytes of a stream to what the check expects

    The json codec behind the pipeline: a producer that writes its events with
    the canonical encoder and loses none of them gets a check that expects of
    every key what the reference fold of those events says. *)
From Stdlib Require Import Ascii String.
From S2P Require Import Prelude GoBase GoFloat GoStrings GoTime Codec JsonScan JsonGrammar Json JsonDecode GoFormat JsonRound CodecRuns.
From S2P Require Import Sweeper Event Projection Reference GapSet SeqTrack.
From S2P Require Import Ring Shard PathMatch Oracle Target Differ Reorder Lag LagRuns Spec Ingest IngestFold IngestSafety IngestRuns.

Section json.
Context {X : XXHash} {O : MapOrder} {F : FloatOverflow} {R : Rand} {U : UnicodeTables} {T : TemplateEngine}.

(** The frame a source hands over for an event. *)
Definition frame_of (e : Event.t) : RawMessage := mkRaw (Topic e) (encode e) (ObservedAt e).

(** What there is to say of a stream besides its encoding: no lifetimes, frames stamped by the source,
    keys that fit the oracle, and an order that is the publishers' own or within the reorder window. *)
Record orderly (s : Spec) (p : projection) (es : list Event.t) : Prop := mk_orderly {
  ol_ttl : Forall (λ e, TTL e = None) es;
  ol_stamped : Forall (λ e, ObservedAt e ≠ zero_time ∧ is_i64 (ObservedAt e)) es;
  ol_room : Z.of_nat (size (list_to_set (omap (λ e, match TargetKey p e with inr k => Some k | _ => None end) es) : gset string))
            ≤ Z.quot (MaxTrackedKeys (Oracle.cfg (build_oracle s))) (Shards (Oracle.cfg (build_oracle s)));
  ol_order : if enabled (build_reorder s p)
             then ∀ pub, within_window defaultMaxHeldPerPublisher es pub
             else in_sequence ∅ es = true
}.

Lemma frames_complete c (Hc : codec_ok c) s p es :
  plain_codec c → Forall (writable c) es → orderly s p es →
  complete_stream (C := json_Codec c Hc) s p (frame_of <$> es) es.
Proof.
  intros Hp Hw [Httl Hst Hroom Hord]. constructor; [|done| |done|done].
  - clear Httl Hroom Hord. induction es as [|e es IH]; [constructor|].
    apply Forall_cons in Hw as [Hwe Hw]. apply Forall_cons in Hst as [[Hz _] Hst]. constructor; [|by apply IH].
    split_and!; [done| |by eapply wr_valid]. by apply json_reads_back.
  - apply Forall_fmap. eapply Forall_impl; [exact Hst|]. by intros e [_ ?].
Qed.

End json.

(** ** A stream *)

#[local] Existing Instance constant_hash.
#[local] Existing Instance ascending_order.
#[local] Existing Instance amd64_overflow.
#[local] Existing Instance counting_rand.
#[local] Existing Instance identity_engine.
#[local] Existing Instance caseless.

(** The events of [overtaken], as a producer of json would send them. *)
Definition overtaken_events : list Event.t := event_of <$> overtaken.

Lemma default_json_ok : codec_ok default_json.
Proof. split; apply newInterner_ok. Qed.

Lemma overtaken_writable : Forall (writable default_json) overtaken_events.
Proof.
  unfold overtaken_events, overtaken. cbn [fmap list_fmap]. repeat (apply Forall_cons; split); [..|by apply Forall_nil].
  all: split; [reflexivity|split; apply Z.leb_le; reflexivity|split; apply Z.leb_le; reflexivity|split; apply Z.leb_le; reflexivity|left; reflexivity|intros d; discriminate 1|reflexivity|
    apply Z.leb_le; vm_compute; reflexivity..].
Qed.

Lemma overtaken_orderly : orderly windowed (sample_projection shared) overtaken_events.
Proof.
  destruct (overtaken_complete) as [_ Httl _ Hroom Hord]. constructor; [done| |done|done].
  unfold overtaken_events, overtaken. cbn [fmap list_fmap]. repeat (apply Forall_cons; split); [..|by apply Forall_nil].
  all: by vm_compute.
Qed.


(** The run itself, from bytes: the key holds the value of the last event of its publisher. *)
Example overtaken_json_run :
  (chk ← ingest_all (C := json_Codec default_json default_json_ok) windowed (sample_projection shared) sample_clock up
     (build windowed (sample_projection shared) sample_clock) (frame_of <$> overtaken_events);
   Some (stored_value (orc chk) (sec 60) "k")) = Some (scalar_value "z").
Proof. by vm_compute. Qed.
