(* ===== verification/Metrics.v ===== *)
(** * Metrics: the closed set of metrics and labels (pkg/metrics/enums.go, registry.go, metrics.go)

    The table of definitions with its closed label sets, the limiter of the one
    open label, and one operation per measurement. The Prometheus client is not
    part of the program: an operation answers with the samples it hands to it, a
    sample naming a metric, its label values and what is done to the series of
    those values. *)
From Stdlib Require Import Ascii String.
From stdpp Require Import pretty strings sorting.
From S2P Require Import Prelude GoBase GoFloat GoStrings.

(** normalize maps an unrecognized value onto a fallback. *)
Fixpoint normalize (v : string) (allowed : list string) (fallback : string) : string :=
  match allowed with
  | [] => fallback
  | a :: allowed => if bool_decide (v = a) then v else normalize v allowed fallback
  end.

(** ** The closed label enums *)

Module Labels.

(** Op *)
Definition OpUnknown : string := "unknown".
Definition OpSet : string := "set".
Definition OpDelete : string := "delete".
Definition OpAdd : string := "add".
Definition OpRemove : string := "remove".
Definition OpIncr : string := "incr".
Definition OpSnapshotBegin : string := "snapshot_begin".
Definition OpSnapshotEnd : string := "snapshot_end".
Definition OpHeartbeat : string := "heartbeat".
Definition opValues : list string :=
  [OpUnknown; OpSet; OpDelete; OpAdd; OpRemove; OpIncr; OpSnapshotBegin; OpSnapshotEnd; OpHeartbeat].
Definition Op_Normalize (v : string) : string := normalize v opValues OpUnknown.

(** DropReason *)
Definition DropDecodeError : string := "decode_error".
Definition DropUnknownOp : string := "unknown_op".
Definition DropTooLarge : string := "too_large".
Definition DropBufferFull : string := "buffer_full".
Definition DropDuplicate : string := "duplicate".
Definition DropStaleEpoch : string := "stale_epoch".
Definition DropValidationError : string := "validation_error".
Definition dropReasonValues : list string :=
  [DropDecodeError; DropUnknownOp; DropTooLarge; DropBufferFull; DropDuplicate; DropStaleEpoch; DropValidationError].
Definition DropReason_Normalize (v : string) : string := normalize v dropReasonValues DropValidationError.

(** Stage *)
Definition StageRaw : string := "raw".
Definition StageDecoded : string := "decoded".
Definition stageValues : list string :=
  [StageRaw; StageDecoded].
Definition Stage_Normalize (v : string) : string := normalize v stageValues StageRaw.

(** RestartKind *)
Definition RestartExplicit : string := "explicit".
Definition RestartImplicit : string := "implicit".
Definition restartKindValues : list string :=
  [RestartExplicit; RestartImplicit].
Definition RestartKind_Normalize (v : string) : string := normalize v restartKindValues RestartImplicit.

(** Trust *)
Definition TrustComplete : string := "complete".
Definition TrustSuspect : string := "suspect".
Definition TrustAdopted : string := "adopted".
Definition trustValues : list string :=
  [TrustComplete; TrustSuspect; TrustAdopted].
Definition Trust_Normalize (v : string) : string := normalize v trustValues TrustSuspect.

(** ProjectionErrorReason *)
Definition ProjectionUnsupportedOp : string := "unsupported_op".
Definition ProjectionInvalidEvent : string := "invalid_event".
Definition ProjectionMemberLimit : string := "member_limit".
Definition ProjectionCounterSaturated : string := "counter_saturated".
Definition ProjectionTemplateError : string := "template_error".
Definition projectionErrorValues : list string :=
  [ProjectionUnsupportedOp; ProjectionInvalidEvent; ProjectionMemberLimit; ProjectionCounterSaturated; ProjectionTemplateError].
Definition ProjectionErrorReason_Normalize (v : string) : string := normalize v projectionErrorValues ProjectionInvalidEvent.

(** TargetOp *)
Definition TargetGet : string := "get".
Definition TargetGetMany : string := "get_many".
Definition TargetScan : string := "scan".
Definition TargetTTL : string := "ttl".
Definition TargetHealth : string := "health".
Definition targetOpValues : list string :=
  [TargetGet; TargetGetMany; TargetScan; TargetTTL; TargetHealth].
Definition TargetOp_Normalize (v : string) : string := normalize v targetOpValues TargetGet.

(** Category *)
Definition CatMissingInTarget : string := "missing_in_target".
Definition CatExtraInTarget : string := "extra_in_target".
Definition CatValueMismatch : string := "value_mismatch".
Definition CatMemberMismatch : string := "member_mismatch".
Definition CatTypeMismatch : string := "type_mismatch".
Definition CatTTLMismatch : string := "ttl_mismatch".
Definition CatCounterMismatch : string := "counter_mismatch".
Definition categoryValues : list string :=
  [CatMissingInTarget; CatExtraInTarget; CatValueMismatch; CatMemberMismatch; CatTypeMismatch; CatTTLMismatch; CatCounterMismatch].
Definition Category_Normalize (v : string) : string := normalize v categoryValues CatValueMismatch.

(** TransientReason *)
Definition TransientResolved : string := "resolved".
Definition TransientOracleAdvanced : string := "oracle_advanced".
Definition TransientKeyEvicted : string := "key_evicted".
Definition TransientFenceFailed : string := "fence_failed".
Definition transientReasonValues : list string :=
  [TransientResolved; TransientOracleAdvanced; TransientKeyEvicted; TransientFenceFailed].
Definition TransientReason_Normalize (v : string) : string := normalize v transientReasonValues TransientResolved.

(** SweepKind *)
Definition SweepOracleToTarget : string := "oracle_to_target".
Definition SweepTargetToOracle : string := "target_to_oracle".
Definition sweepKindValues : list string :=
  [SweepOracleToTarget; SweepTargetToOracle].
Definition SweepKind_Normalize (v : string) : string := normalize v sweepKindValues SweepOracleToTarget.

(** SweepResult *)
Definition SweepSuccess : string := "success".
Definition SweepTargetUnavailable : string := "target_unavailable".
Definition SweepError : string := "error".
Definition SweepAborted : string := "aborted".
Definition sweepResultValues : list string :=
  [SweepSuccess; SweepTargetUnavailable; SweepError; SweepAborted].
Definition SweepResult_Normalize (v : string) : string := normalize v sweepResultValues SweepError.

(** Role *)
Definition RoleMaster : string := "master".
Definition RoleReplica : string := "replica".
Definition RoleUnknown : string := "unknown".
Definition roleValues : list string :=
  [RoleMaster; RoleReplica; RoleUnknown].
Definition Role_Normalize (v : string) : string := normalize v roleValues RoleUnknown.

(** Component *)
Definition ComponentIngest : string := "ingest".
Definition ComponentApplier : string := "applier".
Definition ComponentSweeper : string := "sweeper".
Definition ComponentLag : string := "lag".
Definition ComponentSource : string := "source".
Definition ComponentBootstrap : string := "bootstrap".
Definition componentValues : list string :=
  [ComponentIngest; ComponentApplier; ComponentSweeper; ComponentLag; ComponentSource; ComponentBootstrap].
Definition Component_Normalize (v : string) : string := normalize v componentValues ComponentIngest.

End Labels.

(** ** The registry *)

Inductive Kind := KindCounter | KindGauge | KindHistogram.
#[export] Instance Kind_eq_dec : EqDecision Kind.
Proof. solve_decision. Defined.

Definition Kind_String (k : Kind) : string :=
  match k with KindCounter => "counter" | KindGauge => "gauge" | KindHistogram => "histogram" end.

Definition LatencyBuckets : list float64 :=
  [float_lit 5 10000; float_lit 1 1000; float_lit 25 10000; float_lit 5 1000; float_lit 1 100; float_lit 25 1000; float_lit 5 100; float_lit 1 10; float_lit 25 100; float_lit 5 10; float_lit 1 1; float_lit 25 10; float_lit 5 1; float_lit 10 1; float_lit 30 1].
Definition SweepBuckets : list float64 :=
  [float_lit 1 10; float_lit 25 100; float_lit 5 10; float_lit 1 1; float_lit 25 10; float_lit 5 1; float_lit 10 1; float_lit 30 1; float_lit 60 1; float_lit 120 1; float_lit 300 1].
Definition ConvergenceBuckets : list float64 :=
  [float_lit 1 1000; float_lit 25 10000; float_lit 5 1000; float_lit 1 100; float_lit 25 1000; float_lit 5 100; float_lit 1 10; float_lit 25 100; float_lit 5 10; float_lit 1 1; float_lit 25 10; float_lit 5 1; float_lit 10 1; float_lit 30 1; float_lit 60 1].

Record Def := mkDef {
  Name : string;
  DKind : Kind;
  Help : string;
  DLabels : list string;
  Buckets : list float64;
  Enums : list (string * list string);
  Section_ : string
}.

Definition LabelCheck : string := "check".
Definition LabelPublisher : string := "publisher".
Definition LabelOp : string := "op".
Definition LabelReason : string := "reason".
Definition LabelStage : string := "stage".
Definition LabelKind : string := "kind".
Definition LabelTrust : string := "trust".
Definition LabelProjection : string := "projection".
Definition LabelCategory : string := "category".
Definition LabelResult : string := "result".
Definition LabelRole : string := "role".
Definition LabelEndpointIndex : string := "endpoint_index".
Definition LabelComponent : string := "component".
Definition LabelVersion : string := "version".
Definition LabelCommit : string := "commit".
Definition LabelGoVersion : string := "goversion".

Definition AllowedLabels : list (string * string) :=
  [(LabelCheck, "one per configured DriftCheck");
   (LabelPublisher, "bounded by maxPublisherLabels, then aggregated");
   (LabelOp, "closed enum");
   (LabelReason, "closed enum");
   (LabelStage, "closed enum");
   (LabelKind, "closed enum");
   (LabelTrust, "closed enum");
   (LabelProjection, "one per registered projection");
   (LabelCategory, "closed enum");
   (LabelResult, "closed enum");
   (LabelRole, "closed enum");
   (LabelEndpointIndex, "one per configured source endpoint");
   (LabelComponent, "closed enum");
   (LabelVersion, "fixed for the process lifetime");
   (LabelCommit, "fixed for the process lifetime");
   (LabelGoVersion, "fixed for the process lifetime")].

Definition sectionIngest : string := "Ingest".
Definition sectionSequence : string := "Sequence integrity".
Definition sectionOracle : string := "Oracle".
Definition sectionTarget : string := "Target".
Definition sectionDivergence : string := "Divergence".
Definition sectionSweeps : string := "Sweeps".
Definition sectionLag : string := "Lag".
Definition sectionSource : string := "Source".
Definition sectionProcess : string := "Process".

Definition sectionOrder : list string :=
  [sectionIngest; sectionSequence; sectionOracle; sectionTarget; sectionDivergence; sectionSweeps; sectionLag; sectionSource; sectionProcess].

Import Labels.

Definition ingest_defs : list Def :=
  [mkDef "driftwatch_events_received_total" KindCounter
     "Events accepted from the source and decoded, by publisher and operation."
     [LabelCheck; LabelPublisher; LabelOp] [] [(LabelOp, opValues)] sectionIngest;
   mkDef "driftwatch_events_dropped_total" KindCounter
     "Events driftwatch did not apply, by reason. Every increment is a hole in driftwatch's own view."
     [LabelCheck; LabelPublisher; LabelReason] [] [(LabelReason, dropReasonValues)] sectionIngest;
   mkDef "driftwatch_ingest_queue_depth" KindGauge
     "Messages buffered between the source and the applier."
     [LabelCheck; LabelStage] [] [(LabelStage, stageValues)] sectionIngest;
   mkDef "driftwatch_bytes_received_total" KindCounter
     "Payload bytes read off the transport."
     [LabelCheck] [] [] sectionIngest].

Definition sequence_defs : list Def :=
  [mkDef "driftwatch_seq_gaps_total" KindCounter
     "Sequence gaps observed, by publisher. A gap means driftwatch missed events and cannot vouch for the affected keys."
     [LabelCheck; LabelPublisher] [] [] sectionSequence;
   mkDef "driftwatch_seq_missing_events" KindGauge
     "Sequence numbers currently unaccounted for, by publisher."
     [LabelCheck; LabelPublisher] [] [] sectionSequence;
   mkDef "driftwatch_seq_epoch" KindGauge
     "The incarnation each publisher currently declares. A change is a restart."
     [LabelCheck; LabelPublisher] [] [] sectionSequence;
   mkDef "driftwatch_seq_high_water_mark" KindGauge
     "Highest sequence number seen from each publisher, within its current epoch."
     [LabelCheck; LabelPublisher] [] [] sectionSequence;
   mkDef "driftwatch_publisher_restarts_total" KindCounter
     "Publisher restarts, explicit (epoch bump) or implicit (sequence reset without one)."
     [LabelCheck; LabelPublisher; LabelKind] [] [(LabelKind, restartKindValues)] sectionSequence;
   mkDef "driftwatch_publisher_clock_skew_seconds" KindGauge
     "Publisher wall clock minus driftwatch's, in seconds. Diagnostic only: settlement uses local receive time."
     [LabelCheck; LabelPublisher] [] [] sectionSequence;
   mkDef "driftwatch_publishers_tracked" KindGauge
     "Publishers with sequence state."
     [LabelCheck] [] [] sectionSequence;
   mkDef "driftwatch_gapset_truncated" KindGauge
     "1 when a publisher's gap interval list hit its bound, so the missing-event count is a floor."
     [LabelCheck; LabelPublisher] [] [] sectionSequence].

Definition oracle_defs : list Def :=
  [mkDef "driftwatch_oracle_keys" KindGauge
     "Keys tracked by the oracle, by trust state."
     [LabelCheck; LabelTrust] [] [(LabelTrust, trustValues)] sectionOracle;
   mkDef "driftwatch_oracle_settled_keys" KindGauge
     "Keys whose last event is older than the settlement window, and so are eligible for comparison."
     [LabelCheck] [] [] sectionOracle;
   mkDef "driftwatch_oracle_inflight_keys" KindGauge
     "Keys changed within the settlement window. Disagreement on these is expected, not drift."
     [LabelCheck] [] [] sectionOracle;
   mkDef "driftwatch_oracle_never_settled_keys" KindGauge
     "Keys rescued by the stability window after staying in flight for a multiple of W."
     [LabelCheck] [] [] sectionOracle;
   mkDef "driftwatch_oracle_evictions_total" KindCounter
     "Keys the oracle dropped to stay within maxTrackedKeys. Non-zero means coverage is incomplete."
     [LabelCheck] [] [] sectionOracle;
   mkDef "driftwatch_oracle_apply_duration_seconds" KindHistogram
     "Time to fold one event into the oracle."
     [LabelCheck] LatencyBuckets [] sectionOracle;
   mkDef "driftwatch_projection_errors_total" KindCounter
     "Events a projection refused, by reason."
     [LabelCheck; LabelProjection; LabelReason] [] [(LabelReason, projectionErrorValues)] sectionOracle].

Definition target_defs : list Def :=
  [mkDef "driftwatch_target_reachable" KindGauge
     "1 when the last health probe reached the store. While this is 0 driftwatch reports no findings at all."
     [LabelCheck] [] [] sectionTarget;
   mkDef "driftwatch_target_errors_total" KindCounter
     "Failed store operations, by operation."
     [LabelCheck; LabelOp] [] [(LabelOp, targetOpValues)] sectionTarget;
   mkDef "driftwatch_target_read_duration_seconds" KindHistogram
     "Store read latency, by operation."
     [LabelCheck; LabelOp] LatencyBuckets [(LabelOp, targetOpValues)] sectionTarget;
   mkDef "driftwatch_target_keyspace_size" KindGauge
     "Keys the store reports holding."
     [LabelCheck] [] [] sectionTarget;
   mkDef "driftwatch_target_evictions_observed_total" KindCounter
     "Evictions the store reported. A sweep that finds mass absence while this is rising has an explanation that is not drift."
     [LabelCheck] [] [] sectionTarget;
   mkDef "driftwatch_target_expirations_observed_total" KindCounter
     "Key expirations the store reported."
     [LabelCheck] [] [] sectionTarget;
   mkDef "driftwatch_target_role" KindGauge
     "1 for the store's current replication role. Reads from a replica can be legitimately stale."
     [LabelCheck; LabelRole] [] [(LabelRole, roleValues)] sectionTarget].

Definition divergence_defs : list Def :=
  [mkDef "driftwatch_divergent_keys" KindGauge
     "Confirmed divergent keys on which driftwatch is a reliable witness. This is the metric to alert on."
     [LabelCheck; LabelCategory] [] [(LabelCategory, categoryValues)] sectionDivergence;
   mkDef "driftwatch_suspect_divergent_keys" KindGauge
     "Divergent keys whose events driftwatch knows it partly missed. Never alert on this: it measures driftwatch, not the store."
     [LabelCheck; LabelCategory] [] [(LabelCategory, categoryValues)] sectionDivergence;
   mkDef "driftwatch_advisory_divergent_keys" KindGauge
     "Divergent keys adopted at bootstrap rather than derived from events."
     [LabelCheck; LabelCategory] [] [(LabelCategory, categoryValues)] sectionDivergence;
   mkDef "driftwatch_drift_episodes_total" KindCounter
     "Divergences that survived two-phase confirmation."
     [LabelCheck; LabelCategory] [] [(LabelCategory, categoryValues)] sectionDivergence;
   mkDef "driftwatch_drift_resolved_total" KindCounter
     "Confirmed divergences that later agreed again. A confirmed finding is a claim about one oracle version, and this is how it is withdrawn."
     [LabelCheck; LabelCategory] [] [(LabelCategory, categoryValues)] sectionDivergence;
   mkDef "driftwatch_drift_duration_seconds" KindGauge
     "Age of the oldest unresolved drift episode."
     [LabelCheck] [] [] sectionDivergence;
   mkDef "driftwatch_transient_divergence_total" KindCounter
     "Candidates that stopped disagreeing before confirmation. A healthy pipeline produces these constantly: they are the false positives the §5 mechanisms suppressed."
     [LabelCheck; LabelReason] [] [(LabelReason, transientReasonValues)] sectionDivergence;
   mkDef "driftwatch_confirm_queue_depth" KindGauge
     "Candidates awaiting their second read."
     [LabelCheck] [] [] sectionDivergence;
   mkDef "driftwatch_confirm_queue_dropped_total" KindCounter
     "Candidates discarded because the confirm queue was full. Under mass divergence the magnitude matters more than the per-key detail."
     [LabelCheck] [] [] sectionDivergence].

Definition sweeps_defs : list Def :=
  [mkDef "driftwatch_sweeps_total" KindCounter
     "Sweeps run, by direction and outcome."
     [LabelCheck; LabelKind; LabelResult] [] [(LabelKind, sweepKindValues); (LabelResult, sweepResultValues)] sectionSweeps;
   mkDef "driftwatch_sweeps_skipped_total" KindCounter
     "Sweeps skipped because the previous one was still running."
     [LabelCheck; LabelKind] [] [(LabelKind, sweepKindValues)] sectionSweeps;
   mkDef "driftwatch_sweep_duration_seconds" KindHistogram
     "Wall time of one sweep."
     [LabelCheck; LabelKind] SweepBuckets [(LabelKind, sweepKindValues)] sectionSweeps;
   mkDef "driftwatch_sweep_keys_compared" KindGauge
     "Keys compared in the last sweep."
     [LabelCheck] [] [] sectionSweeps;
   mkDef "driftwatch_coverage_ratio" KindGauge
     "Fraction of tracked keys the last sweep actually compared. A high divergence count under a low coverage ratio is not what it looks like."
     [LabelCheck] [] [] sectionSweeps].

Definition lag_defs : list Def :=
  [mkDef "driftwatch_convergence_seconds" KindHistogram
     "Delay between the oracle learning a value and the target holding it. The settlement window is derived from this distribution's p99."
     [LabelCheck] ConvergenceBuckets [] sectionLag;
   mkDef "driftwatch_settlement_window_seconds" KindGauge
     "The settlement window currently in force."
     [LabelCheck] [] [] sectionLag;
   mkDef "driftwatch_lag_probe_timeouts_total" KindCounter
     "Convergence probes that never converged. Recorded at the maximum poll delay rather than discarded, because discarding them biases the window down exactly during an outage."
     [LabelCheck] [] [] sectionLag].

Definition source_defs : list Def :=
  [mkDef "driftwatch_source_connected" KindGauge
     "1 per source endpoint that is currently connected."
     [LabelCheck; LabelEndpointIndex] [] [] sectionSource;
   mkDef "driftwatch_source_reconnects_total" KindCounter
     "Transport reconnects. Each one is a window in which messages were missed with no way to tell how many."
     [LabelCheck] [] [] sectionSource].

Definition process_defs : list Def :=
  [mkDef "driftwatch_build_info" KindGauge
     "Always 1, labeled with the build this process is running."
     [LabelVersion; LabelCommit; LabelGoVersion] [] [] sectionProcess;
   mkDef "driftwatch_checks_active" KindGauge
     "Checks currently running in this process."
     [] [] [] sectionProcess;
   mkDef "driftwatch_panics_total" KindCounter
     "Panics recovered, by component. Any increment is a bug."
     [LabelCheck; LabelComponent] [] [(LabelComponent, componentValues)] sectionProcess].

Definition defs : list Def :=
  ingest_defs ++ sequence_defs ++ oracle_defs ++ target_defs ++ divergence_defs ++ sweeps_defs ++ lag_defs ++ source_defs ++ process_defs.

Definition Defs : list Def := defs.
Definition Names : list string := merge_sort String.le (Name <$> defs).

(** ** The publisher label *)

Definition DefaultMaxPublisherLabels : Z := 50.
Definition OtherPublisher : string := "__other__".

Record publisherLimiter := mkLimiter { limit : Z; admitted : gset string; warned : bool }.

Definition newPublisherLimiter (limit : Z) : publisherLimiter := mkLimiter limit ∅ false.

Definition full (p : publisherLimiter) : bool := limit p <=? Z.of_nat (size (admitted p)).

(** The first half, under the read lock: an answer, or on to the second half. *)
Definition label_read (p : publisherLimiter) (publisher : string) : option string :=
  if bool_decide (publisher = "") then Some OtherPublisher
  else if bool_decide (publisher ∈ admitted p) then Some publisher
  else if full p then Some OtherPublisher
  else None.

(** The second half, under the write lock; it warns in the log when it is the first to find no room. *)
Definition label_locked (p : publisherLimiter) (publisher : string) : publisherLimiter * string :=
  if bool_decide (publisher ∈ admitted p) then (p, publisher)
  else if full p then (mkLimiter (limit p) (admitted p) true, OtherPublisher)
  else (mkLimiter (limit p) ({[publisher]} ∪ admitted p) (warned p), publisher).

(** Both halves with nobody in between. *)
Definition label (p : publisherLimiter) (publisher : string) : publisherLimiter * string :=
  match label_read p publisher with
  | Some l => (p, l)
  | None => label_locked p publisher
  end.

Definition Admitted_ (p : publisherLimiter) : Z := Z.of_nat (size (admitted p)).

(** ** The surface of one check *)

(** [Touch] looks a series up, which makes it if there is none, and does nothing to it. *)
Inductive action := Inc | AddBy (v : float64) | SetTo (v : float64) | Observed (v : float64) | Touch.

Record sample := mkSample { SName : string; SKind : Kind; SLabels : list string; SAction : action }.

(** lastTotals belongs to the process and is keyed by check and total. *)
Record CheckMetrics := mkCheckMetrics {
  check_name : string;
  publisher : publisherLimiter;
  lastTotals : gmap string Z
}.

(** The limit of New: 0 is the default, negative none. *)
Definition effective_limit (MaxPublisherLabels : Z) : Z :=
  let maxPub := if MaxPublisherLabels =? 0 then DefaultMaxPublisherLabels else MaxPublisherLabels in
  if maxPub <? 0 then 0 else maxPub.

Definition ForCheck (MaxPublisherLabels : Z) (totals : gmap string Z) (name : string) : CheckMetrics :=
  mkCheckMetrics name (newPublisherLimiter (effective_limit MaxPublisherLabels)) totals.

Definition counter (c : CheckMetrics) (name : string) (labels : list string) (a : action) : sample :=
  mkSample name KindCounter (check_name c :: labels) a.
Definition gauge (c : CheckMetrics) (name : string) (labels : list string) (v : float64) : sample :=
  mkSample name KindGauge (check_name c :: labels) (SetTo v).
Definition histogram (c : CheckMetrics) (name : string) (labels : list string) (v : float64) : sample :=
  mkSample name KindHistogram (check_name c :: labels) (Observed v).

Definition metered : Type := CheckMetrics * list sample.

Definition simply (c : CheckMetrics) (l : list sample) : metered := (c, l).
Definition labelled (c : CheckMetrics) (pub : string) (k : string → list sample) : metered :=
  let '(p, l) := label (publisher c) pub in (mkCheckMetrics (check_name c) p (lastTotals c), k l).

Definition boolValue (b : bool) : float64 := float_of_Z (if b then 1 else 0).

(** The difference to the total seen last. *)
Definition addDelta (c : CheckMetrics) (name key : string) (total : Z) : metered :=
  let key := check_name c +:+ key in
  let c' := mkCheckMetrics (check_name c) (publisher c) (<[key := total]> (lastTotals c)) in
  let nothing := counter c name [] Touch in
  match lastTotals c !! key with
  | None => (c', [nothing])
  | Some last =>
      if total <? last then (c', [nothing])
      else if 0 <? total - last then (c', [counter c name [] (AddBy (float_of_Z (total - last)))])
      else (c', [nothing])
  end.

Definition EventReceived (c : CheckMetrics) (pub op : string) : metered :=
  labelled c pub (λ l, [counter c "driftwatch_events_received_total" [l; Op_Normalize op] Inc]).
Definition EventDropped (c : CheckMetrics) (pub reason : string) : metered :=
  labelled c pub (λ l, [counter c "driftwatch_events_dropped_total" [l; DropReason_Normalize reason] Inc]).
Definition SetQueueDepth (c : CheckMetrics) (stage : string) (n : Z) : metered :=
  simply c [gauge c "driftwatch_ingest_queue_depth" [Stage_Normalize stage] (float_of_Z n)].
Definition AddBytesReceived (c : CheckMetrics) (n : Z) : metered :=
  simply c [counter c "driftwatch_bytes_received_total" [] (AddBy (float_of_Z n))].
Definition SeqGap (c : CheckMetrics) (pub : string) : metered :=
  labelled c pub (λ l, [counter c "driftwatch_seq_gaps_total" [l] Inc]).
Definition SetMissingEvents (c : CheckMetrics) (pub : string) (n : Z) : metered :=
  labelled c pub (λ l, [gauge c "driftwatch_seq_missing_events" [l] (float_of_Z n)]).
Definition SetSeqPosition (c : CheckMetrics) (pub : string) (epoch highWaterMark : Z) : metered :=
  labelled c pub (λ l, [gauge c "driftwatch_seq_epoch" [l] (float_of_Z epoch);
                        gauge c "driftwatch_seq_high_water_mark" [l] (float_of_Z highWaterMark)]).
Definition PublisherRestart (c : CheckMetrics) (pub kind : string) : metered :=
  labelled c pub (λ l, [counter c "driftwatch_publisher_restarts_total" [l; RestartKind_Normalize kind] Inc]).
Definition SetClockSkew (c : CheckMetrics) (pub : string) (d : Duration) : metered :=
  labelled c pub (λ l, [gauge c "driftwatch_publisher_clock_skew_seconds" [l] (Seconds d)]).
Definition SetPublishersTracked (c : CheckMetrics) (n : Z) : metered :=
  simply c [gauge c "driftwatch_publishers_tracked" [] (float_of_Z n)].
Definition SetGapsetTruncated (c : CheckMetrics) (pub : string) (truncated : bool) : metered :=
  labelled c pub (λ l, [gauge c "driftwatch_gapset_truncated" [l] (boolValue truncated)]).

Definition SetOracleKeys (c : CheckMetrics) (trust : string) (n : Z) : metered :=
  simply c [gauge c "driftwatch_oracle_keys" [Trust_Normalize trust] (float_of_Z n)].
Definition SetSettledKeys (c : CheckMetrics) (n : Z) : metered :=
  simply c [gauge c "driftwatch_oracle_settled_keys" [] (float_of_Z n)].
Definition SetInflightKeys (c : CheckMetrics) (n : Z) : metered :=
  simply c [gauge c "driftwatch_oracle_inflight_keys" [] (float_of_Z n)].
Definition SetNeverSettledKeys (c : CheckMetrics) (n : Z) : metered :=
  simply c [gauge c "driftwatch_oracle_never_settled_keys" [] (float_of_Z n)].
Definition SetOracleEvictionsTotal (c : CheckMetrics) (total : Z) : metered :=
  addDelta c "driftwatch_oracle_evictions_total" "|oracle_evictions" total.
Definition ObserveApplyDuration (c : CheckMetrics) (d : Duration) : metered :=
  simply c [histogram c "driftwatch_oracle_apply_duration_seconds" [] (Seconds d)].
Definition ProjectionError (c : CheckMetrics) (projection reason : string) : metered :=
  simply c [counter c "driftwatch_projection_errors_total" [projection; ProjectionErrorReason_Normalize reason] Inc].

Definition SetTargetReachable (c : CheckMetrics) (reachable : bool) : metered :=
  simply c [gauge c "driftwatch_target_reachable" [] (boolValue reachable)].
Definition TargetError (c : CheckMetrics) (op : string) : metered :=
  simply c [counter c "driftwatch_target_errors_total" [TargetOp_Normalize op] Inc].
Definition ObserveTargetRead (c : CheckMetrics) (op : string) (d : Duration) : metered :=
  simply c [histogram c "driftwatch_target_read_duration_seconds" [TargetOp_Normalize op] (Seconds d)].
Definition SetTargetKeyspaceSize (c : CheckMetrics) (n : Z) : metered :=
  simply c [gauge c "driftwatch_target_keyspace_size" [] (float_of_Z n)].
Definition SetTargetEvictionsObserved (c : CheckMetrics) (total : Z) : metered :=
  addDelta c "driftwatch_target_evictions_observed_total" "|target_evictions" total.
Definition SetTargetExpirationsObserved (c : CheckMetrics) (total : Z) : metered :=
  addDelta c "driftwatch_target_expirations_observed_total" "|target_expirations" total.
Definition SetTargetRole (c : CheckMetrics) (role : string) : metered :=
  let role := Role_Normalize role in
  simply c ((λ r, gauge c "driftwatch_target_role" [r] (boolValue (bool_decide (r = role)))) <$> roleValues).

Definition SetDivergentKeys (c : CheckMetrics) (cat : string) (n : Z) : metered :=
  simply c [gauge c "driftwatch_divergent_keys" [Category_Normalize cat] (float_of_Z n)].
Definition SetSuspectDivergentKeys (c : CheckMetrics) (cat : string) (n : Z) : metered :=
  simply c [gauge c "driftwatch_suspect_divergent_keys" [Category_Normalize cat] (float_of_Z n)].
Definition SetAdvisoryDivergentKeys (c : CheckMetrics) (cat : string) (n : Z) : metered :=
  simply c [gauge c "driftwatch_advisory_divergent_keys" [Category_Normalize cat] (float_of_Z n)].
Definition DriftEpisode (c : CheckMetrics) (cat : string) : metered :=
  simply c [counter c "driftwatch_drift_episodes_total" [Category_Normalize cat] Inc].
Definition DriftResolved (c : CheckMetrics) (cat : string) : metered :=
  simply c [counter c "driftwatch_drift_resolved_total" [Category_Normalize cat] Inc].
Definition SetDriftDuration (c : CheckMetrics) (d : Duration) : metered :=
  simply c [gauge c "driftwatch_drift_duration_seconds" [] (Seconds d)].
Definition TransientDivergence (c : CheckMetrics) (reason : string) : metered :=
  simply c [counter c "driftwatch_transient_divergence_total" [TransientReason_Normalize reason] Inc].
Definition SetConfirmQueueDepth (c : CheckMetrics) (n : Z) : metered :=
  simply c [gauge c "driftwatch_confirm_queue_depth" [] (float_of_Z n)].
Definition SetConfirmQueueDroppedTotal (c : CheckMetrics) (total : Z) : metered :=
  addDelta c "driftwatch_confirm_queue_dropped_total" "|confirm_dropped" total.

Definition Sweep (c : CheckMetrics) (kind result : string) : metered :=
  simply c [counter c "driftwatch_sweeps_total" [SweepKind_Normalize kind; SweepResult_Normalize result] Inc].
Definition SweepSkipped (c : CheckMetrics) (kind : string) : metered :=
  simply c [counter c "driftwatch_sweeps_skipped_total" [SweepKind_Normalize kind] Inc].
Definition ObserveSweepDuration (c : CheckMetrics) (kind : string) (d : Duration) : metered :=
  simply c [histogram c "driftwatch_sweep_duration_seconds" [SweepKind_Normalize kind] (Seconds d)].
Definition SetSweepKeysCompared (c : CheckMetrics) (n : Z) : metered :=
  simply c [gauge c "driftwatch_sweep_keys_compared" [] (float_of_Z n)].
Definition SetCoverageRatio (c : CheckMetrics) (ratio : float64) : metered :=
  simply c [gauge c "driftwatch_coverage_ratio" [] ratio].

Definition ObserveConvergence (c : CheckMetrics) (d : Duration) : metered :=
  simply c [histogram c "driftwatch_convergence_seconds" [] (Seconds d)].
Definition SetSettlementWindow (c : CheckMetrics) (d : Duration) : metered :=
  simply c [gauge c "driftwatch_settlement_window_seconds" [] (Seconds d)].
Definition SetLagProbeTimeoutsTotal (c : CheckMetrics) (total : Z) : metered :=
  addDelta c "driftwatch_lag_probe_timeouts_total" "|lag_timeouts" total.

Definition SetSourceConnected (c : CheckMetrics) (endpointIndex : Z) (connected : bool) : metered :=
  simply c [gauge c "driftwatch_source_connected" [pretty endpointIndex] (boolValue connected)].
Definition SetSourceReconnectsTotal (c : CheckMetrics) (total : Z) : metered :=
  addDelta c "driftwatch_source_reconnects_total" "|source_reconnects" total.
Definition PanicCounted (c : CheckMetrics) (component : string) : metered :=
  simply c [counter c "driftwatch_panics_total" [Component_Normalize component] Inc].

(** SetBuildInfo and SetChecksActive are of the process, not of a check. *)
Definition SetBuildInfo (version commit goVersion : string) : sample :=
  mkSample "driftwatch_build_info" KindGauge [version; commit; goVersion] (SetTo (float_of_Z 1)).
Definition SetChecksActive (n : Z) : sample :=
  mkSample "driftwatch_checks_active" KindGauge [] (SetTo (float_of_Z n)).

(** ** No measurement is mislabelled, and the series of a check are bounded

    Whatever is measured, in whatever order and however many publishers there
    are, every sample belongs to a registered metric of its kind, has its labels
    and takes their values from closed sets; so the number of series is bounded by
    a number that does not depend on the stream. *)

Import Labels.

(** ** The limiter *)

Definition within (p : publisherLimiter) : Prop := Z.of_nat (size (admitted p)) ≤ Z.max 0 (limit p).

Definition grown (p q : publisherLimiter) : Prop := limit q = limit p ∧ admitted p ⊆ admitted q.

#[export] Instance grown_preorder : PreOrder grown.
Proof.
  split; [by intros p|]. intros p q r [H1 H2] [H3 H4]. split; [congruence|set_solver].
Qed.

Definition known_label (p : publisherLimiter) (l : string) : Prop := l = OtherPublisher ∨ l ∈ admitted p.

Lemma known_label_grown p q l : grown p q → known_label p l → known_label q l.
Proof. intros [_ Hs] [->|Hl]; [by left|right; set_solver]. Qed.

Lemma label_locked_spec p pub :
  within p →
  let '(q, l) := label_locked p pub in within q ∧ grown p q ∧ known_label q l.
Proof.
  intros Hp. unfold label_locked, within, grown, known_label, full in *.
  destruct (bool_decide _) eqn:Hd; [apply bool_decide_eq_true in Hd; auto|].
  apply bool_decide_eq_false in Hd. case_bool; cbn [limit admitted]; [auto|].
  split_and!; [|done|set_solver|set_solver]. rewrite size_union by set_solver. rewrite size_singleton. lia.
Qed.

Lemma label_spec p pub :
  within p → let '(q, l) := label p pub in within q ∧ grown p q ∧ known_label q l.
Proof.
  intros Hp. unfold label. destruct (label_read p pub) as [l|] eqn:Hr; [|by apply label_locked_spec].
  split_and!; [done|done|]. unfold label_read, known_label in *.
  destruct (bool_decide (pub = "")); [injection Hr as <-; by left|].
  destruct (bool_decide (pub ∈ _)) eqn:Hd; [injection Hr as <-; right; by apply bool_decide_eq_true in Hd|].
  destruct (full p); [injection Hr as <-; by left|done].
Qed.

(** the one open label stays closed, however the threads interleave: whatever publishers ask, and
    whatever came between the two halves of their asking, no more than the limit get a label of their
    own; a publisher that has one keeps it, and everybody else is counted under the one other label. *)
Theorem publisher_labels_are_bounded (asked : list string) n :
  let p := foldl (λ p pub, (label_locked p pub).1) (newPublisherLimiter (effective_limit n)) asked in
  Admitted_ p ≤ effective_limit n
  ∧ (∀ pub, pub ≠ "" → pub ∈ admitted p → label p pub = (p, pub))
  ∧ (∀ pub, Admitted_ p = effective_limit n → pub ∉ admitted p → label p pub = (p, OtherPublisher)).
Proof.
  set (p0 := newPublisherLimiter _). intros p.
  assert (within p ∧ grown p0 p) as [Hp [Hl _]].
  { subst p. induction asked as [|pub l [IH1 IH2]] using rev_ind; cbn; [split; [|done]|].
    - unfold within. cbn. rewrite size_empty. lia.
    - rewrite foldl_app. cbn. pose proof (label_locked_spec _ pub IH1) as Hs.
      destruct (label_locked _ _) as [q x]. cbn. destruct Hs as (H1 & H2 & _). split; [done|]. by etrans. }
  assert (0 ≤ effective_limit n) as H0 by (unfold effective_limit; repeat case_bool).
  change (limit p0) with (effective_limit n) in Hl. unfold within, Admitted_ in *. rewrite Hl in Hp.
  split_and!; [lia| |]; intros pub H1 H2; unfold label, label_read, full.
  - rewrite bool_decide_false by done. by rewrite bool_decide_true.
  - case_bool_decide; [done|]. rewrite bool_decide_false by done. rewrite Hl. case_bool; done.
Qed.

(** ** Conformance *)

(** What a label may be worth: the closed set of the metric's definition, or what the check is given. *)
Record environment := mkEnv { env_check : string; env_publishers : list string; env_projections : list string; env_endpoints : list string }.

Definition values (env : environment) (d : Def) (l : string) : list string :=
  match List.find (λ e, bool_decide (e.1 = l)) (Enums d) with
  | Some e => e.2
  | None =>
      if bool_decide (l = LabelCheck) then [env_check env]
      else if bool_decide (l = LabelPublisher) then env_publishers env
      else if bool_decide (l = LabelProjection) then env_projections env
      else if bool_decide (l = LabelEndpointIndex) then env_endpoints env
      else []
  end.

Definition find_def (name : string) : option Def := List.find (λ d, bool_decide (Name d = name)) defs.

(** The sample is one the client takes: registered under its kind, with a value for each label, and
    each value of its set. *)
Definition conforms (env : environment) (s : sample) : Prop :=
  match find_def (SName s) with
  | Some d => DKind d = SKind s ∧ Forall2 (λ l v, v ∈ values env d l) (DLabels d) (SLabels s)
  | None => False
  end.

Definition env_of (c : CheckMetrics) (projections endpoints : list string) : environment :=
  mkEnv (check_name c) (OtherPublisher :: elements (admitted (publisher c))) projections endpoints.

(** The methods of CheckMetrics, with any arguments; projections and endpoints are those configured. *)
Inductive method (projections endpoints : list string) : (CheckMetrics → metered) → Prop :=
  | m_EventReceived pub op : method projections endpoints (λ c, EventReceived c pub op)
  | m_EventDropped pub r : method projections endpoints (λ c, EventDropped c pub r)
  | m_SetQueueDepth st n : method projections endpoints (λ c, SetQueueDepth c st n)
  | m_AddBytesReceived n : method projections endpoints (λ c, AddBytesReceived c n)
  | m_SeqGap pub : method projections endpoints (λ c, SeqGap c pub)
  | m_SetMissingEvents pub n : method projections endpoints (λ c, SetMissingEvents c pub n)
  | m_SetSeqPosition pub e h : method projections endpoints (λ c, SetSeqPosition c pub e h)
  | m_PublisherRestart pub k : method projections endpoints (λ c, PublisherRestart c pub k)
  | m_SetClockSkew pub d : method projections endpoints (λ c, SetClockSkew c pub d)
  | m_SetPublishersTracked n : method projections endpoints (λ c, SetPublishersTracked c n)
  | m_SetGapsetTruncated pub b : method projections endpoints (λ c, SetGapsetTruncated c pub b)
  | m_SetOracleKeys t n : method projections endpoints (λ c, SetOracleKeys c t n)
  | m_SetSettledKeys n : method projections endpoints (λ c, SetSettledKeys c n)
  | m_SetInflightKeys n : method projections endpoints (λ c, SetInflightKeys c n)
  | m_SetNeverSettledKeys n : method projections endpoints (λ c, SetNeverSettledKeys c n)
  | m_SetOracleEvictionsTotal n : method projections endpoints (λ c, SetOracleEvictionsTotal c n)
  | m_ObserveApplyDuration d : method projections endpoints (λ c, ObserveApplyDuration c d)
  | m_ProjectionError p r : p ∈ projections → method projections endpoints (λ c, ProjectionError c p r)
  | m_SetTargetReachable b : method projections endpoints (λ c, SetTargetReachable c b)
  | m_TargetError op : method projections endpoints (λ c, TargetError c op)
  | m_ObserveTargetRead op d : method projections endpoints (λ c, ObserveTargetRead c op d)
  | m_SetTargetKeyspaceSize n : method projections endpoints (λ c, SetTargetKeyspaceSize c n)
  | m_SetTargetEvictionsObserved n : method projections endpoints (λ c, SetTargetEvictionsObserved c n)
  | m_SetTargetExpirationsObserved n : method projections endpoints (λ c, SetTargetExpirationsObserved c n)
  | m_SetTargetRole r : method projections endpoints (λ c, SetTargetRole c r)
  | m_SetDivergentKeys cat n : method projections endpoints (λ c, SetDivergentKeys c cat n)
  | m_SetSuspectDivergentKeys cat n : method projections endpoints (λ c, SetSuspectDivergentKeys c cat n)
  | m_SetAdvisoryDivergentKeys cat n : method projections endpoints (λ c, SetAdvisoryDivergentKeys c cat n)
  | m_DriftEpisode cat : method projections endpoints (λ c, DriftEpisode c cat)
  | m_DriftResolved cat : method projections endpoints (λ c, DriftResolved c cat)
  | m_SetDriftDuration d : method projections endpoints (λ c, SetDriftDuration c d)
  | m_TransientDivergence r : method projections endpoints (λ c, TransientDivergence c r)
  | m_SetConfirmQueueDepth n : method projections endpoints (λ c, SetConfirmQueueDepth c n)
  | m_SetConfirmQueueDroppedTotal n : method projections endpoints (λ c, SetConfirmQueueDroppedTotal c n)
  | m_Sweep k r : method projections endpoints (λ c, Sweep c k r)
  | m_SweepSkipped k : method projections endpoints (λ c, SweepSkipped c k)
  | m_ObserveSweepDuration k d : method projections endpoints (λ c, ObserveSweepDuration c k d)
  | m_SetSweepKeysCompared n : method projections endpoints (λ c, SetSweepKeysCompared c n)
  | m_SetCoverageRatio f : method projections endpoints (λ c, SetCoverageRatio c f)
  | m_ObserveConvergence d : method projections endpoints (λ c, ObserveConvergence c d)
  | m_SetSettlementWindow d : method projections endpoints (λ c, SetSettlementWindow c d)
  | m_SetLagProbeTimeoutsTotal n : method projections endpoints (λ c, SetLagProbeTimeoutsTotal c n)
  | m_SetSourceConnected i b : pretty i ∈ endpoints → method projections endpoints (λ c, SetSourceConnected c i b)
  | m_SetSourceReconnectsTotal n : method projections endpoints (λ c, SetSourceReconnectsTotal c n)
  | m_PanicCounted k : method projections endpoints (λ c, PanicCounted c k).

Lemma normalize_in v allowed fallback : fallback ∈ allowed → normalize v allowed fallback ∈ allowed.
Proof.
  intros Hf. assert (∀ l, normalize v l fallback ∈ l ∨ normalize v l fallback = fallback) as Hn.
  { induction l as [|a l IH]; cbn; [by right|]. case_bool_decide; [subst; left; left|].
    destruct IH as [IH|IH]; [left; by right|by right]. }
  destruct (Hn allowed) as [H|H]; [done|by rewrite H].
Qed.

(** A sample of a named metric conforms when its labels do. *)
Lemma conforms_by env s d :
  find_def (SName s) = Some d → DKind d = SKind s → Forall2 (λ l v, v ∈ values env d l) (DLabels d) (SLabels s) →
  conforms env s.
Proof. intros Hd Hk Hl. unfold conforms. by rewrite Hd. Qed.

Definition result_conforms (projections endpoints : list string) (c : CheckMetrics) (r : metered) : Prop :=
  within (publisher r.1) ∧ grown (publisher c) (publisher r.1) ∧ check_name r.1 = check_name c
  ∧ Forall (conforms (env_of r.1 projections endpoints)) r.2.

Definition enum_of (d : Def) (l : string) : option (string * list string) :=
  List.find (λ e, bool_decide (e.1 = l)) (Enums d).

Section values.
Context (c : CheckMetrics) (projections endpoints : list string) (d : Def).

Lemma val_check : enum_of d LabelCheck = None → check_name c ∈ values (env_of c projections endpoints) d LabelCheck.
Proof. unfold values, enum_of. intros ->. cbn. left. Qed.

Lemma val_publisher l :
  enum_of d LabelPublisher = None → known_label (publisher c) l → l ∈ values (env_of c projections endpoints) d LabelPublisher.
Proof. unfold values, enum_of. intros ->. cbn. intros [->|Hl]; [left|right]. by apply elem_of_elements. Qed.

Lemma val_projection v :
  enum_of d LabelProjection = None → v ∈ projections → v ∈ values (env_of c projections endpoints) d LabelProjection.
Proof. unfold values, enum_of. by intros ->. Qed.

Lemma val_endpoint v :
  enum_of d LabelEndpointIndex = None → v ∈ endpoints → v ∈ values (env_of c projections endpoints) d LabelEndpointIndex.
Proof. unfold values, enum_of. by intros ->. Qed.

Lemma val_enum v l x vals fallback :
  enum_of d l = Some (x, vals) → bool_decide (fallback ∈ vals) = true →
  normalize v vals fallback ∈ values (env_of c projections endpoints) d l.
Proof. unfold values, enum_of. intros -> Hf. apply normalize_in. by apply bool_decide_eq_true in Hf. Qed.

Lemma val_member v l x vals :
  enum_of d l = Some (x, vals) → bool_decide (v ∈ vals) = true → v ∈ values (env_of c projections endpoints) d l.
Proof. unfold values, enum_of. intros -> Hf. by apply bool_decide_eq_true in Hf. Qed.
End values.

Ltac conform_value :=
  first
    [ eapply val_enum; [vm_compute; reflexivity|vm_compute; reflexivity]
    | eapply val_member; [vm_compute; reflexivity|vm_compute; reflexivity]
    | apply val_check; reflexivity
    | apply val_publisher; [reflexivity|assumption]
    | apply val_projection; [reflexivity|assumption]
    | apply val_endpoint; [reflexivity|assumption] ].

Ltac conform :=
  eapply conforms_by; [vm_compute; reflexivity|reflexivity|];
  repeat (apply Forall2_cons; split); try apply Forall2_nil_2; conform_value.

Lemma simply_ok projections endpoints c l :
  within (publisher c) → Forall (conforms (env_of c projections endpoints)) l → result_conforms projections endpoints c (simply c l).
Proof. intros Hw Hl. by split_and!. Qed.

Lemma labelled_ok projections endpoints c pub k :
  within (publisher c) →
  (∀ c' l, check_name c' = check_name c → known_label (publisher c') l → Forall (conforms (env_of c' projections endpoints)) (k l)) →
  result_conforms projections endpoints c (labelled c pub k).
Proof.
  intros Hw Hk. unfold labelled. pose proof (label_spec (publisher c) pub Hw) as Hs.
  destruct (label _ _) as [q l]. destruct Hs as (H1 & H2 & H3). split_and!; try done. by apply Hk.
Qed.

Lemma addDelta_ok projections endpoints c name key total :
  within (publisher c) → (∀ c' a, conforms (env_of c' projections endpoints) (counter c' name [] a)) →
  result_conforms projections endpoints c (addDelta c name key total).
Proof.
  intros Hw Hk. unfold addDelta. set (c' := mkCheckMetrics _ _ _).
  assert (∀ a, result_conforms projections endpoints c (c', [counter c name [] a])) as Hr.
  { intros a. split_and!; try done. cbn. constructor; [|done]. apply (Hk c' a). }
  destruct (lastTotals c !! _); [|apply Hr]. repeat case_match; apply Hr.
Qed.

Lemma method_conforms projections endpoints c op :
  method projections endpoints op → within (publisher c) → result_conforms projections endpoints c (op c).
Proof.
  intros Hop Hw. destruct Hop.
  all: first
    [ apply addDelta_ok; [done|]; intros c' a; conform
    | apply labelled_ok; [done|]; intros c' l Hn Hl; unfold counter, gauge; rewrite <- Hn;
      repeat apply Forall_cons_2; try apply Forall_nil_2; conform
    | apply simply_ok; [done|]; repeat apply Forall_cons_2; try apply Forall_nil_2; conform ].
Qed.

(** no measurement is mislabelled: whatever a method of the surface is given, what it hands to the
    client is a sample of a registered metric, under its kind, with one value for each of its labels in
    the order they were registered, and each value from the closed set of that label: the client never
    panics and no error text becomes a label. *)
Theorem samples_conform projections endpoints c op :
  method projections endpoints op → within (publisher c) → result_conforms projections endpoints c (op c).
Proof. apply method_conforms. Qed.

(** ** The number of series *)

(** What a run of operations hands to the client. *)
Fixpoint perform (ops : list (CheckMetrics → metered)) (c : CheckMetrics) : metered :=
  match ops with
  | [] => (c, [])
  | op :: ops =>
      let '(c, l) := op c in
      let '(c, l') := perform ops c in
      (c, l ++ l')
  end.

Definition series_of (l : list sample) : gset (string * list string) :=
  list_to_set ((λ s, (SName s, SLabels s)) <$> l).

(** How many values each label may have, and how many series that makes. *)
Definition label_card (publishers projections endpoints : nat) (d : Def) (l : string) : nat :=
  match enum_of d l with
  | Some e => length e.2
  | None =>
      if bool_decide (l = LabelCheck) then 1
      else if bool_decide (l = LabelPublisher) then publishers
      else if bool_decide (l = LabelProjection) then projections
      else if bool_decide (l = LabelEndpointIndex) then endpoints
      else 0
  end.

Definition series_bound (publishers projections endpoints : nat) : nat :=
  sum_list ((λ d, foldr (λ l n, label_card publishers projections endpoints d l * n)%nat 1%nat (DLabels d)) <$> defs).

(** Every choice of one value per label. *)
Definition tuples (vss : list (list string)) : list (list string) :=
  foldr (λ vs acc, vs ≫= λ v, cons v <$> acc) [[]] vss.

Lemma tuples_elem vss l : Forall2 (λ vs v, v ∈ vs) vss l → l ∈ tuples vss.
Proof.
  induction 1 as [|vs v vss l Hv _ IH]; [left|]. cbn. apply list_elem_of_bind. exists v. split; [|done].
  by apply list_elem_of_fmap_2.
Qed.

Lemma tuples_length vss : length (tuples vss) = foldr (λ vs n, length vs * n)%nat 1%nat vss.
Proof.
  induction vss as [|vs vss IH]; [done|]. cbn [tuples foldr]. rewrite <- IH. fold (tuples vss). generalize (tuples vss).
  intros ts. induction vs as [|v vs IHv]; [done|]. cbn [mbind list_bind length]. rewrite length_app, length_fmap, IHv. lia.
Qed.

Definition universe (env : environment) : list (string * list string) :=
  defs ≫= λ d, pair (Name d) <$> tuples (values env d <$> DLabels d).

Lemma size_list_to_set_le (l : list (string * list string)) : (size (list_to_set l : gset _) ≤ length l)%nat.
Proof.
  induction l as [|x l IH]; cbn; [by rewrite size_empty|]. rewrite size_union_alt, size_singleton.
  cbn. apply le_n_S. etrans; [|exact IH]. apply subseteq_size. set_solver.
Qed.

Lemma series_bound_mono m n k e : (m ≤ n)%nat → (series_bound m k e ≤ series_bound n k e)%nat.
Proof.
  intros Hmn. unfold series_bound. generalize defs. induction l as [|d l IH]; [done|].
  rewrite fmap_cons. cbn [sum_list_with id].
  assert (∀ ls, foldr (λ l n, label_card m k e d l * n)%nat 1%nat ls ≤ foldr (λ l x, label_card n k e d l * x)%nat 1%nat ls)%nat as Hf.
  { induction ls as [|x ls IHl]; [done|]. cbn. apply Nat.mul_le_mono; [|done]. unfold label_card. by repeat case_match. }
  unfold sum_list in *. cbn. apply Nat.add_le_mono; [apply Hf|apply IH].
Qed.

Lemma conforms_universe env s : conforms env s → (SName s, SLabels s) ∈ universe env.
Proof.
  unfold conforms. destruct (find_def (SName s)) as [d|] eqn:Hd; [|done]. intros [_ Hl].
  apply find_some in Hd as [Hin Hn]. apply bool_decide_eq_true in Hn. unfold universe.
  apply list_elem_of_bind. exists d. split; [|by apply list_elem_of_In]. rewrite <- Hn.
  apply list_elem_of_fmap_2, tuples_elem. by apply Forall2_fmap_l.
Qed.

Lemma values_card env d l :
  length (values env d l) = label_card (length (env_publishers env)) (length (env_projections env)) (length (env_endpoints env)) d l.
Proof. unfold values, label_card. fold (enum_of d l). destruct (enum_of d l); [done|]. by repeat case_match. Qed.

Lemma universe_length env :
  length (universe env) = series_bound (length (env_publishers env)) (length (env_projections env)) (length (env_endpoints env)).
Proof.
  unfold universe, series_bound. generalize defs. induction l as [|d l IH]; [done|]. cbn [mbind list_bind fmap list_fmap sum_list].
  rewrite length_app, IH, length_fmap, tuples_length. f_equal. generalize (DLabels d). intros ls.
  induction ls as [|x ls IHl]; [done|]. cbn. by rewrite values_card, IHl.
Qed.

Lemma conforms_grown c c' projections endpoints s :
  check_name c' = check_name c → grown (publisher c) (publisher c') →
  conforms (env_of c projections endpoints) s → conforms (env_of c' projections endpoints) s.
Proof.
  intros Hn [_ Hs]. unfold conforms. destruct (find_def _) as [d|]; [|done]. intros [Hk Hl]. split; [done|].
  eapply Forall2_impl; [exact Hl|]. intros l v. unfold values, env_of. cbn. repeat case_match; try done.
  - by rewrite Hn.
  - rewrite !elem_of_cons, !elem_of_elements. set_solver.
Qed.

Lemma perform_conforms projections endpoints ops : ∀ c,
  Forall (method projections endpoints) ops → within (publisher c) → result_conforms projections endpoints c (perform ops c).
Proof.
  induction ops as [|op ops IH]; intros c Hops Hw; [by split_and!|].
  inversion Hops as [|? ? Hop Hops']; subst. cbn.
  destruct (method_conforms projections endpoints c op Hop Hw) as (H1 & H2 & H3 & H4). destruct (op c) as [c1 l]. cbn in *.
  destruct (IH c1 Hops' H1) as (G1 & G2 & G3 & G4). destruct (perform ops c1) as [c2 l']. cbn in *.
  split_and!; cbn; [done|by etrans|congruence|]. apply Forall_app. split; [|done].
  eapply Forall_impl; [exact H4|]. intros s. by apply conforms_grown.
Qed.

(** the tool cannot become the outage it watches for: however long a check runs and however many
    publishers, keys and errors it meets, the series it makes the client export are no more than a
    number computed from the table of metrics, the publisher limit and what it is configured with. *)
Theorem series_are_bounded projections endpoints n totals name ops :
  Forall (method projections endpoints) ops →
  (size (series_of (perform ops (ForCheck n totals name)).2)
   ≤ series_bound (S (Z.to_nat (effective_limit n))) (length projections) (length endpoints))%nat.
Proof.
  intros Hops.
  assert (within (publisher (ForCheck n totals name))) as Hw by (unfold within; cbn; rewrite size_empty; lia).
  destruct (perform_conforms projections endpoints ops _ Hops Hw) as (H1 & [H2 _] & _ & H4).
  destruct (perform ops _) as [c l]. cbn [fst snd] in *. set (env := env_of c projections endpoints) in *.
  assert (series_of l ⊆ list_to_set (universe env)) as Hs.
  { intros x. unfold series_of. rewrite !elem_of_list_to_set, list_elem_of_fmap. intros (s & -> & Hin).
    apply conforms_universe. rewrite Forall_forall in H4. by apply H4. }
  etrans; [by apply subseteq_size|]. etrans; [apply size_list_to_set_le|]. rewrite universe_length.
  apply series_bound_mono. unfold env. cbn. unfold within in H1. rewrite H2 in H1. cbn in H1.
  assert (0 ≤ effective_limit n) by (unfold effective_limit; repeat case_bool).
  change (length (elements (admitted (publisher c)))) with (size (admitted (publisher c))). lia.
Qed.

(** The line that is to say once that labels have collapsed is never written while one goroutine labels at
    a time: the first half of the labelling answers before the half that warns. *)
Theorem collapse_is_never_logged limit asked :
  warned (foldl (λ p pub, (label p pub).1) (newPublisherLimiter limit) asked) = false.
Proof.
  induction asked as [|pub asked IH] using rev_ind; [done|]. rewrite foldl_app. cbn.
  set (p := foldl _ _ _) in *. clearbody p. unfold label, label_read, label_locked.
  destruct (bool_decide (pub = "")); [done|]. destruct (bool_decide (pub ∈ _)); [done|]. destruct (full p) eqn:Hf; [done|]. cbn. by rewrite ?Hf.
Qed.

(** What the store calls its role, and what becomes of it. *)
Example replica_role_is_lost :
  Role_Normalize "slave" = RoleUnknown ∧ Role_Normalize "master" = RoleMaster.
Proof. done. Qed.

(** A publisher may be called what the others are collapsed into. *)
Example other_may_be_admitted : admitted (label (newPublisherLimiter 1) OtherPublisher).1 = {[OtherPublisher]}.
Proof. vm_compute. reflexivity. Qed.

(** The default surface of one check with one projection and one endpoint. *)
Example default_series_bound : series_bound (S (Z.to_nat (effective_limit 0))) 1 1 = 1326%nat.
Proof. vm_compute. reflexivity. Qed.

(** ** Witnesses *)

Lemma samples_conform_witness :
  let c := ForCheck 1 ∅ "demo" in
  (EventReceived c "pod-1" "no such op").2 = [mkSample "driftwatch_events_received_total" KindCounter ["demo"; "pod-1"; "unknown"] Inc]
  ∧ result_conforms [] [] c (EventReceived c "pod-1" "no such op").
Proof.
  intros c. split; [reflexivity|].
  apply (samples_conform [] [] c (λ c, EventReceived c "pod-1" "no such op")); [apply m_EventReceived|].
  unfold within. vm_compute. discriminate.
Defined.

Definition busy : list (CheckMetrics → metered) :=
  [λ c, SeqGap c "a"; λ c, SeqGap c "b"; λ c, SeqGap c "c"; λ c, SetTargetRole c "slave"].

Lemma series_are_bounded_witness :
  size (series_of (perform busy (ForCheck 1 ∅ "demo")).2) = 5%nat
  ∧ (size (series_of (perform busy (ForCheck 1 ∅ "demo")).2) ≤ series_bound 2 0 0)%nat.
Proof.
  split; [vm_compute; reflexivity|].
  apply (series_are_bounded [] [] 1 ∅ "demo" busy). repeat constructor.
Defined.
