(* ===== verification/CheckStatus.v ===== *)
(** * CheckStatus: what a check says of itself (pkg/check/check.go: Status, Summary, Explain, Close and
    the accounting of episodes behind the metrics)

    The sweeper, the source and the store answer through arguments; the state is
    the check of Ingest. *)
From Stdlib Require Import Ascii String.
From stdpp Require Import pretty strings.
From S2P Require Import Prelude GoBase GoFloat GoStrings GoTime FloatFormat Codec Sweeper Event Projection GapSet SeqTrack.
From S2P Require Import Ring Shard PathMatch Oracle Target Explain ExplainRules Differ Reorder Lag Spec Ingest.

Definition Phase_String (p : Phase) : string :=
  match p with
  | PhasePending => "Pending"
  | PhaseBootstrapping => "Bootstrapping"
  | PhaseAwaitingSnapshot => "AwaitingSnapshot"
  | PhaseWatching => "Watching"
  | PhaseDegraded => "Degraded"
  | PhasePaused => "Paused"
  | PhaseFailed => "Failed"
  end.

(** ** Status *)

Record PublisherStatus := mkPublisherStatus {
  PsID : string;
  PsEpoch : Z;
  HighWaterMark : Z;
  MissingEvents : Z;
  Restarts : Z;
  LastSeenSeconds : float64;
  ClockSkewSeconds : float64
}.

Record Status := mkStatus {
  SPhase : Phase;
  Message : string;
  TrackedKeys : Z; SettledKeys : Z; InFlightKeys : Z; SuspectKeys : Z; AdoptedKeys : Z; SNeverSettled : Z;
  OracleSaturated : bool;
  SnapshotsSeen : Z;
  AwaitingSnapshot : bool;
  ReorderHeld : Z;
  MultiWriterUnsafe : bool;
  MultiWriterKey : string;
  OracleEvictions : Z;
  CoverageRatio : float64;
  DivergentKeys : Z;
  SuspectDivergentKeys : Z;
  DivergenceByCategory : gmap string Z;
  DriftDurationSeconds : float64;
  EventsApplied : Z; EventsDropped : Z; BytesReceived : Z; GapSignals : Z;
  SettlementWindowSeconds : float64;
  ConvergenceP99Seconds : float64;
  WindowIsAdaptive : bool;
  SPublishers : list PublisherStatus;
  LastSweepTime : Time;
  LastSweepDurationSeconds : float64;
  LastSweepKeysCompared : Z;
  SweepsSkipped : Z;
  STargetReachable : bool;
  TargetRole : string;
  TargetKeyspaceSize : Z;
  SourceConnected : bool;
  SourceReconnects : Z;
  SourceLastError : string;
  Bootstrapped : bool
}.

(** Statistics of a transport; a nil source is [None]. *)
Record SourceStats := mkSourceStats { Connected : bool; Reconnects : Z; LastError : string }.

(** What the sweeper says: Confirmed, Episodes and the count of skipped sweeps. *)
Record SweeperView := mkSweeperView {
  confirmed_view : gmap string Finding;
  episodes_view : gmap string Episode;
  skipped_view : Z
}.

(** float64(n) of two ints, divided. *)
Definition coverage (rep : Report) (tracked : Z) : float64 :=
  if tracked =? 0 then float_of_Z 1 else float_div (float_of_Z (KeysCompared rep)) (float_of_Z tracked).

Section status.
Context `{XXHash} `{MapOrder} `{FloatOverflow}.

(** The largest age of an episode, none being 0. *)
Definition oldestEpisodeAge (now : Time) (episodes : gmap string Episode) : Duration :=
  foldl (λ oldest kv, let age := time_Sub now (EpFirstSeenAt kv.2) in if age >? oldest then age else oldest)
    0 (range_map episodes).

(** The loop over Confirmed: how many, and how many of each category. *)
Definition tally (confirmed : gmap string Finding) : Z * gmap string Z :=
  foldl (λ acc kv, (acc.1 + 1, map_incr (Category_String (FCategory kv.2)) acc.2)) (0, ∅) (range_map confirmed).

Definition publisher_status (c : check) (now : Time) (ps : PublisherState) : PublisherStatus :=
  mkPublisherStatus (SeqTrack.ID ps) (PEpoch ps) (HWM ps) (GapSet.Count (SeqTrack.Gaps ps)) (RestartCount ps)
    (Seconds (time_Sub now (LastSeen ps))) (Seconds (skewOf c (SeqTrack.ID ps))).

(** The clock is read for the status and again for the age of the oldest episode; counting promotes the
    settled keys of the oracle. *)
Definition status (clk : nat → Time) (c : check) (sw : SweeperView) (src : option SourceStats) (bootstrapped : bool)
    : check * Status :=
  let now := clk (reads c) in
  let '(o, counts) := Counts_ (orc c) now in
  let c := set_orc (tick c) o in
  let l := life c in
  let lagStats := Lag.Stats_ (est c) in
  let oldest := oldestEpisodeAge (clk (reads c)) (episodes_view sw) in
  let c := tick c in
  let '(divergent, by_category) := tally (confirmed_view sw) in
  let rep := lastReport l in
  let from_report {A} (f : Report → A) (zero : A) := match rep with Some r => f r | None => zero end in
  (c,
   mkStatus (phase l) (message l)
     (Oracle.Total counts) (Settled counts) (InFlight counts) (BySuspect counts) (ByAdopted counts) (NeverSettled counts)
     (saturated l) (snapshotsSeen (cnt c)) (awaitingSnapshot l) (heldCount (reorder c))
     (multiWriter c) (default "" (multiWriterKey c))
     (Evictions (orc c))
     (from_report (λ r, coverage r (Oracle.Total counts)) (float_of_Z 0))
     divergent
     (from_report (λ r, default 0 (ByTrust r !! TrustSuspect)) 0)
     by_category
     (Seconds oldest)
     (eventsApplied (cnt c)) (eventsDropped (cnt c)) (bytesRead (cnt c)) (gapSignals (cnt c))
     (Seconds (settlementWindow (orc c))) (Seconds (P99 lagStats)) (Adaptive lagStats)
     (publisher_status c now <$> Publishers (tracker c))
     (lastSweep l)
     (from_report (λ r, Seconds (Report_Duration r)) (float_of_Z 0))
     (from_report KeysCompared 0)
     (skipped_view sw)
     (from_report (λ r, Reachable (TargetHealth r)) false && negb (targetUnreachable l))
     (from_report (λ r, Role (TargetHealth r)) "")
     (from_report (λ r, KeyspaceSize (TargetHealth r)) 0)
     (match src with Some s => Connected s | None => false end)
     (match src with Some s => Reconnects s | None => 0 end)
     (match src with Some s => LastError s | None => "" end)
     bootstrapped).

(** %-14s *)
Definition pad_right (width : nat) (s : string) : string :=
  s +:+ String.concat "" (repeat " " (width - String.length s)%nat).

Definition Summary (s : Status) : string :=
  pad_right 14 (Phase_String (SPhase s)) +:+ " keys " +:+ pretty (TrackedKeys s) +:+ " (" +:+ pretty (SettledKeys s)
    +:+ " settled, " +:+ pretty (InFlightKeys s) +:+ " in flight)"
    +:+ "  events " +:+ pretty (EventsApplied s)
    +:+ (if 0 <? EventsDropped s then " (" +:+ pretty (EventsDropped s) +:+ " dropped)" else "")
    +:+ "  drift " +:+ pretty (DivergentKeys s)
    +:+ (if 0 <? SuspectDivergentKeys s then " (+" +:+ pretty (SuspectDivergentKeys s) +:+ " suspect)" else "")
    +:+ "  W " +:+ FormatFixed 1 (SettlementWindowSeconds s) +:+ "s"
    +:+ (if negb (STargetReachable s) && negb (IsZero (LastSweepTime s)) then "  target unreachable" else "").

(** ** Explain *)

(** The errors; the oracle of a check is never nil. *)
Inductive explain_failure := CheckClosed | ExplainFailed (err : explain_error).

(** [first_health] answers the question asked for
    the eviction counter, [answers] those of the explanation; the oracle and the tracker are read in
    one state. The outer [None] is a rendering that never ends. *)
Definition eviction_delta (last : Health) (first_health : option Health) : Z :=
  match first_health with
  | Some h => if EvictedKeys last <? EvictedKeys h then EvictedKeys h - EvictedKeys last else 0
  | None => 0
  end.

Definition explain_input (s : Spec) (p : projection) (clk : nat → Time) (c : check) (key : string)
    (first_health : option Health) (answers : TargetAnswers) : Input :=
  let lastHealth := match lastReport (life c) with Some r => TargetHealth r | None => noHealth end in
  mkInput key (Some (orc c)) (Some answers) (Some (tracker c)) (TargetShape p) (settlementWindow (orc c))
    (clk (reads c)) (clk (S (reads c))) (clk (S (S (reads c)))) (Policy_RingSize (Spec_Policy s))
    (eviction_delta lastHealth first_health) 0 0.

Definition Check_Explain (s : Spec) (p : projection) (clk : nat → Time) (closed : bool) (c : check) (key : string)
    (first_health : option Health) (answers : TargetAnswers) : option (explain_failure + Explanation) :=
  if closed then Some (inl CheckClosed)
  else
    match Explain (explain_input s p clk c key first_health answers) with
    | None => None
    | Some (inl err) => Some (inl (ExplainFailed err))
    | Some (inr e) => Some (inr e)
    end.

Lemma Check_Explain_open s p clk c key h answers e :
  Explain (explain_input s p clk c key h answers) = Some (inr e) → Check_Explain s p clk false c key h answers = Some (inr e).
Proof. unfold Check_Explain. by intros ->. Qed.
End status.
