(* ===== verification/Gauges.v ===== *)
(** * Gauges: what a check measures of itself (pkg/check/check.go: publishGauges, recordSweepMetrics,
    recordExtrasScanMetrics, publishDivergence, publishEpisodes)

    Each is the sequence of operations it makes on the metrics; the sweeper, the
    source and the queue answer through arguments, as in CheckStatus. *)
From Stdlib Require Import Ascii String.
From stdpp Require Import pretty strings.
From S2P Require Import Prelude GoBase GoFloat GoStrings GoTime Metrics Codec Sweeper Event Projection GapSet SeqTrack.
From S2P Require Import Ring Shard PathMatch Oracle Target Explain ExplainRules Differ Reorder Lag Spec Ingest CheckStatus.

Definition meter : Type := Metrics.CheckMetrics → metered.

Section gauges.
Context `{XXHash} `{MapOrder} `{FloatOverflow}.

(** The position, skew and losses of one publisher; the tracker's gap set is never nil. *)
Definition publisher_gauges (c : check) (ps : PublisherState) : list meter :=
  [λ m, SetSeqPosition m (SeqTrack.ID ps) (PEpoch ps) (HWM ps);
   λ m, SetClockSkew m (SeqTrack.ID ps) (skewOf c (SeqTrack.ID ps));
   λ m, SetMissingEvents m (SeqTrack.ID ps) (GapSet.Count (SeqTrack.Gaps ps));
   λ m, SetGapsetTruncated m (SeqTrack.ID ps) (GapSet.Truncated (SeqTrack.Gaps ps))].

(** [queued] is len(c.raw); the source is never nil here. *)
Definition publishGauges (clk : nat → Time) (c : check) (queued : Z) (pending dropped : Z) (src : SourceStats)
    : check * list meter :=
  let '(o, counts) := Counts_ (orc c) (clk (reads c)) in
  let c := set_orc (tick c) o in
  let publishers := Publishers (tracker c) in
  (c,
   [λ m, SetOracleKeys m Labels.TrustComplete (ByComplete counts);
    λ m, SetOracleKeys m Labels.TrustSuspect (BySuspect counts);
    λ m, SetOracleKeys m Labels.TrustAdopted (ByAdopted counts);
    λ m, SetSettledKeys m (Settled counts);
    λ m, SetInflightKeys m (InFlight counts);
    λ m, SetNeverSettledKeys m (NeverSettled counts);
    λ m, SetOracleEvictionsTotal m (Evictions (orc c));
    λ m, Metrics.SetSettlementWindow m (settlementWindow (orc c));
    λ m, SetQueueDepth m Labels.StageRaw queued;
    λ m, SetPublishersTracked m (Z.of_nat (length publishers))]
   ++ (publishers ≫= publisher_gauges c)
   ++ [λ m, SetConfirmQueueDepth m pending;
       λ m, SetConfirmQueueDroppedTotal m (u64 dropped);
       λ m, SetLagProbeTimeoutsTotal m (u64 (STimedOut (Lag.Stats_ (est c))));
       λ m, Metrics.SetSourceConnected m 0 (Connected src);
       λ m, SetSourceReconnectsTotal m (Reconnects src)]).

Definition sweep_result (err : option Sweeper.Error) : string :=
  match err with
  | None => Labels.SweepSuccess
  | Some ErrTargetUnavailable => Labels.SweepTargetUnavailable
  | Some ErrCanceled => Labels.SweepAborted
  | Some _ => Labels.SweepError
  end.

(** The series of the store going unreachable, in both passes. *)
Definition unreachable_gauge (err : option Sweeper.Error) : list meter :=
  if bool_decide (sweep_result err = Labels.SweepTargetUnavailable) then [λ m, SetTargetReachable m false] else [].

Definition recordExtrasScanMetrics (rep : option Report) (err : option Sweeper.Error) : list meter :=
  [λ m, Sweep m Labels.SweepTargetToOracle (sweep_result err)]
  ++ unreachable_gauge err
  ++ match rep with
     | Some r => [λ m, ObserveSweepDuration m Labels.SweepTargetToOracle (Report_Duration r)]
     | None => []
     end.

Definition category_label (c : Category) : string := Labels.Category_Normalize (Category_String c).

(** [m[cat]] of a count map. *)
Definition count_of (cat : string) (m : gmap string Z) : Z := default 0 (m !! cat).

Definition count_findings (t : TrustState) (fs : list Finding) : gmap string Z :=
  foldl (λ acc f, if decide (FTrust f = t) then map_incr (category_label (FCategory f)) acc else acc) ∅ fs.

Definition publishDivergence (confirmed : gmap string Finding) (rep : Report) : list meter :=
  let byCategory := foldl (λ acc kv, map_incr (category_label (FCategory kv.2)) acc) ∅ (range_map confirmed) in
  let suspect := count_findings TrustSuspect (Findings rep) in
  let advisory := count_findings TrustAdopted (Findings rep) in
  Labels.categoryValues ≫= λ cat,
    [λ m, SetDivergentKeys m cat (count_of cat byCategory);
     λ m, SetSuspectDivergentKeys m cat (count_of cat suspect);
     λ m, SetAdvisoryDivergentKeys m cat (count_of cat advisory)].

(** ** Episodes *)

(** What the check remembers of the sweep before: confirmedCats and lastResolved. *)
Record episode_book := mkBook { confirmedCats : gmap string Category; lastResolved : Z }.

Definition new_book : episode_book := mkBook ∅ 0.

(** The keys that appeared, in the order the map is visited, and those that left, sorted. *)
Definition appeared (previous : gmap string Category) (confirmed : gmap string Finding) : list (string * Finding) :=
  List.filter (λ kv, match previous !! kv.1 with Some _ => false | None => true end) (range_map confirmed).
Definition departed (previous : gmap string Category) (confirmed : gmap string Finding) : list string :=
  sort_Strings (List.filter (λ k, match confirmed !! k with Some _ => false | None => true end) (fst <$> range_map previous)).

Definition publishEpisodes (b : episode_book) (confirmed : gmap string Finding) (resolvedTotal : Z)
    : episode_book * list Category * list Category :=
  let previous := confirmedCats b in
  let budget := i64 (resolvedTotal - lastResolved b) in
  (mkBook (FCategory <$> confirmed) resolvedTotal,
   (λ kv, FCategory kv.2) <$> appeared previous confirmed,
   omap (λ k, previous !! k) (take (Z.to_nat budget) (departed previous confirmed))).

Definition episode_meters (episodes resolved : list Category) : list meter :=
  ((λ cat m, DriftEpisode m (category_label cat)) <$> episodes)
  ++ ((λ cat m, DriftResolved m (category_label cat)) <$> resolved).

(** recordSweepMetrics; the extras scan comes through the same callback. *)
Definition recordSweepMetrics (clk : nat → Time) (c : check) (b : episode_book) (sw : SweeperView) (pending dropped resolvedTotal queued : Z)
    (src : SourceStats) (rep : option Report) (err : option Sweeper.Error) : check * episode_book * list meter :=
  match rep with
  | Some (mkReport PassTargetToOracle _ _ _ _ _ _ _ _ _ _ _ _ _ _) => (c, b, recordExtrasScanMetrics rep err)
  | _ =>
      let '(c, gauges) := publishGauges clk c queued pending dropped src in
      let first := gauges ++ [λ m, Sweep m Labels.SweepOracleToTarget (sweep_result err)] ++ unreachable_gauge err in
      match rep with
      | None => (c, b, first)
      | Some r =>
          let '(b, episodes, resolved) := publishEpisodes b (confirmed_view sw) resolvedTotal in
          let oldest := oldestEpisodeAge (clk (reads c)) (episodes_view sw) in
          (tick c, b,
           first
           ++ [λ m, ObserveSweepDuration m Labels.SweepOracleToTarget (Report_Duration r);
               λ m, SetSweepKeysCompared m (KeysCompared r);
               λ m, SetTargetReachable m (Reachable (TargetHealth r));
               λ m, SetTargetKeyspaceSize m (KeyspaceSize (TargetHealth r));
               λ m, SetTargetEvictionsObserved m (EvictedKeys (TargetHealth r));
               λ m, SetTargetExpirationsObserved m (ExpiredKeys (TargetHealth r));
               λ m, SetTargetRole m (Labels.Role_Normalize (Role (TargetHealth r)));
               λ m, SetCoverageRatio m (coverage r (Len (orc c)))]
           ++ publishDivergence (confirmed_view sw) r
           ++ episode_meters episodes resolved
           ++ [λ m, SetConfirmQueueDepth m pending; λ m, SetDriftDuration m oldest])
      end
  end.
End gauges.

(** ** The metrics of a check conform *)

Section facts.
Context {X : XXHash} {O : MapOrder} {F : FloatOverflow}.

Lemma episode_meters_methods projections endpoints episodes resolved :
  Forall (method projections endpoints) (episode_meters episodes resolved).
Proof.
  unfold episode_meters. apply Forall_app. split; apply Forall_fmap, Forall_true; intros cat; constructor.
Qed.

Lemma publishDivergence_methods projections endpoints confirmed rep :
  Forall (method projections endpoints) (publishDivergence confirmed rep).
Proof.
  unfold publishDivergence. apply Forall_bind, Forall_true. intros cat. repeat constructor.
Qed.

Lemma unreachable_methods projections endpoints err : Forall (method projections endpoints) (unreachable_gauge err).
Proof. unfold unreachable_gauge. case_match; repeat constructor. Qed.

Lemma extras_methods projections endpoints rep err : Forall (method projections endpoints) (recordExtrasScanMetrics rep err).
Proof.
  unfold recordExtrasScanMetrics. repeat apply Forall_app_2; try apply unreachable_methods; repeat constructor.
  destruct rep; repeat constructor.
Qed.

Lemma publishGauges_methods projections endpoints clk c queued pending dropped src :
  pretty 0 ∈ endpoints → Forall (method projections endpoints) (publishGauges clk c queued pending dropped src).2.
Proof.
  intros H0. unfold publishGauges. destruct (Counts_ _ _) as [o counts]. cbn [snd]. repeat apply Forall_app_2.
  - repeat constructor.
  - apply Forall_bind, Forall_true. intros ps. repeat constructor.
  - repeat constructor. done.
Qed.

Lemma recordSweepMetrics_methods projections endpoints clk c b sw pending dropped total queued src rep err :
  pretty 0 ∈ endpoints →
  Forall (method projections endpoints) (recordSweepMetrics clk c b sw pending dropped total queued src rep err).2.
Proof.
  intros H0. unfold recordSweepMetrics. pose proof (publishGauges_methods projections endpoints clk c queued pending dropped src H0) as Hg.
  destruct (publishGauges _ _ _ _ _ _) as [c' gs]. cbn [snd] in Hg.
  assert (Forall (method projections endpoints) (gs ++ [λ m, Sweep m Labels.SweepOracleToTarget (sweep_result err)] ++ unreachable_gauge err)) as Hf.
  { repeat apply Forall_app_2; [done|repeat constructor|apply unreachable_methods]. }
  destruct rep as [r|]; [|done]. destruct (publishEpisodes _ _ _) as [[b' ep] rs] eqn:Hp.
  destruct r as [[|] ? ? ? ? ? ? ? ? ? ? ? ? ? ?]; cbn [snd]; [|apply extras_methods].
  apply Forall_app_2; [done|]. apply Forall_app_2; [repeat constructor|].
  apply Forall_app_2; [apply publishDivergence_methods|]. apply Forall_app_2; [apply episode_meters_methods|].
  repeat constructor.
Qed.

(** ** Episodes are counted once *)

Lemma NoDup_fst_filter {A B} (P : A * B → bool) l : NoDup l.*1 → NoDup (List.filter P l).*1.
Proof.
  intros Hl. eapply sublist_NoDup; [exact Hl|]. apply fmap_sublist.
  induction l as [|x l IH]; [done|]. cbn in *. inversion Hl; subst. destruct (P x); constructor; by apply IH.
Qed.

Lemma size_dom_minus {A B} (m : gmap string A) (n : gmap string B) :
  length (List.filter (λ kv, match n !! kv.1 with Some _ => false | None => true end) (range_map m))
  = size (dom m ∖ dom n).
Proof.
  rewrite <- (length_fmap fst). rewrite <- (size_list_to_set (C := gset string)).
  - f_equal. apply set_eq. intros k. rewrite elem_of_list_to_set, list_elem_of_fmap, elem_of_difference, !elem_of_dom. split.
    + intros ([k' a] & -> & Hin). rewrite list_elem_of_In, filter_In, <- list_elem_of_In, elem_of_range_map in Hin.
      cbn in *. destruct Hin as [Hm Hn]. split; [by eexists|]. destruct (n !! k'); [done|]. by intros [? ?].
    + intros [[a Ha] Hn]. exists (k, a). split; [done|].
      rewrite list_elem_of_In, filter_In, <- list_elem_of_In, elem_of_range_map. cbn. split; [done|].
      destruct (n !! k); [|done]. exfalso. apply Hn. by eexists.
  - apply NoDup_fst_filter, NoDup_fst_range_map.
Qed.

Lemma length_appeared previous confirmed : length (appeared previous confirmed) = size (dom confirmed ∖ dom previous).
Proof. apply size_dom_minus. Qed.

Lemma length_departed previous confirmed : length (departed previous confirmed) = size (dom previous ∖ dom confirmed).
Proof.
  rewrite <- size_dom_minus. unfold departed, sort_Strings. rewrite merge_sort_Permutation.
  rewrite <- (length_fmap fst (List.filter _ (range_map previous))). f_equal.
  induction (range_map previous) as [|[k a] l IH]; [done|]. cbn. destruct (confirmed !! k); cbn; [done|]. by f_equal.
Qed.

(** The sweeps of a run: what was confirmed at each, and the sweeper's count of resolutions so far. *)
Fixpoint publish_all (b : episode_book) (passes : list (gmap string Finding * Z)) : episode_book * list Category * list Category :=
  match passes with
  | [] => (b, [], [])
  | (confirmed, total) :: passes =>
      let '(b, episodes, resolved) := publishEpisodes b confirmed total in
      let '(b, episodes', resolved') := publish_all b passes in
      (b, episodes ++ episodes', resolved ++ resolved')
  end.

(** The count of resolutions never falls. *)
Fixpoint rising (from : Z) (totals : list Z) : Prop :=
  match totals with [] => True | t :: totals => from ≤ t ≤ max_i64 ∧ rising t totals end.

Lemma publish_step b confirmed total :
  0 ≤ lastResolved b ≤ total → total ≤ max_i64 →
  let '(b', episodes, resolved) := publishEpisodes b confirmed total in
  (length resolved + size (dom (confirmedCats b')) ≤ length episodes + size (dom (confirmedCats b)))%nat
  ∧ Z.of_nat (length resolved) ≤ total - lastResolved b ∧ lastResolved b' = total.
Proof.
  intros Hl Hm. unfold publishEpisodes. cbn [confirmedCats lastResolved].
  rewrite i64_small by (unfold is_i64, min_i64, max_i64 in *; lia).
  set (n := Z.to_nat _). set (prev := confirmedCats b).
  assert (length (omap (λ k, prev !! k) (take n (departed prev confirmed))) ≤ Nat.min n (size (dom prev ∖ dom confirmed)))%nat as Hr.
  { rewrite <- (length_departed prev confirmed), <- length_take. generalize (take n (departed prev confirmed)).
    induction l as [|k l IH]; [done|]. cbn. destruct (prev !! k); cbn; lia. }
  rewrite dom_fmap_L, length_fmap, length_appeared. split_and!; [|lia|done].
  assert (size (dom confirmed) + size (dom prev ∖ dom confirmed) = size (dom prev) + size (dom confirmed ∖ dom prev))%nat.
  { rewrite <- (size_union_alt (dom prev)), <- (size_union_alt (dom confirmed)). f_equal. set_solver. }
  lia.
Qed.

(** an episode is counted once and resolved at most once: over any run of sweeps the resolutions counted
    are no more than the sweeper reported, and together with the drifts that still stand no more than the
    episodes counted: what the counters say is open is never less than what is. *)
Theorem episodes_are_conserved passes :
  rising 0 (snd <$> passes) →
  let '(b, episodes, resolved) := publish_all new_book passes in
  (length resolved + size (confirmedCats b) ≤ length episodes)%nat ∧ Z.of_nat (length resolved) ≤ lastResolved b.
Proof.
  assert (∀ b, 0 ≤ lastResolved b → rising (lastResolved b) (snd <$> passes) →
    let '(b', episodes, resolved) := publish_all b passes in
    (length resolved + size (dom (confirmedCats b')) ≤ length episodes + size (dom (confirmedCats b)))%nat
    ∧ Z.of_nat (length resolved) ≤ lastResolved b' - lastResolved b) as Hgen.
  { induction passes as [|[confirmed total] passes IH]; intros b H0 Hr; cbn [publish_all]; [cbn; lia|].
    destruct Hr as [[H1 H2] Hr]. cbn [snd] in *. pose proof (publish_step b confirmed total ltac:(lia) ltac:(lia)) as Hs.
    destruct (publishEpisodes b confirmed total) as [[b1 e1] r1]. destruct Hs as (Ha & Hb & Hc).
    specialize (IH b1 ltac:(lia)). rewrite Hc in IH. specialize (IH Hr).
    destruct (publish_all b1 passes) as [[b2 e2] r2]. rewrite !length_app. lia. }
  intros Hr. specialize (Hgen new_book ltac:(done) Hr). destruct (publish_all new_book passes) as [[b e] r].
  rewrite !size_dom in Hgen. change (size (confirmedCats new_book)) with 0%nat in Hgen.
  change (lastResolved new_book) with 0 in Hgen. lia.
Qed.
End facts.

(** ** A run *)

#[local] Existing Instance ascending_order.

Definition sample_finding (k : string) (cat : Category) : Finding :=
  mkFinding k cat TrustComplete absent absent [] [] 0 0 0 zero_time 0 "" "" None None zero_time true.

(** "k" is missing, then holds another value, then is repaired; "j" comes and is withdrawn. *)
Definition sample_passes : list (gmap string Finding * Z) :=
  [({["k" := sample_finding "k" CatMissingInTarget]}, 0);
   ({["k" := sample_finding "k" CatValueMismatch; "j" := sample_finding "j" CatMissingInTarget]}, 0);
   ({["j" := sample_finding "j" CatMissingInTarget]}, 1);
   (∅, 1)].

(** A drift that changes its category is counted under the first and resolved under the last. *)
Example resolved_elsewhere :
  (publish_all new_book sample_passes).1.2 = [CatMissingInTarget; CatMissingInTarget]
  ∧ (publish_all new_book sample_passes).2 = [CatValueMismatch].
Proof. vm_compute. done. Qed.

Lemma episodes_are_conserved_witness :
  let '(b, episodes, resolved) := publish_all new_book sample_passes in
  (length resolved + size (confirmedCats b) ≤ length episodes)%nat ∧ Z.of_nat (length resolved) ≤ lastResolved b.
Proof.
  apply (episodes_are_conserved sample_passes). cbn. unfold max_i64. lia.
Defined.
