(* ===== verification/ExplainSafety.v ===== *)
(** * ExplainSafety: what an explanation of a running check may claim

    Explain, asked of any state the check of Ingest reaches: when it says that no
    sequence number of the publisher is missing, none is. *)
From Stdlib Require Import Ascii String.
From stdpp Require Import strings sorting.
From S2P Require Import Prelude GoBase GoFloat GoStrings GoTime FloatFormat Codec Sweeper Event Projection GapSet SeqTrack.
From S2P Require Import PathMatch Target Explain ExplainRules ExplainFacts Differ Reorder Lag Spec Ingest IngestFold IngestSafety CheckStatus.
From S2P Require Import Ring Shard Oracle.

(** ** Who wrote the last event of a history *)

Definition authored_entry (e : entry) : Prop :=
  ∃ hist, ring_ok (ering e) hist ∧ ∀ h, last hist = Some h → Publisher (HEvent h) = lastPublisher e.

Definition authored `{XXHash} (o : Oracle) : Prop := ∀ k e, find o k = Some e → authored_entry e.

Lemma last_last_n {A} n (l : list A) : (0 < n)%nat → last (last_n n l) = last l.
Proof.
  intros Hn. unfold last_n. destruct l as [|x l _] using rev_ind; [done|].
  rewrite length_app. cbn. rewrite drop_app_le by lia. by rewrite !last_snoc.
Qed.

(** The last step of a history is by the key's last publisher. *)
Lemma authored_last e h : authored_entry e → last (Ring.snapshot (ering e)) = Some h → Publisher (HEvent h) = lastPublisher e.
Proof.
  intros (hist & Hr & Hl). rewrite (snapshot_ok _ _ Hr). intros Hh. apply Hl.
  destruct (decide (Ring.capacity (ering e) = 0%nat)) as [Hc|Hc].
  - rewrite Hc in Hh. unfold last_n in Hh. by rewrite drop_ge in Hh by lia.
  - by rewrite last_last_n in Hh by lia.
Qed.

Lemma authored_push e o ev v value version at_ :
  authored_entry e → ∀ e', ering e' = push (ering e) (mkHistory (historyEvent o ev) v value version at_) →
  lastPublisher e' = Publisher ev → authored_entry e'.
Proof.
  intros (hist & Hr & _) e' He' Hl. eexists. split; [rewrite He'; by apply push_ok|].
  intros h. rewrite last_snoc. intros [= <-]. rewrite Hl. cbn. unfold historyEvent. by case_match.
Qed.

Lemma authored_new e n : ering e = newRing n → authored_entry e.
Proof. intros He. exists []. split; [rewrite He; apply newRing_ok|done]. Qed.

Lemma authored_same e e' : ering e' = ering e → lastPublisher e' = lastPublisher e → authored_entry e → authored_entry e'.
Proof. intros Hr Hl (hist & H1 & H2). exists hist. rewrite Hr, Hl. by split. Qed.

Section authored.
Context {X : XXHash} {O : MapOrder}.

Lemma authored_mark o bound pattern :
  oracle_ok o bound → suspectGen o < max_u64 → authored o → authored (MarkSuspect o pattern).
Proof.
  intros Ho Hg Ha k e. destruct (MarkSuspect_ok o bound pattern Ho Hg) as (_ & Hm & _). rewrite Hm.
  case_decide; [apply Ha|]. destruct (find o k) as [e0|] eqn:He; [|done]. intros [= <-].
  eapply authored_same; [| |by apply (Ha k)]; unfold marked; by repeat case_match.
Qed.

Lemma authored_clear o bound pattern : oracle_ok o bound → authored o → authored (ClearSuspect o pattern).
Proof.
  intros Ho Ha k e. destruct (ClearSuspect_ok o bound pattern Ho) as (_ & Hc & _). rewrite Hc.
  destruct (find o k) as [e0|] eqn:He; [|done]. intros [= <-].
  eapply authored_same; [| |by apply (Ha k)]; unfold cleared; by repeat case_match.
Qed.

Lemma authored_adopt o bound batch at_ :
  oracle_ok o bound → is_i64 at_ → authored o → authored (AdoptSnapshot o batch at_).
Proof.
  intros Hok Hi. unfold AdoptSnapshot. revert o Hok.
  induction (range_map batch) as [|[k v] l IH]; intros o Hok Ha; [done|]. cbn [foldl].
  destruct (adopt_one_spec at_ o bound k v Hok Hi) as [Hok' [Hent Hoth _]].
  apply IH; [done|]. intros j e He. destruct (decide (j = k)) as [->|Hne].
  - destruct Hent as (ent & Hent & _ & _ & _ & Hp & Hr). rewrite Hent in He. injection He as <-.
    destruct (find o k) as [old|] eqn:Hold; [by eapply authored_same; [..|apply (Ha k)]|by eapply authored_new].
  - destruct (Hoth j Hne) as [Hj|Hj]; rewrite Hj in He; [by apply (Ha j)|done].
Qed.

Lemma authored_apply now_ o bound m e v tr :
  oracle_ok o bound → touches m → is_i64 (observedAt now_ e) → authored o → authored (Oracle.Apply now_ o m e v tr).1.
Proof.
  intros Ho Ht Hi Ha. pose proof (Apply_spec now_ o bound m e v tr Ho Ht Hi) as Hs.
  destruct (Oracle.Apply _ _ _ _ _ _) as [o' res]. cbn [fst].
  destruct Hs as (_ & ent & [Hf _ _ (_ & _ & _ & _ & _ & Hpub & _) _ (v' & Hr) _ _ Hoth _]).
  intros k e' He'. destruct (decide (k = MKey m)) as [->|Hne].
  - rewrite Hf in He'. injection He' as <-. destruct (find o (MKey m)) as [old|] eqn:Hold.
    + by eapply authored_push; [by apply (Ha (MKey m))|exact Hr|].
    + eexists. split; [rewrite Hr; apply push_ok, newRing_ok|]. intros h. cbn. intros [= <-].
      rewrite Hpub. cbn. unfold historyEvent. by case_match.
  - rewrite Hoth in He' by done. case_decide; [done|]. by apply (Ha k).
Qed.
End authored.

(** ** The tracker keeps its publishers under their names *)

Definition named (t : Tracker) : Prop := ∀ k st, SeqTrack.pubs t !! k = Some st → SeqTrack.ID st = k.

Lemma named_set p st t : SeqTrack.ID st = p → named t → named (SeqTrack.set_pub p st t).
Proof. intros Hp Ht k st'. cbn. rewrite lookup_insert_Some. intros [[<- <-]|[_ Hk]]; [done|by apply Ht]. Qed.

Lemma named_clear p t : named t → named (ClearGaps p t).
Proof.
  intros Ht. unfold ClearGaps. destruct (SeqTrack.pubs t !! p) as [st|] eqn:Hp; [|done].
  apply named_set; [cbn; by apply Ht|done].
Qed.

Lemma named_observe `{MapOrder} e at_ t t' v g : named t → SeqTrack.Observe e at_ t = Some (t', v, g) → named t'.
Proof.
  intros Ht. unfold SeqTrack.Observe. destruct (SeqTrack.pubs t !! Event.Publisher e) as [st|] eqn:Hp.
  - destruct (observe_known _ st e at_) as [[[st' v'] g']|] eqn:Hk; [|done]. intros [= <- <- <-].
    apply named_set; [|done]. rewrite <- (Ht _ _ Hp). unfold observe_known in Hk. by repeat case_match; simplify_eq.
  - intros [= <- <- <-]. unfold admitLocked. apply named_set; [done|]. intros k st Hk. apply Ht.
    case_match; [|done]. by eapply evict_subset.
Qed.

(** ** Both hold of a running check *)

Section running.
Context {X : XXHash} {O : MapOrder} {F : FloatOverflow} {R : Rand} {C : Codec}.
Context (s : Spec) (p : projection) (clk : nat → Time) (connected : nat → bool).
Context (clock_sane : ∀ n, is_i64 (clk n)).

Definition traced (c : check) : Prop := authored (orc c) ∧ named (tracker c).

Lemma traced_fold c e v bound :
  oracle_ok (orc c) bound → is_i64 (ObservedAt e) → authored (orc c) → authored (orc (fold s p clk c e v)).
Proof.
  intros Ho Hi Ha. destruct (fold_oracle s p clk c e v) as [n ->].
  destruct (TargetKey p e); [done|]. destruct (Projection.Apply _ _ _) as [|m]; [done|].
  destruct (decide (touches m)) as [Ht|Hn]; [|by rewrite Apply_none].
  apply (authored_apply _ _ bound); [done|done|by apply observed_i64|done].
Qed.

Lemma traced_snapshot c e bound :
  oracle_ok (orc c) bound → traced c → traced (onSnapshotOp p connected c e).
Proof.
  intros Ho [Ha Hn]. unfold onSnapshotOp. destruct (EOp e); try by split.
  assert (authored (ClearSuspect (orc c) (suspectPattern p (Publisher e)))) by (by apply (authored_clear _ bound)).
  assert (named (ClearGaps (Publisher e) (tracker c))) by (by apply named_clear).
  cbn. case_match; by split.
Qed.

Lemma traced_apply c e c' bound :
  oracle_ok (orc c) bound → tracker_wf (tracker c) → good e → suspectGen (orc c) < max_u64 →
  applyOrdered s p clk connected c e = Some c' → traced c → traced c'.
Proof.
  intros Ho Ht [He Hi] Hg Ha [Hau Hna].
  destruct (applyOrdered_cases s p clk connected c e Ht He) as (t & v & g & Hobs & Hwf & Hc). cbv zeta in Hc.
  rewrite Hc in Ha. injection Ha as <-. assert (named t) as Hnt by (by eapply named_observe).
  set (c1 := tick (set_tracker c t)). destruct (Accepted v); [|by split].
  assert (oracle_ok (orc (doubted p c1 e v)) bound ∧ traced (doubted p c1 e v)) as [Hod Htd].
  { destruct v; try (split; [done|by split]); (split; [by apply mark_ok|split; [by apply (authored_mark _ bound)|done]]). }
  pose proof (traced_snapshot _ e _ Hod Htd) as [Hs1 Hs2].
  destruct (snapshot_op_ok p connected (doubted p c1 e v) e bound Hod) as (Hso & _ & _).
  { destruct (doubted_frame p c1 e v) as [-> _]. done. }
  destruct (fold_frame s p clk (onSnapshotOp p connected (doubted p c1 e v) e) e v) as (Hf1 & _).
  split; [by eapply traced_fold|by rewrite Hf1].
Qed.

Lemma traced_step Q x y :
  guarded_step s p clk connected Q x y → running_ok x → traced (chk x) → traced (chk y).
Proof.
  intros [Hg Hs] [[bound Ho] Ht _ _ Hq] [Ha Hn]. unfold unwrapped in Hg. destruct Hs; cbn [chk queue] in *;
    try (by split); try (split; [by apply (authored_mark _ bound)|done]).
  - inversion Hq; subst. by eapply traced_apply.
  - unfold PollLag. destruct (Tick _ _ _) as [e [[o' n']|]]; by split.
  - destruct (adopt_batch_frame s c at_ adopted skipped kvs) as (E1 & _ & _ & batch & E3).
    split; [rewrite E3; by apply (authored_adopt _ bound)|by rewrite E1].
  - split; [|done]. intros k e. cbn. rewrite (proj2 (promoted_ok _ bound _ Ho H)). apply Ha.
Qed.

Lemma reached_traced Q x : reached s p clk connected Q x → traced (chk x).
Proof.
  unfold reached. intros Hr. pose proof (build_ok s p clk) as Hb.
  assert (traced (chk (mkRunning (build s p clk) []))) as Ht.
  { split; [|by intros k st; cbn; rewrite lookup_empty]. intros k e. cbn. unfold build_oracle. by rewrite New_find. }
  induction Hr as [x|x y z Hxy _ IH]; [done|].
  apply IH; [by eapply step_keeps_ok|by eapply traced_step].
Qed.

Lemma gather_publishers i o : PublisherStates (gather (input_applyDefaults i) o) = readPublishers i.
Proof. unfold gather. by destruct (member_diff _ _). Qed.

(** The tracked state Explain shows of a publisher. *)
Lemma shown_publisher i t e id ps :
  named t → PublisherStates e = readPublishers i → InSeqTrack i = Some t → publisherState e id = Some ps →
  ∃ st, SeqTrack.pubs t !! id = Some st ∧ ps = snapshot_state st.
Proof.
  intros Hn He Ht Hps. unfold publisherState in Hps. apply find_some in Hps as [Hin Hid].
  apply bool_decide_eq_true in Hid. rewrite He in Hin. unfold readPublishers in Hin. rewrite Ht in Hin.
  apply list_elem_of_In in Hin. unfold Publishers in Hin. rewrite !merge_sort_Permutation in Hin.
  apply list_elem_of_fmap in Hin as ([k st] & -> & Hin). apply elem_of_range_map in Hin. exists st. split; [|done].
  rewrite <- Hid. cbn. by rewrite (Hn _ _ Hin).
Qed.

Lemma no_count_of_trust t id st :
  SeqTrack.pubs t !! id = Some st → SeqTrack.Trust id t = TrustComplete →
  (Count (SeqTrack.Gaps (snapshot_state st)) =? 0) = true.
Proof.
  intros Hp Ht. unfold SeqTrack.Trust in Ht. rewrite Hp in Ht. cbn [SeqTrack.Gaps snapshot_state].
  assert (Count (clone (SeqTrack.Gaps st)) = Count (SeqTrack.Gaps st)) as -> by done.
  destruct (Count (SeqTrack.Gaps st) >? 0) eqn:Hc; [done|]. zbool. pose proof (u64_range (GapSet.total (intervals (SeqTrack.Gaps st)))) as Hr.
  rewrite <- Count_total in Hr. unfold is_u64 in Hr. apply Z.eqb_eq. lia.
Qed.

Lemma missing_fires e :
  (∃ d, ruleMissingInTargetNoGaps e = Some (Some d)) →
  KnownToOracle (oside e) = true ∧ OracleTrust (oside e) = TrustComplete.
Proof.
  unfold ruleMissingInTargetNoGaps. intros [d Hd]. destruct (KnownToOracle (oside e)); [|done].
  split; [done|]. cbn in Hd. destruct (_ || _); [done|].
  destruct (bool_decide (OracleTrust (oside e) = TrustComplete)) eqn:Hb; [by apply bool_decide_eq_true in Hb|].
  by rewrite orb_true_r in Hd.
Qed.

(** The last publisher of the steps shown, if there is one, is the key's. *)
Lemma LastPublisher_entry i o k ent :
  authored o → find o k = Some ent → InKey i = k →
  ExplainRules.LastPublisher (gather (input_applyDefaults i) o) = "" ∨ ExplainRules.LastPublisher (gather (input_applyDefaults i) o) = lastPublisher ent.
Proof.
  intros Ha Hf Hk. unfold ExplainRules.LastPublisher. destruct (gather_sides i o) as (-> & _).
  assert (XHistory (readOracle i o) = history_steps 0 None (Ring.snapshot (ering ent))) as ->.
  { unfold readOracle, History. rewrite Hk. unfold find in Hf. rewrite Hf. by destruct (Get _ _ _). }
  assert (∀ h n prev, match last (history_steps n prev h) with Some st => Publisher (StepEvent st) | None => "" end
    = match last h with Some x => Publisher (HEvent x) | None => "" end) as Hl.
  { induction h as [|x h IH]; intros n prev; [done|]. cbn [history_steps]. destruct h as [|y h]; [done|].
    specialize (IH (S n) (Some x)). cbn [history_steps] in *. by rewrite !last_cons_cons. }
  rewrite Hl. destruct (last _) as [x|] eqn:Hx; [right|by left]. by eapply authored_last; [apply (Ha k)|].
Qed.

End running.
