(* ===== verification/ExplainRuns.v ===== *)
(** * ExplainRuns: explanations of a concrete check

    The check of IngestRuns, asked about its keys: the witnesses of the theorems
    about explanations, and the answers behind what modelling them showed. *)
From Stdlib Require Ascii.
From Stdlib Require Import String.
From S2P Require Import Prelude GoBase GoFloat GoStrings GoTime Codec Sweeper Event Projection Reference GapSet SeqTrack.
From S2P Require Import PathMatch Target Explain ExplainRules ExplainFacts Differ Reorder Lag LagRuns Spec Ingest IngestFold IngestSafety IngestRuns CheckStatus ExplainSafety.
From S2P Require Import Ring Shard Oracle ExplainFacts.

#[local] Existing Instance constant_hash.
#[local] Existing Instance ascending_order.
#[local] Existing Instance amd64_overflow.
#[local] Existing Instance counting_rand.
#[local] Existing Instance identity_engine.
#[local] Existing Instance sample_codec.

(** ** Questions *)

(** A primary that has evicted seven keys since it started. *)
Definition evicting : Health := mkHealth true 7 0 0 0 0 "master" 0 "".
Definition answering (g : read_error + Value) : TargetAnswers := mkAnswers g (Some None) (Some evicting).

(** "a" wrote "k" completely and lost nothing, "b" wrote "j" and lost a message. *)
Definition lossy : check := after direct shared loss.
Definition question (c : check) (k : string) (g : read_error + Value) : Input :=
  explain_input direct (sample_projection shared) sample_clock c k (Some evicting) (answering g).

(** The verdict and the codes, in order. *)
Definition outline (r : option (explain_error + Explanation)) : option (Explain.Verdict * list string) :=
  match r with Some (inr e) => Some (XVerdict e, Code <$> XDiagnosis e) | _ => None end.

Lemma outline_answer r v l : outline r = Some (v, l) → ∃ e, r = Some (inr e) ∧ XVerdict e = v ∧ (Code <$> XDiagnosis e) = l.
Proof. destruct r as [[|e]|]; [done| |done]. intros [= <- <-]. by exists e. Qed.

Example missing_key :
  outline (Explain (question lossy "k" (inr absent)))
  = Some (VerdictDiverged, [CodeMissingInTargetNoGaps; CodeTargetEvictionLikely]).
Proof. vm_compute. reflexivity. Qed.

Example doubted_key :
  outline (Explain (question lossy "j" (inr absent)))
  = Some (VerdictSuspect, [CodeSeqGapAffectingPublisher; CodeTargetEvictionLikely]).
Proof. vm_compute. reflexivity. Qed.

(** A key of another type is called missing, and evicted, in the same breath: the store "holds nothing"
    and "holds type hash". *)
Example wrong_type_is_called_missing :
  outline (Explain (question lossy "k" (inl (WrongTypeError "hash"))))
  = Some (VerdictDiverged, [CodeMissingInTargetNoGaps; CodeTypeMismatch; CodeTargetEvictionLikely]).
Proof. vm_compute. reflexivity. Qed.

(** Before any sweep every eviction of the store's life counts as one since the last sweep, and the
    answer that finds eviction likely also finds it unlikely. *)
Example eviction_likely_and_unlikely :
  lastReport (life lossy) = None
  ∧ EvictionsSinceLastSweep (question lossy "k" (inr absent)) = 7
  ∧ match Explain (question lossy "k" (inr absent)) with
    | Some (inr e) =>
        (Statement <$> Find e CodeTargetEvictionLikely
         = Some "Redis reported 7 evictions since the last sweep and is at 0% of maxmemory; this key was probably evicted.")
        ∧ (last <$> (Evidence <$> Find e CodeMissingInTargetNoGaps)
         = Some (Some "the store reports 7 evictions in total, so eviction is unlikely"))
    | _ => False
    end.
Proof. vm_compute. done. Qed.

(** ** Witnesses *)

Lemma explain_is_ordered_witness :
  ∃ e, Explain (question lossy "k" (inr absent)) = Some (inr e)
    ∧ StronglySorted diagnosis_le (XDiagnosis e) ∧ NoDup (Code <$> XDiagnosis e).
Proof.
  destruct (outline_answer _ _ _ missing_key) as (e & He & _). exists e. split; [exact He|].
  destruct (explain_is_ordered _ e He) as (H1 & H2 & _). by split.
Defined.

Lemma explain_answers_witness : ∃ e, Explain (question lossy "k" (inr absent)) = Some (inr e).
Proof.
  apply (explain_answers (question lossy "k" (inr absent)) (orc lossy)); [reflexivity| |].
  - split; [apply Z.leb_le|apply Z.ltb_lt]; by vm_compute.
  - intros en Hen. destruct (Get _ _ _) as [en'|] eqn:Hg; [|done]. injection Hen as ->.
    assert ((λ e, (LastEventAt e - InNow (question lossy "k" (inr absent)) <=? 2 ^ 62, EntTTL e)) <$> Some en = Some (true, None)) as Hv.
    { rewrite <- Hg. vm_compute. reflexivity. }
    injection Hv as Hle Httl. split; [by apply Z.leb_le|]. intros ttl. by rewrite Httl.
Defined.

Lemma diverged_exactly_when_earned_witness :
  ∃ e, Explain (question lossy "k" (inr absent)) = Some (inr e) ∧ XVerdict e = VerdictDiverged
    ∧ ((∃ got, gave_type (question lossy "k" (inr absent)) got)
       ∨ (∃ v, gave (question lossy "k" (inr absent)) v ∧ Value_Equal (expects (question lossy "k" (inr absent)) (orc lossy)) v = false
            ∧ ¬ in_flight (question lossy "k" (inr absent)) (orc lossy) ∧ ¬ doubts (question lossy "k" (inr absent)) (orc lossy))).
Proof.
  destruct (outline_answer _ _ _ missing_key) as (e & He & Hv & _). exists e. split; [exact He|]. split; [exact Hv|].
  apply (diverged_exactly_when_earned (question lossy "k" (inr absent)) e (orc lossy) eq_refl He). exact Hv.
Defined.


(** ** A key that holds a set *)

Definition letters (l : list string) : gset string := list_to_set l.

(** An oracle told at the epoch that "k" holds a set of three. *)
Definition set_oracle : Oracle :=
  (Oracle.Apply 0 (Oracle.New (Oracle.mkConfig 1 10 4 false time_Second 0 (60 * time_Second) 0))
     (mkMutation "k" ActionUpsert (set_value (letters ["a"; "b"; "c"])) None false false)
     (sample_event Event.OpAdd "k" "a" None 0) SeqTrack.Accept TrustComplete).1.

Definition set_question (members : list string) : Input :=
  mkInput "k" (Some set_oracle) (Some (answering (inr (set_value (letters members))))) None ShapeSet (5 * time_Second)
    (sec 60) (sec 60) (sec 60) 4 0 0 0.

Example subset_answer :
  outline (Explain (set_question ["c"; "a"])) = Some (VerdictDiverged, [CodeMemberSubset]).
Proof. vm_compute. reflexivity. Qed.

Example swapped_member :
  outline (Explain (set_question ["c"; "a"; "d"])) = Some (VerdictDiverged, []).
Proof. vm_compute. reflexivity. Qed.

Lemma member_rules_are_exact_witness :
  ∃ e, Explain (set_question ["c"; "a"]) = Some (inr e)
    ∧ Has e CodeMemberSubset = true ∧ Has e CodeMemberSuperset = false.
Proof.
  destruct (outline_answer _ _ _ subset_answer) as (e & He & _ & Hc). exists e.
  assert (Kind (expects (set_question ["c"; "a"]) set_oracle) = ValueSet) as Hk by (vm_compute; reflexivity).
  assert (gave (set_question ["c"; "a"]) (set_value (letters ["c"; "a"]))) as Hg.
  { exists (answering (inr (set_value (letters ["c"; "a"])))). split; [reflexivity|left; reflexivity]. }
  destruct (member_rules_are_exact (set_question ["c"; "a"]) set_oracle e _ eq_refl Hg eq_refl Hk He) as [H1 H2].
  split; [exact He|]. assert (Has e CodeMemberSubset = true) as Hsub by (apply Has_code; rewrite Hc; left).
  split; [exact Hsub|]. apply not_true_iff_false. intros Hsup. apply H1 in Hsub. apply H2 in Hsup.
  exact (irreflexivity (⊂) _ (transitivity Hsub Hsup)).
Defined.

(** ** Durations at the ends *)

(** An event received more than 292 years ahead of the clock: the text of its age never ends. *)
Example far_ahead_never_answers :
  Explain (mkInput "k" (Some set_oracle) None None ShapeSet (5 * time_Second) min_i64 (sec 60) (sec 60) 4 0 0 0) = None.
Proof. vm_compute. reflexivity. Qed.

(** A publisher whose clock is three centuries behind is not skewed: the absolute value of the saturated
    difference is negative. *)
Example saturated_skew_is_none :
  time_Sub (- 2 ^ 64) 0 = min_i64 ∧ duration_abs min_i64 = min_i64
  ∧ (duration_abs min_i64 <=? 5 * time_Second) = true.
Proof. vm_compute. done. Qed.
