(* ===== verification/MemoryTarget.v ===== *)
(** * MemoryTarget: the in-process store and the recorder around it (pkg/target/memory.go, recording.go)

    The store of the unit and fault tests with its injected failures, its
    deadlines and its scans, and the wrapper that records every command a target
    issues and stops those that are not reads. The clock is read once per
    operation ([None] is a target without one), a cancelled context is a flag, and
    simulated latency is time that passes between operations. *)
From Stdlib Require Import Ascii String.
From stdpp Require Import sorting.
From S2P Require Import Prelude GoBase GoFloat GoStrings Differ Event Projection PathMatch Target.

(** ** The recorder *)

Record RecordingTarget := mkRecording {
  commands : list string;
  calls : gmap string Z;
  violations : list string;
  allowViolations : bool;
  fixture : Z;
  fixtures : list string
}.

Definition Recording : RecordingTarget := mkRecording [] ∅ [] false 0 [].

Definition AllowViolations (r : RecordingTarget) : RecordingTarget :=
  mkRecording (commands r) (calls r) (violations r) true (fixture r) (fixtures r).

Definition set_fixture (r : RecordingTarget) (n : Z) : RecordingTarget :=
  mkRecording (commands r) (calls r) (violations r) (allowViolations r) n (fixtures r).

(** What Fixture does before and after the function it is given. *)
Definition Fixture_begin (r : RecordingTarget) : RecordingTarget := set_fixture r (fixture r + 1).
Definition Fixture_end (r : RecordingTarget) : RecordingTarget := set_fixture r (fixture r - 1).

(** [false] is the end of the goroutine: the command is never sent. *)
Definition observe `{UnicodeTables} (r : RecordingTarget) (name : string) : RecordingTarget * bool :=
  let allowed := IsReadOnlyCommand name in
  let inFixture := 0 <? fixture r in
  (mkRecording (commands r ++ [name]) (calls r)
     (if allowed then violations r else if inFixture then violations r else violations r ++ [name])
     (allowViolations r) (fixture r)
     (if allowed then fixtures r else if inFixture then fixtures r ++ [name] else fixtures r),
   allowed || inFixture || allowViolations r).

Definition record (method : string) (r : RecordingTarget) : RecordingTarget :=
  mkRecording (commands r) (<[method := default 0 (calls r !! method) + 1]> (calls r)) (violations r)
    (allowViolations r) (fixture r) (fixtures r).

(** ** The store *)

(** An error of an operation: the target's, or of one read. *)
Inductive op_error := ErrClosed | ErrCanceled | ErrInjected | ErrNotFound | ErrRead (e : read_error).

Record MemoryTarget := mkMemory {
  scalars : gmap string string;
  sets : gmap string (gset string);
  expiries : gmap string Time;
  health : Health;
  latency : Duration;
  failEvery : Z;
  opCount : Z;
  closed : bool
}.

(** The three maps: what the store holds. *)
Definition content (m : MemoryTarget) := (scalars m, sets m, expiries m).

Definition set_content (m : MemoryTarget) (sc : gmap string string) (se : gmap string (gset string)) (ex : gmap string Time)
    : MemoryTarget :=
  mkMemory sc se ex (health m) (latency m) (failEvery m) (opCount m) (closed m).

Definition memory_health : Health := mkHealth true 0 0 0 0 0 "master" 0 "memory".

Definition NewMemory : MemoryTarget := mkMemory ∅ ∅ ∅ memory_health 0 0 0 false.

Definition WithLatency (d : Duration) (m : MemoryTarget) : MemoryTarget :=
  mkMemory (scalars m) (sets m) (expiries m) (health m) d (failEvery m) (opCount m) (closed m).

Definition float_le_zero (f : float64) : bool :=
  match SFcompare f (S754_zero false) with Some Lt | Some Eq => true | _ => false end.
Definition float_ge_one (f : float64) : bool :=
  match SFcompare f (float_of_Z 1) with Some Gt | Some Eq => true | _ => false end.

Definition WithFailureRate `{FloatOverflow} (rate : float64) (m : MemoryTarget) : MemoryTarget :=
  let n := if float_le_zero rate then 0
           else if float_ge_one rate then 1
           else int64_of_float (float_add (float_div (float_of_Z 1) rate) (float_lit 1 2)) in
  mkMemory (scalars m) (sets m) (expiries m) (health m) (latency m) n (opCount m) (closed m).

(** The target and its recorder. *)
Record store := mkStore { mem : MemoryTarget; recorder : RecordingTarget }.

Definition with_mem (s : store) (m : MemoryTarget) : store := mkStore m (recorder s).

Section memory.
Context `{UnicodeTables} `{MapOrder}.

(** The observer is the recorder. *)
Definition emit (s : store) (name : string) : store * bool :=
  let '(r, go) := observe (recorder s) name in (mkStore (mem s) r, go).

(** [None] is the end of the goroutine. *)
Definition begin (canceled : bool) (command : string) (s : store) : store * option (option op_error) :=
  let '(s, go) := emit s command in
  if negb go then (s, None)
  else
    let m := mem s in
    if closed m then (s, Some (Some ErrClosed))
    else
      let n := i64 (opCount m + 1) in
      let shouldFail := (0 <? failEvery m) && (Z.rem n (failEvery m) =? 0) in
      let m := mkMemory (scalars m) (sets m) (expiries m) (health m) (latency m) (failEvery m) n (closed m) in
      (with_mem s m,
       Some (if canceled then Some ErrCanceled else if shouldFail then Some ErrInjected else None)).

(** A write of the test's setup: the command is reported first. *)
Definition mutate (command : string) (f : MemoryTarget → MemoryTarget) (s : store) : store :=
  let '(s, go) := emit s command in if go then with_mem s (f (mem s)) else s.

Definition Seed (values : gmap string string) : store → store :=
  mutate "SET" (λ m, set_content m (values ∪ scalars m) (sets m) (expiries m)).

(** The loop body of SeedSets. *)
Definition seed_set (se : gmap string (gset string)) (kv : string * list string) : gmap string (gset string) :=
  let '(k, members) := kv in
  let set := list_to_set members : gset string in
  if bool_decide (size set = 0%nat) then delete k se else <[k := set]> se.

Definition SeedSets (values : gmap string (list string)) : store → store :=
  mutate "SADD" (λ m, set_content m (scalars m) (foldl seed_set (sets m) (range_map values)) (expiries m)).

(** [delete] from the three maps. *)
Definition drop_key (m : MemoryTarget) (k : string) : MemoryTarget :=
  set_content m (delete k (scalars m)) (delete k (sets m)) (delete k (expiries m)).

Definition Remove (keys : list string) : store → store := mutate "DEL" (λ m, foldl drop_key m keys).

Definition SetExpiry (key : string) (at_ : Time) : store → store :=
  mutate "EXPIREAT" (λ m, set_content m (scalars m) (sets m) (<[key := at_]> (expiries m))).

Definition SetHealth (h : Health) (s : store) : store :=
  let m := mem s in
  with_mem s (mkMemory (scalars m) (sets m) (expiries m) h (latency m) (failEvery m) (opCount m) (closed m)).

(** Every key that is held, expired or not, once, sorted. *)
Definition allKeysLocked (m : MemoryTarget) : list string :=
  sort_Strings
    ((fst <$> range_map (scalars m))
     ++ List.filter (λ k, match scalars m !! k with Some _ => false | None => true end) (fst <$> range_map (sets m))).

Definition evict_keys (h : Health) (n : Z) : Health :=
  mkHealth (Reachable h) (u64 (EvictedKeys h + n)) (ExpiredKeys h) (UsedMemoryBytes h) (MaxMemoryBytes h)
    (KeyspaceSize h) (Role h) (ReplicationLagMs h) (HealthVersion h).

(** [None] is a goroutine that ends here: stopped by the recorder, or making a
    slice of a negative capacity. *)
Definition SimulateEvict (n : Z) (s : store) : store * option (list string) :=
  let '(s, go) := emit s "DEBUG EVICT" in
  if negb go || (n <? 0) then (s, None)
  else
    let victims := take (Z.to_nat n) (allKeysLocked (mem s)) in
    let m := foldl drop_key (mem s) victims in
    (with_mem s (mkMemory (scalars m) (sets m) (expiries m) (evict_keys (health m) (Z.of_nat (length victims)))
       (latency m) (failEvery m) (opCount m) (closed m)), Some victims).

Definition SimulateFlush : store → store := mutate "FLUSHDB" (λ m, set_content m ∅ ∅ ∅).

Definition Memory_Len (m : MemoryTarget) : Z := Z.of_nat (length (allKeysLocked m)).

Definition expiredLocked (now : option Time) (m : MemoryTarget) (key : string) : bool :=
  match expiries m !! key, now with
  | Some deadline, Some now => negb (Before now deadline)
  | _, _ => false
  end.

Definition commandFor (shape : Shape) : string := match shape with ShapeSet => "SMEMBERS" | _ => "GET" end.

Definition readLocked (now : option Time) (m : MemoryTarget) (key : string) (shape : Shape) : read_error + Value :=
  if expiredLocked now m key then inr absent
  else
    match shape with
    | ShapeSet =>
        match scalars m !! key, sets m !! key with
        | Some _, _ => inl (WrongTypeError "string")
        | None, Some set => if bool_decide (size set = 0%nat) then inr absent else inr (set_value set)
        | None, None => inr absent
        end
    | ShapeScalar =>
        match sets m !! key, scalars m !! key with
        | Some _, _ => inl (WrongTypeError "set")
        | None, Some s => inr (scalar_value s)
        | None, None => inr absent
        end
    | ShapeCounter =>
        match sets m !! key, scalars m !! key with
        | Some _, _ => inl (WrongTypeError "set")
        | None, Some s => match ParseInt s with Some n => inr (counter_value n) | None => inl (WrongTypeError "non-integer string") end
        | None, None => inr absent
        end
    end.

(** An operation of the interface: [None] is the end of the goroutine. *)
Definition begun {A} (canceled : bool) (command : string) (s : store) (f : MemoryTarget → op_error + A)
    : store * option (op_error + A) :=
  match begin canceled command s with
  | (s, None) => (s, None)
  | (s, Some (Some err)) => (s, Some (inl err))
  | (s, Some None) => (s, Some (f (mem s)))
  end.

Definition Get (canceled : bool) (now : option Time) (key : string) (shape : Shape) (s : store) : store * option (op_error + Value) :=
  begun canceled (commandFor shape) s
    (λ m, match readLocked now m key shape with inl e => inl (ErrRead e) | inr v => inr v end).

Definition read_of (r : read_error + Value) : Read :=
  match r with inl e => mkRead absent (Some e) | inr v => mkRead v None end.

Definition ReadMany (canceled : bool) (now : option Time) (keys : list string) (shape : Shape) (s : store)
    : store * option (op_error + list Read) :=
  begun canceled (commandFor shape) s (λ m, inr ((λ k, read_of (readLocked now m k shape)) <$> keys)).

Definition GetMany (canceled : bool) (now : option Time) (keys : list string) (shape : Shape) (s : store)
    : store * option (op_error + list Value) :=
  match ReadMany canceled now keys shape s with
  | (s, Some (inr reads)) => (s, Some (inr (valuesFromReads reads)))
  | (s, Some (inl err)) => (s, Some (inl err))
  | (s, None) => (s, None)
  end.

Definition held (m : MemoryTarget) (key : string) : bool :=
  match scalars m !! key, sets m !! key with None, None => false | _, _ => true end.

Definition TTL (canceled : bool) (now : option Time) (key : string) (s : store) : store * option (op_error + option Duration) :=
  begun canceled "TTL" s
    (λ m, if negb (held m key) || expiredLocked now m key then inl ErrNotFound
          else match expiries m !! key, now with
               | Some deadline, Some now => inr (Some (time_Sub deadline now))
               | _, _ => inr None
               end).

Definition with_size (h : Health) (n : Z) : Health :=
  mkHealth (Reachable h) (EvictedKeys h) (ExpiredKeys h) (UsedMemoryBytes h) (MaxMemoryBytes h) n (Role h)
    (ReplicationLagMs h) (HealthVersion h).

Definition Health_ (canceled : bool) (s : store) : store * option (op_error + Health) :=
  begun canceled "INFO" s (λ m, inr (with_size (health m) (Memory_Len m))).

Definition defaultScanBatch : Z := 500.

Definition matches (pattern key : string) : bool :=
  if bool_decide (pattern = "") || bool_decide (pattern = "*") then true
  else match path_Match pattern key with Some ok => ok | None => false end.

Record sliceIterator := mkSlice { ikeys : list string; ibatch : Z; icurrent : list string; ierr : option op_error }.

Definition Scan (canceled : bool) (now : option Time) (pattern : string) (batch : Z) (s : store) : store * option sliceIterator :=
  let batch := if batch <=? 0 then defaultScanBatch else batch in
  match begin canceled "SCAN" s with
  | (s, None) => (s, None)
  | (s, Some (Some err)) => (s, Some (mkSlice [] 0 [] (Some err)))
  | (s, Some None) =>
      (s, Some (mkSlice (List.filter (λ k, negb (expiredLocked now (mem s) k) && matches pattern k) (allKeysLocked (mem s))) batch [] None))
  end.

(** Next; the keys of the batch are [icurrent]. *)
Definition slice_Next (canceled : bool) (it : sliceIterator) : sliceIterator * bool :=
  match ierr it with
  | Some _ => (it, false)
  | None =>
      if canceled then (mkSlice (ikeys it) (ibatch it) (icurrent it) (Some ErrCanceled), false)
      else if bool_decide (ikeys it = []) then (mkSlice [] (ibatch it) [] None, false)
      else
        let n := Z.to_nat (Z.min (ibatch it) (Z.of_nat (length (ikeys it)))) in
        (mkSlice (drop n (ikeys it)) (ibatch it) (take n (ikeys it)) None, true)
  end.

Definition Close (s : store) : store :=
  let m := mem s in
  with_mem s (mkMemory (scalars m) (sets m) (expiries m) (health m) (latency m) (failEvery m) (opCount m) true).

(** A method of the wrapper: counted, then the target's. *)
Definition recorded {A} (method : string) (f : store → A) (s : store) : A :=
  f (mkStore (mem s) (record method (recorder s))).
End memory.

(** ** What the in-process store and its recorder guarantee

    No command that writes passes the recorder unseen, a scan gives every live key
    once whatever its batch, and an eviction takes as many keys as it counts. *)

(** ** Read-only *)

Inductive memory_op :=
  | op_Seed (values : gmap string string)
  | op_SeedSets (values : gmap string (list string))
  | op_Remove (keys : list string)
  | op_SetExpiry (key : string) (at_ : Time)
  | op_SetHealth (h : Health)
  | op_SimulateEvict (n : Z)
  | op_SimulateFlush
  | op_Fixture_begin
  | op_Fixture_end
  | op_Get (canceled : bool) (now : option Time) (key : string) (shape : Shape)
  | op_ReadMany (canceled : bool) (now : option Time) (keys : list string) (shape : Shape)
  | op_GetMany (canceled : bool) (now : option Time) (keys : list string) (shape : Shape)
  | op_TTL (canceled : bool) (now : option Time) (key : string)
  | op_Health (canceled : bool)
  | op_Scan (canceled : bool) (now : option Time) (pattern : string) (batch : Z)
  | op_Close.

(** The methods of the Target interface. *)
Definition is_target_op (op : memory_op) : bool :=
  match op with
  | op_Get _ _ _ _ | op_ReadMany _ _ _ _ | op_GetMany _ _ _ _ | op_TTL _ _ _ | op_Health _ | op_Scan _ _ _ _ | op_Close => true
  | _ => false
  end.

Section facts.
Context {U : UnicodeTables} {M : MapOrder}.

Definition run_op (op : memory_op) (s : store) : store :=
  match op with
  | op_Seed v => Seed v s
  | op_SeedSets v => SeedSets v s
  | op_Remove k => Remove k s
  | op_SetExpiry k t => SetExpiry k t s
  | op_SetHealth h => SetHealth h s
  | op_SimulateEvict n => (SimulateEvict n s).1
  | op_SimulateFlush => SimulateFlush s
  | op_Fixture_begin => mkStore (mem s) (Fixture_begin (recorder s))
  | op_Fixture_end => mkStore (mem s) (Fixture_end (recorder s))
  | op_Get c n k sh => recorded "Get" (λ s, (Get c n k sh s).1) s
  | op_ReadMany c n k sh => recorded "ReadMany" (λ s, (ReadMany c n k sh s).1) s
  | op_GetMany c n k sh => recorded "GetMany" (λ s, (GetMany c n k sh s).1) s
  | op_TTL c n k => recorded "TTL" (λ s, (TTL c n k s).1) s
  | op_Health c => recorded "Health" (λ s, (Health_ c s).1) s
  | op_Scan c n p b => recorded "Scan" (λ s, (Scan c n p b s).1) s
  | op_Close => recorded "Close" Close s
  end.

Definition run_ops (ops : list memory_op) (s : store) : store := foldl (λ s op, run_op op s) s ops.

(** [s'] holds what [s] held unless commands of a fixture were recorded in between. *)
Record guarded (s s' : store) : Prop := mk_guarded {
  g_strict : allowViolations (recorder s') = allowViolations (recorder s);
  g_fixtures : ∃ extra, fixtures (recorder s') = fixtures (recorder s) ++ extra
    ∧ (extra = [] → content (mem s') = content (mem s))
}.

Lemma guarded_trans s1 s2 s3 : guarded s1 s2 → guarded s2 s3 → guarded s1 s3.
Proof.
  intros [H1 (e1 & F1 & C1)] [H2 (e2 & F2 & C2)]. split; [congruence|]. exists (e1 ++ e2).
  rewrite F2, F1, app_assoc. split; [done|]. intros [-> ->]%app_nil. rewrite C2, C1; done.
Qed.

(** The recorder is as it was but for the log of commands and calls. *)
Definition clean (s s' : store) : Prop :=
  content (mem s') = content (mem s) ∧ violations (recorder s') = violations (recorder s)
  ∧ fixtures (recorder s') = fixtures (recorder s) ∧ allowViolations (recorder s') = allowViolations (recorder s).

Lemma clean_guarded s s' : clean s s' → guarded s s'.
Proof. intros (H1 & H2 & H3 & H4). split; [done|]. exists []. by rewrite H3, app_nil_r. Qed.

Lemma emit_read s name : IsReadOnlyCommand name = true → clean s (emit s name).1 ∧ (emit s name).2 = true.
Proof. intros Hr. unfold emit, observe. rewrite Hr. by split_and!. Qed.

(** A command that is not a read changes nothing unless it is a fixture's. *)
Lemma mutate_guarded command f s :
  IsReadOnlyCommand command = false → allowViolations (recorder s) = false → guarded s (mutate command f s).
Proof.
  intros Hc Ha. unfold mutate, emit, observe. rewrite Hc, Ha. cbn [orb].
  destruct (0 <? fixture (recorder s)); cbn; (split; [by cbn; rewrite ?Ha|]); [exists [command]|exists []].
  - by split.
  - by rewrite app_nil_r.
Qed.

Lemma begin_clean canceled command s : IsReadOnlyCommand command = true → clean s (begin canceled command s).1.
Proof.
  intros Hr. unfold begin. destruct (emit_read s command Hr) as [Hc Hg]. destruct (emit s command) as [s1 go]. cbn in *.
  subst go. cbn. by destruct (closed (mem s1)).
Qed.

Lemma begun_clean {A} canceled command s (f : MemoryTarget → op_error + A) :
  IsReadOnlyCommand command = true → clean s (begun canceled command s f).1.
Proof.
  intros Hr. unfold begun. pose proof (begin_clean canceled command s Hr) as Hc.
  destruct (begin canceled command s) as [s1 [[err|]|]]; done.
Qed.

Lemma command_read shape : IsReadOnlyCommand (commandFor shape) = true.
Proof. by destruct shape. Qed.

(** The methods of the interface leave the store and the list of violations alone. *)
Lemma target_op_clean op s : is_target_op op = true → clean s (run_op op s).
Proof.
  assert (∀ method, clean s (mkStore (mem s) (record method (recorder s)))) as Hrec by done.
  intros Ht. destruct op; try done; unfold run_op, recorded.
  all: try (apply (begun_clean (A := _) canceled _ (mkStore (mem s) (record _ (recorder s)))); first [apply command_read|reflexivity]).
  - unfold GetMany. pose proof (begun_clean canceled (commandFor shape) (mkStore (mem s) (record "GetMany" (recorder s)))
      (λ m, inr ((λ k, read_of (readLocked now m k shape)) <$> keys)) (command_read shape)) as Hc.
    unfold ReadMany. destruct (begun _ _ _ _) as [s1 [[err|v]|]]; done.
  - unfold Scan. pose proof (begin_clean canceled "SCAN" (mkStore (mem s) (record "Scan" (recorder s))) eq_refl) as Hc.
    destruct (begin _ _ _) as [s1 [[err|]|]]; done.
Qed.

Lemma run_op_guarded op s : allowViolations (recorder s) = false → guarded s (run_op op s).
Proof.
  intros Ha. destruct (is_target_op op) eqn:Ht; [by apply clean_guarded, target_op_clean|].
  destruct op; try done; cbn [run_op]; try (by apply mutate_guarded); try (by apply clean_guarded).
  unfold SimulateEvict. destruct (n <? 0).
  - pose proof (mutate_guarded "DEBUG EVICT" id s eq_refl Ha) as Hg. unfold mutate in Hg.
    destruct (emit s "DEBUG EVICT") as [[m1 r1] []]; done.
  - pose proof (mutate_guarded "DEBUG EVICT" (λ m, foldl drop_key m (take (Z.to_nat n) (allKeysLocked m))) s eq_refl Ha)
      as [Hg1 Hg2]. unfold mutate in *. destruct (emit s "DEBUG EVICT") as [s1 []]; by split.
Qed.

(** the store under audit is never written: whatever is called, in any order, a method of the
    interface changes nothing the store holds and issues no command that is a violation; and while
    violations are not tolerated what the store holds changes only by commands that a test's own
    fixture issued and that are on the record, every other command that writes being stopped. *)
Theorem nothing_writes_unrecorded ops s :
  (Forall (λ op, is_target_op op = true) ops →
     content (mem (run_ops ops s)) = content (mem s)
     ∧ violations (recorder (run_ops ops s)) = violations (recorder s))
  ∧ (allowViolations (recorder s) = false → fixtures (recorder (run_ops ops s)) = fixtures (recorder s) →
     content (mem (run_ops ops s)) = content (mem s)).
Proof.
  split.
  - revert s. induction ops as [|op ops IH]; intros s Hops; [done|]. inversion Hops as [|? ? Ho Hr]; subst.
    destruct (target_op_clean op s Ho) as (H1 & H2 & _). destruct (IH (run_op op s) Hr) as [H3 H4].
    cbn. unfold run_ops in *. by rewrite H3, H4.
  - intros Ha. assert (guarded s (run_ops ops s)) as [_ (extra & He & Hc)].
    { revert s Ha. induction ops as [|op ops IH]; intros s Ha; [by apply clean_guarded|].
      pose proof (run_op_guarded op s Ha) as Hg. eapply guarded_trans; [exact Hg|]. apply IH. by rewrite (g_strict _ _ Hg). }
    intros Hf. apply Hc, (app_inv_head (fixtures (recorder s))). by rewrite app_nil_r, <- He.
Qed.

(** ** Scans *)

(** The batches of an iteration: Next until it is false, at most [fuel] times. *)
Fixpoint walk_slices (fuel : nat) (it : sliceIterator) : list (list string) * bool :=
  match fuel with
  | O => ([], false)
  | S fuel =>
      let '(it, more) := slice_Next false it in
      if more then let '(batches, ended) := walk_slices fuel it in (icurrent it :: batches, ended) else ([], true)
  end.

Lemma walk_slices_spec fuel : ∀ it,
  ierr it = None → 0 < ibatch it → (length (ikeys it) < fuel)%nat →
  let '(batches, ended) := walk_slices fuel it in
  ended = true ∧ List.concat batches = ikeys it ∧ Forall (λ b, b ≠ [] ∧ Z.of_nat (length b) ≤ ibatch it) batches.
Proof.
  induction fuel as [|fuel IH]; intros it He Hb Hf; [lia|]. cbn [walk_slices]. unfold slice_Next. rewrite He.
  destruct (bool_decide (ikeys it = [])) eqn:Hk; [apply bool_decide_eq_true in Hk; by rewrite Hk|].
  apply bool_decide_eq_false in Hk. set (n := Z.to_nat _).
  assert (0 < n ≤ length (ikeys it))%nat as Hn by (destruct (ikeys it); [done|]; subst n; cbn [length] in *; lia).
  specialize (IH (mkSlice (drop n (ikeys it)) (ibatch it) (take n (ikeys it)) None) eq_refl Hb).
  cbn [ikeys ibatch icurrent] in *. destruct (walk_slices fuel _) as [batches ended].
  destruct IH as (H1 & H2 & H3); [rewrite length_drop; lia|]. split_and!; [done| |].
  - cbn. by rewrite H2, take_drop.
  - constructor; [|done]. split.
    + intros Ht. apply (f_equal length) in Ht. rewrite length_take in Ht. cbn in Ht. lia.
    + rewrite length_take. subst n. lia.
Qed.

Lemma NoDup_list_filter {A} (P : A → bool) l : NoDup l → NoDup (List.filter P l).
Proof. intros Hl. apply NoDup_ListNoDup, List.NoDup_filter, NoDup_ListNoDup, Hl. Qed.

Lemma Sorted_list_filter (P : string → bool) l : Sorted String.le l → Sorted String.le (List.filter P l).
Proof.
  intros Hs%Sorted_StronglySorted; [|apply _]. apply StronglySorted_Sorted.
  induction Hs as [|x l Hs IH Hx]; [constructor|]. cbn. destruct (P x); [|done]. constructor; [done|].
  rewrite Forall_forall in Hx |- *. intros y Hy. apply Hx. apply list_elem_of_In, filter_In in Hy as [Hy _].
  by apply list_elem_of_In.
Qed.

Lemma allKeys_spec m : NoDup (allKeysLocked m) ∧ ∀ k, k ∈ allKeysLocked m ↔ held m k = true.
Proof.
  unfold allKeysLocked, sort_Strings. setoid_rewrite merge_sort_Permutation.
  assert (∀ A (g : gmap string A) k, k ∈ (fst <$> range_map g) ↔ is_Some (g !! k)) as Hin.
  { intros A g k. rewrite list_elem_of_fmap. split.
    - intros ([k' a] & -> & Hk). apply elem_of_range_map in Hk. by eexists.
    - intros [a Ha]. exists (k, a). split; [done|]. by apply elem_of_range_map. }
  assert (∀ k, k ∈ List.filter (λ k, match scalars m !! k with Some _ => false | None => true end) (fst <$> range_map (sets m))
    ↔ is_Some (sets m !! k) ∧ scalars m !! k = None) as Hf.
  { intros k. rewrite list_elem_of_In, filter_In, <- list_elem_of_In, Hin. destruct (scalars m !! k); naive_solver. }
  split.
  - apply NoDup_app. split_and!; [apply NoDup_fst_range_map| |apply NoDup_list_filter, NoDup_fst_range_map].
    intros k Hk. rewrite Hf. apply Hin in Hk as [a Ha]. intros [_ Hn]. congruence.
  - intros k. rewrite elem_of_app, Hin, Hf. unfold held. unfold is_Some. destruct (scalars m !! k), (sets m !! k); naive_solver.
Qed.

(** a scan is exact: it ends, and over its batches, none of them empty or above the size asked for, it
    gives every key the store holds that has not expired and that the pattern matches, each once and
    in order. *)
Theorem scan_gives_each_live_key_once now pattern batch s s' it :
  Scan false now pattern batch s = (s', Some it) → ierr it = None →
  let '(batches, ended) := walk_slices (S (length (ikeys it))) it in
  ended = true ∧ NoDup (List.concat batches) ∧ Sorted String.le (List.concat batches)
  ∧ Forall (λ b, b ≠ [] ∧ Z.of_nat (length b) ≤ if batch <=? 0 then defaultScanBatch else batch) batches
  ∧ ∀ k, k ∈ List.concat batches ↔ held (mem s) k = true ∧ expiredLocked now (mem s) k = false ∧ matches pattern k = true.
Proof.
  unfold Scan. intros Hs He. pose proof (begin_clean false "SCAN" s eq_refl) as (Hc & _).
  destruct (begin false "SCAN" s) as [s1 [[err|]|]]; [by injection Hs as <- <-| |done].
  injection Hs as <- <-. cbn [fst ikeys ierr] in *. set (keys := List.filter _ _).
  set (n := if batch <=? 0 then _ else _).
  assert (0 < n) as Hn by (subst n; case_bool; done).
  pose proof (walk_slices_spec (S (length keys)) (mkSlice keys n [] None) eq_refl Hn ltac:(cbn; lia)) as Hw.
  destruct (walk_slices _ _) as [batches ended]. destruct Hw as (H1 & H2 & H3). rewrite H2. cbn [ikeys ibatch] in *.
  destruct (allKeys_spec (mem s1)) as [Hnd Hel]. split_and!; [done|by apply NoDup_list_filter| |done|].
  - apply Sorted_list_filter, sort_Strings_sorted.
  - intros k. subst keys. rewrite list_elem_of_In, filter_In, <- list_elem_of_In, Hel.
    rewrite andb_true_iff, negb_true_iff. unfold held, expiredLocked. unfold content in Hc. injection Hc as -> -> ->. done.
Qed.


Lemma drop_keys_held victims : ∀ m k, held (foldl drop_key m victims) k = held m k && negb (bool_decide (k ∈ victims)).
Proof.
  induction victims as [|v victims IH]; intros m k; [by rewrite andb_true_r|]. cbn [foldl]. rewrite IH.
  assert (held (drop_key m v) k = held m k && negb (bool_decide (k = v))) as ->.
  { unfold held, drop_key, set_content. cbn. destruct (decide (k = v)) as [->|Hne].
    - rewrite !lookup_delete_eq, bool_decide_true by done. by rewrite andb_false_r.
    - rewrite !lookup_delete_ne, bool_decide_false by done. by rewrite andb_true_r. }
  rewrite <- andb_assoc. f_equal. rewrite <- negb_orb. f_equal. rewrite <- bool_decide_or. apply bool_decide_ext.
  by rewrite elem_of_cons.
Qed.

(** an eviction takes what it counts: of the keys held it drops as many as asked for, or all of
    them, the first in order, gives exactly those back, leaves every other key as it was and raises
    the counter of evicted keys by their number, wrapping at 64 bits. *)
Theorem eviction_is_counted n s s' victims :
  SimulateEvict n s = (s', Some victims) →
  victims = take (Z.to_nat n) (allKeysLocked (mem s)) ∧ NoDup victims
  ∧ Z.of_nat (length victims) = Z.min n (Memory_Len (mem s))
  ∧ (∀ k, held (mem s') k = held (mem s) k && negb (bool_decide (k ∈ victims)))
  ∧ EvictedKeys (health (mem s')) = u64 (EvictedKeys (health (mem s)) + Z.of_nat (length victims)).
Proof.
  unfold SimulateEvict, emit. destruct (observe (recorder s) "DEBUG EVICT") as [r go]. destruct go; [|done].
  destruct (Z.ltb_spec n 0); [done|]. injection 1 as <- <-. cbn [mem with_mem negb orb].
  destruct (allKeys_spec (mem s)) as [Hnd _]. split_and!; [done| | | |].
  - eapply sublist_NoDup; [exact Hnd|apply sublist_take].
  - rewrite length_take. unfold Memory_Len. lia.
  - intros k. apply drop_keys_held.
  - cbn. f_equal. f_equal. generalize (take (Z.to_nat n) (allKeysLocked (mem s))). intros vs.
    assert (∀ vs m, health (foldl drop_key m vs) = health m) as ->; [|done].
    clear. induction vs as [|v vs IH]; intros m; [done|]. cbn. by rewrite IH.
Qed.
End facts.

(** ** A store with three keys *)

#[local] Existing Instance caseless.
#[local] Existing Instance ascending_order.

Definition three_keys : store :=
  mkStore (set_content NewMemory (<["b" := "1"]> (<["a" := "x"]> ∅)) {["c" := {["m"]}]} {["b" := 5]}) Recording.

(** The recorder stops a write that no fixture made and lets the fixture's through. *)
Example writes_stopped :
  let s := run_ops [op_Remove ["a"]; op_Get false None "a" ShapeScalar; op_Fixture_begin; op_Remove ["b"]; op_Fixture_end] three_keys in
  commands (recorder s) = ["DEL"; "GET"; "DEL"] ∧ violations (recorder s) = ["DEL"] ∧ fixtures (recorder s) = ["DEL"]
  ∧ allKeysLocked (mem s) = ["a"; "c"] ∧ calls (recorder s) !! "Get" = Some 1.
Proof. by vm_compute. Qed.

Lemma nothing_writes_unrecorded_witness :
  content (mem (run_ops [op_Get false None "a" ShapeScalar; op_Scan false None "*" 1] three_keys)) = content (mem three_keys)
  ∧ content (mem (run_ops [op_Remove ["a"]; op_SimulateFlush] three_keys)) = content (mem three_keys).
Proof.
  split.
  - by apply (nothing_writes_unrecorded [op_Get false None "a" ShapeScalar; op_Scan false None "*" 1] three_keys); repeat constructor.
  - apply (nothing_writes_unrecorded [op_Remove ["a"]; op_SimulateFlush] three_keys); reflexivity.
Defined.

(** A scan of batches of one, after "b" has expired. *)
Lemma scan_gives_each_live_key_once_witness :
  let it := mkSlice ["a"; "c"] 1 [] None in
  let '(batches, ended) := walk_slices (S (length (ikeys it))) it in
  ended = true ∧ NoDup (List.concat batches) ∧ Sorted String.le (List.concat batches)
  ∧ Forall (λ b, b ≠ [] ∧ Z.of_nat (length b) ≤ if 1 <=? 0 then defaultScanBatch else 1) batches
  ∧ ∀ k, k ∈ List.concat batches ↔ held (mem three_keys) k = true ∧ expiredLocked (Some 5) (mem three_keys) k = false
      ∧ matches "*" k = true.
Proof.
  eapply (scan_gives_each_live_key_once (Some 5) "*" 1 three_keys); [|reflexivity].
  vm_compute. reflexivity.
Defined.

Lemma eviction_is_counted_witness :
  let s := mkStore (mem three_keys) (Fixture_begin Recording) in
  let s' := (SimulateEvict 2 s).1 in
  ["a"; "b"] = take (Z.to_nat 2) (allKeysLocked (mem s)) ∧ NoDup ["a"; "b"]
  ∧ Z.of_nat (length ["a"; "b"]) = Z.min 2 (Memory_Len (mem s))
  ∧ (∀ k, held (mem s') k = held (mem s) k && negb (bool_decide (k ∈ ["a"; "b"])))
  ∧ EvictedKeys (health (mem s')) = u64 (EvictedKeys (health (mem s)) + Z.of_nat (length ["a"; "b"])).
Proof.
  intros s s'. eapply (eviction_is_counted 2 s s'). vm_compute. reflexivity.
Defined.

(** A key can be held as a value and as a set at once, and is then of the wrong type for either read. *)
Example both_kinds :
  let m := set_content NewMemory {["k" := "v"]} {["k" := {["m"]}]} ∅ in
  readLocked None m "k" ShapeScalar = inl (WrongTypeError "set") ∧ readLocked None m "k" ShapeSet = inl (WrongTypeError "string").
Proof. by vm_compute. Qed.

(** An expired key is still counted and evicted, though no read finds it. *)
Example expired_still_counted :
  Memory_Len (mem three_keys) = 3 ∧ expiredLocked (Some 5) (mem three_keys) "b" = true
  ∧ readLocked (Some 5) (mem three_keys) "b" ShapeScalar = inr absent.
Proof. by vm_compute. Qed.
