(* ===== verification/Redis.v ===== *)
(** * Redis: the production store (pkg/target/redis.go)

    The target over a go-redis client: the hook in front of the socket, single and
    pipelined reads, scans of one node and of a cluster, and INFO. The client is a
    third-party package and a parameter ([RedisClient]): what each call answers, in
    the world it is made in. *)
From Stdlib Require Import Ascii String.
From S2P Require Import Prelude GoBase GoStrings GoFormat Codec Event Projection Target.

Definition defaultBatchSize : Z := 500.
Definition defaultScanCount : Z := 1000.
Definition maxScanCalls : Z := 1000000.
Definition maxDedupKeys : Z := 100000.
Definition maxCursorRepeats : Z := 3.

(** ** Errors *)

(** An error of the client is known by its text alone, apart from [redis.Nil]. *)
Inductive redis_error :=
  | RNil
  | RMessage (text : string)
  | RReadOnlyViolation (name : string)
  | RWrongType (got : string)
  | RNotFound
  | RScanRestarted
  | RClosed
  | RBadConfig.

#[export] Instance redis_error_eq_dec : EqDecision redis_error.
Proof. solve_decision. Defined.

Definition isWrongType (err : redis_error) : bool :=
  match err with RMessage text => HasPrefix "WRONGTYPE" text | _ => false end.

Definition isNil (err : redis_error) : bool := match err with RNil => true | _ => false end.

Definition wrapRedisErr (err : redis_error) : redis_error :=
  if isWrongType err then RWrongType "a different type" else err.

(** The error of one read of a batch, as the differ tells them apart. *)
Definition read_failure (err : redis_error) : read_error :=
  match err with RWrongType got => WrongTypeError got | _ => TransportError end.

(** ** The client *)

Inductive redis_call :=
  | CGet (key : string)
  | CSMembers (key : string)
  | CPTTL (key : string)
  | CScan (cursor : Z) (pattern : string) (count : Z)
  | CInfo
  | CDBSize.

(** [call_args] is what [Cmder.Args] of a call prints as; a pipeline answers with the
    error of Exec and the result of each of its commands; a node is a client of its own,
    which carries the hook of the target ([hooked]) or not. *)
Class RedisClient := {
  world : Type;
  node : Type;
  call_args : redis_call → list string;
  ctx_err : world → option redis_error;
  do_get : world → string → world * (redis_error + string);
  do_smembers : world → string → world * (redis_error + list string);
  exec_get : world → list string → world * (option redis_error * (nat → redis_error + string));
  exec_smembers : world → list string → world * (option redis_error * (nat → redis_error + list string));
  do_pttl : world → string → world * (redis_error + Duration);
  do_scan : node → world → Z → string → Z → world * (redis_error + list string * Z);
  do_info : world → world * (redis_error + string);
  do_dbsize : world → world * (redis_error + Z);
  do_close : world → world * option redis_error;
  standalone : node;
  hooked : node → bool;
  is_cluster : bool;
  for_each_master : world → world * (list node * option redis_error)
}.

(** ** Construction *)

Record RedisOptions := mkOptions {
  Addrs : list string;
  MasterName : string;
  DB : Z;
  Username : string;
  Password : string;
  BatchSize : Z;
  ScanCount : Z
}.

Definition Setting (settings : gmap string string) (key def : string) : string :=
  default def (settings !! key).

Definition intSetting (settings : gmap string string) (key : string) (def : Z) : redis_error + Z :=
  let raw := Setting settings key "" in
  if bool_decide (raw = "") then inr def
  else match ParseInt raw with
       | Some n => if n <? 0 then inl RBadConfig else inr n
       | None => inl RBadConfig
       end.

(** Options after NewRedis has filled them in. *)
Definition NewRedis (opts : RedisOptions) : redis_error + RedisOptions :=
  if bool_decide (Addrs opts = []) then inl RBadConfig
  else inr (mkOptions (Addrs opts) (MasterName opts) (DB opts) (Username opts) (Password opts)
              (if BatchSize opts <=? 0 then defaultBatchSize else BatchSize opts)
              (if ScanCount opts <=? 0 then defaultScanCount else ScanCount opts)).

Definition split_addrs (addrs : string) : list string :=
  List.filter (λ a, negb (bool_decide (a = ""))) (TrimSpace <$> strings_Split addrs ",").

Definition newRedis (settings : gmap string string) : redis_error + RedisOptions :=
  let addrs := Setting settings "addrs" "" in
  db ← intSetting settings "db" 0;
  batchSize ← intSetting settings "batchSize" defaultBatchSize;
  scanCount ← intSetting settings "scanCount" defaultScanCount;
  NewRedis (mkOptions (if bool_decide (addrs = "") then [] else split_addrs addrs) (Setting settings "masterName" "") db
              (Setting settings "username" "") (Setting settings "password" "") batchSize scanCount).

(** ** The hook *)

Section redis.
Context `{UnicodeTables} {C : RedisClient}.

Record RedisTarget := mkRedis {
  batch : Z;
  count : Z;
  tclosed : bool;
  wd : world;
  issued : list string
}.

(** [issued] is what the observers were told. *)
Definition with_world (t : RedisTarget) (w : world) : RedisTarget := mkRedis (batch t) (count t) (tclosed t) w (issued t).
Definition emit_command (t : RedisTarget) (name : string) : RedisTarget :=
  mkRedis (batch t) (count t) (tclosed t) (wd t) (issued t ++ [name]).

Definition NewRedisFromClient (w : world) (b scanCount : Z) : RedisTarget :=
  mkRedis (if b <=? 0 then defaultBatchSize else b) (if scanCount <=? 0 then defaultScanCount else scanCount) false w [].

Definition container_commands : list string := ["MEMORY"; "CLUSTER"; "OBJECT"; "CLIENT"; "CONFIG"; "ACL"].

Definition commandName (name : string) (args : list string) : string :=
  match args with
  | [] => strings_ToUpper name
  | arg :: rest =>
      let name := strings_ToUpper arg in
      if bool_decide (name ∈ container_commands)
      then match rest with sub :: _ => name +:+ " " +:+ strings_ToUpper sub | [] => name end
      else name
  end.

Definition check (t : RedisTarget) (name : string) (args : list string) : RedisTarget * option redis_error :=
  let name := commandName name args in
  let t := emit_command t name in
  (t, if IsReadOnlyCommand name then None else Some (RReadOnlyViolation name)).

(** ProcessHook: the call is made only if the check lets it through. *)
Definition ProcessHook {A} (args : list string) (next : world → world * (redis_error + A)) (t : RedisTarget)
    : RedisTarget * (redis_error + A) :=
  match check t "" args with
  | (t, Some err) => (t, inl err)
  | (t, None) => let '(w, r) := next (wd t) in (with_world t w, r)
  end.

(** A call made through the client of a node. *)
Definition node_call {A} (n : node) (args : list string) (next : world → world * (redis_error + A)) (t : RedisTarget)
    : RedisTarget * (redis_error + A) :=
  if hooked n then ProcessHook args next t
  else let '(w, r) := next (wd t) in (with_world t w, r).

Fixpoint check_all (cmds : list (list string)) (t : RedisTarget) : RedisTarget * option redis_error :=
  match cmds with
  | [] => (t, None)
  | args :: cmds =>
      match check t "" args with
      | (t, Some err) => (t, Some err)
      | (t, None) => check_all cmds t
      end
  end.

Definition ProcessPipelineHook {A} (cmds : list (list string)) (next : world → world * (option redis_error * (nat → redis_error + A)))
    (t : RedisTarget) : RedisTarget * (option redis_error * (nat → redis_error + A)) :=
  match check_all cmds t with
  | (t, Some err) => (t, (Some err, λ _, inl err))
  | (t, None) => let '(w, r) := next (wd t) in (with_world t w, r)
  end.

(** ** Reads *)

Definition setValue (members : list string) : Value :=
  match members with [] => absent | _ => set_value (list_to_set members) end.

Definition opened {A} (t : RedisTarget) (f : RedisTarget → RedisTarget * (redis_error + A)) : RedisTarget * (redis_error + A) :=
  if tclosed t then (t, inl RClosed) else f t.

(** What a reply to GET and to SMEMBERS reads as. *)
Definition string_reply (shape : Shape) (r : redis_error + string) : redis_error + Value :=
  match r with
  | inl err => if isNil err then inr absent else inl (wrapRedisErr err)
  | inr s =>
      match shape with
      | ShapeCounter => match ParseInt s with Some n => inr (counter_value n) | None => inl (RWrongType "non-integer string") end
      | _ => inr (scalar_value s)
      end
  end.
Definition set_reply (r : redis_error + list string) : redis_error + Value :=
  match r with inl err => inl (wrapRedisErr err) | inr members => inr (setValue members) end.

Definition Redis_Get (key : string) (shape : Shape) (t : RedisTarget) : RedisTarget * (redis_error + Value) :=
  opened t (λ t,
    match shape with
    | ShapeSet => let '(t, r) := ProcessHook (call_args (CSMembers key)) (λ w, do_smembers w key) t in (t, set_reply r)
    | _ => let '(t, r) := ProcessHook (call_args (CGet key)) (λ w, do_get w key) t in (t, string_reply shape r)
    end).

Definition redis_read (r : redis_error + Value) : Read :=
  match r with inl err => mkRead absent (Some (read_failure err)) | inr v => mkRead v None end.

(** In a pipeline an SMEMBERS that answers [redis.Nil] is an empty set. *)
Definition set_read (r : redis_error + list string) : Read :=
  match r with
  | inl RNil => mkRead (setValue []) None
  | _ => redis_read (set_reply r)
  end.

(** The error of Exec that abandons the batch. *)
Definition aborts (err : option redis_error) : option redis_error :=
  match err with Some e => if isNil e || isWrongType e then None else Some e | None => None end.

Definition readChunk (keys : list string) (shape : Shape) (t : RedisTarget) : RedisTarget * (redis_error + list Read) :=
  match shape with
  | ShapeSet =>
      let '(t, (err, result)) := ProcessPipelineHook ((λ k, call_args (CSMembers k)) <$> keys) (λ w, exec_smembers w keys) t in
      (t, match aborts err with
          | Some e => inl e
          | None => inr (imap (λ i _, set_read (result i)) keys)
          end)
  | _ =>
      let '(t, (err, result)) := ProcessPipelineHook ((λ k, call_args (CGet k)) <$> keys) (λ w, exec_get w keys) t in
      (t, match aborts err with
          | Some e => inl e
          | None => inr (imap (λ i _, redis_read (string_reply shape (result i))) keys)
          end)
  end.

(** The loop of ReadMany from [keys] on; [None] is a loop that needs more than [fuel] rounds. *)
Fixpoint read_chunks (fuel : nat) (keys : list string) (shape : Shape) (out : list Read) (t : RedisTarget)
    : RedisTarget * option (redis_error + list Read) :=
  match keys with
  | [] => (t, Some (inr out))
  | _ =>
      match fuel with
      | 0%nat => (t, None)
      | S fuel =>
          let n := Z.to_nat (batch t) in
          match readChunk (take n keys) shape t with
          | (t, inl err) => (t, Some (inl err))
          | (t, inr reads) => read_chunks fuel (drop n keys) shape (out ++ reads) t
          end
      end
  end.

Definition Redis_ReadMany (keys : list string) (shape : Shape) (t : RedisTarget) : RedisTarget * option (redis_error + list Read) :=
  if tclosed t then (t, Some (inl RClosed)) else read_chunks (length keys) keys shape [] t.

Definition Redis_GetMany (keys : list string) (shape : Shape) (t : RedisTarget) : RedisTarget * option (redis_error + list Value) :=
  match Redis_ReadMany keys shape t with
  | (t, Some (inr reads)) => (t, Some (inr (valuesFromReads reads)))
  | (t, Some (inl err)) => (t, Some (inl err))
  | (t, None) => (t, None)
  end.

Definition ttl_reply (r : redis_error + Duration) : redis_error + option Duration :=
  match r with
  | inl err => inl err
  | inr d => if (d =? -2 * time_Millisecond) || (d =? -2) then inl RNotFound else if d <? 0 then inr None else inr (Some d)
  end.

Definition Redis_TTL (key : string) (t : RedisTarget) : RedisTarget * (redis_error + option Duration) :=
  opened t (λ t, let '(t, r) := ProcessHook (call_args (CPTTL key)) (λ w, do_pttl w key) t in (t, ttl_reply r)).

Definition Redis_Close (t : RedisTarget) : RedisTarget * option redis_error :=
  if tclosed t then (t, None)
  else let '(w, err) := do_close (wd t) in (mkRedis (batch t) (count t) true w (issued t), err).

(** ** Scans *)

Record redisIterator := mkIterator {
  inode : node;
  ipattern : string;
  icount : Z;
  cursor : Z;
  started : bool;
  icurrent : list string;
  ierr : option redis_error;
  seen : option (gset string);
  dedupWindows : Z;
  cursors : option (gmap Z Z);
  calls : Z
}.

Definition new_iterator (n : node) (pattern : string) (cnt : Z) : redisIterator :=
  mkIterator n pattern cnt 0 false [] None (Some ∅) 0 (Some ∅) 0.

Definition fail_with (it : redisIterator) (err : redis_error) : redisIterator :=
  mkIterator (inode it) (ipattern it) (icount it) (cursor it) (started it) (icurrent it) (Some err) (seen it)
    (dedupWindows it) (cursors it) (calls it).
Definition with_current (it : redisIterator) (l : list string) : redisIterator :=
  mkIterator (inode it) (ipattern it) (icount it) (cursor it) (started it) l (ierr it) (seen it) (dedupWindows it)
    (cursors it) (calls it).
Definition with_calls (it : redisIterator) (n : Z) : redisIterator :=
  mkIterator (inode it) (ipattern it) (icount it) (cursor it) (started it) (icurrent it) (ierr it) (seen it)
    (dedupWindows it) (cursors it) n.
Definition with_cursors (it : redisIterator) (m : gmap Z Z) : redisIterator :=
  mkIterator (inode it) (ipattern it) (icount it) (cursor it) (started it) (icurrent it) (ierr it) (seen it)
    (dedupWindows it) (Some m) (calls it).

(** One key of a reply: [None] is a write to the nil map of a closed iterator. *)
Definition admit_key (s : option (gset string) * Z * list string) (key : string) : option (option (gset string) * Z * list string) :=
  let '(seen, windows, current) := s in
  let known := default ∅ seen in
  if bool_decide (key ∈ known) then Some s
  else if maxDedupKeys <=? Z.of_nat (size known) then Some (Some {[key]}, windows + 1, current ++ [key])
  else match seen with Some known => Some (Some ({[key]} ∪ known), windows, current ++ [key]) | None => None end.

Fixpoint admit_keys (keys : list string) (s : option (gset string) * Z * list string)
    : option (option (gset string) * Z * list string) :=
  match keys with
  | [] => Some s
  | key :: keys => match admit_key s key with Some s => admit_keys keys s | None => None end
  end.

(** [it.cursors[next]++] and the test behind it. *)
Definition count_cursor (it : redisIterator) (next : Z) : option redisIterator :=
  if next =? 0 then Some it
  else
    m ← cursors it;
    let n := default 0 (m !! next) + 1 in
    let it := with_cursors it (<[next := n]> m) in
    Some (if maxCursorRepeats <? n then fail_with it RScanRestarted else it).

Inductive stop := Panics | OutOfFuel.

(** A round of the loop of Next: it returns, goes round again or panics. *)
Inductive round := Returns (it : redisIterator) (more : bool) | Again (it : redisIterator) | Round_panics.

(** What a round does with the reply to its SCAN. *)
Definition take_reply (it : redisIterator) (keys : list string) (next : Z) : round :=
  match count_cursor it next with
  | None => Round_panics
  | Some it =>
      match ierr it with
      | Some _ => Returns it false
      | None =>
          match admit_keys keys (seen it, dedupWindows it, icurrent it) with
          | None => Round_panics
          | Some (seen', windows, current) =>
              let it := mkIterator (inode it) (ipattern it) (icount it) next true current None seen' windows (cursors it) (calls it) in
              if negb (bool_decide (current = [])) then Returns it true
              else if next =? 0 then Returns it false else Again it
          end
      end
  end.

Definition next_round (it : redisIterator) (t : RedisTarget) : RedisTarget * round :=
  match ierr it with
  | Some _ => (t, Returns it false)
  | None =>
      match ctx_err (wd t) with
      | Some err => (t, Returns (fail_with it err) false)
      | None =>
          if started it && (cursor it =? 0) then (t, Returns it false)
          else
            let it := with_calls it (calls it + 1) in
            if maxScanCalls <? calls it then (t, Returns (fail_with it RScanRestarted) false)
            else
              match node_call (inode it) (call_args (CScan (cursor it) (ipattern it) (icount it)))
                      (λ w, do_scan (inode it) w (cursor it) (ipattern it) (icount it)) t with
              | (t, inl err) => (t, Returns (fail_with it err) false)
              | (t, inr (keys, next)) => (t, take_reply it keys next)
              end
      end
  end.

Fixpoint next_loop (fuel : nat) (it : redisIterator) (t : RedisTarget) : RedisTarget * (stop + redisIterator * bool) :=
  match fuel with
  | 0%nat => (t, inl OutOfFuel)
  | S fuel =>
      match next_round it t with
      | (t, Returns it more) => (t, inr (it, more))
      | (t, Again it) => next_loop fuel it t
      | (t, Round_panics) => (t, inl Panics)
      end
  end.

Definition Next (fuel : nat) (it : redisIterator) : RedisTarget → RedisTarget * (stop + redisIterator * bool) :=
  next_loop fuel (with_current it []).

Definition iterator_Close (it : redisIterator) : redisIterator :=
  mkIterator (inode it) (ipattern it) (icount it) (cursor it) (started it) (icurrent it) (ierr it) None (dedupWindows it)
    None (calls it).

(** A cluster: the iterators of its masters, one after the other. *)
Record clusterIterator := mkCluster { iters : list redisIterator; idx : nat; cerr : option redis_error }.

Definition newClusterIterator (pattern : string) (cnt : Z) (t : RedisTarget) : RedisTarget * clusterIterator :=
  let '(w, (nodes, err)) := for_each_master (wd t) in
  (with_world t w, mkCluster ((λ n, new_iterator n pattern cnt) <$> nodes) 0 err).

Fixpoint cluster_loop (rounds fuel : nat) (it : clusterIterator) (t : RedisTarget) : RedisTarget * (stop + clusterIterator * bool) :=
  match cerr it, iters it !! idx it with
  | None, Some inner =>
      match rounds with
      | 0%nat => (t, inl OutOfFuel)
      | S rounds =>
          match Next fuel inner t with
          | (t, inl s) => (t, inl s)
          | (t, inr (inner, more)) =>
              let its := <[idx it := inner]> (iters it) in
              if more then (t, inr (mkCluster its (idx it) None, true))
              else match ierr inner with
                   | Some err => (t, inr (mkCluster its (idx it) (Some err), false))
                   | None => cluster_loop rounds fuel (mkCluster its (S (idx it)) None) t
                   end
          end
      end
  | _, _ => (t, inr (it, false))
  end.

Definition cluster_Next (fuel : nat) (it : clusterIterator) : RedisTarget → RedisTarget * (stop + clusterIterator * bool) :=
  cluster_loop (length (iters it)) fuel it.

Definition cluster_Keys (it : clusterIterator) : list string :=
  match iters it !! idx it with Some inner => icurrent inner | None => [] end.

Definition cluster_Close (it : clusterIterator) : clusterIterator := mkCluster (iterator_Close <$> iters it) (idx it) (cerr it).

(** An iterator of the target: of an error, of one node or of a cluster. *)
Inductive Iterator := ErrIterator (err : redis_error) | NodeIterator (it : redisIterator) | ClusterIterator (it : clusterIterator).

Definition Redis_Scan (pattern : string) (b : Z) (t : RedisTarget) : RedisTarget * Iterator :=
  if tclosed t then (t, ErrIterator RClosed)
  else
    let b := if b <=? 0 then count t else b in
    let pattern := if bool_decide (pattern = "") then "*" else pattern in
    if is_cluster then let '(t, it) := newClusterIterator pattern b t in (t, ClusterIterator it)
    else (t, NodeIterator (new_iterator standalone pattern b)).

(** ** Health *)

Definition parseUint (s : string) : Z := default 0 (ParseUint s).

Definition info_field (h : Health) (field value : string) : Health :=
  if bool_decide (field = "evicted_keys") then
    mkHealth (Reachable h) (parseUint value) (ExpiredKeys h) (UsedMemoryBytes h) (MaxMemoryBytes h) (KeyspaceSize h) (Role h) (ReplicationLagMs h) (HealthVersion h)
  else if bool_decide (field = "expired_keys") then
    mkHealth (Reachable h) (EvictedKeys h) (parseUint value) (UsedMemoryBytes h) (MaxMemoryBytes h) (KeyspaceSize h) (Role h) (ReplicationLagMs h) (HealthVersion h)
  else if bool_decide (field = "used_memory") then
    mkHealth (Reachable h) (EvictedKeys h) (ExpiredKeys h) (parseUint value) (MaxMemoryBytes h) (KeyspaceSize h) (Role h) (ReplicationLagMs h) (HealthVersion h)
  else if bool_decide (field = "maxmemory") then
    mkHealth (Reachable h) (EvictedKeys h) (ExpiredKeys h) (UsedMemoryBytes h) (parseUint value) (KeyspaceSize h) (Role h) (ReplicationLagMs h) (HealthVersion h)
  else if bool_decide (field = "role") then
    mkHealth (Reachable h) (EvictedKeys h) (ExpiredKeys h) (UsedMemoryBytes h) (MaxMemoryBytes h) (KeyspaceSize h) value (ReplicationLagMs h) (HealthVersion h)
  else if bool_decide (field = "redis_version") then
    mkHealth (Reachable h) (EvictedKeys h) (ExpiredKeys h) (UsedMemoryBytes h) (MaxMemoryBytes h) (KeyspaceSize h) (Role h) (ReplicationLagMs h) value
  else if bool_decide (field = "master_last_io_seconds_ago") then
    match ParseInt value with
    | Some n => if n >=? 0 then
        mkHealth (Reachable h) (EvictedKeys h) (ExpiredKeys h) (UsedMemoryBytes h) (MaxMemoryBytes h) (KeyspaceSize h) (Role h) (i64 (n * 1000)) (HealthVersion h)
        else h
    | None => h
    end
  else h.

Definition info_line (h : Health) (line : string) : Health :=
  let line := TrimSpace line in
  if bool_decide (line = "") || HasPrefix "#" line then h
  else
    let '(field, value, ok) := strings_Cut line ":" in
    if negb ok then h else info_field h (TrimSpace field) (TrimSpace value).

Definition parseInfo (raw : string) (h : Health) : Health :=
  foldl info_line h (strings_Split raw (String "010" "")).

Definition with_keyspace (h : Health) (n : Z) : Health :=
  mkHealth (Reachable h) (EvictedKeys h) (ExpiredKeys h) (UsedMemoryBytes h) (MaxMemoryBytes h) n (Role h)
    (ReplicationLagMs h) (HealthVersion h).

Definition Redis_Health (t : RedisTarget) : RedisTarget * (redis_error + Health) :=
  opened t (λ t,
    match ProcessHook (call_args CInfo) do_info t with
    | (t, inl err) => (t, inl err)
    | (t, inr raw) =>
        let h := parseInfo raw (mkHealth true 0 0 0 0 0 "" 0 "") in
        match ProcessHook (call_args CDBSize) do_dbsize t with
        | (t, inl _) => (t, inr h)
        | (t, inr size) => (t, inr (with_keyspace h size))
        end
    end).
End redis.
