(* ===== verification/RedisFacts.v ===== *)
(** * RedisFacts: what the reads of the production store guarantee

    A batch reads what reading each key alone reads, however it is cut; the
    in-process store reads as a Redis with the same content does; and only
    commands of the allowlist pass the hook. What is documented of the client is a
    hypothesis: the names of its commands ([named]), and that a pipeline answers
    each command as alone and Exec with the error of the first that fails. *)
From Stdlib Require Import Ascii String.
From S2P Require Import Prelude GoBase GoStrings Event Projection Target.
From S2P Require MemoryTarget.
From S2P Require Import Redis.

Section facts.
Context {U : UnicodeTables} {C : RedisClient}.

Definition verb (c : redis_call) : string :=
  match c with
  | CGet _ => "GET" | CSMembers _ => "SMEMBERS" | CPTTL _ => "PTTL" | CScan _ _ _ => "SCAN" | CInfo => "INFO" | CDBSize => "DBSIZE"
  end.

(** The first argument of a call is its verb, in any case. *)
Definition named : Prop := ∀ c, ∃ args arg, call_args c = arg :: args ∧ strings_ToUpper arg = verb c.

Lemma commandName_call c : named → commandName "" (call_args c) = verb c.
Proof.
  intros Hn. destruct (Hn c) as (args & arg & -> & Hv). unfold commandName. rewrite Hv. by destruct c.
Qed.

Lemma verb_is_read c : IsReadOnlyCommand (verb c) = true.
Proof. by destruct c. Qed.

Lemma check_call t c : named → check t "" (call_args c) = (emit_command t (verb c), None).
Proof. intros Hn. unfold check. by rewrite commandName_call, verb_is_read. Qed.

Lemma ProcessHook_call {A} (c : redis_call) (next : world → world * (redis_error + A)) t :
  named → ProcessHook (call_args c) next t
          = (with_world (emit_command t (verb c)) (next (wd t)).1, (next (wd t)).2).
Proof. intros Hn. unfold ProcessHook. rewrite (check_call t c Hn). cbn. by destruct (next (wd t)). Qed.

Lemma check_all_calls (cs : list redis_call) : named → ∀ t, ∃ t', check_all (call_args <$> cs) t = (t', None)
  ∧ wd t' = wd t ∧ batch t' = batch t ∧ tclosed t' = tclosed t ∧ issued t' = issued t ++ (verb <$> cs).
Proof.
  intros Hn. induction cs as [|c cs IH]; intros t; [exists t; cbn; by rewrite app_nil_r|].
  rewrite !fmap_cons. cbn [check_all].
  rewrite (check_call t c Hn). destruct (IH (emit_command t (verb c))) as (t' & -> & H1 & H2 & H3 & H4).
  exists t'. rewrite H4. cbn. by rewrite <- app_assoc.
Qed.

Lemma ProcessPipelineHook_calls {A} (cs : list redis_call) (next : world → world * (option redis_error * (nat → redis_error + A))) t :
  named → ∃ t', ProcessPipelineHook (call_args <$> cs) next t = (t', (next (wd t)).2)
    ∧ batch t' = batch t ∧ issued t' = issued t ++ (verb <$> cs).
Proof.
  intros Hn. unfold ProcessPipelineHook. destruct (check_all_calls cs Hn t) as (t' & -> & H1 & H2 & H3 & H4).
  rewrite H1. destruct (next (wd t)) as [w r]. by exists (with_world t' w).
Qed.

Lemma check_wd t name args : wd (check t name args).1 = wd t ∧
  (check t name args).2 = if IsReadOnlyCommand (commandName name args) then None else Some (RReadOnlyViolation (commandName name args)).
Proof. done. Qed.

Lemma check_all_refuses cmds args : args ∈ cmds → IsReadOnlyCommand (commandName "" args) = false →
  ∀ t, ∃ t' name, check_all cmds t = (t', Some (RReadOnlyViolation name)) ∧ wd t' = wd t.
Proof.
  intros Hin Hr. induction cmds as [|a cmds IH]; intros t; [by apply elem_of_nil in Hin|].
  cbn [check_all]. pose proof (check_wd t "" a) as [Hw He]. destruct (check t "" a) as [t1 e]. cbn in Hw, He. subst e.
  destruct (IsReadOnlyCommand (commandName "" a)) eqn:Ha; [|by do 2 eexists].
  apply elem_of_cons in Hin as [->|Hin]; [congruence|]. rewrite <- Hw. by apply IH.
Qed.


(** ** Batches *)

Definition first_error {A} (rs : list (redis_error + A)) : option redis_error :=
  head (omap (λ r : redis_error + A, match r with inl err => Some err | inr _ => None end) rs).

(** A server that answers each key the same whenever it is asked. *)
Record steady (gets : string → redis_error + string) (smembers : string → redis_error + list string) : Prop := mk_steady {
  st_get : ∀ w k, (do_get w k).2 = gets k;
  st_smembers : ∀ w k, (do_smembers w k).2 = smembers k;
  st_exec_get : ∀ w ks, (exec_get w ks).2.1 = first_error (gets <$> ks)
    ∧ ∀ i k, ks !! i = Some k → (exec_get w ks).2.2 i = gets k;
  st_exec_smembers : ∀ w ks, (exec_smembers w ks).2.1 = first_error (smembers <$> ks)
    ∧ ∀ i k, ks !! i = Some k → (exec_smembers w ks).2.2 i = smembers k
}.

(** The only errors are answers about the key; SMEMBERS has no nil reply. *)
Definition reachable (gets : string → redis_error + string) (smembers : string → redis_error + list string) : Prop :=
  (∀ k err, gets k = inl err → isNil err || isWrongType err = true)
  ∧ (∀ k err, smembers k = inl err → isWrongType err = true).

(** What a single read of a key gives. *)
Definition answer gets smembers (shape : Shape) (k : string) : redis_error + Value :=
  match shape with ShapeSet => set_reply (smembers k) | _ => string_reply shape (gets k) end.

Lemma Get_answer gets smembers k shape t :
  named → steady gets smembers → tclosed t = false → (Redis_Get k shape t).2 = answer gets smembers shape k.
Proof.
  intros Hn Hs Ho. unfold Redis_Get, opened. rewrite Ho.
  destruct shape; rewrite ProcessHook_call by done; cbn; by rewrite ?(st_get _ _ Hs), ?(st_smembers _ _ Hs).
Qed.

Lemma aborts_answers {A} (rs : list (redis_error + A)) :
  (∀ err, inl err ∈ rs → isNil err || isWrongType err = true) → aborts (first_error rs) = None.
Proof.
  intros Hr. unfold first_error. destruct (omap _ rs) as [|err l] eqn:He; [done|]. cbn.
  rewrite Hr; [done|]. assert (err ∈ err :: l) as Hin by by left. rewrite <- He in Hin.
  apply list_elem_of_omap in Hin as (r & Hr' & Hi). destruct r as [e|]; [|done]. by injection Hi as ->.
Qed.

Lemma imap_answers {A B} (f : nat → B) (g : A → B) (l : list A) :
  (∀ i a, l !! i = Some a → f i = g a) → imap (λ i _, f i) l = g <$> l.
Proof.
  revert f. induction l as [|a l IH]; intros f Hf; [done|]. cbn. f_equal; [by apply (Hf 0%nat)|].
  apply (IH (f ∘ S)). intros i b Hb. by apply (Hf (S i)).
Qed.

Lemma readChunk_answers gets smembers keys shape t :
  named → steady gets smembers → reachable gets smembers →
  ∃ t', readChunk keys shape t = (t', inr ((λ k, redis_read (answer gets smembers shape k)) <$> keys))
    ∧ batch t' = batch t ∧ issued t' = issued t ++ ((λ _, match shape with ShapeSet => "SMEMBERS" | _ => "GET" end) <$> keys).
Proof.
  intros Hn Hs [Hg Hm].
  assert (∀ ks w, aborts (exec_get w ks).2.1 = None) as Ag.
  { intros ks w. rewrite (proj1 (st_exec_get _ _ Hs w ks)). apply aborts_answers. intros err (k & Hk & _)%list_elem_of_fmap.
    by apply (Hg k). }
  assert (∀ ks w, aborts (exec_smembers w ks).2.1 = None) as As.
  { intros ks w. rewrite (proj1 (st_exec_smembers _ _ Hs w ks)). apply aborts_answers.
    intros err (k & Hk & _)%list_elem_of_fmap. rewrite (Hm k err) by done. by rewrite orb_true_r. }
  assert (∀ (f : string → redis_call), (λ k, call_args (f k)) <$> keys = call_args <$> (f <$> keys)) as Hf
    by (intros f; by rewrite <- list_fmap_compose).
  destruct shape; cbn [readChunk answer]; rewrite Hf;
    match goal with |- context [ProcessPipelineHook (call_args <$> ?cs) ?next t] =>
      destruct (ProcessPipelineHook_calls cs next t Hn) as (t' & -> & Hb & Hi) end.
  1: specialize (Ag keys (wd t)); pose proof (proj2 (st_exec_get _ _ Hs (wd t) keys)) as Hr;
     destruct (exec_get (wd t) keys) as [w [err result]].
  3: specialize (Ag keys (wd t)); pose proof (proj2 (st_exec_get _ _ Hs (wd t) keys)) as Hr;
     destruct (exec_get (wd t) keys) as [w [err result]].
  2: specialize (As keys (wd t)); pose proof (proj2 (st_exec_smembers _ _ Hs (wd t) keys)) as Hr;
     destruct (exec_smembers (wd t) keys) as [w [err result]].
  all: exists t'; rewrite Hi, <- list_fmap_compose; cbn in *; rewrite ?Ag, ?As; split; [|done]; do 2 f_equal; apply imap_answers;
    intros i k Hk; rewrite (Hr i k Hk); try done.
  unfold set_read. destruct (smembers k) as [e|] eqn:He; [|done]. apply Hm in He. by destruct e.
Qed.

Lemma read_chunks_answers gets smembers shape :
  named → steady gets smembers → reachable gets smembers →
  ∀ fuel keys out t, 0 < batch t → (length keys ≤ fuel)%nat →
  ∃ t', read_chunks fuel keys shape out t = (t', Some (inr (out ++ ((λ k, redis_read (answer gets smembers shape k)) <$> keys))))
    ∧ issued t' = issued t ++ ((λ _, match shape with ShapeSet => "SMEMBERS" | _ => "GET" end) <$> keys).
Proof.
  intros Hn Hs Hr. induction fuel as [|fuel IH]; intros keys out t Hb Hf.
  - destruct keys; [|cbn in Hf; lia]. exists t. cbn. by rewrite !app_nil_r.
  - destruct keys as [|key keys]; [exists t; cbn; by rewrite !app_nil_r|].
    cbn [read_chunks]. set (n := Z.to_nat (batch t)). set (all := key :: keys) in *.
    destruct (readChunk_answers gets smembers (take n all) shape t Hn Hs Hr) as (t1 & -> & Hb1 & Hi1).
    destruct (IH (drop n all) (out ++ ((λ k, redis_read (answer gets smembers shape k)) <$> take n all)) t1) as (t' & -> & Hi').
    + by rewrite Hb1.
    + rewrite length_drop. subst all. cbn [length] in *. lia.
    + exists t'. rewrite Hi', Hi1, <- !app_assoc, <- !fmap_app, take_drop. done.
Qed.

(** a batch is its keys: whatever size the target cuts its batches to, ReadMany ends and gives for
    each key, in order, what Get gives for that key alone, the keys of an unexpected type among them,
    and issues one command per key, a read. *)
Theorem batch_reads_each_key gets smembers keys shape t :
  named → steady gets smembers → reachable gets smembers → tclosed t = false → 0 < batch t →
  ∃ t', Redis_ReadMany keys shape t = (t', Some (inr ((λ k, redis_read (Redis_Get k shape t).2) <$> keys)))
    ∧ ∃ extra, issued t' = issued t ++ extra ∧ length extra = length keys ∧ Forall (λ c, IsReadOnlyCommand c = true) extra.
Proof.
  intros Hn Hs Hr Ho Hb. unfold Redis_ReadMany. rewrite Ho.
  destruct (read_chunks_answers gets smembers shape Hn Hs Hr (length keys) keys [] t Hb (le_n _)) as (t' & -> & Hi).
  exists t'. split.
  - do 3 f_equal. apply list_fmap_ext. intros i k _. by rewrite (Get_answer gets smembers).
  - eexists. split; [exact Hi|]. split; [by rewrite length_fmap|]. apply Forall_fmap, Forall_true. by destruct shape.
Qed.

(** ** The in-process store *)

Definition wrong_type_reply : string := "WRONGTYPE Operation against a key holding the wrong kind of value".

(** A Redis that holds what the in-process store holds at [now]: the documented replies to GET and
    SMEMBERS, the members in any order. *)
Record serves (now : option Time) (m : MemoryTarget.MemoryTarget)
    (gets : string → redis_error + string) (smembers : string → redis_error + list string) : Prop := mk_serves {
  sv_get : ∀ k, gets k =
    if MemoryTarget.expiredLocked now m k then inl RNil
    else match MemoryTarget.sets m !! k, MemoryTarget.scalars m !! k with
         | Some _, _ => inl (RMessage wrong_type_reply)
         | None, Some s => inr s
         | None, None => inl RNil
         end;
  sv_smembers : ∀ k,
    if MemoryTarget.expiredLocked now m k then smembers k = inr []
    else match MemoryTarget.scalars m !! k, MemoryTarget.sets m !! k with
         | Some _, _ => smembers k = inl (RMessage wrong_type_reply)
         | None, Some set => ∃ l, smembers k = inr l ∧ (list_to_set l : gset string) = set
         | None, None => smembers k = inr []
         end
}.

(** What a Redis can hold: no empty set. *)
Definition storable (m : MemoryTarget.MemoryTarget) : Prop := ∀ k set, MemoryTarget.sets m !! k = Some set → set ≠ ∅.

(** Equal, but for the words an unexpected type is described with. *)
Definition same_outcome (r r' : Read) : Prop :=
  ReadValue r = ReadValue r' ∧ match ReadErr r, ReadErr r' with
                               | None, None => True
                               | Some (WrongTypeError _), Some (WrongTypeError _) => True
                               | _, _ => False
                               end.

Lemma serves_reachable now m gets smembers : serves now m gets smembers → reachable gets smembers.
Proof.
  intros [Hg Hm]. split; intros k err.
  - rewrite Hg. destruct (MemoryTarget.expiredLocked now m k); [by intros [= <-]|].
    destruct (MemoryTarget.sets m !! k), (MemoryTarget.scalars m !! k); intros [= <-]; done.
  - specialize (Hm k). destruct (MemoryTarget.expiredLocked now m k); [by rewrite Hm|].
    destruct (MemoryTarget.scalars m !! k), (MemoryTarget.sets m !! k); try destruct Hm as (l & Hm & _); rewrite Hm; intros [= <-]; done.
Qed.

Lemma memory_outcome now m gets smembers shape k :
  serves now m gets smembers → storable m →
  same_outcome (redis_read (answer gets smembers shape k)) (MemoryTarget.read_of (MemoryTarget.readLocked now m k shape)).
Proof.
  intros [Hg Hm] Hs. specialize (Hg k); specialize (Hm k). unfold MemoryTarget.readLocked, answer.
  destruct (MemoryTarget.expiredLocked now m k).
  { destruct shape; rewrite ?Hg, ?Hm; done. }
  specialize (Hs k).
  destruct (MemoryTarget.scalars m !! k) as [s|], (MemoryTarget.sets m !! k) as [set|]; destruct shape;
    try (rewrite ?Hg, ?Hm; done).
  - rewrite Hg. unfold string_reply. by destruct (ParseInt s).
  - destruct Hm as (l & -> & Hl). rewrite bool_decide_false.
    + unfold set_reply, setValue. destruct l; [|by subst]. by destruct (Hs set).
    + intros He%size_empty_inv. apply (Hs set); [done|]. by apply leibniz_equiv.
Qed.

(** C21: the in-process store is a Redis: a store that is up, with no failures to inject and no empty set,
    reads any batch of keys as a Redis with the same content does under any batch size, the values
    equal and the keys of an unexpected type the same ones. *)
Theorem memory_reads_as_redis `{!MapOrder} now (s : MemoryTarget.store) gets smembers keys shape t :
  named → steady gets smembers → serves now (MemoryTarget.mem s) gets smembers → storable (MemoryTarget.mem s) →
  tclosed t = false → 0 < batch t →
  MemoryTarget.closed (MemoryTarget.mem s) = false → MemoryTarget.failEvery (MemoryTarget.mem s) = 0 →
  ∃ t' s' reads reads', Redis_ReadMany keys shape t = (t', Some (inr reads))
    ∧ MemoryTarget.ReadMany false now keys shape s = (s', Some (inr reads'))
    ∧ MemoryTarget.content (MemoryTarget.mem s') = MemoryTarget.content (MemoryTarget.mem s)
    ∧ Forall2 same_outcome reads reads'.
Proof.
  intros Hn Hs Hv Hne Ho Hb Hc Hf. unfold Redis_ReadMany. rewrite Ho.
  destruct (read_chunks_answers gets smembers shape Hn Hs (serves_reachable _ _ _ _ Hv) (length keys) keys [] t Hb (le_n _)) as (t' & -> & _).
  unfold MemoryTarget.ReadMany, MemoryTarget.begun, MemoryTarget.begin, MemoryTarget.emit, MemoryTarget.observe.
  assert (IsReadOnlyCommand (MemoryTarget.commandFor shape) = true) as -> by by destruct shape.
  cbn [orb negb MemoryTarget.mem]. rewrite Hc, Hf. cbn [Z.ltb andb Z.compare].
  exists t'. do 3 eexists. split_and!; [done|done|done|]. cbn [app].
  apply Forall2_fmap, Forall_Forall2_diag, Forall_true. intros k. apply (memory_outcome now); [|done].
  destruct Hv as [H1 H2]. by split.
Qed.
End facts.
