(* ===== verification/RedisScan.v ===== *)
(** * RedisScan: what a scan of the production store guarantees

    A scan ends whatever the server answers, its memory is bounded, and a scan that
    reports no error gave every key of every reply until the server's cursor came
    back to zero. *)
From Stdlib Require Import Ascii String.
From stdpp Require Import gmap.
From S2P Require Import Prelude GoBase GoStrings Event Target Redis RedisFacts.

Section scan.
Context {U : UnicodeTables} {C : RedisClient}.

(** ** The reference: follow the cursor *)

(** All keys of the replies from [cur] on, until the cursor is zero, within [k] calls. *)
Fixpoint follow (k : nat) (n : node) (pattern : string) (cnt : Z) (w : world) (cur : Z) : option (list string) :=
  match k with
  | 0%nat => None
  | S k =>
      match do_scan n w cur pattern cnt with
      | (w, inr (keys, next)) => if next =? 0 then Some keys else app keys <$> follow k n pattern cnt w next
      | (_, inl _) => None
      end
  end.

(** A consumer: Next until it is false. *)
Fixpoint walk (rounds fuel : nat) (it : redisIterator) (t : RedisTarget) : RedisTarget * list (list string) * (stop + redisIterator) :=
  match rounds with
  | 0%nat => (t, [], inl OutOfFuel)
  | S rounds =>
      match Next fuel it t with
      | (t, inl s) => (t, [], inl s)
      | (t, inr (it, more)) =>
          if more then let '(t, batches, r) := walk rounds fuel it t in (t, icurrent it :: batches, r) else (t, [], inr it)
      end
  end.

(** ** The duplicate filter *)

Definition known (s : option (gset string)) : gset string := default ∅ s.

(** The window after [delivered]: what it holds was given out, it is bounded, and until it is first
    reset it holds all of it. *)
Record window (s : option (gset string)) (windows : Z) (delivered : list string) : Prop := mk_window {
  win_open : is_Some s;
  win_delivered : ∀ x, x ∈ known s → x ∈ delivered;
  win_bound : Z.of_nat (size (known s)) ≤ maxDedupKeys;
  win_count : 0 ≤ windows;
  win_whole : windows = 0 → NoDup delivered ∧ ∀ x, x ∈ delivered → x ∈ known s
}.

Lemma window_new : window (Some ∅) 0 [].
Proof.
  split; [by eexists|unfold known; set_solver| |done|].
  - unfold known. cbn. rewrite size_empty. unfold maxDedupKeys. lia.
  - split; [constructor|by intros x ?%elem_of_nil].
Qed.

Lemma admit_key_window s windows cur del key :
  window s windows (del ++ cur) →
  ∃ s' windows' new, admit_key (s, windows, cur) key = Some (s', windows', cur ++ new)
    ∧ window s' windows' (del ++ cur ++ new) ∧ key ∈ del ++ cur ++ new ∧ (∀ x, x ∈ new → x = key).
Proof.
  intros [[g ->] Hd Hb Hc Hw]. unfold admit_key, known in *. cbn beta iota zeta delta [default from_option id] in *.
  destruct (bool_decide (key ∈ g)) eqn:Hk.
  - apply bool_decide_eq_true in Hk. exists (Some g), windows, []. rewrite !app_nil_r.
    split_and!; [done|by split; [eexists|..]|by apply Hd|by intros x ?%elem_of_nil].
  - apply bool_decide_eq_false in Hk. destruct (Z.leb_spec maxDedupKeys (Z.of_nat (size g))).
    + exists (Some {[key]}), (windows + 1), [key]. split_and!; [done| |set_solver|set_solver]. split; unfold known; cbn.
      * by eexists.
      * set_solver.
      * rewrite size_singleton. unfold maxDedupKeys. lia.
      * lia.
      * lia.
    + exists (Some ({[key]} ∪ g)), windows, [key]. split_and!; [done| |set_solver|set_solver]. split; unfold known; cbn.
      * by eexists.
      * intros x [Hx%elem_of_singleton|Hx]%elem_of_union; [subst; set_solver|]. specialize (Hd x Hx). set_solver.
      * rewrite size_union by set_solver. rewrite size_singleton. lia.
      * done.
      * intros H0. destruct (Hw H0) as [Hn Ha]. rewrite app_assoc. split.
        -- apply NoDup_app. split_and!; [done| |apply NoDup_singleton].
           intros x Hx Hx'%list_elem_of_singleton. subst. by apply Hk, Ha.
        -- intros x [Hx|Hx%list_elem_of_singleton]%elem_of_app; [specialize (Ha x Hx)|subst]; set_solver.
Qed.

Lemma admit_keys_window keys : ∀ s windows cur del,
  window s windows (del ++ cur) →
  ∃ s' windows' new, admit_keys keys (s, windows, cur) = Some (s', windows', cur ++ new)
    ∧ window s' windows' (del ++ cur ++ new) ∧ (∀ x, x ∈ keys → x ∈ del ++ cur ++ new) ∧ (∀ x, x ∈ new → x ∈ keys).
Proof.
  induction keys as [|key keys IH]; intros s windows cur del Hw.
  - exists s, windows, []. cbn. rewrite !app_nil_r. split_and!; [done|done|by intros x ?%elem_of_nil|by intros x ?%elem_of_nil].
  - destruct (admit_key_window s windows cur del key Hw) as (s1 & w1 & n1 & He & Hw1 & Hk1 & Hn1).
    destruct (IH s1 w1 (cur ++ n1) del Hw1) as (s2 & w2 & n2 & He2 & Hw2 & Hk2 & Hn2).
    exists s2, w2, (n1 ++ n2). rewrite <- app_assoc in Hw2, Hk2, He2.
    split_and!; [cbn [admit_keys]; by rewrite He| | |]; rewrite ?app_assoc in *; [done| |].
    + intros x [->|Hx]%elem_of_cons; [|by apply Hk2]. apply elem_of_app. by left.
    + intros x [Hx%Hn1|Hx%Hn2]%elem_of_app; [subst; by left|by right].
Qed.

(** ** Rounds *)

(** The iterator after [delivered]. *)
Record going (it : redisIterator) (delivered : list string) : Prop := mk_going {
  go_window : window (seen it) (dedupWindows it) delivered;
  go_cursors : is_Some (cursors it);
  go_calls : 0 ≤ calls it ≤ maxScanCalls + 1 ∧ (ierr it = None → calls it ≤ maxScanCalls)
}.

Definition finished (it : redisIterator) : bool := started it && (cursor it =? 0).

(** What the server still has to give. *)
Definition rest (k : nat) (it : redisIterator) (w : world) : option (list string) :=
  if finished it then Some [] else follow k (inode it) (ipattern it) (icount it) w (cursor it).

(** From [it] to [it'] the server gave [l]. *)
Definition advanced (it it' : redisIterator) (w w' : world) (l : list string) : Prop :=
  ∃ j, ∀ k r, rest k it' w' = Some r → rest (j + k) it w = Some (l ++ r).

(** What a round of Next, or Next itself, has done when it leaves [it']. *)
Record progress (it it' : redisIterator) (t t' : RedisTarget) (del : list string) : Prop := mk_progress {
  pr_going : going it' (del ++ icurrent it');
  pr_exact : ierr it' = None → ∃ l, advanced it it' (wd t) (wd t') l
    ∧ (∀ x, x ∈ l → x ∈ del ++ icurrent it') ∧ (∀ x, x ∈ icurrent it' → x ∈ l)
}.

Lemma progress_refl it t del : going it del → icurrent it = [] → progress it it t t del.
Proof.
  intros Hg Hc. split; rewrite Hc, app_nil_r; [done|]. intros _. exists []. split_and!.
  - by exists 0%nat.
  - by intros x ?%elem_of_nil.
  - by intros x ?%elem_of_nil.
Qed.

Lemma progress_err it it' t t' del : going it' del → icurrent it' = [] → ierr it' ≠ None → progress it it' t t' del.
Proof. intros Hg Hc He. split; rewrite Hc, ?app_nil_r; done. Qed.

Lemma progress_trans it1 it2 it3 t1 t2 t3 del :
  icurrent it2 = [] → ierr it2 = None → progress it1 it2 t1 t2 del → progress it2 it3 t2 t3 del → progress it1 it3 t1 t3 del.
Proof.
  intros Hc He [Hg1 H1] [Hg2 H2]. split; [done|]. intros He3. destruct (H1 He) as (l1 & (j1 & A1) & D1 & I1).
  destruct (H2 He3) as (l2 & (j2 & A2) & D2 & I2). rewrite Hc, app_nil_r in D1. exists (l1 ++ l2). split_and!.
  - exists (j1 + j2)%nat. intros k r Hr. rewrite <- Nat.add_assoc, <- app_assoc. by apply A1, A2.
  - intros x [Hx|Hx]%elem_of_app; [apply D1 in Hx; apply elem_of_app; by left|by apply D2].
  - intros x Hx. apply elem_of_app. right. by apply I2.
Qed.

Lemma node_call_inr {A} n args (next : world → world * (redis_error + A)) t t' a :
  node_call n args next t = (t', inr a) → next (wd t) = (wd t', inr a).
Proof.
  unfold node_call, ProcessHook, check. destruct (hooked n).
  - destruct (IsReadOnlyCommand _); [|done]. cbn. destruct (next (wd t)) as [w r]. by intros [= <- ->].
  - destruct (next (wd t)) as [w r]. by intros [= <- ->].
Qed.

(** What a round leaves. *)
Definition round_done (it : redisIterator) (t t' : RedisTarget) (del : list string) (r : round) : Prop :=
  match r with
  | Round_panics => False
  | Again it' => progress it it' t t' del ∧ icurrent it' = [] ∧ ierr it' = None ∧ calls it' = calls it + 1 ∧ calls it' ≤ maxScanCalls
  | Returns it' more => progress it it' t t' del
      ∧ (if more then icurrent it' ≠ [] ∧ ierr it' = None ∧ calls it' = calls it + 1 ∧ calls it' ≤ maxScanCalls
         else icurrent it' = [] ∧ (ierr it' = None → finished it' = true))
  end.

Lemma take_reply_done it t t' del keys next :
  going it del → icurrent it = [] → ierr it = None → calls it + 1 ≤ maxScanCalls → finished it = false →
  do_scan (inode it) (wd t) (cursor it) (ipattern it) (icount it) = (wd t', inr (keys, next)) →
  round_done it t t' del (take_reply (with_calls it (calls it + 1)) keys next).
Proof.
  intros [Hw [m Hm] Hc] Hcur He Hlim Hfin Hscan. unfold take_reply, count_cursor.
  destruct it as [n pat cnt cur st current err sn win curs cl]. cbn in *. subst.
  destruct (admit_keys_window keys sn win [] del) as (s' & w' & new & Ha & Hw' & Hk & Hn); [by rewrite app_nil_r|].
  cbn [app] in *.
  assert (∀ curs' , is_Some curs' → progress (mkIterator n pat cnt cur st [] None sn win (Some m) cl)
    (mkIterator n pat cnt next true new None s' w' curs' (cl + 1)) t t' del) as Hp.
  { intros curs' Hc'. split; cbn; [split; cbn; [done|done|lia]|]. intros _. exists keys. split_and!; [|done|done].
    exists 1%nat. intros k r. unfold rest, finished in *. cbn in *. rewrite Hfin, Hscan. destruct (next =? 0).
    - intros [= <-]. by rewrite app_nil_r.
    - by intros ->. }
  destruct (Z.eqb_spec next 0) as [Hz|Hz].
  - cbn. rewrite Ha. subst next. destruct (bool_decide (new = [])) eqn:Hnew; cbn.
    + apply bool_decide_eq_true in Hnew. split; [by apply Hp|]. subst. split; [done|]. by unfold finished.
    + apply bool_decide_eq_false in Hnew. split; [by apply Hp|]. done.
  - cbn. destruct (maxCursorRepeats <? _) eqn:Hr; cbn.
    + split; [|by split]. apply progress_err; [|done|done]. split; cbn; [done|by eexists|lia].
    + rewrite Ha. destruct (bool_decide (new = [])) eqn:Hnew; cbn.
      * apply bool_decide_eq_true in Hnew. subst new. split_and!; [by apply Hp|done|done|done|done].
      * apply bool_decide_eq_false in Hnew. split; [by apply Hp|]. done.
Qed.

Lemma next_round_done it t del t' r :
  going it del → icurrent it = [] → next_round it t = (t', r) → round_done it t t' del r.
Proof.
  intros Hg Hc. unfold next_round. destruct (ierr it) as [err|] eqn:He.
  { intros [= <- <-]. split; [by apply progress_refl|]. split; [done|]. by rewrite He. }
  destruct (ctx_err (wd t)) as [err|].
  { intros [= <- <-]. split; [apply progress_err; [|done|done]|done]. destruct Hg as [G1 G2 G3]. split; cbn; [done|done|]. by split; [lia|]. }
  destruct (started it && (cursor it =? 0)) eqn:Hfin.
  { intros [= <- <-]. split; [by apply progress_refl|done]. }
  destruct Hg as [G1 G2 G3].
  destruct (Z.ltb_spec maxScanCalls (calls (with_calls it (calls it + 1)))) as [Hl|Hl].
  { intros [= <- <-]. split; [apply progress_err; [|done|done]|done]. split; cbn; [done|done|].
    pose proof (proj2 G3 He). cbn in *. split; [lia|done]. }
  destruct (node_call _ _ _ _) as [t1 [err|[keys next]]] eqn:Hn.
  { intros [= <- <-]. split; [apply progress_err; [|done|done]|done]. split; cbn; [done|done|]. cbn in Hl. lia. }
  apply node_call_inr in Hn. intros [= <- <-]. cbn in Hl. by apply take_reply_done.
Qed.

Definition enough (fuel : nat) (it : redisIterator) : Prop := maxScanCalls + 1 - calls it < Z.of_nat fuel.

Lemma next_loop_done fuel : ∀ it t del, going it del → icurrent it = [] → enough fuel it →
  ∃ t' it' more, next_loop fuel it t = (t', inr (it', more)) ∧ progress it it' t t' del
    ∧ (if more then icurrent it' ≠ [] ∧ ierr it' = None ∧ calls it < calls it'
       else icurrent it' = [] ∧ (ierr it' = None → finished it' = true)).
Proof.
  unfold enough. induction fuel as [|fuel IH]; intros it t del Hg Hc Hf.
  { pose proof (proj1 (go_calls _ _ Hg)). lia. }
  cbn [next_loop]. destruct (next_round it t) as [t1 r] eqn:Hr. pose proof (next_round_done _ _ _ _ _ Hg Hc Hr) as Hd.
  destruct r as [it1 more|it1|]; cbn in Hd; [| |done].
  - exists t1, it1, more. destruct Hd as [Hp Hm]. split_and!; [done|done|]. destruct more; [|done].
    destruct Hm as (H1 & H2 & H3 & H4). split_and!; [done|done|lia].
  - destruct Hd as (Hp & H1 & H2 & H3 & H4). pose proof (pr_going _ _ _ _ _ Hp) as Hg1. rewrite H1, app_nil_r in Hg1.
    destruct (IH it1 t1 del Hg1 H1 ltac:(lia)) as (t' & it' & more & -> & Hp' & Hm).
    exists t', it', more. split_and!; [done|by eapply progress_trans|]. destruct more; [|done].
    destruct Hm as (M1 & M2 & M3). split_and!; [done|done|lia].
Qed.

Lemma going_current it del l : going it del → going (with_current it l) del.
Proof. intros [H1 H2 H3]. by split. Qed.

(** What a whole walk has done. *)
Definition walked (it it' : redisIterator) (t t' : RedisTarget) (del keys : list string) : Prop :=
  going it' (del ++ keys)
  ∧ (ierr it' = None → ∃ l k, rest k it (wd t) = Some l ∧ (∀ x, x ∈ l → x ∈ del ++ keys) ∧ (∀ x, x ∈ keys → x ∈ l)).

Lemma walk_done fuel rounds : ∀ it t del, going it del → enough fuel it → enough rounds it →
  ∃ t' batches it', walk rounds fuel it t = (t', batches, inr it') ∧ walked it it' t t' del (List.concat batches)
    ∧ Forall (λ b, b ≠ []) batches.
Proof.
  unfold enough. induction rounds as [|rounds IH]; intros it t del Hg Hf Hr.
  { pose proof (proj1 (go_calls _ _ Hg)). lia. }
  cbn [walk]. unfold Next.
  destruct (next_loop_done fuel (with_current it []) t del (going_current it del [] Hg) eq_refl Hf) as (t1 & it1 & more & -> & [Hp He] & Hm).
  destruct more.
  - destruct Hm as (M1 & M2 & M3). cbn in M3.
    destruct (IH it1 t1 (del ++ icurrent it1) Hp ltac:(lia) ltac:(lia)) as (t' & bs & it' & -> & [Hw1 Hw2] & Hb).
    exists t', (icurrent it1 :: bs), it'. split_and!; [done| |by constructor]. cbn [List.concat]. rewrite <- app_assoc in *.
    split; [done|]. intros Hn. destruct (Hw2 Hn) as (l2 & k & R2 & D2 & I2). destruct (He M2) as (l1 & (j & A) & D1 & I1).
    exists (l1 ++ l2), (j + k)%nat. split_and!.
    + by apply A.
    + intros x [Hx%D1|Hx%D2]%elem_of_app; set_solver.
    + intros x [Hx%I1|Hx%I2]%elem_of_app; set_solver.
  - destruct Hm as [M1 M2]. exists t1, [], it1. split_and!; [done| |done]. rewrite M1 in *. split; [done|].
    intros Hn. destruct (He Hn) as (l & (j & A) & D & I). exists l, (j + 0)%nat. split_and!.
    + rewrite <- (app_nil_r l). apply A. unfold rest. by rewrite (M2 Hn).
    + done.
    + by intros x ?%elem_of_nil.
Qed.

Lemma going_new n pattern cnt : going (new_iterator n pattern cnt) [].
Proof. split; cbn; [apply window_new|by eexists|unfold maxScanCalls; lia]. Qed.

(** C20: a scan that reports no error is complete: whatever the server answers, however it repeats keys
    and hands its cursors back, a walk over a node ends, neither spinning nor panicking, after at most
    a million calls and with at most a hundred thousand keys remembered; and when it ends without an
    error it gave exactly the keys of the replies to the cursors followed from zero until zero came
    back, in batches of which none is empty, and each of them once unless the filter was reset. *)
Theorem scan_ends_and_is_complete n pattern cnt t fuel :
  maxScanCalls + 1 < Z.of_nat fuel →
  ∃ t' batches it, walk fuel fuel (new_iterator n pattern cnt) t = (t', batches, inr it)
    ∧ calls it ≤ maxScanCalls + 1 ∧ Z.of_nat (size (known (seen it))) ≤ maxDedupKeys ∧ Forall (λ b, b ≠ []) batches
    ∧ (ierr it = None → ∃ k all, follow k n pattern cnt (wd t) 0 = Some all ∧ ∀ x, x ∈ List.concat batches ↔ x ∈ all)
    ∧ (dedupWindows it = 0 → NoDup (List.concat batches)).
Proof.
  intros Hf. destruct (walk_done fuel fuel (new_iterator n pattern cnt) t [] (going_new n pattern cnt)) as (t' & bs & it & Hw & [Hg He] & Hb).
  { unfold enough. cbn [calls new_iterator]. lia. } { unfold enough. cbn [calls new_iterator]. lia. }
  exists t', bs, it. destruct Hg as [[W1 W2 W3 W4 W5] G2 [[G3 G4] G5]]. cbn [app] in *. split_and!; try done.
  - intros Hn. destruct (He Hn) as (l & k & R & D & I). exists k, l. split; [done|]. intros x. split; [apply I|apply D].
  - intros H0. apply W5, H0.
Qed.
End scan.
