(* ===== verification/RedisRuns.v ===== *)
(** * RedisRuns: a concrete server

    A client whose server holds three keys and answers its scans from a script: the
    witnesses of the theorems about the production store, and what modelling it
    showed. *)
From Stdlib Require Import Ascii String.
From stdpp Require Import gmap.
From S2P Require Import Prelude GoBase GoStrings GoFormat Event Projection Target.
From S2P Require MemoryTarget.
From S2P Require Import Redis RedisFacts RedisScan.

#[local] Existing Instance caseless.
#[local] Existing Instance ascending_order.

(** "a" holds x, "n" holds 5, "c" is the set of m and o. *)
Definition sample_memory : MemoryTarget.MemoryTarget :=
  MemoryTarget.set_content MemoryTarget.NewMemory (<["a" := "x"]> (<["n" := "5"]> ∅)) {["c" := {["m"; "o"]}]} ∅.

Definition sample_gets (k : string) : redis_error + string :=
  match MemoryTarget.sets sample_memory !! k, MemoryTarget.scalars sample_memory !! k with
  | Some _, _ => inl (RMessage wrong_type_reply)
  | None, Some s => inr s
  | None, None => inl RNil
  end.
Definition sample_smembers (k : string) : redis_error + list string :=
  match MemoryTarget.scalars sample_memory !! k, MemoryTarget.sets sample_memory !! k with
  | Some _, _ => inl (RMessage wrong_type_reply)
  | None, Some set => inr (elements set)
  | None, None => inr []
  end.

Definition exec_of {A} (f : string → redis_error + A) (d : redis_error + A) (ks : list string)
    : option redis_error * (nat → redis_error + A) :=
  (first_error (f <$> ks), λ i, default d (f <$> ks !! i)).

Definition sample_args (c : redis_call) : list string :=
  match c with
  | CGet k => ["get"; k] | CSMembers k => ["smembers"; k] | CPTTL k => ["pttl"; k]
  | CScan cur p n => ["scan"; FormatInt cur; "match"; p; "count"; FormatInt n] | CInfo => ["info"] | CDBSize => ["dbsize"]
  end.

(** The world is the script: the replies to the scans to come. An empty script fails. *)
Definition scripted : RedisClient := {|
  world := list (list string * Z);
  node := unit;
  call_args := sample_args;
  ctx_err := λ _, None;
  do_get := λ w k, (w, sample_gets k);
  do_smembers := λ w k, (w, sample_smembers k);
  exec_get := λ w ks, (w, exec_of sample_gets (inl RNil) ks);
  exec_smembers := λ w ks, (w, exec_of sample_smembers (inl RNil) ks);
  do_pttl := λ w k, (w, inr (-1));
  do_scan := λ _ w _ _ _, match w with r :: w => (w, inr r) | [] => ([], inl (RMessage "EOF")) end;
  do_info := λ w, (w, inr "role:slave");
  do_dbsize := λ w, (w, inr 3);
  do_close := λ w, (w, None);
  standalone := tt;
  hooked := λ _, true;
  is_cluster := false;
  for_each_master := λ w, (w, ([tt], None))
|}.
#[local] Existing Instance scripted.

Lemma scripted_named : named.
Proof. by intros []; do 2 eexists. Qed.

Lemma exec_of_result {A} (f : string → redis_error + A) d ks i k : ks !! i = Some k → (exec_of f d ks).2 i = f k.
Proof. intros Hk. cbn. by rewrite Hk. Qed.

Lemma scripted_steady : steady sample_gets sample_smembers.
Proof. split; try done; intros w ks; (split; [done|]); intros i k; apply exec_of_result. Qed.

Lemma scripted_serves : serves None sample_memory sample_gets sample_smembers.
Proof.
  split; intros k; unfold MemoryTarget.expiredLocked; cbn [MemoryTarget.expiries sample_memory MemoryTarget.set_content];
    rewrite lookup_empty; [done|].
  unfold sample_smembers. destruct (MemoryTarget.scalars sample_memory !! k); [done|].
  destruct (MemoryTarget.sets sample_memory !! k) as [set|]; [|done]. exists (elements set). split; [done|].
  apply leibniz_equiv, list_to_set_elements.
Qed.

(** A scan whose server repeats a key and answers an empty batch half way. *)
Definition script : list (list string * Z) := [(["a"; "n"], 7); ([], 5); (["n"; "c"], 0)].

Definition sample_target (script : list (list string * Z)) (b : Z) : RedisTarget := NewRedisFromClient script b 0.

Lemma batch_reads_each_key_witness :
  let keys := ["a"; "c"; "nope"; "n"] in
  ∃ t', Redis_ReadMany keys ShapeCounter (sample_target [] 3)
        = (t', Some (inr ((λ k, redis_read (Redis_Get k ShapeCounter (sample_target [] 3)).2) <$> keys)))
    ∧ ∃ extra, issued t' = issued (sample_target [] 3) ++ extra ∧ length extra = length keys
        ∧ Forall (λ c, IsReadOnlyCommand c = true) extra.
Proof.
  apply (batch_reads_each_key sample_gets sample_smembers);
    [exact scripted_named|exact scripted_steady|exact (serves_reachable _ _ _ _ scripted_serves)|reflexivity|reflexivity].
Defined.

Lemma memory_reads_as_redis_witness :
  let keys := ["a"; "c"; "nope"; "n"] in
  let s := MemoryTarget.mkStore sample_memory MemoryTarget.Recording in
  ∃ t' s' reads reads', Redis_ReadMany keys ShapeSet (sample_target [] 3) = (t', Some (inr reads))
    ∧ MemoryTarget.ReadMany false None keys ShapeSet s = (s', Some (inr reads'))
    ∧ MemoryTarget.content (MemoryTarget.mem s') = MemoryTarget.content (MemoryTarget.mem s)
    ∧ Forall2 same_outcome reads reads'.
Proof.
  apply (memory_reads_as_redis None _ sample_gets sample_smembers);
    [exact scripted_named|exact scripted_steady|exact scripted_serves| |reflexivity|reflexivity|reflexivity|reflexivity].
  intros k set Hk. cbn in Hk. apply lookup_singleton_Some in Hk as [_ <-]. discriminate.
Defined.


Example scripted_walk :
  let '(t, batches, r) := walk 10 10 (@new_iterator scripted tt "*" 10) (sample_target script 0) in
  batches = [["a"; "n"]; ["c"]] ∧ issued t = ["SCAN"; "SCAN"; "SCAN"]
  ∧ match r with inr it => ierr it = None | inl _ => False end.
Proof. by vm_compute. Qed.

(** A server that goes round is left after the fourth time a cursor comes back. *)
Example round_and_round :
  let '(t, batches, r) := walk 10 10 (@new_iterator scripted tt "*" 10) (sample_target [(["a"], 7); (["a"], 7); ([], 7); ([], 7); ([], 7)] 0) in
  batches = [["a"]] ∧ length (issued t) = 4%nat ∧ match r with inr it => ierr it = Some RScanRestarted | inl _ => False end.
Proof. by vm_compute. Qed.

Lemma scan_ends_and_is_complete_witness :
  let fuel := Z.to_nat (maxScanCalls + 2) in
  ∃ t' batches it, walk fuel fuel (@new_iterator scripted tt "*" 10) (sample_target script 0) = (t', batches, inr it)
    ∧ calls it ≤ maxScanCalls + 1 ∧ Z.of_nat (size (known (seen it))) ≤ maxDedupKeys ∧ Forall (λ b, b ≠ []) batches
    ∧ (ierr it = None → ∃ k all, @follow scripted k tt "*" 10 script 0 = Some all ∧ ∀ x, x ∈ List.concat batches ↔ x ∈ all)
    ∧ (dedupWindows it = 0 → NoDup (List.concat batches)).
Proof.
  apply (@scan_ends_and_is_complete _ scripted tt "*" 10 (sample_target script 0)). rewrite Z2Nat.id by (unfold maxScanCalls; lia). lia.
Defined.

(** Next on a closed iterator writes to a nil map. *)
Example closed_iterator_panics :
  (Next 2 (iterator_Close (@new_iterator scripted tt "*" 10)) (sample_target script 0)).2 = inl Panics.
Proof. by vm_compute. Qed.

(** ** A connection lost in a pipeline *)

(** The first command found no key, the second was never answered: Exec says nil. *)
Definition dropped (ks : list string) : option redis_error * (nat → redis_error + string) :=
  (Some RNil, λ i, match i with 0%nat => inl RNil | _ => inl (RMessage "EOF") end).

Definition dropping : RedisClient := {|
  world := unit; node := unit; call_args := sample_args; ctx_err := λ _, None;
  do_get := λ w _, (w, inl (RMessage "EOF")); do_smembers := λ w _, (w, inl (RMessage "EOF"));
  exec_get := λ w ks, (w, dropped ks); exec_smembers := λ w _, (w, (Some (RMessage "EOF"), λ _, inl (RMessage "EOF")));
  do_pttl := λ w _, (w, inl (RMessage "EOF")); do_scan := λ _ w _ _ _, (w, inl (RMessage "EOF"));
  do_info := λ w, (w, inl (RMessage "EOF")); do_dbsize := λ w, (w, inl (RMessage "EOF")); do_close := λ w, (w, None);
  standalone := tt; hooked := λ _, true; is_cluster := false; for_each_master := λ w, (w, ([], None))
|}.

(** The batch is not abandoned: the key that was never read is a read with an error, and absent in GetMany. *)
Example transport_failure_is_a_read :
  (@Redis_ReadMany _ dropping ["gone"; "a"] ShapeScalar (@NewRedisFromClient dropping tt 0 0)).2
    = Some (inr [mkRead absent None; mkRead absent (Some TransportError)])
  ∧ (@Redis_GetMany _ dropping ["gone"; "a"] ShapeScalar (@NewRedisFromClient dropping tt 0 0)).2
    = Some (inr [absent; absent]).
Proof. by vm_compute. Qed.

(** The replica role of a store is not one of the documented two. *)
Example replica_says_slave :
  match (Redis_Health (sample_target [] 0)).2 with inr h => Role h = "slave" ∧ KeyspaceSize h = 3 | inl _ => False end.
Proof. by vm_compute. Qed.

(** A lag of seconds is multiplied without a check. *)
Example lag_wraps_around :
  ReplicationLagMs (parseInfo "master_last_io_seconds_ago:18446744073709552" (mkHealth true 0 0 0 0 0 "" 0 "")) = 384.
Proof. by vm_compute. Qed.
