(* ===== verification/Clock.v ===== *)
(** * Clock: the manually advanced clock (pkg/clock/clock.go)

    Timers, tickers and goroutines parked in BlockUntil, and Advance, which fires
    what is due in order. A timer or ticker is an object that outlives its place in
    the map of waiters, so the objects and the registered ids are kept apart; a
    channel holds one value or none. The real clock is the time package's. *)
From stdpp Require Import gmap.
From S2P Require Import Prelude GoBase.

Record fakeWaiter := mkWaiter { deadline : Time; period : Duration; ch : option Time }.
Record blocker := mkBlocker { bn : Z; bch : Z }.

(** [objects] are the waiters ever made, [waiters] the registered ones, [woken] the
    channels of BlockUntil that were closed. *)
Record fakeClock := mkClock {
  now : Time;
  nextID : Z;
  objects : gmap Z fakeWaiter;
  waiters : gset Z;
  blockers : list blocker;
  woken : list Z
}.

Definition Fake (start : Time) : fakeClock := mkClock start 0 ∅ ∅ [] [].

Definition Since (c : fakeClock) (t : Time) : Duration := time_Sub (now c) t.

Definition set_now (c : fakeClock) (t : Time) : fakeClock :=
  mkClock t (nextID c) (objects c) (waiters c) (blockers c) (woken c).
Definition set_waiters (c : fakeClock) (o : gmap Z fakeWaiter) (w : gset Z) : fakeClock :=
  mkClock (now c) (nextID c) o w (blockers c) (woken c).

Definition pending (c : fakeClock) : Z := Z.of_nat (size (waiters c)).

Definition checkBlockersLocked (c : fakeClock) : fakeClock :=
  mkClock (now c) (nextID c) (objects c) (waiters c)
    (List.filter (λ b, negb (bn b <=? pending c)) (blockers c))
    (woken c ++ (bch <$> List.filter (λ b, bn b <=? pending c) (blockers c))).

Definition registerLocked (c : fakeClock) (d period : Duration) : fakeClock * Z :=
  let d := if d <? 0 then 0 else d in
  let id := u64 (nextID c + 1) in
  let c := mkClock (now c) id (<[id := mkWaiter (time_Add (now c) d) period None]> (objects c)) ({[id]} ∪ waiters c)
             (blockers c) (woken c) in
  (checkBlockersLocked c, id).

(** [None] is the panic of an interval that is not positive. *)
Definition NewTicker (c : fakeClock) (d : Duration) : option (fakeClock * Z) :=
  if d <=? 0 then None else Some (registerLocked c d d).

Definition NewTimer (c : fakeClock) (d : Duration) : fakeClock * Z := registerLocked c d 0.

(** stop: the waiter's channel keeps what it holds. *)
Definition stop (c : fakeClock) (id : Z) : fakeClock * bool :=
  if bool_decide (id ∈ waiters c)
  then (checkBlockersLocked (set_waiters c (objects c) (waiters c ∖ {[id]})), true)
  else (c, false).

Definition reset (c : fakeClock) (id : Z) (d period : Duration) : fakeClock * bool :=
  let active := bool_decide (id ∈ waiters c) in
  let d := if d <? 0 then 0 else d in
  let w := mkWaiter (time_Add (now c) d) period (objects c !! id ≫= ch) in
  (checkBlockersLocked (set_waiters c (<[id := w]> (objects c)) ({[id]} ∪ waiters c)), active).

Definition Ticker_Stop (c : fakeClock) (id : Z) : fakeClock := (stop c id).1.
Definition Ticker_Reset (c : fakeClock) (id : Z) (d : Duration) : option fakeClock :=
  if d <=? 0 then None else Some (reset c id d d).1.
Definition Timer_Stop : fakeClock → Z → fakeClock * bool := stop.
Definition Timer_Reset (c : fakeClock) (id : Z) (d : Duration) : fakeClock * bool := reset c id d 0.

(** A receive from the waiter's channel. *)
Definition receive (c : fakeClock) (id : Z) : fakeClock * option Time :=
  match objects c !! id with
  | Some w => (set_waiters c (<[id := mkWaiter (deadline w) (period w) None]> (objects c)) (waiters c), ch w)
  | None => (c, None)
  end.

(** Sleep up to its select: [inl] has returned, with the error of a context that is done. *)
Definition Sleep (canceled : bool) (c : fakeClock) (d : Duration) : fakeClock * (bool + Z) :=
  if canceled then (c, inl false)
  else if d <=? 0 then (c, inl true)
  else let '(c, id) := NewTimer c d in (c, inr id).

(** What its deferred Stop does when the select is over. *)
Definition Sleep_return (c : fakeClock) (id : Z) : fakeClock := (stop c id).1.

(** [true] has returned; otherwise the goroutine is parked on the channel [chan]. *)
Definition BlockUntil (c : fakeClock) (chan n : Z) : fakeClock * bool :=
  if n <=? pending c then (c, true)
  else (mkClock (now c) (nextID c) (objects c) (waiters c) (blockers c ++ [mkBlocker n chan]) (woken c), false).

(** ** Advance *)

(** The comparison of the loop of earliestDueLocked. *)
Definition better (w best : Z * fakeWaiter) : bool :=
  Before (deadline w.2) (deadline best.2) || ((deadline w.2 =? deadline best.2) && (w.1 <? best.1)).

Definition due_step (target : Time) (best : option (Z * fakeWaiter)) (w : Z * fakeWaiter) : option (Z * fakeWaiter) :=
  if After (deadline w.2) target then best
  else match best with None => Some w | Some b => if better w b then Some w else best end.

(** The registered waiters, in the order the map is visited in. *)
Definition listed `{MapOrder} (c : fakeClock) : list (Z * fakeWaiter) :=
  omap (λ id, (id,.) <$> objects c !! id) (range_set (waiters c)).

Definition earliestDueLocked `{MapOrder} (c : fakeClock) (target : Time) : option (Z * fakeWaiter) :=
  foldl (due_step target) None (listed c).

(** Firing one waiter: a tick that finds the last one undelivered is dropped. *)
Definition fire (c : fakeClock) (id : Z) (w : fakeWaiter) : fakeClock :=
  let at_ := deadline w in
  let sent := match ch w with None => Some at_ | Some t => Some t end in
  let c := set_now c at_ in
  if 0 <? period w
  then set_waiters c (<[id := mkWaiter (time_Add at_ (period w)) (period w) sent]> (objects c)) (waiters c)
  else set_waiters c (<[id := mkWaiter at_ (period w) sent]> (objects c)) (waiters c ∖ {[id]}).

(** [None] is a loop that needs more than [fuel] rounds. *)
Fixpoint advance_loop `{MapOrder} (fuel : nat) (target : Time) (c : fakeClock) : option fakeClock :=
  match earliestDueLocked c target with
  | None => Some c
  | Some (id, w) =>
      match fuel with
      | 0%nat => None
      | S fuel => advance_loop fuel target (fire c id w)
      end
  end.

Inductive advance_result := Advance_panics | Advance_spins | Advanced (c : fakeClock).

Definition Advance `{MapOrder} (fuel : nat) (c : fakeClock) (d : Duration) : advance_result :=
  if d <? 0 then Advance_panics
  else
    let target := time_Add (now c) d in
    match advance_loop fuel target c with
    | None => Advance_spins
    | Some c => Advanced (checkBlockersLocked (set_now c target))
    end.

(** ** What the fake clock guarantees

    Advance ends, one advance does what any split of it does, whatever order the
    map of waiters is visited in, and every tick carries its scheduled time. *)

(** ** The earliest waiter *)

Definition due (target : Time) (w : Z * fakeWaiter) : Prop := deadline w.2 ≤ target.

(** [b] is due first, by deadline and then by registration. *)
Definition not_after (b w : Z * fakeWaiter) : Prop :=
  deadline b.2 < deadline w.2 ∨ deadline b.2 = deadline w.2 ∧ b.1 ≤ w.1.

Lemma better_spec w b : if better w b then not_after w b else not_after b w.
Proof. unfold better, not_after, Before. case_bool. Qed.

Definition candidate (target : Time) (acc : option (Z * fakeWaiter)) (l : list (Z * fakeWaiter)) (w : Z * fakeWaiter) : Prop :=
  acc = Some w ∨ w ∈ l ∧ due target w.

Lemma due_fold target l : ∀ acc,
  match foldl (due_step target) acc l with
  | None => acc = None ∧ ∀ w, w ∈ l → ¬ due target w
  | Some b => candidate target acc l b ∧ ∀ w, candidate target acc l w → not_after b w
  end.
Proof.
  induction l as [|x l IH]; intros acc.
  - cbn. destruct acc as [b|].
    + split; [by left|]. intros w [[= ->]|[?%elem_of_nil _]]; [right; lia|done].
    + split; [done|]. by intros w ?%elem_of_nil.
  - cbn [foldl]. specialize (IH (due_step target acc x)).
    destruct (foldl (due_step target) (due_step target acc x) l) as [b|].
    + destruct IH as [Hc Hm]. unfold due_step, After in *. unfold candidate, due in *.
      destruct (Z.ltb_spec target (deadline x.2)).
      * split; [set_solver|]. intros w [Ha|[[->|Hw]%elem_of_cons Hd]]; [apply Hm; by left|lia|apply Hm; by right].
      * destruct acc as [a|].
        -- pose proof (better_spec x a) as Hb. destruct (better x a).
           ++ assert (not_after b x) as Hbx by (apply Hm; by left). split; [set_solver|].
              intros w [[= <-]|[[->|Hw]%elem_of_cons Hd]]; [|done|apply Hm; by right]. unfold not_after in *. lia.
           ++ assert (not_after b a) as Hba by (apply Hm; by left). split; [set_solver|].
              intros w [[= <-]|[[->|Hw]%elem_of_cons Hd]]; [done| |apply Hm; by right]. unfold not_after in *. lia.
        -- split; [set_solver|]. intros w [?|[[->|Hw]%elem_of_cons Hd]]; [done|apply Hm; by left|apply Hm; by right].
    + destruct IH as [Hc Hm]. unfold due_step, After, due in *.
      destruct (Z.ltb_spec target (deadline x.2)); [|by destruct acc; [case_match|]].
      split; [done|]. intros w [->|Hw]%elem_of_cons; [lia|by apply Hm].
Qed.

Definition registered (c : fakeClock) (id : Z) (w : fakeWaiter) : Prop := id ∈ waiters c ∧ objects c !! id = Some w.

Lemma elem_of_listed `{MapOrder} c id w : (id, w) ∈ listed c ↔ registered c id w.
Proof.
  unfold listed, registered. rewrite list_elem_of_omap. split.
  - intros (i & Hi & Hw). apply elem_of_range_set in Hi. destruct (objects c !! i) eqn:Ho; [|done]. by injection Hw as -> ->.
  - intros [Hi Ho]. exists id. rewrite Ho. split; [by apply elem_of_range_set|done].
Qed.

(** The first due waiter of a clock, if any. *)
Definition first_due (c : fakeClock) (target : Time) (o : option (Z * fakeWaiter)) : Prop :=
  match o with
  | None => ∀ id w, registered c id w → target < deadline w
  | Some (id, w) => registered c id w ∧ deadline w ≤ target
      ∧ ∀ id' w', registered c id' w' → deadline w' ≤ target → not_after (id, w) (id', w')
  end.

Lemma earliest_first `{MapOrder} c target : first_due c target (earliestDueLocked c target).
Proof.
  unfold earliestDueLocked. pose proof (due_fold target (listed c) None) as Hf.
  destruct (foldl _ None (listed c)) as [[id w]|].
  - destruct Hf as [[?|[Hin Hd]] Hm]; [done|]. split_and!; [by apply elem_of_listed|done|].
    intros id' w' Hr Hd'. apply Hm. right. by rewrite elem_of_listed.
  - intros id w Hr. destruct Hf as [_ Hf]. specialize (Hf (id, w)). rewrite elem_of_listed in Hf.
    specialize (Hf Hr). unfold due in Hf. cbn in Hf. lia.
Qed.

Lemma first_due_unique c target o o' : first_due c target o → first_due c target o' → o = o'.
Proof.
  destruct o as [[i w]|], o' as [[i' w']|]; cbn; [| | |done].
  - intros (R & D & M) (R' & D' & M'). specialize (M _ _ R' D'). specialize (M' _ _ R D). unfold not_after in *. cbn in *.
    assert (i = i') as <- by lia. destruct R as [_ R], R' as [_ R']. congruence.
  - intros (R & D & _) M. specialize (M _ _ R). lia.
  - intros M (R & D & _). specialize (M _ _ R). lia.
Qed.

Lemma earliest_unique `{MapOrder} c target o : first_due c target o → earliestDueLocked c target = o.
Proof. intros Ho. exact (first_due_unique _ _ _ _ (earliest_first c target) Ho). Qed.

(** ** The loop *)

(** How often a waiter fires up to [target]. *)
Definition rounds (target : Time) (o : option fakeWaiter) : nat :=
  match o with
  | None => 0
  | Some w => if target <? deadline w then 0
              else if 0 <? period w then Z.to_nat ((target - deadline w) / period w + 1) else 1
  end.

Definition meas (target : Time) (o : gmap Z fakeWaiter) (ws : gset Z) : nat :=
  sum_list_with (λ id, rounds target (o !! id)) (elements ws).

Lemma meas_split target o ws id : id ∈ ws → meas target o ws = (rounds target (o !! id) + meas target o (ws ∖ {[id]}))%nat.
Proof.
  intros Hi. unfold meas. rewrite (union_difference_L {[id]} ws) at 1 by set_solver.
  rewrite elements_union_singleton by set_solver. done.
Qed.

Lemma meas_insert target o ws id w : id ∉ ws → meas target (<[id := w]> o) ws = meas target o ws.
Proof.
  intros Hi. unfold meas. assert (∀ x, x ∈ elements ws → x ≠ id) as Hne by set_solver.
  induction (elements ws) as [|x l IH]; [done|]. cbn. rewrite lookup_insert_ne by (symmetry; apply Hne; by left).
  f_equal. apply IH. intros y Hy. apply Hne. by right.
Qed.

Lemma rounds_tick target at_ p sent : at_ ≤ target → 0 < p →
  (S (rounds target (Some (mkWaiter (time_Add at_ p) p sent))) = rounds target (Some (mkWaiter at_ p sent)))%nat.
Proof.
  intros Ha Hp. unfold rounds, time_Add. cbn. assert ((0 <? p) = true) as -> by lia.
  assert ((target <? at_) = false) as -> by lia. destruct (Z.ltb_spec target (at_ + p)) as [Hl|Hl].
  - rewrite Z.div_small by lia. done.
  - replace (target - at_) with (target - (at_ + p) + 1 * p) by lia. rewrite Z.div_add by lia.
    assert (0 ≤ (target - (at_ + p)) / p) by (apply Z.div_pos; lia). lia.
Qed.

Definition to_fire (target : Time) (c : fakeClock) : nat := meas target (objects c) (waiters c).

Lemma fire_once target c id w : registered c id w → deadline w ≤ target → (S (to_fire target (fire c id w)) = to_fire target c)%nat.
Proof.
  intros [Hi Ho] Hd. unfold to_fire. rewrite (meas_split target (objects c) (waiters c) id Hi), Ho.
  unfold fire. destruct (Z.ltb_spec 0 (period w)); cbn [set_waiters set_now objects waiters].
  - rewrite (meas_split _ _ _ id Hi), lookup_insert_eq, meas_insert by set_solver.
    rewrite <- Nat.add_succ_l, rounds_tick by done. by destruct w.
  - rewrite meas_insert by set_solver. unfold rounds. assert ((target <? deadline w) = false) as -> by lia.
    assert ((0 <? period w) = false) as -> by lia. done.
Qed.

Lemma advance_loop_ends `{MapOrder} target : ∀ fuel c, (to_fire target c ≤ fuel)%nat →
  ∃ c', advance_loop fuel target c = Some c' ∧ first_due c' target None.
Proof.
  induction fuel as [|fuel IH]; intros c Hf; cbn [advance_loop]; pose proof (earliest_first c target) as He;
    destruct (earliestDueLocked c target) as [[id w]|]; try by (eexists; split; [done|]).
  - destruct He as (R & D & _). pose proof (fire_once target c id w R D). lia.
  - destruct He as (R & D & _). apply IH. pose proof (fire_once target c id w R D). lia.
Qed.

(** Neither the order of the map nor spare fuel matters. *)
Lemma advance_loop_any (O O' : MapOrder) target : ∀ f c c' f',
  @advance_loop O f target c = Some c' → (f ≤ f')%nat → @advance_loop O' f' target c = Some c'.
Proof.
  induction f as [|f IH]; intros c c' f' Hl Hf; cbn [advance_loop] in *;
    pose proof (@earliest_first O c target) as He; destruct (@earliestDueLocked O c target) as [[id w]|] eqn:E; try done.
  - injection Hl as <-. destruct f'; cbn [advance_loop]; by rewrite (earliest_unique c target _ He).
  - destruct f' as [|f']; [lia|]. cbn [advance_loop]. rewrite (earliest_unique c target _ He). apply IH; [done|lia].
  - injection Hl as <-. destruct f'; cbn [advance_loop]; by rewrite (earliest_unique c target _ He).
Qed.

Lemma advance_loop_app (O : MapOrder) t1 t2 f2 c2 : t1 ≤ t2 → ∀ f1 c c1,
  advance_loop f1 t1 c = Some c1 → advance_loop f2 t2 c1 = Some c2 → advance_loop (f1 + f2) t2 c = Some c2.
Proof.
  intros Ht. induction f1 as [|f1 IH]; intros c c1 H1 H2; cbn [advance_loop] in H1;
    pose proof (earliest_first c t1) as He; destruct (earliestDueLocked c t1) as [[id w]|] eqn:E; try done.
  - injection H1 as <-. done.
  - cbn [Nat.add advance_loop]. rewrite (earliest_unique c t2 (Some (id, w))).
    + by apply (IH (fire c id w) c1).
    + destruct He as (R & D & M). split_and!; [done|lia|]. intros id' w' R' D'.
      destruct (Z.le_gt_cases (deadline w') t1); [by apply M|]. left. cbn. lia.
  - injection H1 as <-. apply (advance_loop_any O O _ f2); [done|lia].
Qed.

Lemma advance_loop_now `{MapOrder} target x : ∀ fuel c c',
  advance_loop fuel target c = Some c' → ∃ x', advance_loop fuel target (set_now c x) = Some (set_now c' x').
Proof.
  intros fuel c c' Hl. destruct fuel; cbn [advance_loop] in *;
    change (earliestDueLocked (set_now c x) target) with (earliestDueLocked c target);
    destruct (earliestDueLocked c target) as [[id w]|]; try (injection Hl as <-; by exists x); [done|].
  exists (now c'). replace (set_now c' (now c')) with c' by by destruct c'. exact Hl.
Qed.

(** ** Goroutines parked in BlockUntil *)

(** Every parked goroutine waits for more waiters than there are. *)
Definition parked (c : fakeClock) : Prop := Forall (λ b, pending c < bn b) (blockers c).

Lemma checkBlockers_parked c : parked (checkBlockersLocked c).
Proof.
  unfold parked, pending, checkBlockersLocked. cbn. apply Forall_forall. intros b [_ Hb]%list_elem_of_In%filter_In.
  unfold pending in Hb. zbool. lia.
Qed.

Lemma checkBlockers_id c : parked c → checkBlockersLocked c = c.
Proof.
  intros Hp. unfold checkBlockersLocked. destruct c as [n i o ws bs wk]; unfold parked, pending in *; cbn in *.
  assert (List.filter (λ b, negb (bn b <=? Z.of_nat (size ws))) bs = bs ∧ List.filter (λ b, bn b <=? Z.of_nat (size ws)) bs = []) as [-> ->].
  { induction Hp as [|b bs Hb _ [IH1 IH2]]; [done|]. cbn. destruct (Z.leb_spec (bn b) (Z.of_nat (size ws))); [lia|]. cbn. by rewrite IH1, IH2. }
  by rewrite app_nil_r.
Qed.

Lemma parked_waiters c c' : waiters c' ⊆ waiters c → blockers c' = blockers c → parked c → parked c'.
Proof.
  unfold parked, pending. intros Hw -> Hp. eapply Forall_impl; [exact Hp|]. cbn. intros b Hb. pose proof (subseteq_size _ _ Hw). lia.
Qed.

Lemma fire_waiters c id w : waiters (fire c id w) ⊆ waiters c ∧ blockers (fire c id w) = blockers c.
Proof. unfold fire. case_bool; cbn; (split; [set_solver|done]). Qed.

Lemma advance_loop_parked `{MapOrder} target : ∀ fuel c c', advance_loop fuel target c = Some c' → parked c → parked c'.
Proof.
  induction fuel as [|fuel IH]; intros c c' Hl Hp; cbn [advance_loop] in Hl; destruct (earliestDueLocked c target) as [[id w]|];
    try done; try (by injection Hl as <-).
  apply (IH _ _ Hl). destruct (fire_waiters c id w) as [H1 H2]. by apply (parked_waiters c).
Qed.

Inductive clock_step `{MapOrder} (c : fakeClock) : fakeClock → Prop :=
  | step_NewTimer d : clock_step c (NewTimer c d).1
  | step_NewTicker d c' id : NewTicker c d = Some (c', id) → clock_step c c'
  | step_stop id : clock_step c (stop c id).1
  | step_Timer_Reset id d : clock_step c (Timer_Reset c id d).1
  | step_Ticker_Reset id d c' : Ticker_Reset c id d = Some c' → clock_step c c'
  | step_receive id : clock_step c (receive c id).1
  | step_Sleep canceled d : clock_step c (Sleep canceled c d).1
  | step_BlockUntil chan n : clock_step c (BlockUntil c chan n).1
  | step_Advance fuel d c' : Advance fuel c d = Advanced c' → clock_step c c'.

Lemma clock_step_parked `{MapOrder} c c' : clock_step c c' → parked c → parked c'.
Proof.
  intros Hs Hp. destruct Hs as [d|d c' id Hn|id|id d|id d c' Hn|id|canceled d|chan n|fuel d c' Ha].
  - apply checkBlockers_parked.
  - unfold NewTicker in Hn. destruct (d <=? 0); [done|]. injection Hn as <- _. apply checkBlockers_parked.
  - unfold stop. case_bool_decide; [apply checkBlockers_parked|done].
  - apply checkBlockers_parked.
  - unfold Ticker_Reset in Hn. destruct (d <=? 0); [done|]. injection Hn as <-. apply checkBlockers_parked.
  - unfold receive. by destruct (objects c !! id).
  - unfold Sleep. destruct canceled; [done|]. destruct (d <=? 0); [done|]. apply checkBlockers_parked.
  - unfold BlockUntil. destruct (Z.leb_spec n (pending c)); [done|]. unfold parked, pending in *. cbn.
    apply Forall_app. split; [done|]. by constructor.
  - unfold Advance in Ha. destruct (d <? 0); [done|]. destruct (advance_loop _ _ _); [|done]. injection Ha as <-.
    apply checkBlockers_parked.
Qed.

Lemma reached_parked `{MapOrder} start c : rtc clock_step (Fake start) c → parked c.
Proof.
  intros Hr. assert (parked (Fake start)) as Hp by constructor. revert Hp.
  induction Hr as [|c1 c2 c3 Hs _ IH]; [done|]. intros Hp. by apply IH, (clock_step_parked c1).
Qed.

(** ** Advances *)

(** one large advance is any split of it: in every state a test brings the clock to, an advance
    ends, and advancing by two durations leaves exactly the clock that advancing by their sum leaves,
    the ticks in the channels, the next deadlines and the parked goroutines included, whatever order
    the map of waiters is visited in each time. *)
Theorem advance_is_additive (O : MapOrder) start c d1 d2 :
  rtc clock_step (Fake start) c → 0 ≤ d1 → 0 ≤ d2 →
  ∃ n, ∀ O1 O2 O3 fuel, (n ≤ fuel)%nat →
    ∃ c1 c2, @Advance O1 fuel c d1 = Advanced c1 ∧ @Advance O2 fuel c1 d2 = Advanced c2
      ∧ @Advance O3 fuel c (d1 + d2) = Advanced c2.
Proof.
  intros Hr H1 H2. pose proof (reached_parked _ _ Hr) as Hp. unfold Advance.
  assert ((d1 <? 0) = false) as -> by lia. assert ((d2 <? 0) = false) as -> by lia. assert ((d1 + d2 <? 0) = false) as -> by lia.
  set (t1 := time_Add (now c) d1). set (t2 := time_Add (now c) (d1 + d2)).
  destruct (@advance_loop_ends O t1 _ c (le_n _)) as (e1 & L1 & _).
  destruct (@advance_loop_ends O t2 _ e1 (le_n _)) as (e2 & L2 & _).
  set (f1 := to_fire t1 c) in *. set (f2 := to_fire t2 e1) in *. exists (f1 + f2)%nat. intros O1 O2 O3 fuel Hf.
  assert (t1 ≤ t2) as Ht by (unfold t1, t2, time_Add; lia).
  assert (parked (set_now e1 t1)) as Hp1 by exact (advance_loop_parked _ _ _ _ L1 Hp).
  assert (parked (set_now e2 t2)) as Hp2 by exact (advance_loop_parked _ _ _ _ L2 (advance_loop_parked _ _ _ _ L1 Hp)).
  destruct (advance_loop_now t2 t1 f2 e1 e2 L2) as [x L2'].
  exists (set_now e1 t1), (set_now e2 t2).
  rewrite (advance_loop_any O O1 t1 f1 c e1 fuel L1) by lia. rewrite (checkBlockers_id _ Hp1).
  replace (time_Add (now (set_now e1 t1)) d2) with t2 by (unfold t1, t2, time_Add; cbn; lia).
  rewrite (advance_loop_any O O2 t2 f2 _ _ fuel L2') by lia.
  rewrite (advance_loop_any O O3 t2 (f1 + f2) c e2 fuel (advance_loop_app O t1 t2 f2 e2 Ht f1 c e1 L1 L2) Hf).
  change (set_now (set_now e2 x) t2) with (set_now e2 t2). by rewrite (checkBlockers_id _ Hp2).
Qed.

(** What is to become of a waiter when the clock is moved to [target]: its channel has the first tick
    due, a ticker keeps to its schedule and a timer leaves the map. *)
Definition on_schedule (target : Time) (w : fakeWaiter) (c : fakeClock) (id : Z) : Prop :=
  let sent := Some (default (deadline w) (ch w)) in
  if target <? deadline w then registered c id w
  else if 0 <? period w then
    registered c id (mkWaiter (deadline w + ((target - deadline w) / period w + 1) * period w) (period w) sent)
  else (id ∉ waiters c) ∧ objects c !! id = Some (mkWaiter (deadline w) (period w) sent).

Lemma loop_keeps_unregistered `{MapOrder} target id : ∀ fuel c c', advance_loop fuel target c = Some c' →
  id ∉ waiters c → (id ∉ waiters c') ∧ objects c' !! id = objects c !! id.
Proof.
  induction fuel as [|fuel IH]; intros c c' Hl Hi; cbn [advance_loop] in Hl; pose proof (earliest_first c target) as He;
    destruct (earliestDueLocked c target) as [[i w]|]; try done; try by injection Hl as <-.
  destruct He as ([Hr _] & _). assert (id ≠ i) as Hne by (intros ->; done).
  destruct (IH _ _ Hl) as [H1 H2].
  - destruct (fire_waiters c i w) as [Hs _]. set_solver.
  - split; [done|]. rewrite H2. unfold fire. case_bool; cbn; by rewrite lookup_insert_ne.
Qed.

Lemma fire_sent w : match ch w with None => Some (deadline w) | Some t => Some t end = Some (default (deadline w) (ch w)).
Proof. by destruct (ch w). Qed.

Lemma fire_ticker c id w : id ∈ waiters c → 0 < period w →
  registered (fire c id w) id (mkWaiter (deadline w + period w) (period w) (Some (default (deadline w) (ch w)))).
Proof.
  intros Hi Hp. unfold fire, registered. rewrite fire_sent. assert ((0 <? period w) = true) as -> by lia.
  cbn. by rewrite lookup_insert_eq.
Qed.

Lemma fire_timer c id w : ¬ 0 < period w →
  (id ∉ waiters (fire c id w))
  ∧ objects (fire c id w) !! id = Some (mkWaiter (deadline w) (period w) (Some (default (deadline w) (ch w)))).
Proof.
  intros Hp. unfold fire. rewrite fire_sent. assert ((0 <? period w) = false) as -> by lia. cbn.
  rewrite lookup_insert_eq. set_solver.
Qed.

Lemma fire_other c id w i wi : id ≠ i → registered c id w → registered (fire c i wi) id w.
Proof.
  intros Hne [H1 H2]. unfold fire, registered. case_bool; cbn; rewrite lookup_insert_ne by done; set_solver.
Qed.

Lemma schedule_tick target c id w : 0 < period w → deadline w ≤ target →
  on_schedule target (mkWaiter (deadline w + period w) (period w) (Some (default (deadline w) (ch w)))) c id →
  on_schedule target w c id.
Proof.
  intros Hp Hd. unfold on_schedule. cbn [deadline period ch default from_option].
  assert ((target <? deadline w) = false) as -> by lia. assert ((0 <? period w) = true) as -> by lia.
  destruct (Z.ltb_spec target (deadline w + period w)).
  - rewrite (Z.div_small (target - deadline w)) by lia. by replace (deadline w + (0 + 1) * period w) with (deadline w + period w) by lia.
  - replace ((target - deadline w) / period w) with ((target - (deadline w + period w)) / period w + 1); [|].
    + by replace (deadline w + ((target - (deadline w + period w)) / period w + 1 + 1) * period w)
        with (deadline w + period w + ((target - (deadline w + period w)) / period w + 1) * period w) by lia.
    + rewrite <- Z.div_add by lia. f_equal. lia.
Qed.

Lemma loop_on_schedule `{MapOrder} target id : ∀ fuel c c' w, advance_loop fuel target c = Some c' →
  registered c id w → on_schedule target w c' id.
Proof.
  induction fuel as [|fuel IH]; intros c c' w Hl Hr; cbn [advance_loop] in Hl; pose proof (earliest_first c target) as He;
    destruct (earliestDueLocked c target) as [[i wi]|]; try done.
  - injection Hl as <-. unfold on_schedule. specialize (He _ _ Hr). by assert ((target <? deadline w) = true) as -> by lia.
  - destruct He as (Hi & Hd & _). destruct (decide (id = i)) as [->|Hne].
    + assert (wi = w) as -> by (destruct Hr, Hi; congruence). destruct (decide (0 < period w)) as [Hp|Hp].
      * apply schedule_tick; [done|done|]. apply (IH _ _ _ Hl). apply fire_ticker; [apply Hr|done].
      * destruct (fire_timer c i w Hp) as [H1 H2]. destruct (loop_keeps_unregistered target i _ _ _ Hl H1) as [H3 H4].
        unfold on_schedule. assert ((target <? deadline w) = false) as -> by lia.
        assert ((0 <? period w) = false) as -> by lia. by rewrite H4.
    + apply (IH _ _ _ Hl). by apply fire_other.
  - injection Hl as <-. unfold on_schedule. specialize (He _ _ Hr). by assert ((target <? deadline w) = true) as -> by lia.
Qed.

(** ticks are on schedule: an advance moves the clock by exactly what was asked; a waiter due later
    is as it was; a ticker that was due has in its channel the tick it was due first, unless one was
    still undelivered, and stays registered at the first multiple of its period past the new time; a
    timer that was due has fired at its own deadline and is gone; nothing else changes. *)
Theorem advance_fires_on_schedule `{MapOrder} fuel c d c' :
  Advance fuel c d = Advanced c' →
  now c' = now c + d
  ∧ (∀ id w, registered c id w → on_schedule (now c + d) w c' id)
  ∧ (∀ id, id ∉ waiters c → (id ∉ waiters c') ∧ objects c' !! id = objects c !! id).
Proof.
  unfold Advance. destruct (d <? 0); [done|]. destruct (advance_loop _ _ _) as [e|] eqn:Hl; [|done]. intros [= <-].
  split_and!; [done| |].
  - intros id w Hr. exact (loop_on_schedule _ id _ _ _ _ Hl Hr).
  - intros id Hi. exact (loop_keeps_unregistered _ id _ _ _ Hl Hi).
Qed.

(** nobody is left waiting: whatever a test does to the clock, no goroutine stays parked in BlockUntil
    once as many timers, tickers and sleeps are pending as it waits for. *)
Theorem nobody_is_left_waiting `{MapOrder} start c :
  rtc clock_step (Fake start) c → ∀ b, b ∈ blockers c → pending c < bn b.
Proof. intros Hr%reached_parked. by apply Forall_forall. Qed.

(** ** A test's clock *)

#[local] Existing Instance descending_order.

(** A ticker every 10 and a timer at 25. *)
Definition sample_ticking : fakeClock :=
  match NewTicker (Fake 0) 10 with Some (c, _) => (NewTimer c 25).1 | None => Fake 0 end.

Lemma sample_reached : rtc clock_step (Fake 0) sample_ticking.
Proof.
  apply (rtc_l _ _ (registerLocked (Fake 0) 10 10).1).
  - by apply (step_NewTicker _ 10 _ 1).
  - apply rtc_once, (step_NewTimer _ 25).
Qed.

Lemma advance_is_additive_witness :
  ∃ n, ∀ O1 O2 O3 fuel, (n ≤ fuel)%nat →
    ∃ c1 c2, @Advance O1 fuel sample_ticking 12 = Advanced c1 ∧ @Advance O2 fuel c1 30 = Advanced c2
      ∧ @Advance O3 fuel sample_ticking (12 + 30) = Advanced c2.
Proof. apply (advance_is_additive descending_order 0 sample_ticking 12 30); [exact sample_reached|lia|lia]. Defined.

Definition after_42 : fakeClock := match Advance 9 sample_ticking 42 with Advanced c => c | _ => Fake 0 end.

Example after_42_is :
  now after_42 = 42 ∧ objects after_42 !! 1 = Some (mkWaiter 50 10 (Some 10))
  ∧ objects after_42 !! 2 = Some (mkWaiter 25 0 (Some 25)) ∧ elements (waiters after_42) = [1].
Proof. by vm_compute. Qed.

Lemma advance_fires_on_schedule_witness :
  now after_42 = now sample_ticking + 42
  ∧ (∀ id w, registered sample_ticking id w → on_schedule (now sample_ticking + 42) w after_42 id)
  ∧ (∀ id, id ∉ waiters sample_ticking → (id ∉ waiters after_42) ∧ objects after_42 !! id = objects sample_ticking !! id).
Proof. apply (advance_fires_on_schedule 9 sample_ticking 42 after_42). vm_compute. reflexivity. Defined.

Lemma nobody_is_left_waiting_witness :
  ∀ b, b ∈ blockers (BlockUntil sample_ticking 1 3).1 → pending (BlockUntil sample_ticking 1 3).1 < bn b.
Proof.
  apply (nobody_is_left_waiting 0). eapply rtc_r; [exact sample_reached|]. exact (step_BlockUntil _ 1 3).
Defined.
