(* ===== verification/Config.v ===== *)
(** * Config: validation and the settings handed to the parts (pkg/check/config.go)

    The other half of the file Spec opens: a specification is checked as a whole,
    and translated into the string settings of the source, the codec, the
    projection and the target. The message of a field error is its format and its
    arguments; what the registries hold is what the init functions register. *)
From Stdlib Require Import Ascii String.
From stdpp Require Import strings.
From S2P Require Import Prelude GoBase GoFloat GoStrings GoTime GoFormat GoText Event Projection Codec Target Differ Spec.

(** ** Redaction *)

Definition Redacted : string := "[REDACTED]".

Definition redact_redis (r : RedisSpec) : RedisSpec :=
  mkRedis (Redis_Mode r) (Redis_Addr r) (Redis_Addrs r) (Redis_MasterName r) (Redis_DB r) (Redis_Username r)
    (if bool_decide (Redis_Password r = "") then Redis_Password r else Redacted) (Redis_PasswordSecretRef r) (Redis_TLS r)
    (Redis_KeyPattern r) (Redis_ReadBatchSize r) (Redis_ScanCount r) (Redis_DialTimeout r) (Redis_ReadTimeout r)
    (Redis_PoolSize r).

Definition Redact (s : Spec) : Spec :=
  let t := Spec_Target s in
  mkSpec (Spec_Name s) (Spec_Namespace s) (Spec_Source s) (Spec_Codec s) (Spec_Projection s)
    (mkTargetSpec (Target_Type t) (redact_redis <$> Target_Redis t) (Target_Settings t)) (Spec_Policy s) (Spec_Alert s).

(** ** Scalars *)

Definition ParseDecimal (raw : string) : option float64 :=
  let trimmed := TrimSpace raw in
  if bool_decide (trimmed = "") then Some (S754_zero false) else strconv_ParseFloat trimmed.

Definition FormatBool (b : bool) : string := if b then "true" else "false".

(** ** Settings *)

Definition SpeedRealtime : string := "realtime".
Definition SpeedFast : string := "fast".
Definition SpeedAsFastAsPossible : string := "asFastAsPossible".

Definition fileSpeed (speed : string) : string :=
  if bool_decide (speed = SpeedFast) || bool_decide (speed = "") then SpeedAsFastAsPossible else speed.

Definition settings (l : list (string * string)) : gmap string string := list_to_map l.

Definition SourceSettings (s : Spec) : gmap string string :=
  let src := Spec_Source s in
  if bool_decide (Source_Type src = "zmq") then
    match Source_ZMQ src with
    | Some z => settings
        [("endpoints", strings_Join (ZMQ_Endpoints z) ","); ("topics", strings_Join (ZMQ_Topics z) ",");
         ("recvHWM", FormatInt (ZMQ_RecvHWM z)); ("connectTimeout", Duration_String (ZMQ_ConnectTimeout z));
         ("reconnectIntervalMax", Duration_String (ZMQ_ReconnectIntervalMax z));
         ("idleTimeout", Duration_String (ZMQ_IdleTimeout z))]
    | None => ∅
    end
  else if bool_decide (Source_Type src = "nats") then
    match Source_NATS src with
    | Some n => settings
        [("url", NATS_URL n); ("subjects", strings_Join (NATS_Subjects n) ","); ("queueGroup", NATS_QueueGroup n)]
    | None => ∅
    end
  else if bool_decide (Source_Type src = "file") then
    match Source_File src with
    | Some f => settings [("path", File_Path f); ("speed", fileSpeed (File_Speed f)); ("loop", FormatBool (File_Loop f))]
    | None => ∅
    end
  else if bool_decide (Source_Type src = "memory") then settings [("buffer", FormatInt (Source_IngestBufferSize src))]
  else ∅.

Definition codecFieldKeys : gmap string string :=
  settings
    [("publisher", "publisherField"); ("epoch", "epochField"); ("seq", "seqField"); ("timestamp", "timestampField");
     ("op", "opField"); ("key", "keyField"); ("member", "memberField"); ("value", "valueField"); ("ttl", "ttlField");
     ("delta", "deltaField")].

Definition CodecFields : list string := sort_Strings (map_to_list codecFieldKeys).*1.

Section settings.
Context `{MapOrder}.

(** The loop over the field mapping. *)
Definition rename_field (out : gmap string string) (kv : string * string) : gmap string string :=
  match codecFieldKeys !! kv.1 with Some key => <[key := kv.2]> out | None => out end.

Definition op_pairs (m : gmap string string) : list string :=
  sort_Strings ((λ kv : string * string, kv.1 +:+ "=" +:+ kv.2) <$> range_map m).

Definition CodecConfig (s : Spec) : gmap string string :=
  let c := Spec_Codec s in
  let out := settings [("maxPayloadBytes", FormatInt (Codec_MaxPayloadBytes c)); ("retainRaw", FormatBool (Codec_RetainRaw c))] in
  let out := foldl rename_field out (range_map (Codec_FieldMapping c)) in
  if bool_decide (Codec_OpMapping c = ∅) then out
  else <["opMapping" := strings_Join (op_pairs (Codec_OpMapping c)) ","]> out.

Definition ProjectionConfig (s : Spec) : gmap string string :=
  let p := Spec_Projection s in
  let out := settings
    [("keyTemplate", Projection_KeyTemplate p); ("memberTemplate", Projection_MemberTemplate p);
     ("maxMembersPerKey", FormatInt (Projection_MaxMembersPerKey p)); ("incrOnly", FormatBool (Projection_IncrOnly p))] in
  let out := match Projection_Ownership p with
             | Some o => if Ownership_Partitioned o then <["keyPattern" := Ownership_KeyPattern o]> out else out
             | None => out
             end in
  Projection_Extra p ∪ out.

Definition redis_addrs (r : RedisSpec) : list string :=
  if bool_decide (Redis_Addr r = "") then Redis_Addrs r else Redis_Addr r :: Redis_Addrs r.

Definition TargetSettings (s : Spec) : gmap string string :=
  let t := Spec_Target s in
  if negb (bool_decide (Target_Type t = "redis")) then Target_Settings t
  else
    match Target_Redis t with
    | None => Target_Settings t
    | Some r =>
        settings
          [("addrs", strings_Join (redis_addrs r) ","); ("masterName", Redis_MasterName r); ("username", Redis_Username r);
           ("password", Redis_Password r); ("db", FormatInt (Redis_DB r)); ("batchSize", FormatInt (Redis_ReadBatchSize r));
           ("scanCount", FormatInt (Redis_ScanCount r))]
        ∪ Target_Settings t
    end.

Definition ExtraScanPattern (s : Spec) : string :=
  match Target_Redis (Spec_Target s) with
  | Some r => if bool_decide (Redis_KeyPattern r = "") then DefaultKeyPatternGlob else Redis_KeyPattern r
  | None => DefaultKeyPatternGlob
  end.

Definition expiryPolicy (s : Spec) : ExpiryPolicy :=
  let p := Policy_ExpiryPolicy (Spec_Policy s) in
  if bool_decide (p = Spec.ExpiryIgnore) then Differ.ExpiryIgnore
  else if bool_decide (p = Spec.ExpiryModel) then Differ.ExpiryModel
  else Differ.ExpiryStrict.

(** The instant and the member limit are zero values, filled in later. *)
Definition DifferOptions (s : Spec) : Options :=
  let p := Spec_Policy s in
  mkOptions (Policy_TTLTolerance p) (expiryPolicy s) (Policy_AssumedTTL p) 0 (Policy_MaxFindings p) zero_time.
End settings.

(** ** Validation *)

Inductive arg :=
  | AString (s : string)
  | AStrings (l : list string)
  | AInt (z : Z)
  | ADuration (d : Duration)
  | ADecimal (f : float64)
  | AError (text : string)
  | AProjection (e : Projection.Error).

Record FieldError := mkFieldError { FE_Field : string; FE_Message : string * list arg }.

Record validator := mkValidator { errs : list FieldError; warnings : list (string * list arg) }.

(** A check of the specification: what it adds to the validator. *)
Definition checking : Type := validator.
Definition nothing : checking := mkValidator [] [].
Definition fail (field format : string) (args : list arg) : checking := mkValidator [mkFieldError field (format, args)] [].
Definition warn (format : string) (args : list arg) : checking := mkValidator [] [(format, args)].
Definition and_then (a b : checking) : checking := mkValidator (errs a ++ errs b) (warnings a ++ warnings b).
Definition when (c : bool) (a : checking) : checking := if c then a else nothing.

Declare Scope check_scope.
Delimit Scope check_scope with check.
Infix ";;;" := and_then (at level 61, left associativity) : check_scope.
#[local] Open Scope check_scope.

Definition contains (haystack : list string) (needle : string) : bool := bool_decide (needle ∈ haystack).

Definition source_Registered : list string := ["file"; "memory"; "nats"; "zmq"].
Definition codec_Names : list string := ["json"; "msgpack"; "template"].
Definition target_Names : list string := ["memory"; "redis"].

Definition validateFile (s : Spec) : checking :=
  match Source_File (Spec_Source s) with
  | None => fail "source.file.path" "required when source.type is file" []
  | Some f =>
      if bool_decide (File_Path f = "") then fail "source.file.path" "required when source.type is file" []
      else
        when (negb (bool_decide (File_Speed f ∈ [SpeedRealtime; SpeedFast; ""]))
              && match strconv_ParseFloat (File_Speed f) with
                 | None => true
                 | Some rate => SFleb rate (S754_zero false)
                 end)
          (fail "source.file.speed"
             ("must be %q, %q or a positive multiplier such as " +:+ double_quote +:+ "2.0" +:+ double_quote +:+ ", got %q")
             [AString SpeedRealtime; AString SpeedFast; AString (File_Speed f)])
        ;;; when (File_Loop f && bool_decide (File_Path f = "-"))
              (fail "source.file.loop" "cannot be used with stdin, which cannot be rewound" [])
  end.

(** [None] is a valid endpoint. *)
Definition validateZMQEndpoint (endpoint : string) : option (string * list arg) :=
  let '(scheme, rest, found) := strings_CutString endpoint "://" in
  if negb found then Some ("expected a form like tcp://host:port", [])
  else if bool_decide (scheme = "tcp") then
    let '(host, port, ok) := strings_Cut rest ":" in
    if negb ok || bool_decide (host = "") || bool_decide (port = "") then Some ("tcp endpoints need a host and a port", [])
    else match ParseInt port with
         | None => Some ("port %q is not a number", [AString port])
         | Some _ => None
         end
  else if bool_decide (scheme = "ipc") || bool_decide (scheme = "inproc") then
    if bool_decide (rest = "") then Some ("%s endpoints need a path", [AString scheme]) else None
  else Some ("unsupported transport %q, use tcp, ipc or inproc", [AString scheme]).

(** The loop over the endpoints from the [i]-th on. *)
Fixpoint check_endpoints (i : Z) (l : list string) : checking :=
  match l with
  | [] => nothing
  | ep :: l =>
      match validateZMQEndpoint ep with
      | None => nothing
      | Some (text, args) => fail ("source.zmq.endpoints[" +:+ FormatInt i +:+ "]") ("invalid endpoint: " +:+ text) args
      end ;;; check_endpoints (i + 1) l
  end.

Definition validateZMQ (s : Spec) : checking :=
  match Source_ZMQ (Spec_Source s) with
  | None => fail "source.zmq.endpoints" "at least one endpoint is required" []
  | Some z =>
      if bool_decide (ZMQ_Endpoints z = []) then fail "source.zmq.endpoints" "at least one endpoint is required" []
      else
        check_endpoints 0 (ZMQ_Endpoints z)
        ;;; when (Source_IngestBufferSize (Spec_Source s) <? ZMQ_RecvHWM z)
              (fail "policy" "ingestBufferSize (%d) must be >= source.zmq.recvHWM (%d), otherwise event loss occurs invisibly in the socket"
                 [AInt (Source_IngestBufferSize (Spec_Source s)); AInt (ZMQ_RecvHWM z)])
        ;;; (if bool_decide (ZMQ_Multipart z = MultipartAuto) then nothing
             else if bool_decide (ZMQ_Multipart z ∈ [MultipartTopicThenLoad; MultipartSingleFrame]) then
               warn "source.zmq.multipart=%s is advisory: the ZMQ source detects both conventions per frame, so a producer that changes convention mid-stream is still read correctly"
                 [AString (ZMQ_Multipart z)]
             else fail "source.zmq.multipart" "must be one of %s, %s, %s"
                    [AString MultipartAuto; AString MultipartTopicThenLoad; AString MultipartSingleFrame])
  end.

Definition ErrQueueGroupSet : string := 
  "source.nats.queueGroup must be empty: a queue group would distribute events across replicas and corrupt the oracle".

Definition validateNATS (s : Spec) : checking :=
  match Source_NATS (Spec_Source s) with
  | None => fail "source.nats.url" "required when source.type is nats" []
  | Some n =>
      if bool_decide (NATS_URL n = "") then fail "source.nats.url" "required when source.type is nats" []
      else
        when (bool_decide (NATS_Subjects n = [])) (fail "source.nats.subjects" "at least one subject is required" [])
        ;;; when (negb (bool_decide (NATS_QueueGroup n = ""))) (fail "source.nats.queueGroup" "%s" [AError ErrQueueGroupSet])
  end.

Definition validateSource (s : Spec) : checking :=
  let ty := Source_Type (Spec_Source s) in
  if negb (contains source_Registered ty) then
    fail "source.type" "unknown source type %q, valid: %v" [AString ty; AStrings source_Registered]
  else if bool_decide (ty = "zmq") then validateZMQ s
  else if bool_decide (ty = "nats") then validateNATS s
  else if bool_decide (ty = "file") then validateFile s
  else nothing.

(** The checks of a list, in order. *)
Definition checks {A} (f : A → checking) (l : list A) : checking := foldr (λ a c, f a ;;; c) nothing l.

Section validation.
Context `{UnicodeTables} `{UnicodePrint} `{MapOrder} `{TemplateEngine}.

Definition validateCodec (s : Spec) : checking :=
  let c := Spec_Codec s in
  when (negb (contains codec_Names (Codec_Type c)))
    (fail "codec.type" "unknown codec type %q, valid: %v" [AString (Codec_Type c); AStrings codec_Names])
  ;;; checks (λ kv : string * string, match codecFieldKeys !! kv.1 with
                  | Some _ => nothing
                  | None => fail "codec.fieldMapping" "unknown field %q, valid: %v" [AString kv.1; AStrings CodecFields]
                  end) (range_map (Codec_FieldMapping c))
  ;;; checks (λ kv : string * string, match Event.ParseOp kv.2 with
                  | Some _ => nothing
                  | None => fail ("codec.opMapping[" +:+ strconv_Quote kv.1 +:+ "]") "unknown op %q" [AString kv.2]
                  end) (range_map (Codec_OpMapping c))
  ;;; when (Codec_MaxPayloadBytes c <=? 0) (fail "codec.maxPayloadBytes" "must be positive" []).

Definition projection_registry : gmap string Projection.Constructor := default ∅ Projection.registry.

Definition validateProjection (s : Spec) : checking :=
  let p := Spec_Projection s in
  if negb (contains (Projection.Names projection_registry) (Projection_Type p)) then
    fail "projection.type" "unknown projection type %q, valid: %v"
      [AString (Projection_Type p); AStrings (Projection.Names projection_registry)]
  else
    match Projection.New projection_registry (Projection_Type p) (ProjectionConfig s) with
    | inl err => fail "projection" "%v" [AProjection err]
    | inr _ => nothing
    end
    ;;; when (bool_decide (Projection_Type p = "counter") && negb (Projection_IncrOnly p))
          (warn "projection: a counter that accepts absolute sets is not commutative, so a reordered stream converges to a different total (condition ProjectionNotCommutative); set projection.incrOnly if the producer only increments" [])
    ;;; match Projection_Ownership p with
        | Some o => when (Ownership_Partitioned o && bool_decide (Ownership_KeyPattern o = ""))
            (fail "projection.ownership.keyPattern" "required when partitioned is set, or a gap cannot be scoped to one publisher" [])
        | None => nothing
        end.

(** The loop of validateGlob: [None] is a valid pattern. *)
Fixpoint glob_depth (pattern : string) (skip : bool) (depth : Z) : option string :=
  match pattern with
  | "" => if depth =? 0 then None else Some "unmatched '['"
  | String c rest =>
      if skip then glob_depth rest false depth
      else if Ascii.eqb c (ascii_of 92) then glob_depth rest true depth
      else if Ascii.eqb c "[" then glob_depth rest false (depth + 1)
      else if Ascii.eqb c "]" then if depth - 1 <? 0 then Some "unmatched ']'" else glob_depth rest false (depth - 1)
      else glob_depth rest false depth
  end.

Definition validateGlob (pattern : string) : option string :=
  if bool_decide (pattern = "") then Some "must not be empty" else glob_depth pattern false 0.

Definition validateTarget (s : Spec) : checking :=
  let t := Spec_Target s in
  if negb (contains target_Names (Target_Type t)) then
    fail "target.type" "unknown target type %q, valid: %v" [AString (Target_Type t); AStrings target_Names]
  else if negb (bool_decide (Target_Type t = "redis")) then nothing
  else
    match Target_Redis t with
    | None => fail "target.redis" "required when target.type is redis" []
    | Some r =>
        (if bool_decide (Redis_Mode r = RedisStandalone) then
           when (bool_decide (Redis_Addr r = "") && bool_decide (Redis_Addrs r = []))
             (fail "target.redis.addr" "required in standalone mode" [])
         else if bool_decide (Redis_Mode r = RedisCluster) then
           when (bool_decide (Redis_Addrs r = [])) (fail "target.redis.addrs" "required in cluster mode" [])
           ;;; when (negb (bool_decide (Redis_Addr r = "")))
                 (fail "target.redis.addr" "must be empty in cluster mode; use addrs" [])
         else if bool_decide (Redis_Mode r = RedisSentinel) then
           when (bool_decide (Redis_Addrs r = []))
             (fail "target.redis.addrs" "required in sentinel mode: the sentinel addresses" [])
           ;;; when (bool_decide (Redis_MasterName r = ""))
                 (fail "target.redis.masterName" "required in sentinel mode" [])
         else fail "target.redis.mode" "must be one of %s, %s, %s"
                [AString RedisStandalone; AString RedisSentinel; AString RedisCluster])
        ;;; match validateGlob (Redis_KeyPattern r) with
            | Some text => fail "target.redis.keyPattern" "invalid glob: %v" [AError text]
            | None => nothing
            end
        ;;; when (negb (bool_decide (Redis_Password r = "")) && bool_decide (is_Some (Redis_PasswordSecretRef r)))
              (fail "target.redis.password" "set together with passwordSecretRef; use one or the other" [])
    end.

(** The loop over the operation mapping: the two markers it has met. *)
Definition snapshot_ops (found : bool * bool) (kv : string * string) : bool * bool :=
  match Event.ParseOp kv.2 with
  | Some OpSnapshotBegin => (true, found.2)
  | Some OpSnapshotEnd => (found.1, true)
  | _ => found
  end.

Definition mapsSnapshotOps (s : Spec) : bool :=
  let m := Codec_OpMapping (Spec_Codec s) in
  if bool_decide (m = ∅) then true
  else let '(opens, ends) := foldl snapshot_ops (false, false) (range_map m) in opens && ends.

Definition validatePolicy (s : Spec) : checking :=
  let p := Spec_Policy s in
  let w := Policy_SettlementWindow p in
  when (negb (bool_decide (Window_Mode w ∈ [WindowStatic; WindowAdaptive])))
    (fail "policy.settlementWindow.mode" "must be %s or %s" [AString WindowStatic; AString WindowAdaptive])
  ;;; when ((Window_Static w <? Window_Min w) || (Window_Max w <? Window_Static w))
        (fail "policy.settlementWindow" "min (%s) <= static (%s) <= max (%s) does not hold"
           [ADuration (Window_Min w); ADuration (Window_Static w); ADuration (Window_Max w)])
  ;;; when (SFltb (Window_SafetyFactor w) (float_of_Z 1))
        (fail "policy.settlementWindow.safetyFactor" "must be >= 1.0, got %s" [ADecimal (Window_SafetyFactor w)])
  ;;; when (Policy_SweepInterval p <? time_Second)
        (fail "policy.sweepInterval" "must be at least 1s, got %s" [ADuration (Policy_SweepInterval p)])
  ;;; when (Policy_ExtraScanInterval p <? time_Second)
        (fail "policy.extraScanInterval" "must be at least 1s, got %s" [ADuration (Policy_ExtraScanInterval p)])
  ;;; when (Policy_SweepInterval p <? i64 (2 * EffectiveWindow s))
        (warn "policy.sweepInterval (%s) is less than twice the settlement window (%s): candidates will still be awaiting confirmation when the next sweep raises them again (condition SweepIntervalTight)"
           [ADuration (Policy_SweepInterval p); ADuration (EffectiveWindow s)])
  ;;; (if bool_decide (Policy_Bootstrap p ∈ [BootstrapAdopt; BootstrapWait]) then nothing
       else if bool_decide (Policy_Bootstrap p = BootstrapStrict) then
         when (negb (mapsSnapshotOps s))
           (fail "policy.bootstrap" "policy.bootstrap=Strict requires codec.opMapping to define snapshotBegin and snapshotEnd" [])
       else fail "policy.bootstrap" "must be one of %s, %s, %s"
              [AString BootstrapAdopt; AString BootstrapStrict; AString BootstrapWait])
  ;;; (if bool_decide (Policy_ExpiryPolicy p ∈ [Spec.ExpiryModel; Spec.ExpiryStrict]) then nothing
       else if bool_decide (Policy_ExpiryPolicy p = Spec.ExpiryIgnore) then
         when (Policy_AssumedTTL p <=? 0) (fail "policy.assumedTTL" "must be positive when expiryPolicy is Ignore" [])
       else fail "policy.expiryPolicy" "must be one of %s, %s, %s"
              [AString Spec.ExpiryIgnore; AString Spec.ExpiryModel; AString Spec.ExpiryStrict])
  ;;; when ((Policy_MaxTrackedKeys p <? 1000) || (100000000 <? Policy_MaxTrackedKeys p))
        (fail "policy.maxTrackedKeys" "must be between 1,000 and 100,000,000, got %d" [AInt (Policy_MaxTrackedKeys p)])
  ;;; when ((Policy_RingSize p <? 1) || (1024 <? Policy_RingSize p))
        (fail "policy.ringSize" "must be between 1 and 1024, got %d" [AInt (Policy_RingSize p)])
  ;;; when ((Policy_OracleShards p <? 1) || (1024 <? Policy_OracleShards p)
            || negb (Z.land (Policy_OracleShards p) (Policy_OracleShards p - 1) =? 0))
        (fail "policy.oracleShards" "must be a power of two between 1 and 1024, got %d" [AInt (Policy_OracleShards p)])
  ;;; when (Policy_MaxPublishers p <? 1) (fail "policy.maxPublishers" "must be positive" [])
  ;;; when (Policy_NeverSettledThreshold p <? 1)
        (fail "policy.neverSettledThreshold" "must be at least 1 (multiples of W)" [])
  ;;; when (Alert_IncludeSuspect (Spec_Alert s))
        (warn "alert.includeSuspect is set: alerts will fire on keys driftwatch knows it has an incomplete view of, which measures driftwatch rather than the store (§23 A7)" []).

Definition validate_all (s : Spec) : checking :=
  validateSource s ;;; validateCodec s ;;; validateProjection s ;;; validateTarget s ;;; validatePolicy s.

(** A ValidationError, or [None] where nothing failed. *)
Definition reported (v : checking) : option (list FieldError) :=
  match errs v with [] => None | e => Some e end.

(** Validate *)
Definition Spec_Validate (s : Spec) : option (list FieldError) := reported (validate_all s).

Definition Warnings (s : Spec) : list (string * list arg) := warnings (validate_all s).

Definition Fields (e : list FieldError) : list string := sort_Strings (FE_Field <$> e).

Definition ValidateUpdate (s : Spec) (previous : option Spec) : option (list FieldError) :=
  match previous with
  | None => None
  | Some previous =>
      let immutable field was now :=
        when (negb (bool_decide (was = "")) && negb (bool_decide (was = now)))
          (fail field "field is immutable; delete and recreate the DriftCheck (was %q, now %q)" [AString was; AString now]) in
      let v := immutable "projection.type" (Projection_Type (Spec_Projection previous)) (Projection_Type (Spec_Projection s))
        ;;; immutable "target.type" (Target_Type (Spec_Target previous)) (Target_Type (Spec_Target s)) in
      reported v
  end.
End validation.
