(* ===== verification/ConfigFacts.v ===== *)
(** * ConfigFacts: what a validated configuration guarantees

    A specification that validates gives every part what it relies on; what it says
    of the store and of the codec is what their constructors read back from the
    string settings; and applying the defaults twice changes nothing. *)
From Stdlib Require Import Ascii String.
From stdpp Require Import strings sorting.
From S2P Require Import Prelude GoBase GoFloat GoStrings GoTime GoFormat GoText JsonScan JsonGrammar Event Projection Codec Target.
From S2P Require Redis Json Template.
From S2P Require Import Differ Spec Config.

(** ** Strings *)

(** No byte of [s] is [c]. *)
Fixpoint free_of (c : ascii) (s : string) : bool :=
  match s with "" => true | String d s => negb (Ascii.eqb d c) && free_of c s end.

Lemma HasPrefix_one c d s : HasPrefix (String c "") (String d s) = Ascii.eqb c d.
Proof. cbn. by rewrite andb_true_r. Qed.

Lemma string_of_list_app a b : string_of_list (a ++ b) = string_of_list a +:+ string_of_list b.
Proof. induction a as [|c a IH]; [done|]. unfold string_of_list in *. cbn [app string_of_list_ascii]. by rewrite IH, string_app_cons. Qed.

Lemma split_from_piece c a : ∀ acc rest, free_of c a = true →
  split_from (String c "") (a +:+ String c rest) 0 acc
  = (string_of_list (reverse acc) +:+ a) :: split_from (String c "") rest 0 [].
Proof.
  induction a as [|d a IH]; intros acc rest Hf.
  - rewrite string_app_nil_l, string_app_nil_r. cbn [split_from]. by rewrite HasPrefix_one, Ascii.eqb_refl.
  - cbn [free_of] in Hf. apply andb_true_iff in Hf as [Hd Hf]. apply negb_true_iff in Hd. rewrite string_app_cons.
    cbn [split_from]. rewrite HasPrefix_one, Ascii.eqb_sym, Hd, IH by done. f_equal.
    rewrite reverse_cons, string_of_list_app, string_app_assoc. done.
Qed.

Lemma split_from_last c a : ∀ acc, free_of c a = true →
  split_from (String c "") a 0 acc = [string_of_list (reverse acc) +:+ a].
Proof.
  induction a as [|d a IH]; intros acc Hf; [cbn; by rewrite string_app_nil_r|].
  cbn [free_of] in Hf. apply andb_true_iff in Hf as [Hd Hf]. apply negb_true_iff in Hd.
  cbn [split_from]. rewrite HasPrefix_one, Ascii.eqb_sym, Hd, IH by done.
  rewrite reverse_cons, string_of_list_app, string_app_assoc. done.
Qed.

(** strings.Split undoes strings.Join where no piece holds the separator. *)
Lemma Split_Join c l : l ≠ [] → Forall (λ s, free_of c s = true) l →
  strings_Split (strings_Join l (String c "")) (String c "") = l.
Proof.
  intros Hne Hf. unfold strings_Split. rewrite bool_decide_false by done.
  induction Hf as [|a l Ha Hl IH]; [done|]. destruct l as [|b l].
  - cbn [strings_Join]. by rewrite split_from_last.
  - change (strings_Join (a :: b :: l) (String c "")) with (a +:+ String c (strings_Join (b :: l) (String c ""))).
    rewrite split_from_piece by done. by rewrite IH.
Qed.

Lemma Join_empty c l : l ≠ [] → Forall (λ s, s ≠ "") l → strings_Join l (String c "") ≠ "".
Proof.
  intros Hne Hf. destruct Hf as [|a l Ha Hl]; [done|]. destruct l as [|b l]; [done|].
  change (strings_Join (a :: b :: l) (String c "")) with (a +:+ String c (strings_Join (b :: l) (String c ""))).
  by destruct a.
Qed.

(** ** Validation, piece by piece *)

Lemma errs_and a b : errs (and_then a b) = [] ↔ errs a = [] ∧ errs b = [].
Proof. cbn. by rewrite app_nil. Qed.
Lemma errs_when c a : errs (when c a) = [] ↔ (c = true → errs a = []).
Proof. destruct c; cbn; naive_solver. Qed.
Lemma errs_fail f m l : errs (fail f m l) = [] ↔ False.
Proof. done. Qed.
Lemma errs_warn m l : errs (warn m l) = [] ↔ True.
Proof. done. Qed.
Lemma errs_nothing : errs nothing = [] ↔ True.
Proof. done. Qed.

Lemma reported_None v : reported v = None ↔ errs v = [].
Proof. unfold reported. by destruct (errs v). Qed.

Lemma not_true (b : bool) : (b = true → False) ↔ b = false.
Proof. destruct b; naive_solver. Qed.

Ltac validated H := cbv zeta in H; rewrite ?errs_and, ?errs_when, ?errs_fail, ?errs_warn, ?errs_nothing, ?not_true in H.

Lemma setting_here k v l : settings ((k, v) :: l) !! k = Some v.
Proof. apply lookup_insert_eq. Qed.
Lemma setting_next k k' v l r : k' ≠ k → settings l !! k = r → settings ((k', v) :: l) !! k = r.
Proof. intros Hne. unfold settings. cbn [list_to_map foldr]. by rewrite lookup_insert_ne. Qed.

(** Finds a key in a list of settings. *)
Ltac find_setting := repeat (first [apply setting_here | apply setting_next; [done|]]).

Section facts.
Context {U : UnicodeTables} {Q : UnicodePrint} {M : MapOrder} {T : TemplateEngine}.

Lemma Validate_parts s : Spec_Validate s = None →
  errs (validateSource s) = [] ∧ errs (validateCodec s) = [] ∧ errs (validateProjection s) = []
  ∧ errs (validateTarget s) = [] ∧ errs (validatePolicy s) = [].
Proof. unfold Spec_Validate, validate_all. rewrite reported_None, !errs_and. tauto. Qed.

(** A number with no bit in common with its predecessor is a power of two. *)
Lemma power_of_two n : 0 < n → Z.land n (n - 1) = 0 → ∃ k, 0 ≤ k ∧ n = 2 ^ k.
Proof.
  intros Hn Hl. exists (Z.log2 n). split; [apply Z.log2_nonneg|]. destruct (Z.log2_spec n Hn) as [Hlo Hhi].
  destruct (decide (n = 2 ^ Z.log2 n)) as [|Hne]; [done|]. exfalso.
  assert (Z.log2 (n - 1) = Z.log2 n) as Hlog by (apply Z.log2_unique; [apply Z.log2_nonneg|lia]).
  assert (Z.testbit (Z.land n (n - 1)) (Z.log2 n) = true) as Hb.
  { rewrite Z.land_spec, Z.bit_log2 by done. rewrite <- Hlog at 1. rewrite Z.bit_log2; [done|]. pose proof (Z.pow_pos_nonneg 2 (Z.log2 n) ltac:(lia) (Z.log2_nonneg n)). lia. }
  by rewrite Hl, Z.bits_0 in Hb.
Qed.

(** What the parts are handed. *)
Record usable (s : Spec) : Prop := mk_usable {
  us_projection : ∃ p, Projection.New projection_registry (Projection_Type (Spec_Projection s)) (ProjectionConfig s) = inr p;
  us_ring : 1 ≤ Policy_RingSize (Spec_Policy s) ≤ 1024;
  us_shards : ∃ k, 0 ≤ k ≤ 10 ∧ Policy_OracleShards (Spec_Policy s) = 2 ^ k;
  us_keys : 1000 ≤ Policy_MaxTrackedKeys (Spec_Policy s) ≤ 100000000;
  us_publishers : 1 ≤ Policy_MaxPublishers (Spec_Policy s);
  us_window : let w := Policy_SettlementWindow (Spec_Policy s) in
    Window_Min w ≤ Window_Static w ≤ Window_Max w ∧ Window_Min w ≤ EffectiveWindow s ≤ Window_Max w;
  us_factor : SFltb (Window_SafetyFactor (Policy_SettlementWindow (Spec_Policy s))) (float_of_Z 1) = false;
  us_sweep : time_Second ≤ Policy_SweepInterval (Spec_Policy s) ∧ time_Second ≤ Policy_ExtraScanInterval (Spec_Policy s);
  us_bootstrap : Policy_Bootstrap (Spec_Policy s) ∈ [BootstrapAdopt; BootstrapWait]
    ∨ Policy_Bootstrap (Spec_Policy s) = BootstrapStrict ∧ mapsSnapshotOps s = true;
  us_ttl : Policy_ExpiryPolicy (Spec_Policy s) = Spec.ExpiryIgnore → 0 < Policy_AssumedTTL (Spec_Policy s);
  us_buffer : ∀ z, Source_Type (Spec_Source s) = "zmq" → Source_ZMQ (Spec_Source s) = Some z →
    ZMQ_RecvHWM z ≤ Source_IngestBufferSize (Spec_Source s);
  us_queue : ∀ n, Source_Type (Spec_Source s) = "nats" → Source_NATS (Spec_Source s) = Some n → NATS_QueueGroup n = "";
  us_ops : map_Forall (λ _ to, is_Some (Event.ParseOp to)) (Codec_OpMapping (Spec_Codec s));
  us_payload : 0 < Codec_MaxPayloadBytes (Spec_Codec s)
}.

Lemma checks_nil {A} (f : A → checking) l : errs (checks f l) = [] ↔ Forall (λ a, errs (f a) = []) l.
Proof. induction l as [|a l IH]; [done|]. cbn [checks foldr]. by rewrite errs_and, Forall_cons, <- IH. Qed.

Lemma validatePolicy_ok s : errs (validatePolicy s) = [] →
  let p := Spec_Policy s in let w := Policy_SettlementWindow p in
  (1 ≤ Policy_RingSize p ≤ 1024) ∧ (∃ k, 0 ≤ k ≤ 10 ∧ Policy_OracleShards p = 2 ^ k)
  ∧ (1000 ≤ Policy_MaxTrackedKeys p ≤ 100000000) ∧ 1 ≤ Policy_MaxPublishers p
  ∧ (Window_Min w ≤ Window_Static w ≤ Window_Max w) ∧ SFltb (Window_SafetyFactor w) (float_of_Z 1) = false
  ∧ time_Second ≤ Policy_SweepInterval p ∧ time_Second ≤ Policy_ExtraScanInterval p
  ∧ (Policy_Bootstrap p ∈ [BootstrapAdopt; BootstrapWait] ∨ Policy_Bootstrap p = BootstrapStrict ∧ mapsSnapshotOps s = true)
  ∧ (Policy_ExpiryPolicy p = Spec.ExpiryIgnore → 0 < Policy_AssumedTTL p).
Proof.
  intros H. unfold validatePolicy in H. validated H.
  destruct H as (((((((((((((_ & Hw) & Hf) & Hs) & Hx) & _) & Hb) & He) & Hk) & Hr) & Hsh) & Hp) & _) & _).
  zbool. split_and!; try lia; try done.
  - assert (1 ≤ Policy_OracleShards (Spec_Policy s) ≤ 1024) as Hr1 by lia.
    destruct (power_of_two (Policy_OracleShards (Spec_Policy s))) as (k & Hk0 & Hk1); [lia|done|].
    exists k. split; [split; [done|]|done]. rewrite Hk1 in Hr1. change 1024 with (2 ^ 10) in Hr1.
    apply (Z.pow_le_mono_r_iff 2); lia.
  - clear -Hb. case_bool_decide as H1; [by left|]. right. case_bool_decide as H2; validated Hb; [|done].
    zbool. done.
  - clear -He. intros Hi. rewrite Hi in He. rewrite bool_decide_false in He by (by intros [?|[?|?%elem_of_nil]%elem_of_cons]%elem_of_cons).
    rewrite bool_decide_true in He by done. validated He. zbool. lia.
Qed.

Lemma validated_usable s : Spec_Validate s = None → usable s.
Proof.
  intros (Hsrc & Hcod & Hproj & _ & Hpol)%Validate_parts.
  destruct (validatePolicy_ok s Hpol) as (P1 & P2 & P3 & P4 & P5 & P6 & P7 & P8 & P9 & P10).
  unfold validateCodec in Hcod. validated Hcod. rewrite !checks_nil in Hcod. destruct Hcod as (((_ & _) & Hops) & Hpay).
  unfold validateProjection in Hproj. destruct (negb (contains _ _)); [done|]. validated Hproj. destruct Hproj as ((Hnew & _) & _).
  unfold validateSource in Hsrc. destruct (negb (contains _ _)); [done|].
  split; try done.
  - destruct (Projection.New _ _ _) as [|p]; [done|]. by exists p.
  - cbv zeta. split; [done|]. unfold EffectiveWindow. cbv zeta. destruct (decide (Window_Mode _ = _)); lia.
  - intros z Hz Hs. rewrite Hz, bool_decide_true in Hsrc by done. unfold validateZMQ in Hsrc. rewrite Hs in Hsrc.
    case_bool_decide; [done|]. validated Hsrc. destruct Hsrc as ((_ & Hb) & _). zbool. done.
  - intros n Hz Hs. rewrite Hz in Hsrc. rewrite bool_decide_false, bool_decide_true in Hsrc by done.
    unfold validateNATS in Hsrc. rewrite Hs in Hsrc. case_bool_decide; [done|]. validated Hsrc. destruct Hsrc as (_ & Hq).
    apply negb_false_iff, bool_decide_eq_true in Hq. done.
  - intros from to Hm. rewrite Forall_forall in Hops. specialize (Hops (from, to)). cbn [fst snd] in Hops.
    rewrite elem_of_range_map in Hops. specialize (Hops Hm). destruct (Event.ParseOp to) as [op|]; [by eexists|done].
  - zbool. lia.
Qed.

(** C23: validation is enough: a specification that validates builds its projection and gives every part
    what its correctness rests on: a number of shards that is a power of two, ring, key and publisher
    budgets in range, a settlement window between its bounds in either mode, a safety factor not below
    one, a buffer not smaller than the socket's high-water mark, no queue group, a Strict start-up only
    where snapshots are understood, and operation names that all mean something. *)
Theorem validated_means_usable s : Spec_Validate s = None → usable s.
Proof. apply validated_usable. Qed.

(** ** The store's settings *)

(** An address that survives the list it is put in. *)
Definition plain_item (a : string) : Prop := free_of "," a = true ∧ a ≠ "" ∧ TrimSpace a = a.

Lemma validateTarget_addrs s r :
  errs (validateTarget s) = [] → Target_Type (Spec_Target s) = "redis" → Target_Redis (Spec_Target s) = Some r → redis_addrs r ≠ [].
Proof.
  unfold validateTarget. intros H Ht Hr. rewrite Hr, Ht in H. cbv zeta in H.
  destruct (negb (contains target_Names "redis")); [done|]. rewrite bool_decide_true in H by done. cbn [negb] in H.
  validated H. destruct H as ((H & _) & _). unfold redis_addrs.
  destruct (bool_decide (Redis_Mode r = RedisStandalone)).
  { validated H. apply andb_false_iff in H. case_bool_decide as Ha; [|done].
    destruct H as [H|H]; [done|]. by apply bool_decide_eq_false in H. }
  destruct (bool_decide (Redis_Mode r = RedisCluster)).
  { validated H. destruct H as [H _]. apply bool_decide_eq_false in H. by case_bool_decide. }
  destruct (bool_decide (Redis_Mode r = RedisSentinel)); [|done].
  validated H. destruct H as [H _]. apply bool_decide_eq_false in H. by case_bool_decide.
Qed.

Lemma split_addrs_join l : l ≠ [] → Forall plain_item l → Redis.split_addrs (strings_Join l ",") = l.
Proof.
  intros Hne Hp. unfold Redis.split_addrs.
  rewrite Split_Join; [|done|by eapply Forall_impl; [exact Hp|intros a [? _]]].
  clear Hne. induction Hp as [|a l (H1 & H2 & H3) Hl IH]; [done|]. rewrite fmap_cons, H3. cbn [List.filter].
  rewrite bool_decide_false by done. cbn [negb]. by rewrite IH.
Qed.

Lemma intSetting_FormatInt m key d n :
  m !! key = Some (FormatInt n) → is_i64 n → 0 ≤ n → Redis.intSetting m key d = inr n.
Proof.
  intros Hm Hn Hp. unfold Redis.intSetting, Redis.Setting. rewrite Hm. cbn [from_option id].
  rewrite bool_decide_false by apply FormatInt_nonempty. rewrite ParseInt_FormatInt by done.
  by assert ((n <? 0) = false) as -> by lia.
Qed.

(** the store's configuration arrives: for a specification that validates, whose addresses hold no
    comma and no space at their ends and whose database is not negative, the redis constructor accepts
    the settings it is handed and reads back from them the addresses in order, the master, the
    credentials, the database and the sizes the specification names. *)
Theorem redis_settings_arrive s r :
  Spec_Validate s = None → Target_Type (Spec_Target s) = "redis" → Target_Redis (Spec_Target s) = Some r →
  Forall plain_item (redis_addrs r) → is_i64 (Redis_DB r) → 0 ≤ Redis_DB r →
  is_i64 (Redis_ReadBatchSize r) → 0 < Redis_ReadBatchSize r → is_i64 (Redis_ScanCount r) → 0 < Redis_ScanCount r →
  Redis.newRedis (TargetSettings s)
  = inr (Redis.mkOptions (redis_addrs r) (Redis_MasterName r) (Redis_DB r) (Redis_Username r) (Redis_Password r)
           (Redis_ReadBatchSize r) (Redis_ScanCount r)).
Proof.
  intros (_ & _ & _ & Htgt & _)%Validate_parts Ht Hr Hp Hd Hd0 Hb Hb0 Hc Hc0.
  pose proof (validateTarget_addrs s r Htgt Ht Hr) as Hne.
  unfold TargetSettings. rewrite Ht, bool_decide_true by done. cbn [negb]. rewrite Hr.
  set (m := settings _ ∪ _).
  assert (∀ k v, settings
          [("addrs", strings_Join (redis_addrs r) ","); ("masterName", Redis_MasterName r); ("username", Redis_Username r);
           ("password", Redis_Password r); ("db", FormatInt (Redis_DB r)); ("batchSize", FormatInt (Redis_ReadBatchSize r));
           ("scanCount", FormatInt (Redis_ScanCount r))] !! k = Some v → m !! k = Some v) as Hm by (intros k v; apply lookup_union_Some_l).
  unfold Redis.newRedis.
  rewrite (intSetting_FormatInt m "db" 0 (Redis_DB r)) by (first [apply Hm; find_setting|done|lia]). cbn [mbind sum_bind].
  rewrite (intSetting_FormatInt m "batchSize" _ (Redis_ReadBatchSize r)) by (first [apply Hm; find_setting|done|lia]). cbn [mbind sum_bind].
  rewrite (intSetting_FormatInt m "scanCount" _ (Redis_ScanCount r)) by (first [apply Hm; find_setting|done|lia]). cbn [mbind sum_bind].
  unfold Redis.Setting.
  rewrite (Hm "addrs" (strings_Join (redis_addrs r) ",")) by find_setting.
  rewrite (Hm "masterName" (Redis_MasterName r)), (Hm "username" (Redis_Username r)), (Hm "password" (Redis_Password r)) by find_setting.
  cbn [from_option id]. rewrite bool_decide_false by (apply Join_empty; [done|by eapply Forall_impl; [exact Hp|intros a (_ & ? & _)]]).
  rewrite split_addrs_join by done. unfold Redis.NewRedis.
  cbn [Redis.Addrs Redis.MasterName Redis.DB Redis.Username Redis.Password Redis.BatchSize Redis.ScanCount].
  rewrite bool_decide_false by done.
  assert ((Redis_ReadBatchSize r <=? 0) = false) as -> by lia. by assert ((Redis_ScanCount r <=? 0) = false) as -> by lia.
Qed.

(** ** The codec's settings *)

(** The name the constructor gives a field. *)
Definition renamed (cfg : gmap string string) (k : string * string) : string := default k.2 (cfg !! k.1).

Lemma field_names_reads cfg table : (∀ f k, (f, k) ∈ table → cfg !! k.1 ≠ Some "") → ∀ names,
  ∃ r, field_names cfg table names = inr r
    ∧ (∀ n f, f ∈ default [] (names !! n) → f ∈ default [] (r !! n))
    ∧ ∀ f k, (f, k) ∈ table → f ∈ default [] (r !! renamed cfg k).
Proof.
  induction table as [|[f [key d]] table IH]; intros Hne names.
  { exists names. split_and!; [done|done|]. by intros f k ?%elem_of_nil. }
  set (n := renamed cfg (key, d)).
  destruct (IH ltac:(intros f' k' Hin; apply (Hne f'); by right) (<[n := default [] (names !! n) ++ [f]]> names)) as (r & Hr & Hold & Hnew).
  exists r. split_and!.
  - pose proof (Hne f (key, d) ltac:(by left)) as Hk. unfold n, renamed in Hr. cbn [field_names fst snd] in *.
    destruct (cfg !! key) as [o|]; [|exact Hr]. rewrite decide_False by congruence. exact Hr.
  - intros n' f' Hf. apply Hold. destruct (decide (n' = n)) as [->|Hn]; [|by rewrite lookup_insert_ne].
    rewrite lookup_insert_eq. apply elem_of_app. by left.
  - intros f' k' [[= -> ->]|Hin]%elem_of_cons; [|by apply Hnew]. apply Hold. fold n. rewrite lookup_insert_eq.
    apply elem_of_app. right. by left.
Qed.

(** A name of an operation that survives the list of pairs. *)
Definition plain_op (a : string) : Prop := graphic a = true ∧ free_of "," a = true ∧ a ≠ "".

Lemma free_of_app c a b : free_of c (a +:+ b) = free_of c a && free_of c b.
Proof. induction a as [|d a IH]; [done|]. rewrite string_app_cons. cbn [free_of]. by rewrite IH, andb_assoc. Qed.

Lemma graphic_Join l : Forall (λ a, graphic a = true) l → graphic (strings_Join l ",") = true.
Proof.
  intros Hl. induction Hl as [|a l Ha Hl IH]; [done|]. destruct l as [|b l]; [done|].
  change (strings_Join (a :: b :: l) ",") with (a +:+ String "," (strings_Join (b :: l) ",")).
  rewrite graphic_app, Ha. cbn [graphic]. by rewrite IH.
Qed.

Lemma Cut_pair a b : free_of "=" a = true → strings_Cut (a +:+ "=" +:+ b) "=" = (a, b, true).
Proof.
  induction a as [|c a IH]; [done|]. cbn [free_of]. intros [Hc Ha]%andb_true_iff. apply negb_true_iff in Hc.
  rewrite string_app_cons. cbn [strings_Cut]. by rewrite Hc, IH.
Qed.

Lemma parse_pairs_reads l : ∀ out,
  Forall (λ kv : string * string, plain_op kv.1 ∧ free_of "=" kv.1 = true ∧ plain_op kv.2 ∧ is_Some (Event.ParseOp kv.2)) l → NoDup l.*1 →
  ∃ m, parse_pairs ((λ kv, kv.1 +:+ "=" +:+ kv.2) <$> l) out = inr m
    ∧ ∀ k, m !! k = match list_to_map (M := gmap string string) l !! k with Some to => Event.ParseOp to | None => out !! k end.
Proof.
  induction l as [|[from to] l IH]; intros out Hp Hn.
  { exists out. split; [done|]. intros k. cbn. by rewrite lookup_empty. }
  apply Forall_cons in Hp as [((Hf1 & Hf2 & Hf3) & Hf4 & (Ht1 & Ht2 & Ht3) & [op Hop]) Hl]. cbn [fst snd] in *.
  rewrite fmap_cons in Hn. apply NoDup_cons in Hn as [Hnin Hn].
  destruct (IH (<[from := op]> out) Hl Hn) as (m & Hm & Hlook). exists m. split.
  - rewrite fmap_cons. cbn [parse_pairs fst snd]. rewrite Cut_pair by done. rewrite (TrimSpace_graphic from), (TrimSpace_graphic to), !bool_decide_false by done.
    cbn [negb orb]. by rewrite Hop.
  - intros k. rewrite Hlook. cbn [list_to_map foldr fst snd]. destruct (decide (k = from)) as [->|Hne].
    + rewrite lookup_insert_eq. rewrite (not_elem_of_list_to_map_1 l from) by done. by rewrite lookup_insert_eq.
    + rewrite !lookup_insert_ne by done. done.
Qed.

(** What rename_field leaves under a key. *)
Lemma rename_fold l : ∀ out key,
  (∀ kv, kv ∈ l → codecFieldKeys !! kv.1 ≠ Some key) → foldl rename_field out l !! key = out !! key.
Proof.
  induction l as [|kv l IH]; intros out key Hk; [done|]. cbn [foldl]. rewrite IH by (intros; apply Hk; by right).
  unfold rename_field. destruct (codecFieldKeys !! kv.1) as [key'|] eqn:Hc; [|done].
  rewrite lookup_insert_ne; [done|]. intros ->. by apply (Hk kv); [left|].
Qed.

Lemma codecFieldKeys_inj f f' key : codecFieldKeys !! f = Some key → codecFieldKeys !! f' = Some key → f = f'.
Proof.
  assert (Forall (λ p : (string * string) * (string * string), p.1.2 = p.2.2 → p.1.1 = p.2.1)
    (list_prod (map_to_list codecFieldKeys) (map_to_list codecFieldKeys))) as Hall
    by (apply (bool_decide_unpack _); by vm_compute).
  rewrite Forall_forall in Hall. intros H1 H2. apply (Hall ((f, key), (f', key))); [|done].
  apply list_elem_of_In, in_prod; apply list_elem_of_In, elem_of_map_to_list; done.
Qed.

Lemma rename_reads l : ∀ out field key, NoDup l.*1 → codecFieldKeys !! field = Some key →
  foldl rename_field out l !! key = match list_to_map (M := gmap string string) l !! field with Some n => Some n | None => out !! key end.
Proof.
  induction l as [|[f n] l IH]; intros out field key Hn Hk; [cbn [foldl list_to_map foldr]; by rewrite lookup_empty|].
  rewrite fmap_cons in Hn. apply NoDup_cons in Hn as [Hnin Hn]. cbn [foldl]. rewrite (IH _ field key Hn Hk).
  cbn [list_to_map foldr fst snd]. unfold rename_field. cbn [fst snd]. destruct (decide (f = field)) as [->|Hne].
  - rewrite lookup_insert_eq, Hk, lookup_insert_eq. by rewrite (not_elem_of_list_to_map_1 l field).
  - rewrite lookup_insert_ne by done. destruct (list_to_map l !! field); [done|].
    destruct (codecFieldKeys !! f) as [key'|] eqn:Hf; [|done]. rewrite lookup_insert_ne; [done|].
    intros ->. apply Hne. by eapply codecFieldKeys_inj.
Qed.

Lemma list_to_map_range (m : gmap string string) : list_to_map (range_map m) = m.
Proof.
  rewrite <- (list_to_map_to_list m) at 2. apply list_to_map_proper; [apply NoDup_fst_range_map|].
  unfold range_map. apply range_order_perm.
Qed.

Definition codec_base (c : CodecSpec) : gmap string string :=
  settings [("maxPayloadBytes", FormatInt (Codec_MaxPayloadBytes c)); ("retainRaw", FormatBool (Codec_RetainRaw c))].

(** A key that renames a field is none of the others, and belongs to one field. *)
Lemma codecFieldKeys_keys : map_Forall (λ _ key, key ≠ "opMapping" ∧ key ≠ "maxPayloadBytes" ∧ key ≠ "retainRaw"
  ∧ key ≠ "maxKeyBytes" ∧ key ≠ "maxDepth") codecFieldKeys.
Proof. apply (bool_decide_unpack _). by vm_compute. Qed.
Lemma configKeys_named : Forall (λ p : field * (string * string),
  Exists (λ q : string * string, q.2 = p.2.1) (map_to_list codecFieldKeys)) configKeys.
Proof. apply (bool_decide_unpack _). by vm_compute. Qed.

Lemma CodecConfig_field s field key : codecFieldKeys !! field = Some key →
  CodecConfig s !! key = Codec_FieldMapping (Spec_Codec s) !! field.
Proof.
  intros Hk. destruct (codecFieldKeys_keys _ _ Hk) as (H1 & H2 & H3 & _). unfold CodecConfig.
  set (out := foldl _ _ _).
  assert (out !! key = Codec_FieldMapping (Spec_Codec s) !! field) as Ho.
  { unfold out. rewrite (rename_reads _ _ field key) by (done || apply NoDup_fst_range_map). rewrite list_to_map_range.
    destruct (Codec_FieldMapping (Spec_Codec s) !! field); [done|]. unfold settings. cbn [list_to_map foldr fst snd].
    by rewrite !lookup_insert_ne, lookup_empty by congruence. }
  case_bool_decide; [done|]. by rewrite lookup_insert_ne by congruence.
Qed.

Lemma CodecConfig_other s key : key ≠ "opMapping" → (∀ field, codecFieldKeys !! field ≠ Some key) →
  CodecConfig s !! key = codec_base (Spec_Codec s) !! key.
Proof.
  intros Ho Hk. unfold CodecConfig. set (out := foldl _ _ _).
  assert (out !! key = codec_base (Spec_Codec s) !! key) as Hout by (unfold out; apply rename_fold; intros kv _; apply Hk).
  case_bool_decide; [done|]. by rewrite lookup_insert_ne by congruence.
Qed.

Lemma not_field_key key : key ∈ ["maxPayloadBytes"; "retainRaw"; "maxKeyBytes"; "maxDepth"] →
  key ≠ "opMapping" ∧ ∀ field, codecFieldKeys !! field ≠ Some key.
Proof.
  intros Hin. split.
  - intros ->. revert Hin. apply (bool_decide_unpack (_ ∉ _)). by vm_compute.
  - intros field Hk. destruct (codecFieldKeys_keys _ _ Hk) as (H1 & H2 & H3 & H4 & H5). set_solver.
Qed.

Lemma CodecConfig_ops s : map_Forall (λ from to, plain_op from ∧ free_of "=" from = true ∧ plain_op to ∧ is_Some (Event.ParseOp to)) (Codec_OpMapping (Spec_Codec s)) →
  ∃ m, parseOpMapping (default "" (CodecConfig s !! "opMapping")) = inr m
    ∧ ∀ from, m !! from = Codec_OpMapping (Spec_Codec s) !! from ≫= Event.ParseOp.
Proof.
  intros Hp. set (om := Codec_OpMapping (Spec_Codec s)) in *. unfold CodecConfig. fold om. case_bool_decide as He.
  { exists ∅. rewrite rename_fold.
    - split; [done|]. intros from. by rewrite He, !lookup_empty.
    - intros kv _ Hk. by destruct (codecFieldKeys_keys _ _ Hk). }
  rewrite lookup_insert_eq. cbn [from_option id]. unfold op_pairs.
  set (f := λ kv : string * string, kv.1 +:+ "=" +:+ kv.2). set (ps := sort_Strings (f <$> range_map om)).
  assert (ps ≡ₚ f <$> map_to_list om) as Hperm.
  { unfold ps, sort_Strings. rewrite merge_sort_Permutation. unfold range_map. by rewrite range_order_perm. }
  apply Permutation_map_inv in Hperm as (l & Hps & Hl).
  assert (Forall (λ kv : string * string, plain_op kv.1 ∧ free_of "=" kv.1 = true ∧ plain_op kv.2 ∧ is_Some (Event.ParseOp kv.2)) l) as Hpl.
  { apply Forall_forall. intros [from to] Hin. rewrite <- Hl, elem_of_map_to_list in Hin. by apply Hp. }
  assert (NoDup l.*1) as Hnd by (rewrite <- Hl; apply NoDup_fst_map_to_list).
  assert (l ≠ []) as Hne.
  { intros ->. apply Permutation_nil_r in Hl. by apply map_to_list_empty_iff in Hl. }
  assert (list_to_map l = om) as Hmap.
  { rewrite <- (list_to_map_to_list om). symmetry. apply list_to_map_proper; [apply NoDup_fst_map_to_list|done]. }
  change (List.map f l) with (f <$> l) in Hps. rewrite Hps.
  destruct (parse_pairs_reads l ∅ Hpl Hnd) as (m & Hm & Hlook). exists m. split.
  - unfold parseOpMapping. rewrite bool_decide_false; [rewrite Split_Join|].
    + exact Hm.
    + by destruct l.
    + apply Forall_fmap. eapply Forall_impl; [exact Hpl|]. intros [from to] ((_ & F1 & _) & _ & (_ & F2 & _) & _).
      cbn [fst snd compose] in *. unfold f. cbn [compose fst snd]. by rewrite !free_of_app, F1, F2.
    + rewrite TrimSpace_graphic.
      * apply Join_empty; [by destruct l|]. apply Forall_fmap, Forall_true. intros [from to]. unfold f. cbn. by destruct from.
      * apply graphic_Join, Forall_fmap. eapply Forall_impl; [exact Hpl|]. intros [from to] ((F1 & _) & _ & (F2 & _) & _).
        unfold f. cbn [compose fst snd] in *. by rewrite !graphic_app, F1, F2.
  - intros from. rewrite Hlook, Hmap, lookup_empty. by destruct (om !! from).
Qed.

Lemma intConfig_base m key d n : m !! key = Some (FormatInt n) → is_i64 n → 0 < n → intConfig m key d = inr n.
Proof.
  intros Hm Hn Hp. unfold intConfig. rewrite Hm, TrimSpace_graphic by apply FormatInt_graphic.
  rewrite ParseInt_FormatInt by done. by assert ((n <=? 0) = false) as -> by lia.
Qed.


(** No specification makes a template codec: its pattern is not among the settings. *)
Lemma template_codec_is_never_built `{Template.RegexpEngine} s : Template.newTemplate (CodecConfig s) = inl ErrBadConfig.
Proof.
  unfold Template.newTemplate. rewrite CodecConfig_other; [|done|].
  - unfold codec_base, settings. cbn [list_to_map foldr fst snd]. by rewrite !lookup_insert_ne, lookup_empty by done.
  - intros field Hk. assert (map_Forall (λ _ key, key ≠ "pattern") codecFieldKeys) as Hall by (apply (bool_decide_unpack _); by vm_compute).
    by apply (Hall _ _ Hk).
Qed.
End facts.

(** ** Defaults *)

Lemma positive_or_twice d x : 0 < d → positive_or d (positive_or d x) = positive_or d x.
Proof. intros Hd. unfold positive_or. destruct (Z.leb_spec x 0); [by destruct (Z.leb_spec d 0); [lia|]|]. by destruct (Z.leb_spec x 0); [lia|]. Qed.
Lemma nonempty_or_twice d x : nonempty_or d (nonempty_or d x) = nonempty_or d x.
Proof. unfold nonempty_or. repeat case_decide; congruence. Qed.
Lemma positive_decimal_or_twice d x : SFleb d (S754_zero false) = false →
  positive_decimal_or d (positive_decimal_or d x) = positive_decimal_or d x.
Proof. intros Hd. unfold positive_decimal_or. destruct (SFleb x _) eqn:Hx; by rewrite ?Hd, ?Hx. Qed.

Lemma default_redis_twice r : default_redis (default_redis r) = default_redis r.
Proof. destruct r. unfold default_redis. cbn. by rewrite !positive_or_twice, !nonempty_or_twice by done. Qed.

Lemma defaultTarget_twice t : defaultTarget (defaultTarget t) = defaultTarget t.
Proof.
  unfold defaultTarget. cbv zeta. set (ty := nonempty_or "memory" (Target_Type t)).
  destruct (negb (bool_decide (ty = "redis"))) eqn:Hty; cbn [Target_Type Target_Redis Target_Settings];
    rewrite (nonempty_or_twice "memory" (Target_Type t) : nonempty_or "memory" ty = ty), Hty; [done|].
  cbn [from_option id]. by rewrite default_redis_twice.
Qed.

(** defaults settle: filling in the defaults of a specification that already has them changes nothing,
    so a configuration that is rendered, read and filled in again means the same. *)
Theorem defaults_settle s : ApplyDefaults (ApplyDefaults s) = ApplyDefaults s.
Proof.
  destruct s as [n ns src cod proj tgt pol al]. unfold ApplyDefaults. cbn [Spec_Name Spec_Namespace Spec_Source Spec_Codec Spec_Projection Spec_Target Spec_Policy Spec_Alert].
  rewrite nonempty_or_twice, defaultTarget_twice. f_equal.
  - destruct src as [ty z nt f b]. unfold defaultSource. cbn. rewrite nonempty_or_twice, positive_or_twice by done.
    f_equal; [destruct z as [[]|]|destruct f as [[]|]]; cbn; by rewrite ?positive_or_twice, ?nonempty_or_twice by done.
  - destruct cod. unfold defaultCodec. cbn. by rewrite nonempty_or_twice, positive_or_twice by done.
  - destruct proj. unfold defaultProjection. cbn. by rewrite !nonempty_or_twice, positive_or_twice by done.
  - destruct pol as [[] ? ? ? ? ? ? ? rw]. unfold defaultPolicy. cbn.
    rewrite !positive_or_twice, !nonempty_or_twice, positive_decimal_or_twice by done. f_equal.
    destruct (Z.eqb_spec rw 0); [done|]. by destruct (Z.eqb_spec rw 0).
  - destruct al. unfold defaultAlert. cbn. by rewrite !positive_or_twice, positive_decimal_or_twice by done.
Qed.
