(* ===== verification/Source.v ===== *)
(** * Source: what the event transports share (pkg/source/source.go)

    The configuration a source is built from, the registry, the counters behind one
    mutex and the channels a source writes to: the pipeline's and the buffered one
    of possible-loss signals. An error is its sentinel and its text. *)
From Stdlib Require Import Ascii String.
From stdpp Require Import strings sorting.
From S2P Require Import Prelude GoBase GoStrings GoTime GoFormat GoText Event Codec.
From S2P Require Ingest.

(** ** Errors *)

Inductive sentinel :=
  | ErrUnknownSource | ErrBadConfig | ErrIdle | ErrPayloadTooLarge | ErrQueueGroupSet
  | ContextCanceled
  | Foreign.

#[export] Instance sentinel_eq_dec : EqDecision sentinel.
Proof. solve_decision. Defined.

Definition sentinel_text (s : sentinel) : string :=
  match s with
  | ErrUnknownSource => "unknown source"
  | ErrBadConfig => "invalid source configuration"
  | ErrIdle => "no frames received within the idle timeout"
  | ErrPayloadTooLarge => "payload exceeds the configured maximum"
  | ErrQueueGroupSet =>
      "source.nats.queueGroup must be empty: a queue group would distribute events across replicas and corrupt the oracle"
  | ContextCanceled => "context canceled"
  | Foreign => ""
  end.

(** What errors.Is finds in the chain, and the text. *)
Record error := mkError { Is : sentinel; Error : string }.

#[export] Instance error_eq_dec : EqDecision error.
Proof. solve_decision. Defined.

Definition bare (s : sentinel) : error := mkError s (sentinel_text s).
Definition wrap (s : sentinel) (rest : string) : error := mkError s (sentinel_text s +:+ rest).

(** %v of a slice of strings. *)
Definition format_list (l : list string) : string := "[" +:+ strings_Join l " " +:+ "]".

(** ** Configuration *)

Definition defaultMaxPayloadBytes : Z := Z.shiftl 8 20.
Definition defaultShutdownGrace : Duration := 10 * time_Second.

Record Config := mkConfig {
  Settings : gmap string string;
  MaxPayloadBytes : Z;
  ShutdownGrace : Duration
}.

Definition applyDefaults (c : Config) : Config :=
  mkConfig (Settings c)
    (if MaxPayloadBytes c <=? 0 then defaultMaxPayloadBytes else MaxPayloadBytes c)
    (if ShutdownGrace c <=? 0 then defaultShutdownGrace else ShutdownGrace c).

Definition Setting (c : Config) (key def : string) : string :=
  match Settings c !! key with
  | Some v => if bool_decide (v = "") then def else v
  | None => def
  end.

Definition SettingList (c : Config) (key : string) : list string :=
  let raw := Setting c key "" in
  if bool_decide (raw = "") then []
  else filter (λ p, p ≠ "") (TrimSpace <$> strings_Split raw ",").

(** strconv.ParseBool *)
Definition ParseBool (s : string) : option bool :=
  if bool_decide (s ∈ ["1"; "t"; "T"; "TRUE"; "true"; "True"]) then Some true
  else if bool_decide (s ∈ ["0"; "f"; "F"; "FALSE"; "false"; "False"]) then Some false
  else None.

Section settings.
Context `{UnicodePrint}.

Definition SettingInt (c : Config) (key : string) (def : Z) : error + Z :=
  let raw := Setting c key "" in
  if bool_decide (raw = "") then inr def
  else match ParseInt raw with
       | Some n => inr n
       | None => inl (wrap ErrBadConfig (": " +:+ key +:+ " must be an integer, got " +:+ strconv_Quote raw))
       end.

Definition SettingDuration (c : Config) (key : string) (def : Duration) : error + Duration :=
  let raw := Setting c key "" in
  if bool_decide (raw = "") then inr def
  else match ParseDuration raw with
       | Some d =>
           if d <? 0 then inl (wrap ErrBadConfig (": " +:+ key +:+ " must not be negative, got " +:+ strconv_Quote raw))
           else inr d
       | None => inl (wrap ErrBadConfig (": " +:+ key +:+ " must be a duration, got " +:+ strconv_Quote raw))
       end.

Definition SettingBool (c : Config) (key : string) (def : bool) : error + bool :=
  let raw := Setting c key "" in
  if bool_decide (raw = "") then inr def
  else match ParseBool raw with
       | Some b => inr b
       | None => inl (wrap ErrBadConfig (": " +:+ key +:+ " must be true or false, got " +:+ strconv_Quote raw))
       end.

(** ** The registry *)

(** The table, and what a constructor gives. Registering a name twice panics. *)
Definition Register {S} (name : string) (ctor : Config → error + S) (registry : gmap string (Config → error + S)) :
    option (gmap string (Config → error + S)) :=
  if bool_decide (is_Some (registry !! name)) then None else Some (<[name := ctor]> registry).

Definition Registered {S} (registry : gmap string (Config → error + S)) : list string := sort_Strings (elements (dom registry)).

Definition New {S} (registry : gmap string (Config → error + S)) (name : string) (cfg : Config) : error + S :=
  match registry !! name with
  | None => inl (wrap ErrUnknownSource (": " +:+ strconv_Quote name +:+ ", registered: " +:+ format_list (Registered registry)))
  | Some ctor => ctor (applyDefaults cfg)
  end.
End settings.

(** ** Counters *)

Record Stats := mkStats {
  Connected : bool;
  Reconnects : Z;
  FramesReceived : Z;
  BytesReceived : Z;
  LastFrameAt : Time;
  LastError : string;
  Dropped : Z;
  Gaps : Z
}.

Definition no_stats : Stats := mkStats false 0 0 0 zero_time "" 0 0.

Definition frame (s : Stats) (n : Z) (at_ : Time) : Stats :=
  mkStats (Connected s) (Reconnects s) (u64 (FramesReceived s + 1)) (u64 (BytesReceived s + u64 n)) at_ (LastError s) (Dropped s) (Gaps s).
Definition connected (s : Stats) (v : bool) : Stats :=
  mkStats v (Reconnects s) (FramesReceived s) (BytesReceived s) (LastFrameAt s) (LastError s) (Dropped s) (Gaps s).
Definition reconnected (s : Stats) : Stats :=
  mkStats false (u64 (Reconnects s + 1)) (FramesReceived s) (BytesReceived s) (LastFrameAt s) (LastError s) (Dropped s) (Gaps s).
Definition dropped (s : Stats) : Stats :=
  mkStats (Connected s) (Reconnects s) (FramesReceived s) (BytesReceived s) (LastFrameAt s) (LastError s) (u64 (Dropped s + 1)) (Gaps s).
Definition gap (s : Stats) : Stats :=
  mkStats (Connected s) (Reconnects s) (FramesReceived s) (BytesReceived s) (LastFrameAt s) (LastError s) (Dropped s) (u64 (Gaps s + 1)).
Definition failed (s : Stats) (err : option error) : Stats :=
  match err with
  | None => s
  | Some e => mkStats (Connected s) (Reconnects s) (FramesReceived s) (BytesReceived s) (LastFrameAt s) (Error e) (Dropped s) (Gaps s)
  end.

(** ** Channels *)

(** A buffered channel with what its receiver has taken, oldest first. *)
Record chan (A : Type) := mkChan { cap : nat; taken : list A; queued : list A }.
Arguments mkChan {A}. Arguments cap {A}. Arguments taken {A}. Arguments queued {A}.

Definition make_chan {A} (n : nat) : chan A := mkChan n [] [].

(** A send with a default branch. *)
Definition offer {A} (c : chan A) (a : A) : chan A * bool :=
  if (length (queued c) <? cap c)%nat then (mkChan (cap c) (taken c) (queued c ++ [a]), true) else (c, false).

(** The receiver takes the oldest element, where there is one. *)
Definition receive {A} (c : chan A) : chan A :=
  match queued c with
  | [] => c
  | a :: q => mkChan (cap c) (taken c ++ [a]) q
  end.

(** All that was ever accepted. *)
Definition accepted {A} (c : chan A) : list A := taken c ++ queued c.

Lemma accepted_offer {A} (c : chan A) a : accepted (offer c a).1 = accepted c ++ (if (offer c a).2 then [a] else []).
Proof. unfold offer. case_match; cbn; [by rewrite (assoc_L (++))|by rewrite app_nil_r]. Qed.
Lemma accepted_receive {A} (c : chan A) : accepted (receive c) = accepted c.
Proof. unfold receive, accepted. destruct (queued c) as [|a q] eqn:Hq; [by rewrite Hq|]. cbn. by rewrite <-(assoc_L (++)). Qed.
Lemma cap_offer {A} (c : chan A) a : cap (offer c a).1 = cap c.
Proof. unfold offer. by case_match. Qed.
Lemma cap_receive {A} (c : chan A) : cap (receive c) = cap c.
Proof. unfold receive. by case_match. Qed.

(** ** Gap signals *)

Inductive GapReason := GapReconnect | GapHighWaterMark | GapOversized | GapIdle.

#[export] Instance GapReason_eq_dec : EqDecision GapReason.
Proof. solve_decision. Defined.

Definition GapReason_text (r : GapReason) : string :=
  match r with
  | GapReconnect => "reconnect"
  | GapHighWaterMark => "high_water_mark"
  | GapOversized => "oversized_frame"
  | GapIdle => "idle_timeout"
  end.

Record GapSignal := mkSignal { GSource : string; GReason : GapReason; GAt : Time; GDetail : string }.

(** What a source that can lose messages writes to. *)
Record wire := mkWire { c : Stats; ch : chan GapSignal; out : chan Ingest.RawMessage }.

(** newGapChannel, and the pipeline's channel of [n] places. *)
Definition new_wire (n : nat) : wire := mkWire no_stats (make_chan 16) (make_chan n).

Definition count (w : wire) (f : Stats → Stats) : wire := mkWire (f (c w)) (ch w) (out w).

Definition signal (name : string) (w : wire) (reason : GapReason) (at_ : Time) (detail : string) : wire :=
  mkWire (gap (c w)) (offer (ch w) (mkSignal name reason at_ detail)).1 (out w).

Definition trySend (w : wire) (msg : Ingest.RawMessage) : wire * bool :=
  let '(o, ok) := offer (out w) msg in (mkWire (c w) (ch w) o, ok).

(** The pipeline takes a message, or a signal. *)
Definition take_message (w : wire) : wire := mkWire (c w) (ch w) (receive (out w)).
Definition take_signal (w : wire) : wire := mkWire (c w) (receive (ch w)) (out w).

(** ** One frame *)

(** The two branches every lossy source shares: what is too large is refused, what the pipeline has
    no place for is dropped, and either is counted and signalled. *)
Definition too_large (name : string) (w : wire) (now : Time) (detail : string) : wire :=
  signal name (count w (λ s, failed (dropped s) (Some (bare ErrPayloadTooLarge)))) GapOversized now detail.
Definition hand_over (name : string) (w : wire) (raw : Ingest.RawMessage) (detail : string) : wire * bool :=
  let '(w, ok) := trySend w raw in
  if ok then (count w (λ s, frame s (Z.of_nat (String.length (Ingest.Payload raw))) (Ingest.RObservedAt raw)), true)
  else (signal name (count w dropped) GapHighWaterMark (Ingest.RObservedAt raw) detail, false).

(** ** Accounts *)

(** A counter of so many things. *)
Definition counted {A} (l : list A) : Z := u64 (Z.of_nat (length l)).

Lemma counted_snoc {A} (l : list A) a : counted (l ++ [a]) = u64 (counted l + 1).
Proof. unfold counted. rewrite length_app. unfold u64. cbn [length]. rewrite Zplus_mod_idemp_l. f_equal. lia. Qed.

Lemma counted_app {A} (a b : list A) : counted (a ++ b) = u64 (counted a + Z.of_nat (length b)).
Proof. unfold counted, u64. rewrite length_app, Zplus_mod_idemp_l. f_equal. lia. Qed.

Lemma u64_same n : is_u64 n → u64 (n + 0) = n.
Proof. intros Hn. rewrite Z.add_0_r. by apply u64_small. Qed.

Lemma counted_range {A} (l : list A) : is_u64 (counted l).
Proof. apply u64_range. Qed.

Lemma reasons_offer g sig : ∃ l, GReason <$> accepted (offer g sig).1 = (GReason <$> accepted g) ++ l ∧ l `sublist_of` [GReason sig].
Proof.
  rewrite accepted_offer. destruct (offer g sig).2; rewrite fmap_app; eexists; (split; [done|]); [done|]. apply sublist_nil_l.
Qed.

(** A counter that the frame does, or does not, move. *)
Ltac tally := solve [cbn; change (Z.of_nat 0) with 0; rewrite ?u64_same by done; done].
