(* ===== verification/SourceMemory.v ===== *)
(** * SourceMemory: the in-process source (pkg/source/memory.go)

    A backlog behind a mutex, one pending wake-up, and the loop of Run. Publishers,
    the closer and Run interleave at their locks and channel operations: each of
    those is one step here, and a publisher that has unlocked but not yet woken Run
    owes a wake-up. *)
From Stdlib Require Import Ascii String.
From stdpp Require Import strings.
From S2P Require Import Prelude GoBase GoStrings GoText Source.
From S2P Require Import Ingest.

Definition defaultMemoryBuffer : Z := 4096.

Record MemorySource := mkMemory {
  m_c : Stats;
  buf : list RawMessage;
  closed : bool;
  waiting : bool;
  maxPayload : Z;
  capacity : Z
}.

Inductive MemoryOption := WithCapacity (n : Z) | WithMaxPayload (n : Z).

Definition apply_option (m : MemorySource) (opt : MemoryOption) : MemorySource :=
  match opt with
  | WithCapacity n => if 0 <? n then mkMemory (m_c m) (buf m) (closed m) (waiting m) (maxPayload m) n else m
  | WithMaxPayload n => if 0 <? n then mkMemory (m_c m) (buf m) (closed m) (waiting m) n (capacity m) else m
  end.

Definition NewMemory (opts : list MemoryOption) : MemorySource :=
  let m := foldl apply_option (mkMemory no_stats [] false false defaultMaxPayloadBytes defaultMemoryBuffer) opts in
  mkMemory (connected (m_c m) true) (buf m) (closed m) (waiting m) (maxPayload m) (capacity m).

Definition newMemory `{UnicodePrint} (cfg : Config) : error + MemorySource :=
  capacity ← SettingInt cfg "buffer" defaultMemoryBuffer;
  inr (NewMemory [WithCapacity capacity; WithMaxPayload (MaxPayloadBytes cfg)]).

Definition with_stats (m : MemorySource) (f : Stats → Stats) : MemorySource :=
  mkMemory (f (m_c m)) (buf m) (closed m) (waiting m) (maxPayload m) (capacity m).

Definition wake (m : MemorySource) : MemorySource :=
  mkMemory (m_c m) (buf m) (closed m) true (maxPayload m) (capacity m).

(** Up to the second unlock of Publish: whether the message was accepted. *)
Definition publish (m : MemorySource) (now : Time) (msg : RawMessage) : MemorySource * bool :=
  if maxPayload m <? Z.of_nat (String.length (Payload msg))
  then (with_stats m (λ s, failed (dropped s) (Some (bare ErrPayloadTooLarge))), false)
  else
    let msg := if IsZero (RObservedAt msg) then mkRaw (RTopic msg) (Payload msg) now else msg in
    if closed m || (capacity m <=? Z.of_nat (length (buf m)))
    then (if closed m then m else with_stats m dropped, false)
    else (mkMemory (m_c m) (buf m ++ [msg]) (closed m) (waiting m) (maxPayload m) (capacity m), true).

Definition Publish (m : MemorySource) (now : Time) (msg : RawMessage) : MemorySource * bool :=
  let '(m, ok) := publish m now msg in (if ok then wake m else m, ok).

Definition PublishPayload (m : MemorySource) (now : Time) (payload : string) : MemorySource * bool :=
  Publish m now (mkRaw "" payload zero_time).

Definition Backlog (m : MemorySource) : Z := Z.of_nat (length (buf m)).

Definition take (m : MemorySource) : list RawMessage * MemorySource :=
  (buf m, mkMemory (m_c m) [] (closed m) (waiting m) (maxPayload m) (capacity m)).

(** Up to the unlock of Close: whether it closed anything. *)
Definition close (m : MemorySource) : MemorySource * bool :=
  if closed m then (m, false)
  else (mkMemory (connected (m_c m) false) (buf m) true (waiting m) (maxPayload m) (capacity m), true).

Definition Close (m : MemorySource) : MemorySource :=
  let '(m, ok) := close m in if ok then wake m else m.

(** ** Run *)

(** Where the loop is: about to take the backlog, delivering a batch, about to ask whether the source
    is closed, waiting, or back. *)
Inductive runner :=
  | Taking
  | Sending (batch : list RawMessage)
  | Asking
  | Waiting
  | Returned (err : option error).

Record system := mkSystem {
  mem : MemorySource;
  run : runner;
  pipe : chan RawMessage;
  canceled : bool;
  owed : nat
}.

Definition set_run (s : system) (m : MemorySource) (r : runner) : system := mkSystem m r (pipe s) (canceled s) (owed s).

(** send: [None] while the channel is full and the context is not done. [done] chooses where both
    cases of the select are ready. *)
Definition send (s : system) (done : bool) (msg : RawMessage) (batch : list RawMessage) : option system :=
  if done then (if canceled s then Some (set_run s (mem s) (Returned (Some (bare ContextCanceled)))) else None)
  else
    let '(p, ok) := offer (pipe s) msg in
    if ok then
      Some (mkSystem (with_stats (mem s) (λ st, frame st (Z.of_nat (String.length (Payload msg))) (RObservedAt msg)))
              (Sending batch) p (canceled s) (owed s))
    else None.

(** One step of Run, or [None] where it is blocked or back. *)
Definition run_step (done : bool) (s : system) : option system :=
  match run s with
  | Taking => let '(batch, m) := take (mem s) in Some (set_run s m (if bool_decide (batch = []) then Asking else Sending batch))
  | Sending [] => Some (set_run s (mem s) Taking)
  | Sending (msg :: batch) => send s done msg batch
  | Asking => Some (set_run s (mem s) (if closed (mem s) then Returned None else Waiting))
  | Waiting =>
      if done then (if canceled s then Some (set_run s (mem s) (Returned (Some (bare ContextCanceled)))) else None)
      else if waiting (mem s) then
        let m := mem s in
        Some (set_run s (mkMemory (m_c m) (buf m) (closed m) false (maxPayload m) (capacity m)) Taking)
      else None
  | Returned _ => None
  end.

(** What can happen, with the message it accepts. *)
Inductive mstep : system → option RawMessage → system → Prop :=
  | step_publish s now msg m ok :
      publish (mem s) now msg = (m, ok) →
      mstep s (if ok then last (buf m) else None)
        (mkSystem m (run s) (pipe s) (canceled s) (if ok then S (owed s) else owed s))
  | step_close s m ok :
      close (mem s) = (m, ok) → mstep s None (mkSystem m (run s) (pipe s) (canceled s) (if ok then S (owed s) else owed s))
  | step_wake s n : owed s = S n → mstep s None (mkSystem (wake (mem s)) (run s) (pipe s) (canceled s) n)
  | step_run s done s' : run_step done s = Some s' → mstep s None s'
  | step_receive s : mstep s None (mkSystem (mem s) (run s) (receive (pipe s)) (canceled s) (owed s))
  | step_cancel s : mstep s None (mkSystem (mem s) (run s) (pipe s) true (owed s)).

Definition started (opts : list MemoryOption) (n : nat) : system := mkSystem (NewMemory opts) Taking (make_chan n) false 0.

(** The states reached while the messages of [log] were accepted, in that order. *)
Inductive reached (opts : list MemoryOption) (n : nat) : list RawMessage → system → Prop :=
  | reached_start : reached opts n [] (started opts n)
  | reached_step log s a s' : reached opts n log s → mstep s a s' → reached opts n (log ++ option_list a) s'.

(** ** What the loop promises *)

Definition in_hand (r : runner) : list RawMessage := match r with Sending batch => batch | _ => [] end.

Record orderly (log : list RawMessage) (s : system) : Prop := mk_orderly {
  or_fifo : ∃ lost, log = accepted (pipe s) ++ lost ++ in_hand (run s) ++ buf (mem s)
              ∧ (lost ≠ [] → run s = Returned (Some (bare ContextCanceled)) ∧ canceled s = true);
  or_frames : FramesReceived (m_c (mem s)) = u64 (Z.of_nat (length (accepted (pipe s))));
  or_room : Z.of_nat (length (buf (mem s))) ≤ capacity (mem s);
  or_awake : run s = Waiting → buf (mem s) ≠ [] ∨ closed (mem s) = true → waiting (mem s) = true ∨ (0 < owed s)%nat;
  or_asking : run s = Asking → buf (mem s) ≠ [] → waiting (mem s) = true ∨ (0 < owed s)%nat
}.

Lemma capacity_apply m opt : 0 < capacity m → 0 < capacity (apply_option m opt).
Proof. destruct opt; cbn; case_match; cbn; lia. Qed.

Lemma NewMemory_fields opts :
  buf (NewMemory opts) = [] ∧ FramesReceived (m_c (NewMemory opts)) = 0 ∧ 0 < capacity (NewMemory opts).
Proof.
  unfold NewMemory. cbn [buf m_c capacity FramesReceived connected].
  set (m := mkMemory _ _ _ _ _ _).
  assert (buf m = [] ∧ FramesReceived (m_c m) = 0 ∧ 0 < capacity m) as Hm by done. clearbody m.
  revert m Hm. induction opts as [|o opts IH]; intros m (Hb & Hf & Hc); [done|]. cbn [foldl]. apply IH.
  split_and!; [| |by apply capacity_apply]; destruct o; cbn; by case_match.
Qed.

Lemma orderly_started opts n : orderly [] (started opts n).
Proof.
  destruct (NewMemory_fields opts) as (Hb & Hf & Hc).
  constructor; unfold started; cbn [run pipe mem canceled owed in_hand]; rewrite ?Hb, ?Hf; try done.
  - by exists [].
  - cbn [length]. lia.
Qed.

Lemma publish_fields m now msg m' ok : publish m now msg = (m', ok) →
  FramesReceived (m_c m') = FramesReceived (m_c m) ∧ closed m' = closed m ∧ waiting m' = waiting m ∧ capacity m' = capacity m
  ∧ (ok = false → buf m' = buf m)
  ∧ (ok = true → ∃ msg', buf m' = buf m ++ [msg'] ∧ Z.of_nat (length (buf m)) < capacity m).
Proof.
  unfold publish. intros H. repeat case_match; simplify_eq; cbn; try by split_and!.
  all: zbool; split_and!; try done; intros _; eexists; (split; [done|lia]).
Qed.

Lemma close_fields m m' ok : close m = (m', ok) →
  FramesReceived (m_c m') = FramesReceived (m_c m) ∧ closed m' = true ∧ waiting m' = waiting m ∧ capacity m' = capacity m
  ∧ buf m' = buf m ∧ (ok = false → m' = m).
Proof. unfold close. intros H. case_match; by simplify_eq. Qed.

Lemma orderly_publish log s now msg m ok : orderly log s → publish (mem s) now msg = (m, ok) →
  orderly (log ++ option_list (if ok then last (buf m) else None))
    (mkSystem m (run s) (pipe s) (canceled s) (if ok then S (owed s) else owed s)).
Proof.
  intros [(lost & Hl & Hlost) Hf Hr Ha Hq] Hp. apply publish_fields in Hp as (Ef & Ec & Ew & Ek & Hno & Hyes).
  destruct ok.
  - destruct (Hyes eq_refl) as (msg' & Eb & Hlt). rewrite Eb, last_snoc. cbn [option_list].
    constructor; cbn [run pipe mem canceled owed]; rewrite ?Eb, ?Ef, ?Ek, ?Ew, ?Ec; try (intros; right; lia); try done.
    + exists lost. split; [|done]. rewrite Hl. by rewrite <-!(assoc_L (++)).
    + rewrite length_app. cbn [length]. lia.
  - rewrite app_nil_r. specialize (Hno eq_refl).
    constructor; cbn [run pipe mem canceled owed]; rewrite ?Hno, ?Ef, ?Ek, ?Ew, ?Ec; try done. by exists lost.
Qed.

Lemma orderly_run log s done s' : orderly log s → run_step done s = Some s' → orderly log s'.
Proof.
  intros [(lost & Hl & Hlost) Hf Hr Ha Hq]. unfold run_step, send, set_run.
  destruct (run s) as [|[|msg batch]| | |err] eqn:Erun; cbn [in_hand] in Hl.
  - cbn. intros [= <-]. constructor; cbn [run pipe mem canceled owed buf m_c capacity length]; try done; [|lia|].
    + exists lost. split; [|intros Hne; by destruct (Hlost Hne)]. rewrite Hl. case_bool_decide as Hb; cbn [in_hand]; [by rewrite Hb|].
      by rewrite app_nil_r.
    + by case_bool_decide.
  - intros [= <-]. constructor; cbn [run pipe mem canceled owed]; try done. exists lost. split; [done|].
    intros Hne. by destruct (Hlost Hne).
  - assert (lost = []) as ->. { destruct lost; [done|]. by destruct Hlost. }
    destruct done.
    + destruct (canceled s) eqn:Ec; [|done]. intros [= <-]. constructor; cbn [run pipe mem canceled owed]; try done.
      exists (msg :: batch). by split.
    + destruct (offer (pipe s) msg) as [p ok] eqn:Ho. pose proof (accepted_offer (pipe s) msg) as Hacc. rewrite Ho in Hacc.
      cbn [fst snd] in Hacc. destruct ok; [|done]. intros [= <-].
      constructor; cbn [run pipe mem canceled owed with_stats m_c buf capacity frame FramesReceived]; try done.
      * exists []. split; [|done]. rewrite Hl, Hacc. cbn [in_hand]. by rewrite <-!(assoc_L (++)).
      * rewrite Hf, Hacc, length_app. unfold u64. cbn [length]. rewrite Zplus_mod_idemp_l. f_equal. lia.
  - assert (lost = []) as ->. { destruct lost; [done|]. by destruct Hlost. }
    intros [= <-]. constructor; cbn [run pipe mem canceled owed]; try done.
    + exists []. by destruct (closed (mem s)).
    + destruct (closed (mem s)) eqn:Ec; [done|]. intros _ [Hb|?]; [by apply Hq|done].
    + by destruct (closed (mem s)).
  - assert (lost = []) as ->. { destruct lost; [done|]. by destruct Hlost. }
    destruct done.
    + destruct (canceled s) eqn:Ec; [|done]. intros [= <-]. constructor; cbn [run pipe mem canceled owed]; try done. by exists [].
    + destruct (waiting (mem s)) eqn:Ew; [|done]. intros [= <-].
      constructor; cbn [run pipe mem canceled owed m_c buf capacity]; try done. by exists [].
  - done.
Qed.

Lemma orderly_step log s a s' : orderly log s → mstep s a s' → orderly (log ++ option_list a) s'.
Proof.
  intros Ho Hs. destruct Hs as [s now msg m ok Hp|s m ok Hc|s n Hn|s done s' Hr|s|s]; cbn [option_list]; rewrite ?app_nil_r.
  - by eapply orderly_publish.
  - destruct Ho as [Hl Hf Hr Ha Hq]. apply close_fields in Hc as (Ef & Ec & Ew & Ek & Eb & Hno).
    constructor; cbn [run pipe mem canceled owed]; rewrite ?Eb, ?Ef, ?Ek, ?Ew; try done.
    + destruct ok; [intros; right; lia|]. intros Hw Hb. rewrite (Hno eq_refl) in Hb. by apply Ha.
    + destruct ok; [intros; right; lia|]. done.
  - destruct Ho as [Hl Hf Hr Ha Hq]. constructor; cbn [run pipe mem canceled owed wake m_c buf capacity waiting]; try done; by left.
  - by eapply orderly_run.
  - destruct Ho as [Hl Hf Hr Ha Hq]. constructor; cbn [run pipe mem canceled owed]; rewrite ?accepted_receive; done.
  - destruct Ho as [(lost & Hl & Hlost) Hf Hr Ha Hq]. constructor; cbn [run pipe mem canceled owed]; try done.
    exists lost. split; [done|]. intros Hne. by destruct (Hlost Hne).
Qed.

Lemma reached_orderly opts n log s : reached opts n log s → orderly log s.
Proof. induction 1; [apply orderly_started|by eapply orderly_step]. Qed.

(** ** Delivery *)

Definition runs : relation system := λ s s', run_step false s = Some s'.

Definition room (s : system) (pending : list RawMessage) : Prop :=
  (length (queued (pipe s)) + length pending ≤ cap (pipe s))%nat.

(** Run has delivered all there was, and waits for more or is back. *)
Definition finished (s : system) : Prop := (run s = Waiting ∨ run s = Returned None) ∧ buf (mem s) = [].

Lemma runs_batch batch : ∀ s rest, run s = Sending batch → room s (batch ++ rest) →
  ∃ s', rtc runs s s' ∧ run s' = Taking ∧ buf (mem s') = buf (mem s) ∧ room s' rest.
Proof.
  induction batch as [|msg batch IH]; intros s rest Hr Hroom; unfold room in Hroom; cbn [length app] in Hroom.
  - exists (set_run s (mem s) Taking). split; [|done]. apply rtc_once. unfold runs, run_step. by rewrite Hr.
  - set (p := mkChan (cap (pipe s)) (taken (pipe s)) (queued (pipe s) ++ [msg])).
    set (s1 := mkSystem (with_stats (mem s) (λ st, frame st (Z.of_nat (String.length (Payload msg))) (RObservedAt msg)))
                 (Sending batch) p (canceled s) (owed s)).
    assert (runs s s1) as H1.
    { unfold runs, run_step, send, offer. rewrite Hr. by destruct (Nat.ltb_spec (length (queued (pipe s))) (cap (pipe s))); [|lia]. }
    destruct (IH s1 rest eq_refl) as (s' & Hs' & Hrest); [|exists s'; split; [by eapply rtc_l|done]].
    unfold room. subst s1 p. cbn [pipe queued cap]. rewrite !length_app in *. cbn [length]. lia.
Qed.

Lemma runs_empty s : run s = Taking → buf (mem s) = [] → ∃ s', rtc runs s s' ∧ finished s'.
Proof.
  intros Hr Hb.
  set (s1 := set_run s (take (mem s)).2 Asking).
  exists (set_run s1 (mem s1) (if closed (mem s1) then Returned None else Waiting)). split.
  - eapply rtc_l; [|apply rtc_once]; unfold runs, run_step; [rewrite Hr; cbn [take]; by rewrite Hb|done].
  - split; [|done]. cbn. destruct (closed (mem s)); [by right|by left].
Qed.

Lemma runs_taking s : run s = Taking → room s (buf (mem s)) → ∃ s', rtc runs s s' ∧ finished s'.
Proof.
  intros Hr Hroom. destruct (decide (buf (mem s) = [])) as [Hb|Hb]; [by apply runs_empty|].
  set (s1 := set_run s (take (mem s)).2 (Sending (buf (mem s)))).
  assert (runs s s1) as H1 by (unfold runs, run_step; rewrite Hr; cbn [take]; by rewrite bool_decide_false).
  destruct (runs_batch (buf (mem s)) s1 [] eq_refl) as (s2 & H2 & Ht & Hb2 & _); [by rewrite app_nil_r|].
  destruct (runs_empty s2 Ht) as (s3 & H3 & Hf); [by rewrite Hb2|].
  exists s3. split; [|done]. eapply rtc_l; [exact H1|]. by etrans.
Qed.

Lemma runs_waiting s : run s = Waiting → (buf (mem s) ≠ [] → waiting (mem s) = true) → room s (buf (mem s)) →
  ∃ s', rtc runs s s' ∧ finished s'.
Proof.
  intros Hr Hw Hroom. destruct (waiting (mem s)) eqn:Ew.
  - set (m := mkMemory (m_c (mem s)) (buf (mem s)) (closed (mem s)) false (maxPayload (mem s)) (capacity (mem s))).
    destruct (runs_taking (set_run s m Taking) eq_refl Hroom) as (s' & Hs' & Hf). exists s'. split; [|done].
    eapply rtc_l; [|exact Hs']. unfold runs, run_step. by rewrite Hr, Ew.
  - exists s. split; [done|]. split; [by left|]. destruct (buf (mem s)) as [|msg b] eqn:Hb; [done|]. by discriminate Hw.
Qed.

Lemma runs_finish log s : orderly log s → (∀ err, run s ≠ Returned err) → owed s = 0%nat →
  (run s = Asking → closed (mem s) = true → buf (mem s) = []) → room s (in_hand (run s) ++ buf (mem s)) →
  ∃ s', rtc runs s s' ∧ finished s'.
Proof.
  intros Ho Hnr Hn Hask Hroom. destruct (run s) as [|batch| | |err] eqn:Hr; cbn [in_hand app] in Hroom.
  - by apply runs_taking.
  - destruct (runs_batch batch s _ Hr Hroom) as (s1 & H1 & Ht & Hb1 & Hroom1). rewrite <-Hb1 in Hroom1.
    destruct (runs_taking s1 Ht Hroom1) as (s2 & H2 & Hf). exists s2. split; [by etrans|done].
  - set (s1 := set_run s (mem s) (if closed (mem s) then Returned None else Waiting)).
    assert (runs s s1) as H1 by (unfold runs, run_step; by rewrite Hr).
    destruct (closed (mem s)) eqn:Ec.
    + exists s1. split; [by apply rtc_once|]. split; [by right|]. by apply Hask.
    + destruct (runs_waiting s1 eq_refl) as (s2 & H2 & Hf); [|done|].
      * intros Hb. destruct (or_asking _ _ Ho Hr Hb); [done|lia].
      * exists s2. split; [|done]. by eapply rtc_l.
  - apply runs_waiting; [done| |done]. intros Hb. destruct (or_awake _ _ Ho Hr (or_introl Hb)); [done|lia].
  - by destruct (Hnr err).
Qed.

Lemma orderly_runs log s s' : rtc runs s s' → orderly log s → orderly log s'.
Proof. induction 1 as [|s1 s2 s3 H1 _ IH]; [done|]. intros Ho. apply IH. by eapply orderly_run. Qed.

(** the source is a queue: in every state reached by publishers, a closer, the pipeline and Run, the
    messages accepted are, in order, those the pipeline was given, those of the batch in hand and those
    of the backlog, less what a cancelled Run left of its batch; the frames counted are those given; the
    backlog is within its capacity; and Run never sleeps over a message or a close without a wake-up
    that is pending or about to be made. *)
Theorem memory_source_is_a_queue opts n log s : reached opts n log s → orderly log s.
Proof. apply reached_orderly. Qed.

(** C26: every accepted message is delivered: from every state reached in which no wake-up is owed and Run
    is not back, Run alone, with room in the channel, gives the pipeline all that was accepted, each
    message once and in order, and then waits or returns; unless a close fell between Run's last look at
    the backlog and its question whether the source is closed. *)
Theorem accepted_messages_are_delivered opts n log s :
  reached opts n log s → (∀ err, run s ≠ Returned err) → owed s = 0%nat →
  (run s = Asking → closed (mem s) = true → buf (mem s) = []) →
  room s (in_hand (run s) ++ buf (mem s)) →
  ∃ s', rtc runs s s' ∧ (run s' = Waiting ∨ run s' = Returned None) ∧ accepted (pipe s') = log.
Proof.
  intros Hreach Hnr Hn Hask Hroom. pose proof (reached_orderly _ _ _ _ Hreach) as Ho.
  destruct (runs_finish log s Ho Hnr Hn Hask Hroom) as (s' & Hs' & Hr & Hb). exists s'. split_and!; [done|done|].
  destruct (orderly_runs _ _ _ Hs' Ho) as [(lost & Hl & Hlost) _ _ _ _]. rewrite Hl, Hb.
  assert (lost = []) as ->. { destruct lost; [done|]. destruct Hlost as [He _]; [done|]. by destruct Hr as [Hr|Hr]; rewrite Hr in He. }
  by destruct Hr as [-> | ->]; rewrite app_nil_r.
Qed.
