(* ===== verification/SourceZMQ.v ===== *)
(** * SourceZMQ: the SUB socket source (pkg/source/zmq.go)

    Construction, one frame, the connection of a session and the two loops: Run over
    sessions and receive over frames, with the goroutine that blocks in Recv. What
    the socket, the resolver and the context do are inputs; which of the ready cases
    a select takes is the choice of the input. The library's socket and DNS are the
    seams the source has for them. *)
From Stdlib Require Import Ascii String.
From stdpp Require Import strings.
From S2P Require Import Prelude GoBase GoStrings GoFormat GoText Source.
From S2P Require Lag.
From S2P Require Import Ingest.

Definition defaultRecvHWM : Z := 100000.
Definition defaultConnectTimeout : Duration := 5 * time_Second.
Definition defaultReconnectIntervalMax : Duration := 30 * time_Second.
Definition baseReconnectInterval : Duration := 100 * time_Millisecond.
Definition defaultIdleTimeout : Duration := 60 * time_Second.

Record ZMQSource := mkZMQ {
  endpoints : list string;
  topics : list string;
  recvHWM : Z;
  connectTimeout : Duration;
  reconnectIntervalMax : Duration;
  idleTimeout : Duration;
  maxPayload : Z;
  shutdownGrace : Duration;
  seed : Z
}.

Inductive ZMQOption :=
  | WithTopics (topics : list string)
  | WithRecvHWM (n : Z)
  | WithReconnectIntervalMax (d : Duration)
  | WithIdleTimeout (d : Duration)
  | WithConnectTimeout (d : Duration)
  | WithSeed (seed : Z).

Definition apply_option (z : ZMQSource) (opt : ZMQOption) : ZMQSource :=
  let '(mkZMQ e t hwm ct rim idle mp grace sd) := z in
  match opt with
  | WithTopics t => mkZMQ e t hwm ct rim idle mp grace sd
  | WithRecvHWM n => if 0 <? n then mkZMQ e t n ct rim idle mp grace sd else z
  | WithReconnectIntervalMax d => if 0 <? d then mkZMQ e t hwm ct d idle mp grace sd else z
  | WithIdleTimeout d => if 0 <=? d then mkZMQ e t hwm ct rim d mp grace sd else z
  | WithConnectTimeout d => if 0 <? d then mkZMQ e t hwm d rim idle mp grace sd else z
  | WithSeed sd => mkZMQ e t hwm ct rim idle mp grace sd
  end.

(** [now] is what seeds the jitter. *)
Definition NewZMQ (endpoints : list string) (now : Z) (opts : list ZMQOption) : error + ZMQSource :=
  if bool_decide (endpoints = []) then inl (wrap ErrBadConfig ": zmq.endpoints must list at least one endpoint")
  else inr (foldl apply_option
              (mkZMQ endpoints [] defaultRecvHWM defaultConnectTimeout defaultReconnectIntervalMax defaultIdleTimeout
                 defaultMaxPayloadBytes defaultShutdownGrace now) opts).

Definition newZMQ `{UnicodePrint} (now : Z) (cfg : Config) : error + ZMQSource :=
  hwm ← SettingInt cfg "recvHWM" defaultRecvHWM;
  connectTimeout ← SettingDuration cfg "connectTimeout" defaultConnectTimeout;
  reconnectMax ← SettingDuration cfg "reconnectIntervalMax" defaultReconnectIntervalMax;
  idleTimeout ← SettingDuration cfg "idleTimeout" defaultIdleTimeout;
  z ← NewZMQ (SettingList cfg "endpoints") now
        [WithTopics (SettingList cfg "topics"); WithRecvHWM hwm; WithConnectTimeout connectTimeout;
         WithReconnectIntervalMax reconnectMax; WithIdleTimeout idleTimeout];
  inr (mkZMQ (endpoints z) (topics z) (recvHWM z) (SourceZMQ.connectTimeout z) (reconnectIntervalMax z) (SourceZMQ.idleTimeout z)
         (MaxPayloadBytes cfg) (ShutdownGrace cfg) (seed z)).

(** ** A session's connection *)

Section zmq.
Context `{UnicodePrint} `{Lag.Rand}.
Variable z : ZMQSource.

(** What the resolver says of an endpoint, what the socket says of an address and of a topic: the
    text of an error, or success. *)
Record network := mkNetwork {
  resolve : string → string + list string;
  dial : string → option string;
  set_subscribe : string → option string
}.

Fixpoint subscribe_all (net : network) (topics : list string) : option error :=
  match topics with
  | [] => None
  | topic :: rest =>
      match set_subscribe net topic with
      | Some err => Some (mkError Foreign ("subscribing to " +:+ strconv_Quote topic +:+ ": " +:+ err))
      | None => subscribe_all net rest
      end
  end.

(** With no topics it subscribes to the empty prefix. *)
Definition subscribe (net : network) : option error :=
  subscribe_all net (if bool_decide (topics z = []) then [""] else topics z).

Definition dial_addr (net : network) (acc : Z * option error) (addr : string) : Z * option error :=
  match dial net addr with
  | Some err => (acc.1, Some (mkError Foreign ("dialing " +:+ addr +:+ ": " +:+ err)))
  | None => (acc.1 + 1, acc.2)
  end.

Definition dial_endpoint (net : network) (acc : Z * option error) (endpoint : string) : Z * option error :=
  match resolve net endpoint with
  | inl err => (acc.1, Some (mkError Foreign err))
  | inr addrs => foldl (dial_addr net) acc addrs
  end.

Definition connect (net : network) : option error :=
  let '(dialed, lastErr) := foldl (dial_endpoint net) (0, None) (endpoints z) in
  if dialed =? 0 then
    match lastErr with
    | Some _ => lastErr
    | None => Some (mkError Foreign ("no endpoint among " +:+ format_list (endpoints z) +:+ " could be reached"))
    end
  else None.

(** ** One frame *)

Definition splitFrames (frames : list string) : option (string * string) :=
  match frames with
  | [] => None
  | [payload] => Some ("", payload)
  | topic :: payload :: _ => Some (topic, payload)
  end.

Definition deliver (w : wire) (frames : list string) (now : Time) : wire * bool :=
  match splitFrames frames with
  | None => (w, false)
  | Some (topic, payload) =>
      let n := Z.of_nat (String.length payload) in
      if maxPayload z <? n
      then (too_large "zmq" w now (FormatInt n +:+ " bytes on topic " +:+ strconv_Quote topic), false)
      else hand_over "zmq" w (mkRaw topic payload now) ("ingest buffer full at topic " +:+ strconv_Quote topic)
  end.

(** The window of attempt [n], and the n-th draw from it. *)
Definition backoff_window (attempt : Z) : Duration :=
  let window := i64 (Z.shiftl baseReconnectInterval (Z.min attempt 20)) in
  if (reconnectIntervalMax z <? window) || (window <=? 0) then reconnectIntervalMax z else window.
Definition backoff (draw : nat) (attempt : Z) : Duration := Lag.Intn (seed z) draw (i64 (backoff_window attempt + 1)).

Definition detail (err : option error) : string :=
  match err with None => strings_Join (endpoints z) "," | Some e => Error e end.

(** ** The loops *)

Inductive recv := Message (frames : list string) | Broken (text : string).

(** Where Run is: at the top of its loop, opening a session, receiving until the idle deadline, waiting
    to reconnect, or back. *)
Inductive place :=
  | Top
  | Opening
  | Receiving (deadline : option Time)
  | Pausing (until : Time)
  | Back (err : option error).

(** [sock] is the socket of the session, with whether Close closed it (z.sock is nil from then on); [frames] holds what Recv gave and the loop has not
    taken: one result in the channel and one in the goroutine's hand. *)
Record state := mkState {
  w : wire;
  closed : bool;
  canceled : bool;
  sock : option bool;
  frames : list recv;
  attempt : Z;
  draws : nat;
  here : place
}.

Definition start (n : nat) : state := mkState (new_wire n) false false None [] 0 0 Top.

Definition at_place (s : state) (p : place) : state :=
  mkState (w s) (closed s) (canceled s) (sock s) (frames s) (attempt s) (draws s) p.

Definition set_wire (s : state) (w : wire) : state :=
  mkState w (closed s) (canceled s) (sock s) (frames s) (attempt s) (draws s) (here s).

(** The top of Run's loop. *)
Definition look (s : state) : state :=
  if canceled s then at_place s (Back (Some (bare ContextCanceled)))
  else if closed s then at_place s (Back None)
  else at_place s Opening.

(** What Run does after a session: the deferred calls of the session, then the switch. *)
Definition session_over (s : state) (err : option error) (now : Time) : state :=
  let s := mkState (count (w s) (λ c, connected c false)) (closed s) (canceled s) None [] (attempt s) (draws s) (here s) in
  if canceled s then at_place s (Back (Some (bare ContextCanceled)))
  else if closed s then at_place s (Back None)
  else
    let w1 := count (w s) (λ c, failed (reconnected c) err) in
    let w2 := signal "zmq" w1 GapReconnect now (detail err) in
    let attempt := attempt s + 1 in
    mkState w2 (closed s) (canceled s) None [] attempt (S (draws s)) (Pausing (time_Add now (backoff (draws s) attempt))).

Definition newIdleTimer (now : Time) : option Time :=
  if idleTimeout z <=? 0 then None else Some (time_Add now (idleTimeout z)).

(** The session up to its receive loop. *)
Definition open_session (s : state) (net : network) (now : Time) : state :=
  match subscribe net with
  | Some err => session_over s (Some err) now
  | None =>
      match connect net with
      | Some err => session_over s (Some err) now
      | None =>
          mkState (count (w s) (λ c, connected c true)) (closed s) (canceled s) (Some false) [] (attempt s) (draws s)
            (Receiving (newIdleTimer now))
      end
  end.

(** The frames case of receive. *)
Definition take_frame (s : state) (deadline : option Time) (now : Time) : state :=
  match frames s with
  | [] => s
  | Broken text :: _ =>
      session_over s (Some (mkError Foreign ("receiving from " +:+ format_list (endpoints z) +:+ ": " +:+ text))) now
  | Message fr :: rest =>
      if closed s then session_over s None now
      else
        let '(w, usable) := deliver (w s) fr now in
        mkState w (closed s) (canceled s) (sock s) rest (attempt s) (draws s)
          (Receiving (if usable then newIdleTimer now else deadline))
  end.

(** The idle case of receive. *)
Definition idle_out (s : state) (now : Time) : state :=
  let s := set_wire s (signal "zmq" (w s) GapIdle now
             ("no usable frame from " +:+ format_list (endpoints z) +:+ " in " +:+ Duration_String (idleTimeout z))) in
  session_over s (Some (wrap ErrIdle (": no frame from " +:+ format_list (endpoints z) +:+ " in " +:+ Duration_String (idleTimeout z)))) now.

Definition Close (s : state) : state :=
  if closed s then s
  else mkState (count (w s) (λ c, connected c false)) true (canceled s)
         ((λ _, true) <$> sock s) (frames s) (attempt s) (draws s) (here s).

(** ** What can happen *)

Inductive input :=
  | Looks
  | Opens (net : network) (now : Time)
  | Recvs (r : recv)
  | Takes (now : Time)
  | Expires (now : Time)
  | SeesDone (now : Time)
  | Wakes (now : Time)
  | Cancels
  | Closes
  | PipelineTakes
  | PipelineHears.

(** Recv may go on where its last result is not an error and the channel is not full. *)
Definition may_recv (s : state) : bool :=
  match here s, frames s with
  | Receiving _, [] | Receiving _, [Message _] => true
  | _, _ => false
  end.

(** One thing happens; an input the state does not allow changes nothing. *)
Definition step (s : state) (i : input) : state :=
  match i, here s with
  | Looks, Top => look s
  | Opens net now, Opening => open_session s net now
  | Recvs r, _ =>
      if may_recv s then mkState (w s) (closed s) (canceled s) (sock s) (frames s ++ [r]) (attempt s) (draws s) (here s) else s
  | Takes now, Receiving deadline => take_frame s deadline now
  | Expires now, Receiving (Some deadline) => if deadline <=? now then idle_out s now else s
  | SeesDone now, Receiving _ => if canceled s then session_over s (Some (bare ContextCanceled)) now else s
  | SeesDone _, Pausing _ => if canceled s then at_place s (Back (Some (bare ContextCanceled))) else s
  | Wakes now, Pausing until => if until <=? now then at_place s Top else s
  | Cancels, _ => mkState (w s) (closed s) true (sock s) (frames s) (attempt s) (draws s) (here s)
  | Closes, _ => Close s
  | PipelineTakes, _ => set_wire s (take_message (w s))
  | PipelineHears, _ => set_wire s (take_signal (w s))
  | _, _ => s
  end.

Definition run (s : state) (inputs : list input) : state := foldl step s inputs.
End zmq.

(** ** The frames a socket gave *)

Definition messages (l : list recv) : list (list string) :=
  omap (λ r, match r with Message fr => Some fr | Broken _ => None end) l.

(** The frame an input brings in. *)
Definition received (s : state) (i : input) : list (list string) :=
  match i with Recvs r => if may_recv s then messages [r] else [] | _ => [] end.

(** What became of a frame: forwarded, refused for its size, dropped because the pipeline had no place,
    empty, left in the channel of a session that ended, or taken after Close. *)
Inductive fate := Forwarded | Refused | Overrun | Empty | Abandoned | AfterClose.

Inductive entry := Frame (fr : list string) (f : fate) | Reconnected | Idled.

Definition entry_frame (e : entry) : option (list string) := match e with Frame fr _ => Some fr | _ => None end.
Definition forwarded (e : entry) : option (string * string) := match e with Frame fr Forwarded => splitFrames fr | _ => None end.
Definition discarded (e : entry) : option (list string) := match e with Frame fr (Refused | Overrun) => Some fr | _ => None end.
Definition entry_gap (e : entry) : option GapReason :=
  match e with
  | Frame _ Refused => Some GapOversized
  | Frame _ Overrun => Some GapHighWaterMark
  | Reconnected => Some GapReconnect
  | Idled => Some GapIdle
  | _ => None
  end.
Definition entry_reconnect (e : entry) : option unit := match e with Reconnected => Some () | _ => None end.

(** Whether a loss waits to be announced at the end of a story; [None] where a frame was judged while
    one did. *)
Fixpoint announced (owing : bool) (story : list entry) : option bool :=
  match story with
  | [] => Some owing
  | Frame _ (Abandoned | AfterClose) :: rest => announced true rest
  | Frame _ _ :: rest => if owing then None else announced false rest
  | Reconnected :: rest => announced false rest
  | Idled :: rest => announced owing rest
  end.

(** A frame met the fate the code has for it. *)
Definition fate_ok (z : ZMQSource) (isClosed : bool) (e : entry) : Prop :=
  match e with
  | Frame fr f =>
      match f, splitFrames fr with
      | (Forwarded | Overrun), Some (_, payload) => Z.of_nat (String.length payload) ≤ maxPayload z
      | Refused, Some (_, payload) => maxPayload z < Z.of_nat (String.length payload)
      | Empty, None => True
      | Abandoned, _ => True
      | AfterClose, _ => isClosed = true
      | _, _ => False
      end
  | _ => True
  end.

(** The account of a run: every frame the socket gave is in it once, in order. *)
Record accounted (z : ZMQSource) (log : list (list string)) (s : state) (story : list entry) : Prop := mk_accounted {
  ac_frames : log = omap entry_frame story ++ messages (frames s);
  ac_fates : Forall (fate_ok z (closed s)) story;
  ac_out : (λ m, (RTopic m, Payload m)) <$> accepted (out (w s)) = omap forwarded story;
  ac_received : FramesReceived (c (w s)) = counted (omap forwarded story);
  ac_dropped : Dropped (c (w s)) = counted (omap discarded story);
  ac_gaps : Gaps (c (w s)) = counted (omap entry_gap story);
  ac_reconnects : Reconnects (c (w s)) = counted (omap entry_reconnect story);
  ac_signals : (GReason <$> accepted (ch (w s))) `sublist_of` omap entry_gap story;
  ac_announced : ∃ owing, announced false story = Some owing ∧ (owing = true → ∃ err, here s = Back err)
}.

(** ** No frame is lost in silence

    Whatever the network, the pipeline, the context and the closer do, every frame
    the socket gave is accounted for: forwarded in order, or counted and signalled,
    or lost with a session whose end is announced before another frame is judged;
    and the wait before a reconnect keeps its bounds. *)

Lemma announced_app owing a b : announced owing (a ++ b) = announced owing a ≫= λ o, announced o b.
Proof.
  revert owing. induction a as [|[fr [| | | | |]| |] a IH]; intros owing; cbn [announced app]; try done.
  all: by destruct owing.
Qed.

Lemma announced_abandoned l owing : announced owing ((λ fr, Frame fr Abandoned) <$> l) = Some (owing || negb (bool_decide (l = []))).
Proof.
  revert owing. induction l as [|fr l IH]; intros owing; [by rewrite orb_false_r|]. rewrite fmap_cons. cbn [announced]. rewrite IH.
  rewrite orb_true_l. by rewrite orb_true_r.
Qed.

Section facts.
Context {U : UnicodePrint} {R : Lag.Rand}.
Variable z : ZMQSource.

Lemma fate_ok_mono b b' e : (b = true → b' = true) → fate_ok z b e → fate_ok z b' e.
Proof. intros Hb. destruct e as [fr []| |]; cbn; try done. Qed.

(** What the account does not look at. *)
Lemma accounted_same log s s' story : accounted z log s story →
  w s' = w s → frames s' = frames s → (closed s = true → closed s' = true) →
  (∀ err, here s = Back err → ∃ err', here s' = Back err') → accounted z log s' story.
Proof.
  intros [Hf Hok Ho Hr Hd Hg Hc Hs (owing & Ha & Hb)] Ew Ef Ec Eh. constructor; rewrite ?Ew, ?Ef; try done.
  - eapply Forall_impl; [exact Hok|]. intros e. by apply fate_ok_mono.
  - exists owing. split; [done|]. intros [err He]%Hb. by apply Eh in He.
Qed.

(** A change of the wire that only the flags of the statistics show. *)
Lemma accounted_wire log s story w' : accounted z log s story →
  accepted (out w') = accepted (out (w s)) → accepted (ch w') = accepted (ch (w s)) →
  FramesReceived (c w') = FramesReceived (c (w s)) → Dropped (c w') = Dropped (c (w s)) →
  Gaps (c w') = Gaps (c (w s)) → Reconnects (c w') = Reconnects (c (w s)) → accounted z log (set_wire s w') story.
Proof. intros [] E1 E2 E3 E4 E5 E6. constructor; cbn [set_wire w frames closed here]; rewrite ?E1, ?E2, ?E3, ?E4, ?E5, ?E6; done. Qed.

Definition leave (l : list recv) : list entry := (λ fr, Frame fr Abandoned) <$> messages l.

Lemma leave_projections l : omap entry_frame (leave l) = messages l ∧ omap forwarded (leave l) = [] ∧ omap discarded (leave l) = []
  ∧ omap entry_gap (leave l) = [] ∧ omap entry_reconnect (leave l) = [].
Proof. unfold leave. induction (messages l) as [|fr ms IH]; [done|]. rewrite fmap_cons. cbn. destruct IH as (-> & -> & -> & -> & ->). done. Qed.

Lemma leave_ok l b : Forall (fate_ok z b) (leave l).
Proof. apply Forall_fmap. apply Forall_true. intros fr. cbn. by destruct (splitFrames fr) as [[]|]. Qed.

(** The channel of an ended session is let go. *)
Lemma accounted_leave log s story err : accounted z log s story →
  accounted z log (mkState (w s) (closed s) (canceled s) (sock s) [] (attempt s) (draws s) (Back err)) (story ++ leave (frames s)).
Proof.
  intros [Hf Hok Ho Hr Hd Hg Hc Hs (owing & Ha & Hb)]. destruct (leave_projections (frames s)) as (E1 & E2 & E3 & E4 & E5).
  constructor; cbn [w frames closed here]; rewrite ?omap_app, ?E1, ?E2, ?E3, ?E4, ?E5, ?app_nil_r; try done.
  - apply Forall_app. split; [done|apply leave_ok].
  - rewrite announced_app, Ha. cbn [mbind option_bind]. unfold leave. rewrite announced_abandoned. eexists. split; [done|]. by eexists.
Qed.

(** A reconnect is counted and signalled, and then nothing is owed. *)
Lemma accounted_reconnect log s story err now cn sk k d p : accounted z log s story → frames s = [] →
  accounted z log
    (mkState (signal "zmq" (count (w s) (λ c, failed (reconnected c) err)) GapReconnect now (detail z err))
       (closed s) cn sk [] k d p) (story ++ [Reconnected]).
Proof.
  intros [Hf Hok Ho Hr Hd Hg Hc Hs (owing & Ha & Hb)] Ef. constructor; cbn [w frames closed here]; rewrite ?omap_app; try done.
  - rewrite Hf, Ef. cbn. by rewrite !app_nil_r.
  - apply Forall_app. by repeat constructor.
  - cbn. by rewrite app_nil_r.
  - cbn. rewrite app_nil_r. by destruct err.
  - cbn. rewrite app_nil_r. by destruct err.
  - change (omap entry_gap [Reconnected]) with [GapReconnect]. rewrite counted_snoc, <-Hg. cbn. by destruct err.
  - change (omap entry_reconnect [Reconnected]) with [()]. rewrite counted_snoc, <-Hc. cbn. by destruct err.
  - cbn [signal ch count]. destruct (reasons_offer (ch (w s)) (mkSignal "zmq" GapReconnect now (detail z err))) as (l & -> & Hl).
    by apply sublist_app.
  - exists false. split; [|done]. by rewrite announced_app, Ha.
Qed.

Lemma accounted_session_over log s story err now : accounted z log s story →
  ∃ story', accounted z log (session_over z s err now) story'.
Proof.
  intros Ha. unfold session_over.
  apply (accounted_wire _ _ _ (count (w s) (λ c, connected c false))) in Ha; try done.
  pose proof (accounted_leave _ _ _ (Some (bare ContextCanceled)) Ha) as Hl. cbn [set_wire w frames closed canceled sock attempt draws here] in *.
  destruct (canceled s) eqn:Ec; [|destruct (closed s) eqn:Ecl].
  - eexists. eapply accounted_same; [exact Hl|done|done|done|]. by eexists.
  - eexists. eapply accounted_same; [exact Hl|done|done|done|]. by eexists.
  - eexists. exact (accounted_reconnect _ _ _ err now _ _ _ _ _ Hl eq_refl).
Qed.

(** A frame is judged: it leaves the channel with its fate. *)
Lemma accounted_frame log s story fr rest f w' deadline d' :
  accounted z log s story → here s = Receiving deadline → frames s = Message fr :: rest → fate_ok z (closed s) (Frame fr f) →
  f ≠ Abandoned → f ≠ AfterClose →
  (λ m, (RTopic m, Payload m)) <$> accepted (out w') = ((λ m, (RTopic m, Payload m)) <$> accepted (out (w s))) ++ omap forwarded [Frame fr f] →
  FramesReceived (c w') = u64 (FramesReceived (c (w s)) + Z.of_nat (length (omap forwarded [Frame fr f]))) →
  Dropped (c w') = u64 (Dropped (c (w s)) + Z.of_nat (length (omap discarded [Frame fr f]))) →
  Gaps (c w') = u64 (Gaps (c (w s)) + Z.of_nat (length (omap entry_gap [Frame fr f]))) →
  Reconnects (c w') = Reconnects (c (w s)) →
  (∃ l, GReason <$> accepted (ch w') = (GReason <$> accepted (ch (w s))) ++ l ∧ l `sublist_of` omap entry_gap [Frame fr f]) →
  accounted z log (mkState w' (closed s) (canceled s) (sock s) rest (attempt s) (draws s) (Receiving d')) (story ++ [Frame fr f]).
Proof.
  intros [Hf Hok Ho Hr Hd Hg Hc Hs (owing & Ha & Hb)] Eh Ef Hfate N1 N2 E1 E2 E3 E4 E5 (l & E6 & Hl).
  assert (owing = false) as -> by (destruct owing; [|done]; destruct (Hb eq_refl) as [err He]; by rewrite Eh in He).
  constructor; cbn [w frames closed here]; rewrite ?omap_app, ?counted_app, ?E1, ?E2, ?E3, ?E4, ?E5, ?E6; try congruence.
  - rewrite Hf, Ef. cbn. by rewrite <-(assoc_L (++)).
  - apply Forall_app. by repeat constructor.
  - rewrite Hc. unfold entry_reconnect. cbn. unfold counted, u64. by rewrite Z.add_0_r, Zmod_mod.
  - by apply sublist_app.
  - exists false. split; [|done]. rewrite announced_app, Ha. by destruct f.
Qed.

Lemma accounted_take log s story deadline now : accounted z log s story → here s = Receiving deadline →
  ∃ story', accounted z log (take_frame z s deadline now) story'.
Proof.
  intros Ha Eh. unfold take_frame. destruct (frames s) as [|[fr|text] rest] eqn:Ef; [by eexists| |by eapply accounted_session_over].
  destruct (closed s) eqn:Ec; [by eapply accounted_session_over|]. rewrite <-Ec.
  pose proof (ac_received _ _ _ _ Ha) as Hr. pose proof (ac_dropped _ _ _ _ Ha) as Hd. pose proof (ac_gaps _ _ _ _ Ha) as Hg.
  assert (is_u64 (FramesReceived (c (w s))) ∧ is_u64 (Dropped (c (w s))) ∧ is_u64 (Gaps (c (w s)))) as (Rr & Rd & Rg)
    by (rewrite Hr, Hd, Hg; split_and!; apply counted_range).
  unfold deliver, too_large, hand_over, trySend.
  destruct (splitFrames fr) as [[topic payload]|] eqn:Esp; [destruct (Z.ltb_spec (maxPayload z) (Z.of_nat (String.length payload)))|].
  - eexists. eapply (accounted_frame _ _ _ fr rest Refused); try done; try tally.
    + cbn. by rewrite Esp.
    + cbn. by rewrite app_nil_r.
    + cbn -[offer]. apply reasons_offer.
  - destruct (offer (out (w s)) (mkRaw topic payload now)) as [o ok] eqn:Eo.
    pose proof (accepted_offer (out (w s)) (mkRaw topic payload now)) as Hacc. rewrite Eo in Hacc. cbn [fst snd] in Hacc.
    destruct ok; cbn [c ch out count].
    + eexists. eapply (accounted_frame _ _ _ fr rest Forwarded); try done; try tally.
      * cbn. by rewrite Esp.
      * cbn. rewrite Esp, Hacc, fmap_app. done.
      * cbn. by rewrite Esp.
      * exists []. cbn. by rewrite app_nil_r.
    + eexists. eapply (accounted_frame _ _ _ fr rest Overrun); try done; try tally.
      * cbn. by rewrite Esp.
      * cbn. rewrite Hacc. by rewrite !app_nil_r.
      * cbn -[offer]. apply reasons_offer.
  - eexists. eapply (accounted_frame _ _ _ fr rest Empty); try done; try tally.
    + cbn. by rewrite Esp.
    + cbn. by rewrite app_nil_r.
    + exists []. cbn. by rewrite app_nil_r.
Qed.

Lemma accounted_idle log s story now : accounted z log s story → ∃ story', accounted z log (idle_out z s now) story'.
Proof.
  intros Ha. unfold idle_out. set (s1 := set_wire s _).
  assert (accounted z log s1 (story ++ [Idled])) as H1.
  { destruct Ha as [Hf Hok Ho Hr Hd Hg Hc Hs (owing & Ha & Hb)].
    constructor; subst s1; cbn [set_wire w frames closed here signal c ch out gap FramesReceived Dropped Gaps Reconnects];
      rewrite ?omap_app; cbn [omap list_omap entry_frame forwarded discarded entry_gap entry_reconnect]; rewrite ?app_nil_r; try done.
    - apply Forall_app. by repeat constructor.
    - by rewrite counted_snoc, Hg.
    - match goal with |- context [offer ?g ?sig] => destruct (reasons_offer g sig) as (l & -> & Hl) end. by apply sublist_app.
    - exists owing. by rewrite announced_app, Ha. }
  by eapply accounted_session_over.
Qed.

(** Outside of a session's receive loop no frame is held. *)
Definition quiet (s : state) : Prop := match here s with Receiving _ => True | _ => frames s = [] end.

Lemma quiet_session_over s err now : quiet (session_over z s err now).
Proof. unfold session_over. cbn [canceled closed]. destruct (canceled s); [done|]. by destruct (closed s). Qed.

Lemma quiet_look s : frames s = [] → quiet (look s).
Proof. intros Hf. unfold look. destruct (canceled s); [done|]. by destruct (closed s). Qed.

Lemma quiet_step s i : quiet s → quiet (step z s i).
Proof.
  intros Hq. unfold step. destruct i as [|net now|r|now|now|now|now| | | |]; try done.
  - destruct (here s) eqn:Eh; try done. apply quiet_look. unfold quiet in Hq. by rewrite Eh in Hq.
  - destruct (here s) eqn:Eh; try done. unfold open_session.
    destruct (subscribe z net); [apply quiet_session_over|]. by destruct (connect z net); [apply quiet_session_over|].
  - destruct (may_recv s) eqn:Em; [|done]. unfold may_recv in Em. unfold quiet. cbn. by destruct (here s).
  - destruct (here s) eqn:Eh; try done. unfold take_frame. destruct (frames s) as [|[fr|text] rest]; [done| |apply quiet_session_over].
    destruct (closed s); [apply quiet_session_over|]. by destruct (deliver z (w s) fr now).
  - destruct (here s) as [| |[d|]| |]; try done. by destruct (d <=? now); [apply quiet_session_over|].
  - unfold quiet in Hq. destruct (here s) eqn:Eh; try (unfold quiet; by rewrite Eh).
    all: destruct (canceled s); [|unfold quiet; by rewrite Eh]; [apply quiet_session_over || done].
  - unfold quiet in Hq. destruct (here s) eqn:Eh; try (unfold quiet; by rewrite Eh).
    destruct (until <=? now); [done|unfold quiet; by rewrite Eh].
  - unfold Close. by destruct (closed s).
Qed.

Lemma accounted_step log s story i : quiet s → accounted z log s story → ∃ story', accounted z (log ++ received s i) (step z s i) story'.
Proof.
  intros Hq Ha. unfold step, received.
  destruct i as [|net now|r|now|now|now|now| | | |]; rewrite ?app_nil_r.
  - destruct (here s) eqn:Eh; try by eexists. exists story. unfold look. destruct (canceled s); [|destruct (closed s)].
    all: eapply accounted_same; try exact Ha; try done; by rewrite Eh.
  - destruct (here s) eqn:Eh; try by eexists. unfold open_session.
    destruct (subscribe z net); [by eapply accounted_session_over|]. destruct (connect z net); [by eapply accounted_session_over|].
    exists story. unfold quiet in Hq. rewrite Eh in Hq.
    eapply accounted_same; [apply (accounted_wire _ _ _ (count (w s) (λ c, connected c true)) Ha); done|done|by cbn|done|].
    cbn. by rewrite Eh.
  - destruct (may_recv s) eqn:Em; [|rewrite app_nil_r; by eexists]. exists story. destruct Ha as [Hf Hok Ho Hr Hd Hg Hc Hs Hann].
    constructor; cbn [w frames closed here]; try done. unfold messages in *. rewrite omap_app, Hf. by rewrite <-(assoc_L (++)).
  - destruct (here s) eqn:Eh; try by eexists. by eapply accounted_take.
  - destruct (here s) as [| |[deadline|]| |] eqn:Eh; try by eexists. destruct (deadline <=? now); [|by eexists]. by eapply accounted_idle.
  - destruct (here s) eqn:Eh; try by eexists.
    + destruct (canceled s); [by eapply accounted_session_over|by eexists].
    + destruct (canceled s); [|by eexists]. exists story. eapply accounted_same; try exact Ha; try done. by rewrite Eh.
  - destruct (here s) eqn:Eh; try by eexists. destruct (until <=? now); [|by eexists]. exists story.
    eapply accounted_same; try exact Ha; try done. by rewrite Eh.
  - exists story. eapply accounted_same; try exact Ha; try done. by eexists.
  - exists story. unfold Close. destruct (closed s) eqn:Ec; [done|].
    eapply accounted_same; [apply (accounted_wire _ _ _ (count (w s) (λ c, connected c false)) Ha); done|done|done|done|].
    cbn. by eexists.
  - exists story. apply accounted_wire; try done. apply accepted_receive.
  - exists story. apply accounted_wire; try done. apply accepted_receive.
Qed.

(** All that the socket gave in a run. *)
Fixpoint all_received (s : state) (inputs : list input) : list (list string) :=
  match inputs with
  | [] => []
  | i :: rest => received s i ++ all_received (step z s i) rest
  end.

Lemma accounted_start n : accounted z [] (start n) [].
Proof. constructor; try done. by exists false. Qed.

Lemma accounted_run inputs : ∀ log s story, quiet s → accounted z log s story →
  ∃ story', accounted z (log ++ all_received s inputs) (run z s inputs) story'.
Proof.
  induction inputs as [|i inputs IH]; intros log s story Hq Ha; cbn [all_received run foldl].
  - rewrite app_nil_r. by eexists.
  - destruct (accounted_step log s story i Hq Ha) as [story1 H1].
    destruct (IH _ _ _ (quiet_step s i Hq) H1) as [story2 H2]. exists story2. by rewrite (assoc_L (++)).
Qed.


(** ** The wait before a reconnect *)

Lemma window_bounds attempt : 0 < reconnectIntervalMax z → is_i64 (reconnectIntervalMax z) → 0 ≤ attempt →
  0 < backoff_window z attempt ≤ reconnectIntervalMax z ∧ backoff_window z attempt ≤ baseReconnectInterval * 2 ^ Z.min attempt 20.
Proof.
  intros Hm Hi Ha. unfold backoff_window.
  assert (0 < baseReconnectInterval * 2 ^ Z.min attempt 20 ≤ baseReconnectInterval * 2 ^ 20) as [Hlo Hhi].
  { split; [apply Z.mul_pos_pos; [done|apply Z.pow_pos_nonneg; lia]|].
    apply Z.mul_le_mono_nonneg_l; [done|]. apply Z.pow_le_mono_r; lia. }
  rewrite Z.shiftl_mul_pow2 by lia.
  rewrite i64_small by (split; [unfold min_i64; lia|]; etrans; [exact Hhi|done]).
  destruct (Z.ltb_spec (reconnectIntervalMax z) (baseReconnectInterval * 2 ^ Z.min attempt 20));
    destruct (Z.leb_spec (baseReconnectInterval * 2 ^ Z.min attempt 20) 0); cbn [orb]; lia.
Qed.

(** A session that ends in a wait waits no less than nothing and no more than the configured maximum or
    the doubled base interval. *)
Lemma reconnect_waits_are_bounded s err now until :
  0 < reconnectIntervalMax z → is_i64 (reconnectIntervalMax z) → 0 ≤ attempt s →
  here (session_over z s err now) = Pausing until →
  now ≤ until ≤ now + Z.min (reconnectIntervalMax z) (baseReconnectInterval * 2 ^ Z.min (attempt s + 1) 20).
Proof.
  intros Hm Hi Ha. unfold session_over. cbn [canceled closed]. destruct (canceled s); [done|]. destruct (closed s); [done|].
  cbn [here attempt draws]. intros [= <-]. unfold time_Add, backoff.
  destruct (window_bounds (attempt s + 1) Hm Hi ltac:(lia)) as [[Hlo Hmax] Hhi].
  assert (baseReconnectInterval * 2 ^ Z.min (attempt s + 1) 20 ≤ baseReconnectInterval * 2 ^ 20) as Hcap
    by (apply Z.mul_le_mono_nonneg_l; [done|apply Z.pow_le_mono_r; lia]).
  assert (baseReconnectInterval * 2 ^ 20 < max_i64) as Hbig by done.
  rewrite i64_small by (split; unfold min_i64; lia).
  pose proof (Lag.Intn_range (seed z) (draws s) (backoff_window z (attempt s + 1) + 1) ltac:(lia)). lia.
Qed.

(** The number of attempts is never reset: one session after another, however long each lasted. *)
Lemma attempts_only_grow s i : attempt s ≤ attempt (step z s i).
Proof.
  assert (∀ s err now, attempt s ≤ attempt (session_over z s err now)) as Hover.
  { intros s0 err now. unfold session_over. cbn [canceled closed]. destruct (canceled s0); [done|]. destruct (closed s0); cbn; lia. }
  unfold step, look, open_session, take_frame, idle_out, Close.
  repeat case_match; first [apply Z.le_refl|apply Hover|etrans; [|apply Hover]; apply Z.le_refl].
Qed.

(** The high-water mark sizes nothing: no step depends on it. *)
Lemma recvHWM_bounds_nothing n s i :
  step (mkZMQ (endpoints z) (topics z) n (connectTimeout z) (reconnectIntervalMax z) (idleTimeout z) (maxPayload z)
          (shutdownGrace z) (seed z)) s i = step z s i.
Proof. done. Qed.
End facts.
