(* ===== verification/SourceNATS.v ===== *)
(** * SourceNATS: the core NATS source (pkg/source/nats.go)

    Construction, the subscriptions, one message, and the loop of Run with the
    handlers the client calls on its own goroutines. What the client answers and
    reports is an input. *)
From Stdlib Require Import Ascii String.
From stdpp Require Import strings.
From S2P Require Import Prelude GoBase GoStrings GoFormat GoText Source.
From S2P Require Import Ingest.

Definition defaultNATSPendingMsgs : Z := 100000.
Definition defaultNATSPendingBytes : Z := Z.shiftl 256 20.

Record NATSSource := mkNATS { url : string; subjects : list string; maxPayload : Z }.

Section nats.
Context `{UnicodePrint}.

Definition validateQueueGroup (queueGroup : string) : option error :=
  if bool_decide (TrimSpace queueGroup = "") then None
  else Some (wrap ErrQueueGroupSet (" (got " +:+ strconv_Quote queueGroup +:+ ")")).

Definition NewNATS (url : string) (subjects : list string) (queueGroup : string) : error + NATSSource :=
  match validateQueueGroup queueGroup with
  | Some err => inl err
  | None =>
      if bool_decide (TrimSpace url = "") then inl (wrap ErrBadConfig ": nats.url is required")
      else if bool_decide (subjects = []) then inl (wrap ErrBadConfig ": nats.subjects must list at least one subject")
      else inr (mkNATS url subjects defaultMaxPayloadBytes)
  end.

Definition newNATS (cfg : Config) : error + NATSSource :=
  n ← NewNATS (Setting cfg "url" "") (SettingList cfg "subjects") (Setting cfg "queueGroup" "");
  inr (mkNATS (url n) (subjects n) (MaxPayloadBytes cfg)).

(** ** The client *)

(** What the client says to each call, as the text of an error: connecting, subscribing to a subject,
    bounding its buffer. *)
Record client := mkClient {
  Connect : option string;
  ChanSubscribe : string → option string;
  SetPendingLimits : string → Z → Z → option string
}.

Variable n : NATSSource.

Definition dial (cl : client) : option error :=
  match Connect cl with
  | Some err => Some (mkError Foreign ("connecting to " +:+ url n +:+ ": " +:+ err))
  | None => None
  end.

(** The handlers of dial. *)
Definition ReconnectHandler (w : wire) (now : Time) : wire :=
  signal "nats" (count w (λ c, connected (reconnected c) true)) GapReconnect now ("nats reconnected to " +:+ url n).
Definition DisconnectErrHandler (w : wire) (err : option string) : wire :=
  count w (λ c, failed (connected c false) (mkError Foreign <$> err)).

(** The subscriptions of Run: the error to record and the error to return. *)
Fixpoint subscribe_all (cl : client) (subjects : list string) : option (error * error) :=
  match subjects with
  | [] => None
  | subject :: rest =>
      match ChanSubscribe cl subject with
      | Some err => Some (mkError Foreign err, mkError Foreign ("subscribing to " +:+ strconv_Quote subject +:+ ": " +:+ err))
      | None =>
          match SetPendingLimits cl subject defaultNATSPendingMsgs defaultNATSPendingBytes with
          | Some err =>
              Some (mkError Foreign err, mkError Foreign ("setting pending limits on " +:+ strconv_Quote subject +:+ ": " +:+ err))
          | None => subscribe_all cl rest
          end
      end
  end.

(** ** One message *)

Record Msg := mkMsg { Subject : string; Data : string }.

Definition forward (w : wire) (msg : Msg) (now : Time) : wire :=
  let size := Z.of_nat (String.length (Data msg)) in
  if maxPayload n <? size
  then too_large "nats" w now (FormatInt size +:+ " bytes on subject " +:+ strconv_Quote (Subject msg))
  else (hand_over "nats" w (mkRaw (Subject msg) (Data msg) now) ("ingest buffer full on subject " +:+ Subject msg)).1.

(** What each subscription says it dropped, or nothing where it fails to say. *)
Definition droppedCount (subs : list (option Z)) : Z := foldl (λ total d, match d with Some d => i64 (total + d) | None => total end) 0 subs.

(** ** The loop *)

Inductive place := Top | Delivering (reportedDrops : Z) | Back (err : option error).

Record state := mkState { w : wire; closed : bool; canceled : bool; conn : bool; here : place }.

Definition start (size : nat) : state := mkState (new_wire size) false false false Top.

Definition set_wire (s : state) (w : wire) : state := mkState w (closed s) (canceled s) (conn s) (here s).

(** The deferred calls of Run, and its result. *)
Definition leave (s : state) (err : option error) : state :=
  mkState (count (w s) (λ c, connected c false)) (closed s) (canceled s) false (Back err).

(** Run up to its loop. *)
Definition begin (s : state) (cl : client) : state :=
  match dial cl with
  | Some err => mkState (count (w s) (λ c, failed c (Some err))) (closed s) (canceled s) (conn s) (Back (Some err))
  | None =>
      match subscribe_all cl (subjects n) with
      | Some (recorded, err) => leave (set_wire s (count (w s) (λ c, failed c (Some recorded)))) (Some err)
      | None => mkState (count (w s) (λ c, connected c true)) (closed s) (canceled s) true (Delivering 0)
      end
  end.

(** A message from the channel: forwarded, and then the client is asked what it dropped. *)
Definition deliver (s : state) (reportedDrops : Z) (msg : Msg) (subs : list (option Z)) (now : Time) : state :=
  if closed s then leave s None
  else
    let w := forward (w s) msg now in
    let dropped := droppedCount subs in
    if reportedDrops <? dropped
    then mkState (signal "nats" w GapHighWaterMark now
                    ("nats client dropped " +:+ FormatInt dropped +:+ " messages for a slow consumer"))
           (closed s) (canceled s) (conn s) (Delivering dropped)
    else mkState w (closed s) (canceled s) (conn s) (Delivering reportedDrops).

Definition Close (s : state) : state :=
  if closed s then s else mkState (count (w s) (λ c, connected c false)) true (canceled s) false (here s).

Inductive input :=
  | Begins (cl : client)
  | Arrives (msg : Msg) (subs : list (option Z)) (now : Time)
  | ChannelCloses
  | SeesDone
  | Reconnects (now : Time)
  | Disconnects (err : option string)
  | Cancels
  | Closes
  | PipelineTakes
  | PipelineHears.

(** One thing happens; an input the state does not allow changes nothing. *)
Definition step (s : state) (i : input) : state :=
  match i, here s with
  | Begins cl, Top => begin s cl
  | Arrives msg subs now, Delivering reported => deliver s reported msg subs now
  | ChannelCloses, Delivering _ => leave s None
  | SeesDone, Delivering _ => if canceled s then leave s (Some (bare ContextCanceled)) else s
  | Reconnects now, _ => set_wire s (ReconnectHandler (w s) now)
  | Disconnects err, _ => set_wire s (DisconnectErrHandler (w s) err)
  | Cancels, _ => mkState (w s) (closed s) true (conn s) (here s)
  | Closes, _ => Close s
  | PipelineTakes, _ => set_wire s (take_message (w s))
  | PipelineHears, _ => set_wire s (take_signal (w s))
  | _, _ => s
  end.

Definition run (s : state) (inputs : list input) : state := foldl step s inputs.

(** ** The messages it took *)

(** What became of a message: forwarded, refused for its size, dropped for want of a place, or taken
    after Close; and the client's losses that were asked for and the reconnects between them. *)
Inductive entry := Forwarded (m : Msg) | Refused (m : Msg) | Overrun (m : Msg) | AfterClose (m : Msg) | ClientDropped | Reconnected.

Definition entry_msg (e : entry) : option Msg :=
  match e with Forwarded m | Refused m | Overrun m | AfterClose m => Some m | _ => None end.
Definition forwarded (e : entry) : option (string * string) :=
  match e with Forwarded m => Some (Subject m, Data m) | _ => None end.
Definition discarded (e : entry) : option Msg := match e with Refused m | Overrun m => Some m | _ => None end.
Definition entry_gap (e : entry) : option GapReason :=
  match e with
  | Refused _ => Some GapOversized
  | Overrun _ | ClientDropped => Some GapHighWaterMark
  | Reconnected => Some GapReconnect
  | _ => None
  end.

Definition taken_by (s : state) (i : input) : list Msg :=
  match i, here s with Arrives m _ _, Delivering _ => [m] | _, _ => [] end.

Fixpoint all_taken (s : state) (inputs : list input) : list Msg :=
  match inputs with [] => [] | i :: rest => taken_by s i ++ all_taken (step s i) rest end.

Definition fate_ok (isClosed : bool) (e : entry) : Prop :=
  match e with
  | Forwarded m | Overrun m => Z.of_nat (String.length (Data m)) ≤ maxPayload n
  | Refused m => maxPayload n < Z.of_nat (String.length (Data m))
  | AfterClose _ => isClosed = true
  | _ => True
  end.

(** The account of a run. *)
Record accounted (log : list Msg) (s : state) (story : list entry) : Prop := mk_accounted {
  ac_msgs : log = omap entry_msg story;
  ac_fates : Forall (fate_ok (closed s)) story;
  ac_out : (λ m, (RTopic m, Payload m)) <$> accepted (out (w s)) = omap forwarded story;
  ac_received : FramesReceived (c (w s)) = counted (omap forwarded story);
  ac_dropped : Dropped (c (w s)) = counted (omap discarded story);
  ac_gaps : Gaps (c (w s)) = counted (omap entry_gap story);
  ac_signals : (GReason <$> accepted (ch (w s))) `sublist_of` omap entry_gap story
}.
End nats.

(** ** What the client drops is asked for

    Every message the loop took is accounted for, and what the client says it
    dropped is signalled whenever it grew. *)

Section facts.
Context {U : UnicodePrint}.
Variable n : NATSSource.

(** One more entry, where the wire moved as the entry says. *)
Lemma accounted_entry log s story s' e :
  accounted n log s story → closed s' = closed s → fate_ok n (closed s) e →
  (λ m, (RTopic m, Payload m)) <$> accepted (out (w s')) = ((λ m, (RTopic m, Payload m)) <$> accepted (out (w s))) ++ omap forwarded [e] →
  FramesReceived (c (w s')) = u64 (FramesReceived (c (w s)) + Z.of_nat (length (omap forwarded [e]))) →
  Dropped (c (w s')) = u64 (Dropped (c (w s)) + Z.of_nat (length (omap discarded [e]))) →
  Gaps (c (w s')) = u64 (Gaps (c (w s)) + Z.of_nat (length (omap entry_gap [e]))) →
  (∃ l, GReason <$> accepted (ch (w s')) = (GReason <$> accepted (ch (w s))) ++ l ∧ l `sublist_of` omap entry_gap [e]) →
  accounted n (log ++ omap entry_msg [e]) s' (story ++ [e]).
Proof.
  intros [Hl Hok Ho Hr Hd Hg Hs] Ec Hfate E1 E2 E3 E4 (l & E5 & Hsub).
  constructor; rewrite ?omap_app, ?counted_app, ?E1, ?E2, ?E3, ?E4, ?E5, ?Ec; try congruence.
  - apply Forall_app. by repeat constructor.
  - by apply sublist_app.
Qed.

(** What the account does not look at. *)
Lemma nats_same log s s' story : accounted n log s story →
  accepted (out (w s')) = accepted (out (w s)) → accepted (ch (w s')) = accepted (ch (w s)) →
  FramesReceived (c (w s')) = FramesReceived (c (w s)) → Dropped (c (w s')) = Dropped (c (w s)) → Gaps (c (w s')) = Gaps (c (w s)) →
  (closed s = true → closed s' = true) → accounted n log s' story.
Proof.
  intros [] E1 E2 E3 E4 E5 Ec. constructor; rewrite ?E1, ?E2, ?E3, ?E4, ?E5; try done.
  eapply Forall_impl; [done|]. intros []; cbn; auto.
Qed.

Lemma accounted_ranges log s story : accounted n log s story →
  is_u64 (FramesReceived (c (w s))) ∧ is_u64 (Dropped (c (w s))) ∧ is_u64 (Gaps (c (w s))).
Proof. intros [_ _ _ -> -> -> _]. split_and!; apply counted_range. Qed.

(** A message is forwarded, refused or dropped. *)
Lemma accounted_forward log s story msg now p : accounted n log s story →
  ∃ e, entry_msg e = Some msg ∧
    accounted n (log ++ [msg]) (mkState (forward n (w s) msg now) (closed s) (canceled s) (conn s) p) (story ++ [e]).
Proof.
  intros Ha. destruct (accounted_ranges _ _ _ Ha) as (Rr & Rd & Rg). unfold forward, too_large, hand_over, trySend.
  destruct (Z.ltb_spec (maxPayload n) (Z.of_nat (String.length (Data msg)))).
  - exists (Refused msg). split; [done|]. eapply (accounted_entry _ _ _ _ (Refused msg)); try done; try tally.
    + cbn. by rewrite app_nil_r.
    + cbn -[offer]. apply reasons_offer.
  - destruct (offer (out (w s)) (mkRaw (Subject msg) (Data msg) now)) as [o ok] eqn:Eo.
    pose proof (accepted_offer (out (w s)) (mkRaw (Subject msg) (Data msg) now)) as Hacc. rewrite Eo in Hacc. cbn [fst snd] in Hacc.
    destruct ok; cbn [c ch out count fst].
    + exists (Forwarded msg). split; [done|]. eapply (accounted_entry _ _ _ _ (Forwarded msg)); try done; try tally.
      * cbn. by rewrite Hacc, fmap_app.
      * exists []. cbn. by rewrite app_nil_r.
    + exists (Overrun msg). split; [done|]. eapply (accounted_entry _ _ _ _ (Overrun msg)); try done; try tally.
      * cbn. by rewrite Hacc, !app_nil_r.
      * cbn -[offer]. apply reasons_offer.
Qed.

(** A signal of the client's own loss, or of a reconnect. *)
Lemma accounted_signal log s story w' now detail e r cl cd cn p :
  accounted n log s story → entry_gap e = Some r → entry_msg e = None → forwarded e = None → discarded e = None → fate_ok n (closed s) e →
  out w' = out (w s) → ch w' = ch (w s) → FramesReceived (c w') = FramesReceived (c (w s)) →
  Dropped (c w') = Dropped (c (w s)) → Gaps (c w') = Gaps (c (w s)) → cl = closed s →
  accounted n log (mkState (signal "nats" w' r now detail) cl cd cn p) (story ++ [e]).
Proof.
  intros Ha Hr Hm Hf Hd Hok E1 E2 E3 E4 E5 ->. destruct (accounted_ranges _ _ _ Ha) as (Rr & Rd & Rg).
  replace log with (log ++ omap entry_msg [e]) by (cbn; rewrite Hm; apply app_nil_r).
  eapply accounted_entry; [exact Ha|done|done|..]; cbn [w signal c ch out gap FramesReceived Dropped Gaps omap list_omap];
    rewrite ?Hf, ?Hd, ?Hr, ?E1, ?E2, ?E3, ?E4, ?E5; cbn [length]; rewrite ?app_nil_r; try tally.
  apply reasons_offer.
Qed.

Lemma nats_step log s story i : accounted n log s story → ∃ story', accounted n (log ++ taken_by s i) (step n s i) story'.
Proof.
  intros Ha. unfold step, taken_by.
  destruct i as [cl|msg subs now| | |now|err| | | |]; rewrite ?app_nil_r.
  - exists story. destruct (here s); try done. unfold begin. destruct (dial n cl); [by eapply nats_same|].
    destruct (subscribe_all cl (subjects n)) as [[recorded err']|]; by eapply nats_same.
  - destruct (here s) as [|reported|back]; rewrite ?app_nil_r; try by eexists. unfold deliver. pose proof (accounted_forward log s story msg now (Delivering reported) Ha) as (e & _ & H1).
    destruct (closed s) eqn:Ec.
    + destruct (accounted_ranges _ _ _ Ha) as (Rr & Rd & Rg).
      exists (story ++ [AfterClose msg]). change [msg] with (omap entry_msg [AfterClose msg]).
      eapply accounted_entry; [exact Ha|done|done|cbn; by rewrite app_nil_r|tally|tally|tally|].
      exists []. cbn. by rewrite app_nil_r.
    + destruct (reported <? droppedCount subs); [|by eexists].
      eexists. by eapply (accounted_signal _ _ _ _ _ _ ClientDropped).
  - exists story. destruct (here s); try done. by eapply nats_same.
  - exists story. destruct (here s); try done. destruct (canceled s); [by eapply nats_same|done].
  - eexists. by eapply (accounted_signal _ _ _ _ _ _ Reconnected).
  - exists story. destruct err; by eapply nats_same.
  - exists story. by eapply nats_same.
  - exists story. unfold Close. destruct (closed s) eqn:Ec; [done|]. by eapply nats_same.
  - exists story. eapply nats_same; [exact Ha| |done..]. apply accepted_receive.
  - exists story. eapply nats_same; [exact Ha|done| |done..]. apply accepted_receive.
Qed.

Lemma nats_run inputs : ∀ log s story, accounted n log s story →
  ∃ story', accounted n (log ++ all_taken n s inputs) (run n s inputs) story'.
Proof.
  induction inputs as [|i inputs IH]; intros log s story Ha; cbn [all_taken run foldl].
  - rewrite app_nil_r. by eexists.
  - destruct (nats_step log s story i Ha) as [story1 H1]. destruct (IH _ _ _ H1) as [story2 H2].
    exists story2. by rewrite (assoc_L (++)).
Qed.


(** Close does not wake the loop: after it, without a message or a cancel, Run stays where it was. *)
Lemma close_does_not_wake_the_loop s inputs reported : here s = Delivering reported →
  Forall (λ i, match i with Begins _ | Reconnects _ | Disconnects _ | Closes | PipelineTakes | PipelineHears | Cancels => True | _ => False end) inputs →
  here (run n (step n s Closes) inputs) = Delivering reported.
Proof.
  intros Eh Hi. assert (here (step n s Closes) = Delivering reported) as H0 by (cbn; unfold Close; by destruct (closed s)).
  revert H0. generalize (step n s Closes) as s'. induction Hi as [|i inputs Hok _ IH]; intros s' H0; [done|]. apply IH.
  unfold step. rewrite H0. destruct i; try done. cbn. unfold Close. by destruct (closed s').
Qed.
End facts.
