(* ===== verification/SourceFile.v ===== *)
(** * SourceFile: replay of a captured stream (pkg/source/file.go)

    Construction, the two fields read ahead of decoding, pacing, and one pass over a
    file as bufio.Scanner cuts it into lines. What the clock, the context, the closer
    and the pipeline do at each line is a parameter. *)
From Stdlib Require Import Ascii String.
From stdpp Require Import strings.
From S2P Require Import Prelude GoBase GoFloat GoStrings GoTime GoFormat GoText Source.
From S2P Require Config.
From S2P Require Import Ingest.

(** ** The scanner *)

Definition lf : ascii := ascii_of 10.
Definition cr : ascii := ascii_of 13.

(** bufio.ScanLines drops one carriage return at the end of a line. *)
Fixpoint dropCR (s : string) : string :=
  match s with
  | String c "" => if Ascii.eqb c cr then "" else s
  | String c s' => String c (dropCR s')
  | "" => ""
  end.

(** The lines of a reader with a buffer of at most [max] bytes, and whether a line was too long: a line
    and its newline must fit, and a last line must leave a byte free. *)
Fixpoint scan_lines_from (max : Z) (s : string) (line : list ascii) (n : Z) : list string * bool :=
  match s with
  | "" => if n =? 0 then ([], false) else ([dropCR (string_of_list (reverse line))], false)
  | String c s' =>
      if max <=? n + 1 then
        if Ascii.eqb c lf && (n + 1 =? max)
        then let '(ls, bad) := scan_lines_from max s' [] 0 in (dropCR (string_of_list (reverse line)) :: ls, bad)
        else ([], true)
      else if Ascii.eqb c lf
      then let '(ls, bad) := scan_lines_from max s' [] 0 in (dropCR (string_of_list (reverse line)) :: ls, bad)
      else scan_lines_from max s' (c :: line) (n + 1)
  end.

Definition scan_lines (max : Z) (s : string) : list string * bool := scan_lines_from max s [] 0.

(** ** Construction *)

Definition SpeedRealtime : string := "realtime".

Record FileSource := mkFile { path : string; speed : float64; loop : bool; maxPayload : Z }.

Inductive FileOption := WithSpeed (multiplier : float64) | WithLoop (loop : bool).

Definition apply_option (f : FileSource) (opt : FileOption) : FileSource :=
  match opt with
  | WithSpeed m => mkFile (path f) m (loop f) (maxPayload f)
  | WithLoop l => mkFile (path f) (speed f) l (maxPayload f)
  end.

Definition NewFile (path : string) (opts : list FileOption) : error + FileSource :=
  if bool_decide (path = "") then inl (wrap ErrBadConfig ": file.path is required")
  else
    let f := foldl apply_option (mkFile path (S754_zero false) false defaultMaxPayloadBytes) opts in
    if loop f && bool_decide (path = "-")
    then inl (wrap ErrBadConfig ": file.loop cannot be used with stdin, which cannot be rewound")
    else inr f.

Section construction.
Context `{UnicodePrint}.

Definition parseSpeed (raw : string) : error + float64 :=
  if bool_decide (raw = Config.SpeedAsFastAsPossible) || bool_decide (raw = "") then inr (S754_zero false)
  else if bool_decide (raw = SpeedRealtime) then inr (float_of_Z 1)
  else
    let bad := inl (wrap ErrBadConfig (": file.speed must be " +:+ strconv_Quote Config.SpeedAsFastAsPossible +:+ ", "
                     +:+ strconv_Quote SpeedRealtime +:+ " or a positive multiplier, got " +:+ strconv_Quote raw)) in
    match strconv_ParseFloat raw with
    | Some n => if SFleb n (S754_zero false) then bad else inr n
    | None => bad
    end.

Definition newFile (cfg : Config) : error + FileSource :=
  loop ← SettingBool cfg "loop" false;
  speed ← parseSpeed (Setting cfg "speed" Config.SpeedAsFastAsPossible);
  f ← NewFile (Setting cfg "path" "") [WithSpeed speed; WithLoop loop];
  inr (mkFile (path f) (SourceFile.speed f) (SourceFile.loop f) (MaxPayloadBytes cfg)).
End construction.

(** ** The envelope *)

(** strings.TrimLeft with a cutset of space and tab. *)
Fixpoint trim_blanks (s : string) : string :=
  match s with
  | String c s' => if (byte_of c =? 32) || (byte_of c =? 9) then trim_blanks s' else s
  | "" => ""
  end.

Definition quote : ascii := ascii_of 34.

Definition scanJSONString (line field : string) : string :=
  let needle := String quote (field +:+ String quote "") in
  let '(_, rest, found) := strings_CutString line needle in
  if negb found then ""
  else
    let '(_, rest, found) := strings_Cut rest ":" in
    if negb found then ""
    else
      match trim_blanks rest with
      | "" => ""
      | String c rest =>
          if negb (Ascii.eqb c quote) then ""
          else let '(value, _, found) := strings_Cut rest quote in if found then value else ""
      end.

Definition envelope (line : string) : string * Time :=
  let topic := scanJSONString line "topic" in
  let raw := scanJSONString line "ts" in
  (topic, if bool_decide (raw = "") then zero_time else default zero_time (time_Parse raw)).

(** ** One pass *)

Section replay.
Context `{FloatOverflow}.
Variable f : FileSource.

(** What pace sleeps for; [None] where it does not sleep. *)
Definition pace (firstAt startedAt at_ now : Time) : option Duration :=
  if IsZero at_ || IsZero firstAt then None
  else
    let offset := time_Sub at_ firstAt in
    let offset := if negb (SFeqb (speed f) (float_of_Z 1)) then int64_of_float (float_div (float_of_Z offset) (speed f)) else offset in
    let wait := time_Sub (time_Add startedAt offset) now in
    if wait <=? 0 then None else Some wait.

(** What happens at a line: whether the context is done and the source closed when it is read, the time
    at which the pass is anchored and paced, whether a sleep ends by itself, the time the message is
    stamped with, and whether the pipeline takes it. *)
Record moment := mkMoment {
  m_canceled : bool;
  m_closed : bool;
  m_now : Time;
  m_slept : bool;
  m_stamp : Time;
  m_sent : bool
}.

(** The loop of replayOnce: the messages sent, the statistics, and how it ended: an error of the
    context, a return because the source is closed, or the end of the lines. *)
Inductive ending := Stopped (err : option error) | Exhausted.

Fixpoint replay_lines (lines : list string) (at_line : nat → moment) (firstAt startedAt : Time) (st : Stats) : list RawMessage * Stats * ending :=
  match lines with
  | [] => ([], st, Exhausted)
  | line :: rest =>
      let m := at_line 0%nat in
      let next := λ k, at_line (S k) in
      if m_canceled m then ([], st, Stopped (Some (bare ContextCanceled)))
      else if m_closed m then ([], st, Stopped None)
      else if bool_decide (TrimSpace line = "") then replay_lines rest next firstAt startedAt st
      else
        let '(topic, at_) := envelope line in
        let paced := SFltb (S754_zero false) (speed f) in
        let '(firstAt, startedAt) := if paced && IsZero firstAt then (at_, m_now m) else (firstAt, startedAt) in
        let sleeps := if paced then pace firstAt startedAt at_ (m_now m) else None in
        if bool_decide (is_Some sleeps) && negb (m_slept m) then ([], st, Stopped (Some (bare ContextCanceled)))
        else if negb (m_sent m) then ([], st, Stopped (Some (bare ContextCanceled)))
        else
          let msg := mkRaw topic line (m_stamp m) in
          let st := frame st (Z.of_nat (String.length line)) (m_stamp m) in
          let '(sent, st, e) := replay_lines rest next firstAt startedAt st in (msg :: sent, st, e)
  end.

(** What open gives: the text of an error, or what the file holds and the error a read ends with. *)
Definition opened : Type := string + string * option string.

Definition replayOnce (o : opened) (at_line : nat → moment) (st : Stats) : list RawMessage * Stats * option error :=
  match o with
  | inl text =>
      let err := mkError Foreign ("opening " +:+ path f +:+ ": " +:+ text) in
      ([], failed st (Some err), Some err)
  | inr (content, readErr) =>
      let st := connected st true in
      let '(lines, tooLong) := scan_lines (maxPayload f) content in
      let '(sent, st, e) := replay_lines lines at_line zero_time zero_time st in
      match e with
      | Stopped err => (sent, connected st false, err)
      | Exhausted =>
          let err := if tooLong then Some (wrap ErrPayloadTooLarge (": a line exceeded " +:+ FormatInt (maxPayload f) +:+ " bytes"))
                     else mkError Foreign <$> readErr in
          match err with
          | Some err => (sent, connected (failed st (Some err)) false,
                         Some (mkError (Is err) ("replaying " +:+ path f +:+ ": " +:+ Error err)))
          | None => (sent, connected st false, None)
          end
      end
  end.

(** What Run meets on its passes: the file, what happens at each line, and at the end of the pass
    whether the source is closed and the context done. *)
Record pass := mkPass { p_file : opened; p_at : nat → moment; p_closed : bool; p_canceled : bool }.

(** Run over its passes: what it sent and its result, or no result while it goes on replaying. *)
Fixpoint Run (passes : list pass) (st : Stats) : list RawMessage * Stats * option (option error) :=
  match passes with
  | [] => ([], st, None)
  | p :: rest =>
      let '(sent, st, err) := replayOnce (p_file p) (p_at p) st in
      match err with
      | Some _ => (sent, st, Some err)
      | None =>
          if negb (loop f) || p_closed p then (sent, st, Some None)
          else if p_canceled p then (sent, st, Some (Some (bare ContextCanceled)))
          else let '(more, st, r) := Run rest st in (sent ++ more, st, r)
      end
  end.
End replay.

(** ** A replay reads everything or fails

    A capture written line by line is replayed line by line; what a pass sends is a
    beginning of the lines of the file, all of them where it reports no error and
    was not closed. *)

(** ** Lines *)

(** A line that survives the scanner: no newline, no carriage return at its end, shorter than the bound. *)
Definition no_newline (s : string) : bool := forallb (λ c, negb (Ascii.eqb c lf)) (list_of_string s).
Definition plain_line (max : Z) (s : string) : Prop :=
  no_newline s = true ∧ dropCR s = s ∧ Z.of_nat (String.length s) < max.

(** A capture: each line and its newline. *)
Fixpoint capture (ls : list string) : string :=
  match ls with [] => "" | l :: ls => l +:+ String lf (capture ls) end.

Definition blank (line : string) : bool := bool_decide (TrimSpace line = "").
Definition events_of (ls : list string) : list string := filter (λ l, blank l = false) ls.

Lemma scan_one max l : ∀ acc n rest, no_newline l = true → 0 ≤ n → n + Z.of_nat (String.length l) < max →
  scan_lines_from max (l +:+ String lf rest) acc n
  = let '(ls, bad) := scan_lines_from max rest [] 0 in (dropCR (string_of_list (reverse acc ++ list_of_string l)) :: ls, bad).
Proof.
  induction l as [|c l IH]; intros acc n rest Hl Hn Hlen; cbn [String.length] in Hlen.
  - rewrite string_app_nil_l, app_nil_r. cbn [scan_lines_from]. rewrite Ascii.eqb_refl. cbn [andb].
    destruct (Z.leb_spec max (n + 1)); [|done]. assert ((n + 1 =? max) = true) as -> by lia. done.
  - rewrite string_app_cons. cbn [scan_lines_from]. unfold no_newline in Hl. cbn [list_of_string list_ascii_of_string forallb] in Hl.
    apply andb_true_iff in Hl as [Hc Hl]. apply negb_true_iff in Hc. rewrite Hc.
    destruct (Z.leb_spec max (n + 1)); [lia|]. rewrite IH by (first [done|lia]).
    destruct (scan_lines_from max rest [] 0). rewrite reverse_cons, <-(assoc_L (++)). done.
Qed.

Lemma string_of_list_of_string s : string_of_list (list_of_string s) = s.
Proof. apply string_of_list_ascii_of_string. Qed.

(** What is written line by line is scanned line by line. *)
Lemma scan_capture max ls : Forall (plain_line max) ls → scan_lines max (capture ls) = (ls, false).
Proof.
  unfold scan_lines. induction 1 as [|l ls (Hn & Hcr & Hlen) _ IH]; [done|]. cbn [capture].
  rewrite scan_one by (first [done|lia]). rewrite IH. cbn [reverse rev_append app]. by rewrite string_of_list_of_string, Hcr.
Qed.

(** ** One pass *)

Section replay.
Context {F : FloatOverflow}.
Variable f : FileSource.

(** Nothing stops the pass at a line. *)
Definition calm (m : moment) : Prop := m_canceled m = false ∧ m_closed m = false ∧ m_slept m = true ∧ m_sent m = true.

Lemma events_cons l ls : events_of (l :: ls) = (if blank l then [] else [l]) ++ events_of ls.
Proof. unfold events_of. rewrite filter_cons. destruct (blank l) eqn:Hb; by case_decide. Qed.

Lemma replay_lines_spec lines : ∀ at_line firstAt startedAt st sent st' e,
  replay_lines f lines at_line firstAt startedAt st = (sent, st', e) →
  (Payload <$> sent) `prefix_of` events_of lines
  ∧ (e = Exhausted → Payload <$> sent = events_of lines)
  ∧ ((∀ k, calm (at_line k)) → e = Exhausted)
  ∧ (e = Stopped None → ∃ k, m_closed (at_line k) = true)
  ∧ (is_u64 (FramesReceived st) → FramesReceived st' = u64 (FramesReceived st + Z.of_nat (length sent))).
Proof.
  induction lines as [|line lines IH]; intros at_line firstAt startedAt st sent st' e H; cbn [replay_lines] in H.
  - simplify_eq. cbn. split_and!; try done. intros. rewrite Z.add_0_r. by rewrite u64_small.
  - assert (∀ err, ([], st, Stopped err) = (sent, st', e) → ¬ calm (at_line 0%nat) → (err = None → ∃ k, m_closed (at_line k) = true) →
      (Payload <$> sent) `prefix_of` events_of (line :: lines) ∧ (e = Exhausted → Payload <$> sent = events_of (line :: lines))
      ∧ ((∀ k, calm (at_line k)) → e = Exhausted) ∧ (e = Stopped None → ∃ k, m_closed (at_line k) = true)
      ∧ (is_u64 (FramesReceived st) → FramesReceived st' = u64 (FramesReceived st + Z.of_nat (length sent)))) as Hstop.
    { intros err Heq Hc Hn. simplify_eq. cbn. split_and!; try done; [apply prefix_nil|by intros Hall; destruct (Hc (Hall 0%nat))| |].
      - intros [= ->]. by apply Hn.
      - intros. rewrite Z.add_0_r. by rewrite u64_small. }
    set (next := λ k, at_line (S k)) in H.
    destruct (m_canceled (at_line 0%nat)) eqn:E1; [eapply Hstop; [done| |done]; intros (E & _); by rewrite E in E1|].
    destruct (m_closed (at_line 0%nat)) eqn:E2; [eapply Hstop; [done| |by eexists]; intros (_ & E & _); by rewrite E in E2|].
    change (bool_decide (TrimSpace line = "")) with (blank line) in H. destruct (blank line) eqn:Hb.
    { rewrite events_cons, Hb. destruct (IH _ _ _ _ _ _ _ H) as (H1 & H2 & H3 & H4 & H5). split_and!; try done.
      - intros Hall. apply H3. intros k. apply (Hall (S k)).
      - intros He. destruct (H4 He) as [k Hk]. by exists (S k). }
    destruct (envelope line) as [topic at_]. cbv zeta in H.
    destruct (if SFltb _ _ && IsZero firstAt then _ else _) as [firstAt' startedAt'].
    match type of H with context [bool_decide ?P && _] => destruct (bool_decide P && negb (m_slept (at_line 0%nat))) eqn:E3 end.
    { apply andb_true_iff in E3 as [_ E3%negb_true_iff]. eapply Hstop; [done| |done]. intros (_ & _ & E & _). by rewrite E in E3. }
    destruct (m_sent (at_line 0%nat)) eqn:E4; cbn [negb] in H; [|eapply Hstop; [done| |done]; intros (_ & _ & _ & E); by rewrite E in E4].
    destruct (replay_lines f lines next firstAt' startedAt' _) as [[sent1 st1] e1] eqn:Hrec. simplify_eq.
    destruct (IH _ _ _ _ _ _ _ Hrec) as (H1 & H2 & H3 & H4 & H5). rewrite events_cons, Hb, fmap_cons. cbn [Payload app].
    split_and!; try done.
    + by apply prefix_cons.
    + intros He. by rewrite H2.
    + intros Hall. apply H3. intros k. apply (Hall (S k)).
    + intros He. destruct (H4 He) as [k Hk]. by exists (S k).
    + intros Hr. rewrite H5 by apply u64_range. cbn [frame FramesReceived length]. unfold u64. rewrite Zplus_mod_idemp_l. f_equal. lia.
Qed.

(** a replay reads everything or fails: whatever happens while a pass runs, what it sends is a
    beginning of the events of the file, in order; and where it reports no error and nobody closed the
    source, it is all of them, and no line was too long and no read failed. *)
Theorem replay_reads_everything_or_fails content readErr at_line st sent st' err :
  replayOnce f (inr (content, readErr)) at_line st = (sent, st', err) →
  let '(lines, tooLong) := scan_lines (maxPayload f) content in
  (Payload <$> sent) `prefix_of` events_of lines
  ∧ (err = None → (∀ k, m_closed (at_line k) = false) →
       Payload <$> sent = events_of lines ∧ tooLong = false ∧ readErr = None).
Proof.
  unfold replayOnce. destruct (scan_lines (maxPayload f) content) as [lines tooLong].
  destruct (replay_lines f lines at_line zero_time zero_time (connected st true)) as [[sent1 st1] e] eqn:Hrun.
  destruct (replay_lines_spec _ _ _ _ _ _ _ _ Hrun) as (H1 & H2 & H3 & H4 & H5). destruct e as [stop|].
  - intros [= <- <- <-]. split; [done|]. intros -> Hcl. destruct (H4 eq_refl) as [k Hk]. by rewrite Hcl in Hk.
  - destruct tooLong; [|destruct readErr as [text|]]; cbn [fmap option_fmap option_map]; intros [= <- <- <-]; (split; [done|]); try done.
    intros _ _. split_and!; [by apply H2|done|done].
Qed.

(** a capture is replayed as it was written: of a file that holds lines shorter than the bound, each
    with its newline, a pass that nothing stops sends every line that is not blank, once, unchanged and
    in order, counts them, and reports no error. *)
Theorem capture_is_replayed ls at_line st : Forall (plain_line (maxPayload f)) ls → (∀ k, calm (at_line k)) → is_u64 (FramesReceived st) →
  ∃ sent st', replayOnce f (inr (capture ls, None)) at_line st = (sent, st', None)
    ∧ Payload <$> sent = events_of ls
    ∧ FramesReceived st' = u64 (FramesReceived st + Z.of_nat (length (events_of ls))).
Proof.
  intros Hls Hcalm Hr. unfold replayOnce. rewrite scan_capture by done.
  destruct (replay_lines f ls at_line zero_time zero_time (connected st true)) as [[sent st1] e] eqn:Hrun.
  destruct (replay_lines_spec _ _ _ _ _ _ _ _ Hrun) as (_ & H2 & H3 & _ & H5). rewrite (H3 Hcalm) in *.
  exists sent, (connected st1 false). split_and!; [done|by apply H2|].
  rewrite <-(H2 eq_refl), length_fmap. by apply H5.
Qed.
End replay.
