(* ===== verification/Sources.v ===== *)
(** * Sources: the registry of the four transports (pkg/source)

    What the init functions register, building a source by its name, and what of a
    validated specification arrives in the source it builds. *)
From Stdlib Require Import Ascii String.
From stdpp Require Import strings sorting.
From S2P Require Import Prelude GoBase GoStrings GoText Event Source.
From S2P Require SourceMemory SourceFile SourceZMQ SourceNATS Config ConfigFacts Spec Event.

Inductive source :=
  | SMemory (m : SourceMemory.MemorySource)
  | SFile (f : SourceFile.FileSource)
  | SZMQ (z : SourceZMQ.ZMQSource)
  | SNATS (n : SourceNATS.NATSSource).

Definition Name (s : source) : string :=
  match s with SMemory _ => "memory" | SFile _ => "file" | SZMQ _ => "zmq" | SNATS _ => "nats" end.

Section sources.
Context {U : UnicodePrint}.

Definition built {A} (wrap : A → source) (r : error + A) : error + source :=
  match r with inl e => inl e | inr a => inr (wrap a) end.

(** The init functions, in the order of the files; [now] seeds the jitter of the zmq source. *)
Definition registry (now : Z) : option (gmap string (Config → error + source)) :=
  r ← Register "file" (λ cfg, built SFile (SourceFile.newFile cfg)) ∅;
  r ← Register "memory" (λ cfg, built SMemory (SourceMemory.newMemory cfg)) r;
  r ← Register "nats" (λ cfg, built SNATS (SourceNATS.newNATS cfg)) r;
  Register "zmq" (λ cfg, built SZMQ (SourceZMQ.newZMQ now cfg)) r.

(** No init function panics, and the names are those validation knows. *)
Lemma registry_complete now : ∃ r, registry now = Some r ∧ Registered r = Config.source_Registered.
Proof. by eexists. Qed.

(** ** From a specification to its source *)

Section arrival.
Context {T0 : UnicodeTables} {O : MapOrder} {E : Projection.TemplateEngine}.

(** The configuration a check hands to its source. *)
Definition source_config (s : Spec.Spec) (payload : Z) : Config := mkConfig (Config.SourceSettings s) payload 0.

Lemma Setting_given cfg key def v : Settings cfg !! key = Some v → v ≠ "" → Setting cfg key def = v.
Proof. intros Hk Hv. unfold Setting. rewrite Hk. by rewrite bool_decide_false. Qed.

Lemma SettingList_join cfg key l : l ≠ [] → Forall ConfigFacts.plain_item l →
  Settings cfg !! key = Some (strings_Join l ",") → SettingList cfg key = l.
Proof.
  intros Hne Hp Hk.
  assert (strings_Join l "," ≠ "") as Hj by (apply ConfigFacts.Join_empty; [done|by eapply Forall_impl; [exact Hp|intros a (_ & ? & _)]]).
  unfold SettingList. rewrite (Setting_given _ _ _ _ Hk Hj), bool_decide_false by done.
  rewrite ConfigFacts.Split_Join; [|done|by eapply Forall_impl; [exact Hp|intros a [? _]]].
  clear Hne Hk Hj. induction Hp as [|a l (H1 & H2 & H3) Hl IH]; [done|]. rewrite fmap_cons, H3. rewrite filter_cons_True by done. by rewrite IH.
Qed.

Lemma SettingBool_given cfg key def b : Settings cfg !! key = Some (Config.FormatBool b) → SettingBool cfg key def = inr b.
Proof. intros Hk. unfold SettingBool. rewrite (Setting_given _ _ _ _ Hk) by (by destruct b). by destruct b. Qed.

(** What the registry builds under a name. *)
Lemma registry_builds now r cfg : registry now = Some r →
  New r "file" cfg = built SFile (SourceFile.newFile (applyDefaults cfg))
  ∧ New r "memory" cfg = built SMemory (SourceMemory.newMemory (applyDefaults cfg))
  ∧ New r "nats" cfg = built SNATS (SourceNATS.newNATS (applyDefaults cfg))
  ∧ New r "zmq" cfg = built SZMQ (SourceZMQ.newZMQ now (applyDefaults cfg)).
Proof. intros Hr. injection Hr as <-. by split_and!. Qed.

Lemma validated_nats s n : Config.Spec_Validate s = None → Spec.Source_Type (Spec.Spec_Source s) = "nats" →
  Spec.Source_NATS (Spec.Spec_Source s) = Some n →
  Spec.NATS_URL n ≠ "" ∧ Spec.NATS_Subjects n ≠ [] ∧ Spec.NATS_QueueGroup n = "".
Proof.
  intros (Hsrc & _)%ConfigFacts.Validate_parts Ht Hn. unfold Config.validateSource in Hsrc. rewrite Ht in Hsrc.
  destruct (negb (Config.contains _ _)); [done|]. rewrite bool_decide_false, bool_decide_true in Hsrc by done.
  unfold Config.validateNATS in Hsrc. rewrite Hn in Hsrc. case_bool_decide; [done|]. ConfigFacts.validated Hsrc.
  destruct Hsrc as (Hs & Hq). apply negb_false_iff, bool_decide_eq_true in Hq. apply bool_decide_eq_false in Hs. done.
Qed.

Lemma validated_file s f : Config.Spec_Validate s = None → Spec.Source_Type (Spec.Spec_Source s) = "file" →
  Spec.Source_File (Spec.Spec_Source s) = Some f →
  Spec.File_Path f ≠ "" ∧ (Spec.File_Loop f = true → Spec.File_Path f ≠ "-")
  ∧ (Spec.File_Speed f ∈ [Config.SpeedRealtime; Config.SpeedFast; ""]
     ∨ ∃ rate, strconv_ParseFloat (Spec.File_Speed f) = Some rate ∧ SpecFloat.SFleb rate (SpecFloat.S754_zero false) = false).
Proof.
  intros (Hsrc & _)%ConfigFacts.Validate_parts Ht Hf. unfold Config.validateSource in Hsrc. rewrite Ht in Hsrc.
  destruct (negb (Config.contains _ _)); [done|]. rewrite !bool_decide_false, bool_decide_true in Hsrc by done.
  unfold Config.validateFile in Hsrc. rewrite Hf in Hsrc. case_bool_decide; [done|]. ConfigFacts.validated Hsrc.
  destruct Hsrc as (Hs & Hl). split_and!; [done|intros Hloop Hp; by rewrite Hloop, Hp in Hl|].
  apply andb_false_iff in Hs as [Hs|Hs]; [left; by apply negb_false_iff, bool_decide_eq_true in Hs|right].
  destruct (strconv_ParseFloat _) as [rate|]; [by exists rate|done].
Qed.

(** A speed that validates is parsed. *)
Lemma parseSpeed_validated raw : raw ≠ Config.SpeedAsFastAsPossible →
  raw ∈ [Config.SpeedRealtime; Config.SpeedFast; ""]
  ∨ (∃ rate, strconv_ParseFloat raw = Some rate ∧ SpecFloat.SFleb rate (SpecFloat.S754_zero false) = false) →
  ∃ rate, SourceFile.parseSpeed (Config.fileSpeed raw) = inr rate
    ∧ (raw = Config.SpeedRealtime → rate = GoFloat.float_of_Z 1)
    ∧ (raw ∈ [Config.SpeedFast; ""] → rate = SpecFloat.S754_zero false)
    ∧ (raw ∉ [Config.SpeedRealtime; Config.SpeedFast; ""] → strconv_ParseFloat raw = Some rate).
Proof.
  intros Hs H. destruct (decide (raw ∈ [Config.SpeedRealtime; Config.SpeedFast; ""])) as [Hin|Hnin].
  - repeat (apply elem_of_cons in Hin as [->|Hin]); [| | |by apply elem_of_nil in Hin]; eexists; (split; [reflexivity|]);
      (split_and!; [done|intros Hin; try done|intros Hnin; exfalso; apply Hnin; set_solver]).
    exfalso. repeat (apply elem_of_cons in Hin as [Heq|Hin]; [done|]). by apply elem_of_nil in Hin.
  - destruct H as [H|(rate & Hp & Hle)]; [done|]. exists rate.
    assert (raw ≠ Config.SpeedFast ∧ raw ≠ "" ∧ raw ≠ Config.SpeedRealtime) as (N1 & N2 & N3) by (split_and!; intros ->; apply Hnin; set_solver).
    unfold Config.fileSpeed. rewrite !bool_decide_false by done. cbn [orb]. unfold SourceFile.parseSpeed.
    rewrite !bool_decide_false by done. cbn [orb]. rewrite Hp, Hle. split_and!; [done|done| |done].
    intros Hin. exfalso. apply Hnin. set_solver.
Qed.

(** the nats source of a validated specification is built: it listens to the subjects the specification
    names, in order, at its URL, in no queue group; for subjects that survive a comma-separated list and
    a URL that is not blank. *)
Theorem nats_source_arrives now r s n payload :
  registry now = Some r → Config.Spec_Validate s = None → Spec.Source_Type (Spec.Spec_Source s) = "nats" →
  Spec.Source_NATS (Spec.Spec_Source s) = Some n → TrimSpace (Spec.NATS_URL n) ≠ "" →
  Forall ConfigFacts.plain_item (Spec.NATS_Subjects n) → 0 < payload →
  New r "nats" (source_config s payload)
  = inr (SNATS (SourceNATS.mkNATS (Spec.NATS_URL n) (Spec.NATS_Subjects n) payload)).
Proof.
  intros Hreg Hv Ht Hn Hu Hp Hpay. destruct (validated_nats s n Hv Ht Hn) as (H1 & H2 & H3).
  destruct (registry_builds now r (source_config s payload) Hreg) as (_ & _ & -> & _).
  set (cfg := applyDefaults (source_config s payload)).
  assert (Settings cfg = Config.settings [("url", Spec.NATS_URL n); ("subjects", strings_Join (Spec.NATS_Subjects n) ",");
            ("queueGroup", Spec.NATS_QueueGroup n)]) as Hc.
  { subst cfg. unfold source_config. cbn [applyDefaults Settings]. unfold Config.SourceSettings. by rewrite Ht, Hn. }
  assert (MaxPayloadBytes cfg = payload) as Hmp by (subst cfg; cbn; by destruct (Z.leb_spec payload 0); [lia|]).
  clearbody cfg. unfold SourceNATS.newNATS.
  rewrite (Setting_given cfg "url" "" (Spec.NATS_URL n)) by (done || (rewrite Hc; ConfigFacts.find_setting)).
  rewrite (SettingList_join cfg "subjects" (Spec.NATS_Subjects n)) by (done || (rewrite Hc; ConfigFacts.find_setting)).
  assert (Setting cfg "queueGroup" "" = "") as ->.
  { unfold Setting. rewrite Hc. rewrite H3. by vm_compute. }
  unfold SourceNATS.NewNATS, SourceNATS.validateQueueGroup. rewrite bool_decide_true by done. rewrite !bool_decide_false by done.
  cbn. by rewrite Hmp.
Qed.

(** the replay of a validated specification is built: it reads the path the specification names, at
    its speed (the original timing, a multiplier that parses, or as fast as it goes) and looping as it
    says. *)
Theorem file_source_arrives now r s f payload :
  registry now = Some r → Config.Spec_Validate s = None → Spec.Source_Type (Spec.Spec_Source s) = "file" →
  Spec.Source_File (Spec.Spec_Source s) = Some f → 0 < payload →
  ∃ rate, New r "file" (source_config s payload)
          = inr (SFile (SourceFile.mkFile (Spec.File_Path f) rate (Spec.File_Loop f) payload))
    ∧ (Spec.File_Speed f = Config.SpeedRealtime → rate = GoFloat.float_of_Z 1)
    ∧ (Spec.File_Speed f ∈ [Config.SpeedFast; ""] → rate = SpecFloat.S754_zero false)
    ∧ (Spec.File_Speed f ∉ [Config.SpeedRealtime; Config.SpeedFast; ""] → strconv_ParseFloat (Spec.File_Speed f) = Some rate).
Proof.
  intros Hreg Hv Ht Hf Hpay. destruct (validated_file s f Hv Ht Hf) as (H1 & H2 & H3).
  assert (Spec.File_Speed f ≠ Config.SpeedAsFastAsPossible) as Hs.
  { intros E1. rewrite E1 in H3. destruct H3 as [Hin|(rate & Hp & _)]; [|by vm_compute in Hp].
    repeat (apply elem_of_cons in Hin as [Heq|Hin]; [done|]). by apply elem_of_nil in Hin. }
  destruct (registry_builds now r (source_config s payload) Hreg) as (-> & _).
  set (cfg := applyDefaults (source_config s payload)).
  assert (Settings cfg = Config.settings [("path", Spec.File_Path f); ("speed", Config.fileSpeed (Spec.File_Speed f));
            ("loop", Config.FormatBool (Spec.File_Loop f))]) as Hc.
  { subst cfg. unfold source_config. cbn [applyDefaults Settings]. unfold Config.SourceSettings. by rewrite Ht, Hf. }
  assert (MaxPayloadBytes cfg = payload) as Hmp by (subst cfg; cbn; by destruct (Z.leb_spec payload 0); [lia|]).
  clearbody cfg. unfold SourceFile.newFile.
  rewrite (SettingBool_given cfg "loop" false (Spec.File_Loop f)) by (rewrite Hc; ConfigFacts.find_setting). cbn [mbind sum_bind].
  assert (Config.fileSpeed (Spec.File_Speed f) ≠ "") as Hne.
  { unfold Config.fileSpeed. destruct (bool_decide (_ = Config.SpeedFast)); [done|]. by case_bool_decide. }
  rewrite (Setting_given cfg "speed" _ (Config.fileSpeed (Spec.File_Speed f))) by (done || (rewrite Hc; ConfigFacts.find_setting)).
  rewrite (Setting_given cfg "path" "" (Spec.File_Path f)) by (done || (rewrite Hc; ConfigFacts.find_setting)).
  assert (∀ rate, SourceFile.NewFile (Spec.File_Path f) [SourceFile.WithSpeed rate; SourceFile.WithLoop (Spec.File_Loop f)]
            = inr (SourceFile.mkFile (Spec.File_Path f) rate (Spec.File_Loop f) defaultMaxPayloadBytes)) as Hnew.
  { intros rate. unfold SourceFile.NewFile. rewrite bool_decide_false by done. cbn.
    destruct (Spec.File_Loop f); [|done]. by rewrite bool_decide_false by auto. }
  destruct (parseSpeed_validated (Spec.File_Speed f) Hs H3) as (rate & Hrate & Hspec). rewrite Hrate. cbn [mbind sum_bind].
  rewrite Hnew. cbn [mbind sum_bind SourceFile.path SourceFile.speed SourceFile.loop built]. rewrite Hmp. by exists rate.
Qed.
End arrival.
End sources.
