(* ===== verification/SourceRuns.v ===== *)
(** * SourceRuns: the sources on concrete runs

    The theorems of the sources at concrete inputs, and runs that show what the code
    does where its comments say something else. *)
From Stdlib Require Import Ascii String.
From stdpp Require Import strings sorting.
From S2P Require Import Prelude GoBase GoFloat GoStrings GoTime GoFormat GoText Event Source Sources.
From S2P Require SourceMemory SourceFile SourceZMQ SourceNATS Lag LagRuns Spec Config ConfigRuns IngestRuns CodecRuns.
From S2P Require Import Ingest.

#[local] Existing Instance ConfigRuns.ascii_print.
#[local] Existing Instance LagRuns.counting_rand.
#[local] Existing Instance amd64_overflow.
#[local] Existing Instance ascending_order.
#[local] Existing Instance Projection.identity_engine.
#[local] Existing Instance caseless.

(** ** The in-process source *)

Module Memory.
Import SourceMemory.

Definition text (s : string) : RawMessage := mkRaw "" s 5.

(** Two messages are published, Run takes both and sends the first, and a third is accepted. *)
Definition published (s : system) (msg : RawMessage) : system :=
  let '(m, ok) := publish (mem s) 0 msg in mkSystem m (run s) (pipe s) (canceled s) (if ok then S (owed s) else owed s).
Definition woken (s : system) : system := mkSystem (wake (mem s)) (run s) (pipe s) (canceled s) (pred (owed s)).
Definition shut (s : system) : system :=
  let '(m, ok) := close (mem s) in mkSystem m (run s) (pipe s) (canceled s) (if ok then S (owed s) else owed s).
Definition ran (s : system) : system := default s (run_step false s).

Definition busy : system :=
  woken (published (ran (ran (woken (published (woken (published (started [] 8) (text "a"))) (text "b"))))) (text "c")).

Lemma reached_published opts n log s msg : reached opts n log s → (publish (mem s) 0 msg).2 = true →
  last (buf (publish (mem s) 0 msg).1) = Some msg → reached opts n (log ++ [msg]) (published s msg).
Proof.
  intros Hr Hok Hl. unfold published. destruct (publish (mem s) 0 msg) as [m ok] eqn:Hp. cbn in Hok, Hl. subst ok.
  pose proof (step_publish s 0 msg m true Hp) as Hs. cbn [fst snd] in Hs. rewrite Hl in Hs. by eapply (reached_step _ _ _ _ (Some msg)).
Qed.
Lemma reached_woken opts n log s k : reached opts n log s → owed s = S k → reached opts n log (woken s).
Proof.
  intros Hr Hk. pose proof (reached_step _ _ _ _ _ _ Hr (step_wake s k Hk)) as H. cbn [option_list] in H. rewrite app_nil_r in H.
  unfold woken. by rewrite Hk.
Qed.
Lemma reached_ran opts n log s : reached opts n log s → reached opts n log (ran s).
Proof.
  intros Hr. unfold ran. destruct (run_step false s) as [s'|] eqn:Hs; [|done].
  pose proof (reached_step _ _ _ _ _ _ Hr (step_run s false s' Hs)) as H. cbn [option_list] in H. by rewrite app_nil_r in H.
Qed.

Lemma busy_reached : reached [] 8 [text "a"; text "b"; text "c"] busy.
Proof.
  eapply reached_woken; [|reflexivity]. apply (reached_published _ _ [text "a"; text "b"]); [|done..].
  apply reached_ran, reached_ran. eapply reached_woken; [|reflexivity]. apply (reached_published _ _ [text "a"]); [|done..].
  eapply reached_woken; [|reflexivity]. apply (reached_published _ _ []); [|done..]. constructor.
Qed.

Lemma memory_source_is_a_queue_witness : orderly [text "a"; text "b"; text "c"] busy.
Proof. apply (memory_source_is_a_queue [] 8). apply busy_reached. Defined.

Lemma accepted_messages_are_delivered_witness :
  ∃ s', rtc runs busy s' ∧ (run s' = Waiting ∨ run s' = Returned None) ∧ accepted (pipe s') = [text "a"; text "b"; text "c"].
Proof.
  apply (accepted_messages_are_delivered [] 8); [apply busy_reached|intros err; discriminate|reflexivity|intros H; discriminate H|].
  unfold room. vm_compute. lia.
Defined.

(** Close is said to let Run finish the backlog. A message accepted between Run's look at an empty
    backlog and its question whether the source is closed is left behind if a close falls there too. *)
Definition stranded : system := ran (woken (shut (woken (published (ran (started [] 8)) (text "a"))))).
Example close_strands_a_message :
  run stranded = Returned None ∧ buf (mem stranded) = [text "a"] ∧ accepted (pipe stranded) = [].
Proof. by vm_compute. Qed.
End Memory.

(** ** The SUB socket *)

Module Zmq.
Import SourceZMQ.

Definition sample : ZMQSource :=
  mkZMQ ["tcp://p:1"] [] 2 defaultConnectTimeout defaultReconnectIntervalMax defaultIdleTimeout 4 defaultShutdownGrace 7.
Definition working : network := mkNetwork (λ e, inr [e]) (λ _, None) (λ _, None).
Definition sec (n : Z) : Time := n * time_Second.

(** Room for one message: the second frame is dropped, the third is too large, the fourth is left behind
    when the session idles out. *)
Definition rough : list input :=
  [Looks; Opens working 0; Recvs (Message ["t"; "one"]); Takes (sec 1); Recvs (Message ["two"]); Takes (sec 2);
   Recvs (Message ["t"; "three"]); Takes (sec 3); Recvs (Message ["t"; "four"]); Expires (sec 61)].

Example rough_run :
  let s := run sample (start 1) rough in
  here s = Pausing (sec 61) ∧ (Payload <$> accepted (out (w s))) = ["one"] ∧ Dropped (c (w s)) = 2 ∧ Reconnects (c (w s)) = 1
  ∧ (GReason <$> accepted (ch (w s))) = [GapHighWaterMark; GapOversized; GapIdle; GapReconnect].
Proof. by vm_compute. Qed.

(** RecvHWM is documented to size a queue whose oldest frame is discarded when it is full. It is the
    newest that is discarded, and the pipeline's channel that is full. *)
Example newest_frame_is_dropped :
  let s := run sample (start 1) [Looks; Opens working 0; Recvs (Message ["old"]); Takes 1; Recvs (Message ["new"]); Takes 2] in
  (Payload <$> accepted (out (w s))) = ["old"] ∧ Dropped (c (w s)) = 1.
Proof. by vm_compute. Qed.

(** Close is documented to be safe during Run. One that falls between the look at the top of the loop
    and the opening of the session closes nothing: Run then receives on an open socket. *)
Example close_misses_the_opening_session :
  let s := run sample (start 1) [Looks; Closes; Opens working 0] in
  closed s = true ∧ here s = Receiving (Some (sec 60)) ∧ sock s = Some false ∧ Connected (c (w s)) = true.
Proof. by vm_compute. Qed.

(** One hour-long session after another: the attempts count on, so that after nine reconnects the wait is
    drawn from the full maximum again and again. *)
Definition session (n : Z) : list input :=
  [Looks; Opens working (sec (4000 * n)); Recvs (Message ["ok"]); Takes (sec (4000 * n + 3600)); PipelineTakes;
   Recvs (Broken "reset"); Takes (sec (4000 * n + 3601)); Wakes (sec (4000 * n + 3700))].
Definition nine_sessions : list input := concat (session <$> [0; 1; 2; 3; 4; 5; 6; 7; 8]).
Example backoff_never_forgets :
  let s := run sample (start 1) nine_sessions in
  FramesReceived (c (w s)) = 9 ∧ attempt s = 9 ∧ backoff_window sample (attempt s) = defaultReconnectIntervalMax.
Proof. by vm_compute. Qed.
End Zmq.

(** ** The replay *)

Module File.
Import SourceFile.

Definition sample : FileSource := mkFile "capture.jsonl" (S754_zero false) false 16.
Definition still : nat → moment := λ _, mkMoment false false 0 true 5 true.
Definition lines_of_sample : list string := ["{}"; " "; "[1]"].

Lemma capture_is_replayed_witness :
  ∃ sent st', replayOnce sample (inr (capture lines_of_sample, None)) still no_stats = (sent, st', None)
    ∧ Payload <$> sent = ["{}"; "[1]"] ∧ FramesReceived st' = 2.
Proof.
  apply (capture_is_replayed sample lines_of_sample still no_stats);
    [repeat constructor|intros k; split_and!; reflexivity|split; vm_compute; discriminate].
Defined.

Lemma replay_reads_everything_or_fails_witness :
  let '(lines, tooLong) := scan_lines 16 ("{}" +:+ String lf (" " +:+ String lf "[1]")) in
  (["{}"; "[1]"] `prefix_of` events_of lines) ∧ (None = @None error → (∀ k, m_closed (still k) = false) →
     ["{}"; "[1]"] = events_of lines ∧ tooLong = false ∧ @None string = None).
Proof.
  apply (replay_reads_everything_or_fails sample ("{}" +:+ String lf (" " +:+ String lf "[1]")) None still no_stats
           [mkRaw "" "{}" 5; mkRaw "" "[1]" 5]
           (connected (frame (frame (connected no_stats true) 2 5) 3 5) false) None).
  vm_compute. reflexivity.
Defined.

(** The other sources accept a payload of exactly the configured maximum; a line of that size is too long. *)
Example largest_payload_is_refused :
  (replayOnce sample (inr ("0123456789abcdef" +:+ String lf "", None)) still no_stats).2
  = Some (mkError ErrPayloadTooLarge
      "replaying capture.jsonl: payload exceeds the configured maximum: a line exceeded 16 bytes").
Proof. by vm_compute. Qed.

(** A field's name is looked for as text: a value equal to it is taken for it. *)
Definition quoted (s : string) : string := String quote (s +:+ String quote "").
Example value_is_taken_for_a_name :
  scanJSONString ("{" +:+ quoted "op" +:+ ":" +:+ quoted "topic" +:+ "," +:+ quoted "key" +:+ ":" +:+ quoted "k" +:+ "}") "topic" = "k".
Proof. by vm_compute. Qed.

(** A speed that is not a number is accepted, and replays as fast as possible. *)
Example not_a_speed_is_accepted : parseSpeed "NaN" = inr S754_nan ∧ SFltb (S754_zero false) S754_nan = false.
Proof. by vm_compute. Qed.
End File.

(** ** From a specification *)

Definition nats_spec : Spec.NATSSpec := Spec.mkNATS "nats://n:4222" ["orders.>"; "stock"] "" None.
Definition nats_config : Spec.Spec :=
  ConfigRuns.bare_spec (Spec.mkSource "nats" None (Some nats_spec) None 0) ConfigRuns.plain_codec ConfigRuns.no_target.

Lemma nats_source_arrives_witness : ∃ r, registry 0 = Some r
  ∧ New r "nats" (source_config nats_config 1024) = inr (SNATS (SourceNATS.mkNATS "nats://n:4222" ["orders.>"; "stock"] 1024)).
Proof.
  eexists. split; [reflexivity|].
  apply (nats_source_arrives 0 _ nats_config nats_spec 1024);
    [reflexivity|vm_compute; reflexivity|reflexivity|reflexivity|vm_compute; discriminate
    |repeat constructor; vm_compute; discriminate|reflexivity].
Defined.

Definition file_spec : Spec.FileSpec := Spec.mkFile "capture.jsonl" "2.5" true.
Definition file_config : Spec.Spec :=
  ConfigRuns.bare_spec (Spec.mkSource "file" None None (Some file_spec) 0) ConfigRuns.plain_codec ConfigRuns.no_target.

Lemma file_source_arrives_witness : ∃ r rate, registry 0 = Some r
  ∧ New r "file" (source_config file_config 1024) = inr (SFile (SourceFile.mkFile "capture.jsonl" rate true 1024))
  ∧ (Spec.File_Speed file_spec = Config.SpeedRealtime → rate = GoFloat.float_of_Z 1)
  ∧ (Spec.File_Speed file_spec ∈ [Config.SpeedFast; ""] → rate = S754_zero false)
  ∧ (Spec.File_Speed file_spec ∉ [Config.SpeedRealtime; Config.SpeedFast; ""] → strconv_ParseFloat "2.5" = Some rate).
Proof.
  eexists. refine ((λ H, match H with ex_intro _ rate P => ex_intro _ rate (conj eq_refl P) end)
    (file_source_arrives 0 _ file_config file_spec 1024 eq_refl _ eq_refl eq_refl eq_refl)).
  vm_compute. reflexivity.
Defined.
