(* ===== verification/Runners.v ===== *)
(** * Runners: the registry of running checks (internal/controller/runner.go)

    Ensure, Stop and Shutdown over one map of runners, a mutex per key that is made
    on demand and dropped when nobody wants it, and the mutex of the registry. Every
    stretch of code under the registry's mutex is one step of a thread; threads
    interleave at those, and each waits for the mutex of its key. What a runnable
    answers, and when its goroutine ends, is chosen by the step. *)
From Stdlib Require Import String.
From stdpp Require Import strings.
From S2P Require Import Prelude GoBase GoStrings GoText.

Definition Key : Type := string.

(** ** Data *)

Definition DefaultRestartInterval : Duration := 5 * time_Second.
Definition DefaultShutdownGrace : Duration := 30 * time_Second.

Record RegistryOptions := mkRegistryOptions { RestartInterval : Duration; ShutdownGrace : Duration }.

Definition NewRunnerRegistry (opts : RegistryOptions) : RegistryOptions :=
  mkRegistryOptions
    (if RestartInterval opts =? 0 then DefaultRestartInterval else RestartInterval opts)
    (if ShutdownGrace opts <=? 0 then DefaultShutdownGrace else ShutdownGrace opts).

(** A runner: [exited] is its closed done channel, [runnable_closed] whether Close was called on what it
    runs, [paused] what SetPaused told it last. *)
Record Runner := mkRunner {
  RKey : Key;
  Hash : string;
  StartedAt : Time;
  runErr : option string;
  stopped : bool;
  exited : bool;
  runnable_closed : bool;
  paused : option bool
}.

Inductive Action := ActionUnchanged | ActionStarted | ActionRestarted | ActionThrottled.
Definition Action_String (a : Action) : string :=
  match a with
  | ActionStarted => "started"
  | ActionRestarted => "restarted"
  | ActionThrottled => "throttled"
  | ActionUnchanged => "unchanged"
  end.

Inductive failure := ErrRegistryClosed | Building (text : string) | DidNotStop | ClosingFailed (text : string).

(** What a call returns: an outcome of Ensure, an error, or nothing more. *)
Inductive result := Outcome (a : Action) (retryAfter : Duration) | Failed (f : failure) | Finished.

(** What a thread was called with. [build] is what the builder answers: the text of an error, or nothing. *)
Inductive call := Ensure (hash : string) (isPaused : bool) (build : option string) | Stop.

(** What follows a stop: the start of a replacement, or the return of a result. *)
Inductive next := ThenStart (hash : string) (build : option string) | ThenReturn (r : result).

(** Where a thread is; the number is the runner it deals with. *)
Inductive point :=
  | Entering (c : call)
  | Locking (c : call)
  | Holding (c : call)
  | Deciding (hash : string) (isPaused : bool) (build : option string)
  | Marking (id : Z) (n : next)
  | Removing (id : Z) (n : next)
  | Awaiting (id : Z) (n : next)
  | Releasing (id : Z) (n : next) (err : option failure)
  | Starting (hash : string) (build : option string) (a : Action)
  | Rechecking (a : Action)
  | Undoing
  | Unlocking (r : result)
  | Leaving (r : result)
  | Gone (r : result).

Record thread := mkThread { tkey : Key; mutex : Z; at_ : point }.

(** The registry, its runners and its threads. [locks] and [holder] are the mutexes by key and who
    holds each; [shutdown] says how far Shutdown came. *)
Inductive phase := Open | Latched | Enumerated.

Record system := mkSystem {
  down : phase;
  runners : gmap Key Z;
  locks : gmap Key Z;
  waiters : gmap Key Z;
  lastStart : gmap Key Time;
  heap : gmap Z Runner;
  holder : gmap Z Z;
  threads : gmap Z thread;
  fresh : Z
}.

Definition closed (s : system) : bool := match down s with Open => false | _ => true end.

(** ** The operations *)

Section ops.
Variable opts : RegistryOptions.

Definition throttle (s : system) (key : Key) (now : Time) : Duration :=
  if RestartInterval opts <? 0 then 0
  else
    match lastStart s !! key with
    | None => 0
    | Some last =>
        let elapsed := time_Sub now last in
        if RestartInterval opts <=? elapsed then 0 else RestartInterval opts - elapsed
    end.

(** The switch of Ensure, over the runner that is there: where the thread goes, and whether the runner
    is told to pause or resume. *)
Definition decide_action (existing : option (Z * Runner)) (hash : string) (isPaused : bool) (build : option string) (wait : Duration) :
    point * option (Z * bool) :=
  match existing with
  | None => (Starting hash build ActionStarted, None)
  | Some (id, r) =>
      if bool_decide (Hash r = hash) && bool_decide (runErr r = None)
      then (Unlocking (Outcome ActionUnchanged 0), Some (id, isPaused))
      else if 0 <? wait then (Unlocking (Outcome ActionThrottled wait), None)
      else (Marking id (ThenStart hash build), None)
  end.

Definition existing (s : system) (key : Key) : option (Z * Runner) :=
  id ← runners s !! key; r ← heap s !! id; Some (id, r).

Definition alter_runner (s : system) (id : Z) (f : Runner → Runner) : system :=
  mkSystem (down s) (runners s) (locks s) (waiters s) (lastStart s) (alter f id (heap s)) (holder s) (threads s) (fresh s).
Definition set_paused (b : bool) (r : Runner) : Runner :=
  mkRunner (RKey r) (Hash r) (StartedAt r) (runErr r) (stopped r) (exited r) (runnable_closed r) (Some b).
Definition set_stopped (r : Runner) : Runner :=
  mkRunner (RKey r) (Hash r) (StartedAt r) (runErr r) true (exited r) (runnable_closed r) (paused r).
Definition set_closed (r : Runner) : Runner :=
  mkRunner (RKey r) (Hash r) (StartedAt r) (runErr r) (stopped r) (exited r) true (paused r).

Definition set_thread (s : system) (t : Z) (th : thread) : system :=
  mkSystem (down s) (runners s) (locks s) (waiters s) (lastStart s) (heap s) (holder s) (<[t := th]> (threads s)) (fresh s).
Definition goto (s : system) (t : Z) (th : thread) (p : point) : system := set_thread s t (mkThread (tkey th) (mutex th) p).

(** lock, up to the release of the registry's mutex: the key's mutex, made where there is none. *)
Definition enlist (s : system) (t : Z) (th : thread) (c : call) : system :=
  let key := tkey th in
  let n := default 0 (waiters s !! key) + 1 in
  match locks s !! key with
  | Some m =>
      set_thread (mkSystem (down s) (runners s) (locks s) (<[key := n]> (waiters s)) (lastStart s) (heap s) (holder s) (threads s) (fresh s))
        t (mkThread key m (Locking c))
  | None =>
      set_thread (mkSystem (down s) (runners s) (<[key := fresh s]> (locks s)) (<[key := n]> (waiters s)) (lastStart s) (heap s)
                    (holder s) (threads s) (fresh s + 1))
        t (mkThread key (fresh s) (Locking c))
  end.

Definition set_holder (s : system) (h : gmap Z Z) : system :=
  mkSystem (down s) (runners s) (locks s) (waiters s) (lastStart s) (heap s) h (threads s) (fresh s).

(** The second half of the release: the mutex is dropped when nobody wants it. *)
Definition delist (s : system) (t : Z) (th : thread) (r : result) : system :=
  let key := tkey th in
  let n := default 0 (waiters s !! key) - 1 in
  let '(l, w) := if n <=? 0 then (delete key (locks s), delete key (waiters s)) else (locks s, <[key := n]> (waiters s)) in
  goto (mkSystem (down s) (runners s) l w (lastStart s) (heap s) (holder s) (threads s) (fresh s)) t th (Gone r).

(** startLocked, where the builder gave a runnable. *)
Definition start (s : system) (t : Z) (th : thread) (hash : string) (a : Action) (now : Time) : system :=
  let key := tkey th in
  let r := mkRunner key hash now None false false false None in
  goto (mkSystem (down s) (<[key := fresh s]> (runners s)) (locks s) (waiters s) (<[key := now]> (lastStart s))
          (<[fresh s := r]> (heap s)) (holder s) (threads s) (fresh s + 1)) t th (Rechecking a).

Definition remove (s : system) (key : Key) (id : Z) : system :=
  let runners := if bool_decide (runners s !! key = Some id) then delete key (runners s) else runners s in
  mkSystem (down s) runners (locks s) (waiters s) (lastStart s) (heap s) (holder s) (threads s) (fresh s).

(** What the world decides at a step: the time, whether wait takes the end of the grace period (it may, even
    where the runner is done: select chooses among what is ready), and what Close answers. *)
Record choice := mkChoice { c_now : Time; c_timeout : bool; c_close : option string }.

(** The end of stopLocked. *)
Definition after_stop (n : next) (err : option failure) : point :=
  match err with
  | Some f => Unlocking (Failed f)
  | None => match n with ThenStart hash build => Starting hash build ActionRestarted | ThenReturn r => Unlocking r end
  end.

(** One step of a thread; [None] where it is blocked or gone. *)
Definition advance (s : system) (t : Z) (th : thread) (c : choice) : option system :=
  match at_ th with
  | Entering call => Some (enlist s t th call)
  | Locking call =>
      match holder s !! mutex th with
      | Some _ => None
      | None => Some (goto (set_holder s (<[mutex th := t]> (holder s))) t th (Holding call))
      end
  | Holding (Ensure hash isPaused build) =>
      Some (goto s t th (if closed s then Unlocking (Failed ErrRegistryClosed) else Deciding hash isPaused build))
  | Holding Stop =>
      Some (goto s t th (match runners s !! tkey th with None => Unlocking Finished | Some id => Marking id (ThenReturn Finished) end))
  | Deciding hash isPaused build =>
      let '(p, told) := decide_action (existing s (tkey th)) hash isPaused build (throttle s (tkey th) (c_now c)) in
      let s := match told with Some (id, b) => alter_runner s id (set_paused b) | None => s end in
      Some (goto s t th p)
  | Marking id n => Some (goto (alter_runner s id set_stopped) t th (Removing id n))
  | Removing id n => Some (goto (remove s (tkey th) id) t th (Awaiting id n))
  | Awaiting id n =>
      match heap s !! id with
      | Some r =>
          if c_timeout c then Some (goto s t th (Releasing id n (Some DidNotStop)))
          else if exited r then Some (goto s t th (Releasing id n None)) else None
      | None => None
      end
  | Releasing id n err =>
      let err := match c_close c, err with Some text, None => Some (ClosingFailed text) | _, _ => err end in
      Some (goto (alter_runner s id set_closed) t th (after_stop n err))
  | Starting hash build a =>
      match build with
      | Some text => Some (goto s t th (Unlocking (Failed (Building text))))
      | None => Some (start s t th hash a (c_now c))
      end
  | Rechecking a => Some (goto s t th (if closed s then Undoing else Unlocking (Outcome a 0)))
  | Undoing =>
      Some (goto s t th (match runners s !! tkey th with
                         | Some id => Marking id (ThenReturn (Failed ErrRegistryClosed))
                         | None => Unlocking (Failed ErrRegistryClosed)
                         end))
  | Unlocking r => Some (goto (set_holder s (delete (mutex th) (holder s))) t th (Leaving r))
  | Leaving r => Some (delist s t th r)
  | Gone _ => None
  end.

(** supervise: how a runner's goroutine ended, and the error that is kept. *)
Inductive ending := Panicked (v : string) | Returned (err : option string) (isCanceled : bool).

Definition supervise (e : ending) (r : Runner) : Runner :=
  let err := match e with
             | Panicked v => Some ("check panicked: " +:+ v)
             | Returned (Some text) false => Some text
             | Returned _ _ => runErr r
             end in
  mkRunner (RKey r) (Hash r) (StartedAt r) err (stopped r) true (runnable_closed r) (paused r).

(** A call from outside. *)
Definition called (s : system) (key : Key) (c : call) : system :=
  set_thread (mkSystem (down s) (runners s) (locks s) (waiters s) (lastStart s) (heap s) (holder s) (threads s) (fresh s + 1))
    (fresh s) (mkThread key 0 (Entering c)).

(** StopAll: one thread for each of the keys. *)
Definition stop_all (s : system) (keys : list Key) : system := foldl (λ s key, called s key Stop) s keys.

Definition set_down (s : system) (p : phase) : system :=
  mkSystem p (runners s) (locks s) (waiters s) (lastStart s) (heap s) (holder s) (threads s) (fresh s).

Definition Forget (s : system) (key : Key) : system :=
  mkSystem (down s) (runners s) (locks s) (waiters s) (delete key (lastStart s)) (heap s) (holder s) (threads s) (fresh s).

Definition Len (s : system) : Z := Z.of_nat (size (runners s)).

(** What can happen. *)
Inductive step `{MapOrder} : system → system → Prop :=
  | step_call s key c : step s (called s key c)
  | step_thread s t th c s' : threads s !! t = Some th → advance s t th c = Some s' → step s s'
  | step_exit s id r e : heap s !! id = Some r → exited r = false → step s (alter_runner s id (supervise e))
  | step_stop_all s : step s (stop_all s (range_map (runners s)).*1)
  | step_latch s : step s (set_down s (match down s with Open => Latched | p => p end))
  | step_enumerate s : down s = Latched → step s (set_down (stop_all s (range_map (runners s)).*1) Enumerated)
  | step_forget s key : step s (Forget s key).

Definition empty : system := mkSystem Open ∅ ∅ ∅ ∅ ∅ ∅ ∅ 0.

Inductive reached `{MapOrder} : system → Prop :=
  | reached_empty : reached empty
  | reached_step s s' : reached s → step s s' → reached s'.
End ops.

(** ** One runner per check, and none after a shutdown

    The mutexes exclude each other per key although they are made and dropped on
    demand; what holds of the map of runners follows from that, in every state the
    interleavings of reconciles, stops, exits and a shutdown reach. *)

(** A thread that has enlisted for its key's mutex and not yet delisted; one that holds it. *)
Definition registered (p : point) : bool := match p with Entering _ | Gone _ => false | _ => true end.
Definition critical (p : point) : bool := match p with Entering _ | Gone _ | Locking _ | Leaving _ => false | _ => true end.

Lemma critical_registered p : critical p = true → registered p = true.
Proof. by destruct p. Qed.

(** Threads that want the mutex of a key. *)
Definition wants (key : Key) (th : thread) : Z := if registered (at_ th) && bool_decide (tkey th = key) then 1 else 0.

Lemma wants_range key th : 0 ≤ wants key th ≤ 1.
Proof. unfold wants. case_match; lia. Qed.

Lemma wants_none key k m p : registered p = false → wants key (mkThread k m p) = 0.
Proof. intros Hp. unfold wants. cbn [at_]. by rewrite Hp. Qed.

Lemma wants_other key th : key ≠ tkey th → wants key th = 0.
Proof. intros Hne. unfold wants. rewrite bool_decide_false by done. by rewrite andb_false_r. Qed.

Lemma msum_wants_nonneg key (m : gmap Z thread) : 0 ≤ msum (wants key) m.
Proof.
  induction m as [|t th m Ht IH] using map_ind; [done|]. rewrite msum_insert_new by done. pose proof (wants_range key th). lia.
Qed.

Lemma msum_wants_one key (m : gmap Z thread) t th : m !! t = Some th → wants key th = 1 → 1 ≤ msum (wants key) m.
Proof. intros Ht Hw. rewrite (msum_delete _ _ t th) by done. pose proof (msum_wants_nonneg key (delete t m)). lia. Qed.

Lemma msum_wants_two key (m : gmap Z thread) t th t' th' : m !! t = Some th → m !! t' = Some th' → t ≠ t' →
  wants key th = 1 → wants key th' = 1 → 2 ≤ msum (wants key) m.
Proof.
  intros Ht Ht' Hne Hw Hw'. rewrite (msum_delete _ _ t th) by done.
  pose proof (msum_wants_one key (delete t m) t' th'). rewrite lookup_delete_ne in H by done. specialize (H Ht' Hw'). lia.
Qed.

(** ** The mutexes *)

Record locks_ok (s : system) : Prop := mk_locks_ok {
  lo_threads : ∀ t th, threads s !! t = Some th → t < fresh s;
  lo_locks : ∀ key m, locks s !! key = Some m → m < fresh s;
  lo_mine : ∀ t th, threads s !! t = Some th → registered (at_ th) = true → locks s !! tkey th = Some (mutex th);
  lo_inj : ∀ key key' m, locks s !! key = Some m → locks s !! key' = Some m → key = key';
  lo_held : ∀ m t, holder s !! m = Some t → ∃ th, threads s !! t = Some th ∧ critical (at_ th) = true ∧ mutex th = m;
  lo_holds : ∀ t th, threads s !! t = Some th → critical (at_ th) = true → holder s !! mutex th = Some t;
  lo_waiters : ∀ key, default 0 (waiters s !! key) = msum (wants key) (threads s)
}.

(** Two threads that hold the mutex of one key are one thread. *)
Lemma mutual_exclusion s t th t' th' : locks_ok s → threads s !! t = Some th → threads s !! t' = Some th' →
  critical (at_ th) = true → critical (at_ th') = true → tkey th = tkey th' → t = t'.
Proof.
  intros Ho Ht Ht' Hc Hc' Hk.
  pose proof (lo_mine _ Ho _ _ Ht (critical_registered _ Hc)) as H1. pose proof (lo_mine _ Ho _ _ Ht' (critical_registered _ Hc')) as H2.
  rewrite Hk, H2 in H1. injection H1 as Hm.
  pose proof (lo_holds _ Ho _ _ Ht Hc) as H3. pose proof (lo_holds _ Ho _ _ Ht' Hc') as H4. rewrite Hm in H4. congruence.
Qed.

Lemma locks_ok_same s s' : locks_ok s → locks s' = locks s → waiters s' = waiters s → holder s' = holder s → threads s' = threads s →
  fresh s ≤ fresh s' → locks_ok s'.
Proof.
  intros [H1 H2 H3 H4 H5 H6 H7] E1 E2 E3 E4 E5. constructor; rewrite ?E1, ?E2, ?E3, ?E4; try done.
  - intros t th Ht. specialize (H1 t th Ht). lia.
  - intros key m Hm. specialize (H2 key m Hm). lia.
Qed.

(** A thread moves on without taking or leaving a mutex. *)
Lemma locks_ok_goto s t th p : locks_ok s → threads s !! t = Some th → registered p = registered (at_ th) → critical p = critical (at_ th) →
  locks_ok (goto s t th p).
Proof.
  intros [H1 H2 H3 H4 H5 H6 H7] Ht Hr Hc. unfold goto, set_thread. constructor; cbn [locks waiters holder threads fresh]; try done.
  - intros t' th' [[-> _]|[_ Ht']]%lookup_insert_Some; eauto.
  - intros t' th' [[<- <-]|[_ Ht']]%lookup_insert_Some; [cbn; rewrite Hr; by apply (H3 t)|by apply (H3 t')].
  - intros m t' Hm. destruct (H5 m t' Hm) as (th' & Ht' & Hc' & Hm'). destruct (decide (t' = t)) as [->|Hne].
    + rewrite Ht in Ht'. simplify_eq. eexists. rewrite lookup_insert_eq. split; [done|]. cbn. by rewrite Hc.
    + exists th'. by rewrite lookup_insert_ne.
  - intros t' th' [[<- <-]|[_ Ht']]%lookup_insert_Some; [cbn; rewrite Hc; by apply (H6 t)|by apply (H6 t')].
  - intros key. rewrite (msum_overwrite _ _ t th) by done. rewrite H7. unfold wants. cbn [at_ tkey]. rewrite Hr. lia.
Qed.

Lemma locks_ok_called s key c : locks_ok s → locks_ok (called s key c).
Proof.
  intros [H1 H2 H3 H4 H5 H6 H7]. unfold called, set_thread.
  assert (threads s !! fresh s = None) as Hnew. { destruct (threads s !! fresh s) as [th|] eqn:Ht; [|done]. specialize (H1 _ _ Ht). lia. }
  constructor; cbn [locks waiters holder threads fresh]; try done.
  - intros t th [[<- _]|[_ Ht]]%lookup_insert_Some; [lia|]. specialize (H1 t th Ht). lia.
  - intros key' m Hm. specialize (H2 key' m Hm). lia.
  - intros t th [[<- <-]|[_ Ht]]%lookup_insert_Some; [done|by apply (H3 t)].
  - intros m t Hm. destruct (H5 m t Hm) as (th & Ht & Hr). exists th. rewrite lookup_insert_ne; [done|]. intros <-. by rewrite Hnew in Ht.
  - intros t th [[<- <-]|[_ Ht]]%lookup_insert_Some; [done|by apply (H6 t)].
  - intros key'. rewrite msum_insert_new by done. rewrite H7. unfold wants. cbn. lia.
Qed.

Lemma locks_ok_enlist s t th c : locks_ok s → threads s !! t = Some th → at_ th = Entering c → locks_ok (enlist s t th c).
Proof.
  intros [H1 H2 H3 H4 H5 H6 H7] Ht Hp.
  assert (∀ key, wants key th = 0) as Hw0 by (intros key; unfold wants; by rewrite Hp).
  assert (∀ m, msum (wants (tkey th)) (<[t := mkThread (tkey th) m (Locking c)]> (threads s)) = default 0 (waiters s !! tkey th) + 1) as Hw.
  { intros m. rewrite (msum_overwrite _ _ t th), Hw0, H7 by done. unfold wants at 2. cbn [at_ tkey registered]. rewrite bool_decide_true by done. cbn. lia. }
  assert (∀ m key, key ≠ tkey th → msum (wants key) (<[t := mkThread (tkey th) m (Locking c)]> (threads s)) = default 0 (waiters s !! key)) as Hw'.
  { intros m key Hne. rewrite (msum_overwrite _ _ t th), Hw0, H7 by done. unfold wants at 2. cbn [at_ tkey registered].
    rewrite bool_decide_false by done. cbn. lia. }
  assert (∀ m t', holder s !! m = Some t' → t' ≠ t) as Hnt.
  { intros m t' Hm ->. destruct (H5 m t Hm) as (th' & Ht' & Hc & _). rewrite Ht in Ht'. simplify_eq. by rewrite Hp in Hc. }
  unfold enlist, set_thread. destruct (locks s !! tkey th) as [m|] eqn:Hl.
  - constructor; cbn [locks waiters holder threads fresh]; try done.
    + intros t' th' [[<- _]|[_ Ht']]%lookup_insert_Some; eauto.
    + intros t' th' [[<- <-]|[_ Ht']]%lookup_insert_Some; [done|by apply (H3 t')].
    + intros m' t' Hm. destruct (H5 m' t' Hm) as (th' & Ht' & Hr). exists th'. rewrite lookup_insert_ne; [done|]. apply not_eq_sym. by eapply Hnt.
    + intros t' th' [[<- <-]|[_ Ht']]%lookup_insert_Some; [done|by apply (H6 t')].
    + intros key. destruct (decide (key = tkey th)) as [->|Hne]; [by rewrite lookup_insert_eq, Hw|].
      rewrite lookup_insert_ne by done. by rewrite Hw'.
  - constructor; cbn [locks waiters holder threads fresh].
    + intros t' th' [[<- _]|[_ Ht']]%lookup_insert_Some; [specialize (H1 _ _ Ht); lia|specialize (H1 _ _ Ht'); lia].
    + intros key m [[_ <-]|[_ Hm]]%lookup_insert_Some; [lia|specialize (H2 _ _ Hm); lia].
    + intros t' th' [[<- <-]|[_ Ht']]%lookup_insert_Some; [intros _; by rewrite lookup_insert_eq|].
      intros Hr. pose proof (H3 _ _ Ht' Hr) as Hm. rewrite lookup_insert_ne; [done|]. intros E. rewrite <-E in Hm. congruence.
    + intros key key' m [[<- <-]|[Hn Hm]]%lookup_insert_Some [[<- E]|[Hn' Hm']]%lookup_insert_Some; try done.
      * specialize (H2 _ _ Hm'). lia.
      * subst m. specialize (H2 _ _ Hm). lia.
      * by eapply H4.
    + intros m' t' Hm. destruct (H5 m' t' Hm) as (th' & Ht' & Hr). exists th'. rewrite lookup_insert_ne; [done|]. apply not_eq_sym. by eapply Hnt.
    + intros t' th' [[<- <-]|[_ Ht']]%lookup_insert_Some; [done|by apply (H6 t')].
    + intros key. destruct (decide (key = tkey th)) as [->|Hne]; [by rewrite lookup_insert_eq, Hw|].
      rewrite lookup_insert_ne by done. by rewrite Hw'.
Qed.

Lemma locks_ok_acquire s t th c : locks_ok s → threads s !! t = Some th → at_ th = Locking c → holder s !! mutex th = None →
  locks_ok (goto (set_holder s (<[mutex th := t]> (holder s))) t th (Holding c)).
Proof.
  intros [H1 H2 H3 H4 H5 H6 H7] Ht Hp Hfree. unfold goto, set_thread, set_holder.
  constructor; cbn [locks waiters holder threads fresh]; try done.
  - intros t' th' [[<- _]|[_ Ht']]%lookup_insert_Some; eauto.
  - intros t' th' [[<- <-]|[_ Ht']]%lookup_insert_Some; [intros _; cbn; apply (H3 t); [done|by rewrite Hp]|by apply (H3 t')].
  - intros m t' [[<- <-]|[Hne Hm]]%lookup_insert_Some; [eexists; by rewrite lookup_insert_eq|].
    destruct (H5 m t' Hm) as (th' & Ht' & Hc & Hm'). exists th'. rewrite lookup_insert_ne; [done|]. intros <-.
    rewrite Ht in Ht'. simplify_eq.
  - intros t' th' [[<- <-]|[Hne Ht']]%lookup_insert_Some; [intros _; by rewrite lookup_insert_eq|].
    intros Hc. pose proof (H6 _ _ Ht' Hc) as Hm. rewrite lookup_insert_ne; [done|]. intros E. rewrite <-E in Hm. congruence.
  - intros key. rewrite (msum_overwrite _ _ t th) by done. rewrite H7. unfold wants. cbn [at_ tkey]. rewrite Hp. cbn [registered]. lia.
Qed.

Lemma locks_ok_unlock s t th r : locks_ok s → threads s !! t = Some th → at_ th = Unlocking r →
  locks_ok (goto (set_holder s (delete (mutex th) (holder s))) t th (Leaving r)).
Proof.
  intros Hok Ht Hp. pose proof Hok as [H1 H2 H3 H4 H5 H6 H7]. unfold goto, set_thread, set_holder.
  constructor; cbn [locks waiters holder threads fresh]; try done.
  - intros t' th' [[<- _]|[_ Ht']]%lookup_insert_Some; eauto.
  - intros t' th' [[<- <-]|[_ Ht']]%lookup_insert_Some; [intros _; cbn; apply (H3 t); [done|by rewrite Hp]|by apply (H3 t')].
  - intros m t' [Hne Hm]%lookup_delete_Some. destruct (H5 m t' Hm) as (th' & Ht' & Hc & Hm'). exists th'. rewrite lookup_insert_ne; [done|].
    intros <-. rewrite Ht in Ht'. by simplify_eq.
  - intros t' th' [[<- <-]|[Hne Ht']]%lookup_insert_Some; [done|]. intros Hc. rewrite lookup_delete_ne; [by apply (H6 t')|].
    intros Hm. pose proof (H6 _ _ Ht' Hc) as E1. assert (critical (at_ th) = true) as Hct by by rewrite Hp.
    pose proof (H6 _ _ Ht Hct) as E2. rewrite Hm in E2. congruence.
  - intros key. rewrite (msum_overwrite _ _ t th) by done. rewrite H7. unfold wants. cbn [at_ tkey]. rewrite Hp. cbn [registered]. lia.
Qed.

Lemma locks_ok_delist s t th r r' : locks_ok s → threads s !! t = Some th → at_ th = Leaving r → locks_ok (delist s t th r').
Proof.
  intros [H1 H2 H3 H4 H5 H6 H7] Ht Hp.
  assert (wants (tkey th) th = 1) as Hone by (unfold wants; rewrite Hp, bool_decide_true; done).
  assert (∀ t' th', threads s !! t' = Some th' → t' ≠ t → registered (at_ th') = true → tkey th' = tkey th → 2 ≤ msum (wants (tkey th)) (threads s)) as Htwo.
  { intros t' th' Ht' Hne Hr Hk. apply (msum_wants_two _ _ t th t' th'); try done. unfold wants. by rewrite Hr, bool_decide_true. }
  unfold delist. destruct (Z.leb_spec (default 0 (waiters s !! tkey th) - 1) 0) as [Hlast|Hmore];
    unfold goto, set_thread; constructor; cbn [locks waiters holder threads fresh]; try done.
  - intros t' th' [[<- _]|[_ Ht']]%lookup_insert_Some; eauto.
  - intros key m [_ Hm]%lookup_delete_Some. by eapply H2.
  - intros t' th' [[<- <-]|[Hne Ht']]%lookup_insert_Some; [done|]. intros Hr. rewrite lookup_delete_ne; [by apply (H3 t')|].
    intros Hk. pose proof (Htwo _ _ Ht' (not_eq_sym Hne) Hr (eq_sym Hk)) as H2w. rewrite <-H7 in H2w. lia.
  - intros key key' m [_ Hm]%lookup_delete_Some [_ Hm']%lookup_delete_Some. by eapply H4.
  - intros m t' Hm. destruct (H5 m t' Hm) as (th' & Ht' & Hc & Hm'). exists th'. rewrite lookup_insert_ne; [done|]. intros <-.
    rewrite Ht in Ht'. simplify_eq. by rewrite Hp in Hc.
  - intros t' th' [[<- <-]|[_ Ht']]%lookup_insert_Some; [done|by apply (H6 t')].
  - intros key. rewrite (msum_overwrite _ _ t th) by done. destruct (decide (key = tkey th)) as [->|Hne].
    + rewrite lookup_delete_eq, Hone, wants_none by done. cbn [default from_option]. rewrite H7 in Hlast.
      pose proof (msum_wants_one (tkey th) _ t th Ht Hone). lia.
    + rewrite lookup_delete_ne, H7, wants_none, wants_other by done. lia.
  - intros t' th' [[<- _]|[_ Ht']]%lookup_insert_Some; eauto.
  - intros t' th' [[<- <-]|[Hne Ht']]%lookup_insert_Some; [done|by apply (H3 t')].
  - intros m t' Hm. destruct (H5 m t' Hm) as (th' & Ht' & Hc & Hm'). exists th'. rewrite lookup_insert_ne; [done|]. intros <-.
    rewrite Ht in Ht'. simplify_eq. by rewrite Hp in Hc.
  - intros t' th' [[<- <-]|[_ Ht']]%lookup_insert_Some; [done|by apply (H6 t')].
  - intros key. rewrite (msum_overwrite _ _ t th) by done. destruct (decide (key = tkey th)) as [->|Hne].
    + rewrite lookup_insert_eq, Hone, wants_none by done. cbn [default from_option id]. rewrite H7. lia.
    + rewrite lookup_insert_ne, H7, wants_none, wants_other by done. lia.
Qed.

(** ** The map of runners *)

(** What a thread knows at its point. *)
Definition point_ok (s : system) (th : thread) : Prop :=
  match at_ th with
  | Marking id _ => runners s !! tkey th = Some id
  | Removing id _ => runners s !! tkey th = Some id ∧ ∃ r, heap s !! id = Some r ∧ stopped r = true
  | Awaiting id _ => runners s !! tkey th = None ∧ is_Some (heap s !! id)
  | Releasing _ _ _ | Starting _ _ _ => runners s !! tkey th = None
  | _ => True
  end.

(** A thread that will take the runner of its key out of the map, or find none. *)
Definition responsible (p : point) : bool :=
  match p with
  | Entering Stop | Locking Stop | Holding Stop | Marking _ _ | Removing _ _ | Rechecking _ | Undoing => true
  | _ => false
  end.

Record runners_ok (s : system) : Prop := mk_runners_ok {
  ro_heap : ∀ id r, heap s !! id = Some r → id < fresh s;
  ro_map : ∀ key id, runners s !! key = Some id → ∃ r, heap s !! id = Some r ∧ RKey r = key;
  ro_live : ∀ id r, heap s !! id = Some r → stopped r = false → runners s !! RKey r = Some id;
  ro_points : ∀ t th, threads s !! t = Some th → point_ok s th;
  ro_down : down s = Enumerated → ∀ key id, runners s !! key = Some id →
    ∃ t th, threads s !! t = Some th ∧ tkey th = key ∧ responsible (at_ th) = true
}.

(** ** Steps that leave the map alone *)

(** The runners change only where no invariant looks, or a runner is told to stop. *)
Definition heap_le (h h' : gmap Z Runner) : Prop :=
  (∀ id r', h' !! id = Some r' → ∃ r, h !! id = Some r ∧ RKey r = RKey r' ∧ (stopped r' = false → stopped r = false))
  ∧ (∀ id r, h !! id = Some r → ∃ r', h' !! id = Some r' ∧ RKey r' = RKey r ∧ (stopped r = true → stopped r' = true)).

Lemma heap_le_refl h : heap_le h h.
Proof. split; intros id r Hr; by exists r. Qed.

Lemma heap_le_alter h id f : (∀ r, RKey (f r) = RKey r ∧ (stopped r = true → stopped (f r) = true)) → heap_le h (alter f id h).
Proof.
  intros Hf. split.
  - intros id' r'. rewrite lookup_alter_Some. intros [(-> & r & Hr & ->)|[Hne Hr]]; [|by exists r'].
    exists r. destruct (Hf r) as [E1 E2]. split_and!; [done|done|]. intros E. destruct (stopped r) eqn:Es; [|done]. by rewrite E2 in E.
  - intros id' r Hr. destruct (decide (id = id')) as [->|Hne]; [|exists r; by rewrite lookup_alter_ne].
    exists (f r). rewrite lookup_alter_eq, Hr. destruct (Hf r) as [E1 E2]. done.
Qed.

Lemma point_ok_le s s' th : runners s' = runners s → heap_le (heap s) (heap s') → point_ok s th → point_ok s' th.
Proof.
  intros E1 [_ Hh]. unfold point_ok. rewrite E1. destruct (at_ th); try done.
  - intros (Hm & r & Hr & Hs). split; [done|]. destruct (Hh _ _ Hr) as (r' & Hr' & _ & Hs'). exists r'. auto.
  - intros (Hm & r & Hr). split; [done|]. destruct (Hh _ _ Hr) as (r' & Hr' & _). by exists r'.
Qed.

(** A thread moves to a point where it knows what it must, while the map stays. *)
Lemma runners_ok_goto s s1 t th m p : runners_ok s → threads s !! t = Some th →
  runners s1 = runners s → heap_le (heap s) (heap s1) → threads s1 = threads s → fresh s ≤ fresh s1 → down s1 = down s →
  point_ok s1 (mkThread (tkey th) m p) →
  (down s = Enumerated → responsible (at_ th) = true → responsible p = true ∨ runners s !! tkey th = None) →
  runners_ok (set_thread s1 t (mkThread (tkey th) m p)).
Proof.
  intros [H1 H2 H3 H4 H5] Ht E1 E2 E3 E4 E5 Hp Hresp. unfold set_thread. constructor; cbn [runners heap threads fresh down]; rewrite ?E1, ?E3, ?E5.
  - intros id r Hr. destruct (proj1 E2 _ _ Hr) as (r0 & Hr0 & _). specialize (H1 _ _ Hr0). lia.
  - intros key id Hk. destruct (H2 _ _ Hk) as (r & Hr & Hkey). destruct (proj2 E2 _ _ Hr) as (r' & Hr' & Hk' & _). exists r'. by rewrite Hk'.
  - intros id r Hr Hs. destruct (proj1 E2 _ _ Hr) as (r0 & Hr0 & Hk & Hs0). rewrite <-Hk. auto.
  - intros t' th' [[<- <-]|[_ Ht']]%lookup_insert_Some.
    + eapply point_ok_le; [..|exact Hp]; [done|apply heap_le_refl].
    + eapply point_ok_le; [..|by apply (H4 t')]; [done|done].
  - intros Hd key id Hk. destruct (H5 Hd key id Hk) as (t' & th' & Ht' & Hkey & Hr). destruct (decide (t' = t)) as [->|Hne].
    + rewrite Ht in Ht'. simplify_eq. destruct (Hresp Hd Hr) as [Hr'|Hn]; [|congruence]. exists t. eexists. by rewrite lookup_insert_eq.
    + exists t', th'. by rewrite lookup_insert_ne.
Qed.

Lemma runners_ok_called s key c : locks_ok s → runners_ok s → runners_ok (called s key c).
Proof.
  intros Hl [H1 H2 H3 H4 H5]. unfold called, set_thread.
  assert (threads s !! fresh s = None) as Hnew.
  { destruct (threads s !! fresh s) as [th|] eqn:Ht; [|done]. pose proof (lo_threads _ Hl _ _ Ht). lia. }
  constructor; cbn [runners heap threads fresh down]; try done.
  - intros id r Hr. specialize (H1 _ _ Hr). lia.
  - intros t th [[<- <-]|[_ Ht]]%lookup_insert_Some; [done|by apply (H4 t)].
  - intros Hd key' id Hk. destruct (H5 Hd _ _ Hk) as (t & th & Ht & Hkey & Hr). exists t, th. rewrite lookup_insert_ne; [done|].
    intros <-. by rewrite Hnew in Ht.
Qed.

(** The two steps that change the map. Nobody else holds the key's mutex, so that no other thread is at a
    point that speaks of the key. *)
Lemma others_elsewhere s t th t' th' : locks_ok s → threads s !! t = Some th → threads s !! t' = Some th' → t' ≠ t →
  critical (at_ th) = true → critical (at_ th') = true → tkey th' ≠ tkey th.
Proof. intros Hl Ht Ht' Hne Hc Hc' Hk. apply Hne. by eapply mutual_exclusion. Qed.

(** What another thread knows stays true when only one key of the map changes. *)
Lemma point_ok_elsewhere s s' key th : (∀ key', key' ≠ key → runners s' !! key' = runners s !! key') →
  (∀ id r, heap s !! id = Some r → heap s' !! id = Some r) → (critical (at_ th) = true → tkey th ≠ key) → point_ok s th → point_ok s' th.
Proof.
  intros Hr Hh Hk. unfold point_ok. destruct (at_ th) eqn:Ep; try done; rewrite Hr by (apply Hk; done); [done| | |done|done].
  - intros (Hm & r & Hr' & Hs). split; [done|]. exists r. auto.
  - intros (Hm & r & Hr'). split; [done|]. exists r. auto.
Qed.

Lemma runners_ok_remove s t th id n : locks_ok s → runners_ok s → threads s !! t = Some th → at_ th = Removing id n →
  runners_ok (goto (remove s (tkey th) id) t th (Awaiting id n)).
Proof.
  intros Hl [H1 H2 H3 H4 H5] Ht Hp. pose proof (H4 _ _ Ht) as Hpt. unfold point_ok in Hpt. rewrite Hp in Hpt.
  destruct Hpt as (Hm & r & Hr & Hs). unfold goto, set_thread, remove. rewrite bool_decide_true by done.
  constructor; cbn [runners heap threads fresh down]; try done.
  - intros key id' [_ Hk]%lookup_delete_Some. by apply H2.
  - intros id' r' Hr' Hs'. rewrite lookup_delete_ne; [by apply H3|]. intros Hk. pose proof (H3 _ _ Hr' Hs') as Hm'.
    rewrite <-Hk, Hm in Hm'. simplify_eq. congruence.
  - intros t' th' [[<- <-]|[Hne Ht']]%lookup_insert_Some.
    + unfold point_ok. cbn. rewrite lookup_delete_eq. split; [done|by exists r].
    + eapply (point_ok_elsewhere s _ (tkey th)); [|done| |by apply (H4 t')].
      * intros key' Hk. cbn. by rewrite lookup_delete_ne.
      * intros Hc. eapply others_elsewhere; [done..| |done]. by rewrite Hp.
  - intros Hd key id' [Hne Hk]%lookup_delete_Some. destruct (H5 Hd _ _ Hk) as (t' & th' & Ht' & Hkey & Hresp).
    exists t', th'. rewrite lookup_insert_ne; [done|]. intros <-. rewrite Ht in Ht'. by simplify_eq.
Qed.

Lemma runners_ok_start s t th hash build a now : locks_ok s → runners_ok s → threads s !! t = Some th → at_ th = Starting hash build a →
  runners_ok (start s t th hash a now).
Proof.
  intros Hl [H1 H2 H3 H4 H5] Ht Hp. pose proof (H4 _ _ Ht) as Hm. unfold point_ok in Hm. rewrite Hp in Hm.
  assert (heap s !! fresh s = None) as Hnew. { destruct (heap s !! fresh s) as [r|] eqn:Hr; [|done]. specialize (H1 _ _ Hr). lia. }
  unfold start, goto, set_thread. constructor; cbn [runners heap threads fresh down].
  - intros id r [[<- _]|[_ Hr]]%lookup_insert_Some; [lia|]. specialize (H1 _ _ Hr). lia.
  - intros key id [[<- <-]|[Hne Hk]]%lookup_insert_Some; [eexists; by rewrite lookup_insert_eq|].
    destruct (H2 _ _ Hk) as (r & Hr & Hkey). exists r. rewrite lookup_insert_ne; [done|]. intros <-. by rewrite Hnew in Hr.
  - intros id r [[<- <-]|[Hne Hr]]%lookup_insert_Some Hs; [by rewrite lookup_insert_eq|].
    pose proof (H3 _ _ Hr Hs) as Hk. rewrite lookup_insert_ne; [done|]. intros E. rewrite <-E in Hk. congruence.
  - intros t' th' [[<- <-]|[Hne Ht']]%lookup_insert_Some; [done|].
    eapply (point_ok_elsewhere s _ (tkey th)); [| | |by apply (H4 t')].
    + intros key' Hk. cbn. by rewrite lookup_insert_ne.
    + intros id r Hr. cbn. rewrite lookup_insert_ne; [done|]. intros <-. by rewrite Hnew in Hr.
    + intros Hc. eapply others_elsewhere; [done..| |done]. by rewrite Hp.
  - intros Hd key id [[<- <-]|[Hne Hk]]%lookup_insert_Some; [exists t; eexists; by rewrite lookup_insert_eq|].
    destruct (H5 Hd _ _ Hk) as (t' & th' & Ht' & Hkey & Hresp). exists t', th'. rewrite lookup_insert_ne; [done|].
    intros <-. rewrite Ht in Ht'. by simplify_eq.
Qed.

Section facts.
Context {O : MapOrder}.
Variable opts : RegistryOptions.

(** Both halves of what holds in every state. *)
Definition safe (s : system) : Prop := locks_ok s ∧ runners_ok s.

(** A thread moves to a point of the same standing, and the runners change only as they may. *)
Lemma safe_goto s s1 t th p : safe s → threads s !! t = Some th →
  registered p = registered (at_ th) → critical p = critical (at_ th) →
  runners s1 = runners s → heap_le (heap s) (heap s1) → threads s1 = threads s → fresh s1 = fresh s → down s1 = down s →
  locks s1 = locks s → waiters s1 = waiters s → holder s1 = holder s →
  point_ok s1 (mkThread (tkey th) (mutex th) p) →
  (down s = Enumerated → responsible (at_ th) = true → responsible p = true ∨ runners s !! tkey th = None) →
  safe (goto s1 t th p).
Proof.
  intros [Hl Hr] Ht Hreg Hcrit E1 E2 E3 E4 E5 E6 E7 E8 Hp Hresp. split.
  - apply locks_ok_goto; [|by rewrite E3|done|done]. eapply locks_ok_same; try done. by rewrite E4.
  - unfold goto. eapply runners_ok_goto; try done. by rewrite E4.
Qed.

Lemma safe_advance s t th c s' : safe s → threads s !! t = Some th → advance opts s t th c = Some s' → safe s'.
Proof.
  intros Hs Ht. pose proof Hs as [Hl Hr]. pose proof (ro_points _ Hr _ _ Ht) as Hpt. unfold point_ok in Hpt. unfold advance.
  destruct (at_ th) as [call|call|[hash b build|]|hash b build|id n|id n|id n|id n err|hash build a|a| |r|r|r] eqn:Hp.
  - intros [= <-]. split; [by apply (locks_ok_enlist _ _ _ call)|]. unfold enlist.
    destruct (locks s !! tkey th); eapply runners_ok_goto; try done; try apply heap_le_refl; try (cbn; lia); rewrite Hp; cbn; by destruct call; auto.
  - destruct (holder s !! mutex th) eqn:Hh; [done|]. intros [= <-]. split; [by apply locks_ok_acquire|].
    unfold goto. eapply runners_ok_goto; try done; try apply heap_le_refl. rewrite Hp. cbn. by destruct call; auto.
  - intros [= <-]. destruct (closed s); eapply safe_goto; try done; try (by rewrite Hp); apply heap_le_refl.
  - intros [= <-]. destruct (runners s !! tkey th) as [id|] eqn:Hm; eapply safe_goto; try done; try (by rewrite Hp); try apply heap_le_refl; auto.
  - destruct (decide_action (existing s (tkey th)) hash b build (throttle opts s (tkey th) (c_now c))) as [p told] eqn:Hd.
    assert (p = Starting hash build ActionStarted ∧ runners s !! tkey th = None ∨ (∃ r, p = Unlocking r)
            ∨ ∃ id n, p = Marking id n ∧ runners s !! tkey th = Some id) as Hcases.
    { unfold decide_action, existing in Hd. destruct (runners s !! tkey th) as [id|] eqn:Hm; cbn in Hd; [|simplify_eq; by left].
      destruct (ro_map _ Hr _ _ Hm) as (r & Hrr & _). rewrite Hrr in Hd. cbn in Hd. right.
      repeat case_match; simplify_eq; first [left; by eexists|right; by eexists _, _]. }
    set (s1 := match told with Some (id, b) => alter_runner s id (set_paused b) | None => s end).
    assert (runners s1 = runners s ∧ heap_le (heap s) (heap s1) ∧ threads s1 = threads s ∧ fresh s1 = fresh s ∧ down s1 = down s
            ∧ locks s1 = locks s ∧ waiters s1 = waiters s ∧ holder s1 = holder s) as (E1 & E2 & E3 & E4 & E5 & E6 & E7 & E8).
    { subst s1. destruct told as [[id' b']|]; split_and!; try done; [|apply heap_le_refl]. by apply heap_le_alter. }
    intros [= <-]. eapply safe_goto; try done; rewrite ?Hp;
      destruct Hcases as [[-> Hm]|[[r ->]|(id & n & -> & Hm)]]; try done; unfold point_ok; cbn; by rewrite ?E1.
  - intros [= <-]. eapply safe_goto; try done; try (by rewrite Hp).
    + apply heap_le_alter. by intros r.
    + unfold point_ok. cbn. destruct (ro_map _ Hr _ _ Hpt) as (r & Hrr & _). split; [done|]. exists (set_stopped r).
      by rewrite lookup_alter_eq, Hrr.
    + by left.
  - intros [= <-]. split; [|by apply runners_ok_remove]. apply locks_ok_goto; [|done|by rewrite Hp|by rewrite Hp].
    by eapply locks_ok_same.
  - destruct Hpt as (Hm & r & Hrr). rewrite Hrr. destruct (c_timeout c); [|destruct (exited r); [|done]];
      intros [= <-]; eapply safe_goto; try done; try (by rewrite Hp); apply heap_le_refl.
  - intros [= <-].
    set (e := match c_close c with Some text => match err with None => Some (ClosingFailed text) | _ => err end | None => err end) in *.
    eapply safe_goto; try done; try (by rewrite Hp).
    + rewrite ?Hp. unfold after_stop. by destruct e, n.
    + rewrite ?Hp. unfold after_stop. by destruct e, n.
    + by apply heap_le_alter.
    + unfold point_ok, after_stop. cbn. by destruct e, n.
  - destruct build as [text|]; intros [= <-].
    + eapply safe_goto; try done; try (by rewrite Hp); apply heap_le_refl.
    + split; [|by eapply runners_ok_start]. unfold start. apply locks_ok_goto; [|done|by rewrite Hp|by rewrite Hp].
      eapply locks_ok_same; try done. cbn. lia.
  - intros [= <-]. destruct (closed s) eqn:Hc; eapply safe_goto; try done; try (by rewrite Hp); try apply heap_le_refl; auto.
    intros Hd. unfold closed in Hc. by rewrite Hd in Hc.
  - intros [= <-]. destruct (runners s !! tkey th) as [id|] eqn:Hm; eapply safe_goto; try done; try (by rewrite Hp); try apply heap_le_refl; auto.
  - intros [= <-]. split; [by apply locks_ok_unlock|]. unfold goto. eapply runners_ok_goto; try done; try apply heap_le_refl. by rewrite Hp.
  - intros [= <-]. split; [by apply (locks_ok_delist _ _ _ r)|]. unfold delist.
    destruct (_ <=? 0); unfold goto; eapply runners_ok_goto; try done; try apply heap_le_refl; by rewrite Hp.
  - done.
Qed.

Lemma safe_called s key c : safe s → safe (called s key c).
Proof. intros [Hl Hr]. split; [by apply locks_ok_called|by apply runners_ok_called]. Qed.

Lemma safe_stop_all s keys : safe s → safe (stop_all s keys).
Proof. revert s. induction keys as [|key keys IH]; intros s Hs; [done|]. cbn. by apply IH, safe_called. Qed.

(** What StopAll leaves as it was, and the threads it adds. *)
Lemma stop_all_frame keys : ∀ s, runners (stop_all s keys) = runners s ∧ heap (stop_all s keys) = heap s ∧ down (stop_all s keys) = down s.
Proof. induction keys as [|key keys IH]; intros s; [done|].
  change (stop_all s (key :: keys)) with (stop_all (called s key Stop) keys). destruct (IH (called s key Stop)) as (-> & -> & ->). done.
Qed.

Lemma stop_all_keeps keys : ∀ s t th, locks_ok s → threads s !! t = Some th → threads (stop_all s keys) !! t = Some th.
Proof.
  induction keys as [|key keys IH]; intros s t th Hl Ht; [done|]. cbn. apply IH; [by apply locks_ok_called|].
  cbn. rewrite lookup_insert_ne; [done|]. pose proof (lo_threads _ Hl _ _ Ht). lia.
Qed.

Lemma stop_all_stops keys : ∀ s key, locks_ok s → key ∈ keys →
  ∃ t th, threads (stop_all s keys) !! t = Some th ∧ tkey th = key ∧ at_ th = Entering Stop.
Proof.
  induction keys as [|key' keys IH]; intros s key Hl; [by intros ?%elem_of_nil|]. intros [->|Hin]%elem_of_cons; cbn.
  - exists (fresh s), (mkThread key' 0 (Entering Stop)). split; [|done]. apply (stop_all_keeps keys (called s key' Stop)).
    + by apply locks_ok_called.
    + cbn. by rewrite lookup_insert_eq.
  - apply (IH (called s key' Stop)); [by apply locks_ok_called|done].
Qed.

Lemma safe_down s p : safe s → (p = Enumerated → ∀ key id, runners s !! key = Some id →
    ∃ t th, threads s !! t = Some th ∧ tkey th = key ∧ responsible (at_ th) = true) → safe (set_down s p).
Proof.
  intros [Hl [H1 H2 H3 H4 H5]] Hp. split; [by eapply locks_ok_same|]. constructor; cbn; try done.
Qed.

Lemma safe_step s s' : safe s → step opts s s' → safe s'.
Proof.
  intros Hs H. destruct H as [s key c|s t th c s' Ht Ha|s id r e Hr He|s|s|s Hd|s key].
  - by apply safe_called.
  - by eapply safe_advance.
  - destruct Hs as [Hl [H1 H2 H3 H4 H5]].
    assert (heap_le (heap s) (alter (supervise e) id (heap s))) as Hle by (apply heap_le_alter; by intros r').
    split; [by eapply locks_ok_same|]. constructor; cbn; try done.
    + intros id' r' Hr'. destruct (proj1 Hle _ _ Hr') as (r0 & Hr0 & _). by eapply H1.
    + intros key id' Hk. destruct (H2 _ _ Hk) as (r0 & Hr0 & Hkey). destruct (proj2 Hle _ _ Hr0) as (r' & Hr' & Hk' & _). exists r'. by rewrite Hk'.
    + intros id' r' Hr' Hs'. destruct (proj1 Hle _ _ Hr') as (r0 & Hr0 & Hk & Hs0). rewrite <-Hk. auto.
    + intros t th Ht. eapply point_ok_le; [..|by apply (H4 t)]; done.
  - by apply safe_stop_all.
  - apply safe_down; [done|]. intros Hp. destruct (down s) eqn:Hd; try done. by apply (ro_down _ (proj2 Hs)).
  - destruct (stop_all_frame (range_map (runners s)).*1 s) as (E1 & _ & _). apply safe_down; [by apply safe_stop_all|].
    intros _ key id. rewrite E1. intros Hk. destruct (stop_all_stops (range_map (runners s)).*1 s key (proj1 Hs)) as (t & th & Ht & Hkey & Hp).
    { apply list_elem_of_fmap. exists (key, id). split; [done|]. by apply elem_of_range_map. }
    exists t, th. by rewrite Hp.
  - destruct Hs as [Hl [H1 H2 H3 H4 H5]]. split; [by eapply locks_ok_same|]. constructor; done.
Qed.

Lemma safe_reached s : reached opts s → safe s.
Proof.
  induction 1 as [|s s' _ IH Hst]; [|by eapply safe_step]. split; constructor; try done.
Qed.

(** C33: one runner per check: in every state the interleavings reach, two threads never hold the mutex of
    one key, and of the runners of a key at most one was not told to stop, and it is the one in the map. *)
Theorem one_runner_per_check s : reached opts s →
  (∀ t th t' th', threads s !! t = Some th → threads s !! t' = Some th' → critical (at_ th) = true → critical (at_ th') = true →
     tkey th = tkey th' → t = t')
  ∧ (∀ id r, heap s !! id = Some r → stopped r = false → runners s !! RKey r = Some id)
  ∧ (∀ id r id' r', heap s !! id = Some r → heap s !! id' = Some r' → stopped r = false → stopped r' = false → RKey r = RKey r' → id = id').
Proof.
  intros [Hl Hr]%safe_reached. split_and!.
  - intros t th t' th'. by apply mutual_exclusion.
  - apply (ro_live _ Hr).
  - intros id r id' r' H1 H2 S1 S2 Hk. pose proof (ro_live _ Hr _ _ H1 S1) as E1. pose proof (ro_live _ Hr _ _ H2 S2) as E2.
    rewrite Hk in E1. congruence.
Qed.

(** C34: no runner outlives a shutdown: once Shutdown has latched and listed the keys, and every call that was
    in flight or that it made has returned, the map is empty and every runner ever started was told to
    stop, however the reconciles fell. *)
Theorem shutdown_leaves_no_runner s : reached opts s → down s = Enumerated → (∀ t th, threads s !! t = Some th → ∃ r, at_ th = Gone r) →
  runners s = ∅ ∧ ∀ id r, heap s !! id = Some r → stopped r = true.
Proof.
  intros [Hl Hr]%safe_reached Hd Hgone.
  assert (runners s = ∅) as Hempty.
  { apply map_empty. intros key. destruct (runners s !! key) as [id|] eqn:Hk; [|done].
    destruct (ro_down _ Hr Hd _ _ Hk) as (t & th & Ht & _ & Hresp). destruct (Hgone _ _ Ht) as [r Hg]. by rewrite Hg in Hresp. }
  split; [done|]. intros id r Hi. destruct (stopped r) eqn:Hs; [done|]. pose proof (ro_live _ Hr _ _ Hi Hs) as Hm. by rewrite Hempty in Hm.
Qed.

(** no mutex is kept for nobody: when no call is in flight the registry holds none, and counts nobody. *)
Lemma mutexes_are_dropped s : reached opts s → (∀ t th, threads s !! t = Some th → ∃ r, at_ th = Gone r) →
  holder s = ∅ ∧ ∀ key, default 0 (waiters s !! key) = 0.
Proof.
  intros [Hl Hr]%safe_reached Hgone. split.
  - apply map_empty. intros m. destruct (holder s !! m) as [t|] eqn:Hm; [|done].
    destruct (lo_held _ Hl _ _ Hm) as (th & Ht & Hc & _). destruct (Hgone _ _ Ht) as [r Hg]. by rewrite Hg in Hc.
  - intros key. rewrite (lo_waiters _ Hl). rewrite (msum_ext _ (λ _, 0)); [apply msum_zero|].
    intros t th Ht. destruct (Hgone _ _ Ht) as [r Hg]. unfold wants. by rewrite Hg.
Qed.

(** no deadlock: in every state in which a call has not returned, some thread can go on, if only because
    a grace period ends. *)
Theorem registry_never_deadlocks s t th now : reached opts s → threads s !! t = Some th → (∀ r, at_ th ≠ Gone r) →
  ∃ t' th' s', threads s !! t' = Some th' ∧ advance opts s t' th' (mkChoice now true None) = Some s'.
Proof.
  intros [Hl Hr]%safe_reached.
  assert (∀ t th, threads s !! t = Some th → (∀ r, at_ th ≠ Gone r) → (∀ c, at_ th ≠ Locking c) →
    ∃ s', advance opts s t th (mkChoice now true None) = Some s') as Hgo.
  { intros t0 th0 Ht0 Hng Hnl. pose proof (ro_points _ Hr _ _ Ht0) as Hpt. unfold point_ok in Hpt. unfold advance.
    destruct (at_ th0) as [call|call|[hash b build|]|hash b build|id n|id n|id n|id n err|hash build a|a| |r|r|r] eqn:Hp; try by eexists.
    - by destruct (Hnl call).
    - destruct (decide_action _ _ _ _ _) as [p [[id' b']|]]; by eexists.
    - destruct Hpt as (_ & r & ->). destruct (exited r); by eexists.
    - destruct build; by eexists.
    - by destruct (Hng r). }
  intros Ht Hng. destruct (at_ th) as [|call| | | | | | | | | | | |] eqn:Hp;
    try (destruct (Hgo t th Ht) as [s' Hs']; [by rewrite Hp|by rewrite Hp|by exists t, th, s']).
  destruct (holder s !! mutex th) as [t'|] eqn:Hh.
  - destruct (lo_held _ Hl _ _ Hh) as (th' & Ht' & Hc & _).
    destruct (Hgo t' th' Ht') as [s' Hs']; [intros r Hg; by rewrite Hg in Hc|intros c Hg; by rewrite Hg in Hc|]. by exists t', th', s'.
  - exists t, th. eexists. split; [done|]. unfold advance. by rewrite Hp, Hh.
Qed.

(** A reconcile of a spec that differs from the running one in its pause alone tells the runner, and
    replaces nothing. *)
Lemma pausing_replaces_nothing id r isPaused build wait : runErr r = None →
  decide_action (Some (id, r)) (Hash r) isPaused build wait = (Unlocking (Outcome ActionUnchanged 0), Some (id, isPaused)).
Proof. intros He. unfold decide_action. by rewrite !bool_decide_true. Qed.
End facts.
