(* ===== verification/RunnersRuns.v ===== *)
(** * RunnersRuns: the registry on concrete runs

    A check that is started, replaced and shut down, and one whose runner does not
    stop in time. *)
From Stdlib Require Import String.
From stdpp Require Import strings.
From S2P Require Import Prelude GoBase GoStrings GoText Runners.

#[local] Existing Instance ascending_order.

Definition options : RegistryOptions := NewRunnerRegistry (mkRegistryOptions 0 0).

Example the_defaults : options = mkRegistryOptions DefaultRestartInterval DefaultShutdownGrace.
Proof. reflexivity. Qed.

(** One thread goes on, as far as it can, [n] steps. *)
Definition once (c : choice) (t : Z) (s : system) : system :=
  match threads s !! t with Some th => default s (advance options s t th c) | None => s end.
Fixpoint drive (n : nat) (c : choice) (t : Z) (s : system) : system :=
  match n with O => s | S n => drive n c t (once c t s) end.

Lemma reached_once c t s : reached options s → reached options (once c t s).
Proof.
  intros Hs. unfold once. destruct (threads s !! t) as [th|] eqn:Ht; [|done].
  destruct (advance options s t th c) as [s'|] eqn:Ha; [|done]. eapply reached_step; [done|]. by eapply step_thread.
Qed.
Lemma reached_drive n c t : ∀ s, reached options s → reached options (drive n c t s).
Proof. induction n as [|n IH]; intros s Hs; [done|]. cbn. apply IH. by apply reached_once. Qed.
Lemma reached_called s key c : reached options s → reached options (called s key c).
Proof. intros Hs. eapply reached_step; [done|]. apply step_call. Qed.

Definition calm (now : Z) : choice := mkChoice (now * time_Second) false None.
Definition late (now : Z) : choice := mkChoice (now * time_Second) true None.

(** The first reconcile starts runner 2; the second finds another spec and is past its stop. *)
Definition started : system := drive 9 (calm 0) 0 (called empty "ns/a" (Ensure "h1" false None)).
Definition replacing : system := drive 5 (calm 60) (fresh started) (called started "ns/a" (Ensure "h2" false None)).
(** A third reconcile of the same key waits for the mutex. *)
Definition contended : system := drive 2 (calm 60) (fresh replacing) (called replacing "ns/a" (Ensure "h2" true None)).

Lemma contended_reached : reached options contended.
Proof. repeat first [apply reached_drive|apply reached_called|apply reached_empty]. Qed.

Lemma one_runner_per_check_witness :
  (∀ t th t' th', threads contended !! t = Some th → threads contended !! t' = Some th' → critical (at_ th) = true →
     critical (at_ th') = true → tkey th = tkey th' → t = t')
  ∧ (∀ id r, heap contended !! id = Some r → stopped r = false → runners contended !! RKey r = Some id)
  ∧ (∀ id r id' r', heap contended !! id = Some r → heap contended !! id' = Some r' → stopped r = false → stopped r' = false →
       RKey r = RKey r' → id = id').
Proof. apply (one_runner_per_check options). apply contended_reached. Defined.

Example contended_points : (at_ <$> threads contended !! 3, at_ <$> threads contended !! 5) =
  (Some (Removing 2 (ThenStart "h2" None)), Some (Locking (Ensure "h2" true None))).
Proof. vm_compute. reflexivity. Qed.

Lemma registry_never_deadlocks_witness :
  ∃ t' th' s', threads contended !! t' = Some th' ∧ advance options contended t' th' (mkChoice 0 true None) = Some s'.
Proof.
  apply (registry_never_deadlocks options contended 5 (mkThread "ns/a" 4 (Locking (Ensure "h2" true None))) 0);
    [apply contended_reached|vm_compute; reflexivity|intros r; discriminate].
Defined.

(** A reconcile that starts a runner while the shutdown lists the keys. *)
Definition starting : system := drive 4 (calm 0) 0 (called empty "ns/a" (Ensure "h1" false None)).
Definition latched : system := set_down starting Latched.
Definition enumerated : system := set_down (stop_all latched (range_map (runners latched)).*1) Enumerated.
Definition undoing : system := drive 5 (calm 1) 0 enumerated.
Definition undone : system := drive 5 (calm 1) 0 (alter_runner undoing 2 (supervise (Returned (Some "context canceled") true))).

Lemma undoing_runner : heap undoing !! 2 = Some (mkRunner "ns/a" "h1" (1 * time_Second) None true false false None).
Proof. vm_compute. reflexivity. Qed.

Lemma undoing_reached : reached options undoing.
Proof.
  apply reached_drive. assert (reached options starting) as H0 by repeat first [apply reached_drive|apply reached_called|apply reached_empty].
  assert (reached options latched) as H1 by (eapply reached_step; [exact H0|exact (step_latch options starting)]).
  eapply reached_step; [exact H1|]. exact (step_enumerate options latched eq_refl).
Qed.

Lemma undone_reached : reached options undone.
Proof.
  apply reached_drive. eapply reached_step; [exact undoing_reached|].
  exact (step_exit options undoing 2 _ (Returned (Some "context canceled") true) undoing_runner eq_refl).
Qed.

Lemma shutdown_leaves_no_runner_witness : runners undone = ∅ ∧ ∀ id r, heap undone !! id = Some r → stopped r = true.
Proof.
  apply (shutdown_leaves_no_runner options); [apply undone_reached|vm_compute; reflexivity|].
  assert (map_Forall (λ _ th, match at_ th with Gone _ => True | _ => False end) (threads undone)) as Hg
    by (apply map_Forall_to_list; vm_compute; repeat constructor).
  intros t th Ht. specialize (Hg t th Ht). clear Ht. cbv beta in Hg. destruct (at_ th) as [| | | | | | | | | | | | |r]; try contradiction. by exists r.
Defined.

Example undone_result : at_ <$> threads undone !! 0 = Some (Gone (Failed ErrRegistryClosed)).
Proof. vm_compute. reflexivity. Qed.

(** Ensure promises exactly one runner for a key. Where a runner does not stop within the grace period the
    reconcile fails, but the map has forgotten the runner: the next reconcile starts another beside it. *)
Definition stuck : system := drive 12 (late 60) (fresh started) (called started "ns/a" (Ensure "h2" false None)).
Definition doubled : system := drive 9 (calm 61) (fresh stuck) (called stuck "ns/a" (Ensure "h2" false None)).

Example two_runners_run_at_once :
  (at_ <$> threads doubled !! 3) = Some (Gone (Failed DidNotStop))
  ∧ (at_ <$> threads doubled !! 5) = Some (Gone (Outcome ActionStarted 0))
  ∧ ((λ r, (RKey r, Hash r, exited r)) <$> heap doubled !! 2) = Some ("ns/a", "h1", false)
  ∧ ((λ r, (RKey r, Hash r, exited r)) <$> heap doubled !! 7) = Some ("ns/a", "h2", false)
  ∧ ((λ r, runnable_closed r) <$> heap doubled !! 2) = Some true.
Proof. vm_compute. by split_and!. Qed.
