(* ===== verification/Api.v ===== *)
(** * Api: the DriftCheck resource (api/v1alpha1/driftcheck_types.go)

    The specification and the status as the cluster stores them: the same shape
    as Spec, with decimals as text and without the fields the cluster does not
    have. Required without Import, since the two share their field names. *)
From Stdlib Require Import String.
From stdpp Require Import strings.
From S2P Require Import Prelude GoBase GoStrings.

(** ** Specification *)

Record SecretKeyRef := mkSecretKeyRef { SecretName : string; SecretKey : string }.

Record ZMQSpec := mkZMQ {
  ZMQ_Endpoints : list string;
  ZMQ_Topics : list string;
  ZMQ_RecvHWM : Z;
  ZMQ_ConnectTimeout : Duration;
  ZMQ_ReconnectIntervalMax : Duration;
  ZMQ_IdleTimeout : Duration;
  ZMQ_Multipart : string
}.

Record NATSSpec := mkNATS {
  NATS_URL : string;
  NATS_Subjects : list string;
  NATS_QueueGroup : string;
  NATS_CredentialsSecretRef : option SecretKeyRef
}.

Record FileSpec := mkFile { File_Path : string; File_Speed : string; File_Loop : bool }.

Record SourceSpec := mkSource {
  Source_Type : string;
  Source_ZMQ : option ZMQSpec;
  Source_NATS : option NATSSpec;
  Source_File : option FileSpec;
  Source_IngestBufferSize : Z
}.

Record CodecSpec := mkCodec {
  Codec_Type : string;
  Codec_MaxPayloadBytes : Z;
  Codec_RetainRaw : bool;
  Codec_FieldMapping : gmap string string;
  Codec_OpMapping : gmap string string
}.

Record OwnershipSpec := mkOwnership { Ownership_Partitioned : bool; Ownership_KeyPattern : string }.

Record ProjectionSpec := mkProjection {
  Projection_Type : string;
  Projection_KeyTemplate : string;
  Projection_MemberTemplate : string;
  Projection_MaxMembersPerKey : Z;
  Projection_IncrOnly : bool;
  Projection_Ownership : option OwnershipSpec
}.

Record TLSSpec := mkTLS { TLS_Enabled : bool; TLS_InsecureSkipVerify : bool; TLS_CASecretRef : option SecretKeyRef }.

Record RedisSpec := mkRedis {
  Redis_Mode : string;
  Redis_Addr : string;
  Redis_Addrs : list string;
  Redis_MasterName : string;
  Redis_DB : Z;
  Redis_Username : string;
  Redis_PasswordSecretRef : option SecretKeyRef;
  Redis_TLS : option TLSSpec;
  Redis_KeyPattern : string;
  Redis_ReadBatchSize : Z;
  Redis_ScanCount : Z;
  Redis_DialTimeout : Duration;
  Redis_ReadTimeout : Duration;
  Redis_PoolSize : Z
}.

Record TargetSpec := mkTarget { Target_Type : string; Target_Redis : option RedisSpec }.

(** The safety factor is text. *)
Record SettlementWindowSpec := mkWindow {
  Window_Mode : string;
  Window_Static : Duration;
  Window_Min : Duration;
  Window_Max : Duration;
  Window_SafetyFactor : string
}.

Record PolicySpec := mkPolicy {
  Policy_SettlementWindow : SettlementWindowSpec;
  Policy_SweepInterval : Duration;
  Policy_ExtraScanInterval : Duration;
  Policy_ReorderWindow : Duration;
  Policy_Bootstrap : string;
  Policy_ExpiryPolicy : string;
  Policy_AssumedTTL : Duration;
  Policy_TTLTolerance : Duration;
  Policy_RequirePrimary : bool;
  Policy_MaxTrackedKeys : Z;
  Policy_RingSize : Z;
  Policy_MaxConfirmQueue : Z;
  Policy_MaxFindings : Z;
  Policy_MaxExtrasTracked : Z;
  Policy_MaxPublishers : Z;
  Policy_OracleShards : Z;
  Policy_NeverSettledThreshold : Z;
  Policy_Paused : bool
}.

Record AlertSpec := mkAlert {
  Alert_DivergentKeysThreshold : Z;
  Alert_DivergentRatioThreshold : string;
  Alert_ForDuration : Duration;
  Alert_IncludeSuspect : bool
}.

Record DriftCheckSpec := mkDriftCheckSpec {
  Source : SourceSpec;
  Codec : CodecSpec;
  Projection : ProjectionSpec;
  Target : TargetSpec;
  Policy : PolicySpec;
  Alert : AlertSpec
}.

(** ** Status *)

Record PublisherStatus := mkPublisher {
  P_ID : string;
  P_Epoch : Z;
  P_HighWaterMark : Z;
  P_MissingEvents : Z;
  P_Restarts : Z;
  P_LastSeenSeconds : string;
  P_ClockSkewSeconds : string
}.

(** The fields of a condition of the Kubernetes API; its status is true or false here. *)
Record Condition := mkCondition {
  C_Type : string;
  C_Status : bool;
  C_ObservedGeneration : Z;
  C_LastTransitionTime : option Time;
  C_Reason : string;
  C_Message : string
}.

Record DriftCheckStatus := mkDriftCheckStatus {
  Phase : string;
  ObservedGeneration : Z;
  Message : string;
  DivergentKeys : Z;
  SuspectDivergentKeys : Z;
  DivergenceByCategory : gmap string Z;
  DriftDurationSeconds : string;
  TrackedKeys : Z;
  SettledKeys : Z;
  InFlightKeys : Z;
  CoverageRatio : string;
  SettlementWindowSeconds : string;
  ConvergenceP99Seconds : string;
  Publishers : list PublisherStatus;
  LastSweepTime : option Time;
  LastSweepDurationSeconds : string;
  LastSweepKeysCompared : Z;
  SweepsSkipped : Z;
  TargetReachable : bool;
  TargetRole : string;
  TargetKeyspaceSize : Z;
  EventsApplied : Z;
  EventsDropped : Z;
  Conditions : list Condition
}.

Definition ConditionReady : string := "Ready".
Definition ConditionSourceConnected : string := "SourceConnected".
Definition ConditionTargetAvailable : string := "TargetAvailable".
Definition ConditionDriftDetected : string := "DriftDetected".
Definition ConditionOracleSaturated : string := "OracleSaturated".
Definition ConditionSequenceIntegrity : string := "SequenceIntegrity".
Definition ConditionProjectionNotCommutative : string := "ProjectionNotCommutative".
Definition ConditionSweepIntervalTight : string := "SweepIntervalTight".
Definition ConditionMultiWriterUnsafe : string := "MultiWriterUnsafe".
Definition ConditionAwaitingSnapshot : string := "AwaitingSnapshot".

Definition Finalizer : string := "driftwatch.io/cleanup".

(** The object, with the metadata the controller reads. *)
Record DriftCheck := mkDriftCheck {
  Name : string;
  Namespace : string;
  Generation : Z;
  DeletionTimestamp : option Time;
  Finalizers : list string;
  Spec : DriftCheckSpec;
  Status : DriftCheckStatus
}.

(** SecretRefs: by the path of the field. *)
Definition SecretRefs (s : DriftCheckSpec) : gmap string SecretKeyRef :=
  let add path ref (m : gmap string SecretKeyRef) := match ref with Some r => <[path := r]> m | None => m end in
  let m := match Target_Redis (Target s) with
           | Some r =>
               add "target.redis.tls.caSecretRef" (Redis_TLS r ≫= TLS_CASecretRef)
                 (add "target.redis.passwordSecretRef" (Redis_PasswordSecretRef r) ∅)
           | None => ∅
           end in
  add "source.nats.credentialsSecretRef" (Source_NATS (Source s) ≫= NATS_CredentialsSecretRef) m.
