(* ===== verification/Conversion.v ===== *)
(** * Conversion: from the resource to a check (api/v1alpha1/conversion.go, driftcheck_defaults.go, driftcheck_webhook.go)

    The defaults of admission, the translation into the specification of a check,
    and the validation of an object. Field paths are the library's, behind a class. *)
From Stdlib Require Import Ascii String.
From stdpp Require Import strings pretty.
From S2P Require Import Prelude GoBase GoFloat FloatFormat GoStrings GoTime JsonGrammar GoFormat GoText Event Projection Spec Config ConfigFacts.
From S2P Require Api.

(** ** Translation *)

Definition toSecretRef (r : option Api.SecretKeyRef) : option SecretRef :=
  (λ r, mkSecretRef (Api.SecretName r) (Api.SecretKey r)) <$> r.

(** A decimal that cannot be read is zero. *)
Definition parseDecimal (raw : string) : float64 := default (S754_zero false) (ParseDecimal raw).

Definition convert_zmq (z : Api.ZMQSpec) : ZMQSpec :=
  mkZMQ (Api.ZMQ_Endpoints z) (Api.ZMQ_Topics z) (Api.ZMQ_RecvHWM z) (Api.ZMQ_ConnectTimeout z)
    (Api.ZMQ_ReconnectIntervalMax z) (Api.ZMQ_IdleTimeout z) (Api.ZMQ_Multipart z).
Definition convert_nats (n : Api.NATSSpec) : NATSSpec :=
  mkNATS (Api.NATS_URL n) (Api.NATS_Subjects n) (Api.NATS_QueueGroup n) (toSecretRef (Api.NATS_CredentialsSecretRef n)).
Definition convert_file (f : Api.FileSpec) : FileSpec := mkFile (Api.File_Path f) (Api.File_Speed f) (Api.File_Loop f).

Definition convertSource (s : Api.SourceSpec) : SourceSpec :=
  mkSource (Api.Source_Type s) (convert_zmq <$> Api.Source_ZMQ s) (convert_nats <$> Api.Source_NATS s)
    (convert_file <$> Api.Source_File s) (Api.Source_IngestBufferSize s).

Definition convert_codec (c : Api.CodecSpec) : CodecSpec :=
  mkCodecSpec (Api.Codec_Type c) (Api.Codec_MaxPayloadBytes c) (Api.Codec_RetainRaw c) (Api.Codec_FieldMapping c) (Api.Codec_OpMapping c).

Definition convert_projection (p : Api.ProjectionSpec) : ProjectionSpec :=
  mkProjectionSpec (Api.Projection_Type p) (Api.Projection_KeyTemplate p) (Api.Projection_MemberTemplate p)
    (Api.Projection_MaxMembersPerKey p) (Api.Projection_IncrOnly p)
    ((λ o, mkOwnershipSpec (Api.Ownership_Partitioned o) (Api.Ownership_KeyPattern o)) <$> Api.Projection_Ownership p) ∅.

Definition convert_redis (r : Api.RedisSpec) : RedisSpec :=
  mkRedis (Api.Redis_Mode r) (Api.Redis_Addr r) (Api.Redis_Addrs r) (Api.Redis_MasterName r) (Api.Redis_DB r)
    (Api.Redis_Username r) "" (toSecretRef (Api.Redis_PasswordSecretRef r))
    ((λ t, mkTLS (Api.TLS_Enabled t) (Api.TLS_InsecureSkipVerify t) (toSecretRef (Api.TLS_CASecretRef t))) <$> Api.Redis_TLS r)
    (Api.Redis_KeyPattern r) (Api.Redis_ReadBatchSize r) (Api.Redis_ScanCount r) (Api.Redis_DialTimeout r)
    (Api.Redis_ReadTimeout r) (Api.Redis_PoolSize r).

Definition convertTarget (t : Api.TargetSpec) : TargetSpec :=
  mkTargetSpec (Api.Target_Type t) (convert_redis <$> Api.Target_Redis t) ∅.

Definition convert_policy (p : Api.PolicySpec) : PolicySpec :=
  let w := Api.Policy_SettlementWindow p in
  mkPolicy
    (mkWindowSpec (Api.Window_Mode w) (Api.Window_Static w) (Api.Window_Min w) (Api.Window_Max w)
       (parseDecimal (Api.Window_SafetyFactor w)))
    (Api.Policy_SweepInterval p) (Api.Policy_ExtraScanInterval p) (Api.Policy_Bootstrap p) (Api.Policy_ExpiryPolicy p)
    (Api.Policy_AssumedTTL p) (Api.Policy_TTLTolerance p) (Api.Policy_RequirePrimary p) (Api.Policy_ReorderWindow p)
    (Api.Policy_MaxTrackedKeys p) (Api.Policy_RingSize p) (Api.Policy_MaxConfirmQueue p) (Api.Policy_MaxFindings p)
    (Api.Policy_MaxExtrasTracked p) (Api.Policy_MaxPublishers p) (Api.Policy_OracleShards p)
    (Api.Policy_NeverSettledThreshold p) (Api.Policy_Paused p).

Definition convert_alert (a : Api.AlertSpec) : AlertSpec :=
  mkAlert (Api.Alert_DivergentKeysThreshold a) (parseDecimal (Api.Alert_DivergentRatioThreshold a))
    (Api.Alert_ForDuration a) (Api.Alert_IncludeSuspect a).

Definition ToCheckSpec (s : Api.DriftCheckSpec) (name namespace : string) : Spec :=
  ApplyDefaults
    (mkSpec name namespace (convertSource (Api.Source s)) (convert_codec (Api.Codec s)) (convert_projection (Api.Projection s))
       (convertTarget (Api.Target s)) (convert_policy (Api.Policy s)) (convert_alert (Api.Alert s))).

(** ** The defaults of admission *)

Definition setDuration (d fallback : Duration) : Duration := positive_or fallback d.

(** Decimal.String *)
Definition Decimal_String (d : float64) : string := FormatFloat64 d.

Definition defaultSource (s : Api.SourceSpec) : Api.SourceSpec :=
  Api.mkSource (nonempty_or "zmq" (Api.Source_Type s))
    ((λ z, Api.mkZMQ (Api.ZMQ_Endpoints z) (Api.ZMQ_Topics z) (positive_or DefaultRecvHWM (Api.ZMQ_RecvHWM z))
             (setDuration (Api.ZMQ_ConnectTimeout z) DefaultConnectTimeout)
             (setDuration (Api.ZMQ_ReconnectIntervalMax z) DefaultReconnectMax)
             (setDuration (Api.ZMQ_IdleTimeout z) DefaultIdleTimeout)
             (nonempty_or MultipartAuto (Api.ZMQ_Multipart z))) <$> Api.Source_ZMQ s)
    (Api.Source_NATS s)
    ((λ f, Api.mkFile (Api.File_Path f) (nonempty_or SpeedFast (Api.File_Speed f)) (Api.File_Loop f)) <$> Api.Source_File s)
    (positive_or DefaultIngestBufferSize (Api.Source_IngestBufferSize s)).

Definition defaultCodec (c : Api.CodecSpec) : Api.CodecSpec :=
  Api.mkCodec (nonempty_or "json" (Api.Codec_Type c)) (positive_or DefaultMaxPayloadBytes (Api.Codec_MaxPayloadBytes c))
    (Api.Codec_RetainRaw c) (Api.Codec_FieldMapping c) (Api.Codec_OpMapping c).

Definition defaultProjection (p : Api.ProjectionSpec) : Api.ProjectionSpec :=
  Api.mkProjection (nonempty_or "keysetOwnership" (Api.Projection_Type p))
    (nonempty_or DefaultKeyTemplate (Api.Projection_KeyTemplate p))
    (nonempty_or DefaultMemberTemplate (Api.Projection_MemberTemplate p))
    (positive_or DefaultMaxMembersPerKey (Api.Projection_MaxMembersPerKey p)) (Api.Projection_IncrOnly p)
    (Api.Projection_Ownership p).

(** [&RedisSpec{}] *)
Definition empty_redis : Api.RedisSpec := Api.mkRedis "" "" [] "" 0 "" None None "" 0 0 0 0 0.

Definition default_redis (r : Api.RedisSpec) : Api.RedisSpec :=
  Api.mkRedis (nonempty_or RedisStandalone (Api.Redis_Mode r)) (Api.Redis_Addr r) (Api.Redis_Addrs r)
    (Api.Redis_MasterName r) (Api.Redis_DB r) (Api.Redis_Username r) (Api.Redis_PasswordSecretRef r) (Api.Redis_TLS r)
    (nonempty_or DefaultKeyPatternGlob (Api.Redis_KeyPattern r))
    (positive_or DefaultReadBatchSize (Api.Redis_ReadBatchSize r))
    (positive_or DefaultScanCount (Api.Redis_ScanCount r))
    (setDuration (Api.Redis_DialTimeout r) DefaultDialTimeout)
    (setDuration (Api.Redis_ReadTimeout r) DefaultReadTimeout)
    (positive_or DefaultRedisPoolSize (Api.Redis_PoolSize r)).

Definition defaultTarget (t : Api.TargetSpec) : Api.TargetSpec :=
  let ty := nonempty_or "redis" (Api.Target_Type t) in
  if negb (bool_decide (ty = "redis")) then Api.mkTarget ty (Api.Target_Redis t)
  else Api.mkTarget ty (Some (default_redis (default empty_redis (Api.Target_Redis t)))).

Definition defaultPolicy (p : Api.PolicySpec) : Api.PolicySpec :=
  let w := Api.Policy_SettlementWindow p in
  Api.mkPolicy
    (Api.mkWindow (nonempty_or WindowAdaptive (Api.Window_Mode w)) (setDuration (Api.Window_Static w) DefaultStaticWindow)
       (setDuration (Api.Window_Min w) DefaultMinWindow) (setDuration (Api.Window_Max w) DefaultMaxWindow)
       (nonempty_or (Decimal_String DefaultSafetyFactor) (Api.Window_SafetyFactor w)))
    (setDuration (Api.Policy_SweepInterval p) DefaultSweepInterval)
    (setDuration (Api.Policy_ExtraScanInterval p) DefaultExtraScanInterval)
    (setDuration (Api.Policy_ReorderWindow p) DefaultReorderWindow)
    (nonempty_or BootstrapAdopt (Api.Policy_Bootstrap p))
    (nonempty_or ExpiryStrict (Api.Policy_ExpiryPolicy p))
    (Api.Policy_AssumedTTL p)
    (setDuration (Api.Policy_TTLTolerance p) DefaultTTLTolerance)
    (Api.Policy_RequirePrimary p)
    (positive_or DefaultMaxTrackedKeys (Api.Policy_MaxTrackedKeys p))
    (positive_or DefaultRingSize (Api.Policy_RingSize p))
    (positive_or DefaultMaxConfirmQueue (Api.Policy_MaxConfirmQueue p))
    (positive_or DefaultMaxFindings (Api.Policy_MaxFindings p))
    (positive_or DefaultMaxExtrasTracked (Api.Policy_MaxExtrasTracked p))
    (positive_or DefaultMaxPublishers (Api.Policy_MaxPublishers p))
    (positive_or DefaultOracleShards (Api.Policy_OracleShards p))
    (positive_or DefaultNeverSettledThreshold (Api.Policy_NeverSettledThreshold p))
    (Api.Policy_Paused p).

Definition defaultAlert (a : Api.AlertSpec) : Api.AlertSpec :=
  Api.mkAlert (positive_or DefaultDivergentKeys (Api.Alert_DivergentKeysThreshold a))
    (nonempty_or (Decimal_String DefaultDivergentRatio) (Api.Alert_DivergentRatioThreshold a))
    (setDuration (Api.Alert_ForDuration a) DefaultForDuration) (Api.Alert_IncludeSuspect a).

Definition Default (s : Api.DriftCheckSpec) : Api.DriftCheckSpec :=
  Api.mkDriftCheckSpec (defaultSource (Api.Source s)) (defaultCodec (Api.Codec s)) (defaultProjection (Api.Projection s))
    (defaultTarget (Api.Target s)) (defaultPolicy (Api.Policy s)) (defaultAlert (Api.Alert s)).

(** ** Validation *)

(** The field paths of the Kubernetes libraries, and how they are printed. *)
Class FieldPath (Path : Type) := {
  NewPath : string → Path;
  Child : Path → string → Path;
  Index : Path → Z → Path;
  PathKey : Path → string → Path;
  Path_String : Path → string
}.

Class FieldPathLaws `{FieldPath Path} : Prop := {
  new_string : ∀ name, Path_String (NewPath name) = name;
  child_string : ∀ p name, Path_String (Child p name) = Path_String p +:+ "." +:+ name;
  index_string : ∀ p i, Path_String (Index p i) = Path_String p +:+ "[" +:+ FormatInt i +:+ "]";
  key_string : ∀ p k, Path_String (PathKey p k) = Path_String p +:+ "[" +:+ k +:+ "]"
}.

Section validation.
Context `{FieldPath Path} `{UnicodeTables} `{UnicodePrint} `{MapOrder} `{TemplateEngine}.

Definition specPath : Path := NewPath "spec".

(** field.Invalid: the path, the value and the detail. A detail is a format and its arguments, as in Config. *)
Record Error := mkError { E_Path : Path; E_Value : string; E_Detail : string * list arg }.

Definition decimals (s : Api.DriftCheckSpec) : list (Path * string) :=
  [(Child (Child (Child specPath "policy") "settlementWindow") "safetyFactor",
     Api.Window_SafetyFactor (Api.Policy_SettlementWindow (Api.Policy s)));
   (Child (Child specPath "alert") "divergentRatioThreshold", Api.Alert_DivergentRatioThreshold (Api.Alert s))].

Definition decimalErrors (s : Api.DriftCheckSpec) : list Error :=
  omap (λ '(path, raw), match ParseDecimal raw with
                        | Some _ => None
                        | None => Some (mkError path raw ("%q is not a number", [AString raw]))
                        end) (decimals s).

(** One segment of a dotted name. *)
Definition add_segment (path : Path) (segment : string) : Path :=
  let '(name, subscript, hasSubscript) := strings_Cut segment "[" in
  let path := Child path name in
  if negb hasSubscript then path
  else
    let subscript := TrimSuffix subscript "]" in
    match ParseInt subscript with Some i => Index path i | None => PathKey path subscript end.

Definition parsePath (dotted : string) : Path := foldl add_segment specPath (strings_Split dotted ".").

Definition translate (err : option (list FieldError)) : list Error :=
  match err with
  | None => []
  | Some l => (λ fe, mkError (parsePath (FE_Field fe)) "" (FE_Message fe)) <$> l
  end.

(** Validate: the warnings, and the errors of NewInvalid; no errors is a nil error. *)
Definition Validate (dc : Api.DriftCheck) (previous : option Api.DriftCheck) : list (string * list arg) * list Error :=
  let spec := ToCheckSpec (Api.Spec dc) (Api.Name dc) (Api.Namespace dc) in
  let errs := decimalErrors (Api.Spec dc) ++ translate (Spec_Validate spec) in
  let errs := match previous with
              | Some p => errs ++ translate (ValidateUpdate spec (Some (ToCheckSpec (Api.Spec p) (Api.Name p) (Api.Namespace p))))
              | None => errs
              end in
  (Warnings spec, errs).

Definition ValidateCreate (dc : Api.DriftCheck) : list (string * list arg) * list Error := Validate dc None.
Definition ValidateUpdate_object (old new : Api.DriftCheck) : list (string * list arg) * list Error := Validate new (Some old).
Definition ValidateDelete (dc : Api.DriftCheck) : list (string * list arg) * list Error := ([], []).

(** Defaulting on admission: of the specification alone. *)
Definition DriftCheck_Default (dc : Api.DriftCheck) : Api.DriftCheck :=
  Api.mkDriftCheck (Api.Name dc) (Api.Namespace dc) (Api.Generation dc) (Api.DeletionTimestamp dc) (Api.Finalizers dc)
    (Default (Api.Spec dc)) (Api.Status dc).
End validation.

#[global] Arguments Error Path : clear implicits.

(** ** What admission changes and refuses

    Defaulting settles and leaves alone the check that runs, admission refuses what
    the command line refuses, and an error names the field it is about. *)

(** ** Defaults *)

Lemma default_source_settles s : Conversion.defaultSource (Conversion.defaultSource s) = Conversion.defaultSource s.
Proof.
  destruct s as [ty z n f b]. unfold Conversion.defaultSource, setDuration. cbn. rewrite nonempty_or_twice, positive_or_twice by done.
  f_equal; [destruct z as [[]|]|destruct f as [[]|]]; cbn; by rewrite ?positive_or_twice, ?nonempty_or_twice by done.
Qed.

Lemma default_target_settles t : Conversion.defaultTarget (Conversion.defaultTarget t) = Conversion.defaultTarget t.
Proof.
  unfold Conversion.defaultTarget. cbv zeta. set (ty := nonempty_or "redis" (Api.Target_Type t)).
  destruct (negb (bool_decide (ty = "redis"))) eqn:Hty; cbn [Api.Target_Type Api.Target_Redis];
    rewrite (nonempty_or_twice "redis" (Api.Target_Type t) : nonempty_or "redis" ty = ty), Hty; [done|].
  cbn [from_option id]. unfold Conversion.default_redis, setDuration. cbn. by rewrite !nonempty_or_twice, !positive_or_twice by done.
Qed.

Lemma admission_defaults_settle s : Default (Default s) = Default s.
Proof.
  unfold Default. cbn. rewrite default_source_settles, default_target_settles. f_equal.
  - destruct (Api.Codec s). unfold Conversion.defaultCodec. cbn. by rewrite nonempty_or_twice, positive_or_twice by done.
  - destruct (Api.Projection s). unfold Conversion.defaultProjection. cbn. by rewrite !nonempty_or_twice, positive_or_twice by done.
  - destruct (Api.Policy s) as [[]]. unfold Conversion.defaultPolicy, setDuration. cbn. by rewrite !nonempty_or_twice, !positive_or_twice by done.
  - destruct (Api.Alert s). unfold Conversion.defaultAlert, setDuration. cbn. by rewrite !nonempty_or_twice, !positive_or_twice by done.
Qed.

Lemma nonempty_or_given d x : x ≠ "" → nonempty_or d x = x.
Proof. intros Hx. unfold nonempty_or. by rewrite decide_False. Qed.

Lemma default_decimal d raw : positive_decimal_or d (parseDecimal (Decimal_String d)) = positive_decimal_or d (S754_zero false) →
  positive_decimal_or d (parseDecimal (nonempty_or (Decimal_String d) raw)) = positive_decimal_or d (parseDecimal raw).
Proof. intros Hd. unfold nonempty_or. destruct (decide (raw = "")) as [->|]; [by rewrite Hd|done]. Qed.

Lemma default_redis_settles r : Spec.default_redis (convert_redis (Conversion.default_redis r)) = Spec.default_redis (convert_redis r).
Proof. destruct r. unfold Conversion.default_redis, convert_redis, Spec.default_redis, setDuration. cbn. by rewrite !nonempty_or_twice, !positive_or_twice by done. Qed.

(** C36: admission changes no check: a resource that names its source, projection, target and window mode and
    whose reorder window is not negative runs the same check whether or not the webhook filled it in. *)
Theorem admission_changes_no_check s name namespace :
  Api.Source_Type (Api.Source s) ≠ "" → Api.Projection_Type (Api.Projection s) ≠ "" → Api.Target_Type (Api.Target s) ≠ "" →
  Api.Window_Mode (Api.Policy_SettlementWindow (Api.Policy s)) ≠ "" → 0 ≤ Api.Policy_ReorderWindow (Api.Policy s) →
  ToCheckSpec (Default s) name namespace = ToCheckSpec s name namespace.
Proof.
  intros Hs Hp Ht Hw Hr. unfold ToCheckSpec, Default, ApplyDefaults. cbn [Spec_Name Spec_Namespace Spec_Source Spec_Codec Spec_Projection
    Spec_Target Spec_Policy Spec_Alert Api.Source Api.Codec Api.Projection Api.Target Api.Policy Api.Alert]. f_equal.
  - destruct (Api.Source s) as [ty z n f b]. cbn in Hs. unfold Conversion.defaultSource, convertSource, Spec.defaultSource, setDuration. cbn.
    rewrite (nonempty_or_given "zmq") by done. rewrite positive_or_twice by done.
    f_equal; [destruct z as [[]|]|destruct f as [[]|]]; cbn; by rewrite ?positive_or_twice, ?nonempty_or_twice by done.
  - destruct (Api.Codec s). unfold Conversion.defaultCodec, convert_codec, Spec.defaultCodec. cbn. by rewrite nonempty_or_twice, positive_or_twice by done.
  - destruct (Api.Projection s). cbn in Hp. unfold Conversion.defaultProjection, convert_projection, Spec.defaultProjection. cbn.
    rewrite (nonempty_or_given "keysetOwnership") by done. by rewrite !nonempty_or_twice, positive_or_twice by done.
  - destruct (Api.Target s) as [ty r]. cbn in Ht. unfold Conversion.defaultTarget, convertTarget, Spec.defaultTarget. cbn.
    rewrite !(nonempty_or_given "redis") by done. rewrite (nonempty_or_given "memory" ty) by done.
    destruct (negb (bool_decide (ty = "redis"))) eqn:Hty; cbn; rewrite (nonempty_or_given "memory" ty), Hty by done; [done|].
    rewrite default_redis_settles. by destruct r.
  - destruct (Api.Policy s) as [[mode st mn mx sf] sw xs rw bt ep ttl tol rp mk rs mq mf mx' mp os ns pa]. cbn in Hw, Hr.
    unfold Conversion.defaultPolicy, convert_policy, Spec.defaultPolicy, setDuration. cbn.
    rewrite (nonempty_or_given WindowAdaptive) by done. rewrite default_decimal by (vm_compute; reflexivity).
    rewrite !nonempty_or_twice, !positive_or_twice by done. f_equal.
    unfold positive_or. destruct (Z.eqb_spec rw 0) as [->|]; [done|]. assert ((rw <=? 0) = false) as -> by lia. by destruct (Z.eqb_spec rw 0).
  - destruct (Api.Alert s). unfold Conversion.defaultAlert, convert_alert, Spec.defaultAlert, setDuration. cbn.
    rewrite default_decimal by (vm_compute; reflexivity). by rewrite !positive_or_twice by done.
Qed.

(** ** Field paths *)

Definition segment_ok (segment : string) : bool :=
  let '(name, sub, found) := strings_Cut segment "[" in
  if negb found then bool_decide (name = segment)
  else
    let inner := TrimSuffix sub "]" in
    bool_decide (name +:+ "[" +:+ inner +:+ "]" = segment)
    && match ParseInt inner with Some i => bool_decide (FormatInt i = inner) | None => true end.

Lemma split_from_none c s : ∀ acc, ∃ a l, split_from (String c "") s 0 acc = a :: l.
Proof. induction s as [|d s IH]; intros acc; [by eexists _, _|]. cbn [split_from]. destruct (HasPrefix _ _); [by eexists _, _|apply IH]. Qed.

Lemma Join_split_from c s : ∀ acc, strings_Join (split_from (String c "") s 0 acc) (String c "") = string_of_list (reverse acc) +:+ s.
Proof.
  induction s as [|d s IH]; intros acc; [cbn; by rewrite string_app_nil_r|]. cbn [split_from]. rewrite HasPrefix_one.
  destruct (Ascii.eqb_spec c d) as [->|Hne].
  - cbn [String.length Nat.sub]. destruct (split_from_none d s []) as (a & l & E). pose proof (IH []) as Hr. rewrite E in *.
    change (strings_Join (?x :: a :: l) ?sep) with (x +:+ sep +:+ strings_Join (a :: l) sep). rewrite Hr. by str_norm.
  - rewrite IH, reverse_cons, string_of_list_app, string_app_assoc. done.
Qed.

(** strings.Join undoes strings.Split by one character. *)
Lemma Join_Split c s : strings_Join (strings_Split s (String c "")) (String c "") = s.
Proof. unfold strings_Split. rewrite bool_decide_false by done. by rewrite Join_split_from. Qed.

Lemma Join_snoc sep l tail : l ≠ [] → strings_Join (l ++ [tail]) sep = strings_Join l sep +:+ sep +:+ tail.
Proof.
  intros Hne. induction l as [|a l IH]; [done|]. destruct l as [|b l]; [done|].
  change (strings_Join ((a :: b :: l) ++ [tail]) sep) with (a +:+ sep +:+ strings_Join ((b :: l) ++ [tail]) sep).
  change (strings_Join (a :: b :: l) sep) with (a +:+ sep +:+ strings_Join (b :: l) sep). rewrite IH by done. by str_norm.
Qed.

Lemma free_of_Cut c s : free_of c s = true → strings_Cut s c = (s, "", false).
Proof.
  induction s as [|d s IH]; [done|]. cbn [free_of strings_Cut]. intros H. apply andb_true_iff in H as [Hd Hs]. apply negb_true_iff in Hd.
  by rewrite Hd, IH.
Qed.

Lemma Cut_here c a s : free_of c a = true → strings_Cut (a +:+ String c s) c = (a, s, true).
Proof.
  induction a as [|d a IH]; intros H; [rewrite string_app_nil_l; cbn [strings_Cut]; by rewrite Ascii.eqb_refl|]. cbn [free_of] in H. apply andb_true_iff in H as [Hd Ha].
  apply negb_true_iff in Hd. rewrite string_app_cons. cbn [strings_Cut]. by rewrite Hd, IH.
Qed.

Lemma TrimSuffix_app a b : TrimSuffix (a +:+ b) b = a.
Proof.
  assert (∀ x y, String.length (x +:+ y) = String.length x + String.length y)%nat as Hlen
    by (intros x y; induction x as [|c x IH]; [done|rewrite string_app_cons; cbn; by rewrite IH]).
  assert (∀ x y, string_drop (String.length x) (x +:+ y) = y) as Hdrop
    by (intros x y; induction x as [|c x IH]; [by destruct y|rewrite string_app_cons; exact IH]).
  assert (∀ x y, string_take (String.length x) (x +:+ y) = x) as Htake
    by (intros x y; induction x as [|c x IH]; [by destruct y|rewrite string_app_cons; cbn; by rewrite IH]).
  unfold TrimSuffix. rewrite Hlen. replace (_ + _ - _)%nat with (String.length a) by lia. rewrite Hdrop, Htake, bool_decide_true by done.
  by rewrite (proj2 (Nat.leb_le _ _)) by lia.
Qed.

Lemma digits_free c ds : digits ds = true → isDigit c = false → free_of c ds = true.
Proof.
  intros Hd Hc. induction ds as [|d ds IH]; [done|]. cbn [digits free_of] in *. apply andb_true_iff in Hd as [Hh Ht].
  rewrite IH by done. destruct (Ascii.eqb_spec d c); [congruence|done].
Qed.

Lemma FormatInt_free c n : isDigit c = false → c ≠ "-"%char → free_of c (FormatInt n) = true.
Proof.
  intros Hc Hm. destruct (FormatInt_split n) as (ds & -> & Hd & _). rewrite free_of_app, (digits_free _ _ Hd Hc), andb_true_r.
  destruct (n <? 0); [|done]. cbn [free_of]. destruct (Ascii.eqb_spec "-" c); [congruence|done].
Qed.

Section paths.
Context {Path : Type} {FP : FieldPath Path} {L : FieldPathLaws}.

Lemma add_segment_string p segment : segment_ok segment = true →
  Path_String (add_segment p segment) = Path_String p +:+ "." +:+ segment.
Proof.
  unfold segment_ok, add_segment. destruct (strings_Cut segment "[") as [[name sub] found]. destruct found; cbn [negb].
  - intros [Hs Hi]%andb_true_iff. apply bool_decide_eq_true in Hs. set (inner := TrimSuffix sub "]") in *.
    destruct (ParseInt inner) as [i|]; [apply bool_decide_eq_true in Hi|]; rewrite ?index_string, ?key_string, child_string, ?Hi;
      rewrite <- Hs; by str_norm.
  - intros <-%bool_decide_eq_true. by rewrite child_string.
Qed.

Lemma add_segments_string l : ∀ p, l ≠ [] → Forall (λ s, segment_ok s = true) l →
  Path_String (foldl add_segment p l) = Path_String p +:+ "." +:+ strings_Join l ".".
Proof.
  induction l as [|s l IH]; intros p Hne Hf; [done|]. inversion Hf as [|?? Hs Hl]; subst. cbn [foldl]. destruct l as [|s' l].
  - cbn. by apply add_segment_string.
  - rewrite IH by done. rewrite add_segment_string by done. change (strings_Join (s :: s' :: l) ".") with (s +:+ "." +:+ strings_Join (s' :: l) ".").
    by str_norm.
Qed.

(** The dotted name of a field comes back as its path. *)
Definition named (field : string) : Prop := Path_String (parsePath field) = "spec." +:+ field.

Lemma named_segments field : forallb segment_ok (strings_Split field ".") = true → named field.
Proof.
  intros Hf. unfold named, parsePath. rewrite add_segments_string.
  - unfold specPath. by rewrite Join_Split, new_string.
  - unfold strings_Split. rewrite bool_decide_false by done. destruct (split_from_none "." field []) as (a & l & ->). done.
  - apply Forall_forall. rewrite forallb_forall in Hf. intros s Hs. apply Hf. by apply list_elem_of_In.
Qed.

Lemma subscript_named field prefix inner : forallb segment_ok (strings_Split prefix ".") = true →
  free_of "." field = true → free_of "[" field = true → free_of "." inner = true →
  match ParseInt inner with Some i => FormatInt i = inner | None => True end →
  forallb (free_of ".") (strings_Split prefix ".") = true →
  named (prefix +:+ "." +:+ field +:+ "[" +:+ inner +:+ "]").
Proof.
  intros Hp Hf Hb Hi Hn Hfree. apply named_segments.
  assert (strings_Split (prefix +:+ "." +:+ field +:+ "[" +:+ inner +:+ "]") "." =
    strings_Split prefix "." ++ [field +:+ "[" +:+ inner +:+ "]"]) as ->.
  { rewrite <- (Split_Join "." (strings_Split prefix "." ++ [field +:+ "[" +:+ inner +:+ "]"])).
    - f_equal. transitivity (strings_Join (strings_Split prefix ".") "." +:+ "." +:+ field +:+ "[" +:+ inner +:+ "]"); [by rewrite Join_Split|].
      symmetry. apply Join_snoc. unfold strings_Split. rewrite bool_decide_false by done.
      by destruct (split_from_none "." prefix []) as (a & l & ->).
    - by destruct (strings_Split prefix ".").
    - apply Forall_app. split; [apply Forall_forall; rewrite forallb_forall in Hfree; intros s Hs; apply Hfree; by apply list_elem_of_In|].
      apply Forall_singleton. rewrite !free_of_app, Hf, Hi. done. }
  rewrite forallb_app, Hp. cbn [forallb andb]. rewrite andb_true_r. unfold segment_ok.
  change (field +:+ "[" +:+ inner +:+ "]") with (field +:+ String "[" (inner +:+ "]")). rewrite Cut_here by done. cbn [negb].
  rewrite TrimSuffix_app, bool_decide_true by done. cbn [andb]. destruct (ParseInt inner); [by apply bool_decide_eq_true|done].
Qed.

(** The errors of a check of the specification name their fields. *)
Definition all_named (c : checking) : Prop := Forall (λ fe, named (FE_Field fe)) (errs c).

Lemma all_named_and a b : all_named a → all_named b → all_named (and_then a b).
Proof. intros Ha Hb. by apply Forall_app. Qed.
Lemma all_named_when c a : all_named a → all_named (when c a).
Proof. intros Ha. by destruct c; [|constructor]. Qed.
Lemma all_named_checks {A} (f : A → checking) l : (∀ a, a ∈ l → all_named (f a)) → all_named (checks f l).
Proof.
  induction l as [|a l IH]; intros H; [constructor|]. cbn [checks foldr]. apply all_named_and; [apply H; by left|].
  apply IH. intros b Hb. apply H. by right.
Qed.
Lemma all_named_fail field text args : named field → all_named (fail field text args).
Proof. intros H. by repeat constructor. Qed.
Lemma all_named_constant field text args : forallb segment_ok (strings_Split field ".") = true → all_named (fail field text args).
Proof. intros H. by apply all_named_fail, named_segments. Qed.
Lemma all_named_no_error c : errs c = [] → all_named c.
Proof. intros H. unfold all_named. by rewrite H. Qed.

Ltac all_named :=
  repeat first
    [ apply all_named_and
    | apply all_named_when
    | apply all_named_constant; vm_compute; reflexivity
    | apply all_named_no_error; reflexivity
    | match goal with
      | |- all_named (if ?b then _ else _) => destruct b
      | |- all_named (match ?b with _ => _ end) => destruct b
      end ].

Lemma endpoints_named l : ∀ i, 0 ≤ i → i + Z.of_nat (length l) ≤ max_i64 → all_named (check_endpoints i l).
Proof.
  induction l as [|ep l IH]; intros i Hi Hl; [constructor|]. cbn [check_endpoints]. cbn [length] in Hl. apply all_named_and; [|apply IH; lia].
  destruct (validateZMQEndpoint ep) as [[text args]|]; [|constructor]. apply all_named_fail.
  apply (subscript_named "endpoints" "source.zmq" (FormatInt i));
    [vm_compute; reflexivity|reflexivity|reflexivity|by apply FormatInt_free| |vm_compute; reflexivity].
  rewrite ParseInt_FormatInt; [done|]. unfold is_i64, min_i64, max_i64 in *. lia.
Qed.

Context {U : UnicodeTables} {Q : UnicodePrint} {M : MapOrder} {T : TemplateEngine}.

Lemma ops_named (ops : gmap string string) : map_Forall (λ k _, free_of "." (strconv_Quote k) = true) ops →
  all_named (checks (λ kv : string * string, match Event.ParseOp kv.2 with
                  | Some _ => nothing
                  | None => fail ("codec.opMapping[" +:+ strconv_Quote kv.1 +:+ "]") "unknown op %q" [AString kv.2]
                  end) (range_map ops)).
Proof.
  intros Hops. apply all_named_checks. intros [k v] Hk%elem_of_range_map. cbn [fst snd]. destruct (Event.ParseOp v); [constructor|].
  apply all_named_fail. apply (subscript_named "opMapping" "codec" (strconv_Quote k));
    [vm_compute; reflexivity|reflexivity|reflexivity|by apply (Hops k v)| |vm_compute; reflexivity].
  unfold strconv_Quote. generalize (concat_strings (quote_rune <$> rune_chunks k) +:+ String (ascii_of 34) ""). intros rest.
    assert (ParseInt (String (ascii_of 34) rest) = None) as ->; [|done]. by unfold ParseInt.
Qed.

Lemma validate_all_named s :
  (∀ z, Source_ZMQ (Spec_Source s) = Some z → Z.of_nat (length (ZMQ_Endpoints z)) ≤ max_i64) →
  map_Forall (λ k _, free_of "." (strconv_Quote k) = true) (Codec_OpMapping (Spec_Codec s)) → all_named (validate_all s).
Proof.
  intros Hz Hops. unfold validate_all. apply all_named_and; [apply all_named_and; [apply all_named_and; [apply all_named_and|]|]|].
  - unfold validateSource. cbv zeta. destruct (negb _); [all_named|]. destruct (bool_decide _).
    + unfold validateZMQ. destruct (Source_ZMQ (Spec_Source s)) as [z|] eqn:Ez; [|all_named]. destruct (bool_decide _); [all_named|].
      repeat apply all_named_and; [apply endpoints_named; [done|by apply Hz]| |]; all_named.
    + unfold validateNATS, validateFile. all_named.
  - unfold validateCodec. cbv zeta. repeat apply all_named_and; [all_named| |by apply ops_named|all_named].
    apply all_named_checks. intros [k v] _. all_named.
  - unfold validateProjection. cbv zeta. all_named.
  - unfold validateTarget. cbv zeta. all_named.
  - unfold validatePolicy. cbv zeta. all_named.
Qed.

End paths.
