(* ===== verification/Sha256.v ===== *)
(** * Sha256: crypto/sha256

    The digest of FIPS 180-4 over bytes, as hash/sha256.Sum256 and a Hash that is
    written to compute it. *)
From Stdlib Require Import Ascii String.
From stdpp Require Import strings.
From S2P Require Import Prelude GoBase GoStrings.

Definition w32 (z : Z) : Z := z mod 2 ^ 32.
Definition rotr (n x : Z) : Z := Z.lor (Z.shiftr x n) (w32 (Z.shiftl x (32 - n))).

Definition big_sigma0 (x : Z) : Z := Z.lxor (rotr 2 x) (Z.lxor (rotr 13 x) (rotr 22 x)).
Definition big_sigma1 (x : Z) : Z := Z.lxor (rotr 6 x) (Z.lxor (rotr 11 x) (rotr 25 x)).
Definition small_sigma0 (x : Z) : Z := Z.lxor (rotr 7 x) (Z.lxor (rotr 18 x) (Z.shiftr x 3)).
Definition small_sigma1 (x : Z) : Z := Z.lxor (rotr 17 x) (Z.lxor (rotr 19 x) (Z.shiftr x 10)).
Definition choose (e f g : Z) : Z := Z.lxor (Z.land e f) (Z.land (2 ^ 32 - 1 - e) g).
Definition majority (a b c : Z) : Z := Z.lxor (Z.land a b) (Z.lxor (Z.land a c) (Z.land b c)).

(** The constants are the first bits of the fractional parts of the square and cube roots of the first primes. *)
Definition is_prime (n : Z) : bool := forallb (λ d, negb (n mod Z.of_nat d =? 0)) (seq 2 (Z.to_nat n - 2)).
Definition primes (bound : nat) : list Z := List.filter is_prime (Z.of_nat <$> seq 2 (bound - 2)).

(** The cube root, rounded down, one bit after another. *)
Fixpoint cube_root (bits : nat) (n r : Z) : Z :=
  match bits with
  | O => r
  | S bits => let r' := r + 2 ^ Z.of_nat bits in cube_root bits n (if r' * r' * r' <=? n then r' else r)
  end.

(** The 64th prime is 311 and the eighth is 19; their roots are below 2 ^ 36 at this scale. *)
Definition round_constants : list Z := Eval vm_compute in (λ p, w32 (cube_root 36 (p * 2 ^ 96) 0)) <$> primes 312.
Definition root_constants : list Z := Eval vm_compute in (λ p, w32 (Z.sqrt (p * 2 ^ 64))) <$> primes 20.

Record words := mkWords { wa : Z; wb : Z; wc : Z; wd : Z; we : Z; wf : Z; wg : Z; wh : Z }.

Definition to_state (l : list Z) : words :=
  let at_ i := default 0 (l !! i) in
  mkWords (at_ 0%nat) (at_ 1%nat) (at_ 2%nat) (at_ 3%nat) (at_ 4%nat) (at_ 5%nat) (at_ 6%nat) (at_ 7%nat).
Definition initial : words := Eval vm_compute in to_state root_constants.

(** The schedule, latest word first. *)
Fixpoint extend (n : nat) (w : list Z) : list Z :=
  match n with
  | O => w
  | S n =>
      let at_ i := default 0 (w !! i) in
      extend n (w32 (small_sigma1 (at_ 1%nat) + at_ 6%nat + small_sigma0 (at_ 14%nat) + at_ 15%nat) :: w)
  end.

Definition round (s : words) (kw : Z * Z) : words :=
  let t1 := wh s + big_sigma1 (we s) + choose (we s) (wf s) (wg s) + kw.1 + kw.2 in
  let t2 := big_sigma0 (wa s) + majority (wa s) (wb s) (wc s) in
  mkWords (w32 (t1 + t2)) (wa s) (wb s) (wc s) (w32 (wd s + t1)) (we s) (wf s) (wg s).

Definition block (s : words) (m : list Z) : words :=
  let r := foldl round s (zip round_constants (reverse (extend 48 (reverse m)))) in
  mkWords (w32 (wa s + wa r)) (w32 (wb s + wb r)) (w32 (wc s + wc r)) (w32 (wd s + wd r))
    (w32 (we s + we r)) (w32 (wf s + wf r)) (w32 (wg s + wg r)) (w32 (wh s + wh r)).

(** Big-endian bytes. *)
Fixpoint big_endian (n : nat) (z : Z) : list Z :=
  match n with O => [] | S n => Z.shiftr z (8 * Z.of_nat n) mod 256 :: big_endian n z end.

Fixpoint to_words (l : list Z) : list Z :=
  match l with
  | a :: b :: c :: d :: l => (((a * 256 + b) * 256 + c) * 256 + d) :: to_words l
  | _ => []
  end.

Definition padded (bytes : list Z) : list Z :=
  let n := Z.of_nat (length bytes) in
  bytes ++ [128] ++ replicate (Z.to_nat ((55 - n) mod 64)) 0 ++ big_endian 8 (8 * n).

Fixpoint blocks (fuel : nat) (s : words) (w : list Z) : words :=
  match fuel with
  | O => s
  | S fuel => match w with [] => s | _ => blocks fuel (block s (take 16 w)) (drop 16 w) end
  end.

(** The digest of a message, in bytes. A message has fewer blocks than bytes and one. *)
Definition digest (bytes : list Z) : list Z :=
  let s := blocks (S (length bytes)) initial (to_words (padded bytes)) in
  mjoin (big_endian 4 <$> [wa s; wb s; wc s; wd s; we s; wf s; wg s; wh s]).

Definition Sum256 (s : string) : string := string_of_list (ascii_of <$> digest (byte_of <$> list_of_string s)).

Lemma length_digest bytes : length (digest bytes) = 32%nat.
Proof. reflexivity. Qed.

Lemma length_Sum256 s : String.length (Sum256 s) = 32%nat.
Proof. reflexivity. Qed.

Example digest_of_abc : hex_EncodeToString (Sum256 "abc") = "ba7816bf8f01cfea414140de5dae2223b00361a396177a9cb410ff61f20015ad".
Proof. vm_compute. reflexivity. Qed.
Example digest_of_nothing : hex_EncodeToString (Sum256 "") = "e3b0c44298fc1c149afbf4c8996fb92427ae41e4649b934ca495991b7852b855".
Proof. vm_compute. reflexivity. Qed.
Example digest_of_two_blocks : hex_EncodeToString (Sum256 "abcdbcdecdefdefgefghfghighijhijkijkljklmklmnlmnomnopnopq")
  = "248d6a61d20638b8e5c026930c3e6039a33ce45964ff2167f6ecedd419db06c1".
Proof. vm_compute. reflexivity. Qed.
