(* ===== verification/ApiStatus.v ===== *)
(** * ApiStatus: the status of a resource (internal/controller/status.go)

    What a check says of itself, written onto the status of its object: the
    fields, the publishers in order, and one condition for every question. The
    list of conditions is kept by the Kubernetes libraries, behind a class. *)
From Stdlib Require Import String.
From stdpp Require Import strings pretty sorting.
From S2P Require Import Prelude GoBase GoFloat FloatFormat GoStrings GoFormat GoText.
From S2P Require Ingest CheckStatus Api.

Abbreviation Status := CheckStatus.Status (only parsing).

(** ** Reasons *)

Definition ReasonOracleSaturated : string := "OracleSaturated".
Definition ReasonWatching : string := "Watching".
Definition ReasonPaused : string := "Paused".
Definition ReasonDegraded : string := "Degraded".
Definition ReasonBootstrapping : string := "Bootstrapping".
Definition ReasonAwaitingSnapshot : string := "AwaitingSnapshot".
Definition ReasonSnapshotSeen : string := "SnapshotSeen".
Definition ReasonFailed : string := "Failed".
Definition ReasonConnected : string := "Connected".
Definition ReasonDisconnected : string := "Disconnected".
Definition ReasonReachable : string := "Reachable".
Definition ReasonUnreachable : string := "Unreachable".
Definition ReasonDriftConfirmed : string := "DriftConfirmed".
Definition ReasonNoDrift : string := "NoDrift".
Definition ReasonSaturated : string := "Saturated".
Definition ReasonWithinBudget : string := "WithinBudget".
Definition ReasonComplete : string := "Complete".
Definition ReasonGapsObserved : string := "GapsObserved".
Definition ReasonMultiWriter : string := "MultiWriterDetected".
Definition ReasonSingleWriter : string := "SingleWriterPerKey".
Definition ReasonCommutative : string := "Commutative".
Definition ReasonOrderDependent : string := "OrderDependent".
Definition ReasonIntervalTight : string := "SweepIntervalTight".
Definition ReasonIntervalAdequate : string := "SweepIntervalAdequate".

(** ** Numbers as text *)

(** strconv.FormatFloat(f, 'f', -1, 64) *)
Definition FormatFloat_f (f : float64) : string :=
  match f with
  | S754_nan => "NaN"
  | S754_infinity neg => if neg then "-Inf" else "+Inf"
  | S754_zero neg => if neg then "-0" else "0"
  | S754_finite neg m e =>
      let '(c, k) := shortest 53 1024 m e in
      let digits := pretty c in
      (if neg then "-" else "") +:+ fmtF digits (k + Z.of_nat (String.length digits))
  end.

Definition copysign (magnitude sign : float64) : float64 :=
  if SFltb sign (S754_zero false) then SFopp magnitude else magnitude.

Fixpoint power_of_ten (places : nat) (scale : float64) : float64 :=
  match places with O => scale | S n => power_of_ten n (float_mul scale (float_of_Z 10)) end.

Section numbers.
Context `{FloatOverflow}.

Definition round (v : float64) (places : nat) : float64 :=
  let scale := power_of_ten places (float_of_Z 1) in
  let rounded := float_of_Z (int64_of_float (float_add (float_mul v scale) (copysign (float_lit 1 2) v))) in
  float_div rounded scale.

Definition is_zero (v : float64) : bool := SFeqb v (S754_zero false).
Definition seconds (v : float64) : string := if is_zero v then "0" else FormatFloat_f (round v 3).
Definition ratio (v : float64) : string := if is_zero v then "0" else FormatFloat_f (round v 4).
End numbers.

(** ** Conditions *)

Definition find_condition (kind : string) (l : list Api.Condition) : option Api.Condition :=
  snd <$> list_find (λ c, Api.C_Type c = kind) l.

(** meta.SetStatusCondition, as documented: an existing condition of the type takes the new fields, and
    the new transition time where its status changes; a new one is added. *)
Class ConditionStore := { SetStatusCondition : list Api.Condition → Api.Condition → list Api.Condition }.

Definition with_transition (c : Api.Condition) (t : option Time) : Api.Condition :=
  Api.mkCondition (Api.C_Type c) (Api.C_Status c) (Api.C_ObservedGeneration c) t (Api.C_Reason c) (Api.C_Message c).

Definition merged (old : option Api.Condition) (c : Api.Condition) : Api.Condition :=
  match old with
  | Some o => if Bool.eqb (Api.C_Status o) (Api.C_Status c) then with_transition c (Api.C_LastTransitionTime o) else c
  | None => c
  end.

Class ConditionStoreLaws `{ConditionStore} : Prop := {
  set_finds : ∀ l c, is_Some (Api.C_LastTransitionTime c) →
    find_condition (Api.C_Type c) (SetStatusCondition l c) = Some (merged (find_condition (Api.C_Type c) l) c);
  set_keeps : ∀ l c kind, kind ≠ Api.C_Type c → find_condition kind (SetStatusCondition l c) = find_condition kind l
}.

Definition condition (kind : string) (ok : bool) (reason message : string) : Api.Condition :=
  Api.mkCondition kind ok 0 None reason message.

Definition reasonFor (ok : bool) (whenTrue whenFalse : string) : string := if ok then whenTrue else whenFalse.

(** setCondition, up to the call that stores it. *)
Definition stamped (c : Api.Condition) (generation : Z) (now : Time) : Api.Condition :=
  Api.mkCondition (Api.C_Type c) (Api.C_Status c) generation
    (match Api.C_LastTransitionTime c with Some t => Some t | None => Some now end)
    (Api.C_Reason c) (if bool_decide (Api.C_Message c = "") then Api.C_Reason c else Api.C_Message c).

Definition setCondition `{ConditionStore} (l : list Api.Condition) (c : Api.Condition) (generation : Z) (now : Time) : list Api.Condition :=
  SetStatusCondition l (stamped c generation now).

(** ** Messages *)

Definition degradedMessage (st : Status) : string :=
  if bool_decide (CheckStatus.Message st = "") then "running with an incomplete view; findings are reported as suspect"
  else CheckStatus.Message st.

Definition sourceMessage (st : Status) : string :=
  if CheckStatus.SourceConnected st then "subscribed; " +:+ FormatInt (CheckStatus.EventsApplied st) +:+ " events applied"
  else if bool_decide (CheckStatus.SourceLastError st = "") then "not subscribed"
  else "not subscribed: " +:+ CheckStatus.SourceLastError st.

Definition targetMessage (st : Status) : string :=
  if negb (CheckStatus.STargetReachable st) then "the target could not be reached; no new findings are being reported"
  else if bool_decide (CheckStatus.TargetRole st = "") then "reachable"
  else "reachable, role " +:+ CheckStatus.TargetRole st +:+ ", " +:+ FormatInt (CheckStatus.TargetKeyspaceSize st) +:+ " keys".

Definition driftMessage (st : Status) : string :=
  if (CheckStatus.DivergentKeys st =? 0) && (CheckStatus.SuspectDivergentKeys st =? 0) then "no divergence"
  else
    FormatInt (CheckStatus.DivergentKeys st) +:+ " confirmed divergent keys"
    +:+ (if 0 <? CheckStatus.SuspectDivergentKeys st
         then ", " +:+ FormatInt (CheckStatus.SuspectDivergentKeys st) +:+ " suspect (driftwatch's own view is incomplete; do not alert on these)"
         else "").

Definition saturationMessage (st : Status) (spec : option Api.DriftCheckSpec) : string :=
  if negb (CheckStatus.OracleSaturated st) then FormatInt (CheckStatus.TrackedKeys st) +:+ " keys tracked"
  else
    let limit := match spec with Some s => Api.Policy_MaxTrackedKeys (Api.Policy s) | None => 0 end in
    "the keyspace did not fit in policy.maxTrackedKeys (" +:+ FormatInt limit +:+ "): "
    +:+ FormatInt (CheckStatus.OracleEvictions st) +:+ " evictions, so every finding covers only part of the store".

(** The sum is of uint64. *)
Definition missingEvents (st : Status) : Z :=
  foldl (λ total p, u64 (total + CheckStatus.MissingEvents p)) 0 (CheckStatus.SPublishers st).

(** The first publisher that misses most. *)
Definition worst_publisher (st : Status) : string * Z :=
  foldl (λ w p, if w.2 <? CheckStatus.MissingEvents p then (CheckStatus.PsID p, CheckStatus.MissingEvents p) else w)
    ("", 0) (CheckStatus.SPublishers st).

Definition sequenceMessage (st : Status) (missing : Z) : string :=
  if missing =? 0 then "no gaps across " +:+ FormatInt (Z.of_nat (length (CheckStatus.SPublishers st))) +:+ " publishers"
  else let '(worst, count) := worst_publisher st in "publisher " +:+ worst +:+ ": " +:+ FormatInt count +:+ " missing events".

Definition snapshotMessage (st : Status) : string :=
  if CheckStatus.AwaitingSnapshot st then "waiting for a publisher to retransmit its state"
  else FormatInt (CheckStatus.SnapshotsSeen st) +:+ " snapshot cycles seen".

Definition multiWriterMessage `{UnicodePrint} (st : Status) : string :=
  if negb (CheckStatus.MultiWriterUnsafe st) then "each key is written by one publisher"
  else "more than one publisher writes " +:+ strconv_Quote (CheckStatus.MultiWriterKey st)
    +:+ " under an order-dependent projection, so findings on that keyspace reflect one arbitrary interleaving".

Definition commutativeMessage (commutative : bool) : string :=
  if commutative then "the projection's fold is order-independent"
  else "a counter that accepts absolute sets is not commutative, so a reordered stream converges to a different total".

Section status.
Context `{FloatOverflow} `{UnicodePrint} `{ConditionStore}.

Definition sweepIntervalTight (spec : Api.DriftCheckSpec) (st : Status) : bool :=
  let window := int64_of_float (float_mul (CheckStatus.SettlementWindowSeconds st) (float_of_Z time_Second)) in
  (0 <? window) && (Api.Policy_SweepInterval (Api.Policy spec) <? i64 (2 * window)).

Definition sweepIntervalMessage (spec : Api.DriftCheckSpec) (st : Status) (tight : bool) : string :=
  let interval := Duration_String (Api.Policy_SweepInterval (Api.Policy spec)) in
  let window := FormatFixed 1 (CheckStatus.SettlementWindowSeconds st) in
  if negb tight then "sweeping every " +:+ interval +:+ " against a " +:+ window +:+ "s window"
  else "sweepInterval (" +:+ interval +:+ ") is less than twice the settlement window (" +:+ window
    +:+ "s): candidates will still be awaiting confirmation when the next sweep raises them again".

(** ** The conditions of a status *)

Definition ready_condition (st : Status) : Api.Condition :=
  match CheckStatus.SPhase st with
  | Ingest.PhaseWatching => condition Api.ConditionReady true ReasonWatching "comparing the oracle against the target"
  | Ingest.PhasePaused => condition Api.ConditionReady true ReasonPaused "policy.paused is set: ingesting, not sweeping"
  | Ingest.PhaseDegraded => condition Api.ConditionReady true ReasonDegraded (degradedMessage st)
  | Ingest.PhaseBootstrapping | Ingest.PhasePending =>
      condition Api.ConditionReady false ReasonBootstrapping "building the oracle from the event stream"
  | Ingest.PhaseAwaitingSnapshot =>
      condition Api.ConditionReady false ReasonAwaitingSnapshot "bootstrap=Strict: nothing is asserted until a publisher retransmits"
  | Ingest.PhaseFailed => condition Api.ConditionReady false ReasonFailed (CheckStatus.Message st)
  end.

Definition projection_commutes (spec : Api.DriftCheckSpec) : bool :=
  let p := Api.Projection spec in negb (bool_decide (Api.Projection_Type p = "counter")) || Api.Projection_IncrOnly p.

(** What renderConditions sets, in order. *)
Definition conditions_of (st : Status) (spec : option Api.DriftCheckSpec) : list Api.Condition :=
  let drift := 0 <? CheckStatus.DivergentKeys st in
  let missing := missingEvents st in
  [ready_condition st;
   condition Api.ConditionSourceConnected (CheckStatus.SourceConnected st)
     (reasonFor (CheckStatus.SourceConnected st) ReasonConnected ReasonDisconnected) (sourceMessage st);
   condition Api.ConditionTargetAvailable (CheckStatus.STargetReachable st)
     (reasonFor (CheckStatus.STargetReachable st) ReasonReachable ReasonUnreachable) (targetMessage st);
   condition Api.ConditionDriftDetected drift (reasonFor drift ReasonDriftConfirmed ReasonNoDrift) (driftMessage st);
   condition Api.ConditionOracleSaturated (CheckStatus.OracleSaturated st)
     (reasonFor (CheckStatus.OracleSaturated st) ReasonSaturated ReasonWithinBudget) (saturationMessage st spec);
   condition Api.ConditionSequenceIntegrity (missing =? 0) (reasonFor (missing =? 0) ReasonComplete ReasonGapsObserved) (sequenceMessage st missing);
   condition Api.ConditionAwaitingSnapshot (CheckStatus.AwaitingSnapshot st)
     (reasonFor (CheckStatus.AwaitingSnapshot st) ReasonAwaitingSnapshot ReasonSnapshotSeen) (snapshotMessage st);
   condition Api.ConditionMultiWriterUnsafe (CheckStatus.MultiWriterUnsafe st)
     (reasonFor (CheckStatus.MultiWriterUnsafe st) ReasonMultiWriter ReasonSingleWriter) (multiWriterMessage st)]
  ++ match spec with
     | None => []
     | Some spec =>
         let commutative := projection_commutes spec in
         let tight := sweepIntervalTight spec st in
         [condition Api.ConditionProjectionNotCommutative (negb commutative)
            (reasonFor commutative ReasonCommutative ReasonOrderDependent) (commutativeMessage commutative);
          condition Api.ConditionSweepIntervalTight tight
            (reasonFor tight ReasonIntervalTight ReasonIntervalAdequate) (sweepIntervalMessage spec st tight)]
     end.

Definition renderConditions (l : list Api.Condition) (st : Status) (spec : option Api.DriftCheckSpec) (generation : Z) (now : Time) :
    list Api.Condition :=
  foldl (λ l c, setCondition l c generation now) l (conditions_of st spec).

(** ** The status *)

Definition id_le (a b : Api.PublisherStatus) : Prop := String.le (Api.P_ID a) (Api.P_ID b).
#[global] Instance id_le_dec a b : Decision (id_le a b) := _.

(** int64 of a uint64 wraps. *)
Definition render_publisher (p : CheckStatus.PublisherStatus) : Api.PublisherStatus :=
  Api.mkPublisher (CheckStatus.PsID p) (i64 (CheckStatus.PsEpoch p)) (i64 (CheckStatus.HighWaterMark p))
    (i64 (CheckStatus.MissingEvents p)) (i64 (CheckStatus.Restarts p))
    (seconds (CheckStatus.LastSeenSeconds p)) (seconds (CheckStatus.ClockSkewSeconds p)).

Definition renderPublishers (st : Status) : list Api.PublisherStatus :=
  merge_sort id_le (render_publisher <$> CheckStatus.SPublishers st).

Definition renderStatus (status : Api.DriftCheckStatus) (st : Status) (spec : option Api.DriftCheckSpec) (generation : Z) (now : Time) :
    Api.DriftCheckStatus :=
  Api.mkDriftCheckStatus
    (CheckStatus.Phase_String (CheckStatus.SPhase st)) generation (CheckStatus.Message st)
    (CheckStatus.DivergentKeys st) (CheckStatus.SuspectDivergentKeys st) (CheckStatus.DivergenceByCategory st)
    (seconds (CheckStatus.DriftDurationSeconds st))
    (CheckStatus.TrackedKeys st) (CheckStatus.SettledKeys st) (CheckStatus.InFlightKeys st)
    (ratio (CheckStatus.CoverageRatio st))
    (seconds (CheckStatus.SettlementWindowSeconds st)) (seconds (CheckStatus.ConvergenceP99Seconds st))
    (renderPublishers st)
    (if IsZero (CheckStatus.LastSweepTime st) then Api.LastSweepTime status else Some (CheckStatus.LastSweepTime st))
    (seconds (CheckStatus.LastSweepDurationSeconds st)) (CheckStatus.LastSweepKeysCompared st) (CheckStatus.SweepsSkipped st)
    (CheckStatus.STargetReachable st) (CheckStatus.TargetRole st) (CheckStatus.TargetKeyspaceSize st)
    (i64 (CheckStatus.EventsApplied st)) (i64 (CheckStatus.EventsDropped st))
    (renderConditions (Api.Conditions status) st spec generation now).
End status.

(** ** What a status says

    Every question has a condition that answers it as the check does, a condition
    keeps its transition time until its answer changes, and writing the same state
    of a check again changes nothing. *)

Section facts.
Context {FO : FloatOverflow} {UP : UnicodePrint} {CS : ConditionStore} {CL : ConditionStoreLaws}.
Implicit Types (l : list Api.Condition) (st : CheckStatus.Status).

Lemma set_finds_kind l c generation now :
  find_condition (Api.C_Type c) (setCondition l c generation now)
  = Some (merged (find_condition (Api.C_Type c) l) (stamped c generation now)).
Proof. unfold setCondition. change (Api.C_Type c) with (Api.C_Type (stamped c generation now)). apply set_finds. cbn. by destruct (Api.C_LastTransitionTime c). Qed.

Lemma set_keeps_kind l c generation now kind : kind ≠ Api.C_Type c →
  find_condition kind (setCondition l c generation now) = find_condition kind l.
Proof. intros Hk. by apply set_keeps. Qed.

Definition set_all (cs : list Api.Condition) l generation now : list Api.Condition :=
  foldl (λ l c, setCondition l c generation now) l cs.

Lemma set_all_other cs : ∀ l generation now kind, kind ∉ (Api.C_Type <$> cs) →
  find_condition kind (set_all cs l generation now) = find_condition kind l.
Proof.
  induction cs as [|c cs IH]; intros l generation now kind Hk; [done|]. rewrite fmap_cons, not_elem_of_cons in Hk. destruct Hk as [Hc Hcs].
  unfold set_all in *. cbn [foldl]. by rewrite IH, set_keeps_kind.
Qed.

Lemma set_all_finds cs : ∀ l generation now c, NoDup (Api.C_Type <$> cs) → c ∈ cs →
  find_condition (Api.C_Type c) (set_all cs l generation now)
  = Some (merged (find_condition (Api.C_Type c) l) (stamped c generation now)).
Proof.
  induction cs as [|c' cs IH]; intros l generation now c Hnd Hc; [by apply not_elem_of_nil in Hc|].
  rewrite fmap_cons, NoDup_cons in Hnd. destruct Hnd as [Hc' Hnd]. unfold set_all in *. cbn [foldl].
  apply elem_of_cons in Hc as [->|Hc].
  - pose proof (set_all_other cs (setCondition l c' generation now) generation now _ Hc') as E. unfold set_all in E. by rewrite E, set_finds_kind.
  - rewrite IH by done. rewrite set_keeps_kind; [done|]. intros E. apply Hc'. rewrite <- E. by apply list_elem_of_fmap_2.
Qed.

Lemma ready_kind st : Api.C_Type (ready_condition st) = Api.ConditionReady.
Proof. unfold ready_condition. by destruct (CheckStatus.SPhase st). Qed.

Lemma kinds_distinct st spec : NoDup (Api.C_Type <$> conditions_of st spec).
Proof.
  unfold conditions_of. cbv zeta. rewrite fmap_app. cbn [fmap list_fmap]. rewrite ready_kind.
  apply NoDup_ListNoDup. destruct spec; cbn; repeat constructor; cbn; intuition discriminate.
Qed.

Lemma render_finds st spec l generation now c : c ∈ conditions_of st spec →
  find_condition (Api.C_Type c) (renderConditions l st spec generation now)
  = Some (merged (find_condition (Api.C_Type c) l) (stamped c generation now)).
Proof. intros Hc. apply (set_all_finds (conditions_of st spec)); [apply kinds_distinct|done]. Qed.

Lemma render_keeps st spec l generation now kind : kind ∉ (Api.C_Type <$> conditions_of st spec) →
  find_condition kind (renderConditions l st spec generation now) = find_condition kind l.
Proof. apply (set_all_other (conditions_of st spec)). Qed.

(** A check that does what it was told is ready, a paused one included. *)
Definition ready (p : Ingest.Phase) : bool :=
  match p with Ingest.PhaseWatching | Ingest.PhasePaused | Ingest.PhaseDegraded => true | _ => false end.

(** The questions of a status, and how a check answers them. *)
Definition answers st (spec : option Api.DriftCheckSpec) : list (string * bool) :=
  [(Api.ConditionReady, ready (CheckStatus.SPhase st));
   (Api.ConditionSourceConnected, CheckStatus.SourceConnected st);
   (Api.ConditionTargetAvailable, CheckStatus.STargetReachable st);
   (Api.ConditionDriftDetected, 0 <? CheckStatus.DivergentKeys st);
   (Api.ConditionOracleSaturated, CheckStatus.OracleSaturated st);
   (Api.ConditionSequenceIntegrity, missingEvents st =? 0);
   (Api.ConditionAwaitingSnapshot, CheckStatus.AwaitingSnapshot st);
   (Api.ConditionMultiWriterUnsafe, CheckStatus.MultiWriterUnsafe st)]
  ++ match spec with
     | None => []
     | Some spec => [(Api.ConditionProjectionNotCommutative, negb (projection_commutes spec)); (Api.ConditionSweepIntervalTight, sweepIntervalTight spec st)]
     end.

Lemma conditions_answer st spec : (λ c, (Api.C_Type c, Api.C_Status c)) <$> conditions_of st spec = answers st spec.
Proof. unfold conditions_of, answers, ready_condition. destruct (CheckStatus.SPhase st), spec; reflexivity. Qed.

Lemma conditions_have_reasons st spec : Forall (λ c, Api.C_Reason c ≠ "") (conditions_of st spec).
Proof.
  unfold conditions_of, reasonFor, ready_condition. cbv zeta.
  destruct (CheckStatus.SPhase st), (CheckStatus.SourceConnected st), (CheckStatus.STargetReachable st), (0 <? CheckStatus.DivergentKeys st);
    (apply Forall_app; split; [|destruct spec; [|constructor]]);
    repeat (constructor; [cbn; repeat case_match; discriminate|]); constructor.
Qed.

(** C37: every question is answered: after a status is written every condition of the list is there, true or
    false as the check says, for the generation that was read, with a message, and with the time of its
    last change; other conditions are untouched; and confirmed and suspect keys stay apart. *)
Theorem every_question_is_answered status st spec generation now :
  let s := renderStatus status st spec generation now in
  (∀ kind ok, (kind, ok) ∈ answers st spec → ∃ c, find_condition kind (Api.Conditions s) = Some c
     ∧ Api.C_Status c = ok ∧ Api.C_ObservedGeneration c = generation ∧ Api.C_Message c ≠ ""
     ∧ Api.C_LastTransitionTime c = match find_condition kind (Api.Conditions status) with
         | Some o => if Bool.eqb (Api.C_Status o) ok then Api.C_LastTransitionTime o else Some now
         | None => Some now
         end)
  ∧ (∀ kind, kind ∉ (answers st spec).*1 → find_condition kind (Api.Conditions s) = find_condition kind (Api.Conditions status))
  ∧ Api.DivergentKeys s = CheckStatus.DivergentKeys st ∧ Api.SuspectDivergentKeys s = CheckStatus.SuspectDivergentKeys st.
Proof.
  intros s. split_and!; [|intros kind Hk; apply render_keeps; by rewrite <- conditions_answer, <- list_fmap_compose in Hk|done|done].
  intros kind ok Hin. rewrite <- conditions_answer in Hin. apply list_elem_of_fmap in Hin as (c & [= -> ->] & Hc).
  pose proof (render_finds st spec (Api.Conditions status) generation now c Hc) as Hf.
  exists (merged (find_condition (Api.C_Type c) (Api.Conditions status)) (stamped c generation now)). split; [exact Hf|].
  pose proof (conditions_have_reasons st spec) as Hr. rewrite Forall_forall in Hr. specialize (Hr c Hc).
  assert (Api.C_LastTransitionTime c = None) as Ht.
  { clear -Hc. unfold conditions_of, ready_condition in Hc. cbv zeta in Hc. destruct (CheckStatus.SPhase st), spec; cbn in Hc;
      repeat (apply elem_of_cons in Hc as [->|Hc]; [done|]); by apply not_elem_of_nil in Hc. }
  clear Hf. unfold merged. destruct (find_condition (Api.C_Type c) (Api.Conditions status)) as [o|];
    [destruct (Bool.eqb (Api.C_Status o) (Api.C_Status (stamped c generation now))) eqn:Eb|];
    cbn in *; rewrite ?Ht, ?Eb; split_and!; try done; by case_bool_decide.
Qed.

Lemma merged_settles old c t : merged (Some (merged old c)) (with_transition c t) = merged old c.
Proof. unfold merged. destruct old as [o|]; [destruct (Bool.eqb (Api.C_Status o) (Api.C_Status c)) eqn:E|]; cbn; by rewrite Bool.eqb_reflx; destruct c. Qed.

Definition without_conditions (s : Api.DriftCheckStatus) : Api.DriftCheckStatus :=
  Api.mkDriftCheckStatus (Api.Phase s) (Api.ObservedGeneration s) (Api.Message s) (Api.DivergentKeys s) (Api.SuspectDivergentKeys s)
    (Api.DivergenceByCategory s) (Api.DriftDurationSeconds s) (Api.TrackedKeys s) (Api.SettledKeys s) (Api.InFlightKeys s)
    (Api.CoverageRatio s) (Api.SettlementWindowSeconds s) (Api.ConvergenceP99Seconds s) (Api.Publishers s) (Api.LastSweepTime s)
    (Api.LastSweepDurationSeconds s) (Api.LastSweepKeysCompared s) (Api.SweepsSkipped s) (Api.TargetReachable s) (Api.TargetRole s)
    (Api.TargetKeyspaceSize s) (Api.EventsApplied s) (Api.EventsDropped s) [].

(** a steady check writes nothing new: rendering the same state again, at any later time, changes no field
    and no condition, the transition times included. *)
Theorem steady_status_is_stable status st spec generation now later :
  let once := renderStatus status st spec generation now in
  let twice := renderStatus once st spec generation later in
  without_conditions twice = without_conditions once
  ∧ ∀ kind, find_condition kind (Api.Conditions twice) = find_condition kind (Api.Conditions once).
Proof.
  intros once twice. split.
  - unfold twice, once, renderStatus, without_conditions. cbn. by destruct (IsZero (CheckStatus.LastSweepTime st)).
  - intros kind. destruct (decide (kind ∈ (Api.C_Type <$> conditions_of st spec))) as [Hk|Hk].
    + apply list_elem_of_fmap in Hk as (c & -> & Hc). unfold twice. cbn [Api.Conditions renderStatus].
      rewrite (render_finds st spec _ generation later c Hc). unfold once. cbn [Api.Conditions renderStatus].
      rewrite (render_finds st spec _ generation now c Hc). f_equal.
      assert (∃ t, stamped c generation later = with_transition (stamped c generation now) t) as [t ->]
        by (by exists (Api.C_LastTransitionTime (stamped c generation later))).
      apply merged_settles.
    + by apply render_keeps.
Qed.

(** The publishers of a status are those of the check, in the order of their names. *)
Lemma publishers_in_order st : renderPublishers st ≡ₚ (render_publisher <$> CheckStatus.SPublishers st) ∧ StronglySorted id_le (renderPublishers st).
Proof.
  split; [apply merge_sort_Permutation|]. apply StronglySorted_merge_sort.
  - intros a b c. unfold id_le. apply transitivity.
  - intros a b. unfold id_le. apply total, _.
Qed.
End facts.
