(* ===== verification/Transitions.v ===== *)
(** * Transitions: the events of the operator (internal/controller/events.go)

    What each check looked like when it was last reconciled, and the events that
    say how it changed. *)
From Stdlib Require Import String.
From stdpp Require Import strings pretty.
From S2P Require Import Prelude GoBase GoFloat GoStrings GoFormat ApiStatus.
From S2P Require CheckStatus Api.

(** ** Reasons *)

Definition ReasonBootstrapComplete : string := "BootstrapComplete".
Definition ReasonDriftDetected : string := "DriftDetected".
Definition ReasonDriftResolved : string := "DriftResolved".
Definition ReasonSourceDisconnected : string := "SourceDisconnected".
Definition ReasonSourceReconnected : string := "SourceReconnected".
Definition ReasonTargetUnavailable : string := "TargetUnavailable".
Definition ReasonTargetAvailable : string := "TargetAvailable".
Definition ReasonPublisherRestart : string := "PublisherRestart".
Definition ReasonSecretMissing : string := "SecretMissing".
Definition ReasonStartFailed : string := "StartFailed".

(** ** Observations *)

Record observed := mkObserved {
  seen : bool;
  bootstrapped : bool;
  divergentKeys : Z;
  sourceConnected : bool;
  targetReachable : bool;
  oracleSaturated : bool;
  restarts : gmap string Z
}.

(** The tracker: the last observation of every check, by the key of its object. *)
Definition tracker : Type := gmap string observed.

Definition newTransitionTracker : tracker := ∅.
Definition forget (t : tracker) (key : string) : tracker := delete key t.

Definition unseen (o : observed) : observed :=
  mkObserved false (bootstrapped o) (divergentKeys o) (sourceConnected o) (targetReachable o) (oracleSaturated o) (restarts o).

(** record of the tracker: the new observations, and what the check looked like before. *)
Definition record_observation (t : tracker) (key : string) (next : observed) : tracker * observed :=
  (<[key := next]> t, match t !! key with Some previous => previous | None => unseen next end).

Definition publisherRestarts (st : Status) : gmap string Z :=
  foldl (λ m p, <[CheckStatus.PsID p := i64 (CheckStatus.Restarts p)]> m) ∅ (CheckStatus.SPublishers st).

(** An event: its reason, whether it is a warning, and its text. *)
Record Event := mkEvent { Reason : string; Warning : bool; Text : string }.

Definition orUnknown (s : string) : string := if bool_decide (s = "") then "no error reported" else s.

Definition emitRestarts (st : Status) (previous : observed) : list Event :=
  if negb (seen previous) then []
  else
    omap (λ p : CheckStatus.PublisherStatus,
      let count := i64 (CheckStatus.Restarts p) in
      if count <=? default 0 (restarts previous !! CheckStatus.PsID p) then None
      else Some (mkEvent ReasonPublisherRestart true
        ("publisher " +:+ CheckStatus.PsID p +:+ " restarted (epoch " +:+ FormatInt (CheckStatus.PsEpoch p) +:+ ", restart " +:+ FormatInt count
         +:+ "); its keys are suspect until it retransmits"))) (CheckStatus.SPublishers st).

Definition observe (st : Status) : observed :=
  mkObserved true (CheckStatus.Bootstrapped st) (CheckStatus.DivergentKeys st) (CheckStatus.SourceConnected st)
    (CheckStatus.STargetReachable st) (CheckStatus.OracleSaturated st) (publisherRestarts st).

(** The events of a change, in order. *)
Definition bootstrap_events (st : Status) (previous : observed) : list Event :=
  if CheckStatus.Bootstrapped st && negb (bootstrapped previous) then
    [mkEvent ReasonBootstrapComplete false ("oracle ready: " +:+ FormatInt (CheckStatus.TrackedKeys st) +:+ " keys tracked, comparing against the target")]
  else [].

Definition drift_events (st : Status) (previous : observed) : list Event :=
  if divergentKeys previous <? CheckStatus.DivergentKeys st then
    [mkEvent ReasonDriftDetected true
       (FormatInt (CheckStatus.DivergentKeys st) +:+ " confirmed divergent keys (was " +:+ FormatInt (divergentKeys previous) +:+ ")")]
  else if (CheckStatus.DivergentKeys st =? 0) && (0 <? divergentKeys previous) then
    [mkEvent ReasonDriftResolved false ("divergence resolved: " +:+ FormatInt (divergentKeys previous) +:+ " keys agree again")]
  else [].

Definition source_events (st : Status) (previous : observed) : list Event :=
  if seen previous && negb (Bool.eqb (CheckStatus.SourceConnected st) (sourceConnected previous)) then
    if CheckStatus.SourceConnected st then
      [mkEvent ReasonSourceReconnected false ("event subscription re-established after " +:+ FormatInt (CheckStatus.SourceReconnects st) +:+ " reconnects")]
    else
      [mkEvent ReasonSourceDisconnected true
         ("event subscription lost: " +:+ orUnknown (CheckStatus.SourceLastError st) +:+ "; keys will go stale while it is down")]
  else [].

Definition target_events (st : Status) (previous : observed) : list Event :=
  if seen previous && negb (Bool.eqb (CheckStatus.STargetReachable st) (targetReachable previous)) then
    if CheckStatus.STargetReachable st then [mkEvent ReasonTargetAvailable false "target reachable again; comparison resumed"]
    else
      [mkEvent ReasonTargetUnavailable true
         "target unreachable: nothing is being compared, and the reported counts are the last ones driftwatch actually knew"]
  else [].

Definition saturation_events (st : Status) (previous : observed) : list Event :=
  if CheckStatus.OracleSaturated st && negb (oracleSaturated previous) then
    [mkEvent ReasonOracleSaturated true
       ("the keyspace did not fit in policy.maxTrackedKeys: " +:+ FormatInt (CheckStatus.OracleEvictions st)
        +:+ " evictions, so every finding now covers only part of the store")]
  else [].

(** emitTransitions, where a recorder is configured; without one the events go nowhere. *)
Definition emitTransitions (t : tracker) (key : string) (st : Status) : tracker * list Event :=
  let '(t, previous) := record_observation t key (observe st) in
  (t, bootstrap_events st previous ++ drift_events st previous ++ source_events st previous ++ target_events st previous
      ++ saturation_events st previous ++ emitRestarts st previous).

(** A check reconciled again and again: the events of each. *)
Fixpoint emit_all (t : tracker) (key : string) (l : list Status) : tracker * list (list Event) :=
  match l with
  | [] => (t, [])
  | st :: l =>
      let '(t, es) := emitTransitions t key st in
      let '(t, ess) := emit_all t key l in
      (t, es :: ess)
  end.

(** ** What the events tell *)

(** A reader of the events: whether there is drift, whether the source is connected and the store reachable. *)
Record picture := mkPicture { drifting : bool; connected : bool; reachable : bool }.

Definition see (p : picture) (e : Event) : picture :=
  if decide (Reason e = ReasonDriftDetected) then mkPicture true (connected p) (reachable p)
  else if decide (Reason e = ReasonDriftResolved) then mkPicture false (connected p) (reachable p)
  else if decide (Reason e = ReasonSourceReconnected) then mkPicture (drifting p) true (reachable p)
  else if decide (Reason e = ReasonSourceDisconnected) then mkPicture (drifting p) false (reachable p)
  else if decide (Reason e = ReasonTargetAvailable) then mkPicture (drifting p) (connected p) true
  else if decide (Reason e = ReasonTargetUnavailable) then mkPicture (drifting p) (connected p) false
  else p.

Definition picture_of (o : observed) : picture := mkPicture (0 <? divergentKeys o) (sourceConnected o) (targetReachable o).

(** ** Lemmas *)

Lemma restarts_known st p : NoDup (CheckStatus.PsID <$> CheckStatus.SPublishers st) → p ∈ CheckStatus.SPublishers st →
  publisherRestarts st !! CheckStatus.PsID p = Some (i64 (CheckStatus.Restarts p)).
Proof.
  unfold publisherRestarts. generalize (∅ : gmap string Z). induction (CheckStatus.SPublishers st) as [|q l IH]; intros m Hnd Hp; [by apply not_elem_of_nil in Hp|].
  rewrite fmap_cons, NoDup_cons in Hnd. destruct Hnd as [Hq Hnd]. cbn [foldl]. apply elem_of_cons in Hp as [->|Hp]; [|by apply IH].
  clear IH Hnd. revert m. induction l as [|r l IH]; intros m; cbn [foldl]; [by rewrite lookup_insert_eq|].
  rewrite fmap_cons, not_elem_of_cons in Hq. destruct Hq as [Hr Hq].
  rewrite insert_insert_ne by done. by apply IH.
Qed.

(** Nothing is emitted of a state like the one before. *)
Lemma no_change_no_event st : NoDup (CheckStatus.PsID <$> CheckStatus.SPublishers st) → ∀ previous,
  previous = observe st ∨ previous = unseen (observe st) →
  bootstrap_events st previous ++ drift_events st previous ++ source_events st previous ++ target_events st previous
    ++ saturation_events st previous ++ emitRestarts st previous = [].
Proof.
  intros Hnd previous Hp.
  assert (bootstrapped previous = CheckStatus.Bootstrapped st ∧ divergentKeys previous = CheckStatus.DivergentKeys st
    ∧ sourceConnected previous = CheckStatus.SourceConnected st ∧ targetReachable previous = CheckStatus.STargetReachable st
    ∧ oracleSaturated previous = CheckStatus.OracleSaturated st) as (E1 & E2 & E3 & E4 & E5) by (by destruct Hp as [->| ->]).
  assert (emitRestarts st previous = []) as ->.
  { unfold emitRestarts. destruct Hp as [->| ->]; [|done]. cbn [seen observe negb restarts].
    assert (∀ l, (∀ p, p ∈ l → p ∈ CheckStatus.SPublishers st) → omap (λ p : CheckStatus.PublisherStatus,
      let count := i64 (CheckStatus.Restarts p) in
      if count <=? default 0 (publisherRestarts st !! CheckStatus.PsID p) then None
      else Some (mkEvent ReasonPublisherRestart true
        ("publisher " +:+ CheckStatus.PsID p +:+ " restarted (epoch " +:+ FormatInt (CheckStatus.PsEpoch p) +:+ ", restart " +:+ FormatInt count
         +:+ "); its keys are suspect until it retransmits"))) l = []) as H; [|by apply H].
    induction l as [|p l IH]; intros Hl; [done|]. cbn [omap list_omap]. rewrite (restarts_known st p Hnd) by (apply Hl; by left).
    cbn [from_option id]. rewrite Z.leb_refl. apply IH. intros q Hq. apply Hl. by right. }
  unfold bootstrap_events, drift_events, source_events, target_events, saturation_events.
  rewrite E1, E2, E3, E4, E5, !Bool.eqb_reflx, andb_negb_r, Z.ltb_irrefl, andb_negb_r, !andb_false_r. cbn [app].
  by destruct (Z.eqb_spec (CheckStatus.DivergentKeys st) 0) as [->|].
Qed.

(** no news is no event: the first observation of a check, a manager that restarted included, and an
    observation like the last emit nothing. *)
Theorem steady_checks_are_silent t key st : NoDup (CheckStatus.PsID <$> CheckStatus.SPublishers st) →
  t !! key = None ∨ t !! key = Some (observe st) →
  emitTransitions t key st = (<[key := observe st]> t, []).
Proof.
  intros Hnd Hk. unfold emitTransitions, record_observation. rewrite no_change_no_event; [done|done|].
  destruct Hk as [->| ->]; [by right|by left].
Qed.

Lemma emit_records t key st : (emitTransitions t key st).1 = <[key := observe st]> t.
Proof. done. Qed.

Lemma see_nothing p es : Forall (λ e, Reason e ∈ [ReasonBootstrapComplete; ReasonOracleSaturated; ReasonPublisherRestart]) es → foldl see p es = p.
Proof.
  induction 1 as [|e es He Hes IH]; [done|]. cbn [foldl]. assert (see p e = p) as ->; [|done]. unfold see.
  repeat (apply elem_of_cons in He as [->|He]; [done|]). by apply not_elem_of_nil in He.
Qed.

Lemma restarts_unseen st previous p : foldl see p (emitRestarts st previous) = p.
Proof.
  apply see_nothing. unfold emitRestarts. destruct (negb _); [constructor|]. apply Forall_forall. intros e He.
  apply list_elem_of_omap in He as (q & _ & Hq). cbv zeta in Hq. destruct (_ <=? _); [done|]. injection Hq as <-. cbn. set_solver.
Qed.

(** The events of one reconcile carry a reader from the picture before to the picture now. *)
Lemma events_tell_the_change st previous : seen previous = true → 0 ≤ divergentKeys previous → 0 ≤ CheckStatus.DivergentKeys st →
  foldl see (picture_of previous)
    (bootstrap_events st previous ++ drift_events st previous ++ source_events st previous ++ target_events st previous
     ++ saturation_events st previous ++ emitRestarts st previous) = picture_of (observe st).
Proof.
  intros Hs Hp Hd. rewrite !foldl_app, restarts_unseen.
  assert (∀ p, foldl see p (bootstrap_events st previous) = p) as ->.
  { intros p. apply see_nothing. unfold bootstrap_events. destruct (_ && _); constructor; [cbn; set_solver|constructor]. }
  assert (∀ p, foldl see p (saturation_events st previous) = p) as ->.
  { intros p. apply see_nothing. unfold saturation_events. destruct (_ && _); constructor; [cbn; set_solver|constructor]. }
  assert (foldl see (picture_of previous) (drift_events st previous)
    = mkPicture (0 <? CheckStatus.DivergentKeys st) (sourceConnected previous) (targetReachable previous)) as ->.
  { unfold drift_events. destruct (Z.ltb_spec (divergentKeys previous) (CheckStatus.DivergentKeys st)).
    - rewrite (proj2 (Z.ltb_lt 0 (CheckStatus.DivergentKeys st))) by lia. reflexivity.
    - destruct (Z.eqb_spec (CheckStatus.DivergentKeys st) 0) as [E|Hne]; cbn [andb].
      + rewrite E. destruct (Z.ltb_spec 0 (divergentKeys previous)); [reflexivity|]. unfold picture_of. by rewrite (proj2 (Z.ltb_ge _ _)) by lia.
      + unfold picture_of. cbn [foldl]. by rewrite !(proj2 (Z.ltb_lt 0 _)) by lia. }
  unfold source_events, target_events. rewrite Hs. cbn [andb].
  by destruct (CheckStatus.SourceConnected st) eqn:E1, (sourceConnected previous), (CheckStatus.STargetReachable st) eqn:E2, (targetReachable previous);
    cbn; unfold picture_of, observe; cbn; rewrite ?E1, ?E2.
Qed.

Lemma emit_all_tells key l : ∀ t previous, t !! key = Some previous → seen previous = true → 0 ≤ divergentKeys previous →
  Forall (λ st : Status, 0 ≤ CheckStatus.DivergentKeys st) l →
  foldl see (picture_of previous) (concat (emit_all t key l).2) = picture_of (default previous (observe <$> last l)).
Proof.
  induction l as [|st l IH]; intros t previous Hk Hs Hp Hl; [done|]. inversion Hl as [|?? Hst Hl']; subst. cbn [emit_all].
  unfold emitTransitions, record_observation. rewrite Hk.
  destruct (emit_all (<[key := observe st]> t) key l) as [t' ess] eqn:E. cbn [snd concat]. rewrite foldl_app, events_tell_the_change by done.
  specialize (IH (<[key := observe st]> t) (observe st)). rewrite E in IH. cbn [snd] in IH. rewrite IH; [|apply lookup_insert_eq|done|done|done].
  rewrite last_cons. by destruct (last l).
Qed.

