(* ===== verification/Reconcile.v ===== *)
(** * Reconcile: from an object to a running check (internal/controller/driftcheck_controller.go, SpecHash of runner.go)

    One reconcile of a DriftCheck: what it asks of the API server, of the registry
    of runners and of the recorder, in order, and what it returns. The API server
    and the registry answer through a world; the registry itself is Runners, the
    status ApiStatus, the events Transitions. *)
From Stdlib Require Import String.
From stdpp Require Import strings pretty sorting.
From S2P Require Import Prelude GoBase GoFloat GoStrings GoFormat GoText Event Projection Differ Spec Config Conversion ApiStatus Transitions.
From S2P Require Ingest CheckStatus Api Runners Sha256.

(** ** SpecHash *)

(** json.Marshal of a specification; the text of a duration is the method of the Kubernetes libraries. *)
Class SpecEncoder := { json_Marshal : Api.DriftCheckSpec → option string }.

Definition hashLength : nat := 32.

Definition with_paused (b : bool) (s : Api.DriftCheckSpec) : Api.DriftCheckSpec :=
  let p := Api.Policy s in
  Api.mkDriftCheckSpec (Api.Source s) (Api.Codec s) (Api.Projection s) (Api.Target s)
    (Api.mkPolicy (Api.Policy_SettlementWindow p) (Api.Policy_SweepInterval p) (Api.Policy_ExtraScanInterval p) (Api.Policy_ReorderWindow p)
       (Api.Policy_Bootstrap p) (Api.Policy_ExpiryPolicy p) (Api.Policy_AssumedTTL p) (Api.Policy_TTLTolerance p) (Api.Policy_RequirePrimary p)
       (Api.Policy_MaxTrackedKeys p) (Api.Policy_RingSize p) (Api.Policy_MaxConfirmQueue p) (Api.Policy_MaxFindings p)
       (Api.Policy_MaxExtrasTracked p) (Api.Policy_MaxPublishers p) (Api.Policy_OracleShards p) (Api.Policy_NeverSettledThreshold p) b)
    (Api.Alert s).

(** What is written to the digest. *)
Definition hashed_secrets (secrets : gmap string string) (fields : list string) : string :=
  concat_strings ((λ field, field +:+ Sha256.Sum256 (default "" (secrets !! field))) <$> fields).

Definition hash_input `{MapOrder} (encoded : string) (secrets : gmap string string) : string :=
  encoded +:+ hashed_secrets secrets (sort_Strings (range_map secrets).*1).

Definition SpecHash `{MapOrder} `{SpecEncoder} (spec : Api.DriftCheckSpec) (secrets : gmap string string) : option string :=
  encoded ← json_Marshal (with_paused false spec);
  Some (string_take hashLength (hex_EncodeToString (Sha256.Sum256 (hash_input encoded secrets)))).

(** ** The world of a reconcile *)

(** A read of the API server. *)
Inductive lookup (A : Type) := Found (a : A) | NotFound | Unreadable (text : string).
#[global] Arguments Found {A} _.
#[global] Arguments NotFound {A}.
#[global] Arguments Unreadable {A} _.

Inductive patch_answer := Patched | Conflict | PatchNotFound | PatchFailed (text : string).

(** What it answers: the object, the patch of the finalizers, a secret by its name, the calls of the
    registry, the runner there is, and each attempt at the status. *)
Record world := mkWorld {
  w_get : lookup Api.DriftCheck;
  w_finalizers : patch_answer;
  w_secret : string → lookup (gmap string string);
  w_ensure : string → Spec → Runners.failure + Runners.Action * Duration;
  w_stop : option string;
  w_running : option (option string * Status);
  w_status : nat → lookup Api.DriftCheck * patch_answer;
  w_now : Time
}.

(** What a reconcile does, in order. *)
Inductive effect :=
  | DidStop (key : string)
  | DidForget (key : string)
  | DidPatchFinalizers (l : list string)
  | DidEnsure (key hash : string) (spec : Spec)
  | DidEmit (e : Event)
  | DidWriteStatus (s : Api.DriftCheckStatus).

(** controllerutil: the list of finalizers of an object. *)
Class FinalizerOps := { AddFinalizer : list string → string → list string; RemoveFinalizer : list string → string → list string }.
Class FinalizerLaws `{FinalizerOps} : Prop := {
  add_adds : ∀ l f g, g ∈ AddFinalizer l f ↔ g = f ∨ g ∈ l;
  remove_removes : ∀ l f g, g ∈ RemoveFinalizer l f ↔ g ≠ f ∧ g ∈ l
}.

Definition ContainsFinalizer (dc : Api.DriftCheck) : bool := bool_decide (Api.Finalizer ∈ Api.Finalizers dc).

Record Reconciler := mkReconciler { StatusRefreshInterval : Duration; SecretRetryInterval : Duration; has_recorder : bool }.

Definition DefaultStatusRefreshInterval : Duration := 15 * time_Second.
Definition DefaultSecretRetryInterval : Duration := 30 * time_Second.

Definition applyDefaults (r : Reconciler) : Reconciler :=
  mkReconciler (positive_or DefaultStatusRefreshInterval (StatusRefreshInterval r))
    (positive_or DefaultSecretRetryInterval (SecretRetryInterval r)) (has_recorder r).

(** A reconcile returns when to come back, or an error. *)
Definition outcome : Type := Duration + string.

Section reconcile.
Context `{FloatOverflow} `{UnicodePrint} `{ConditionStore} `{MapOrder} `{SpecEncoder} `{FinalizerOps}.
(** How often retry.DefaultRetry attempts. *)
Variable retry_steps : nat.
Variable registry : Runners.RegistryOptions.

Definition object_key (dc : Api.DriftCheck) : string := Api.Namespace dc +:+ "/" +:+ Api.Name dc.

(** record: an event goes to the recorder, if there is one. *)
Definition record (r : Reconciler) (es : list Event) : list effect := if has_recorder r then DidEmit <$> es else [].

(** ** Secrets *)

(** The loop of resolveSecrets over the references; what reading one of them gives. *)
Definition resolve_one (w : world) (path : string) (ref : Api.SecretKeyRef) : string + string :=
  match w_secret w (Api.SecretName ref) with
  | NotFound => inl (path +:+ ": secret " +:+ strconv_Quote (Api.SecretName ref) +:+ " not found")
  | Unreadable text => inl (path +:+ ": reading secret " +:+ strconv_Quote (Api.SecretName ref) +:+ ": " +:+ text)
  | Found data =>
      match data !! Api.SecretKey ref with
      | Some value => inr value
      | None => inl (path +:+ ": secret " +:+ strconv_Quote (Api.SecretName ref) +:+ " has no key " +:+ strconv_Quote (Api.SecretKey ref))
      end
  end.

Fixpoint resolve_all (w : world) (refs : list (string * Api.SecretKeyRef)) (out : gmap string string) : string + gmap string string :=
  match refs with
  | [] => inr out
  | (path, ref) :: refs => match resolve_one w path ref with inl err => inl err | inr value => resolve_all w refs (<[path := value]> out) end
  end.

Definition resolveSecrets (w : world) (dc : Api.DriftCheck) : string + gmap string string :=
  resolve_all w (range_map (Api.SecretRefs (Api.Spec dc))) ∅.

Definition applySecrets (s : Spec) (secrets : gmap string string) : Spec :=
  match secrets !! "target.redis.passwordSecretRef", Target_Redis (Spec_Target s) with
  | Some password, Some r =>
      let t := Spec_Target s in
      mkSpec (Spec_Name s) (Spec_Namespace s) (Spec_Source s) (Spec_Codec s) (Spec_Projection s)
        (mkTargetSpec (Target_Type t)
           (Some (mkRedis (Redis_Mode r) (Redis_Addr r) (Redis_Addrs r) (Redis_MasterName r) (Redis_DB r) (Redis_Username r) password
                    (Redis_PasswordSecretRef r) (Redis_TLS r) (Redis_KeyPattern r) (Redis_ReadBatchSize r) (Redis_ScanCount r)
                    (Redis_DialTimeout r) (Redis_ReadTimeout r) (Redis_PoolSize r))) (Target_Settings t))
        (Spec_Policy s) (Spec_Alert s)
  | _, _ => s
  end.

(** ** The status *)

(** The attempts of patchStatus: the object is read again on each; [None] is a nil error. *)
Fixpoint attempt_status (steps : nat) (i : nat) (w : world) (mutate : Api.DriftCheckStatus → Api.DriftCheckStatus) : list effect * option string :=
  match steps with
  | O => ([], Some "the object has been modified")
  | S steps =>
      let '(got, answer) := w_status w i in
      match got with
      | NotFound => ([], None)
      | Unreadable text => ([], Some text)
      | Found latest =>
          match answer with
          | Patched => ([DidWriteStatus (mutate (Api.Status latest))], None)
          | Conflict => attempt_status steps (S i) w mutate
          | PatchNotFound => ([], None)
          | PatchFailed text => ([], Some text)
          end
      end
  end.

Definition patchStatus (w : world) (dc : Api.DriftCheck) (mutate : Api.DriftCheckStatus → Api.DriftCheckStatus) : list effect * option string :=
  let '(es, err) := attempt_status retry_steps 0 w mutate in
  (es, (λ text, "patching status of " +:+ object_key dc +:+ ": " +:+ text) <$> err).

(** The status of a check that cannot be run: secretFailure and startFailure. *)
Definition failed_status (reason : string) (cause : string) (generation : Z) (now : Time) (s : Api.DriftCheckStatus) : Api.DriftCheckStatus :=
  Api.mkDriftCheckStatus (CheckStatus.Phase_String Ingest.PhaseFailed) generation cause (Api.DivergentKeys s) (Api.SuspectDivergentKeys s)
    (Api.DivergenceByCategory s) (Api.DriftDurationSeconds s) (Api.TrackedKeys s) (Api.SettledKeys s) (Api.InFlightKeys s)
    (Api.CoverageRatio s) (Api.SettlementWindowSeconds s) (Api.ConvergenceP99Seconds s) (Api.Publishers s) (Api.LastSweepTime s)
    (Api.LastSweepDurationSeconds s) (Api.LastSweepKeysCompared s) (Api.SweepsSkipped s) (Api.TargetReachable s) (Api.TargetRole s)
    (Api.TargetKeyspaceSize s) (Api.EventsApplied s) (Api.EventsDropped s)
    (setCondition (Api.Conditions s) (condition Api.ConditionReady false reason cause) generation now).

Definition report_failure (r : Reconciler) (w : world) (dc : Api.DriftCheck) (reason cause : string) : list effect * outcome :=
  let '(es, err) := patchStatus w dc (failed_status reason cause (Api.Generation dc) (w_now w)) in
  (record r [mkEvent reason true cause] ++ es, match err with Some text => inr text | None => inl (SecretRetryInterval r) end).

Definition secretFailure (r : Reconciler) (w : world) (dc : Api.DriftCheck) (cause : string) : list effect * outcome :=
  report_failure r w dc ReasonSecretMissing cause.
Definition startFailure (r : Reconciler) (w : world) (dc : Api.DriftCheck) (cause : string) : list effect * outcome :=
  report_failure r w dc ReasonStartFailed cause.

Definition failed_as (text : string) (s : Status) : Status :=
  CheckStatus.mkStatus Ingest.PhaseFailed text (CheckStatus.TrackedKeys s) (CheckStatus.SettledKeys s) (CheckStatus.InFlightKeys s)
    (CheckStatus.SuspectKeys s) (CheckStatus.AdoptedKeys s) (CheckStatus.SNeverSettled s) (CheckStatus.OracleSaturated s)
    (CheckStatus.SnapshotsSeen s) (CheckStatus.AwaitingSnapshot s) (CheckStatus.ReorderHeld s) (CheckStatus.MultiWriterUnsafe s)
    (CheckStatus.MultiWriterKey s) (CheckStatus.OracleEvictions s) (CheckStatus.CoverageRatio s) (CheckStatus.DivergentKeys s)
    (CheckStatus.SuspectDivergentKeys s) (CheckStatus.DivergenceByCategory s) (CheckStatus.DriftDurationSeconds s)
    (CheckStatus.EventsApplied s) (CheckStatus.EventsDropped s) (CheckStatus.BytesReceived s) (CheckStatus.GapSignals s)
    (CheckStatus.SettlementWindowSeconds s) (CheckStatus.ConvergenceP99Seconds s) (CheckStatus.WindowIsAdaptive s)
    (CheckStatus.SPublishers s) (CheckStatus.LastSweepTime s) (CheckStatus.LastSweepDurationSeconds s) (CheckStatus.LastSweepKeysCompared s)
    (CheckStatus.SweepsSkipped s) (CheckStatus.STargetReachable s) (CheckStatus.TargetRole s) (CheckStatus.TargetKeyspaceSize s)
    (CheckStatus.SourceConnected s) (CheckStatus.SourceReconnects s) (CheckStatus.SourceLastError s) (CheckStatus.Bootstrapped s).

(** Runner.Status: a runner that died says so. *)
Definition runner_status (runErr : option string) (st : Status) : Status :=
  match runErr with None => st | Some text => failed_as text st end.

Definition updateStatus (r : Reconciler) (w : world) (t : tracker) (dc : Api.DriftCheck) : list effect * tracker * option string :=
  match w_running w with
  | None => ([], t, None)
  | Some (runErr, st) =>
      let st := runner_status runErr st in
      let '(t, events) := emitTransitions t (object_key dc) st in
      let '(es, err) := patchStatus w dc (λ s, renderStatus s st (Some (Api.Spec dc)) (Api.Generation dc) (w_now w)) in
      (record r events ++ es, t, err)
  end.

(** ** Deletion *)

Definition forget_check (w : world) (t : tracker) (key : string) : list effect * tracker * option string :=
  match w_stop w with
  | Some text => ([DidStop key], t, Some text)
  | None => ([DidStop key; DidForget key], Transitions.forget t key, None)
  end.

Definition finalize (w : world) (t : tracker) (dc : Api.DriftCheck) : list effect * tracker * option string :=
  let key := object_key dc in
  let '(es, t, err) := forget_check w t key in
  match err with
  | Some text => (es, t, Some ("stopping the runner for " +:+ key +:+ ": " +:+ text))
  | None =>
      if negb (ContainsFinalizer dc) then (es, t, None)
      else
        (es ++ [DidPatchFinalizers (RemoveFinalizer (Api.Finalizers dc) Api.Finalizer)], t,
         match w_finalizers w with
         | Patched | PatchNotFound => None
         | Conflict => Some "removing the finalizer: conflict"
         | PatchFailed text => Some ("removing the finalizer: " +:+ text)
         end)
  end.

(** ** Reconcile *)

Definition or_error (err : option string) : outcome := match err with Some text => inr text | None => inl 0 end.

(** The end of Reconcile: when to come back. *)
Definition requeue (r : Reconciler) (retryAfter : Duration) : Duration :=
  if (0 <? retryAfter) && (retryAfter <? StatusRefreshInterval r) then retryAfter else StatusRefreshInterval r.

(** The text of an error of Ensure. *)
Definition failure_text (key : string) (f : Runners.failure) : string :=
  match f with
  | Runners.ErrRegistryClosed => "the runner registry has been shut down"
  | Runners.Building text => "building check " +:+ key +:+ ": " +:+ text
  | Runners.DidNotStop => "check " +:+ key +:+ " did not stop within " +:+ Duration_String (Runners.ShutdownGrace registry)
  | Runners.ClosingFailed text => "closing check " +:+ key +:+ ": " +:+ text
  end.

(** Steps 4 to 9, of an object that carries the finalizer. *)
Definition run_check (r : Reconciler) (w : world) (t : tracker) (key : string) (dc : Api.DriftCheck) : list effect * tracker * outcome :=
  match resolveSecrets w dc with
  | inl cause => let '(es, o) := secretFailure r w dc cause in (es, t, o)
  | inr secrets =>
      match SpecHash (Api.Spec dc) secrets with
      | None => ([], t, inr "hashing spec")
      | Some hash =>
          let spec := applySecrets (ToCheckSpec (Api.Spec dc) (Api.Name dc) (Api.Namespace dc)) secrets in
          let ensured := DidEnsure key hash spec in
          match w_ensure w hash spec with
          | inl Runners.ErrRegistryClosed => ([ensured], t, inl 0)
          | inl f => let '(es, o) := startFailure r w dc (failure_text key f) in (ensured :: es, t, o)
          | inr (_, retryAfter) =>
              let '(es, t, err) := updateStatus r w t dc in
              (ensured :: es, t, match err with Some text => inr text | None => inl (requeue r retryAfter) end)
          end
      end
  end.

Definition Reconcile (r : Reconciler) (w : world) (t : tracker) (key : string) : list effect * tracker * outcome :=
  let r := applyDefaults r in
  match w_get w with
  | NotFound => let '(es, t, err) := forget_check w t key in (es, t, or_error err)
  | Unreadable text => ([], t, inr text)
  | Found dc =>
      match Api.DeletionTimestamp dc with
      | Some _ => let '(es, t, err) := finalize w t dc in (es, t, or_error err)
      | None =>
          if ContainsFinalizer dc then run_check r w t key dc
          else
            let added := DidPatchFinalizers (AddFinalizer (Api.Finalizers dc) Api.Finalizer) in
            match w_finalizers w with
            | Patched =>
                let dc := Api.mkDriftCheck (Api.Name dc) (Api.Namespace dc) (Api.Generation dc) (Api.DeletionTimestamp dc)
                  (AddFinalizer (Api.Finalizers dc) Api.Finalizer) (Api.Spec dc) (Api.Status dc) in
                let '(es, t, o) := run_check r w t key dc in (added :: es, t, o)
            | Conflict => ([added], t, inr "adding the finalizer: conflict")
            | PatchNotFound => ([added], t, inr "adding the finalizer: not found")
            | PatchFailed text => ([added], t, inr ("adding the finalizer: " +:+ text))
            end
      end
  end.
End reconcile.

(** ** What a reconcile guarantees

    The finalizer outlives the runner, every reconcile comes back or fails, a
    pause and the order of a map do not change the hash, and a status is written
    over the one that is stored. *)

(** ** The hash *)

Lemma string_app_cancel a : ∀ b c d, String.length a = String.length b → a +:+ c = b +:+ d → a = b ∧ c = d.
Proof.
  induction a as [|x a IH]; intros [|y b] c d Hl H; try done. rewrite !string_app_cons in H. injection Hl as Hl. injection H as -> H.
  destruct (IH b c d Hl H) as [-> ->]. done.
Qed.

Lemma hashed_secrets_cons s f fields : hashed_secrets s (f :: fields) = (f +:+ Sha256.Sum256 (default "" (s !! f))) +:+ hashed_secrets s fields.
Proof. done. Qed.

Lemma hashed_secrets_digests s s' fields : hashed_secrets s fields = hashed_secrets s' fields →
  Forall (λ f, Sha256.Sum256 (default "" (s !! f)) = Sha256.Sum256 (default "" (s' !! f))) fields.
Proof.
  induction fields as [|f fields IH]; [constructor|]. rewrite !hashed_secrets_cons, !string_app_assoc. intros H.
  apply string_app_cancel in H as [_ H]; [|done]. apply string_app_cancel in H as [Hf H]; [|by rewrite !Sha256.length_Sum256].
  constructor; [exact Hf|by apply IH].
Qed.

Lemma range_fields_perm (O O' : MapOrder) (m m' : gmap string string) : dom m = dom m' →
  sort_Strings (@range_map O _ _ _ _ m).*1 = sort_Strings (@range_map O' _ _ _ _ m').*1.
Proof.
  intros Hd. apply sort_Strings_proper. apply NoDup_Permutation; [apply NoDup_fst_range_map|apply NoDup_fst_range_map|].
  intros k. assert (∀ (P : MapOrder) (n : gmap string string), k ∈ (range_map n).*1 ↔ k ∈ dom n) as H; [|by rewrite !H, Hd].
  intros P n. rewrite elem_of_dom. split.
  - intros ([k' v] & -> & Hv%elem_of_range_map)%list_elem_of_fmap. by exists v.
  - intros [v Hv]. apply list_elem_of_fmap. exists (k, v). split; [done|]. by apply elem_of_range_map.
Qed.

(** the hash is of the specification and the secrets: it does not depend on the order of a map or on
    policy.paused, so that neither replaces a runner; and of two states of the same secrets what is hashed
    differs as soon as the digest of one of them does. *)
Theorem hash_is_of_the_specification (O O' : MapOrder) `{SpecEncoder} spec b secrets encoded rotated :
  @SpecHash O _ (with_paused b spec) secrets = @SpecHash O' _ spec secrets
  ∧ (dom rotated = dom secrets → @hash_input O encoded rotated = @hash_input O' encoded secrets →
     ∀ field, field ∈ dom secrets → Sha256.Sum256 (default "" (rotated !! field)) = Sha256.Sum256 (default "" (secrets !! field))).
Proof.
  split.
  - unfold SpecHash. change (with_paused false (with_paused b spec)) with (with_paused false spec).
    unfold hash_input. by rewrite (range_fields_perm O O' secrets secrets).
  - intros Hd Hi field Hf. unfold hash_input in Hi. apply string_app_cancel in Hi as [_ Hi]; [|done].
    rewrite (range_fields_perm O O' rotated secrets Hd) in Hi. apply hashed_secrets_digests in Hi.
    rewrite Forall_forall in Hi. apply Hi. rewrite sort_Strings_perm. apply elem_of_dom in Hf as [v Hv].
    apply list_elem_of_fmap. exists (field, v). split; [done|]. by apply elem_of_range_map.
Qed.

Lemma length_hex s : String.length (hex_EncodeToString s) = (2 * String.length s)%nat.
Proof. induction s as [|c s IH]; [done|]. cbn. rewrite IH. lia. Qed.

Lemma length_string_take n : ∀ s, (n ≤ String.length s)%nat → String.length (string_take n s) = n.
Proof. induction n as [|n IH]; intros [|c s] Hn; cbn in *; try lia. by rewrite IH by lia. Qed.

(** A hash is thirty-two characters. *)
Lemma hash_length `{MapOrder} `{SpecEncoder} spec secrets h : SpecHash spec secrets = Some h → String.length h = 32%nat.
Proof.
  unfold SpecHash. destruct (json_Marshal _) as [encoded|]; [|done]. cbn [mbind option_bind].
  pose proof (Sha256.length_Sum256 (hash_input encoded secrets)) as Hl. revert Hl. generalize (Sha256.Sum256 (hash_input encoded secrets)).
  intros sum Hl Hh. assert (string_take hashLength (hex_EncodeToString sum) = h) as <- by congruence.
  apply length_string_take. rewrite length_hex, Hl. unfold hashLength. lia.
Qed.

Section facts.
Context {FO : FloatOverflow} {UP : UnicodePrint} {CS : ConditionStore} {MO : MapOrder} {SE : SpecEncoder} {FZ : FinalizerOps} {FL : FinalizerLaws}.
Variable retry_steps : nat.
Variable registry : Runners.RegistryOptions.
Implicit Types (r : Reconciler) (w : world) (t : tracker) (dc : Api.DriftCheck) (key : string).

(** ** The status *)

Lemma attempt_status_writes w mutate n : ∀ i es err, attempt_status n i w mutate = (es, err) →
  es = [] ∨ ∃ j latest, (i ≤ j < i + n)%nat ∧ w_status w j = (Found latest, Patched) ∧ es = [DidWriteStatus (mutate (Api.Status latest))]
    ∧ err = None ∧ ∀ k, (i ≤ k < j)%nat → ∃ dc, w_status w k = (Found dc, Conflict).
Proof.
  induction n as [|n IH]; intros i es err; cbn [attempt_status]; [intros [= <- <-]; by left|].
  destruct (w_status w i) as [got answer] eqn:E. destruct got as [latest| |text]; [|intros [= <- <-]; by left|intros [= <- <-]; by left].
  destruct answer; try (intros [= <- <-]; by left).
  - intros [= <- <-]. right. exists i, latest. split_and!; try lia; try done.
  - intros [->|(j & l & Hj & Hw & -> & -> & Hc)]%IH; [by left|]. right. exists j, l. split_and!; try lia; try done.
    intros k Hk. destruct (decide (k = i)) as [->|]; [by eexists|apply Hc; lia].
Qed.

Lemma patchStatus_writes w dc mutate es err : patchStatus retry_steps w dc mutate = (es, err) →
  Forall (λ e, ∃ s, e = DidWriteStatus s) es.
Proof.
  unfold patchStatus. destruct (attempt_status _ _ _ _) as [es' err'] eqn:E. intros [= <- <-].
  apply attempt_status_writes in E as [->|(j & l & _ & _ & -> & _)]; [constructor|]. repeat constructor. by eexists.
Qed.

(** a status goes over the one that is stored: what is written is the change applied to the object as it
    was read by the very attempt that wrote it, after attempts that were all conflicts, and once. *)
Theorem status_is_written_over_the_latest w dc mutate es err s :
  patchStatus retry_steps w dc mutate = (es, err) → DidWriteStatus s ∈ es →
  err = None ∧ es = [DidWriteStatus s] ∧ ∃ j latest, (j < retry_steps)%nat ∧ w_status w j = (Found latest, Patched)
    ∧ s = mutate (Api.Status latest) ∧ ∀ k, (k < j)%nat → ∃ lost, w_status w k = (Found lost, Conflict).
Proof.
  unfold patchStatus. destruct (attempt_status _ _ _ _) as [es' err'] eqn:E. intros [= <- <-] Hs.
  apply attempt_status_writes in E as [->|(j & l & Hj & Hw & -> & -> & Hc)]; [by apply not_elem_of_nil in Hs|].
  apply list_elem_of_singleton in Hs. injection Hs as ->. split_and!; [done|done|]. exists j, l. split_and!; [lia|done|done|].
  intros k Hk. apply Hc. lia.
Qed.

(** ** The finalizer *)

(** Effects that neither stop a runner, nor start one, nor touch the finalizers. *)
Definition quiet (e : effect) : Prop := match e with DidEmit _ | DidWriteStatus _ => True | _ => False end.

Lemma record_quiet r es : Forall quiet (record r es).
Proof. unfold record. destruct (has_recorder r); [|constructor]. apply Forall_fmap. by apply Forall_true. Qed.

Lemma patchStatus_quiet w dc mutate es err : patchStatus retry_steps w dc mutate = (es, err) → Forall quiet es.
Proof. intros H%patchStatus_writes. eapply Forall_impl; [exact H|]. by intros e [s ->]. Qed.

Lemma report_failure_quiet r w dc reason cause : Forall quiet (report_failure retry_steps r w dc reason cause).1.
Proof.
  unfold report_failure. destruct (patchStatus _ _ _ _) as [es err] eqn:E. cbn [fst]. apply Forall_app. split; [apply record_quiet|by eapply patchStatus_quiet].
Qed.

Lemma updateStatus_quiet r w t dc : Forall quiet (updateStatus retry_steps r w t dc).1.1.
Proof.
  unfold updateStatus. destruct (w_running w) as [[runErr st]|]; [|constructor]. cbv zeta.
  destruct (emitTransitions _ _ _) as [t' events]. destruct (patchStatus _ _ _ _) as [es err] eqn:E. cbn [fst].
  apply Forall_app. split; [apply record_quiet|by eapply patchStatus_quiet].
Qed.

(** Of an object that carries the finalizer: at most one call of Ensure, first. *)
Lemma run_check_effects r w t key dc : ∃ es, Forall quiet es ∧
  ((run_check retry_steps registry r w t key dc).1.1 = es ∨ ∃ hash spec, (run_check retry_steps registry r w t key dc).1.1 = DidEnsure key hash spec :: es).
Proof.
  unfold run_check. destruct (resolveSecrets w dc) as [cause|secrets].
  - pose proof (report_failure_quiet r w dc ReasonSecretMissing cause) as Hq. unfold secretFailure. destruct (report_failure _ _ _ _ _ _) as [es o].
    exists es. split; [done|by left].
  - destruct (SpecHash _ _) as [hash|]; [|exists []; split; [constructor|by left]]. cbv zeta.
    destruct (w_ensure _ _ _) as [f|[a retryAfter]].
    + destruct f; [exists []; split; [constructor|right; by eexists _, _]|..]; unfold startFailure;
        match goal with |- context [report_failure ?a ?b ?c ?d ?e ?g] =>
          pose proof (report_failure_quiet b c d e g) as Hq; destruct (report_failure a b c d e g) as [es o]; exists es; split; [done|right; by eexists _, _] end.
    + pose proof (updateStatus_quiet r w t dc) as Hq. destruct (updateStatus _ _ _ _ _) as [[es t'] err]. exists es. split; [done|right; by eexists _, _].
Qed.

Lemma quiet_elem es e : Forall quiet es → e ∈ es → quiet e.
Proof. rewrite Forall_forall. auto. Qed.

(** What is in the effects of a check that is run: quiet ones, and the call of Ensure before them. *)
Lemma run_check_only r w t key dc :
  (∀ e, e ∈ (run_check retry_steps registry r w t key dc).1.1 → quiet e ∨ ∃ hash spec, e = DidEnsure key hash spec)
  ∧ (∀ key' hash spec, DidEnsure key' hash spec ∈ (run_check retry_steps registry r w t key dc).1.1 →
     key' = key ∧ ∃ rest, (run_check retry_steps registry r w t key dc).1.1 = DidEnsure key hash spec :: rest).
Proof.
  destruct (run_check_effects r w t key dc) as (es & Hq & Hes). destruct (run_check _ _ _ _ _ _ _) as [[es' t'] o]. cbn [fst] in *.
  destruct Hes as [->|(h & sp & ->)].
  - split; [intros e He; left; by eapply quiet_elem|]. intros key' hash spec He. by apply (quiet_elem _ _ Hq) in He.
  - split.
    + intros e [->|He]%elem_of_cons; [right; by eexists _, _|left; by eapply quiet_elem].
    + intros key' hash spec [He|He]%elem_of_cons; [|by apply (quiet_elem _ _ Hq) in He]. injection He as -> -> ->. split; [done|by exists es].
Qed.


(** ** Coming back *)

Lemma requeue_bounds r retryAfter : 0 < StatusRefreshInterval r →
  0 < requeue r retryAfter ≤ StatusRefreshInterval r ∧ (0 < retryAfter → requeue r retryAfter ≤ retryAfter).
Proof. unfold requeue. intros Hr. destruct (Z.ltb_spec 0 retryAfter), (Z.ltb_spec retryAfter (StatusRefreshInterval r)); cbn [andb]; lia. Qed.

Lemma defaults_positive r : 0 < StatusRefreshInterval (applyDefaults r) ∧ 0 < SecretRetryInterval (applyDefaults r).
Proof.
  unfold applyDefaults, positive_or. cbn [StatusRefreshInterval SecretRetryInterval].
  destruct (Z.leb_spec (StatusRefreshInterval r) 0), (Z.leb_spec (SecretRetryInterval r) 0);
    unfold DefaultStatusRefreshInterval, DefaultSecretRetryInterval, time_Second; lia.
Qed.

Lemma report_failure_returns r w dc reason cause : 0 < SecretRetryInterval r →
  (∃ text, (report_failure retry_steps r w dc reason cause).2 = inr text) ∨ (report_failure retry_steps r w dc reason cause).2 = inl (SecretRetryInterval r).
Proof. intros Hr. unfold report_failure. destruct (patchStatus _ _ _ _) as [es [text|]]; cbn [snd]; [left; by eexists|by right]. Qed.

(** How a reconcile of a check returns: an error, or when to come back, or nothing because the registry
    is closed. *)
Definition in_time r w key (es : list effect) (o : outcome) : Prop :=
  (∃ text, o = inr text)
  ∨ (∃ after, o = inl after ∧ 0 < after ≤ Z.max (StatusRefreshInterval r) (SecretRetryInterval r)
     ∧ ∀ hash spec a retryAfter, DidEnsure key hash spec ∈ es → w_ensure w hash spec = inr (a, retryAfter) → 0 < retryAfter → after ≤ retryAfter)
  ∨ (o = inl 0 ∧ (∃ hash spec, DidEnsure key hash spec ∈ es ∧ w_ensure w hash spec = inl Runners.ErrRegistryClosed) ∧ ∀ e, e ∈ es → ¬ quiet e).

Lemma run_check_returns r' w t key dc : 0 < StatusRefreshInterval r' → 0 < SecretRetryInterval r' →
  let '(es, _, o) := run_check retry_steps registry r' w t key dc in in_time r' w key es o.
Proof.
  intros Hr1 Hr2. unfold in_time. unfold run_check. destruct (resolveSecrets w dc) as [cause|secrets].
  - pose proof (report_failure_quiet r' w dc ReasonSecretMissing cause) as Hq. pose proof (report_failure_returns r' w dc ReasonSecretMissing cause Hr2) as Hret.
    unfold secretFailure. destruct (report_failure _ _ _ _ _ _) as [es o]. cbn [fst snd] in *. destruct Hret as [?| ->]; [by left|].
    right; left. eexists. split; [done|]. split; [lia|]. intros hash spec a retryAfter He. by apply (quiet_elem _ _ Hq) in He.
  - destruct (SpecHash _ _) as [hash|]; [|left; by eexists]. cbv zeta. set (spec := applySecrets _ _). destruct (w_ensure w hash spec) as [f|[a retryAfter]] eqn:Ew.
    + assert (f = Runners.ErrRegistryClosed ∨ f ≠ Runners.ErrRegistryClosed) as [->|Hf] by (destruct f; (by left) || by right).
      * right; right. split_and!; [done|exists hash, spec; split; [by left|done]|]. intros e ->%list_elem_of_singleton. by intros [].
      * pose proof (report_failure_quiet r' w dc ReasonStartFailed (failure_text registry key f)) as Hq.
        pose proof (report_failure_returns r' w dc ReasonStartFailed (failure_text registry key f) Hr2) as Hret.
        assert (∀ A (x y : A), match f with Runners.ErrRegistryClosed => x | _ => y end = y) as Hm by (intros; by destruct f).
        rewrite Hm. unfold startFailure. destruct (report_failure _ _ _ _ _ _) as [es o]. cbn [fst snd] in *. destruct Hret as [?| ->]; [by left|].
        right; left. eexists. split; [done|]. split; [lia|]. intros hash' spec' a retryAfter [He|He]%elem_of_cons; [|by apply (quiet_elem _ _ Hq) in He].
        injection He as -> ->. by rewrite Ew.
    + pose proof (updateStatus_quiet r' w t dc) as Hq. destruct (updateStatus _ _ _ _ _) as [[es t'] [text|]]; [left; by eexists|]. cbn [fst] in Hq.
      right; left. eexists. split; [done|]. destruct (requeue_bounds r' retryAfter Hr1) as [Hb1 Hb2]. split; [lia|].
      intros hash' spec' a' ra [He|He]%elem_of_cons; [|by apply (quiet_elem _ _ Hq) in He]. injection He as -> ->. rewrite Ew. intros [= _ <-]. exact Hb2.
Qed.


(** ** Failures and pauses *)

(** A check that cannot be run says why, and its runner is left alone: no call of the registry at all. *)
Lemma missing_secret_leaves_the_runner {CL : ConditionStoreLaws} r w t key dc cause : resolveSecrets w dc = inl cause →
  let '(es, t', _) := run_check retry_steps registry r w t key dc in
  t' = t ∧ Forall quiet es ∧ ∀ s, DidWriteStatus s ∈ es → Api.Phase s = "Failed" ∧ Api.Message s = cause
    ∧ Api.C_Status <$> find_condition Api.ConditionReady (Api.Conditions s) = Some false.
Proof.
  intros Hs. unfold run_check, secretFailure. rewrite Hs. pose proof (report_failure_quiet r w dc ReasonSecretMissing cause) as Hq.
  unfold report_failure in *. destruct (patchStatus _ _ _ _) as [es err] eqn:E. cbn [fst] in *. split_and!; [done|done|].
  intros s [Hr|Hw]%elem_of_app.
  { unfold record in Hr. destruct (has_recorder r); [|by apply not_elem_of_nil in Hr]. by apply list_elem_of_singleton in Hr. }
  unfold patchStatus in E. destruct (attempt_status _ _ _ _) as [es' err'] eqn:Ea. injection E as <- <-.
  apply attempt_status_writes in Ea as [->|(j & l & _ & _ & -> & _)]; [by apply not_elem_of_nil in Hw|].
  apply list_elem_of_singleton in Hw. injection Hw as ->. split_and!; [done|done|]. cbn [Api.Conditions failed_status].
  pose proof (set_finds_kind (Api.Conditions (Api.Status l)) (condition Api.ConditionReady false ReasonSecretMissing cause) (Api.Generation dc) (w_now w)) as Hf.
  change (Api.C_Type (condition Api.ConditionReady false ReasonSecretMissing cause)) with Api.ConditionReady in Hf. rewrite Hf.
  clear Hf. cbn. unfold merged. destruct (find_condition Api.ConditionReady (Api.Conditions (Api.Status l))) as [o|]; [|done].
  by destruct (Api.C_Status o).
Qed.

(** a pause replaces no runner: of a resource that differs from what a healthy runner was started with in
    policy.paused alone, the hash is the same, and Ensure tells the runner to pause or resume and does
    nothing else, whatever the throttle says. *)
Theorem pause_replaces_no_runner spec b secrets h id runner build wait :
  SpecHash spec secrets = Some h → Runners.Hash runner = h → Runners.runErr runner = None →
  ∃ h', SpecHash (with_paused b spec) secrets = Some h'
    ∧ Runners.decide_action (Some (id, runner)) h' b build wait = (Runners.Unlocking (Runners.Outcome Runners.ActionUnchanged 0), Some (id, b)).
Proof.
  intros Hh Hr He. exists h. split; [exact Hh|]. unfold Runners.decide_action. by rewrite !bool_decide_true.
Qed.
End facts.
