(* ===== verification/OperatorRuns.v ===== *)
(** * OperatorRuns: concrete objects and reconciles

    An object of which every field is given, the same file read by the command line
    and by the cluster, names that come back as the path of another field; then the
    libraries the operator runs with, the history of a check, a first reconcile and
    a deletion, and what becomes of its secrets. *)
From Stdlib Require Import Ascii String.
From stdpp Require Import strings pretty.
From S2P Require Import Prelude GoBase GoFloat FloatFormat GoStrings GoTime GoFormat GoText Event Projection Spec Config ConfigFacts.
From S2P Require Import ConfigRuns Conversion.
From S2P Require Api.
From S2P Require Import ApiStatus Transitions Reconcile.
From S2P Require Ingest CheckStatus Runners RunnersRuns.

#[local] Existing Instance caseless.
#[local] Existing Instance ascending_order.
#[local] Existing Instance identity_engine.
#[local] Existing Instance ascii_print.

(** Paths that are what they print. *)
Definition text_path : FieldPath string :=
  {| NewPath := λ s, s; Child := λ p s, p +:+ "." +:+ s; Index := λ p i, p +:+ "[" +:+ FormatInt i +:+ "]";
     PathKey := λ p k, p +:+ "[" +:+ k +:+ "]"; Path_String := λ s, s |}.
#[local] Existing Instance text_path.

Lemma text_path_laws : FieldPathLaws (Path := string).
Proof. by split. Qed.
#[local] Existing Instance text_path_laws.

Definition api_policy (mode factor : string) (reorder : Duration) : Api.PolicySpec :=
  Api.mkPolicy (Api.mkWindow mode 0 0 0 factor) 0 0 reorder "" "" 0 0 false 0 0 0 0 0 0 0 0 false.

Definition api_spec (source projection : string) (target : Api.TargetSpec) (ops : gmap string string) (policy : Api.PolicySpec) : Api.DriftCheckSpec :=
  Api.mkDriftCheckSpec (Api.mkSource source None None None 0) (Api.mkCodec "" 0 false ∅ ops)
    (Api.mkProjection projection "" "" 0 false None) target policy (Api.mkAlert 0 "" 0 false).

Definition no_status : Api.DriftCheckStatus :=
  Api.mkDriftCheckStatus "" 0 "" 0 0 ∅ "" 0 0 0 "" "" "" [] None "" 0 0 false "" 0 0 0 [].

Definition object (spec : Api.DriftCheckSpec) : Api.DriftCheck := Api.mkDriftCheck "index" "ns" 1 None [] spec no_status.

Definition some_redis : Api.TargetSpec :=
  Api.mkTarget "redis" (Some (Api.mkRedis "" "a:6379" [] "" 0 "" None None "" 0 0 0 0 0)).

Definition explicit : Api.DriftCheckSpec :=
  api_spec "memory" "keysetOwnership" some_redis {["STORED" := "add"]} (api_policy "adaptive" "3.5" 0).

Lemma admission_changes_no_check_witness : ToCheckSpec (Default explicit) "index" "ns" = ToCheckSpec explicit "index" "ns".
Proof. apply admission_changes_no_check; vm_compute; discriminate. Defined.

(** A safety factor that is no number, an operation that does not exist, and a store that changed. *)
Definition refused : Api.DriftCheck :=
  object (api_spec "memory" "keysetOwnership" some_redis {["STORED" := "store"]} (api_policy "adaptive" "3.O" 0)).
Definition stored : Api.DriftCheck := object (api_spec "memory" "scalar" some_redis ∅ (api_policy "adaptive" "" 0)).

Lemma refused_operations : map_Forall (λ k _, free_of "." (strconv_Quote k) = true) (Codec_OpMapping (Spec_Codec (ToCheckSpec (Api.Spec refused) "index" "ns"))).
Proof. change (map_Forall (λ k _, free_of "." (strconv_Quote k) = true) ({["STORED" := "store"]} : gmap string string)). apply map_Forall_singleton. vm_compute. reflexivity. Qed.


(** One file, two checks: what is left out is another source, projection, store and window in the cluster
    than on the command line; and a reorder window below zero, which turns the buffer off, is lost. *)
Definition bare : Api.DriftCheckSpec := api_spec "" "" (Api.mkTarget "" None) ∅ (api_policy "" "" (-1)).

Definition chosen (s : Spec) : string * string * string * string * Z :=
  (Source_Type (Spec_Source s), Projection_Type (Spec_Projection s), Target_Type (Spec_Target s),
   Window_Mode (Policy_SettlementWindow (Spec_Policy s)), Policy_ReorderWindow (Spec_Policy s)).

Example one_file_two_checks :
  chosen (ToCheckSpec bare "index" "ns") = ("memory", "scalar", "memory", "static", -1)
  ∧ chosen (ToCheckSpec (Default bare) "index" "ns") = ("zmq", "keysetOwnership", "redis", "adaptive", 2 * time_Second)
  ∧ Spec_Validate (ToCheckSpec bare "index" "ns") = None
  ∧ FE_Field <$> default [] (Spec_Validate (ToCheckSpec (Default bare) "index" "ns")) = ["source.zmq.endpoints"; "target.redis.addr"].
Proof. vm_compute. by split_and!. Qed.

(** An operation whose name has a dot: the path of its error is that of no field. *)
Example dotted_operation :
  E_Path <$> (Validate (object (api_spec "memory" "scalar" some_redis {["kv.put" := "store"]} (api_policy "static" "" 0))) None).2
  = ["spec.codec.opMapping[" +:+ String (ascii_of 34) "kv].put" +:+ String (ascii_of 34) "]"].
Proof. vm_compute. reflexivity. Qed.

(** A factor below one is refused, one that is zero or less is silently the default. *)
Example factor_is_replaced :
  Window_SafetyFactor (Policy_SettlementWindow (Spec_Policy (ToCheckSpec (api_spec "memory" "scalar" some_redis ∅ (api_policy "" "-2" 0)) "i" "n")))
  = float_of_Z 3.
Proof. vm_compute. reflexivity. Qed.

(** ** Concrete reconciles

    A condition list, finalizers and an encoder to run the operator with, the
    history of a check whose source and store come and go, a first reconcile and a
    deletion, and what the operator does not do with its secrets. *)

#[local] Existing Instance ascending_order.
#[local] Existing Instance ascii_print.
#[local] Existing Instance amd64_overflow.

(** ** The libraries *)

Fixpoint set_condition (l : list Api.Condition) (c : Api.Condition) : list Api.Condition :=
  match l with
  | [] => [c]
  | o :: l => if decide (Api.C_Type o = Api.C_Type c) then merged (Some o) c :: l else o :: set_condition l c
  end.
Definition condition_list : ConditionStore := {| SetStatusCondition := set_condition |}.
#[local] Existing Instance condition_list.

Lemma find_condition_cons kind o l : find_condition kind (o :: l) = if decide (Api.C_Type o = kind) then Some o else find_condition kind l.
Proof. unfold find_condition. cbn. destruct (decide (Api.C_Type o = kind)); [done|]. by destruct (list_find _ l) as [[]|]. Qed.

Lemma merged_type o c : Api.C_Type (merged o c) = Api.C_Type c.
Proof. unfold merged. destruct o as [o|]; [|done]. by destruct (Bool.eqb _ _). Qed.

Lemma condition_list_laws : ConditionStoreLaws.
Proof.
  split.
  - intros l c _. cbn [SetStatusCondition condition_list]. induction l as [|o l IH]; cbn [set_condition].
    + rewrite find_condition_cons. by rewrite decide_True.
    + rewrite (find_condition_cons _ o l). destruct (decide (Api.C_Type o = Api.C_Type c)) as [E|E]; rewrite find_condition_cons.
      * by rewrite decide_True by apply merged_type.
      * by rewrite decide_False.
  - intros l c kind Hk. cbn [SetStatusCondition condition_list]. induction l as [|o l IH]; cbn [set_condition].
    + rewrite find_condition_cons. by rewrite decide_False.
    + destruct (decide (Api.C_Type o = Api.C_Type c)) as [E|E]; rewrite !find_condition_cons.
      * rewrite merged_type. rewrite !decide_False by congruence. done.
      * by rewrite IH.
Qed.
#[local] Existing Instance condition_list_laws.

Definition finalizer_list : FinalizerOps :=
  {| AddFinalizer := λ l f, if bool_decide (f ∈ l) then l else l ++ [f]; RemoveFinalizer := λ l f, filter (λ g, g ≠ f) l |}.
#[local] Existing Instance finalizer_list.
Lemma finalizer_list_laws : FinalizerLaws.
Proof.
  split; intros l f g; cbn.
  - case_bool_decide as H; [|rewrite elem_of_app, list_elem_of_singleton; split; (intros [?|?]; [by right|by left])]. split; [intros Hg; by right|by intros [->|]].
  - by rewrite list_elem_of_filter.
Qed.
#[local] Existing Instance finalizer_list_laws.

(** An encoder that knows three of the fields. *)
Definition short_encoder : SpecEncoder :=
  {| json_Marshal := λ s, Some (Api.Source_Type (Api.Source s) +:+ "|" +:+ Api.Projection_Type (Api.Projection s) +:+ "|"
       +:+ FormatBool (Api.Policy_Paused (Api.Policy s))) |}.
#[local] Existing Instance short_encoder.

(** ** A check over time *)

Definition base_status (phase : Ingest.Phase) (divergent : Z) (source store bootstrapped : bool) (ps : list CheckStatus.PublisherStatus) :
    CheckStatus.Status :=
  CheckStatus.mkStatus phase "" 100 90 10 0 0 0 false 0 false 0 false "" 0 (float_of_Z 1) divergent 2 ∅ (float_of_Z 0) 500 0 0 0
    (float_of_Z 5) (float_of_Z 0) false ps zero_time (float_of_Z 0) 0 0 store "primary" 100 source 1 "EOF" bootstrapped.

Definition pod (restarts : Z) : CheckStatus.PublisherStatus :=
  CheckStatus.mkPublisherStatus "vllm-0" 1 100 0 restarts (float_lit 1 1000) (float_lit 12345678 10000000).

Definition history : list CheckStatus.Status :=
  [base_status Ingest.PhaseBootstrapping 0 true true false [pod 0];
   base_status Ingest.PhaseWatching 3 true true true [pod 0];
   base_status Ingest.PhaseWatching 3 true true true [pod 0];
   base_status Ingest.PhaseDegraded 7 false false true [pod 1];
   base_status Ingest.PhaseWatching 0 true false true [pod 1]].

Example events_of_the_history : map (map Reason) (emit_all newTransitionTracker "ns/index" history).2
  = [[]; ["BootstrapComplete"; "DriftDetected"]; []; ["DriftDetected"; "SourceDisconnected"; "TargetUnavailable"; "PublisherRestart"];
     ["DriftResolved"; "SourceReconnected"]].
Proof. vm_compute. reflexivity. Qed.


Lemma steady_checks_are_silent_witness : ∀ st, st = base_status Ingest.PhaseWatching 3 true true true [pod 0] →
  emitTransitions {["ns/index" := observe st]} "ns/index" st = (<["ns/index" := observe st]> {["ns/index" := observe st]}, []).
Proof. intros st ->. apply steady_checks_are_silent; [apply NoDup_singleton|right; apply lookup_singleton_eq]. Defined.

(** ** Status *)

Definition written : Api.DriftCheckStatus :=
  renderStatus no_status (base_status Ingest.PhaseDegraded 7 false false true [pod 1]) (Some explicit) 3 1000.

Example numbers_as_text : (Api.P_LastSeenSeconds <$> Api.Publishers written, Api.P_ClockSkewSeconds <$> Api.Publishers written, Api.CoverageRatio written,
    Api.SettlementWindowSeconds written) = (["0.001"], ["1.235"], "1", "5").
Proof. vm_compute. reflexivity. Qed.

Example conditions_written : (λ c, (Api.C_Type c, Api.C_Status c, Api.C_Reason c)) <$> Api.Conditions written
  = [("Ready", true, "Degraded"); ("SourceConnected", false, "Disconnected"); ("TargetAvailable", false, "Unreachable");
     ("DriftDetected", true, "DriftConfirmed"); ("OracleSaturated", false, "WithinBudget"); ("SequenceIntegrity", true, "Complete");
     ("AwaitingSnapshot", false, "SnapshotSeen"); ("MultiWriterUnsafe", false, "SingleWriterPerKey");
     ("ProjectionNotCommutative", false, "Commutative"); ("SweepIntervalTight", true, "SweepIntervalTight")].
Proof. vm_compute. reflexivity. Qed.

Lemma every_question_is_answered_witness :
  ∃ c, find_condition "DriftDetected" (Api.Conditions (renderStatus written (base_status Ingest.PhaseWatching 9 true true true [pod 1]) (Some explicit) 4 2000)) = Some c
    ∧ Api.C_Status c = true ∧ Api.C_ObservedGeneration c = 4 ∧ Api.C_Message c ≠ "" ∧ Api.C_LastTransitionTime c = Some 1000.
Proof.
  destruct (every_question_is_answered written (base_status Ingest.PhaseWatching 9 true true true [pod 1]) (Some explicit) 4 2000) as [H _].
  apply (H "DriftDetected" true). vm_compute. do 3 right. left.
Defined.

Lemma steady_status_is_stable_witness :
  find_condition "Ready" (Api.Conditions (renderStatus written (base_status Ingest.PhaseDegraded 7 false false true [pod 1]) (Some explicit) 3 9000))
  = find_condition "Ready" (Api.Conditions written).
Proof. apply (steady_status_is_stable no_status (base_status Ingest.PhaseDegraded 7 false false true [pod 1]) (Some explicit) 3 1000 9000). Defined.

(** ** Reconciles *)

Definition plain_registry : Runners.RegistryOptions := Runners.NewRunnerRegistry (Runners.mkRegistryOptions 0 0).
Definition reconciler : Reconciler := mkReconciler 0 0 true.

Definition resource (finalizers : list string) (deleted : option Time) (spec : Api.DriftCheckSpec) : Api.DriftCheck :=
  Api.mkDriftCheck "index" "ns" 3 deleted finalizers spec no_status.

(** The API server holds the object, loses the first attempt at its status to a conflict, and the registry
    does as it is told. *)
Definition calm_world (dc : Api.DriftCheck) (ensured : Runners.failure + Runners.Action * Duration) : world :=
  mkWorld (Found dc) Patched (λ _, NotFound) (λ _ _, ensured) None
    (Some (None, base_status Ingest.PhaseWatching 3 true true true [pod 0]))
    (λ i, (Found dc, if decide (i = O) then Conflict else Patched)) 1000.

Definition kind_of (e : effect) : string :=
  match e with
  | DidStop _ => "stop" | DidForget _ => "forget" | DidPatchFinalizers l => "finalizers" | DidEnsure _ _ _ => "ensure"
  | DidEmit e => "event " +:+ Reason e | DidWriteStatus s => "status " +:+ Api.Phase s
  end.

Definition run_one (w : world) : list string * outcome :=
  let '(es, _, o) := Reconcile 5 plain_registry reconciler w newTransitionTracker "ns/index" in (kind_of <$> es, o).

Example first_reconcile : run_one (calm_world (resource [] None explicit) (inr (Runners.ActionStarted, 0)))
  = (["finalizers"; "ensure"; "status Watching"], inl (15 * time_Second)).
Proof. vm_compute. reflexivity. Qed.

Example deletion : run_one (calm_world (resource [Api.Finalizer] (Some 0) explicit) (inr (Runners.ActionStarted, 0)))
  = (["stop"; "forget"; "finalizers"], inl 0).
Proof. vm_compute. reflexivity. Qed.

Example registry_closed : run_one (calm_world (resource [Api.Finalizer] None explicit) (inl Runners.ErrRegistryClosed)) = (["ensure"], inl 0).
Proof. vm_compute. reflexivity. Qed.

Example throttled : run_one (calm_world (resource [Api.Finalizer] None explicit) (inr (Runners.ActionThrottled, 2 * time_Second)))
  = (["ensure"; "status Watching"], inl (2 * time_Second)).
Proof. vm_compute. reflexivity. Qed.

Definition deleting : world := calm_world (resource [Api.Finalizer] (Some 0) explicit) (inr (Runners.ActionStarted, 0)).


Definition starting_world : world := calm_world (resource [] None explicit) (inr (Runners.ActionThrottled, 2 * time_Second)).


Lemma status_is_written_over_the_latest_witness :
  ∃ j latest, (j < 5)%nat ∧ w_status starting_world j = (Found latest, Patched) ∧ ∀ k, (k < j)%nat → ∃ lost, w_status starting_world k = (Found lost, Conflict).
Proof.
  destruct (status_is_written_over_the_latest 5 starting_world (resource [] None explicit) (λ s, s)
    [DidWriteStatus no_status] None no_status) as (_ & _ & j & latest & Hj & Hw & _ & Hc);
    [vm_compute; reflexivity|by left|]. by exists j, latest.
Defined.

(** A rotated password: other bytes are hashed. *)
Lemma hash_is_of_the_specification_witness :
  SpecHash (with_paused true explicit) {["a" := "1"]} = SpecHash explicit {["a" := "1"]}
  ∧ (dom ({["a" := "2"]} : gmap string string) = dom ({["a" := "1"]} : gmap string string) → hash_input "x" {["a" := "2"]} ≠ hash_input "x" {["a" := "1"]}).
Proof.
  destruct (hash_is_of_the_specification ascending_order ascending_order explicit true {["a" := "1"]} "x" {["a" := "2"]}) as [H1 H2].
  split; [exact H1|]. intros Hd Hi.
  assert (Sha256.Sum256 (default "" (({["a" := "2"]} : gmap string string) !! "a")) = Sha256.Sum256 (default "" (({["a" := "1"]} : gmap string string) !! "a"))) as E
    by (apply (H2 Hd Hi); apply elem_of_dom; by eexists).
  vm_compute in E. discriminate.
Defined.

(** ** What the operator does not do *)

(** Three secrets are referred to, resolved and hashed; one of them reaches the check. *)
Definition secretive : Api.DriftCheckSpec :=
  Api.mkDriftCheckSpec
    (Api.mkSource "nats" None (Some (Api.mkNATS "nats://n:4222" ["kv"] "" (Some (Api.mkSecretKeyRef "nats" "creds")))) None 0)
    (Api.mkCodec "" 0 false ∅ ∅) (Api.mkProjection "keysetOwnership" "" "" 0 false None)
    (Api.mkTarget "redis" (Some (Api.mkRedis "" "a:6379" [] "" 0 "" (Some (Api.mkSecretKeyRef "redis" "password"))
       (Some (Api.mkTLS true false (Some (Api.mkSecretKeyRef "ca" "ca.crt")))) "" 0 0 0 0 0)))
    (api_policy "static" "" 0) (Api.mkAlert 0 "" 0 false).

Definition vault : world :=
  mkWorld (Found (resource [Api.Finalizer] None secretive)) Patched
    (λ name, Found (if decide (name = "redis") then {["password" := "hunter2"]} else if decide (name = "ca") then {["ca.crt" := "PEM"]} else {["creds" := "JWT"]}))
    (λ _ _, inr (Runners.ActionStarted, 0)) None None (λ _, (NotFound, Patched)) 0.

Example other_secrets_are_dropped : ∃ secrets,
  resolveSecrets vault (resource [Api.Finalizer] None secretive) = inr secrets
  ∧ secrets !! "target.redis.tls.caSecretRef" = Some "PEM" ∧ secrets !! "source.nats.credentialsSecretRef" = Some "JWT"
  ∧ applySecrets (ToCheckSpec secretive "index" "ns") secrets
    = applySecrets (ToCheckSpec secretive "index" "ns") {["target.redis.passwordSecretRef" := "hunter2"]}.
Proof. eexists. split_and!; vm_compute; reflexivity. Qed.

(** The finalizer of a check that did not stop: the first deletion fails and leaves it on, the second finds
    nothing to stop and takes it off, while the runner goes on. *)
Definition stopping : Runners.system :=
  RunnersRuns.drive 12 (RunnersRuns.late 60) (Runners.fresh RunnersRuns.started) (Runners.called RunnersRuns.started "ns/a" Runners.Stop).
Definition released : Runners.system :=
  RunnersRuns.drive 8 (RunnersRuns.calm 61) (Runners.fresh stopping) (Runners.called stopping "ns/a" Runners.Stop).

Example released_while_running :
  (Runners.at_ <$> Runners.threads released !! Runners.fresh RunnersRuns.started) = Some (Runners.Gone (Runners.Failed Runners.DidNotStop))
  ∧ (Runners.at_ <$> Runners.threads released !! Runners.fresh stopping) = Some (Runners.Gone Runners.Finished)
  ∧ (Runners.exited <$> Runners.heap released !! 2) = Some false.
Proof. vm_compute. by split_and!. Qed.
