(* ===== verification/Lifecycle.v ===== *)
(** * Lifecycle: how a check is built, run and closed (pkg/check/check.go)

    New over the constructors of the codec, the store and the source, what it has
    opened when it fails, Close, and Run over the goroutines of its group. What a
    constructor or a Close answers, and how a goroutine ends, are arguments. *)
From Stdlib Require Import String.
From stdpp Require Import strings pretty.
From S2P Require Import Prelude GoBase GoFloat GoStrings GoText GoTime Codec Event Projection Differ Spec Config ConfigFacts.
From S2P Require Source Sweeper Metrics Ingest Reorder.

(** ** Settings of the parts *)

Definition inProcessIngestBuffer : Z := 4096.

Definition ingestBufferFor (s : Spec) : Z :=
  let size := Source_IngestBufferSize (Spec_Source s) in
  if bool_decide (Source_Type (Spec_Source s) ∈ ["zmq"; "nats"]) then size else Z.min size inProcessIngestBuffer.

Definition readBatchSize (s : Spec) : Z :=
  match Target_Redis (Spec_Target s) with Some r => Redis_ReadBatchSize r | None => DefaultReadBatchSize end.

Definition SourceConfig (s : Spec) : Source.Config :=
  Source.mkConfig (SourceSettings s) (Codec_MaxPayloadBytes (Spec_Codec s)) 0.

Definition buildSweeper (s : Spec) (p : projection) : Sweeper.Config :=
  let pol := Spec_Policy s in
  Sweeper.mkConfig (TargetShape p) (DifferOptions s) (Policy_SweepInterval pol) (Policy_ExtraScanInterval pol) 0
    (ExtraScanPattern s) (readBatchSize s) (Policy_MaxConfirmQueue pol) (Policy_MaxExtrasTracked pol) (Policy_RequirePrimary pol).

(** ** Reasons of drops *)

Definition decodeReason (err : Codec.codec_error) : string :=
  if decide (err = Codec.ErrTooLarge) then Metrics.Labels.DropTooLarge
  else if decide (err = Codec.ErrUnknownOp) then Metrics.Labels.DropUnknownOp
  else Metrics.Labels.DropDecodeError.

Definition projectionReason (err : Projection.Error) : string :=
  if decide (err = Projection.ErrUnsupportedOp) then Metrics.Labels.ProjectionUnsupportedOp else Metrics.Labels.ProjectionInvalidEvent.

(** ** Construction *)

Inductive part := PTarget | PSource | PSweeper.
#[export] Instance part_eq_dec : EqDecision part.
Proof. solve_decision. Defined.

(** What a check holds: what was opened, in order; what Close will close; and what was closed, in order. *)
Record resources := mkResources { opened : list part; closers : list part; closed : bool; released : list part }.

Definition no_resources : resources := mkResources [] [] false [].
Definition hold (r : resources) (p : part) : resources := mkResources (opened r ++ [p]) (closers r ++ [p]) (closed r) (released r).

(** Close: the errors are joined; nothing is closed twice. *)
Definition Close (answers : part → option string) (r : resources) : resources * list string :=
  if closed r then (r, [])
  else (mkResources (opened r) [] true (released r ++ reverse (closers r)), omap answers (reverse (closers r))).

Inductive build_error :=
  | Invalid (l : list FieldError)
  | BadCodec (err : Codec.codec_error)
  | BadProjection (err : Projection.Error)
  | BadTarget (text : string)
  | BadSource (text : string).

Section construction.
Context `{UnicodeTables} `{UnicodePrint} `{MapOrder} `{TemplateEngine}.
Context {C S : Type}.
(** The constructors of the packages: of a codec, of a store, of a source. *)
Variable codec_New : string → gmap string string → Codec.codec_error + C.
Variable target_New : string → gmap string string → option string.
Variable source_New : string → Source.Config → string + S.

(** The parts of a check that New returns. *)
Record parts := mkParts { cdc : C; proj : projection; src : S; swp : Sweeper.Config; raw_capacity : Z }.

Definition build (s : Spec) : resources * (build_error + parts) :=
  match codec_New (Codec_Type (Spec_Codec s)) (CodecConfig s) with
  | inl err => (no_resources, inl (BadCodec err))
  | inr cdc =>
      match Projection.New projection_registry (Projection_Type (Spec_Projection s)) (ProjectionConfig s) with
      | inl err => (no_resources, inl (BadProjection err))
      | inr p =>
          match target_New (Target_Type (Spec_Target s)) (TargetSettings s) with
          | Some text => (no_resources, inl (BadTarget text))
          | None =>
              let r := hold no_resources PTarget in
              match source_New (Source_Type (Spec_Source s)) (SourceConfig s) with
              | inl text => (r, inl (BadSource text))
              | inr src => (hold (hold r PSource) PSweeper, inr (mkParts cdc p src (buildSweeper s p) (ingestBufferFor s)))
              end
          end
      end
  end.

Definition New (answers : part → option string) (s : Spec) : resources * (build_error + parts) :=
  let s := ApplyDefaults s in
  match Spec_Validate s with
  | Some errs => (no_resources, inl (Invalid errs))
  | None =>
      let '(r, built) := build s in
      match built with
      | inl err => ((Close answers r).1, inl err)
      | inr c => (r, inr c)
      end
  end.

(** construction leaks nothing: a check that could not be built has closed all it had opened, once and the
    last first; one that was built holds its store, its source and its sweeper, has closed none of them,
    and closes each once when it is closed, the sweeper first and the store last, whatever they answer;
    closing it again does nothing. *)
Theorem construction_leaks_nothing answers answers' answers'' s :
  match New answers s with
  | (r, inl _) => released r = reverse (opened r) ∧ NoDup (released r) ∧ closers r = []
  | (r, inr c) => opened r = [PTarget; PSource; PSweeper] ∧ released r = [] ∧ closed r = false
      ∧ released (Close answers' r).1 = [PSweeper; PSource; PTarget] ∧ closers (Close answers' r).1 = []
      ∧ (Close answers' r).2 = omap answers' [PSweeper; PSource; PTarget]
      ∧ Close answers'' (Close answers' r).1 = ((Close answers' r).1, [])
  end.
Proof.
  unfold New, build. destruct (Spec_Validate _); [cbn; split_and!; (done || constructor)|].
  destruct (codec_New _ _); [cbn; split_and!; (done || constructor)|].
  destruct (Projection.New _ _ _); [cbn; split_and!; (done || constructor)|].
  destruct (target_New _ _); [cbn; split_and!; (done || constructor)|].
  destruct (source_New _ _); [|by cbn]. cbn. split_and!; try done. apply NoDup_singleton.
Qed.

(** A check that validates is refused for its codec, its store or its source, never for its projection, and
    where it is built its sweeper has the shape of the projection it folds with. *)
Lemma validated_check_is_built answers s c r : New answers s = (r, inr c) →
  ∃ p, Projection.New projection_registry (Projection_Type (Spec_Projection (ApplyDefaults s))) (ProjectionConfig (ApplyDefaults s)) = inr p
    ∧ proj c = p ∧ Sweeper.TargetShape (swp c) = TargetShape p.
Proof.
  unfold New, build. destruct (Spec_Validate _); [done|]. destruct (codec_New _ _); [done|].
  destruct (Projection.New _ _ _) as [|p]; [done|]. destruct (target_New _ _); [done|]. destruct (source_New _ _); [done|].
  intros [= _ <-]. by exists p.
Qed.

Lemma projection_is_never_refused answers s r err : New answers s ≠ (r, inl (BadProjection err)).
Proof.
  unfold New, build. destruct (Spec_Validate (ApplyDefaults s)) eqn:Hv; [done|]. destruct (us_projection _ (validated_usable _ Hv)) as [p Hp].
  destruct (codec_New _ _); [done|]. rewrite Hp. destruct (target_New _ _); [done|]. by destruct (source_New _ _).
Qed.

(** loss happens where it is counted: the channel behind a socket of a validated check holds at least what
    the socket holds, and behind a transport that cannot drop at most the smaller bound. *)
Lemma ingest_buffer_covers_the_socket s z : Spec_Validate s = None → Source_Type (Spec_Source s) = "zmq" → Source_ZMQ (Spec_Source s) = Some z →
  ZMQ_RecvHWM z ≤ ingestBufferFor s.
Proof.
  intros Hv Ht Hz. unfold ingestBufferFor. rewrite Ht, bool_decide_true by (by left). by apply (us_buffer _ (validated_usable s Hv)).
Qed.
End construction.

(** ** Run *)

(** The goroutines of a check. *)
Inductive member := RunSource | RunIngest | WatchGaps | RunLag | RunSweeper | RefreshMetrics.

Inductive error := Canceled | DeadlineExceeded | Failure (text : string).

(** How the body of a goroutine ends. *)
Inductive ending := Returned (err : option error) | Panicked (v : string).

(** The component a goroutine is guarded as; the other two run bare. *)
Definition component (m : member) : option string :=
  match m with
  | RunIngest => Some Metrics.Labels.ComponentIngest
  | WatchGaps => Some Metrics.Labels.ComponentSource
  | RunLag => Some Metrics.Labels.ComponentLag
  | RunSweeper => Some Metrics.Labels.ComponentSweeper
  | RunSource | RefreshMetrics => None
  end.

(** guard; [stack] is the text of the stack. *)
Definition guard (stack : string) (component : string) (e : ending) : option error :=
  match e with
  | Panicked v => Some (Failure ("panic in " +:+ component +:+ ": " +:+ v +:+ String (ascii_of 10) stack))
  | Returned (Some Canceled) => None
  | Returned err => err
  end.

(** What a goroutine hands to its group; [None] is a panic that nothing recovers. *)
Definition member_result (stack : string) (m : member) (e : ending) : option (option error) :=
  match component m, e with
  | Some c, _ => Some (guard stack c e)
  | None, Returned _ => Some None
  | None, Panicked _ => None
  end.

(** errgroup.Group.Wait: the first error its goroutines returned. *)
Class ErrGroup := { group_Wait : list (option error) → option error }.
Class ErrGroupLaws `{ErrGroup} : Prop := {
  wait_first : ∀ pre e post, Forall (λ r, r = None) pre → group_Wait (pre ++ Some e :: post) = Some e;
  wait_none : ∀ l, Forall (λ r, r = None) l → group_Wait l = None
}.

Inductive run_result := Refused | Escaped | Stopped | Died (text : string).

(** What ends a run without being its failure. *)
Definition deliberate (e : error) : option string := match e with Canceled | DeadlineExceeded => None | Failure text => Some text end.

Section run.
Context `{ErrGroup}.
Variable stack : string.

(** Run, over its goroutines in the order they end. *)
Definition Run (isClosed : bool) (ends : list (member * ending)) : run_result :=
  if isClosed then Refused
  else match mapM (λ '(m, e), member_result stack m e) ends with
       | None => Escaped
       | Some results => match group_Wait results ≫= deliberate with Some text => Died text | None => Stopped end
       end.

(** The check after the run. *)
Definition after_run (r : run_result) (c : Ingest.check) : Ingest.check :=
  match r with
  | Refused | Escaped => c
  | Stopped => Ingest.Run_end c None
  | Died text => Ingest.Run_end c (Some text)
  end.

Definition bare (m : member) : bool := bool_decide (component m = None).

Lemma guarded_results ends : Forall (λ '(m, e), component m = None → ∃ err, e = Returned err) ends →
  ∃ results, mapM (λ '(m, e), member_result stack m e) ends = Some results
    ∧ Forall2 (λ '(m, e) r, member_result stack m e = Some r) ends results.
Proof.
  induction 1 as [|[m e] ends He Hends (results & Hm & Hr)]; [exists []; by split; [|constructor]|].
  assert (∃ r, member_result stack m e = Some r) as [r Hone].
  { unfold member_result. destruct (component m) eqn:Hc; [by eexists|]. destruct (He eq_refl) as [err ->]. by eexists. }
  exists (r :: results). cbn. rewrite Hone. cbn. rewrite Hm. split; [done|by constructor].
Qed.

(** a panic stays in its check: where no panic comes from the source or the metrics, a run returns; it
    fails with the first goroutine that ended with anything but a shutdown, a panic by the name of its
    component, and is stopped where there is none. *)
Theorem panics_are_contained {L : ErrGroupLaws} ends c :
  Forall (λ '(m, e), component m = None → ∃ err, e = Returned err) ends →
  Run false ends ≠ Escaped
  ∧ (∀ pre m e post err, ends = pre ++ (m, e) :: post → Forall (λ '(m, e), member_result stack m e = Some None) pre →
       member_result stack m e = Some (Some err) →
       Run false ends = match deliberate err with Some text => Died text | None => Stopped end)
  ∧ (∀ pre m v post comp, ends = pre ++ (m, Panicked v) :: post → Forall (λ '(m, e), member_result stack m e = Some None) pre →
       component m = Some comp →
       let text := "panic in " +:+ comp +:+ ": " +:+ v +:+ String (ascii_of 10) stack in
       Run false ends = Died text ∧ Ingest.phase (Ingest.life (after_run (Run false ends) c)) = Ingest.PhaseFailed
       ∧ Ingest.message (Ingest.life (after_run (Run false ends) c)) = text)
  ∧ (Forall (λ '(m, e), member_result stack m e = Some None) ends → Run false ends = Stopped).
Proof.
  intros Hok. destruct (guarded_results ends Hok) as (results & Hm & Hr).
  assert (∀ pre m e post err, ends = pre ++ (m, e) :: post → Forall (λ '(m, e), member_result stack m e = Some None) pre →
    member_result stack m e = Some (Some err) → Run false ends = match deliberate err with Some text => Died text | None => Stopped end) as Hfirst.
  { intros pre m e post err -> Hpre He. unfold Run. rewrite Hm. apply Forall2_app_inv_l in Hr as (r1 & r2 & H1 & H2 & ->).
    inversion H2 as [|? r ? r2' Hone Hrest]; subst. rewrite He in Hone. injection Hone as <-.
    rewrite wait_first; [by cbn; destruct (deliberate err)|]. clear -Hpre H1. revert r1 H1.
    induction Hpre as [|[m e] pre Hx Hpre IH]; intros r1 H1; inversion H1 as [|? y ? l' Hy Hl]; subst; constructor; [cbn in *; congruence|by apply IH]. }
  split_and!; [unfold Run; rewrite Hm; by destruct (_ ≫= deliberate)|exact Hfirst| |].
  - intros pre m v post comp Hends Hpre Hc text. assert (member_result stack m (Panicked v) = Some (Some (Failure text))) as He by (unfold member_result; by rewrite Hc).
    by rewrite (Hfirst pre m (Panicked v) post (Failure text) Hends Hpre He).
  - intros Hall. unfold Run. rewrite Hm. rewrite wait_none; [done|]. clear -Hall Hr. revert results Hr.
    induction Hall as [|[m e] ends Hx Hall IH]; intros rs Hr; inversion Hr as [|? y ? l' Hy Hl]; subst; constructor; [cbn in *; congruence|by apply IH].
Qed.
End run.

(** ** Concrete checks *)

Definition first_error : ErrGroup := {| group_Wait := λ l, head (omap id l) |}.
#[local] Existing Instance first_error.
Lemma first_error_laws : ErrGroupLaws.
Proof.
  split.
  - intros pre e post Hpre. induction Hpre as [|r pre -> Hpre IH]; [done|]. exact IH.
  - intros l Hl. induction Hl as [|r l -> Hl IH]; [done|]. exact IH.
Qed.
#[local] Existing Instance first_error_laws.

Definition panicking : list (member * ending) :=
  [(WatchGaps, Returned (Some Canceled)); (RunSweeper, Panicked "nil map"); (RunIngest, Returned (Some (Failure "late"))); (RunSource, Returned None)].

Lemma panics_are_contained_witness : Run "goroutine 7" false panicking = Died ("panic in sweeper: nil map" +:+ String (ascii_of 10) "goroutine 7").
Proof.
  destruct (panics_are_contained "goroutine 7" panicking
    (Ingest.mkCheck (Oracle.New (Oracle.mkConfig 1 1000 1 false 1 1 1 0)) (SeqTrack.New (SeqTrack.mkConfig 1 0 0 0)) (Reorder.newReorderBuffer 0 1)
       (Lag.New 0 (Lag.mkConfig ShapeScalar 0 0 0 0 1 1 (float_of_Z 1) None 0))
       (Ingest.mkLife Ingest.PhaseWatching "" false "" false "" false false false None 0) (Ingest.mkCounters 0 0 0 0 0 0) false None ∅ 0))
    as (_ & _ & H & _).
  - do 3 (constructor; [discriminate|]). constructor; [intros _; by exists None|constructor].
  - apply (H [(WatchGaps, Returned (Some Canceled))] RunSweeper "nil map"
      [(RunIngest, Returned (Some (Failure "late"))); (RunSource, Returned None)] "sweeper"); [reflexivity|by constructor|reflexivity].
Defined.

(** The two goroutines without a guard: a panic of the source is not contained. *)
Example source_panics_escape : Run "" false [(RunSource, Panicked "index out of range")] = Escaped.
Proof. reflexivity. Qed.
